(* ===== verification/_CoqProject ===== *)
-Q . S2P
Prelude.v
StdString.v
Socket.v
Config.v
Acceptor.v
IOrderBook.v
BookSpec.v
StdMap.v
MapOrderBook.v
MemoryPool.v
SkipList.v
SkipListRep.v
SkipListOrderBook.v
OrderProtocol.v
StateMachine.v
LOBStateMachine.v
BookTheorems.v
EngineTheorems.v
LOBTheorems.v
KVStateMachine.v
CommandCodec.v
ClientServer.v
LOBCodec.v
OrderClientServer.v
RaftTypes.v
LogUnstable.v
RaftLog.v
WriteAheadLog.v
LogHistory.v
RaftTransport.v
RaftLogTheorems.v
Progress.v
ReadOnly.v
RawNode.v
RaftActions.v
RaftElection.v
RaftLocal.v
RaftCluster.v
RaftReplica.v
LogMatching.v
ReplicaTheorems.v
RaftTheorems.v
Replication.v
Election.v
SnapshotFile.v
Server.v
ServerTheorems.v
Submission.v
TextOrders.v
ServerCluster.v
ServerLogs.v
ServerReads.v
ShardManager.v
Shutdown.v
Main.v
