(* ===== verification/Prelude.v ===== *)
(** * A verification of NexusLOB

    NexusLOB is a limit order book replicated by raft.  A client's command
    (binary for orders, text for the key-value mode) is encoded, proposed to
    the raft node of the leading server, replicated, committed, and applied
    by the state machine of every server, which replies to the client.  This
    library models the program as Rocq functions and proves what makes its
    parts correct, and where they are not, what goes wrong.

    ** Parts of the program and the files that model them

    - Order book.  [IOrderBook] has the data types and the abstract class of
      [app/statemachine/IOrderBook.h] as a type class, [BookSpec] a
      price-time-priority book as an abstract specification and the laws
      [IOrderBookLaws] an engine owes to it, [StdMap] the container
      [std::map], [MapOrderBook] the engine of
      [app/statemachine/MapOrderBook.cpp], whose list nodes carry addresses
      so that the iterators the order index keeps are values.
      [SkipList] models [app/statemachine/SkipList.h] with its nodes in a
      heap, [SkipListRep] shows what a heap has to look like to stand for a
      sorted map and that every call keeps it so, [SkipListOrderBook] is the
      second engine, an instance of the same laws.  [MemoryPool] models the
      pool of that name.  [BookTheorems] and [EngineTheorems] have the
      results.
    - Protocols.  [OrderProtocol] models [app/protocol/OrderProtocol.cpp];
      [KVStateMachine] models the key-value machine with
      [app/protocol/Protocol.cpp] and [KVCodec.cpp].  Writers fill a buffer of
      fixed size at an offset, readers return [None] at the end of it.
    - Text and sockets.  [StdString] has what the program uses of
      [std::string] and [std::stoll], [Socket] a stream that arrives in
      segments and a network that takes what it likes, [Acceptor] the
      listening threads of the three servers.
    - Clients.  [ClientServer] models [app/net/ClientServer.cpp],
      [CommandCodec] the interface of [app/protocol/CommandCodec.h],
      [LOBCodec] the text commands of the order book, [OrderClientServer]
      the binary protocol of [app/net/OrderClientServer.cpp].
    - State machines.  [StateMachine] is the class of
      [app/statemachine/StateMachine.h] with its laws, log replay and
      compaction; [LOBStateMachine] and [KVStateMachine] implement it;
      [LOBTheorems] has the results on orders.
    - Raft log.  [RaftTypes] has the data of [raft/include/raft/Types.h],
      [RPC.h], [Ready.h] and the abstract [Storage] with the laws it
      documents; [LogUnstable] and [RaftLog] model the files of those names;
      [WriteAheadLog] models [app/storage/WriteAheadLog.cpp] down to the
      bytes of its files and is an instance of [Storage]; [LogHistory]
      relates a log to the histories of the terms, the logs their leaders
      had; [RaftLogTheorems] has the results.
    - Raft node.  [Progress], [ReadOnly] and [RawNode] model
      [raft/src/tracker/Progress.cpp], [raft/src/ReadOnly.cpp] and
      [raft/src/RawNode.cpp]: every handler and branch, as functions from a
      record of the class's fields to an optional new one.  [RaftActions]
      breaks each handler into small actions on the election state, the log
      and the messages, [RaftElection] keeps of them what an election sees,
      [RaftLocal] follows the commit index of a node on its own,
      [RaftCluster] puts nodes on an unreliable network, where they crash
      and restart, and proves the invariant of its runs.  [RaftReplica] puts
      a node over its write-ahead log and has the invariant of such
      replicas, [LogMatching] shows that every step keeps it.
      [RaftTheorems] and [ReplicaTheorems] have the results.  [Election]
      follows an election that is won and [Replication] a proposal from the
      leader to a follower and back.
    - Server.  [SnapshotFile] and [Server] model
      [app/storage/SnapshotFile.cpp] and [app/server/Server.cpp]: the loop,
      persisting, sending, applying and answering clients; [ServerTheorems]
      has the results and runs three servers; [Submission] follows the
      commands of clients through the rounds of the loops of a leading and a
      following server, [TextOrders] an order typed as a line of text;
      [ServerCluster] shows that a network of servers that are killed and started again refines the
      cluster, [ServerLogs] that it refines the replicas, [ServerReads]
      follows the reads.  [RaftTransport] models
      [app/net/RaftTransport.cpp]: wire format, connections and the receive
      loop.  [ShardManager] models [app/server/ShardManager.cpp], a raft
      group per symbol.  [Shutdown] models the threads of a server and the
      joins of [Server::stop].  [Config] and [Main] model [app/Config.cpp]
      and [app/main.cpp], its command line, its signal handler and its loop.

    ** What the theorems show

    - The matching engine: any sequence of commands runs without undefined
      behaviour and behaves as the price-time book; matching terminates;
      what a new, cancelled or modified order does, with exact 64-bit
      arithmetic; depth views; NEW keeps a book uncrossed, and MOD can cross
      it.  The skip list is a sorted map for all outcomes of its coin
      flips, and the two engines cannot be told apart.
    - The protocols: decoders accept exactly what encoders produce.
    - Sessions: however the bytes of a client are cut, lines and frames are
      handled once, in order, each with its reply; a typed order and an
      order frame reach the book as the command they spell.  The transport
      delivers on each socket exactly the messages whose send succeeded, in
      order.  Frames and lines that end the process.
    - The state machines: apply on any bytes follows the specification;
      restoring a snapshot and replaying the rest of a log is the same as
      replaying all of it; DEL of a missing key is undefined.
    - The raft log over any lawful storage: slices, the follower's append,
      each committed entry handed out once; crash recovery of the
      write-ahead log from any torn prefix; the persist-and-acknowledge
      cycle; the cases where the log misbehaves.
    - The node and the cluster: at most one leader per term in every run,
      with crashes and restarts, of nodes and of whole servers, and, as an
      example, two when a kill inside [saveHardState] tears its file; a vote
      binds; the commit
      rule; an election is won with the vote of a member whose log is not
      ahead, and a proposal commits after one round with a follower that
      keeps up; the in-flight window is a bounded queue; [ReadOnly] is a
      queue of pending reads, each confirmed by a quorum while it is pending;
      two handlers that lose information.
    - The logs of replicas and of servers of a cluster of at least two
      members (one member alone can lead a term twice, with different
      entries), with crashes and restarts: a term
      has one leader for good, whose log only grows, and two logs that share
      an entry of some index and term agree up to it.  Entries that are
      acknowledged or committed can be lost, by a late append message or by a
      torn record of the log file.
    - The server: without failures a leading and a following server execute
      any sequence of commands as the state machine alone would, with its
      replies, and an order is matched by price-time priority on the way;
      what processing a Ready does, and that it persists before
      it sends and sends before it applies; a restart keeps term and vote,
      and what is left of them when the file was torn; snapshot saving is
      atomic; a run in which a heartbeat makes two
      order books diverge; a node without peers never commits.
    - Reads through the leader in mode ReadIndex: none that a leader
      registers ever returns.
    - Sharding: no shard ever executes a command.
    - Start-up: what a command line must look like to be accepted, and that
      the one that spells a configuration is parsed back to it; the loop of
      [main] reports every change of role, and [main] never returns from it.
      [stop] returns only with every thread joined.

    ** Conventions

    A C++ integer is a [Z] kept in the range of its type, and arithmetic
    writes out its reduction ([u64], [+u]).  [None] is an exception, an
    abort, or behaviour that C++ leaves undefined, as each file says.  Mutexes
    make operations atomic; where the code holds none, [Server] says so.
    Recursion is structural; where a loop has no
    structural measure it has fuel, and its theorems show that the fuel
    given is enough: the matching loops have a step per price level and per
    order of a level, a skip list a step per node, the replay of a log file a
    step per byte, a session a step per segment.

    Parameters stand for what the sources do not fix: the size of the
    [Entry] struct ([Platform]), the draws of [std::random_device]
    ([Random]) and of the skip list ([CoinFlips]), the iteration order of
    [unordered_map] ([MapOrder]), what the network accepts ([Network]) and
    memory holds ([Memory]), the files of a directory, the injected codec,
    reader and callbacks.

    ** What is not modelled

    The system calls that create sockets and threads: what they return is an
    argument or an event of the model.  Overlapping steps of [ShardManager],
    which are a data race.  [ConfChange.h] and [Status.h], which declare what
    nothing implements.  Tests and scripts.  The replicas of [RaftReplica]
    store no snapshots: [poll] never hands one out, so that none is ever
    written.  Their terms and logs stay below the ends of their ranges
    ([fits]).

    Kills.  In the runs of nodes, replicas and servers a kill leaves
    [hardstate.bin] with the old or the new hard state and [log.bin] with
    whole records.  A kill inside [saveHardState], which rewrites the file in
    place, or inside a record is outside these runs: what such files are read
    back as is stated on its own ([torn_hardstate_read],
    [wal_crash_recovery], [torn_record_poisons_log]), and
    [ServerCluster.torn_hardstate_two_leaders] is a run with one.

    Concurrency.  The steps of a server are atomic and any order of them is a
    run; data races and notifications that condition variables lose are not.
    The messages of a Ready may be sent in part before a kill, in any
    selection.  The sends of the transport come one after the other, where
    the server starts a thread per message.

    Limits.  [send] is offered at most 2^31 - 1 bytes (the code casts the
    length to [int]), a write to a closed connection fails instead of raising
    SIGPIPE, a skip list has fewer than 2^31 nodes, and [reserve] finds
    memory. *)

From Stdlib Require Export ZArith Lia.
From stdpp Require Export base tactics option list sorting gmap.

#[global] Open Scope Z_scope.

(** ** Machine integers

    A value of a C++ integer type is a [Z]; the arithmetic operators write
    out the reduction to the type's width.  Unsigned arithmetic wraps, as
    C++ defines it.  Signed overflow is undefined in C++; the model wraps
    in two's complement, and the theorems that concern signed sums show
    that no reduction takes place. *)

Definition u8 (z : Z) : Z := z mod 2 ^ 8.
Definition u32 (z : Z) : Z := z mod 2 ^ 32.
Definition u64 (z : Z) : Z := z mod 2 ^ 64.
Definition i64 (z : Z) : Z := (z + 2 ^ 63) mod 2 ^ 64 - 2 ^ 63.

Definition is_u8 (z : Z) : Prop := 0 <= z < 2 ^ 8.
Definition is_u32 (z : Z) : Prop := 0 <= z < 2 ^ 32.
Definition is_u64 (z : Z) : Prop := 0 <= z < 2 ^ 64.
Definition is_i64 (z : Z) : Prop := - 2 ^ 63 <= z < 2 ^ 63.

#[global] Instance is_u8_dec z : Decision (is_u8 z).
Proof. unfold is_u8. apply _. Defined.
#[global] Instance is_u32_dec z : Decision (is_u32 z).
Proof. unfold is_u32. apply _. Defined.
#[global] Instance is_u64_dec z : Decision (is_u64 z).
Proof. unfold is_u64. apply _. Defined.
#[global] Instance is_i64_dec z : Decision (is_i64 z).
Proof. unfold is_i64. apply _. Defined.

Declare Scope machine_scope.
Delimit Scope machine_scope with mach.
Notation "a +u b" := (u64 (a + b)) (at level 50, left associativity) : machine_scope.
Notation "a -u b" := (u64 (a - b)) (at level 50, left associativity) : machine_scope.
Notation "a +s b" := (i64 (a + b)) (at level 50, left associativity) : machine_scope.
Notation "a -s b" := (i64 (a - b)) (at level 50, left associativity) : machine_scope.
#[global] Open Scope machine_scope.

Create HintDb machine.

Lemma u8_small z : is_u8 z -> u8 z = z.
Proof. apply Z.mod_small. Qed.
Lemma u32_small z : is_u32 z -> u32 z = z.
Proof. apply Z.mod_small. Qed.
Lemma u64_small z : is_u64 z -> u64 z = z.
Proof. apply Z.mod_small. Qed.
Lemma i64_small z : is_i64 z -> i64 z = z.
Proof.
  unfold is_i64, i64. intros H. rewrite Z.mod_small; lia.
Qed.

Lemma u32_range z : is_u32 (u32 z).
Proof. apply Z.mod_pos_bound. lia. Qed.
Lemma u64_range z : is_u64 (u64 z).
Proof. apply Z.mod_pos_bound. lia. Qed.
Lemma i64_range z : is_i64 (i64 z).
Proof.
  unfold is_i64, i64. pose proof (Z.mod_pos_bound (z + 2 ^ 63) (2 ^ 64)). lia.
Qed.

(** The casts [static_cast<uint64_t>] and [static_cast<int64_t>] are
    [u64] and [i64]: one undoes the other. *)
Lemma i64_u64 z : is_i64 z -> i64 (u64 z) = z.
Proof.
  unfold i64, u64. intros H.
  rewrite Zplus_mod_idemp_l. by apply i64_small.
Qed.

Lemma u64_i64 z : is_u64 z -> u64 (i64 z) = z.
Proof.
  unfold i64, u64. intros H. rewrite Zminus_mod_idemp_l.
  replace (z + 2 ^ 63 - 2 ^ 63) with z by lia. by apply Z.mod_small.
Qed.

#[export] Hint Resolve u32_range u64_range i64_range : machine.

(** ** Running a list of operations that may fail *)

Definition run {A O : Type} (f : A -> O -> option A) (a : A) (os : list O) : option A :=
  foldl (fun acc o => a ← acc; f a o) (Some a) os.

Lemma run_none {A O} (f : A -> O -> option A) os :
  foldl (fun acc o => a ← acc; f a o) None os = None.
Proof. by induction os. Qed.

Lemma run_cons {A O} (f : A -> O -> option A) a o os : run f a (o :: os) = a ← f a o; run f a os.
Proof. unfold run. cbn [foldl mbind option_bind]. destruct (f a o); [done|apply run_none]. Qed.

Lemma run_app {A O} (f : A -> O -> option A) os1 os2 : forall a,
  run f a (os1 ++ os2) = a ← run f a os1; run f a os2.
Proof.
  induction os1 as [|o os1 IH]; intros a; [done|]. cbn [app]. rewrite !run_cons.
  destruct (f a o); [apply IH|done].
Qed.

(** A run of operations that are steps is a sequence of steps. *)
Lemma run_rtc {A O} (f : A -> O -> option A) (R : relation A) (P : O -> Prop) os :
  (forall a o a', P o -> f a o = Some a' -> R a a') -> Forall P os ->
  forall a a', run f a os = Some a' -> rtc R a a'.
Proof.
  unfold run. intros Hf Hos. induction Hos as [|o os Ho _ IH]; intros a a' Hs; [by injection Hs as <-|].
  cbn [foldl mbind option_bind] in Hs. destruct (f a o) as [a1|] eqn:E; [|by rewrite run_none in Hs].
  eapply rtc_l; [by eapply Hf|by apply IH].
Qed.

(** An invariant of the operations is one of their runs. *)
Lemma run_invariant {A O} (f : A -> O -> option A) (P : A -> Prop) :
  (forall a o a', P a -> f a o = Some a' -> P a') ->
  forall os a a', P a -> run f a os = Some a' -> P a'.
Proof.
  unfold run. intros Hf os. induction os as [|o os IH]; intros a a' Ha Hr; [by simplify_eq/=|].
  cbn [foldl mbind option_bind] in Hr. destruct (f a o) as [a1|] eqn:E.
  - by apply (IH a1); [apply (Hf a o)|].
  - by rewrite run_none in Hr.
Qed.

(** Discharge a goal about ranges and widths by unfolding to [lia]. *)
Ltac mach_unfold := unfold is_u8, is_u32, is_u64, is_i64 in *.
Ltac mach := mach_unfold; lia.

(** Remove the width reductions that the context shows to be identities. *)
Ltac mach_simpl :=
  repeat first
    [ rewrite u64_small by mach
    | rewrite i64_small by mach
    | rewrite u32_small by mach ].

(** ** Lists *)

Lemma elem_of_drop_1 {A} (x : A) n l : x ∈ drop n l -> x ∈ l.
Proof. rewrite <- (take_drop n l) at 2. rewrite elem_of_app. tauto. Qed.

Lemma StronglySorted_drop {A} (R : A -> A -> Prop) n l :
  StronglySorted R l -> StronglySorted R (drop n l).
Proof. rewrite <- (take_drop n l) at 1. apply StronglySorted_app_1_r. Qed.

Lemma StronglySorted_impl {A} (R S : A -> A -> Prop) l :
  (forall x y, R x y -> S x y) -> StronglySorted R l -> StronglySorted S l.
Proof.
  intros HRS. induction 1 as [|x l Hl IH Hx]; constructor; [done|].
  eapply Forall_impl; [exact Hx|]. auto.
Qed.

Lemma NoDup_fmap_inj_on {A B} (f : A -> B) (l : list A) x y :
  NoDup (f <$> l) -> x ∈ l -> y ∈ l -> f x = f y -> x = y.
Proof.
  intros Hnd [i Hi]%list_elem_of_lookup [j Hj]%list_elem_of_lookup Hf.
  assert (i = j) as ->; [|congruence].
  eapply (NoDup_lookup (f <$> l)); [done| |]; rewrite list_lookup_fmap.
  - rewrite Hi. done.
  - rewrite Hj. simpl. by rewrite Hf.
Qed.

(** ** Bytes

    [std::vector<uint8_t>], [std::string] and [std::vector<char>] are lists
    of bytes, each a [Z] in [0, 256).  [put_le n v] is the loop that pushes
    [(v >> (i*8)) & 0xFF] for [i < n]; [get_le n bs] is the loop that
    accumulates [out |= bs[i] << (i*8)]. *)

Abbreviation bytes := (list Z).

Definition bytes_ok (bs : bytes) : Prop := Forall is_u8 bs.

Definition put_le (n : nat) (v : Z) : bytes :=
  (fun i => Z.land (Z.shiftr v (Z.of_nat i * 8)) 255) <$> seq 0 n.

Definition get_le (n : nat) (bs : bytes) : Z :=
  foldl (fun out i => Z.lor out (Z.shiftl (nth i bs 0) (Z.of_nat i * 8))) 0 (seq 0 n).

(** A bounds-checked read at an offset: [if (off + n > buf.size()) return
    false], else the value and the advanced offset. *)
Definition read_le (n : nat) (buf : bytes) (off : nat) : option (Z * nat) :=
  if bool_decide (length buf < off + n)%nat then None
  else Some (get_le n (drop off buf), (off + n)%nat).

(** A bounds-checked read of [len] raw bytes at an offset. *)
Definition read_raw (len : Z) (buf : bytes) (off : nat) : option (bytes * nat) :=
  if Z.of_nat (length buf) <? Z.of_nat off + len then None
  else Some (take (Z.to_nat len) (drop off buf), (off + Z.to_nat len)%nat).

Lemma length_put_le n v : length (put_le n v) = n.
Proof. unfold put_le. by rewrite length_fmap, length_seq. Qed.

Lemma put_le_nth n v i :
  (i < n)%nat -> nth i (put_le n v) 0 = (v / 2 ^ (Z.of_nat i * 8)) mod 256.
Proof.
  intros Hi. unfold put_le.
  rewrite (nth_lookup_Some _ i 0 ((v / 2 ^ (Z.of_nat i * 8)) mod 256)); [done|].
  rewrite list_lookup_fmap, lookup_seq_lt by lia. simpl. f_equal.
  change 255 with (Z.ones 8). rewrite Z.land_ones by lia.
  by rewrite Z.shiftr_div_pow2 by lia.
Qed.

Lemma put_le_ok n v : bytes_ok (put_le n v).
Proof.
  apply Forall_forall. intros b Hb.
  apply list_elem_of_fmap in Hb as (i & -> & _).
  change 255 with (Z.ones 8). rewrite Z.land_ones by lia.
  apply Z.mod_pos_bound. lia.
Qed.

Lemma bytes_ok_nth bs i : bytes_ok bs -> 0 <= nth i bs 0 < 256.
Proof.
  intros H. destruct (decide (i < length bs)%nat) as [Hi|Hi].
  - destruct (lookup_lt_is_Some_2 bs i Hi) as [b Hb].
    rewrite (nth_lookup_Some _ _ _ _ Hb).
    exact (Forall_lookup_1 _ _ _ _ H Hb).
  - rewrite nth_overflow by lia. lia.
Qed.

(** Appending a byte above the bits already accumulated is an addition. *)
Lemma lor_shiftl_add a b k :
  0 <= k -> 0 <= a < 2 ^ k -> Z.lor a (Z.shiftl b k) = a + b * 2 ^ k.
Proof.
  intros Hk Ha. rewrite Z.shiftl_mul_pow2 by lia.
  assert (Z.land a (b * 2 ^ k) = 0) as Hland.
  { apply Z.bits_inj. intros j. rewrite Z.land_spec, Z.bits_0.
    destruct (Z.lt_ge_cases j 0); [by rewrite Z.testbit_neg_r|].
    destruct (Z.lt_ge_cases j k) as [Hj|Hj].
    - by rewrite Z.mul_pow2_bits_low, andb_false_r.
    - rewrite <- (Z.mod_small a (2 ^ k)) by lia.
      by rewrite Z.mod_pow2_bits_high by lia. }
  rewrite <- Z.lxor_lor by done. symmetry. by apply Z.add_nocarry_lxor.
Qed.

Lemma get_le_S n bs :
  get_le (S n) bs = Z.lor (get_le n bs) (Z.shiftl (nth n bs 0) (Z.of_nat n * 8)).
Proof. unfold get_le. rewrite seq_S, foldl_app. done. Qed.

Lemma get_le_bound n bs : bytes_ok bs -> 0 <= get_le n bs < 2 ^ (Z.of_nat n * 8).
Proof.
  intros H. induction n as [|n IH]; [simpl; unfold get_le; simpl; lia|].
  rewrite get_le_S, lor_shiftl_add by lia.
  pose proof (bytes_ok_nth bs n H).
  replace (Z.of_nat (S n) * 8) with (Z.of_nat n * 8 + 8) by lia.
  rewrite Z.pow_add_r by lia. nia.
Qed.

Lemma get_le_add n bs :
  bytes_ok bs -> get_le (S n) bs = get_le n bs + nth n bs 0 * 2 ^ (Z.of_nat n * 8).
Proof.
  intros H. rewrite get_le_S. apply lor_shiftl_add; [lia|]. by apply get_le_bound.
Qed.
Lemma get_le_take n m bs : (n <= m)%nat -> get_le n (take m bs) = get_le n bs.
Proof.
  induction n as [|n IH]; intros H; [done|].
  rewrite !get_le_S, IH by lia. do 2 f_equal.
  destruct (decide (n < length bs)%nat) as [Hn|Hn].
  - destruct (lookup_lt_is_Some_2 bs n Hn) as [b Hb].
    rewrite (nth_lookup_Some bs _ _ _ Hb). apply nth_lookup_Some.
    rewrite lookup_take_lt by lia. done.
  - rewrite !nth_overflow; [done|lia|rewrite length_take; lia].
Qed.

(** Decoding what the encoder wrote gives the value reduced to its width. *)
Lemma get_put_le n v rest : get_le n (put_le n v ++ rest) = v mod 2 ^ (Z.of_nat n * 8).
Proof.
  rewrite <- (get_le_take n n) by lia. rewrite take_app_length' by (by rewrite length_put_le).
  assert (forall m, (m <= n)%nat -> get_le m (put_le n v) = v mod 2 ^ (Z.of_nat m * 8))
    as Hm; [|by apply Hm].
  induction m as [|m IH]; intros Hm.
  - unfold get_le. simpl. by rewrite Z.mod_1_r.
  - rewrite get_le_add by apply put_le_ok.
    rewrite IH, put_le_nth by lia.
    replace (Z.of_nat (S m) * 8) with (Z.of_nat m * 8 + 8) by lia.
    rewrite Z.pow_add_r by lia. change (2 ^ 8) with 256.
    rewrite Z.rem_mul_r; lia.
Qed.

(** Bytes that are not there count as zeros. *)
Lemma get_le_ext n bs bs' : (forall i, (i < n)%nat -> nth i bs 0 = nth i bs' 0) -> get_le n bs = get_le n bs'.
Proof.
  induction n as [|n IH]; intros He; [done|]. rewrite !get_le_S, IH, He by (intros; try apply He; lia). done.
Qed.

Lemma get_le_beyond n m bs : (length bs <= m)%nat -> get_le (m + n) bs = get_le m bs.
Proof.
  intros Hm. induction n as [|n IH]; [by rewrite Nat.add_0_r|].
  rewrite Nat.add_succ_r, get_le_S, IH, nth_overflow by lia. by rewrite Z.shiftl_0_l, Z.lor_0_r.
Qed.

Lemma get_le_zeros n m bs : get_le n (bs ++ replicate m 0) = get_le n bs.
Proof.
  apply get_le_ext. intros i _. destruct (decide (i < length bs)%nat) as [Hi|Hi]; [by rewrite app_nth1|].
  rewrite app_nth2, (nth_overflow bs) by lia. rewrite nth_lookup.
  destruct (replicate m 0 !! _) eqn:E; [by apply lookup_replicate in E as [-> _]|done].
Qed.

(** The first bytes of a number are its residue. *)
Lemma get_le_torn n k v rest :
  get_le n (take k (put_le n v ++ rest)) = v mod 2 ^ (Z.of_nat (Nat.min k n) * 8).
Proof.
  destruct (decide (n <= k)%nat) as [Hk|Hk].
  - by rewrite get_le_take, get_put_le, Nat.min_r by lia.
  - rewrite take_app_le by (rewrite length_put_le; lia). rewrite Nat.min_l by lia.
    assert (take k (put_le n v) = put_le k v) as ->.
    { unfold put_le. rewrite <- fmap_take. by rewrite take_seq, Nat.min_l by lia. }
    replace n with (k + (n - k))%nat by lia. rewrite get_le_beyond by (by rewrite length_put_le).
    rewrite <- (app_nil_r (put_le k v)). apply get_put_le.
Qed.

(** [at_off buf off rest]: the reader stands at [off] in [buf] and [rest] is
    what it has left.  The two facts below drive every round-trip proof:
    reading where the encoder's bytes start yields the value and leaves the
    rest. *)
Definition at_off (buf : bytes) (off : nat) (rest : bytes) : Prop :=
  (off <= length buf)%nat /\ drop off buf = rest.

Lemma at_off_0 buf : at_off buf 0 buf.
Proof. split; [lia|done]. Qed.

Lemma at_off_app buf off bs rest :
  at_off buf off (bs ++ rest) -> at_off buf (off + length bs) rest.
Proof.
  intros [Ho H]. pose proof (f_equal length H) as HL.
  rewrite length_drop, length_app in HL. split; [lia|].
  rewrite <- drop_drop, H. by rewrite drop_app_length.
Qed.

Lemma read_put_le n v buf off rest :
  at_off buf off (put_le n v ++ rest) ->
  read_le n buf off = Some (v mod 2 ^ (Z.of_nat n * 8), (off + n)%nat)
  /\ at_off buf (off + n) rest.
Proof.
  intros H. split.
  - destruct H as [Ho H]. pose proof (f_equal length H) as HL.
    rewrite length_drop, length_app, length_put_le in HL.
    unfold read_le. rewrite bool_decide_eq_false_2 by lia. by rewrite H, get_put_le.
  - apply at_off_app in H. by rewrite length_put_le in H.
Qed.

Lemma read_raw_app bs buf off rest :
  at_off buf off (bs ++ rest) ->
  read_raw (Z.of_nat (length bs)) buf off = Some (bs, (off + length bs)%nat)
  /\ at_off buf (off + length bs) rest.
Proof.
  intros H. split; [|by apply at_off_app].
  destruct H as [Ho H]. pose proof (f_equal length H) as HL.
  rewrite length_drop, length_app in HL.
  unfold read_raw. replace (_ <? _) with false by (symmetry; apply Z.ltb_ge; lia).
  rewrite Nat2Z.id, H. by rewrite take_app_length.
Qed.

Lemma read_le_None n buf off :
  read_le n buf off = None <-> (length buf < off + n)%nat.
Proof. unfold read_le. case_bool_decide; split; intros; try done; lia. Qed.

Lemma read_le_Some n buf off v off' :
  bytes_ok buf -> read_le n buf off = Some (v, off') ->
  0 <= v < 2 ^ (Z.of_nat n * 8) /\ off' = (off + n)%nat /\ (off' <= length buf)%nat.
Proof.
  intros Hok. unfold read_le. case_bool_decide; intros E; simplify_eq.
  split; [|lia]. apply get_le_bound, Forall_drop, Hok.
Qed.

Lemma read_raw_Some len buf off bs off' :
  0 <= len -> read_raw len buf off = Some (bs, off') ->
  Z.of_nat (length bs) = len /\ off' = (off + Z.to_nat len)%nat
  /\ (off' <= length buf)%nat.
Proof.
  intros Hl. unfold read_raw. destruct (_ <? _) eqn:E; intros H; simplify_eq.
  apply Z.ltb_ge in E. rewrite length_take, length_drop. lia.
Qed.

(** Writing back what was read gives the bytes that were there. *)
Lemma put_get_le n bs :
  bytes_ok bs -> (n <= length bs)%nat -> put_le n (get_le n bs) = take n bs.
Proof.
  intros Hok Hl. apply (list_eq_same_length _ _ n); [|by rewrite length_put_le|].
  { rewrite length_take. lia. }
  intros i x y Hi Hx Hy. rewrite lookup_take_lt in Hy by lia.
  apply (nth_lookup_Some _ _ 0) in Hx, Hy. subst.
  rewrite put_le_nth by lia. clear Hl.
  induction n as [|n IH]; [lia|]. rewrite get_le_add by done.
  pose proof (bytes_ok_nth bs n Hok) as Hb. pose proof (get_le_bound n bs Hok) as Hg.
  destruct (decide (i = n)) as [->|Hne].
  - rewrite Z.div_add by lia. rewrite Z.div_small by lia. rewrite Z.add_0_l. by apply Z.mod_small.
  - rewrite <- IH by lia.
    replace (Z.of_nat n * 8) with ((Z.of_nat n - Z.of_nat i - 1) * 8 + 8 + Z.of_nat i * 8) by lia.
    rewrite !Z.pow_add_r by lia.
    replace (get_le n bs + nth n bs 0 * (2 ^ ((Z.of_nat n - Z.of_nat i - 1) * 8) * 2 ^ 8 * 2 ^ (Z.of_nat i * 8)))
      with (get_le n bs + nth n bs 0 * 2 ^ ((Z.of_nat n - Z.of_nat i - 1) * 8) * 256 * 2 ^ (Z.of_nat i * 8)) by lia.
    rewrite Z.div_add by lia. by rewrite Z.mod_add by lia.
Qed.

(** ** Readers

    A reader takes the buffer and an offset and gives a value and the offset
    after it.  It is a [Codec] of an encoding when it accepts exactly the
    encodings of the values in its range, wherever they stand. *)
Class Codec {A} (get : bytes -> nat -> option (A * nat)) (enc : A -> bytes) (ok : A -> Prop) :=
  codec_iff buf off v off' :
    bytes_ok buf ->
    get buf off = Some (v, off')
    <-> ok v /\ off' = (off + length (enc v))%nat /\ exists rest, at_off buf off (enc v ++ rest).

#[global] Instance read_le_codec n :
  Codec (read_le n) (put_le n) (fun v => 0 <= v < 2 ^ (Z.of_nat n * 8)).
Proof.
  intros buf off v off' Hok. rewrite length_put_le. split.
  - intros H. destruct (read_le_Some _ _ _ _ _ Hok H) as (Hv & -> & Hl).
    split; [done|]. split; [done|]. exists (drop n (drop off buf)). split; [lia|].
    unfold read_le in H. case_bool_decide; simplify_eq.
    rewrite put_get_le; [by rewrite take_drop|by apply Forall_drop|].
    rewrite length_drop. lia.
  - intros (Hv & -> & rest & H). apply read_put_le in H as [H _].
    by rewrite Z.mod_small in H.
Qed.

(** A reader followed by a continuation, in both directions. *)
Section Codec.
Context {A} (get : bytes -> nat -> option (A * nat)) (enc : A -> bytes) (ok : A -> Prop).
Context `{HC : !Codec get enc ok}.

Lemma codec_inv {R} buf off cur (k : A * nat -> option R) r :
  bytes_ok buf -> at_off buf off cur -> (get buf off ≫= k) = Some r ->
  exists v rest, cur = enc v ++ rest /\ ok v
    /\ at_off buf (off + length (enc v)) rest
    /\ k (v, (off + length (enc v))%nat) = Some r.
Proof.
  intros Hok [Ho <-] H. destruct (get buf off) as [[v off']|] eqn:E; simpl in H; [|done].
  apply HC in E as (Hv & -> & rest & Hat); [|done]. exists v, rest.
  split_and!; [apply Hat|done|by apply at_off_app in Hat|done].
Qed.

Lemma codec_read buf off v rest :
  bytes_ok buf -> ok v -> at_off buf off (enc v ++ rest) ->
  get buf off = Some (v, (off + length (enc v))%nat) /\ at_off buf (off + length (enc v)) rest.
Proof.
  intros Hok Hv Hat. split; [|by apply at_off_app].
  apply HC; [done|]. split_and!; [done..|by exists rest].
Qed.

Lemma codec_step {R} buf off v rest (k : A * nat -> option R) :
  bytes_ok buf -> ok v -> at_off buf off (enc v ++ rest) ->
  (get buf off ≫= k) = k (v, (off + length (enc v))%nat)
  /\ at_off buf (off + length (enc v)) rest.
Proof.
  intros Hok Hv Hat. by destruct (codec_read buf off v rest Hok Hv Hat) as [-> ?].
Qed.

Lemma codec_bind {R} buf off v rest (k : A * nat -> option R) r :
  bytes_ok buf -> at_off buf off (enc v ++ rest) -> ok v ->
  (at_off buf (off + length (enc v)) rest -> k (v, (off + length (enc v))%nat) = r) ->
  (get buf off ≫= k) = r.
Proof. intros Hok Hat Hv Hk. destruct (codec_step buf off v rest k) as [-> ?]; auto. Qed.
End Codec.

(** [codec_invert H] takes apart one reader of [H : (get buf off ≫= k) = Some r]. *)
Ltac codec_invert H :=
  let v := fresh "v" in let rest := fresh "rest" in let Hv := fresh "Hv" in let Hat := fresh "Hat" in
  let H' := fresh "H" in
  match goal with
  | Hok : bytes_ok ?buf, Hat0 : at_off ?buf _ _ |- _ =>
      destruct (codec_inv _ _ _ _ _ _ _ _ Hok Hat0 H) as (v & rest & -> & Hv & Hat & H');
      clear Hat0 H; rename H' into H; cbn beta iota in H
  end.

(** [codec_run] evaluates one reader of a goal [(get buf off ≫= k) = r]. *)
Ltac codec_run :=
  match goal with
  | Hok : bytes_ok ?buf, Hat0 : at_off ?buf ?off (?e ++ ?rest) |- mbind (M := option) ?k (?get ?buf ?off) = _ =>
      let Hat := fresh "Hat" in
      eapply (codec_bind get _ _ buf off _ rest);
      [exact Hok|exact Hat0| |intros Hat; clear Hat0; cbn beta iota]
  end.
