(* ===== verification/StdString.v ===== *)
(** * [std::string] and the number conversions of [<string>]

    Strings are lists of bytes.  [find] of a character, [std::to_string],
    and [std::stoull], [std::stoll] and [std::stoul] in base 10: leading
    white space is skipped, a sign may follow, then the longest run of
    digits; [None] is the exception thrown when there is no digit or the
    value does not fit.  A minus sign before an unsigned number negates it
    modulo the width, as [strtoull] does. *)

From Stdlib Require Import Ascii String.
From S2P Require Import Prelude.

(** A literal. *)
Definition ascii_bytes (s : string) : bytes :=
  (fun c => Z.of_N (N_of_ascii c)) <$> list_ascii_of_string s.

(** [s.find(c)] with [None] for [npos]. *)
Fixpoint find_byte (c : Z) (s : bytes) : option nat :=
  match s with
  | [] => None
  | x :: s => if x =? c then Some 0%nat else S <$> find_byte c s
  end.

Lemma find_byte_Some c s i :
  find_byte c s = Some i <-> exists s1 s2, s = s1 ++ c :: s2 /\ length s1 = i /\ c ∉ s1.
Proof.
  revert i. induction s as [|x s IH]; intros i; simpl.
  { split; [done|]. intros (s1 & s2 & E & _). by destruct s1. }
  destruct (Z.eqb_spec x c) as [->|Hne].
  - split.
    + intros [= <-]. exists [], s. split_and!; [done..|]. apply not_elem_of_nil.
    + intros ([|y s1] & s2 & E & <- & Hni); [done|]. simplify_eq. set_solver.
  - rewrite fmap_Some. split.
    + intros (j & (s1 & s2 & -> & <- & Hni)%IH & ->). exists (x :: s1), s2.
      split_and!; [done..|]. set_solver.
    + intros ([|y s1] & s2 & E & <- & Hni); simplify_eq/=. exists (length s1). split; [|done].
      apply IH. exists s1, s2. set_solver.
Qed.

Lemma find_byte_None c s : find_byte c s = None <-> c ∉ s.
Proof.
  induction s as [|x s IH]; simpl; [split; [intros _; apply not_elem_of_nil|done]|].
  destruct (Z.eqb_spec x c) as [->|Hne]; [set_solver|]. rewrite fmap_None, IH. set_solver.
Qed.

(** What follows a character. *)
Lemma drop_past {A} (l1 : list A) x l2 : drop (S (length l1)) (l1 ++ x :: l2) = l2.
Proof. induction l1; [done|]. simpl. done. Qed.

(** [isspace] and [isdigit] in the C locale. *)
Definition is_space (c : Z) : bool := (c =? 32) || (9 <=? c) && (c <=? 13).
Definition is_digit (c : Z) : bool := (48 <=? c) && (c <=? 57).

Fixpoint skip_spaces (s : bytes) : bytes :=
  match s with
  | c :: s' => if is_space c then skip_spaces s' else s
  | [] => []
  end.

(** The longest run of digits, as a number. *)
Fixpoint digits (acc : Z) (s : bytes) : Z :=
  match s with
  | c :: s => if is_digit c then digits (10 * acc + (c - 48)) s else acc
  | [] => acc
  end.

(** The sign and the magnitude [strtoll] and [strtoull] read. *)
Definition strto (s : bytes) : option (bool * Z) :=
  let s := skip_spaces s in
  let '(neg, s) := match s with
                   | c :: s' => if c =? 45 then (true, s') else if c =? 43 then (false, s') else (false, s)
                   | [] => (false, s)
                   end in
  match s with
  | c :: _ => if is_digit c then Some (neg, digits 0 s) else None
  | [] => None
  end.

Definition stoull (s : bytes) : option Z :=
  '(neg, v) ← strto s;
  if v <? 2 ^ 64 then Some (if neg : bool then u64 (- v) else v) else None.

(** [unsigned long] has 64 bits. *)
Definition stoul (s : bytes) : option Z := stoull s.

Definition stoll (s : bytes) : option Z :=
  '(neg, v) ← strto s;
  let v := if neg : bool then - v else v in
  if bool_decide (is_i64 v) then Some v else None.

(** ** Printing *)

Fixpoint print_nat (fuel : nat) (v : Z) : bytes :=
  match fuel with
  | O => []
  | S fuel => if v <? 10 then [48 + v] else print_nat fuel (v / 10) ++ [48 + v mod 10]
  end.

(** [std::to_string]; twenty digits are enough for 64 bits. *)
Definition to_string (v : Z) : bytes :=
  if v <? 0 then 45 :: print_nat 20 (- v) else print_nat 20 v.

(** ** Printed numbers read back *)

Lemma digits_app acc s1 s2 :
  Forall (fun c => is_digit c = true) s1 -> digits acc (s1 ++ s2) = digits (digits acc s1) s2.
Proof.
  intros H. revert acc. induction H as [|c s1 Hc _ IH]; intros acc; [done|]. simpl. by rewrite Hc.
Qed.

Lemma print_nat_digits fuel : forall v,
  0 <= v -> Forall (fun c => is_digit c = true) (print_nat fuel v).
Proof.
  induction fuel as [|fuel IH]; intros v Hv; simpl; [done|]. unfold is_digit.
  destruct (Z.ltb_spec v 10); [constructor; [lia|done]|].
  apply Forall_app. split; [apply IH, Z.div_pos; lia|].
  pose proof (Z.mod_pos_bound v 10). constructor; [lia|done].
Qed.

Lemma digits_print fuel : forall v,
  0 <= v < 10 ^ Z.of_nat fuel -> digits 0 (print_nat fuel v) = v.
Proof.
  induction fuel as [|fuel IH]; intros v Hv; [simpl in *; lia|]. cbn [print_nat].
  destruct (Z.ltb_spec v 10).
  - unfold digits, is_digit. replace (_ && _) with true by lia. lia.
  - assert (0 <= v / 10 < 10 ^ Z.of_nat fuel) as Hd.
    { split; [apply Z.div_pos; lia|]. apply Z.div_lt_upper_bound; [lia|].
      rewrite Nat2Z.inj_succ, Z.pow_succ_r in Hv by lia. lia. }
    rewrite digits_app, (IH _ Hd) by (apply print_nat_digits; lia).
    pose proof (Z.mod_pos_bound v 10). unfold digits, is_digit.
    replace (_ && _) with true by lia. pose proof (Z.div_mod v 10). lia.
Qed.

Lemma print_nat_head fuel v :
  0 <= v -> exists c s, print_nat (S fuel) v = c :: s /\ is_digit c = true.
Proof.
  intros Hv. pose proof (print_nat_digits (S fuel) v Hv) as Hd.
  destruct (print_nat (S fuel) v) as [|c s] eqn:E.
  - simpl in E. destruct (v <? 10); [done|]. by destruct (print_nat fuel (v / 10)).
  - exists c, s. split; [done|]. by apply Forall_cons in Hd as [? _].
Qed.

Lemma digit_not_special c : is_digit c = true -> is_space c = false /\ (c =? 45) = false /\ (c =? 43) = false.
Proof. unfold is_digit, is_space. lia. Qed.

Lemma strto_print v rest :
  - 10 ^ 20 < v < 10 ^ 20 -> match rest with c :: _ => is_digit c = false | [] => True end ->
  strto (to_string v ++ rest) = Some (v <? 0, Z.abs v).
Proof.
  intros Hv Hrest. unfold to_string.
  assert (forall a, 0 <= a < 10 ^ 20 -> digits 0 (print_nat 20 a ++ rest) = a) as Hd.
  { intros a Ha. rewrite digits_app by (apply print_nat_digits; lia). rewrite (digits_print 20) by done.
    destruct rest as [|c rest]; [done|]. simpl. by rewrite Hrest. }
  destruct (Z.ltb_spec v 0) as [Hneg|Hpos].
  - destruct (print_nat_head 19 (- v) ltac:(lia)) as (c & s & E & Hc).
    specialize (Hd (- v) ltac:(lia)). rewrite E in Hd |- *.
    unfold strto. cbn [app skip_spaces is_space]. change (is_space 45) with false. cbv iota.
    change (45 =? 45) with true. cbv iota. rewrite Hc. cbn [app] in Hd. rewrite Hd. do 2 f_equal. lia.
  - destruct (print_nat_head 19 v ltac:(lia)) as (c & s & E & Hc).
    specialize (Hd v ltac:(lia)). rewrite E in Hd |- *. cbn [app] in *.
    destruct (digit_not_special c Hc) as (H1 & H2 & H3).
    unfold strto. cbn [skip_spaces]. rewrite H1, H2, H3, Hc, Hd. do 2 f_equal. lia.
Qed.

Lemma stoll_print v rest :
  is_i64 v -> match rest with c :: _ => is_digit c = false | [] => True end ->
  stoll (to_string v ++ rest) = Some v.
Proof.
  intros Hv Hr. unfold stoll. rewrite strto_print by (done || mach). cbn [mbind option_bind].
  replace (if v <? 0 then - Z.abs v else Z.abs v) with v by (destruct (Z.ltb_spec v 0); lia).
  by rewrite bool_decide_true.
Qed.

Lemma stoull_print v rest :
  is_u64 v -> match rest with c :: _ => is_digit c = false | [] => True end ->
  stoull (to_string v ++ rest) = Some v.
Proof.
  intros Hv Hr. unfold stoull. rewrite strto_print by (done || mach). cbn [mbind option_bind].
  replace (v <? 0) with false by mach. rewrite Z.abs_eq by mach. by replace (v <? 2 ^ 64) with true by mach.
Qed.

Lemma stoll_to_string v : is_i64 v -> stoll (to_string v) = Some v.
Proof. intros Hv. rewrite <- (app_nil_r (to_string v)). by apply stoll_print. Qed.

Lemma stoull_to_string v : is_u64 v -> stoull (to_string v) = Some v.
Proof. intros Hv. rewrite <- (app_nil_r (to_string v)). by apply stoull_print. Qed.
