(* ===== verification/Socket.v ===== *)
(** * Stream sockets, as the servers use them

    What a peer sends arrives in segments whose boundaries mean nothing:
    [recv] returns at most the number of bytes asked for and fails once the
    connection is closed.  [readN] of [src/app/net/RaftTransport.cpp] (and
    the loops of [OrderClientServer::readFrame]) collect exactly [n] bytes;
    [writeAll] offers the rest of a buffer to [send] until all of it is
    accepted.  How much a call of [send] accepts, and whether a connection
    can be made, are parameters ([Network]).

    The code casts the length it offers to [int], which changes nothing for
    buffers below 2^31 bytes, the only ones meant here.  A write to a
    connection the peer has closed is a call that accepts nothing; where the
    process does not ignore SIGPIPE it would end instead. *)

From S2P Require Import Prelude.

(** ** Receiving *)

(** The segments still to come; an empty one is a [recv] of no bytes, which
    the code takes for the end. *)
Abbreviation Incoming := (list bytes).

Definition recv (n : nat) (inc : Incoming) : option (bytes * Incoming) :=
  match inc with
  | [] | [] :: _ => None
  | c :: inc => if bool_decide (length c <= n)%nat then Some (c, inc)
                else Some (take n c, drop n c :: inc)
  end.

(** The loop of [readN], with [got] bytes received so far. *)
Fixpoint readN_loop (fuel : nat) (n : nat) (got : bytes) (inc : Incoming)
  : option (bytes * Incoming) :=
  if bool_decide (length got < n)%nat then
    match fuel with
    | O => None
    | S fuel => '(c, inc) ← recv (n - length got) inc; readN_loop fuel n (got ++ c) inc
    end
  else Some (got, inc).

Definition readN (n : nat) (inc : Incoming) : option (bytes * Incoming) := readN_loop n n [] inc.

(** A live stream: no empty segment before its end. *)
Definition live (inc : Incoming) : Prop := Forall (fun c => c <> []) inc.

#[global] Instance live_dec inc : Decision (live inc).
Proof. unfold live. apply _. Defined.

Lemma recv_live n inc :
  live inc -> (0 < n)%nat ->
  match recv n inc with
  | None => concat inc = []
  | Some (c, inc') => concat inc = c ++ concat inc' /\ live inc' /\ (1 <= length c <= n)%nat
  end.
Proof.
  intros Hl Hn. destruct inc as [|[|x c] inc]; [done|by apply Forall_cons in Hl as [? _]|].
  apply Forall_cons in Hl as [_ Hl]. unfold recv. case_bool_decide as Hc.
  - split_and!; [done|done|simpl; lia|done].
  - split_and!; [cbn [concat]; by rewrite app_assoc, take_drop| |..].
    + constructor; [|done]. intros E. apply (f_equal length) in E. rewrite length_drop in E.
      simpl in E, Hc. lia.
    + rewrite length_take. simpl in *. lia.
    + rewrite length_take. lia.
Qed.

Lemma readN_loop_spec fuel n : forall got inc,
  live inc -> (n <= fuel + length got)%nat -> (length got <= n)%nat ->
  match readN_loop fuel n got inc with
  | Some (bs, inc') => got ++ concat inc = bs ++ concat inc' /\ length bs = n /\ live inc'
  | None => (length (got ++ concat inc) < n)%nat
  end.
Proof.
  induction fuel as [|fuel IH]; intros got inc Hl Hf Hg; cbn [readN_loop]; case_bool_decide as Hlt;
    try lia; try (split_and!; [done|lia|done]).
  pose proof (recv_live (n - length got) inc Hl ltac:(lia)) as Hr.
  destruct (recv _ inc) as [[c inc']|]; cbn [mbind option_bind].
  - destruct Hr as (E & Hl' & Hc). specialize (IH (got ++ c) inc' Hl').
    rewrite length_app in IH. rewrite E, app_assoc. apply IH; lia.
  - rewrite Hr, app_nil_r. lia.
Qed.

(** [readN] takes the next [n] bytes however they were cut into segments,
    and fails exactly when fewer arrive. *)
Lemma readN_spec n inc :
  live inc ->
  match readN n inc with
  | Some (bs, inc') => concat inc = bs ++ concat inc' /\ length bs = n /\ live inc'
  | None => (length (concat inc) < n)%nat
  end.
Proof. intros Hl. apply (readN_loop_spec n n [] inc Hl); simpl; lia. Qed.

Lemma readN_app n inc bs rest :
  live inc -> concat inc = bs ++ rest -> length bs = n ->
  exists inc', readN n inc = Some (bs, inc') /\ concat inc' = rest /\ live inc'.
Proof.
  intros Hl E Hn. pose proof (readN_spec n inc Hl) as H. destruct (readN n inc) as [[bs' inc']|].
  - destruct H as (E' & Hn' & Hl'). rewrite E in E'. apply app_inj_1 in E' as [-> ->]; [|lia].
    by exists inc'.
  - rewrite E, length_app in H. lia.
Qed.

Lemma readN_short n inc : live inc -> (length (concat inc) < n)%nat -> readN n inc = None.
Proof.
  intros Hl Hn. pose proof (readN_spec n inc Hl) as H. destruct (readN n inc) as [[bs inc']|]; [|done].
  destruct H as (E & Hb & _). rewrite E, length_app in Hn. lia.
Qed.

(** ** Sending *)

(** Whether the [k]-th attempt to connect to an address succeeds, and how
    many of the bytes it is offered the [k]-th call of [send] accepts, if it
    does not fail. *)
Class Network := {
  net_connect : nat -> bytes -> Z -> bool;
  net_send : nat -> nat -> option nat
}.

(** A blocking [send] that does not fail accepts at least one byte and no
    more than it was offered. *)
Class NetworkLaws `{!Network} :=
  net_send_range k n s : (0 < n)%nat -> net_send k n = Some s -> (1 <= s <= n)%nat.

Section WriteAll.
Context `{!Network}.

(** The loop of [writeAll]: success, what was written, and the number of
    calls of [send] so far. *)
Fixpoint write_loop (fuel k : nat) (buf written : bytes) : option (bool * bytes * nat) :=
  match buf with
  | [] => Some (true, written, k)
  | _ =>
      match fuel with
      | O => None
      | S fuel =>
          match net_send k (length buf) with
          | None => Some (false, written, S k)
          | Some s => write_loop fuel (S k) (drop s buf) (written ++ take s buf)
          end
      end
  end.

Definition writeAll (k : nat) (buf : bytes) : option (bool * bytes * nat) :=
  write_loop (length buf) k buf [].

Context `{!NetworkLaws}.

Lemma write_loop_spec fuel : forall k buf written,
  (length buf <= fuel)%nat ->
  exists ok w k', write_loop fuel k buf written = Some (ok, w, k')
    /\ if ok then w = written ++ buf
       else exists w', w = written ++ w' /\ w' `prefix_of` buf /\ (length w' < length buf)%nat.
Proof.
  induction fuel as [|fuel IH]; intros k buf written Hf; (destruct buf as [|x buf];
    [eexists true, _, k; split; [done|]; by rewrite app_nil_r|]); [simpl in Hf; lia|].
  cbn [write_loop]. destruct (net_send k (length (x :: buf))) as [s|] eqn:E.
  - apply net_send_range in E; [|simpl; lia].
    destruct (IH (S k) (drop s (x :: buf)) (written ++ take s (x :: buf))) as (ok & w & k' & -> & Hw).
    { rewrite length_drop. lia. }
    exists ok, w, k'. split; [done|]. destruct ok; [by rewrite Hw, <- app_assoc, take_drop|].
    destruct Hw as (w' & -> & Hp & Hl). exists (take s (x :: buf) ++ w'). split_and!.
    + by rewrite app_assoc.
    + rewrite <- (take_drop s (x :: buf)) at 2. by apply prefix_app.
    + rewrite length_app, length_take. rewrite length_drop in Hl. lia.
  - eexists false, written, (S k). split; [done|]. exists []. rewrite app_nil_r.
    split_and!; [done|apply prefix_nil|simpl; lia].
Qed.

(** [writeAll] ends; it reports success exactly when everything was written,
    and otherwise wrote a strict prefix. *)
Lemma writeAll_spec k buf :
  exists ok w k', writeAll k buf = Some (ok, w, k')
    /\ if ok then w = buf else w `prefix_of` buf /\ (length w < length buf)%nat.
Proof.
  destruct (write_loop_spec (length buf) k buf []) as (ok & w & k' & E & Hw); [lia|].
  exists ok, w, k'. split; [done|]. destruct ok; [done|]. by destruct Hw as (w' & -> & ?).
Qed.

(** A write that fails is one of [send]. *)
Lemma write_loop_failed fuel : forall k buf written w k',
  write_loop fuel k buf written = Some (false, w, k') -> exists k n, net_send k n = None.
Proof.
  induction fuel as [|fuel IH]; intros k [|x buf] written w k' E; try done. cbn [write_loop] in E.
  destruct (net_send k (length (x :: buf))) eqn:En; [by eapply IH|eauto].
Qed.

(** When [send] never fails, everything is written. *)
Lemma writeAll_through (writes : forall k n, net_send k n <> None) k data :
  exists k', writeAll k data = Some (true, data, k').
Proof.
  destruct (writeAll_spec k data) as ([] & w & k' & E & Hw); [subst; eauto|].
  destruct (write_loop_failed _ _ _ _ _ _ E) as (k0 & n & En). by destruct (writes k0 n).
Qed.
End WriteAll.
