(* ===== verification/Config.v ===== *)
(** * The application's configuration

    Models [src/app/Config.h] and [src/app/Config.cpp]. *)

From S2P Require Import Prelude.

Record PeerAddr := mkPeerAddr { pa_host : bytes; pa_port : Z (* uint16_t *) }.

#[global] Instance PeerAddr_eq_dec : EqDecision PeerAddr.
Proof. solve_decision. Defined.

Record PeerInfo := mkPeerInfo {
  pi_id : Z;
  pi_host : bytes;
  pi_raftPort : Z;
  pi_clientPort : Z
}.

#[global] Instance PeerInfo_eq_dec : EqDecision PeerInfo.
Proof. solve_decision. Defined.

Record AppConfig := mkAppConfig {
  ac_selfId : Z;
  ac_dataDir : bytes;
  ac_peers : list PeerInfo;
  ac_electionTick : Z;
  ac_heartbeatTick : Z;
  ac_maxSizePerMsg : Z;
  ac_maxInflightMsgs : Z
}.

(** [AppConfig cfg; cfg.selfId = id; cfg.dataDir = dir]. *)
Definition new_AppConfig (id : Z) (dir : bytes) : AppConfig :=
  mkAppConfig id dir [] 10 1 (2 ^ 20) 256.

Record RaftBuildConfig := mkRaftBuildConfig {
  rc_id : Z;
  rc_electionTick : Z;
  rc_heartbeatTick : Z;
  rc_maxSizePerMsg : Z;
  rc_maxInflightMsgs : Z;
  rc_peerIds : list Z
}.

(** [None] for [nullptr]. *)
Definition self (c : AppConfig) : option PeerInfo :=
  head (filter (fun p => pi_id p = ac_selfId c) (ac_peers c)).

(** [m[p.id] = ...] for each peer in turn: a later one replaces an earlier. *)
Definition peerAddrMap (c : AppConfig) : gmap Z PeerAddr :=
  foldl (fun m p => <[pi_id p := mkPeerAddr (pi_host p) (pi_raftPort p)]> m) ∅ (ac_peers c).

Definition toRaftConfig (c : AppConfig) : RaftBuildConfig :=
  mkRaftBuildConfig (ac_selfId c) (ac_electionTick c) (ac_heartbeatTick c) (ac_maxSizePerMsg c)
    (ac_maxInflightMsgs c) (pi_id <$> ac_peers c).

Lemma peerAddrMap_loop ps : forall m : gmap Z PeerAddr,
  NoDup (pi_id <$> ps) ->
  forall id, foldl (fun m p => <[pi_id p := mkPeerAddr (pi_host p) (pi_raftPort p)]> m) m ps !! id
    = match head (filter (fun p => pi_id p = id) ps) with
      | Some p => Some (mkPeerAddr (pi_host p) (pi_raftPort p))
      | None => m !! id
      end.
Proof.
  induction ps as [|p ps IH]; intros m Hnd id; [done|]. apply NoDup_cons in Hnd as [Hni Hnd].
  cbn [foldl]. rewrite IH by done. destruct (decide (pi_id p = id)) as [<-|Hne].
  - rewrite filter_cons_True by done. cbn [head].
    destruct (head (filter (fun q => pi_id q = pi_id p) ps)) as [q|] eqn:E.
    + apply head_Some_elem_of, list_elem_of_filter in E as [Eq Hq]. destruct Hni.
      rewrite <- Eq. by apply list_elem_of_fmap_2.
    + apply lookup_insert_eq.
  - rewrite filter_cons_False by done. destruct (head _); [done|]. by apply lookup_insert_ne.
Qed.

(** With distinct ids, the address of a peer is found under its id. *)
Lemma peerAddrMap_lookup c p :
  NoDup (pi_id <$> ac_peers c) -> p ∈ ac_peers c ->
  peerAddrMap c !! pi_id p = Some (mkPeerAddr (pi_host p) (pi_raftPort p)).
Proof.
  intros Hnd Hp. unfold peerAddrMap. rewrite peerAddrMap_loop by done.
  destruct (head (filter (fun q => pi_id q = pi_id p) (ac_peers c))) as [q|] eqn:E.
  - apply head_Some_elem_of, list_elem_of_filter in E as [Eq Hq].
    by rewrite (NoDup_fmap_inj_on pi_id _ q p Hnd Hq Hp Eq).
  - apply head_None in E. assert (p ∈ filter (fun q => pi_id q = pi_id p) (ac_peers c)) as Hin
      by (by apply list_elem_of_filter).
    rewrite E in Hin. by apply not_elem_of_nil in Hin.
Qed.
