(* ===== verification/Acceptor.v ===== *)
(** * Accepting connections

    Models the life of the three listening threads: [start], [stop] and
    [acceptLoop] of [src/app/net/RaftTransport.cpp], [ClientServer.cpp] and
    [OrderClientServer.cpp].  What the system calls return is the event that
    lets the thread move; [None] is a thread that cannot move on it, a
    [join] that blocks, or [std::terminate] for a second [start]. *)

From S2P Require Import Prelude.

(** Where the thread is: before its socket listens, at the loop's condition,
    in [accept], in [handleClient], or at its end. *)
Inductive AcceptAt := ASetup | AWhile | AAccept | AServe (client : nat) | AEnd.

Record Acceptor := mkAcceptor {
  ac_running : bool;
  ac_acceptThread : option AcceptAt;  (* [None]: not joinable *)
  ac_served : list nat                (* the clients handed to the handler *)
}.

Inductive accept_event :=
  | ESetup (ok : bool)             (* socket, bind and listen *)
  | EWhile
  | EAccept (client : option nat)  (* a connection, or an error *)
  | EServed.                       (* [handleClient] has returned *)

Definition new_Acceptor : Acceptor := mkAcceptor false None [].

Definition start (a : Acceptor) : option Acceptor :=
  match ac_acceptThread a with
  | None => Some (mkAcceptor true (Some ASetup) (ac_served a))
  | Some _ => None
  end.

Definition stop_request (a : Acceptor) : Acceptor :=
  mkAcceptor false (ac_acceptThread a) (ac_served a).

Definition stop_join (a : Acceptor) : option Acceptor :=
  match ac_acceptThread a with
  | None => Some a
  | Some AEnd => Some (mkAcceptor (ac_running a) None (ac_served a))
  | Some _ => None
  end.

Definition at_ (p : AcceptAt) (a : Acceptor) : Acceptor :=
  mkAcceptor (ac_running a) (Some p) (ac_served a).

(** [detached]: the transport serves a client on a thread of its own, the
    other two serve it before they accept the next. *)
Definition acceptLoop_step (detached : bool) (a : Acceptor) (e : accept_event) : option Acceptor :=
  match ac_acceptThread a, e with
  | Some ASetup, ESetup ok => Some (at_ (if ok then AWhile else AEnd) a)
  | Some AWhile, EWhile => Some (at_ (if ac_running a then AAccept else AEnd) a)
  | Some AAccept, EAccept None => Some (at_ AWhile a)
  | Some AAccept, EAccept (Some c) =>
      Some (mkAcceptor (ac_running a) (Some (if detached then AWhile else AServe c)) (ac_served a ++ [c]))
  | Some (AServe _), EServed => Some (at_ AWhile a)
  | _, _ => None
  end.

(** The three servers. *)
Module TransportListener.
Definition start := start.
Definition stop_request := stop_request.
Definition stop_join := stop_join.
Definition acceptLoop := acceptLoop_step true.
End TransportListener.

Module ClientListener.
Definition start := start.
Definition stop_request := stop_request.
Definition stop_join := stop_join.
Definition acceptLoop := acceptLoop_step false.
End ClientListener.

Module OrderListener.
Definition start := start.
Definition stop_request := stop_request.
Definition stop_join := stop_join.
Definition acceptLoop := acceptLoop_step false.
End OrderListener.

Definition is_accept (e : accept_event) : bool := match e with EAccept _ => true | _ => false end.

(** A thread in [accept] moves on nothing else. *)
Lemma accept_blocks detached a e a' :
  ac_acceptThread a = Some AAccept -> acceptLoop_step detached a e = Some a' -> is_accept e = true.
Proof. unfold acceptLoop_step. intros ->. by destruct e. Qed.

(** Stopping a server whose thread is in [accept]: whatever else happens,
    [stop] cannot return before another connection, or an error, makes
    [accept] return; and then it can, once that client has been served. *)
Theorem stop_waits_for_accept detached a es a' :
  ac_acceptThread a = Some AAccept -> run (acceptLoop_step detached) (stop_request a) es = Some a' ->
  is_Some (stop_join a') ->
  (exists c es', es = EAccept c :: es')
  /\ forall c, exists es1 a1, run (acceptLoop_step detached) (stop_request a) (EAccept c :: es1) = Some a1
       /\ is_Some (stop_join a1).
Proof.
  intros Ha Hr Hj. split.
  - destruct es as [|e es].
    { injection Hr as <-. unfold stop_join in Hj. simpl in Hj. rewrite Ha in Hj. by destruct Hj. }
    unfold run in Hr. cbn [foldl mbind option_bind] in Hr.
    destruct (acceptLoop_step detached (stop_request a) e) eqn:E; [|by rewrite run_none in Hr].
    apply accept_blocks in E; [|done]. destruct e; [done..|by eexists _, _|done].
  - intros c. unfold run, acceptLoop_step, stop_request, at_. simpl. rewrite Ha. simpl.
    destruct c as [c|]; [destruct detached|].
    + exists [EWhile]. simpl. by eexists.
    + exists [EServed; EWhile]. simpl. by eexists.
    + exists [EWhile]. simpl. by eexists.
Qed.

(** Served one at a time: while a client is served no other is accepted. *)
Lemma serves_one_at_a_time a c c' :
  ac_acceptThread a = Some (AServe c) -> acceptLoop_step false a (EAccept c') = None.
Proof. unfold acceptLoop_step. by intros ->. Qed.
