(* ===== verification/IOrderBook.v ===== *)
(** * Orders, fills, price levels and the matching-engine interface

    Models [src/app/statemachine/IOrderBook.h]: the data types, the abstract
    class [IOrderBook] as a type class of operations.  What the class
    promises its clients is stated in [BookSpec]. *)

From S2P Require Import Prelude.

(** ** Data *)

Inductive Side := Buy | Sell.

#[global] Instance Side_eq_dec : EqDecision Side.
Proof. solve_decision. Defined.

(** [static_cast<uint8_t>(side)] and, for a byte that is at most 1,
    [static_cast<Side>(s)]. *)
Definition side_to_u8 (s : Side) : Z := match s with Buy => 0 | Sell => 1 end.
Definition side_of_u8 (z : Z) : Side := if z =? 0 then Buy else Sell.

Record Order := mkOrder {
  o_id : Z;        (* uint64_t *)
  o_side : Side;
  o_price : Z;     (* int64_t *)
  o_quantity : Z;  (* int64_t *)
  o_sequence : Z   (* uint64_t *)
}.

#[global] Instance Order_eq_dec : EqDecision Order.
Proof. solve_decision. Defined.

Definition set_quantity (o : Order) (q : Z) : Order :=
  mkOrder (o_id o) (o_side o) (o_price o) q (o_sequence o).

Record Fill := mkFill {
  f_makerOrderId : Z;
  f_takerOrderId : Z;
  f_price : Z;
  f_quantity : Z;
  f_takerSide : Side
}.

#[global] Instance Fill_eq_dec : EqDecision Fill.
Proof. solve_decision. Defined.

Record PriceLevel := mkPriceLevel {
  pl_price : Z;         (* int64_t *)
  pl_totalQuantity : Z; (* int64_t *)
  pl_orderCount : Z     (* uint32_t *)
}.

#[global] Instance PriceLevel_eq_dec : EqDecision PriceLevel.
Proof. solve_decision. Defined.

(** The ranges of the C++ types of an order's fields. *)
Definition order_typed (o : Order) : Prop :=
  is_u64 (o_id o) /\ is_i64 (o_price o) /\ is_i64 (o_quantity o) /\ is_u64 (o_sequence o).

Definition fill_typed (f : Fill) : Prop :=
  is_u64 (f_makerOrderId f) /\ is_u64 (f_takerOrderId f)
  /\ is_i64 (f_price f) /\ is_i64 (f_quantity f).

#[global] Instance order_typed_dec o : Decision (order_typed o).
Proof. unfold order_typed. apply _. Defined.
#[global] Instance fill_typed_dec f : Decision (fill_typed f).
Proof. unfold fill_typed. apply _. Defined.

(** ** The interface

    One field per virtual method.  [None] in an [option] result stands for
    behaviour C++ does not define (a dangling iterator, a null dereference),
    an exception that escapes, or a loop that does not end; the laws below
    say it does not occur.  [ib_getOrder] returns the pointed-to order, with
    [Some None] for [nullptr]. *)
Class IOrderBook (B : Type) := {
  ib_newOrder : B -> Z -> Side -> Z -> Z -> Z -> option (list Fill * B);
  ib_cancelOrder : B -> Z -> option (bool * B);
  ib_modifyOrder : B -> Z -> Z -> Z -> Z -> option (bool * B);
  ib_getOrder : B -> Z -> option (option Order);
  ib_orderCount : B -> Z;
  ib_symbol : B -> bytes;
  ib_bids : B -> Z -> list PriceLevel;
  ib_asks : B -> Z -> list PriceLevel;
  ib_bestBid : B -> option Z;
  ib_bestAsk : B -> option Z;
  ib_addRestingOrder : B -> Order -> option B;
  ib_allOrders : B -> list Order;
  ib_reset : B -> bytes -> option B
}.
