(* ===== verification/BookSpec.v ===== *)
(** * The abstract order book and the contract of [IOrderBook]

    [src/app/statemachine/IOrderBook.h] calls the interface a price-time
    priority matching engine.  This file says what that means: [ABook] keeps
    each side as one list of orders in execution order, the [spec_*]
    functions are the reference behaviour of the interface's methods on it,
    and [IOrderBookLaws] is the promise that an implementation simulates
    them.  The lemmas about the [spec_*] functions (conservation of quantity,
    priority, sortedness, no crossed book) hold for every implementation. *)

From S2P Require Import Prelude IOrderBook.

(** ** The abstract book

    Both sides in execution order: best price first, and within a price the
    order that arrived first. *)
Record ABook := mkABook {
  a_symbol : bytes;
  a_bids : list Order;
  a_asks : list Order
}.

Definition a_side (s : Side) (b : ABook) : list Order :=
  match s with Buy => a_bids b | Sell => a_asks b end.

Definition a_set_side (s : Side) (l : list Order) (b : ABook) : ABook :=
  match s with
  | Buy => mkABook (a_symbol b) l (a_asks b)
  | Sell => mkABook (a_symbol b) (a_bids b) l
  end.

Definition a_orders (b : ABook) : list Order := a_bids b ++ a_asks b.

Definition opposite (s : Side) : Side := match s with Buy => Sell | Sell => Buy end.

(** [before s p p']: price [p] executes strictly before [p'] on side [s]
    (the comparators [std::greater] of the bids and [std::less] of the
    asks). *)
Definition before (s : Side) (p p' : Z) : bool :=
  match s with Buy => p' <? p | Sell => p <? p' end.

(** A taker on side [s] with limit [tp] trades with a maker at [mp]. *)
Definition crosses (s : Side) (tp mp : Z) : bool :=
  match s with Buy => mp <=? tp | Sell => tp <=? mp end.

(** Walk the makers in execution order until the taker is filled or the
    price no longer crosses. *)
Fixpoint spec_match (s : Side) (tp rem tid : Z) (l : list Order)
  : list Fill * Z * list Order :=
  match l with
  | [] => ([], rem, [])
  | m :: l' =>
      if (0 <? rem) && crosses s tp (o_price m) then
        let q := Z.min rem (o_quantity m) in
        let f := mkFill (o_id m) tid (o_price m) q s in
        if o_quantity m <=? q then
          let '(fs, r, l'') := spec_match s tp (rem - q) tid l' in (f :: fs, r, l'')
        else ([f], rem - q, set_quantity m (o_quantity m - q) :: l')
      else ([], rem, l)
  end.

(** Time priority: an order rests behind every order of a price that is as
    good as its own. *)
Fixpoint spec_insert (s : Side) (o : Order) (l : list Order) : list Order :=
  match l with
  | [] => [o]
  | x :: l' => if before s (o_price o) (o_price x) then o :: x :: l'
               else x :: spec_insert s o l'
  end.

Definition spec_rest (o : Order) (b : ABook) : ABook :=
  a_set_side (o_side o) (spec_insert (o_side o) o (a_side (o_side o) b)) b.

Definition spec_remove (id : Z) (l : list Order) : list Order :=
  filter (fun o => o_id o <> id) l.

Definition spec_find (id : Z) (b : ABook) : option Order :=
  head (filter (fun o => o_id o = id) (a_orders b)).

Definition spec_cancel (id : Z) (b : ABook) : bool * ABook :=
  match spec_find id b with
  | None => (false, b)
  | Some _ => (true, mkABook (a_symbol b) (spec_remove id (a_bids b))
                       (spec_remove id (a_asks b)))
  end.

Definition spec_modify (id np nq nseq : Z) (b : ABook) : bool * ABook :=
  match spec_find id b with
  | None => (false, b)
  | Some o =>
      let b' := snd (spec_cancel id b) in
      (true, if 0 <? nq then spec_rest (mkOrder id (o_side o) np nq nseq) b' else b')
  end.

Definition spec_new (id : Z) (s : Side) (p q seq : Z) (b : ABook) : list Fill * ABook :=
  if (q <=? 0) || bool_decide (is_Some (spec_find id b)) then ([], b)
  else
    let '(fs, r, makers) := spec_match s p q id (a_side (opposite s) b) in
    let b' := a_set_side (opposite s) makers b in
    (fs, if 0 <? r then spec_rest (mkOrder id s p r seq) b' else b').

(** The aggregated depth of one side: per price, the summed quantity and the
    number of orders, at their widths. *)
Fixpoint spec_prices (l : list Order) : list Z :=
  match l with
  | [] => []
  | o :: l' => o_price o :: filter (fun p => p <> o_price o) (spec_prices l')
  end.

Definition spec_level (p : Z) (l : list Order) : PriceLevel :=
  let at_p := filter (fun o => o_price o = p) l in
  mkPriceLevel p (i64 (foldr (fun o acc => o_quantity o + acc) 0 at_p))
    (u32 (Z.of_nat (length at_p))).

Definition spec_depth (maxLevels : Z) (l : list Order) : list PriceLevel :=
  let lv := (fun p => spec_level p l) <$> spec_prices l in
  if maxLevels =? 0 then lv else take (Z.to_nat maxLevels) lv.

(** ** Well-formed abstract books *)

Definition price_sorted (s : Side) : list Order -> Prop :=
  StronglySorted (fun x y => before s (o_price y) (o_price x) = false).

Definition resting_ok (s : Side) (o : Order) : Prop :=
  o_side o = s /\ order_typed o /\ 0 < o_quantity o.

Definition abook_ok (b : ABook) : Prop :=
  (forall s, price_sorted s (a_side s b) /\ Forall (resting_ok s) (a_side s b))
  /\ NoDup (o_id <$> a_orders b).

(** No resting bid is at or above a resting ask. *)
Definition uncrossed (b : ABook) : Prop :=
  forall x y, x ∈ a_bids b -> y ∈ a_asks b -> o_price x < o_price y.

(** ** The contract *)

Class IOrderBookLaws (B : Type) `{IOrderBook B} := {
  ib_ok : B -> Prop;
  ib_abs : B -> ABook;
  ib_ok_abs b : ib_ok b -> abook_ok (ib_abs b);
  ib_newOrder_spec b id s p q seq :
    ib_ok b -> is_u64 id -> is_i64 p -> is_i64 q -> is_u64 seq ->
    exists b', ib_newOrder b id s p q seq = Some (fst (spec_new id s p q seq (ib_abs b)), b')
    /\ ib_ok b' /\ ib_abs b' = snd (spec_new id s p q seq (ib_abs b));
  ib_cancelOrder_spec b id :
    ib_ok b ->
    exists b', ib_cancelOrder b id = Some (fst (spec_cancel id (ib_abs b)), b')
    /\ ib_ok b' /\ ib_abs b' = snd (spec_cancel id (ib_abs b));
  ib_modifyOrder_spec b id np nq nseq :
    ib_ok b -> is_u64 id -> is_i64 np -> is_i64 nq -> is_u64 nseq ->
    exists b', ib_modifyOrder b id np nq nseq
               = Some (fst (spec_modify id np nq nseq (ib_abs b)), b')
    /\ ib_ok b' /\ ib_abs b' = snd (spec_modify id np nq nseq (ib_abs b));
  ib_getOrder_spec b id : ib_ok b -> ib_getOrder b id = Some (spec_find id (ib_abs b));
  ib_orderCount_spec b :
    ib_ok b -> ib_orderCount b = Z.of_nat (length (a_orders (ib_abs b)));
  ib_symbol_spec b : ib_symbol b = a_symbol (ib_abs b);
  ib_bids_spec b n : ib_ok b -> 0 <= n -> ib_bids b n = spec_depth n (a_bids (ib_abs b));
  ib_asks_spec b n : ib_ok b -> 0 <= n -> ib_asks b n = spec_depth n (a_asks (ib_abs b));
  ib_bestBid_spec b : ib_ok b -> ib_bestBid b = o_price <$> head (a_bids (ib_abs b));
  ib_bestAsk_spec b : ib_ok b -> ib_bestAsk b = o_price <$> head (a_asks (ib_abs b));
  ib_addRestingOrder_spec b o :
    ib_ok b -> order_typed o -> 0 < o_quantity o -> spec_find (o_id o) (ib_abs b) = None ->
    exists b', ib_addRestingOrder b o = Some b'
    /\ ib_ok b' /\ ib_abs b' = spec_rest o (ib_abs b);
  ib_allOrders_spec b : ib_ok b -> ib_allOrders b = a_orders (ib_abs b);
  ib_reset_spec b sym :
    exists b', ib_reset b sym = Some b' /\ ib_ok b' /\ ib_abs b' = mkABook sym [] []
}.

(** ** Facts about the reference matching *)

Definition fills_quantity (fs : list Fill) : Z :=
  foldr (fun f acc => f_quantity f + acc) 0 fs.

Lemma before_irrefl s p : before s p p = false.
Proof. destruct s; simpl; lia. Qed.

Lemma before_trans s p q r : before s p q = true -> before s q r = true -> before s p r = true.
Proof. destruct s; simpl; lia. Qed.

Lemma before_total s p q : before s p q = false -> before s q p = false -> p = q.
Proof. destruct s; simpl; lia. Qed.

Lemma before_antisym s p q : before s p q = true -> before s q p = false.
Proof. destruct s; simpl; lia. Qed.

Lemma before_false_trans s p q r :
  before s q p = false -> before s r q = false -> before s r p = false.
Proof. destruct s; simpl; lia. Qed.

Lemma opposite_involutive s : opposite (opposite s) = s.
Proof. by destruct s. Qed.

Lemma a_side_set_side s l b : a_side s (a_set_side s l b) = l.
Proof. by destruct s. Qed.

Lemma a_side_set_opposite s l b : a_side (opposite s) (a_set_side s l b) = a_side (opposite s) b.
Proof. by destruct s. Qed.

Lemma a_side_set_opposite' s l b : a_side s (a_set_side (opposite s) l b) = a_side s b.
Proof. by destruct s. Qed.

Lemma a_orders_perm s b : a_orders b ≡ₚ a_side s b ++ a_side (opposite s) b.
Proof. destruct s; simpl; unfold a_orders; [done|]. by rewrite (comm (++)). Qed.

Create Rewrite HintDb book.
#[export] Hint Rewrite opposite_involutive a_side_set_side a_side_set_opposite
  a_side_set_opposite' : book.

(** What is left of a list of makers after some of them traded: the first
    [k] are gone and the next one may have lost quantity. *)
Inductive residual (l : list Order) : nat -> list Order -> Prop :=
  | residual_drop k : residual l k (drop k l)
  | residual_part k o q rest :
      drop k l = o :: rest -> 0 < q < o_quantity o ->
      residual l k (set_quantity o q :: rest).

Lemma residual_cons x l k l' : residual l k l' -> residual (x :: l) (S k) l'.
Proof.
  intros H. inversion H; subst; [apply (residual_drop (x :: l) (S k))|].
  by apply residual_part.
Qed.

Section SpecMatch.
Context (s : Side) (tp tid : Z).

(** Everything the reference matching guarantees, by one induction along
    the list of makers. *)
Lemma spec_match_residual rem l :
  Forall (fun o => 0 < o_quantity o) l ->
  forall fs r l', spec_match s tp rem tid l = (fs, r, l') ->
  exists k, residual l k l'.
Proof.
  intros Hq. revert rem. induction Hq as [|m l Hm Hl IH]; intros rem fs r l' E; simpl in E.
  { simplify_eq. exists 0%nat. apply (residual_drop []). }
  destruct ((0 <? rem) && crosses s tp (o_price m)) eqn:Hc;
    [|simplify_eq; exists 0%nat; apply (residual_drop (m :: l))].
  destruct (o_quantity m <=? _) eqn:Hle.
  - destruct (spec_match s tp _ tid l) as [[fs' r'] l''] eqn:E'. simplify_eq.
    destruct (IH _ _ _ _ E') as [k Hk]. exists (S k). by apply residual_cons.
  - simplify_eq. exists 0%nat. apply (residual_part _ 0 m); [done|lia].
Qed.

Lemma spec_match_conserves rem l fs r l' :
  Forall (fun o => 0 < o_quantity o) l -> 0 <= rem ->
  spec_match s tp rem tid l = (fs, r, l') ->
  fills_quantity fs + r = rem /\ 0 <= r <= rem.
Proof.
  intros Hq. revert rem fs r l'.
  induction Hq as [|m l Hm Hl IH]; intros rem fs r l' Hrem E; simpl in E.
  { simplify_eq. simpl. lia. }
  destruct ((0 <? rem) && crosses s tp (o_price m)) eqn:Hc; [|simplify_eq; simpl; lia].
  destruct (o_quantity m <=? _) eqn:Hle.
  - destruct (spec_match s tp _ tid l) as [[fs' r'] l''] eqn:E'. simplify_eq.
    apply IH in E' as [E1 E2]; simpl; lia.
  - simplify_eq. simpl. lia.
Qed.

(** The fills name the makers in execution order, at the maker's price,
    which the taker accepts, for a positive quantity. *)
Lemma spec_match_fills rem l fs r l' :
  Forall (fun o => 0 < o_quantity o) l ->
  spec_match s tp rem tid l = (fs, r, l') ->
  f_makerOrderId <$> fs = take (length fs) (o_id <$> l)
  /\ Forall2 (fun f m => f_price f = o_price m /\ 0 < f_quantity f <= o_quantity m
              /\ crosses s tp (o_price m) = true
              /\ f_takerOrderId f = tid /\ f_takerSide f = s)
       fs (take (length fs) l).
Proof.
  intros Hq. revert rem fs r l'.
  induction Hq as [|m l Hm Hl IH]; intros rem fs r l' E; simpl in E.
  { simplify_eq. done. }
  destruct ((0 <? rem) && crosses s tp (o_price m)) eqn:Hc; [|simplify_eq; done].
  apply andb_prop in Hc as [Hr Hc].
  destruct (o_quantity m <=? _) eqn:Hle.
  - destruct (spec_match s tp _ tid l) as [[fs' r'] l''] eqn:E'. simplify_eq.
    destruct (IH _ _ _ _ E') as [H1 H2].
    split; [simpl; by f_equal|].
    constructor; [simpl; repeat split; [lia|lia|done]|done].
  - simplify_eq. split; [done|].
    constructor; [simpl; repeat split; [lia|lia|done]|constructor].
Qed.

(** A taker with quantity left has exhausted the prices it accepts. *)
Lemma spec_match_exhausts rem l fs r l' :
  Forall (fun o => 0 < o_quantity o) l ->
  spec_match s tp rem tid l = (fs, r, l') -> 0 < r ->
  match l' with [] => True | m :: _ => crosses s tp (o_price m) = false end.
Proof.
  intros Hq. revert rem fs r l'.
  induction Hq as [|m l Hm Hl IH]; intros rem fs r l' E Hr; simpl in E.
  { by simplify_eq. }
  destruct ((0 <? rem) && crosses s tp (o_price m)) eqn:Hc.
  - destruct (o_quantity m <=? _) eqn:Hle.
    + destruct (spec_match s tp _ tid l) as [[fs' r'] l''] eqn:E'. simplify_eq. by eapply IH.
    + simplify_eq. lia.
  - simplify_eq. destruct (crosses s tp (o_price m)); [lia|done].
Qed.

(** Matching against a concatenation: either the first part used up the
    taker, or it was used up itself and matching goes on. *)
Lemma spec_match_done rem l : rem <= 0 -> spec_match s tp rem tid l = ([], rem, l).
Proof. intros H. destruct l; simpl; [done|]. by replace (0 <? rem) with false by lia. Qed.

Lemma spec_match_app_stop rem l1 l2 fs r l1' :
  spec_match s tp rem tid l1 = (fs, r, l1') -> r <= 0 ->
  spec_match s tp rem tid (l1 ++ l2) = (fs, r, l1' ++ l2).
Proof.
  revert rem fs. induction l1 as [|m l1 IH]; intros rem fs E Hr; simpl in *.
  { simplify_eq. by apply spec_match_done. }
  destruct ((0 <? rem) && crosses s tp (o_price m)) eqn:Hc; [|by simplify_eq].
  destruct (o_quantity m <=? _); [|by simplify_eq].
  destruct (spec_match s tp (rem - _) tid l1) as [[fs' r'] l''] eqn:E'. simplify_eq.
  by rewrite (IH _ _ E' Hr).
Qed.

Lemma spec_match_app_go rem l1 l2 fs1 r1 fs2 r2 l2' :
  spec_match s tp rem tid l1 = (fs1, r1, []) ->
  spec_match s tp r1 tid l2 = (fs2, r2, l2') ->
  spec_match s tp rem tid (l1 ++ l2) = (fs1 ++ fs2, r2, l2').
Proof.
  revert rem fs1. induction l1 as [|m l1 IH]; intros rem fs1 E E2; simpl in *.
  { by simplify_eq. }
  destruct ((0 <? rem) && crosses s tp (o_price m)) eqn:Hc; [|by simplify_eq].
  destruct (o_quantity m <=? _); [|by simplify_eq].
  destruct (spec_match s tp (rem - _) tid l1) as [[fs' r'] l''] eqn:E'. simplify_eq.
  by rewrite (IH _ _ E' E2).
Qed.
End SpecMatch.

(** ** Facts about resting, finding and removing *)

Lemma spec_insert_perm s o l : spec_insert s o l ≡ₚ o :: l.
Proof.
  induction l as [|x l IH]; simpl; [done|].
  destruct (before _ _ _); [done|]. rewrite IH. apply Permutation_swap.
Qed.

Lemma spec_insert_sorted s o l : price_sorted s l -> price_sorted s (spec_insert s o l).
Proof.
  unfold price_sorted. induction 1 as [|x l Hl IH Hx]; simpl; [repeat constructor|].
  destruct (before s (o_price o) (o_price x)) eqn:Hb.
  - constructor; [by constructor|]. constructor; [by apply before_antisym|].
    eapply Forall_impl; [exact Hx|]. intros y Hy. simpl in Hy.
    eapply before_false_trans; [|exact Hy]. by apply before_antisym.
  - constructor; [done|]. rewrite spec_insert_perm. by constructor.
Qed.

(** An order that executes after everything on its side rests at the end. *)
Lemma spec_insert_last s o l :
  Forall (fun x => before s (o_price o) (o_price x) = false) l -> spec_insert s o l = l ++ [o].
Proof.
  induction 1 as [|x l Hx Hl IH]; simpl; [done|]. by rewrite Hx, IH.
Qed.

Lemma spec_insert_split s o l1 l2 :
  Forall (fun x => before s (o_price o) (o_price x) = false) l1 ->
  Forall (fun x => before s (o_price o) (o_price x) = true) l2 ->
  spec_insert s o (l1 ++ l2) = l1 ++ o :: l2.
Proof.
  intros H1 H2. induction H1 as [|x l1 Hx H1 IH]; simpl.
  - destruct l2; [done|]. simpl. inversion H2 as [|? ? Hb]; subst. by rewrite Hb.
  - by rewrite Hx, IH.
Qed.

Lemma head_filter_Some {A} (P : A -> Prop) {HD : forall x, Decision (P x)} (l : list A) x :
  head (filter P l) = Some x -> x ∈ l /\ P x.
Proof.
  intros H. destruct (filter P l) as [|y l'] eqn:E; [done|]. simplify_eq/=.
  assert (x ∈ filter P l) as Hx by (rewrite E; by left).
  apply list_elem_of_filter in Hx. tauto.
Qed.

Lemma head_filter_None {A} (P : A -> Prop) {HD : forall x, Decision (P x)} (l : list A) :
  head (filter P l) = None <-> Forall (fun x => ~ P x) l.
Proof.
  rewrite Forall_forall. split.
  - intros H x Hx HP. destruct (filter P l) eqn:E; [|done].
    assert (x ∈ filter P l) as Hf by (by apply list_elem_of_filter).
    rewrite E in Hf. by apply not_elem_of_nil in Hf.
  - intros H. destruct (filter P l) as [|y l'] eqn:E; [done|].
    assert (y ∈ filter P l) as Hf by (rewrite E; left).
    apply list_elem_of_filter in Hf as [HP Hy]. by destruct (H y Hy).
Qed.

Lemma spec_find_Some id b o : spec_find id b = Some o -> o ∈ a_orders b /\ o_id o = id.
Proof. apply (head_filter_Some (fun o => o_id o = id)). Qed.

Lemma spec_find_None id b :
  spec_find id b = None <-> (forall o, o ∈ a_orders b -> o_id o <> id).
Proof. unfold spec_find. by rewrite head_filter_None, Forall_forall. Qed.

Lemma spec_find_elem id b o :
  NoDup (o_id <$> a_orders b) -> o ∈ a_orders b -> o_id o = id -> spec_find id b = Some o.
Proof.
  intros Hnd Ho Hid. destruct (spec_find id b) as [o'|] eqn:E.
  - apply spec_find_Some in E as [Ho' Hid']. f_equal.
    eapply NoDup_fmap_inj_on; [exact Hnd|done|done|congruence].
  - rewrite spec_find_None in E. by destruct (E o Ho).
Qed.

Lemma elem_of_a_orders s b o : o ∈ a_side s b -> o ∈ a_orders b.
Proof. rewrite (a_orders_perm s), elem_of_app. tauto. Qed.

Lemma spec_remove_notin id l : (forall o, o ∈ l -> o_id o <> id) -> spec_remove id l = l.
Proof.
  unfold spec_remove. intros H. induction l as [|x l IH]; [done|].
  rewrite filter_cons_True by (apply H; left). f_equal.
  apply IH. intros o Ho. apply H. by right.
Qed.

Lemma spec_remove_split o l1 l2 :
  NoDup (o_id <$> l1 ++ o :: l2) -> spec_remove (o_id o) (l1 ++ o :: l2) = l1 ++ l2.
Proof.
  rewrite fmap_app, fmap_cons, NoDup_app, NoDup_cons. intros (_ & Hx & Hnot & _).
  unfold spec_remove. rewrite filter_app, filter_cons_False by (intros H; by apply H).
  f_equal; apply spec_remove_notin; intros o' Ho' E.
  - apply (Hx (o_id o')); [by apply list_elem_of_fmap_2|]. rewrite E. left.
  - apply Hnot. rewrite <- E. by apply list_elem_of_fmap_2.
Qed.

(** Removing the one order with a given identifier from the side it is on. *)
Lemma spec_cancel_split s b o l1 l2 :
  NoDup (o_id <$> a_orders b) -> a_side s b = l1 ++ o :: l2 ->
  spec_cancel (o_id o) b = (true, a_set_side s (l1 ++ l2) b).
Proof.
  intros Hnd Hs. unfold spec_cancel.
  assert (o ∈ a_orders b) as Ho
    by (apply (elem_of_a_orders s); rewrite Hs, elem_of_app, elem_of_cons; auto).
  rewrite (spec_find_elem _ _ _ Hnd Ho eq_refl).
  rewrite (a_orders_perm s), fmap_app, NoDup_app in Hnd. destruct Hnd as (Hnd & Hx & _).
  assert (spec_remove (o_id o) (a_side (opposite s) b) = a_side (opposite s) b) as Hopp.
  { apply spec_remove_notin. intros o' Ho' E. apply (Hx (o_id o)).
    - rewrite Hs. apply list_elem_of_fmap_2. rewrite elem_of_app, elem_of_cons. auto.
    - rewrite <- E. by apply list_elem_of_fmap_2. }
  rewrite Hs in Hnd. apply spec_remove_split in Hnd. rewrite <- Hs in Hnd.
  destruct s; simpl in *; by rewrite Hnd, Hopp.
Qed.

(** ** Uncrossed books stay uncrossed under NEW and CXL *)

Lemma elem_of_residual l k l' y :
  residual l k l' -> y ∈ l' -> exists x, x ∈ l /\ o_price y = o_price x /\ o_id y = o_id x.
Proof.
  intros H. destruct H as [k|k o q rest Hd Hq].
  - intros Hy. exists y. split; [|done]. by eapply elem_of_drop_1.
  - intros [->|Hy]%elem_of_cons.
    + exists o. split; [|done]. apply (elem_of_drop_1 _ k). rewrite Hd. left.
    + exists y. split; [|done]. apply (elem_of_drop_1 _ k). rewrite Hd. by right.
Qed.

Lemma spec_find_residual s b id k makers :
  spec_find id b = None -> residual (a_side s b) k makers ->
  spec_find id (a_set_side s makers b) = None.
Proof.
  rewrite !spec_find_None. intros H Hres o.
  rewrite (a_orders_perm s), elem_of_app. autorewrite with book. intros [Ho|Ho].
  - destruct (elem_of_residual _ _ _ _ Hres Ho) as (x & Hx & _ & ->).
    apply H. by apply (elem_of_a_orders s).
  - apply H. by apply (elem_of_a_orders (opposite s)).
Qed.

Lemma abook_ok_positive s b : abook_ok b -> Forall (fun o => 0 < o_quantity o) (a_side s b).
Proof.
  intros [H _]. eapply Forall_impl; [apply (H s)|]. unfold resting_ok. tauto.
Qed.

Lemma residual_sorted s l k l' : residual l k l' -> price_sorted s l -> price_sorted s l'.
Proof.
  unfold price_sorted. intros H Hs. apply (StronglySorted_drop _ k) in Hs.
  destruct H as [k|k o q rest Hd Hq]; [done|].
  rewrite Hd in Hs. inversion Hs. by constructor.
Qed.

Lemma uncrossed_side s b :
  uncrossed b <-> forall x y, x ∈ a_side s b -> y ∈ a_side (opposite s) b ->
                  crosses s (o_price x) (o_price y) = false.
Proof.
  unfold uncrossed. destruct s; simpl; split.
  - intros H x y Hx Hy. specialize (H x y Hx Hy). lia.
  - intros H x y Hx Hy. specialize (H x y Hx Hy). lia.
  - intros H x y Hx Hy. specialize (H y x Hy Hx). lia.
  - intros H x y Hx Hy. specialize (H y x Hy Hx). lia.
Qed.

Lemma crosses_sorted s p x l :
  price_sorted (opposite s) (x :: l) -> crosses s p (o_price x) = false ->
  forall y, y ∈ x :: l -> crosses s p (o_price y) = false.
Proof.
  unfold price_sorted. intros H Hx y [->|Hy]%elem_of_cons; [done|].
  inversion H as [|? ? Hs Hf]; subst.
  rewrite Forall_forall in Hf. specialize (Hf y Hy). destruct s; simpl in *; lia.
Qed.

Lemma uncrossed_new id s p q seq b :
  abook_ok b -> uncrossed b -> uncrossed (snd (spec_new id s p q seq b)).
Proof.
  intros Hok Hun. unfold spec_new.
  destruct (_ || _); [done|].
  destruct (spec_match s p q id (a_side (opposite s) b)) as [[fs r] makers] eqn:E.
  pose proof (abook_ok_positive (opposite s) b Hok) as Hpos.
  destruct (proj1 Hok (opposite s)) as [Hsort Hrest].
  destruct (spec_match_residual _ _ _ _ _ Hpos _ _ _ E) as [k Hk].
  rewrite (uncrossed_side s) in Hun. apply (uncrossed_side s).
  intros x y. simpl. destruct (0 <? r) eqn:Hr; unfold spec_rest; simpl;
    autorewrite with book; intros Hx Hy;
    destruct (elem_of_residual _ _ _ _ Hk Hy) as (y0 & Hy0 & Hpy & _).
  - rewrite spec_insert_perm in Hx. apply elem_of_cons in Hx as [->|Hx];
      [|rewrite Hpy; by apply Hun].
    apply (spec_match_exhausts _ _ _ _ _ _ _ _ Hpos) in E; [|lia]. simpl.
    apply (residual_sorted _ _ _ _ Hk) in Hsort.
    destruct makers as [|m makers]; [by apply not_elem_of_nil in Hy|].
    by eapply crosses_sorted.
  - rewrite Hpy. by apply Hun.
Qed.

Lemma uncrossed_cancel id b : uncrossed b -> uncrossed (snd (spec_cancel id b)).
Proof.
  intros H. unfold spec_cancel. destruct (spec_find id b); [|done].
  intros x y. simpl. unfold spec_remove. rewrite !list_elem_of_filter.
  intros [_ Hx] [_ Hy]. by apply H.
Qed.

Lemma spec_find_cancelled id b : spec_find id (snd (spec_cancel id b)) = None.
Proof.
  unfold spec_cancel. destruct (spec_find id b) as [o0|] eqn:E; [|done]. simpl.
  apply spec_find_None. intros o. unfold a_orders, spec_remove. simpl.
  rewrite elem_of_app, !list_elem_of_filter. tauto.
Qed.

Lemma spec_find_rest o b :
  spec_find (o_id o) b = None -> spec_find (o_id o) (spec_rest o b) = Some o.
Proof.
  intros H. rewrite spec_find_None in H. set (s := o_side o) in *.
  destruct (spec_find (o_id o) (spec_rest o b)) as [o'|] eqn:E.
  - apply spec_find_Some in E as [Ho' Hid].
    rewrite (a_orders_perm s), elem_of_app in Ho'. unfold spec_rest in Ho'. fold s in Ho'.
    autorewrite with book in Ho'. rewrite spec_insert_perm, elem_of_cons in Ho'.
    destruct Ho' as [[->|Ho']|Ho']; [done| |];
      exfalso; eapply H; [|done| |done]; by eapply elem_of_a_orders.
  - rewrite spec_find_None in E. destruct (E o); [|done].
    apply (elem_of_a_orders s). unfold spec_rest. fold s. autorewrite with book.
    rewrite spec_insert_perm. left.
Qed.

(** ** Depth *)

Lemma spec_prices_same p l l' :
  Forall (fun o => o_price o = p) l -> l <> [] -> p ∉ spec_prices l' ->
  spec_prices (l ++ l') = p :: spec_prices l'.
Proof.
  intros H Hne Hnot. destruct H as [|o l Ho H]; [done|]. clear Hne. simpl. rewrite Ho. f_equal.
  assert (filter (fun p' => p' <> p) (spec_prices l') = spec_prices l') as Hid.
  { induction (spec_prices l') as [|x xs IH]; [done|].
    apply not_elem_of_cons in Hnot as [? ?]. rewrite filter_cons_True by done. by rewrite IH. }
  induction H as [|o' l Ho' H IH]; simpl; [done|].
  rewrite Ho', filter_cons_False by (intros E; by apply E).
  rewrite list_filter_filter_l; [done|]. done.
Qed.

Lemma elem_of_spec_prices p l : p ∈ spec_prices l -> exists o, o ∈ l /\ o_price o = p.
Proof.
  induction l as [|o l IH]; simpl; [intros H; by apply not_elem_of_nil in H|].
  intros [->|Hp]%elem_of_cons; [exists o; split; [left|done]|].
  apply list_elem_of_filter in Hp as [_ Hp]. destruct (IH Hp) as (o' & ? & ?).
  exists o'. split; [by right|done].
Qed.

Lemma spec_prices_sorted s l :
  price_sorted s l -> StronglySorted (fun p q => before s p q = true) (spec_prices l).
Proof.
  unfold price_sorted. induction 1 as [|o l Hs IH Hf]; simpl; [constructor|]. constructor.
  - clear -IH. induction IH as [|x xs Hxs IH' Hx]; [constructor|].
    destruct (decide (x <> o_price o)) as [Hd|Hd];
      [rewrite filter_cons_True by done|by rewrite filter_cons_False].
    constructor; [done|]. rewrite Forall_forall in Hx |- *.
    intros y [_ Hy]%list_elem_of_filter. by apply Hx.
  - apply Forall_forall. intros p [Hp (o' & Ho' & <-)%elem_of_spec_prices]%list_elem_of_filter.
    rewrite Forall_forall in Hf. specialize (Hf _ Ho').
    destruct (before s (o_price o) (o_price o')) eqn:E; [done|].
    exfalso. by apply Hp, (before_total s).
Qed.

Lemma StronglySorted_take {A} (R : A -> A -> Prop) n l :
  StronglySorted R l -> StronglySorted R (take n l).
Proof. rewrite <- (take_drop n l) at 1. apply StronglySorted_app_1_l. Qed.

Lemma spec_depth_prices n l :
  pl_price <$> spec_depth n l
  = if n =? 0 then spec_prices l else take (Z.to_nat n) (spec_prices l).
Proof.
  unfold spec_depth. destruct (n =? 0); rewrite ?fmap_take, <- list_fmap_compose;
    [|f_equal]; apply list_fmap_id.
Qed.
