(* ===== verification/StdMap.v ===== *)
(** * [std::map] with a comparator

    The standard container as an association list kept in the comparator's
    order, which is the order its iterators visit.  Two keys are the same
    when neither is ordered before the other.  Used for the price levels of
    [MapOrderBook] ([std::greater] for the bids, [std::less] for the asks). *)

From S2P Require Import Prelude.

Section StdMap.
Context {V : Type} (lt : Z -> Z -> bool).

Definition equiv_key (a b : Z) : bool := negb (lt a b) && negb (lt b a).

(** [m.find(k)] and, with [None] for the exception, [m.at(k)]. *)
Fixpoint sm_find (k : Z) (m : list (Z * V)) : option V :=
  match m with
  | [] => None
  | (k', v) :: m' => if equiv_key k k' then Some v else sm_find k m'
  end.

(** [m.erase(k)]. *)
Fixpoint sm_erase (k : Z) (m : list (Z * V)) : list (Z * V) :=
  match m with
  | [] => []
  | (k', v) :: m' => if equiv_key k k' then m' else (k', v) :: sm_erase k m'
  end.

(** Mutate the value of an existing key in place. *)
Fixpoint sm_alter (f : V -> V) (k : Z) (m : list (Z * V)) : list (Z * V) :=
  match m with
  | [] => []
  | (k', v) :: m' => if equiv_key k k' then (k', f v) :: m' else (k', v) :: sm_alter f k m'
  end.

(** [m[k]]: the value of [k], default-constructed ([d]) and inserted in
    order when missing, then mutated by [f]. *)
Fixpoint sm_index (d : V) (f : V -> V) (k : Z) (m : list (Z * V)) : list (Z * V) :=
  match m with
  | [] => [(k, f d)]
  | (k', v) :: m' =>
      if lt k k' then (k, f d) :: (k', v) :: m'
      else if lt k' k then (k', v) :: sm_index d f k m'
      else (k', f v) :: m'
  end.

Definition sm_sorted (m : list (Z * V)) : Prop :=
  StronglySorted (fun a b => lt a b = true) m.*1.

Lemma sm_find_alter f k m : sm_find k (sm_alter f k m) = f <$> sm_find k m.
Proof.
  induction m as [|[k' v] m IH]; simpl; [done|].
  destruct (equiv_key k k') eqn:E; simpl; by rewrite E.
Qed.

Context (lt_total : forall a b, lt a b = false -> lt b a = false -> a = b)
        (lt_irrefl : forall a, lt a a = false)
        (lt_trans : forall a b c, lt a b = true -> lt b c = true -> lt a c = true).

Lemma equiv_key_eq a b : equiv_key a b = true <-> a = b.
Proof.
  unfold equiv_key. split.
  - intros [H1 H2]%andb_prop. apply lt_total; by apply negb_true_iff.
  - intros ->. by rewrite lt_irrefl.
Qed.

(** A key that is found splits the map around its entry; erasing and
    mutating act on that entry alone. *)
Lemma sm_find_split k v m :
  sm_find k m = Some v ->
  exists m1 m2, m = m1 ++ (k, v) :: m2
    /\ sm_erase k m = m1 ++ m2
    /\ forall f, sm_alter f k m = m1 ++ (k, f v) :: m2.
Proof.
  induction m as [|[k' v'] m IH]; simpl; [done|].
  destruct (equiv_key k k') eqn:E.
  - intros. simplify_eq. apply equiv_key_eq in E as <-. by exists [], m.
  - intros (m1 & m2 & -> & He & Ha)%IH. exists ((k', v') :: m1), m2.
    rewrite He. repeat split; [done..|]. intros f. by rewrite Ha.
Qed.

Lemma sm_erase_alter f k m : sm_erase k (sm_alter f k m) = sm_erase k m.
Proof.
  induction m as [|[k' v'] m IH]; simpl; [done|].
  destruct (equiv_key k k') eqn:E; simpl; rewrite E; [done|]. by rewrite IH.
Qed.

Lemma sm_find_elem k v m : sm_sorted m -> (k, v) ∈ m -> sm_find k m = Some v.
Proof.
  unfold sm_sorted. induction m as [|[k' v'] m IH]; simpl; intros Hs Hin.
  { by apply not_elem_of_nil in Hin. }
  inversion Hs as [|? ? Hs' Hf]; subst.
  apply elem_of_cons in Hin as [?|Hin].
  - simplify_eq. by rewrite (proj2 (equiv_key_eq k' k') eq_refl).
  - destruct (equiv_key k k') eqn:E; [|by apply IH].
    apply equiv_key_eq in E as ->. rewrite Forall_forall in Hf.
    assert (k' ∈ m.*1) as Hk by (apply list_elem_of_fmap; by exists (k', v)).
    specialize (Hf _ Hk). by rewrite lt_irrefl in Hf.
Qed.

(** [m[k]] either mutates an existing entry or inserts one between the
    smaller and the larger keys. *)
Lemma sm_index_split d f k m :
  sm_sorted m ->
  (exists m1 v m2, m = m1 ++ (k, v) :: m2 /\ sm_index d f k m = m1 ++ (k, f v) :: m2
     /\ Forall (fun e => lt e.1 k = true) m1 /\ Forall (fun e => lt k e.1 = true) m2)
  \/ (exists m1 m2, m = m1 ++ m2 /\ sm_index d f k m = m1 ++ (k, f d) :: m2
     /\ Forall (fun e => lt e.1 k = true) m1 /\ Forall (fun e => lt k e.1 = true) m2).
Proof.
  unfold sm_sorted. induction m as [|[k' v'] m IH]; simpl; intros Hs.
  { right. by exists [], []. }
  inversion Hs as [|? ? Hs' Hf]; subst.
  assert (forall a, lt a k' = true -> Forall (fun e => lt a e.1 = true) m) as Hbig.
  { intros a Ha. apply Forall_fmap in Hf. eapply Forall_impl; [exact Hf|].
    intros e He. by eapply lt_trans. }
  destruct (lt k k') eqn:E1; [|destruct (lt k' k) eqn:E2].
  - right. exists [], ((k', v') :: m). repeat split; auto.
  - destruct (IH Hs') as [(m1 & v & m2 & -> & Hi & H1 & H2)|(m1 & m2 & -> & Hi & H1 & H2)].
    + left. exists ((k', v') :: m1), v, m2. rewrite Hi. repeat split; auto.
    + right. exists ((k', v') :: m1), m2. rewrite Hi. repeat split; auto.
  - left. assert (k = k') as -> by (by apply lt_total).
    exists [], v', m. repeat split; auto. apply Forall_fmap in Hf. exact Hf.
Qed.

Lemma sm_sorted_app m1 e m2 :
  sm_sorted (m1 ++ m2) -> Forall (fun x => lt x.1 e.1 = true) m1 ->
  Forall (fun x => lt e.1 x.1 = true) m2 -> sm_sorted (m1 ++ e :: m2).
Proof.
  unfold sm_sorted. rewrite !fmap_app, fmap_cons. intros Hs H1 H2.
  apply StronglySorted_app in Hs as (Hx & Hs1 & Hs2).
  apply StronglySorted_app. split; [|split; [done|]].
  - intros a b Ha [->|Hb]%elem_of_cons; [|by apply Hx].
    apply list_elem_of_fmap in Ha as (x & -> & Ha).
    rewrite Forall_forall in H1. by apply H1.
  - constructor; [done|]. by apply Forall_fmap.
Qed.

Lemma sm_sorted_remove m1 e m2 : sm_sorted (m1 ++ e :: m2) -> sm_sorted (m1 ++ m2).
Proof.
  unfold sm_sorted. rewrite !fmap_app, fmap_cons. intros Hs.
  apply StronglySorted_app in Hs as (Hx & Hs1 & Hs2). inversion Hs2; subst.
  apply StronglySorted_app. split; [|done]. intros a b Ha Hb. apply Hx; [done|by right].
Qed.

Lemma sm_sorted_replace m1 k v v' m2 :
  sm_sorted (m1 ++ (k, v) :: m2) -> sm_sorted (m1 ++ (k, v') :: m2).
Proof. unfold sm_sorted. by rewrite !fmap_app, !fmap_cons. Qed.

(** The operations skip the entries before the key... *)
Lemma sm_before m1 m2 k :
  Forall (fun e => lt e.1 k = true) m1 ->
  sm_find k (m1 ++ m2) = sm_find k m2
  /\ sm_erase k (m1 ++ m2) = m1 ++ sm_erase k m2
  /\ (forall f, sm_alter f k (m1 ++ m2) = m1 ++ sm_alter f k m2)
  /\ (forall d f, sm_index d f k (m1 ++ m2) = m1 ++ sm_index d f k m2).
Proof.
  induction 1 as [|[k' v] m1 Hk _ (IH1 & IH2 & IH3 & IH4)]; simpl; [done|]. simpl in Hk.
  assert (equiv_key k k' = false) as -> by (unfold equiv_key; by rewrite Hk, andb_false_r).
  assert (lt k k' = false) as ->.
  { destruct (lt k k') eqn:E; [|done]. pose proof (lt_irrefl k) as Hi. by rewrite (lt_trans _ _ _ E Hk) in Hi. }
  rewrite Hk, IH1, IH2. split_and!; [done..| |]; intros; by rewrite ?IH3, ?IH4.
Qed.

(** ... and find nothing among those after it. *)
Lemma sm_after m k :
  Forall (fun e => lt k e.1 = true) m ->
  sm_find k m = None /\ sm_erase k m = m /\ forall d f, sm_index d f k m = (k, f d) :: m.
Proof.
  induction 1 as [|[k' v] m Hk _ (IH1 & IH2 & IH3)]; simpl; [done|]. simpl in Hk.
  unfold equiv_key. rewrite Hk. simpl. by rewrite IH1, IH2.
Qed.

(** [m[k]] as a lookup, an insertion when it fails, and an assignment. *)
Lemma sm_index_alter d f k m :
  sm_sorted m ->
  sm_index d f k m
  = match sm_find k m with
    | Some v => sm_alter (fun _ => f v) k m
    | None => sm_alter (fun _ => f d) k (sm_index d id k m)
    end.
Proof.
  unfold sm_sorted. induction m as [|[k' v] m IH]; simpl; intros Hs.
  { unfold equiv_key. by rewrite lt_irrefl. }
  inversion Hs as [|? ? Hs' Hf]; subst. unfold equiv_key at 1 2.
  destruct (lt k k') eqn:E1; simpl.
  - assert (Forall (fun e => lt k e.1 = true) m) as Hk.
    { apply Forall_fmap in Hf. eapply Forall_impl; [exact Hf|]. intros e He. by eapply lt_trans. }
    destruct (sm_after m k Hk) as (-> & _). unfold equiv_key. by rewrite lt_irrefl.
  - destruct (lt k' k) eqn:E2; simpl; [|done]. rewrite (IH Hs'). destruct (sm_find k m); [done|].
    simpl. unfold equiv_key. by rewrite E1, E2.
Qed.

(** What [sm_index d id] inserts is found. *)
Lemma sm_find_index d k m : sm_find k m = None -> sm_find k (sm_index d id k m) = Some d.
Proof.
  induction m as [|[k' v] m IH]; simpl.
  { intros _. unfold equiv_key. by rewrite lt_irrefl. }
  unfold equiv_key. destruct (lt k k') eqn:E1; simpl.
  - intros _. unfold equiv_key. by rewrite lt_irrefl.
  - destruct (lt k' k) eqn:E2; simpl; [|done]. intros E. unfold equiv_key at 1. rewrite E1, E2.
    by apply IH.
Qed.

Lemma sm_find_mid j k v m1 m2 : j <> k -> sm_find j (m1 ++ (k, v) :: m2) = sm_find j (m1 ++ m2).
Proof.
  intros Hne. induction m1 as [|[k' v'] m1 IH]; simpl; [|by rewrite IH].
  destruct (equiv_key j k) eqn:E; [|done]. by apply equiv_key_eq in E.
Qed.

(** [m[k]] followed by lookups. *)
Lemma sm_index_find d f k m :
  sm_sorted m ->
  sm_sorted (sm_index d f k m)
  /\ sm_find k (sm_index d f k m) = Some (f (default d (sm_find k m)))
  /\ forall j, j <> k -> sm_find j (sm_index d f k m) = sm_find j m.
Proof.
  intros Hs. destruct (sm_index_split d f k m Hs) as [(m1 & v & m2 & E & -> & H1 & H2)|(m1 & m2 & E & -> & H1 & H2)];
    rewrite E in *.
  - split_and!; [by eapply sm_sorted_replace| |intros j Hj; by rewrite !sm_find_mid].
    rewrite !(proj1 (sm_before _ _ _ H1)). simpl. unfold equiv_key. by rewrite lt_irrefl.
  - split_and!; [by apply sm_sorted_app| |intros j Hj; by rewrite sm_find_mid].
    rewrite !(proj1 (sm_before _ _ _ H1)). simpl. unfold equiv_key. rewrite lt_irrefl. simpl.
    by rewrite (proj1 (sm_after _ _ H2)).
Qed.
End StdMap.
