(* ===== verification/MapOrderBook.v ===== *)
(** * [MapOrderBook]: the [std::map] matching engine

    Models [src/app/statemachine/MapOrderBook.{h,cpp}].  A price level is a
    [std::list<Order>]; the order index keeps iterators into those lists.
    An iterator is modelled as the address of a list node: a level is a list
    of (address, order) pairs and [mb_alloc] is the next fresh address, so
    that a dangling iterator is an address no level holds.  Erasing through
    one, dereferencing one, or [at] on a missing price gives [None].

    [MapOrderBook_laws] shows that the engine simulates the abstract book of
    [BookSpec]; in particular none of those [None]s occurs. *)

From S2P Require Import Prelude IOrderBook BookSpec StdMap.

(** ** State *)

Abbreviation list_node := (nat * Order)%type.
Abbreviation level_map := (list (Z * list list_node)).

Record OrderLocation := mkLoc {
  loc_side : Side;
  loc_price : Z;
  loc_it : nat
}.

Record MapOrderBook := mkMapOrderBook {
  mb_symbol : bytes;
  mb_bids : level_map;
  mb_asks : level_map;
  mb_orderIndex : gmap Z OrderLocation;
  mb_alloc : nat
}.

(** [explicit MapOrderBook(std::string symbol)]. *)
Definition new_MapOrderBook (symbol : bytes) : MapOrderBook :=
  mkMapOrderBook symbol [] [] ∅ 0.

(** The map of one side, and the book with that map replaced. *)
Definition levels (s : Side) (b : MapOrderBook) : level_map :=
  match s with Buy => mb_bids b | Sell => mb_asks b end.

Definition set_levels (s : Side) (m : level_map) (b : MapOrderBook) : MapOrderBook :=
  match s with
  | Buy => mkMapOrderBook (mb_symbol b) m (mb_asks b) (mb_orderIndex b) (mb_alloc b)
  | Sell => mkMapOrderBook (mb_symbol b) (mb_bids b) m (mb_orderIndex b) (mb_alloc b)
  end.

Definition set_index (i : gmap Z OrderLocation) (b : MapOrderBook) : MapOrderBook :=
  mkMapOrderBook (mb_symbol b) (mb_bids b) (mb_asks b) i (mb_alloc b).

Definition set_alloc (a : nat) (b : MapOrderBook) : MapOrderBook :=
  mkMapOrderBook (mb_symbol b) (mb_bids b) (mb_asks b) (mb_orderIndex b) a.

(** ** Mutations *)

(** The inner loop of [match]: trade with the front of one level while the
    taker has quantity and the level has orders. *)
Fixpoint match_level (fuel : nat) (takerSide : Side) (takerId : Z) (remainingQty : Z)
    (level : list list_node) (index : gmap Z OrderLocation) (fills : list Fill)
  : option (Z * list list_node * gmap Z OrderLocation * list Fill) :=
  match fuel with
  | O => None
  | S fuel =>
      if 0 <? remainingQty then
        match level with
        | [] => Some (remainingQty, level, index, fills)
        | (it, maker) :: rest =>
            let matchQty := Z.min remainingQty (o_quantity maker) in
            let f := mkFill (o_id maker) takerId (o_price maker) matchQty takerSide in
            let remainingQty := remainingQty -s matchQty in
            let maker := set_quantity maker (o_quantity maker -s matchQty) in
            if o_quantity maker <=? 0 then
              match_level fuel takerSide takerId remainingQty rest
                (delete (o_id maker) index) (fills ++ [f])
            else
              match_level fuel takerSide takerId remainingQty ((it, maker) :: rest)
                index (fills ++ [f])
        end
      else Some (remainingQty, level, index, fills)
  end.

(** The outer loop of [match]: visit the best opposite level while the taker
    has quantity and its price crosses; an emptied level is erased. *)
Fixpoint match_loop (fuel : nat) (takerSide : Side) (takerPrice : Z) (takerId : Z)
    (remainingQty : Z) (b : MapOrderBook) (fills : list Fill)
  : option (Z * MapOrderBook * list Fill) :=
  match fuel with
  | O => None
  | S fuel =>
      if 0 <? remainingQty then
        match levels (opposite takerSide) b with
        | [] => Some (remainingQty, b, fills)
        | (bestPrice, level) :: others =>
            if match takerSide with
               | Buy => takerPrice <? bestPrice
               | Sell => bestPrice <? takerPrice
               end
            then Some (remainingQty, b, fills)
            else
              '(remainingQty, level, index, fills) ←
                 match_level (S (length level)) takerSide takerId remainingQty
                   level (mb_orderIndex b) fills;
              let m := (bestPrice, level) :: others in
              let m := match level with
                       | [] => sm_erase (before (opposite takerSide)) bestPrice m
                       | _ => m
                       end in
              match_loop fuel takerSide takerPrice takerId remainingQty
                (set_levels (opposite takerSide) m (set_index index b)) fills
        end
      else Some (remainingQty, b, fills)
  end.

Definition match_ (takerSide : Side) (takerPrice remainingQty takerId : Z) (b : MapOrderBook)
  : option (Z * MapOrderBook * list Fill) :=
  match_loop (S (length (levels (opposite takerSide) b))) takerSide takerPrice takerId
    remainingQty b [].

(** [addResting]: push to the back of the (possibly new) level and record
    the iterator of the node. *)
Definition addResting (b : MapOrderBook) (o : Order) : MapOrderBook :=
  let it := mb_alloc b in
  let m := sm_index (before (o_side o)) [] (fun level => level ++ [(it, o)])
             (o_price o) (levels (o_side o) b) in
  set_alloc (S it)
    (set_index (<[o_id o := mkLoc (o_side o) (o_price o) it]> (mb_orderIndex b))
       (set_levels (o_side o) m b)).

Definition newOrder (b : MapOrderBook) (orderId : Z) (side : Side)
    (price quantity sequence : Z) : option (list Fill * MapOrderBook) :=
  if quantity <=? 0 then Some ([], b)
  else if bool_decide (is_Some (mb_orderIndex b !! orderId)) then Some ([], b)
  else
    '(remaining, b, fills) ← match_ side price quantity orderId b;
    Some (fills,
      if 0 <? remaining then addResting b (mkOrder orderId side price remaining sequence)
      else b).

(** [std::list::erase(it)]. *)
Fixpoint list_erase (it : nat) (l : list list_node) : option (list list_node) :=
  match l with
  | [] => None
  | (n, o) :: l' => if (n =? it)%nat then Some l' else ((n, o) ::.) <$> list_erase it l'
  end.

Definition cancelOrder (b : MapOrderBook) (orderId : Z) : option (bool * MapOrderBook) :=
  match mb_orderIndex b !! orderId with
  | None => Some (false, b)
  | Some loc =>
      let lt := before (loc_side loc) in
      let m := levels (loc_side loc) b in
      level ← sm_find lt (loc_price loc) m;
      level ← list_erase (loc_it loc) level;
      let m := sm_alter lt (fun _ => level) (loc_price loc) m in
      let m := match level with [] => sm_erase lt (loc_price loc) m | _ => m end in
      Some (true, set_index (delete orderId (mb_orderIndex b))
                    (set_levels (loc_side loc) m b))
  end.

Definition modifyOrder (b : MapOrderBook) (orderId newPrice newQuantity newSequence : Z)
  : option (bool * MapOrderBook) :=
  match mb_orderIndex b !! orderId with
  | None => Some (false, b)
  | Some loc =>
      '(_, b) ← cancelOrder b orderId;
      Some (true,
        if 0 <? newQuantity
        then addResting b (mkOrder orderId (loc_side loc) newPrice newQuantity newSequence)
        else b)
  end.

Definition addRestingOrder (b : MapOrderBook) (o : Order) : MapOrderBook := addResting b o.

Definition reset (b : MapOrderBook) (symbol : bytes) : MapOrderBook :=
  mkMapOrderBook symbol [] [] ∅ (mb_alloc b).

(** ** Queries *)

(** The list nodes of a side in iteration order. *)
Definition flat (m : level_map) : list list_node := concat m.*2.

Definition nodes (b : MapOrderBook) : list list_node := flat (mb_bids b) ++ flat (mb_asks b).

Definition allOrders (b : MapOrderBook) : list Order :=
  (snd <$> flat (mb_bids b)) ++ (snd <$> flat (mb_asks b)).

(** [&*it]: the order an iterator points to. *)
Definition deref (it : nat) (b : MapOrderBook) : option Order :=
  snd <$> head (filter (fun nd => nd.1 = it) (nodes b)).

Definition getOrder (b : MapOrderBook) (orderId : Z) : option (option Order) :=
  match mb_orderIndex b !! orderId with
  | None => Some None
  | Some loc => Some <$> deref (loc_it loc) b
  end.

Definition orderCount (b : MapOrderBook) : Z := Z.of_nat (size (mb_orderIndex b)).

(** The loop over the orders of a level that builds its [PriceLevel]. *)
Definition sum_level (price : Z) (level : list list_node) : PriceLevel :=
  foldl (fun pl nd => mkPriceLevel (pl_price pl)
                        (pl_totalQuantity pl +s o_quantity nd.2)
                        (u32 (pl_orderCount pl + 1)))
    (mkPriceLevel price 0 0) level.

(** The loop shared by [bids(maxLevels)] and [asks(maxLevels)]. *)
Fixpoint depth_loop (maxLevels : Z) (out : list PriceLevel) (m : level_map) : list PriceLevel :=
  match m with
  | [] => out
  | (price, level) :: m' =>
      let out := out ++ [sum_level price level] in
      if negb (maxLevels =? 0) && (maxLevels <=? Z.of_nat (length out)) then out
      else depth_loop maxLevels out m'
  end.

Definition bids (b : MapOrderBook) (maxLevels : Z) : list PriceLevel :=
  depth_loop maxLevels [] (mb_bids b).
Definition asks (b : MapOrderBook) (maxLevels : Z) : list PriceLevel :=
  depth_loop maxLevels [] (mb_asks b).

Definition bestBid (b : MapOrderBook) : option Z := fst <$> head (mb_bids b).
Definition bestAsk (b : MapOrderBook) : option Z := fst <$> head (mb_asks b).

#[global] Instance MapOrderBook_IOrderBook : IOrderBook MapOrderBook := {|
  ib_newOrder := newOrder;
  ib_cancelOrder := cancelOrder;
  ib_modifyOrder := modifyOrder;
  ib_getOrder := getOrder;
  ib_orderCount := orderCount;
  ib_symbol := mb_symbol;
  ib_bids := bids;
  ib_asks := asks;
  ib_bestBid := bestBid;
  ib_bestAsk := bestAsk;
  ib_addRestingOrder := fun b o => Some (addRestingOrder b o);
  ib_allOrders := allOrders;
  ib_reset := fun b sym => Some (reset b sym)
|}.

Example match_example :
  (b ← snd <$> newOrder (new_MapOrderBook []) 1 Sell 101 5 1;
   b ← snd <$> newOrder b 2 Sell 100 5 2;
   fst <$> newOrder b 3 Buy 101 7 3)
  = Some [mkFill 2 3 100 5 Buy; mkFill 1 3 101 2 Buy].
Proof. vm_compute. reflexivity. Qed.

(** ** Termination of the matching loops

    For every book and every quantity, whatever the invariant: each pass of
    the inner loop pops an order or uses up the taker, each pass of the outer
    loop erases a level or uses up the taker. *)

Lemma match_level_step q m : 0 < q -> 0 < (m -s Z.min q m) -> q -s Z.min q m = 0.
Proof.
  intros Hq Hm. destruct (Z.min_spec q m) as [[_ ->]|[_ E]].
  - by rewrite Z.sub_diag.
  - rewrite E, Z.sub_diag in Hm. by vm_compute in Hm.
Qed.

Lemma match_level_total fuel s tid rem level idx fills :
  (length level < fuel)%nat ->
  exists rem' level' idx' fills',
    match_level fuel s tid rem level idx fills = Some (rem', level', idx', fills')
    /\ (rem' <= 0 \/ level' = []).
Proof.
  revert rem level idx fills.
  induction fuel as [|fuel IH]; intros rem level idx fills Hf; [lia|]. simpl.
  destruct (0 <? rem) eqn:Hr; [|eauto 10 with lia].
  destruct level as [|[it maker] rest]; [eauto 10|]. simpl in Hf |- *.
  destruct (_ <=? 0) eqn:Hq; [apply IH; lia|].
  rewrite match_level_step by lia. destruct fuel; [lia|]. simpl. eauto 10 with lia.
Qed.

Lemma match_loop_total fuel s tp tid rem b fills :
  (length (levels (opposite s) b) < fuel)%nat ->
  exists r, match_loop fuel s tp tid rem b fills = Some r.
Proof.
  revert rem b fills.
  induction fuel as [|fuel IH]; intros rem b fills Hf; [lia|]. cbn [match_loop].
  destruct (0 <? rem) eqn:Hr; [|eauto].
  destruct (levels (opposite s) b) as [|[bp level] others] eqn:El; [eauto|].
  destruct (match s with Buy => _ | Sell => _ end); [eauto|]. simpl in Hf.
  destruct (match_level_total (S (length level)) s tid rem level (mb_orderIndex b) fills)
    as (rem' & level' & idx' & fills' & -> & Hend); [lia|]. simpl.
  destruct level' as [|nd level'].
  - apply IH. unfold equiv_key. rewrite before_irrefl. simpl.
    destruct s; simpl; lia.
  - destruct Hend as [Hr'|]; [|done]. destruct fuel; [lia|]. simpl.
    replace (0 <? rem') with false by lia. eauto.
Qed.

(** ** The invariant *)

Definition node_ok (s : Side) (p : Z) (nd : list_node) : Prop :=
  o_price nd.2 = p /\ resting_ok s nd.2.

Definition level_ok (s : Side) (e : Z * list list_node) : Prop :=
  e.2 <> [] /\ Forall (node_ok s e.1) e.2.

Definition levels_ok (s : Side) (m : level_map) : Prop :=
  sm_sorted (before s) m /\ Forall (level_ok s) m.

(** The index names exactly the resting orders, with an iterator to each. *)
Definition index_ok (idx : gmap Z OrderLocation) (nds : list list_node) : Prop :=
  forall id loc, idx !! id = Some loc <->
    exists o, (loc_it loc, o) ∈ nds /\ o_id o = id /\ o_side o = loc_side loc
              /\ o_price o = loc_price loc.

Definition node_id (nd : list_node) : Z := o_id nd.2.

Definition nodes_ok (alloc : nat) (nds : list list_node) : Prop :=
  NoDup nds.*1 /\ NoDup (node_id <$> nds) /\ Forall (fun nd => (nd.1 < alloc)%nat) nds.

Definition book_ok (b : MapOrderBook) : Prop :=
  (forall s, levels_ok s (levels s b))
  /\ nodes_ok (mb_alloc b) (nodes b)
  /\ index_ok (mb_orderIndex b) (nodes b).

Definition book_abs (b : MapOrderBook) : ABook :=
  mkABook (mb_symbol b) (snd <$> flat (mb_bids b)) (snd <$> flat (mb_asks b)).

#[global] Instance index_ok_proper idx : Proper ((≡ₚ) ==> iff) (index_ok idx).
Proof.
  intros l l' Hl. unfold index_ok.
  split; intros H id loc; rewrite H; setoid_rewrite Hl; done.
Qed.

#[global] Instance nodes_ok_proper a : Proper ((≡ₚ) ==> iff) (nodes_ok a).
Proof. intros l l' Hl. unfold nodes_ok. by rewrite Hl. Qed.

Lemma nodes_perm s b : nodes b ≡ₚ flat (levels s b) ++ flat (levels (opposite s) b).
Proof. unfold nodes. destruct s; simpl; [done|]. by rewrite (comm (++)). Qed.

Lemma a_side_abs s b : a_side s (book_abs b) = snd <$> flat (levels s b).
Proof. by destruct s. Qed.

Lemma a_orders_abs b : a_orders (book_abs b) = snd <$> nodes b.
Proof. unfold a_orders, nodes. simpl. by rewrite fmap_app. Qed.

Lemma node_ids_abs b : node_id <$> nodes b = o_id <$> a_orders (book_abs b).
Proof. rewrite a_orders_abs. by rewrite <- list_fmap_compose. Qed.

Lemma levels_set_levels s m b : levels s (set_levels s m b) = m.
Proof. by destruct s. Qed.
Lemma levels_set_opposite s m b : levels s (set_levels (opposite s) m b) = levels s b.
Proof. by destruct s. Qed.
Lemma levels_set_opposite' s m b : levels (opposite s) (set_levels s m b) = levels (opposite s) b.
Proof. by destruct s. Qed.
Lemma levels_set_index s i b : levels s (set_index i b) = levels s b.
Proof. by destruct s. Qed.
Lemma levels_set_alloc s a b : levels s (set_alloc a b) = levels s b.
Proof. by destruct s. Qed.
#[export] Hint Rewrite levels_set_levels levels_set_opposite levels_set_opposite'
  levels_set_index levels_set_alloc : book.

(** ** The loops compute the reference matching *)

(** The list nodes left after a match: as [BookSpec.residual], on nodes. *)
Inductive nresidual (l : list list_node) : nat -> list list_node -> Prop :=
  | nresidual_drop k : nresidual l k (drop k l)
  | nresidual_part k it o q rest :
      drop k l = (it, o) :: rest -> 0 < q < o_quantity o ->
      nresidual l k ((it, set_quantity o q) :: rest).

Lemma nresidual_cons x l k l' : nresidual l k l' -> nresidual (x :: l) (S k) l'.
Proof.
  intros H. inversion H; subst; [apply (nresidual_drop (x :: l) (S k))|].
  by eapply nresidual_part.
Qed.

Lemma nresidual_app_r l1 l2 k l1' :
  (k <= length l1)%nat -> nresidual l1 k l1' -> nresidual (l1 ++ l2) k (l1' ++ l2).
Proof.
  intros Hk H. inversion H as [|? it o q rest Hd Hq]; subst.
  - rewrite <- drop_app_le by done. apply nresidual_drop.
  - simpl. eapply nresidual_part; [|done]. rewrite drop_app_le by done. by rewrite Hd.
Qed.

Lemma nresidual_app_l l1 l2 k l2' :
  nresidual l2 k l2' -> nresidual (l1 ++ l2) (length l1 + k) l2'.
Proof.
  intros H. induction l1 as [|x l1 IH]; [done|]. by apply nresidual_cons.
Qed.

(** The index after the popped makers were erased from it. *)
Definition del_index (popped : list list_node) (idx : gmap Z OrderLocation) :=
  foldl (fun i nd => delete (node_id nd) i) idx popped.

Lemma match_level_spec s tp tid p level :
  Forall (node_ok (opposite s) p) level -> crosses s tp p = true ->
  forall fuel rem idx fills, (length level < fuel)%nat -> 0 <= rem < 2 ^ 63 ->
  exists k fs r level',
    match_level fuel s tid rem level idx fills
      = Some (r, level', del_index (take k level) idx, fills ++ fs)
    /\ spec_match s tp rem tid (snd <$> level) = (fs, r, snd <$> level')
    /\ nresidual level k level' /\ (k <= length level)%nat
    /\ 0 <= r < 2 ^ 63 /\ (r = 0 \/ (level' = [] /\ k = length level)).
Proof.
  intros Hok Hc. induction Hok as [|[it maker] rest [Hp (Hs & Ht & Hq)] Hrest IH];
    intros fuel rem idx fills Hf Hrem; (destruct fuel as [|fuel]; [lia|]); csimpl in *.
  - exists 0%nat, [], rem, []. rewrite app_nil_r.
    split_and!; [by destruct (0 <? rem)|done|apply (nresidual_drop [] 0)|lia..|auto].
  - destruct (0 <? rem) eqn:Hr; [|exists 0%nat, [], rem, ((it, maker) :: rest);
      rewrite app_nil_r; split_and!;
      [done|done|apply (nresidual_drop ((it, maker) :: rest) 0)|lia..]].
    rewrite Hp, Hc. csimpl. destruct Ht as (_ & _ & Hqt & _).
    rewrite (i64_small (rem - _)), (i64_small (o_quantity maker - _)) by mach.
    destruct (o_quantity maker <=? _) eqn:Hle.
    + replace (o_quantity maker - _ <=? 0) with true by lia.
      destruct (IH fuel (rem - Z.min rem (o_quantity maker)) (delete (o_id maker) idx)
                  (fills ++ [mkFill (o_id maker) tid p (Z.min rem (o_quantity maker)) s]))
        as (k & fs & r & level' & E & Es & Hres & Hk & Hr' & Hend); [lia|lia|].
      rewrite E, Es. eexists (S k), (_ :: fs), r, level'. simpl. rewrite <- app_assoc.
      split_and!; [done|done|by apply nresidual_cons|lia..|].
      destruct Hend as [|[-> ->]]; auto.
    + replace (o_quantity maker - _ <=? 0) with false by lia.
      destruct fuel; [lia|]. simpl.
      replace (0 <? rem - _) with false by lia.
      eexists 0%nat, [_], _, (_ :: rest). split_and!;
        [done|done|eapply nresidual_part; [done|lia]|lia..].
Qed.

Lemma nresidual_node_ok s p l k l' :
  nresidual l k l' -> Forall (node_ok s p) l -> Forall (node_ok s p) l'.
Proof.
  intros H Hl. apply (Forall_drop _ k) in Hl.
  destruct H as [k|k it o q rest Hd Hq]; [done|]. rewrite Hd in Hl.
  inversion Hl as [|? ? Hn Hr]; subst. constructor; [|done].
  destruct Hn as (Hp & Hs & (Hi & Hpr & Hqt & Hsq) & Hq').
  unfold node_ok, resting_ok, order_typed in *. simpl in *.
  split_and!; try done; mach.
Qed.

Lemma set_levels_id s b : set_levels s (levels s b) (set_index (mb_orderIndex b) b) = b.
Proof. by destruct s, b. Qed.

Lemma set_levels_twice s m1 i1 m2 i2 b :
  set_levels s m2 (set_index i2 (set_levels s m1 (set_index i1 b)))
  = set_levels s m2 (set_index i2 b).
Proof. by destruct s, b. Qed.

Lemma set_index_levels s m i b : set_index i (set_levels s m b) = set_levels s m (set_index i b).
Proof. by destruct s. Qed.

Lemma index_set_levels s m i b : mb_orderIndex (set_levels s m (set_index i b)) = i.
Proof. by destruct s. Qed.

Lemma cross_test s tp p :
  match s with Buy => tp <? p | Sell => p <? tp end = negb (crosses s tp p).
Proof. destruct s; simpl; lia. Qed.

Lemma flat_cons e m : flat (e :: m) = e.2 ++ flat m.
Proof. done. Qed.

Lemma spec_match_level_stop s tp tid rem p level others :
  level_ok (opposite s) (p, level) -> rem <= 0 \/ crosses s tp p = false ->
  spec_match s tp rem tid (snd <$> flat ((p, level) :: others))
  = ([], rem, snd <$> flat ((p, level) :: others)).
Proof.
  intros [Hne Hlv] [H|H]; [by apply spec_match_done|]. simpl in *.
  destruct level as [|[it o] level]; [done|]. inversion Hlv as [|? ? [Hp _] _]; subst.
  simpl in H. rewrite flat_cons. csimpl. by rewrite H, andb_false_r.
Qed.

(** What a run of the outer loop from book [b] returns. *)
Definition match_post (s : Side) (tp tid rem : Z) (b : MapOrderBook) (fills : list Fill)
    (res : option (Z * MapOrderBook * list Fill)) : Prop :=
  let l := flat (levels (opposite s) b) in
  exists k fs r m',
    res = Some (r, set_levels (opposite s) m'
                     (set_index (del_index (take k l) (mb_orderIndex b)) b), fills ++ fs)
    /\ spec_match s tp rem tid (snd <$> l) = (fs, r, snd <$> flat m')
    /\ nresidual l k (flat m') /\ levels_ok (opposite s) m' /\ 0 <= r < 2 ^ 63.

Lemma match_post_exit s tp tid rem b fills :
  levels_ok (opposite s) (levels (opposite s) b) -> 0 <= rem < 2 ^ 63 ->
  spec_match s tp rem tid (snd <$> flat (levels (opposite s) b))
  = ([], rem, snd <$> flat (levels (opposite s) b)) ->
  match_post s tp tid rem b fills (Some (rem, b, fills)).
Proof.
  intros Hok Hrem Hs. exists 0%nat, [], rem, (levels (opposite s) b).
  rewrite app_nil_r. simpl. rewrite set_levels_id.
  split_and!; [done|done|apply (nresidual_drop _ 0)|apply Hok..|lia|lia].
Qed.

(** A level that was used up: the run goes on with the other levels. *)
Lemma match_post_go s tp tid rem b p level others fs r fills res :
  levels (opposite s) b = (p, level) :: others ->
  spec_match s tp rem tid (snd <$> level) = (fs, r, []) ->
  match_post s tp tid r
    (set_levels (opposite s) others (set_index (del_index level (mb_orderIndex b)) b))
    (fills ++ fs) res ->
  match_post s tp tid rem b fills res.
Proof.
  intros Hb Es (k & fs2 & r2 & m' & E & Es2 & Hres & Hok & Hr).
  rewrite set_levels_twice, index_set_levels in E. autorewrite with book in *.
  exists (length level + k)%nat, (fs ++ fs2), r2, m'.
  rewrite Hb, flat_cons, fmap_app, app_assoc. simpl. split_and!; [|..|done|lia|lia].
  - rewrite E. do 4 f_equal. unfold del_index.
    by rewrite take_app_add, foldl_app.
  - by eapply spec_match_app_go.
  - by apply nresidual_app_l.
Qed.

(** The taker was filled inside a level. *)
Lemma match_post_stop s tp tid rem b p level others k fs level' fills :
  levels (opposite s) b = (p, level) :: others ->
  levels_ok (opposite s) ((p, level) :: others) ->
  spec_match s tp rem tid (snd <$> level) = (fs, 0, snd <$> level') ->
  nresidual level k level' -> (k <= length level)%nat -> level' <> [] ->
  match_post s tp tid rem b fills
    (Some (0, set_levels (opposite s) ((p, level') :: others)
                (set_index (del_index (take k level) (mb_orderIndex b)) b), fills ++ fs)).
Proof.
  intros Hb [Hsort Hall] Es Hres Hk Hne. inversion Hall as [|? ? [_ Hlv] Hothers]; subst.
  exists k, fs, 0, ((p, level') :: others).
  rewrite Hb, !flat_cons, !fmap_app. simpl. split_and!; [|..|lia|lia].
  - by rewrite take_app_le.
  - by apply spec_match_app_stop.
  - by apply nresidual_app_r.
  - split; [apply (sm_sorted_replace _ [] p level level' others Hsort)|].
    constructor; [|done]. split; [done|]. by eapply nresidual_node_ok.
Qed.

Lemma match_loop_spec s tp tid m :
  levels_ok (opposite s) m ->
  forall fuel rem b fills, levels (opposite s) b = m ->
  (length m < fuel)%nat -> 0 <= rem < 2 ^ 63 ->
  match_post s tp tid rem b fills (match_loop fuel s tp tid rem b fills).
Proof.
  induction m as [|[p level] others IH]; intros Hok fuel rem b fills Hb Hf Hrem;
    (destruct fuel as [|fuel]; [simpl in Hf; lia|]); cbn [match_loop].
  { rewrite Hb. replace (if 0 <? rem then _ else _) with (Some (rem, b, fills))
      by (by destruct (0 <? rem)).
    apply match_post_exit; rewrite ?Hb; done. }
  destruct Hok as [Hsort Hall]. inversion Hall as [|? ? Hlv Hothers]; subst.
  destruct (0 <? rem) eqn:Hr;
    [|apply match_post_exit; rewrite ?Hb; [done|lia|apply spec_match_level_stop; auto with lia]].
  rewrite Hb, cross_test. destruct (crosses s tp p) eqn:Hc; simpl negb; cbv iota;
    [|apply match_post_exit; rewrite ?Hb; [done|lia|apply spec_match_level_stop; auto]].
  destruct Hlv as [Hne Hlv].
  destruct (match_level_spec s tp tid p level Hlv Hc (S (length level)) rem
              (mb_orderIndex b) fills) as (k & fs & r & level' & -> & Es & Hres & Hk & Hr' & Hend);
    [lia|lia|]. cbn [mbind option_bind]. simpl in Hf.
  destruct level' as [|nd level'].
  - assert (drop k level = []) as Hd%(f_equal length) by (by inversion Hres).
    rewrite length_drop in Hd. simpl in Hd. rewrite take_ge by lia. unfold sm_erase, equiv_key. rewrite before_irrefl. cbn [negb andb].
    eapply match_post_go; [done|done|].
    apply IH; [|by autorewrite with book|lia|lia].
    split; [by inversion Hsort|done].
  - destruct Hend as [->|[? _]]; [|done]. destruct fuel; [lia|]. cbn [match_loop Z.ltb Z.compare].
    by apply match_post_stop.
Qed.

(** ** The index under the book's changes *)

Lemma index_ok_delete idx nd l :
  index_ok idx (nd :: l) -> NoDup (node_id <$> nd :: l) -> index_ok (delete (node_id nd) idx) l.
Proof.
  intros H Hnd id loc. apply NoDup_cons in Hnd as [Hnot _].
  rewrite lookup_delete_Some, (H id loc). split.
  - intros (Hne & o & [<-|Ho]%elem_of_cons & Hid & ?); [by destruct Hne|eauto].
  - intros (o & Ho & Hid & ?). split.
    + intros <-. apply Hnot. apply list_elem_of_fmap. by exists (loc_it loc, o).
    + exists o. split; [by right|done].
Qed.

Lemma index_ok_del_index idx l1 l2 :
  index_ok idx (l1 ++ l2) -> NoDup (node_id <$> l1 ++ l2) -> index_ok (del_index l1 idx) l2.
Proof.
  revert idx. induction l1 as [|nd l1 IH]; intros idx H Hnd; [done|]. csimpl in *.
  apply IH; [by apply index_ok_delete|]. by inversion Hnd.
Qed.

(** Changing an order in place keeps the index as long as its identity,
    side and price stay. *)
Lemma index_ok_update idx it o q l :
  index_ok idx ((it, o) :: l) -> index_ok idx ((it, set_quantity o q) :: l).
Proof.
  intros H id loc. rewrite (H id loc). split; intros (o' & Ho' & ?); apply elem_of_cons in Ho' as [E|Ho'].
  - simplify_eq. exists (set_quantity o q). split; [left|done].
  - exists o'. split; [by right|done].
  - simplify_eq. exists o. split; [left|done].
  - exists o'. split; [by right|done].
Qed.

Lemma index_ok_insert idx it o l :
  index_ok idx l -> o_id o ∉ node_id <$> l ->
  index_ok (<[o_id o := mkLoc (o_side o) (o_price o) it]> idx) ((it, o) :: l).
Proof.
  intros H Hnot id loc. rewrite lookup_insert_Some, (H id loc). split.
  - intros [[<- <-]|(Hne & o' & Ho' & Hr)].
    + exists o. split; [left|done].
    + exists o'. split; [by right|done].
  - intros (o' & [E|Ho']%elem_of_cons & Hid & Hs & Hp).
    + simplify_eq. left. split; [done|]. destruct loc. simpl in *. by simplify_eq.
    + right. split; [|eauto 10]. intros <-. apply Hnot.
      apply list_elem_of_fmap. by exists (loc_it loc, o').
Qed.

Lemma nodes_ok_insert a o l :
  nodes_ok a l -> o_id o ∉ node_id <$> l -> nodes_ok (S a) ((a, o) :: l).
Proof.
  intros (H1 & H2 & H3) Hnot. split_and!; csimpl.
  - constructor; [|done]. intros (nd & -> & Hn)%list_elem_of_fmap.
    rewrite Forall_forall in H3. specialize (H3 nd Hn). lia.
  - by constructor.
  - constructor; [simpl; lia|]. eapply Forall_impl; [exact H3|]. simpl. lia.
Qed.

Lemma nodes_ok_app_r a l1 l2 : nodes_ok a (l1 ++ l2) -> nodes_ok a l2.
Proof.
  intros (H1 & H2 & H3). rewrite !fmap_app in *.
  apply NoDup_app in H1 as (_ & _ & H1). apply NoDup_app in H2 as (_ & _ & H2).
  by apply Forall_app in H3 as [_ H3].
Qed.

Lemma nresidual_nodes a idx l k l' rest :
  nresidual l k l' -> nodes_ok a (l ++ rest) -> index_ok idx (l ++ rest) ->
  nodes_ok a (l' ++ rest) /\ index_ok (del_index (take k l) idx) (l' ++ rest).
Proof.
  intros Hres Hn Hi.
  assert (nodes_ok a (drop k l ++ rest)
          /\ index_ok (del_index (take k l) idx) (drop k l ++ rest)) as [Hn' Hi'].
  { rewrite <- (take_drop k l) in Hn, Hi at 1. rewrite <- app_assoc in Hn, Hi. split.
    - by apply nodes_ok_app_r in Hn.
    - apply index_ok_del_index; [done|]. apply Hn. }
  destruct Hres as [k|k it o q l' Hd Hq]; [done|].
  rewrite Hd in Hn', Hi'. simpl in *. split; [|by apply index_ok_update].
  destruct Hn' as (H1 & H2 & H3). split_and!; csimpl in *; [done|done|].
  inversion H3; subst. by constructor.
Qed.

Lemma index_lookup_find b id :
  book_ok b -> (o ← spec_find id (book_abs b); Some (o_side o))
               = loc_side <$> mb_orderIndex b !! id.
Proof.
  intros (_ & (_ & Hnd & _) & Hi). destruct (mb_orderIndex b !! id) as [loc|] eqn:E.
  - apply Hi in E as (o & Ho & Hid & Hs & Hp).
    rewrite (spec_find_elem id _ o); [by csimpl; rewrite Hs| | |done].
    + by rewrite <- node_ids_abs.
    + rewrite a_orders_abs. apply list_elem_of_fmap. by exists (loc_it loc, o).
  - destruct (spec_find id (book_abs b)) as [o|] eqn:Ef; [|done]. exfalso.
    apply spec_find_Some in Ef as [Ho Hid]. rewrite a_orders_abs in Ho.
    apply list_elem_of_fmap in Ho as ([it o'] & -> & Ho).
    assert (mb_orderIndex b !! id = Some (mkLoc (o_side o') (o_price o') it)) as E'
      by (apply Hi; eauto 10). by rewrite E in E'.
Qed.

Lemma index_is_Some b id :
  book_ok b -> (is_Some (mb_orderIndex b !! id) <-> is_Some (spec_find id (book_abs b))).
Proof.
  intros Hok. pose proof (index_lookup_find b id Hok) as H.
  destruct (spec_find id _), (mb_orderIndex b !! id); simpl in *; try done;
    split; intros [? ?]; by eauto.
Qed.

(** ** Resting an order *)

Lemma flat_app m1 m2 : flat (m1 ++ m2) = flat m1 ++ flat m2.
Proof. unfold flat. by rewrite fmap_app, concat_app. Qed.

Lemma level_prices s (P : Z -> Prop) m :
  Forall (level_ok s) m -> Forall (fun e => P e.1) m ->
  Forall (fun nd => P (o_price nd.2)) (flat m).
Proof.
  intros Hok HP. induction Hok as [|[p l] m [_ Hl] Hm IH]; [constructor|].
  inversion HP; subst. rewrite flat_cons. apply Forall_app. split; [|by apply IH].
  eapply Forall_impl; [exact Hl|]. intros nd [-> _]. done.
Qed.

Lemma sm_index_flat s o it m :
  levels_ok s m -> resting_ok s o ->
  let m' := sm_index (before s) [] (fun l => l ++ [(it, o)]) (o_price o) m in
  levels_ok s m' /\ exists l1 l2,
    flat m = l1 ++ l2 /\ flat m' = l1 ++ (it, o) :: l2
    /\ Forall (fun nd => before s (o_price o) (o_price nd.2) = false) l1
    /\ Forall (fun nd => before s (o_price o) (o_price nd.2) = true) l2.
Proof.
  intros [Hs Hl] Ho m'.
  assert (exists m1 l m2, flat m = flat m1 ++ l ++ flat m2
    /\ m' = m1 ++ (o_price o, l ++ [(it, o)]) :: m2 /\ sm_sorted (before s) m'
    /\ Forall (level_ok s) (m1 ++ m2) /\ Forall (node_ok s (o_price o)) l
    /\ Forall (fun e => before s e.1 (o_price o) = true) m1
    /\ Forall (fun e => before s (o_price o) e.1 = true) m2)
    as (m1 & l & m2 & Hf & -> & Hs' & Hm12 & Hlv & H1 & H2).
  { destruct (sm_index_split (before s) (before_total s) (before_trans s)
      [] (fun l => l ++ [(it, o)]) (o_price o) m Hs)
      as [(m1 & l & m2 & -> & E & H1 & H2)|(m1 & m2 & -> & E & H1 & H2)];
      unfold m'; rewrite E.
    - apply Forall_app in Hl as [Hl1 Hl2]. inversion Hl2 as [|? ? [_ Hlv] Hl3]; subst.
      exists m1, l, m2. rewrite flat_app, flat_cons.
      split_and!; try done; [by eapply sm_sorted_replace|by apply Forall_app].
    - exists m1, [], m2. rewrite flat_app. split_and!; try done. by apply sm_sorted_app. }
  apply Forall_app in Hm12 as [Hm1 Hm2]. split.
  - split; [done|]. apply Forall_app. split; [done|]. constructor; [|done].
    split; [by destruct l|]. apply Forall_app. split; [done|].
    apply Forall_singleton. by split.
  - exists (flat m1 ++ l), (flat m2). rewrite flat_app, flat_cons, Hf. cbn [snd].
    rewrite <- !app_assoc. split_and!; [done|done| |].
    + apply Forall_app. split.
      * apply (level_prices s (fun p => before s (o_price o) p = false)); [done|].
        eapply Forall_impl; [exact H1|]. simpl. intros e. apply before_antisym.
      * eapply Forall_impl; [exact Hlv|]. intros nd [-> _]. apply before_irrefl.
    + by apply (level_prices s (fun p => before s (o_price o) p = true)).
Qed.

Lemma addResting_spec b o :
  book_ok b -> order_typed o -> 0 < o_quantity o -> spec_find (o_id o) (book_abs b) = None ->
  book_ok (addResting b o) /\ book_abs (addResting b o) = spec_rest o (book_abs b).
Proof.
  intros (Hlev & Hn & Hi) Ht Hq Hfind. set (s := o_side o) in *.
  assert (resting_ok s o) as Ho by done.
  destruct (sm_index_flat s o (mb_alloc b) (levels s b) (Hlev s) Ho)
    as (Hok' & l1 & l2 & Hf & Hf' & H1 & H2).
  assert (o_id o ∉ node_id <$> nodes b) as Hnot.
  { rewrite node_ids_abs. intros (o' & Hid & Ho')%list_elem_of_fmap.
    rewrite spec_find_None in Hfind. by apply (Hfind o' Ho'). }
  assert (nodes (addResting b o) ≡ₚ (mb_alloc b, o) :: nodes b) as Hp.
  { rewrite !(nodes_perm s). unfold addResting. autorewrite with book. fold s.
    rewrite Hf', Hf, <- !app_assoc. simpl. by rewrite <- Permutation_middle. }
  split_and!.
  - split_and!.
    + intros s'. destruct (decide (s' = s)) as [->|].
      * unfold addResting. by autorewrite with book.
      * assert (s' = opposite s) as -> by (by destruct s', s).
        unfold addResting. autorewrite with book. apply Hlev.
    + rewrite Hp. unfold addResting. simpl. by apply nodes_ok_insert.
    + rewrite Hp. unfold addResting. simpl. by apply index_ok_insert.
  - assert (snd <$> flat (sm_index (before s) [] (fun l => l ++ [(mb_alloc b, o)]) (o_price o)
              (levels s b)) = spec_insert s o (snd <$> flat (levels s b))) as Hins.
    { rewrite Hf', Hf, !fmap_app. csimpl. symmetry.
      apply spec_insert_split; by apply Forall_fmap. }
    unfold spec_rest, addResting, book_abs. fold s.
    destruct s; simpl in *; by rewrite Hins.
Qed.

(** ** The laws *)

Lemma levels_price_sorted s m : levels_ok s m -> price_sorted s (snd <$> flat m).
Proof.
  unfold levels_ok, sm_sorted, price_sorted. intros [Hs Hl].
  induction Hl as [|[p l] m [_ Hp] Hm IH]; [constructor|].
  rewrite fmap_cons in Hs. inversion Hs as [|? ? Hs' Hf]; subst.
  rewrite flat_cons, fmap_app. apply StronglySorted_app. split_and!; [| |by apply IH].
  - apply Forall_fmap in Hf.
    apply (level_prices s (fun p' => before s p p' = true)) in Hf; [|done].
    intros x y (nd & -> & Hx)%list_elem_of_fmap (nd' & -> & Hy)%list_elem_of_fmap.
    rewrite Forall_forall in Hp, Hf. destruct (Hp _ Hx) as [-> _].
    apply before_antisym. by apply Hf.
  - simpl in Hp. clear -Hp. induction Hp as [|nd l Hnd Hp IH]; csimpl; [constructor|].
    constructor; [done|]. apply Forall_fmap. eapply Forall_impl; [exact Hp|].
    intros nd' [Hp' _]. destruct Hnd as [Hp1 _]. simpl. rewrite Hp', Hp1. apply before_irrefl.
Qed.

Lemma levels_resting_ok s m : levels_ok s m -> Forall (resting_ok s) (snd <$> flat m).
Proof.
  intros [_ Hl]. apply Forall_fmap. induction Hl as [|[p l] m [_ Hp] Hm IH]; [constructor|].
  rewrite flat_cons. apply Forall_app. split; [|done].
  eapply Forall_impl; [exact Hp|]. intros nd [_ H]. exact H.
Qed.

Lemma book_ok_abs b : book_ok b -> abook_ok (book_abs b).
Proof.
  intros (Hlev & (_ & Hnd & _) & _). split; [|by rewrite <- node_ids_abs].
  intros s. rewrite a_side_abs. split; [by apply levels_price_sorted|by apply levels_resting_ok].
Qed.

Lemma book_ok_set_levels s m idx b :
  levels_ok s m -> (forall s', levels_ok s' (levels s' b)) ->
  nodes_ok (mb_alloc b) (flat m ++ flat (levels (opposite s) b)) ->
  index_ok idx (flat m ++ flat (levels (opposite s) b)) ->
  book_ok (set_levels s m (set_index idx b)).
Proof.
  intros Hm Hlev Hn Hi. set (b' := set_levels s m (set_index idx b)).
  assert (nodes b' ≡ₚ flat m ++ flat (levels (opposite s) b)) as Hp.
  { rewrite (nodes_perm s). unfold b'. by autorewrite with book. }
  split_and!.
  - intros s'. destruct (decide (s' = s)) as [->|].
    + unfold b'. by autorewrite with book.
    + assert (s' = opposite s) as -> by (by destruct s', s).
      unfold b'. autorewrite with book. apply Hlev.
  - rewrite Hp. by destruct s.
  - rewrite Hp. by destruct s.
Qed.

Lemma match_ok s tp q tid b :
  book_ok b -> 0 < q -> is_i64 q ->
  exists r b' fs makers, match_ s tp q tid b = Some (r, b', fs) /\ book_ok b' /\ 0 <= r <= q
    /\ spec_match s tp q tid (a_side (opposite s) (book_abs b)) = (fs, r, makers)
    /\ book_abs b' = a_set_side (opposite s) makers (book_abs b).
Proof.
  intros Hb Hq Hqt. pose proof (abook_ok_positive (opposite s) _ (book_ok_abs _ Hb)) as Hpos.
  destruct Hb as (Hlev & Hn & Hi).
  destruct (match_loop_spec s tp tid _ (Hlev (opposite s)) (S (length (levels (opposite s) b)))
    q b []) as (k & fs & r & m' & E & Es & Hres & Hok & Hr); [done|lia|mach|].
  rewrite (nodes_perm (opposite s)) in Hn, Hi.
  destruct (nresidual_nodes _ _ _ _ _ _ Hres Hn Hi) as [Hn' Hi'].
  rewrite a_side_abs in *.
  assert (0 <= q) as Hq' by lia.
  destruct (spec_match_conserves _ _ _ _ _ _ _ _ Hpos Hq' Es) as [_ Hrq].
  eexists r, _, fs, _. split_and!; [exact E|by apply book_ok_set_levels|lia|lia|exact Es|].
  by destruct s.
Qed.

Lemma newOrder_spec b id s p q seq :
  book_ok b -> is_u64 id -> is_i64 p -> is_i64 q -> is_u64 seq ->
  exists b', newOrder b id s p q seq = Some (fst (spec_new id s p q seq (book_abs b)), b')
  /\ book_ok b' /\ book_abs b' = snd (spec_new id s p q seq (book_abs b)).
Proof.
  intros Hb Hid Hp Hq Hseq. unfold newOrder, spec_new.
  rewrite (bool_decide_ext _ _ (index_is_Some b id Hb)).
  destruct (q <=? 0) eqn:Hq0; simpl; [eauto|].
  case_bool_decide as Hf; [eauto|].
  destruct (match_ok s p q id b Hb ltac:(lia) Hq) as (r & b' & fs & makers & -> & Hb' & Hr & Es & Habs).
  rewrite Es. simpl. destruct (0 <? r) eqn:Hr0; [|eauto].
  eexists. split; [done|]. rewrite <- Habs. apply addResting_spec; [done| |simpl; lia|].
  - unfold order_typed. simpl. split_and!; mach || done.
  - simpl. rewrite Habs.
    destruct (spec_match_residual _ _ _ _ _ (abook_ok_positive _ _ (book_ok_abs _ Hb)) _ _ _ Es)
      as [k Hk].
    eapply spec_find_residual; [|exact Hk]. by destruct (spec_find id _); [destruct Hf|].
Qed.

Lemma list_erase_split it o level :
  (it, o) ∈ level -> NoDup level.*1 ->
  exists l1 l2, level = l1 ++ (it, o) :: l2 /\ list_erase it level = Some (l1 ++ l2).
Proof.
  induction level as [|[n o'] level IH]; intros Hin Hnd; [by apply not_elem_of_nil in Hin|].
  csimpl in *. apply NoDup_cons in Hnd as [Hnot Hnd].
  apply elem_of_cons in Hin as [E|Hin].
  - simplify_eq. exists [], level. by rewrite Nat.eqb_refl.
  - destruct (IH Hin Hnd) as (l1 & l2 & -> & E). exists ((n, o') :: l1), l2.
    destruct (Nat.eqb_spec n it) as [->|]; [|by rewrite E].
    destruct Hnot. apply list_elem_of_fmap. by exists (it, o).
Qed.

Lemma elem_of_flat nd m : nd ∈ flat m <-> exists e, e ∈ m /\ nd ∈ e.2.
Proof.
  induction m as [|e m IH].
  - split; [intros H; by apply not_elem_of_nil in H|].
    intros (e & H & _). by apply not_elem_of_nil in H.
  - rewrite flat_cons, elem_of_app, IH. setoid_rewrite elem_of_cons. split.
    + intros [H|(e' & H & H')]; eauto.
    + intros (e' & [->|H] & H'); eauto.
Qed.

(** Where a resting order sits: its level is the one the index names. *)
Lemma node_level b it o :
  book_ok b -> (it, o) ∈ nodes b ->
  exists level, sm_find (before (o_side o)) (o_price o) (levels (o_side o) b) = Some level
    /\ (it, o) ∈ level.
Proof.
  intros (Hlev & _) Hin.
  assert (exists s p level, (p, level) ∈ levels s b /\ (it, o) ∈ level) as (s & p & level & Hm & Ho).
  { unfold nodes in Hin. rewrite elem_of_app, !elem_of_flat in Hin.
    destruct Hin as [([p l] & He & Ho)|([p l] & He & Ho)];
      [by exists Buy, p, l|by exists Sell, p, l]. }
  destruct (Hlev s) as [Hs Hl]. rewrite Forall_forall in Hl.
  destruct (Hl _ Hm) as [_ Hnodes]. simpl in Hnodes. rewrite Forall_forall in Hnodes.
  destruct (Hnodes _ Ho) as [Hp (Hside & _)]. simpl in Hp, Hside. subst s p.
  exists level. split; [|done].
  by apply (sm_find_elem _ (before_total _) (before_irrefl _)).
Qed.

(** Erasing a list node, and the level with it when it was the last. *)
Definition erase_node (s : Side) (p : Z) (level : list list_node) (m : level_map) : level_map :=
  let m := sm_alter (before s) (fun _ => level) p m in
  match level with [] => sm_erase (before s) p m | _ => m end.

Lemma erase_node_ok s p l1 nd l2 m :
  levels_ok s m -> sm_find (before s) p m = Some (l1 ++ nd :: l2) ->
  levels_ok s (erase_node s p (l1 ++ l2) m)
  /\ exists x1 x2, flat m = x1 ++ nd :: x2 /\ flat (erase_node s p (l1 ++ l2) m) = x1 ++ x2.
Proof.
  intros [Hs Hl] Hf.
  destruct (sm_find_split _ (before_total s) (before_irrefl s) _ _ _ Hf)
    as (m1 & m2 & Hm & He & Ha).
  assert (erase_node s p (l1 ++ l2) m
          = m1 ++ match l1 ++ l2 with [] => m2 | _ => (p, l1 ++ l2) :: m2 end) as ->.
  { unfold erase_node. rewrite sm_erase_alter, Ha, He. by destruct (l1 ++ l2). }
  rewrite Hm in Hs, Hl. apply Forall_app in Hl as [Hl1 Hl2].
  inversion Hl2 as [|? ? [_ Hlv] Hl3]; subst. simpl in Hlv. split.
  - destruct (l1 ++ l2) eqn:E; (split; [|apply Forall_app; split; [done|]]).
    + by eapply sm_sorted_remove.
    + done.
    + by eapply sm_sorted_replace.
    + constructor; [|done]. split; [done|]. simpl. rewrite <- E.
      rewrite Forall_app, Forall_cons in Hlv. rewrite Forall_app. tauto.
  - exists (flat m1 ++ l1), (l2 ++ flat m2).
    rewrite !flat_app, flat_cons, <- !app_assoc. simpl. split; [by rewrite <- ?app_assoc|].
    destruct l1 as [|x l1], l2 as [|y l2]; simpl; try done;
      rewrite flat_cons; simpl; by rewrite ?app_nil_r, <- ?app_assoc.
Qed.

Lemma cancelOrder_spec b id :
  book_ok b ->
  exists b', cancelOrder b id = Some (fst (spec_cancel id (book_abs b)), b')
  /\ book_ok b' /\ book_abs b' = snd (spec_cancel id (book_abs b)).
Proof.
  intros Hb. unfold cancelOrder. destruct (mb_orderIndex b !! id) as [loc|] eqn:Eloc.
  2:{ pose proof (index_lookup_find b id Hb) as Hf. rewrite Eloc in Hf. unfold spec_cancel.
      destruct (spec_find id _); [done|]. eauto. }
  pose proof Hb as (Hlev & Hn & Hi).
  apply Hi in Eloc as (o & Ho & <- & Hside & Hprice).
  destruct (node_level b _ o Hb Ho) as (level & Hfind & Hol).
  rewrite <- Hside, <- Hprice, Hfind. set (s := o_side o) in *. cbn [mbind option_bind].
  rewrite (nodes_perm s) in Hn, Hi.
  assert (NoDup level.*1) as Hnd.
  { destruct (sm_find_split _ (before_total s) (before_irrefl s) _ _ _ Hfind) as (m1 & m2 & E & _).
    destruct Hn as [Hn _]. rewrite E, flat_app, flat_cons, !fmap_app, !NoDup_app in Hn. tauto. }
  destruct (list_erase_split _ _ _ Hol Hnd) as (l1 & l2 & -> & ->). cbn [mbind option_bind].
  destruct (erase_node_ok s _ _ _ _ _ (Hlev s) Hfind) as (Hok & x1 & x2 & Hx & Hx').
  rewrite Hx, <- app_assoc in Hn, Hi. simpl in Hn, Hi. rewrite <- Permutation_middle in Hn, Hi.
  rewrite (spec_cancel_split s _ o x1.*2 x2.*2);
    [|apply (book_ok_abs b Hb)|by rewrite a_side_abs, Hx, fmap_app].
  eexists. split; [done|]. fold (erase_node s (o_price o) (l1 ++ l2) (levels s b)). split.
  - rewrite set_index_levels. apply book_ok_set_levels; [done|done|..];
      rewrite Hx', <- app_assoc.
    + by apply (nodes_ok_app_r _ [_]) in Hn.
    + apply (index_ok_delete _ _ _ Hi). apply Hn.
  - rewrite <- fmap_app, <- Hx'. by destruct s.
Qed.

Lemma modifyOrder_spec b id np nq nseq :
  book_ok b -> is_u64 id -> is_i64 np -> is_i64 nq -> is_u64 nseq ->
  exists b', modifyOrder b id np nq nseq
             = Some (fst (spec_modify id np nq nseq (book_abs b)), b')
  /\ book_ok b' /\ book_abs b' = snd (spec_modify id np nq nseq (book_abs b)).
Proof.
  intros Hb Hid Hnp Hnq Hseq. unfold modifyOrder, spec_modify.
  pose proof (index_lookup_find b id Hb) as Hf.
  destruct (mb_orderIndex b !! id) as [loc|], (spec_find id (book_abs b)) as [o|];
    simpl in Hf; simplify_eq; [|eauto].
  destruct (cancelOrder_spec b id Hb) as (b' & -> & Hb' & Habs). cbn [mbind option_bind].
  rewrite <- Hf. destruct (0 <? nq) eqn:Hq; simpl; [|eauto].
  eexists. split; [done|]. rewrite <- Habs.
  apply addResting_spec; [done|done|simpl; lia|]. simpl. rewrite Habs. apply spec_find_cancelled.
Qed.

Lemma getOrder_spec b id : book_ok b -> getOrder b id = Some (spec_find id (book_abs b)).
Proof.
  intros Hb. unfold getOrder. pose proof (index_lookup_find b id Hb) as Hf.
  destruct (mb_orderIndex b !! id) as [loc|] eqn:E;
    [|by destruct (spec_find id _)].
  pose proof Hb as (_ & (Hnd1 & Hnd2 & _) & Hi). apply Hi in E as (o & Ho & Hid & _).
  rewrite (spec_find_elem id _ o);
    [|by rewrite <- node_ids_abs|rewrite a_orders_abs; by apply (list_elem_of_fmap_2 snd _ _ Ho)|done].
  unfold deref. destruct (head (filter (fun nd => nd.1 = loc_it loc) (nodes b))) as [nd|] eqn:Eh.
  - apply head_filter_Some in Eh as [Hnd Eq].
    by rewrite (NoDup_fmap_inj_on fst _ nd (loc_it loc, o) Hnd1 Hnd Ho Eq).
  - rewrite head_filter_None, Forall_forall in Eh. by destruct (Eh _ Ho).
Qed.

Lemma orderCount_spec b : book_ok b -> orderCount b = Z.of_nat (length (a_orders (book_abs b))).
Proof.
  intros (_ & (_ & Hnd & _) & Hi). unfold orderCount. f_equal.
  assert (dom (mb_orderIndex b) = list_to_set (node_id <$> nodes b)) as Hdom.
  { apply set_eq. intros id. rewrite elem_of_dom, elem_of_list_to_set, list_elem_of_fmap. split.
    - intros [loc (o & Ho & <- & _)%Hi]. by exists (loc_it loc, o).
    - intros ([it o] & -> & Ho). exists (mkLoc (o_side o) (o_price o) it). apply Hi. eauto 10. }
  rewrite <- size_dom, Hdom, size_list_to_set by done.
  by rewrite length_fmap, a_orders_abs, length_fmap.
Qed.

Lemma sum_level_spec p (level : list list_node) acc n :
  foldl (fun pl nd => mkPriceLevel (pl_price pl) (pl_totalQuantity pl +s o_quantity nd.2)
                        (u32 (pl_orderCount pl + 1)))
    (mkPriceLevel p (i64 acc) (u32 n)) level
  = mkPriceLevel p
      (i64 (acc + foldr (fun o acc => o_quantity o + acc) 0 (snd <$> level)))
      (u32 (n + Z.of_nat (length level))).
Proof.
  revert acc n. induction level as [|nd level IH]; intros acc n; csimpl.
  { by rewrite !Z.add_0_r. }
  replace (i64 acc +s o_quantity nd.2) with (i64 (acc + o_quantity nd.2))
    by (unfold i64; f_equal; rewrite <- Zplus_mod_idemp_l;
        replace ((acc + 2 ^ 63) mod 2 ^ 64 - 2 ^ 63 + o_quantity nd.2 + 2 ^ 63)
          with ((acc + 2 ^ 63) mod 2 ^ 64 + o_quantity nd.2) by lia;
        rewrite !Zplus_mod_idemp_l; f_equal; lia).
  replace (u32 (u32 n + 1)) with (u32 (n + 1)) by (unfold u32; by rewrite Zplus_mod_idemp_l).
  rewrite IH. f_equal; f_equal; lia.
Qed.

Lemma filter_price_none s p m :
  Forall (level_ok s) m -> Forall (fun e => e.1 <> p) m ->
  filter (fun o => o_price o = p) (snd <$> flat m) = [].
Proof.
  intros Hl Hp. apply (level_prices s (fun p' => p' <> p)) in Hp; [|done].
  induction Hp as [|nd l Ho Hp IH]; csimpl; [done|]. by rewrite filter_cons_False.
Qed.

Lemma filter_price_all s p level :
  Forall (node_ok s p) level ->
  filter (fun o => o_price o = p) (snd <$> level) = snd <$> level.
Proof.
  induction 1 as [|nd l [Ho _] Hl IH]; csimpl; [done|].
  rewrite filter_cons_True by done. by rewrite IH.
Qed.

Lemma spec_level_sum s m p level :
  levels_ok s m -> (p, level) ∈ m -> spec_level p (snd <$> flat m) = sum_level p level.
Proof.
  intros [Hs Hl] (m1 & m2 & ->)%list_elem_of_split. unfold sm_sorted in Hs.
  rewrite fmap_app, fmap_cons in Hs. apply StronglySorted_app in Hs as (Hx & _ & Hs2).
  inversion Hs2 as [|? ? _ Hf]; subst.
  apply Forall_app in Hl as [Hl1 Hl2]. inversion Hl2 as [|? ? [_ Hlv] Hl3]; subst.
  unfold spec_level. rewrite flat_app, flat_cons, !fmap_app, !filter_app. cbn [snd].
  rewrite (filter_price_none s p m1), (filter_price_none s p m2), (filter_price_all s p level);
    [|done|done| |done|].
  - simpl. rewrite app_nil_r. unfold sum_level.
    etransitivity; [|symmetry; apply (sum_level_spec p level 0 0)].
    by rewrite length_fmap.
  - apply Forall_fmap in Hf. eapply Forall_impl; [exact Hf|]. simpl. intros e He E.
    by rewrite E, before_irrefl in He.
  - apply Forall_forall. intros e He E.
    assert (before s e.1 p = true) as H by (apply Hx; [by apply list_elem_of_fmap_2|left]).
    by rewrite E, before_irrefl in H.
Qed.

Lemma spec_prices_levels s m : levels_ok s m -> spec_prices (snd <$> flat m) = m.*1.
Proof.
  intros [Hs Hl]. unfold sm_sorted in Hs. induction Hl as [|[p l] m [Hne Hp] Hm IH]; [done|].
  rewrite fmap_cons in Hs. inversion Hs as [|? ? Hs' Hf]; subst. simpl in *.
  rewrite flat_cons, fmap_app. rewrite (spec_prices_same p), IH; [done|done| |by destruct l|].
  - apply Forall_fmap. eapply Forall_impl; [exact Hp|]. intros nd [H _]. exact H.
  - rewrite IH by done. intros Hin. rewrite Forall_forall in Hf. specialize (Hf _ Hin).
    by rewrite before_irrefl in Hf.
Qed.

Lemma depth_loop_spec n out m :
  0 <= n -> n = 0 \/ Z.of_nat (length out) < n ->
  depth_loop n out m
  = out ++ let l := (fun e => sum_level e.1 e.2) <$> m in
           if n =? 0 then l else take (Z.to_nat n - length out) l.
Proof.
  intros Hn. revert out. induction m as [|[p level] m IH]; intros out Ho; simpl.
  { rewrite take_nil. by destruct (n =? 0); rewrite app_nil_r. }
  rewrite length_app. simpl.
  destruct (n =? 0) eqn:E0; simpl.
  { rewrite IH by lia. by rewrite <- app_assoc. }
  destruct (Z.leb_spec n (Z.of_nat (length out + 1))) as [E1|E1].
  - replace (Z.to_nat n - length out)%nat with 1%nat by lia. done.
  - rewrite IH by (rewrite length_app; simpl; lia). rewrite length_app. simpl.
    replace (Z.to_nat n - length out)%nat with (S (Z.to_nat n - (length out + 1))) by lia.
    by rewrite <- app_assoc.
Qed.

Lemma depth_spec s b n :
  book_ok b -> 0 <= n ->
  depth_loop n [] (levels s b) = spec_depth n (snd <$> flat (levels s b)).
Proof.
  intros (Hlev & _) Hn. rewrite depth_loop_spec by (simpl; lia). unfold spec_depth. simpl.
  rewrite Nat.sub_0_r, (spec_prices_levels s), <- list_fmap_compose by done.
  assert ((fun e => sum_level e.1 e.2) <$> levels s b
    = ((fun p => spec_level p (snd <$> flat (levels s b))) ∘ fst) <$> levels s b) as ->; [|done].
  apply list_fmap_ext. intros i [p level] Hi. simpl. symmetry.
  apply (spec_level_sum s); [done|]. by eapply list_elem_of_lookup_2.
Qed.

Lemma best_spec s b :
  book_ok b -> fst <$> head (levels s b) = o_price <$> head (snd <$> flat (levels s b)).
Proof.
  intros (Hlev & _). destruct (Hlev s) as [_ Hl].
  destruct (levels s b) as [|[p l] m]; [done|]. inversion Hl as [|? ? [Hne Hp] _]; subst.
  rewrite flat_cons. simpl in *. destruct l as [|nd l]; [done|].
  inversion Hp as [|? ? [Ho _] _]; subst. done.
Qed.

#[global] Program Instance MapOrderBook_laws : IOrderBookLaws MapOrderBook := {|
  ib_ok := book_ok;
  ib_abs := book_abs;
  ib_ok_abs := book_ok_abs;
  ib_newOrder_spec := newOrder_spec;
  ib_cancelOrder_spec := cancelOrder_spec;
  ib_modifyOrder_spec := modifyOrder_spec;
  ib_getOrder_spec := getOrder_spec;
  ib_orderCount_spec := orderCount_spec
|}.
Next Obligation. done. Qed.
Next Obligation. intros b n Hb Hn. by apply (depth_spec Buy). Qed.
Next Obligation. intros b n Hb Hn. by apply (depth_spec Sell). Qed.
Next Obligation. intros b Hb. by apply (best_spec Buy). Qed.
Next Obligation. intros b Hb. by apply (best_spec Sell). Qed.
Next Obligation. intros b o Hb Ht Hq Hf. eexists. split; [done|]. by apply addResting_spec. Qed.
Next Obligation. done. Qed.
Next Obligation.
  intros b sym. eexists. split; [done|]. split; [|done]. split_and!.
  - intros []; split; constructor.
  - split_and!; constructor.
  - intros id loc. simpl. rewrite lookup_empty. split; [done|].
    intros (o & H & _). by apply not_elem_of_nil in H.
Qed.
