(* ===== verification/MemoryPool.v ===== *)
(** * The memory pool

    Models [src/app/statemachine/MemoryPool.h]: objects are allocation
    numbers of the heap, the free list is a vector used as a stack.  The
    mutex makes each method one atomic step. *)

From S2P Require Import Prelude.

Record MemoryPool := mkPool { mp_freeList : list nat }.

(** [new T()], with the number of the next allocation. *)
Definition new_T (next : nat) : nat * nat := (next, S next).

Fixpoint fill (n : nat) (next : nat) (l : list nat) : list nat * nat :=
  match n with
  | O => (l, next)
  | S n => let '(obj, next) := new_T next in fill n next (l ++ [obj])
  end.

Definition new_MemoryPool (initialSize next : nat) : MemoryPool * nat :=
  let '(l, next) := fill initialSize next [] in (mkPool l, next).

Definition allocate (p : MemoryPool) (next : nat) : nat * MemoryPool * nat :=
  match last (mp_freeList p) with
  | None => let '(obj, next) := new_T next in (obj, p, next)
  | Some obj => (obj, mkPool (take (length (mp_freeList p) - 1) (mp_freeList p)), next)
  end.

(** [None] for the null pointer. *)
Definition deallocate (p : MemoryPool) (obj : option nat) : MemoryPool :=
  match obj with
  | None => p
  | Some obj => mkPool (mp_freeList p ++ [obj])
  end.

Definition available (p : MemoryPool) : nat := length (mp_freeList p).

(** The objects that [~MemoryPool] deletes. *)
Definition destroyed (p : MemoryPool) : list nat := mp_freeList p.

(** ** Clients that give back what they hold, once *)

Record Heap := mkHeap { h_pool : MemoryPool; h_next : nat; h_live : list nat }.

Inductive pool_op := PAllocate | PDeallocate (obj : option nat).

(** [None]: the client gives back what it does not hold. *)
Definition pool_step (h : Heap) (o : pool_op) : option Heap :=
  match o with
  | PAllocate =>
      let '(obj, p, next) := allocate (h_pool h) (h_next h) in Some (mkHeap p next (obj :: h_live h))
  | PDeallocate None => Some (mkHeap (deallocate (h_pool h) None) (h_next h) (h_live h))
  | PDeallocate (Some obj) =>
      if bool_decide (obj ∈ h_live h) then
        Some (mkHeap (deallocate (h_pool h) (Some obj)) (h_next h)
                (filter (fun x => x <> obj) (h_live h)))
      else None
  end.

(** Every object made is either free or held, and only once. *)
Definition pool_ok (h : Heap) : Prop := h_live h ++ mp_freeList (h_pool h) ≡ₚ seq 0 (h_next h).

Lemma fill_spec n : forall next l, fill n next l = (l ++ seq next n, (next + n)%nat).
Proof.
  induction n as [|n IH]; intros next l; simpl; [by rewrite app_nil_r, Nat.add_0_r|].
  rewrite IH, <- app_assoc. f_equal. lia.
Qed.

Lemma new_pool_ok n : let '(p, next) := new_MemoryPool n 0 in pool_ok (mkHeap p next []).
Proof. unfold new_MemoryPool. rewrite fill_spec. unfold pool_ok. done. Qed.

Lemma filter_neq_Permutation (x : nat) l : NoDup l -> x ∈ l -> l ≡ₚ x :: filter (fun y => y <> x) l.
Proof.
  intros Hnd Hin. apply NoDup_Permutation; [done| |].
  - apply NoDup_cons. split; [rewrite list_elem_of_filter; tauto|by apply NoDup_filter].
  - intros y. rewrite elem_of_cons, list_elem_of_filter. destruct (decide (y = x)) as [->|]; tauto.
Qed.

Lemma pool_step_ok h o h' : pool_ok h -> pool_step h o = Some h' -> pool_ok h'.
Proof.
  unfold pool_ok. intros Hok. destruct o as [|[obj|]]; simpl.
  - unfold allocate. destruct (last (mp_freeList (h_pool h))) as [obj|] eqn:E; intros [= <-]; cbn [h_live h_pool h_next mp_freeList].
    + apply last_Some in E as [l E]. rewrite E in Hok |- *. rewrite length_app. simpl.
      replace (length l + 1 - 1)%nat with (length l) by lia. rewrite take_app_length, <- Hok.
      rewrite (Permutation_app_comm l [obj]). simpl. by rewrite Permutation_middle.
    + rewrite seq_S, <- Hok. simpl. by rewrite (Permutation_app_comm _ [h_next h]).
  - case_bool_decide as Hin; [|done]. intros [= <-]. simpl.
    assert (NoDup (h_live h)) as Hnd.
    { assert (NoDup (h_live h ++ mp_freeList (h_pool h))) as Hn by (rewrite Hok; apply NoDup_seq).
      by apply NoDup_app in Hn as [? _]. }
    rewrite <- Hok. rewrite (filter_neq_Permutation obj (h_live h)) at 2 by done.
    rewrite (Permutation_app_comm (mp_freeList _) [obj]). simpl. by rewrite Permutation_middle.
  - by intros [= <-].
Qed.

(** However often objects are taken and given back, the pool and its clients
    together hold each object made exactly once: none is handed out while
    another client holds it, and the destructor deletes all but those still
    held. *)
Theorem pool_conserves n ops h :
  run pool_step (let '(p, next) := new_MemoryPool n 0 in mkHeap p next []) ops = Some h ->
  h_live h ++ destroyed (h_pool h) ≡ₚ seq 0 (h_next h).
Proof.
  intros Hr. refine (run_invariant pool_step pool_ok pool_step_ok ops _ _ _ Hr).
  pose proof (new_pool_ok n) as Hn. by destruct (new_MemoryPool n 0).
Qed.

(** Giving an object back twice makes it the object of two clients. *)
Example double_deallocate :
  let p := deallocate (deallocate (mkPool []) (Some 7%nat)) (Some 7%nat) in
  let '(a, p, next) := allocate p 8 in (a, (allocate p next).1.1) = (7%nat, 7%nat).
Proof. reflexivity. Qed.
