(* ===== verification/SkipList.v ===== *)
(** * The skip list

    Models [src/app/statemachine/SkipList.h].  The nodes a [shared_ptr] can
    point to live in a heap of addresses; a node has a key, a value and its
    forward pointers, [None] being [nullptr].  Outside an [option] result,
    [None] is a null or dangling pointer followed, or a forward vector
    indexed out of range.  A removed node leaves the heap, since the last
    pointer to it goes away when the caller returns.

    The coin flips [dist(rng) < probability] are a parameter; [ceil(log2(n))]
    is exact for the positive capacities an [int] can hold.  [size] is an
    [int]; it is counted exactly, as a list of 2^31 nodes, at which it would
    overflow, does not fit in memory.

    The loops that follow pointers have as fuel the number of nodes, which
    [SkipListRep] shows to be enough. *)

From S2P Require Import Prelude.

(** Whether the k-th draw of a generator is below the probability, by the
    generator's seed. *)
Class CoinFlips := { flip : nat -> nat -> bool }.

Record Node (V : Type) := mkNode {
  nd_key : Z;
  nd_value : V;
  nd_forward : list (option nat);
}.
Arguments mkNode {V}.
Arguments nd_key {V}.
Arguments nd_value {V}.
Arguments nd_forward {V}.

Record SkipList (V : Type) := mkSkipList {
  sl_maxLevel : nat;
  sl_currentLevel : nat;
  sl_size : nat;
  sl_head : nat;
  sl_heap : gmap nat (Node V);
  sl_fresh : nat;  (* the next address [make_shared] returns *)
  sl_seed : nat;   (* what [random_device] gave [rng] *)
  sl_flips : nat;  (* draws so far *)
}.
Arguments mkSkipList {V}.
Arguments sl_maxLevel {V}.
Arguments sl_currentLevel {V}.
Arguments sl_size {V}.
Arguments sl_head {V}.
Arguments sl_heap {V}.
Arguments sl_fresh {V}.
Arguments sl_seed {V}.
Arguments sl_flips {V}.

Section SkipList.
Context `{!CoinFlips} {V : Type} (v0 : V) (cmp : Z -> Z -> bool).
Implicit Types (h : gmap nat (Node V)) (s : SkipList V).

(** [Node(k, level)], the value default-constructed. *)
Definition new_Node (key : Z) (level : nat) : Node V := mkNode key v0 (replicate (S level) None).

(** The constructor with [maxLevel] computed. *)
Definition leveled (maxLevel seed : nat) : SkipList V :=
  mkSkipList maxLevel 0 0 0 {[0%nat := new_Node 0 maxLevel]} 1 seed 0.

(** For a capacity that is not positive, the logarithm is not a number an
    [int] can hold and its conversion is undefined. *)
Definition new_SkipList (maxN : Z) (seed : nat) : option (SkipList V) :=
  if maxN <=? 0 then None else Some (leveled (Z.to_nat (Z.log2_up maxN)) seed).

(** [while (dist(rng) < probability && lvl < maxLevel) lvl++], with [room]
    for [maxLevel - lvl]: the level and the draws made. *)
Fixpoint randomLevel (seed room lvl k : nat) : nat * nat :=
  if flip seed k then
    match room with
    | O => (lvl, S k)
    | S room => randomLevel seed room (S lvl) (S k)
    end
  else (lvl, S k).

(** ** Pointers *)

(** [a->forward[i]] and assignments through [a]. *)
Definition forward h (a i : nat) : option (option nat) :=
  nd ← h !! a; nd_forward nd !! i.

Definition set_forward h (a i : nat) (p : option nat) : option (gmap nat (Node V)) :=
  nd ← h !! a;
  if bool_decide (i < length (nd_forward nd))%nat
  then Some (<[a := mkNode (nd_key nd) (nd_value nd) (<[i := p]> (nd_forward nd))]> h)
  else None.

Definition set_heap h s : SkipList V :=
  mkSkipList (sl_maxLevel s) (sl_currentLevel s) (sl_size s) (sl_head s) h (sl_fresh s)
    (sl_seed s) (sl_flips s).

(** [node->value] read and assigned *)
Definition value s (a : nat) : option V := nd_value <$> sl_heap s !! a.
Definition set_value s (a : nat) (v : V) : option (SkipList V) :=
  nd ← sl_heap s !! a;
  Some (set_heap (<[a := mkNode (nd_key nd) v (nd_forward nd)]> (sl_heap s)) s).

(** ** Search *)

(** The inner loop, on level [i]. *)
Fixpoint walk (fuel : nat) h (i : nat) (key : Z) (curr : nat) : option nat :=
  match fuel with
  | O => None
  | S fuel =>
      next ← forward h curr i;
      match next with
      | None => Some curr
      | Some nx =>
          nd ← h !! nx;
          if cmp (nd_key nd) key then walk fuel h i key nx else Some curr
      end
  end.

(** The outer loop, from level [i] down to 0: where it ends, and [update],
    level 0 first. *)
Fixpoint descend (fuel : nat) h (key : Z) (i curr : nat) : option (nat * list nat) :=
  curr ← walk fuel h i key curr;
  match i with
  | O => Some (curr, [curr])
  | S i => '(last, update) ← descend fuel h key i curr; Some (last, update ++ [curr])
  end.

Definition search s (key : Z) : option (nat * list nat) :=
  descend (S (sl_size s)) (sl_heap s) key (sl_currentLevel s) (sl_head s).

(** [curr = curr->forward[0]], kept when its key is neither before nor after. *)
Definition candidate h (key : Z) (curr : nat) : option (option nat) :=
  next ← forward h curr 0;
  match next with
  | None => Some None
  | Some nx => nd ← h !! nx;
               Some (if negb (cmp key (nd_key nd)) && negb (cmp (nd_key nd) key)
                     then Some nx else None)
  end.

Definition find s (key : Z) : option (option nat) :=
  '(curr, _) ← search s key; candidate (sl_heap s) key curr.

(** ** Insert *)

(** The loop that splices the new node in, from level [i] up. *)
Fixpoint link h (n i : nat) (update : list nat) : option (gmap nat (Node V)) :=
  match update with
  | [] => Some h
  | u :: update =>
      next ← forward h u i;
      h ← set_forward h n i next;
      h ← set_forward h u i (Some n);
      link h n (S i) update
  end.

Definition insert s (key : Z) (v : V) : option (bool * SkipList V) :=
  '(curr, update) ← search s key;
  present ← candidate (sl_heap s) key curr;
  match present with
  | Some _ => Some (false, s)
  | None =>
      let '(newLevel, flips) := randomLevel (sl_seed s) (sl_maxLevel s) 0 (sl_flips s) in
      let update := update ++ replicate (newLevel - sl_currentLevel s) (sl_head s) in
      let currentLevel := Nat.max (sl_currentLevel s) newLevel in
      let n := sl_fresh s in
      let nd := new_Node key newLevel in
      let h := <[n := mkNode key v (nd_forward nd)]> (sl_heap s) in
      h ← link h n 0 (take (S newLevel) update);
      Some (true, mkSkipList (sl_maxLevel s) currentLevel (S (sl_size s)) (sl_head s) h (S n)
                    (sl_seed s) flips)
  end.

(** ** Remove *)

Fixpoint unlink h (c i : nat) (update : list nat) : option (gmap nat (Node V)) :=
  match update with
  | [] => Some h
  | u :: update =>
      next ← forward h u i;
      if negb (bool_decide (next = Some c)) then Some h
      else
        next ← forward h c i;
        h ← set_forward h u i next;
        unlink h c (S i) update
  end.

(** [while (currentLevel > 0 && !head->forward[currentLevel]) --currentLevel] *)
Fixpoint lower h (head level : nat) : option nat :=
  match level with
  | O => Some O
  | S l =>
      next ← forward h head level;
      match next with
      | None => lower h head l
      | Some _ => Some level
      end
  end.

Definition remove s (key : Z) : option (bool * SkipList V) :=
  '(curr, update) ← search s key;
  present ← candidate (sl_heap s) key curr;
  match present with
  | None => Some (false, s)
  | Some c =>
      h ← unlink (sl_heap s) c 0 update;
      currentLevel ← lower h (sl_head s) (sl_currentLevel s);
      Some (true, mkSkipList (sl_maxLevel s) currentLevel (sl_size s - 1) (sl_head s)
                    (delete c h) (sl_fresh s) (sl_seed s) (sl_flips s))
  end.

Definition best s : option (option nat) := forward (sl_heap s) (sl_head s) 0.

Definition getSize s : nat := sl_size s.

(** [for (n = best(); n; n = n->forward[0])]: the keys and values met. *)
Fixpoint scan (fuel : nat) h (n : option nat) : option (list (Z * V)) :=
  match n with
  | None => Some []
  | Some a =>
      match fuel with
      | O => None
      | S fuel =>
          nd ← h !! a;
          next ← nd_forward nd !! 0%nat;
          rest ← scan fuel h next;
          Some ((nd_key nd, nd_value nd) :: rest)
      end
  end.

Definition entries s : option (list (Z * V)) :=
  n ← best s; scan (sl_size s) (sl_heap s) n.
End SkipList.
