(* ===== verification/SkipListRep.v ===== *)
(** * The skip list is a sorted map

    The list of the nodes in order ([rep]) describes the heap: every node
    points, on each of its levels, to the next node of that height.  The
    search ends, on each level, at the last node before the key; splicing a
    node in and taking one out keep the description.  So each operation acts
    on the entries as the operation of [StdMap] does ([represents]), whatever
    the coin flips, and follows no null pointer. *)

From S2P Require Import Prelude StdMap SkipList.

(** ** The nodes in order *)

Section Rep.
Context {V : Type}.
Implicit Types (h : gmap nat (Node V)) (l : list nat).

(** The number of levels of a node. *)
Definition height h (a : nat) : nat := default 0%nat (length ∘ nd_forward <$> h !! a).

Definition key_of h (a : nat) : Z := default 0 (nd_key <$> h !! a).

(** The first node of [l] that level [i] reaches, and the last, or [c]. *)
Definition next_at h (i : nat) l : option nat := head (filter (fun b => i < height h b)%nat l).
Definition last_at h (i c : nat) l : nat := default c (last (filter (fun b => i < height h b)%nat l)).

(** [a] points on each level to the next node of that height in [l]. *)
Definition links h (a : nat) l : Prop :=
  is_Some (h !! a)
  /\ forall i, (i < height h a)%nat -> forward h a i = Some (next_at h i l).

Definition linked h l : Prop := forall l1 a l2, l = l1 ++ a :: l2 -> links h a l2.

Definition entries_of h l : list (Z * V) :=
  omap (fun a => (fun nd => (nd_key nd, nd_value nd)) <$> h !! a) l.

Record rep (cmp : Z -> Z -> bool) (s : SkipList V) (l : list nat) : Prop := {
  rep_nodup : NoDup (sl_head s :: l);
  rep_linked : linked (sl_heap s) (sl_head s :: l);
  rep_head : height (sl_heap s) (sl_head s) = S (sl_maxLevel s);
  rep_level : (sl_currentLevel s <= sl_maxLevel s)%nat;
  rep_heights a : a ∈ l -> (1 <= height (sl_heap s) a <= S (sl_currentLevel s))%nat;
  rep_sorted : StronglySorted (fun a b => cmp a b = true) (key_of (sl_heap s) <$> l);
  rep_size : sl_size s = length l;
  rep_fresh a : is_Some (sl_heap s !! a) -> (a < sl_fresh s)%nat;
}.

Lemma next_at_app_none h i l1 l2 :
  Forall (fun b => height h b <= i)%nat l1 -> next_at h i (l1 ++ l2) = next_at h i l2.
Proof.
  intros Hl. unfold next_at. rewrite filter_app.
  replace (filter (fun b => i < height h b)%nat l1) with (@nil nat); [done|].
  induction Hl; [done|]. rewrite filter_cons, decide_False by lia. done.
Qed.

Lemma next_at_cons_yes h i b l : (i < height h b)%nat -> next_at h i (b :: l) = Some b.
Proof. intros Hb. unfold next_at. by rewrite filter_cons, decide_True. Qed.

(** Level [i] of a list: nothing, or a first node after lower ones. *)
Lemma level_cases h i l :
  Forall (fun b => height h b <= i)%nat l
  \/ exists m1 b m2, l = m1 ++ b :: m2 /\ Forall (fun b => height h b <= i)%nat m1
       /\ (i < height h b)%nat.
Proof.
  induction l as [|a l [IH|(m1 & b & m2 & -> & H1 & H2)]]; [left; constructor| |].
  - destruct (decide (i < height h a)%nat).
    + right. exists [], a, l. split_and!; [done|constructor|done].
    + left. constructor; [lia|done].
  - destruct (decide (i < height h a)%nat).
    + right. exists [], a, (m1 ++ b :: m2). split_and!; [done|constructor|done].
    + right. exists (a :: m1), b, m2. split_and!; [done|constructor; [lia|done]|done].
Qed.

Lemma last_at_none h i c l : Forall (fun b => height h b <= i)%nat l -> last_at h i c l = c.
Proof.
  intros Hl. unfold last_at.
  replace (filter (fun b => i < height h b)%nat l) with (@nil nat); [done|].
  induction Hl; [done|]. rewrite filter_cons, decide_False by lia. done.
Qed.

Lemma last_at_split h i c m1 b m2 :
  (i < height h b)%nat -> last_at h i c (m1 ++ b :: m2) = last_at h i b m2.
Proof.
  intros Hb. unfold last_at. rewrite filter_app, filter_cons, decide_True by done.
  rewrite last_app_cons. destruct (last (filter _ m2)) eqn:E.
  - by rewrite last_cons, E.
  - by rewrite last_cons, E.
Qed.

(** The last node of a level in [lt], with what comes after it. *)
Lemma last_at_suffix h i c lt :
  exists lt', Forall (fun b => height h b <= i)%nat lt'
    /\ ((last_at h i c lt = c /\ lt' = lt)
        \/ ((i < height h (last_at h i c lt))%nat
            /\ exists m, lt = m ++ last_at h i c lt :: lt')).
Proof.
  revert c. induction lt as [|a lt IH] using rev_ind; intros c.
  - exists []. split; [constructor|]. by left.
  - destruct (decide (i < height h a)%nat) as [Ha|Ha].
    + exists []. split; [constructor|]. right. rewrite last_at_split by done. split; [done|].
      by exists lt.
    + assert (last_at h i c (lt ++ [a]) = last_at h i c lt) as E.
      { unfold last_at. rewrite filter_app, filter_cons, decide_False by done.
        by rewrite app_nil_r. }
      rewrite E. destruct (IH c) as (lt' & Hl & Hc). exists (lt' ++ [a]).
      split; [apply Forall_app; split; [done|]; constructor; [lia|constructor]|].
      destruct Hc as [[-> ->]|[Hh [m Hm]]]; [by left|]. right. split; [done|].
      exists m. rewrite Hm at 1. by rewrite <- app_assoc.
Qed.
End Rep.

Section Search.
Context {V : Type} (cmp : Z -> Z -> bool) (h : gmap nat (Node V)) (key : Z) (L ge : list nat).
Context (HL : linked h L)
        (Hge : Forall (fun b => cmp (key_of h b) key = false) ge).

(** [c] stands in [L] before [lt ++ ge], and [lt] comes before the key. *)
Definition at_node (c : nat) (lt : list nat) : Prop :=
  (exists l1, L = l1 ++ c :: lt ++ ge) /\ Forall (fun b => cmp (key_of h b) key = true) lt.

Lemma at_node_next c lt m1 b m2 : at_node c lt -> lt = m1 ++ b :: m2 -> at_node b m2.
Proof.
  intros [[l1 E] Hlt] ->. apply Forall_app in Hlt as [_ Hlt]. apply Forall_cons in Hlt as [_ Hlt].
  split; [|done]. exists (l1 ++ c :: m1). rewrite E. by simplify_list_eq.
Qed.

Lemma at_node_links c lt : at_node c lt -> links h c (lt ++ ge).
Proof using HL. intros [[l1 E] _]. by eapply HL. Qed.

Lemma in_list_node b l1 l2 : L = l1 ++ b :: l2 -> is_Some (h !! b).
Proof using HL. intros E. by destruct (HL _ _ _ E) as [Hn _]. Qed.

Lemma walk_spec i fuel : forall c lt,
  at_node c lt -> (i < height h c)%nat -> (length lt < fuel)%nat ->
  walk cmp fuel h i key c = Some (last_at h i c lt).
Proof using HL Hge.
  induction fuel as [|fuel IH]; intros c lt Hat Hi Hf; [lia|]. cbn [walk].
  rewrite (proj2 (at_node_links c lt Hat)) by done.
  cbn [mbind option_bind]. destruct (level_cases h i lt) as [Hlow|(m1 & b & m2 & -> & Hlow & Hb)].
  - rewrite next_at_app_none, last_at_none by done.
    destruct (next_at h i ge) as [b|] eqn:E; [|done].
    assert (b ∈ ge) as Hin.
    { unfold next_at in E. apply head_Some_elem_of in E. by apply list_elem_of_filter in E as [_ ?]. }
    destruct Hat as [[l1 EL] _]. apply list_elem_of_split in Hin as Hs. destruct Hs as (g1 & g2 & Eg).
    destruct (in_list_node b (l1 ++ c :: lt ++ g1) g2) as [nd Hnd].
    { rewrite EL, Eg. by simplify_list_eq. }
    rewrite Hnd. cbn [mbind option_bind]. rewrite Forall_forall in Hge. specialize (Hge b Hin).
    unfold key_of in Hge. rewrite Hnd in Hge. simpl in Hge. by rewrite Hge.
  - rewrite <- app_assoc, next_at_app_none by done. cbn [app]. rewrite next_at_cons_yes by done.
    pose proof (at_node_next c _ m1 b m2 Hat eq_refl) as Hat'.
    pose proof Hat as [_ Hlt]. apply Forall_app in Hlt as [_ Hlt]. apply Forall_cons in Hlt as [Hk _].
    destruct Hat' as [[l1 EL] Hm2]. destruct (in_list_node b l1 (m2 ++ ge)) as [nd Hnd]; [done|].
    rewrite Hnd. cbn [mbind option_bind]. unfold key_of in Hk. rewrite Hnd in Hk. simpl in Hk.
    rewrite Hk, last_at_split by done. apply IH; [split; [by exists l1|done]|done|].
    rewrite length_app in Hf. simpl in Hf. lia.
Qed.

Lemma descend_spec fuel i : forall c lt,
  at_node c lt -> (i < height h c)%nat -> (length lt < fuel)%nat ->
  descend cmp fuel h key i c
  = Some (last_at h 0 c lt, (fun j => last_at h j c lt) <$> seq 0 (S i)).
Proof using HL Hge.
  induction i as [|i IH]; intros c lt Hat Hi Hf; cbn [descend].
  - rewrite (walk_spec 0 fuel c lt) by done. done.
  - rewrite (walk_spec (S i) fuel c lt) by done. cbn [mbind option_bind].
    set (c' := last_at h (S i) c lt).
    destruct (last_at_suffix h (S i) c lt) as (lt' & Hl & Hc). fold c' in Hc.
    assert (at_node c' lt' /\ (i < height h c')%nat /\ (length lt' < fuel)%nat
            /\ forall j, (j <= i)%nat -> last_at h j c' lt' = last_at h j c lt) as (H1 & H2 & H3 & H4).
    { destruct Hc as [[-> ->]|[Hh [m Hm]]]; [split_and!; [done|lia|done|done]|].
      split_and!; [by eapply at_node_next|lia| |].
      - rewrite Hm, length_app in Hf. simpl in Hf. lia.
      - intros j Hj. transitivity (last_at h j c (m ++ c' :: lt')); [|by rewrite <- Hm].
        by rewrite last_at_split by lia. }
    rewrite (IH c' lt') by done. cbn [mbind option_bind]. rewrite (H4 0%nat) by lia. do 2 f_equal.
    rewrite (seq_S (S i)), fmap_app. f_equal.
    apply list_fmap_ext. intros k j Hj. apply lookup_seq in Hj as [-> Hj]. apply H4. lia.
Qed.
End Search.

(** ** Pointer updates *)

Section Update.
Context {V : Type}.
Implicit Types (h : gmap nat (Node V)) (l : list nat).

(** The heaps agree on all but the pointers. *)
Definition shape (nd : Node V) : Z * V * nat := (nd_key nd, nd_value nd, length (nd_forward nd)).
Definition same_shape h h' : Prop := forall a, shape <$> h !! a = shape <$> h' !! a.

#[local] Instance same_shape_equiv : Equivalence same_shape.
Proof. split; [done|by intros h h' E a|]. intros h1 h2 h3 E1 E2 a. by rewrite E1. Qed.

Lemma same_shape_cases h h' a :
  same_shape h h' ->
  (h !! a = None /\ h' !! a = None)
  \/ exists nd nd', h !! a = Some nd /\ h' !! a = Some nd' /\ shape nd = shape nd'.
Proof.
  intros E. specialize (E a). destruct (h !! a), (h' !! a); simpl in E; try done; [right|by left].
  injection E as ???. eexists _, _. split_and!; [done..|]. unfold shape. congruence.
Qed.

Ltac by_shape E a :=
  destruct (same_shape_cases _ _ a E) as [[-> ->]|(? & ? & -> & -> & ?)]; [done|]; simpl;
  unfold shape in *; congruence.

Ltac by_ranges i j :=
  repeat case_decide; intuition (subst; try congruence; try lia);
  destruct (decide (j = i)); subst; naive_solver lia.

Lemma shape_height h h' a : same_shape h h' -> height h' a = height h a.
Proof. intros E. unfold height. by_shape E a. Qed.
Lemma shape_key h h' a : same_shape h h' -> key_of h' a = key_of h a.
Proof. intros E. unfold key_of. by_shape E a. Qed.
Lemma shape_node h h' a : same_shape h h' -> is_Some (h !! a) -> is_Some (h' !! a).
Proof. intros E [nd Hn]. specialize (E a). rewrite Hn in E. destruct (h' !! a); [by eexists|done]. Qed.
Lemma shape_entries h h' l : same_shape h h' -> entries_of h' l = entries_of h l.
Proof.
  intros E. unfold entries_of. induction l as [|a l IH]; [done|]. cbn [omap list_omap].
  rewrite IH. destruct (same_shape_cases _ _ a E) as [[-> ->]|(nd & nd' & -> & -> & Hs)]; [done|].
  unfold shape in Hs. simplify_eq. simpl. congruence.
Qed.
Lemma shape_next h h' i l : same_shape h h' -> next_at h' i l = next_at h i l.
Proof.
  intros E. unfold next_at. f_equal. apply list_filter_iff. intros a. by rewrite (shape_height _ _ _ E).
Qed.

Lemma set_forward_spec h a i p :
  (i < height h a)%nat ->
  exists h', set_forward h a i p = Some h' /\ same_shape h h'
    /\ forall b j, forward h' b j = if decide (b = a /\ j = i) then Some p else forward h b j.
Proof.
  unfold set_forward, height. destruct (h !! a) as [nd|] eqn:E; simpl; [|lia]. intros Hi.
  rewrite bool_decide_true by done. eexists. split; [done|]. split.
  - intros b. destruct (decide (b = a)) as [->|Hb]; [|by rewrite lookup_insert_ne].
    rewrite lookup_insert_eq, E. unfold shape. simpl. by rewrite length_insert.
  - intros b j. unfold forward. destruct (decide (b = a)) as [->|Hb].
    + rewrite lookup_insert_eq, E. cbn [mbind option_bind nd_forward].
      destruct (decide (a = a /\ j = i)) as [[_ ->]|Hj].
      * by apply list_lookup_insert_eq.
      * apply list_lookup_insert_ne. naive_solver.
    + rewrite lookup_insert_ne by done. by rewrite decide_False by naive_solver.
Qed.

(** [link] makes [n] point where the [u j] pointed, and them point to it. *)
Lemma link_spec n u k : forall h i,
  (forall j, (i <= j < i + k)%nat -> (j < height h (u j))%nat /\ (j < height h n)%nat /\ u j <> n) ->
  exists h', link h n i (u <$> seq i k) = Some h' /\ same_shape h h'
    /\ forall a j, forward h' a j =
         if decide (i <= j < i + k)%nat then
           if decide (a = n) then forward h (u j) j
           else if decide (a = u j) then Some (Some n) else forward h a j
         else forward h a j.
Proof.
  induction k as [|k IH]; intros h i Hu; cbn [seq fmap list_fmap link].
  - exists h. split_and!; [done|done|]. intros a j. by rewrite decide_False by lia.
  - destruct (Hu i) as (H1 & H2 & H3); [lia|].
    assert (exists p, forward h (u i) i = Some p) as [p Hp].
    { unfold height, forward in *. destruct (h !! u i) as [nd|]; simpl in *; [|lia].
      by apply lookup_lt_is_Some. }
    rewrite Hp. cbn [mbind option_bind].
    destruct (set_forward_spec h n i p H2) as (h1 & -> & S1 & F1). cbn [mbind option_bind].
    destruct (set_forward_spec h1 (u i) i (Some n)) as (h2 & -> & S2 & F2);
      [by rewrite (shape_height _ _ _ S1)|]. cbn [mbind option_bind].
    assert (same_shape h h2) as S12 by (by transitivity h1).
    destruct (IH h2 (S i)) as (h' & -> & S3 & F3).
    { intros j Hj. rewrite !(shape_height _ _ _ S12). apply Hu. lia. }
    exists h'. split; [done|]. split; [by transitivity h2|]. intros a j. rewrite F3, !F2, !F1.
    clear -Hp H3. by_ranges i j.
Qed.

(** [unlink] makes the nodes that point to [c] point where it points, up to
    the height of [c]. *)
Lemma unlink_spec c u k : forall h i,
  (i <= height h c)%nat ->
  (forall j, (i <= j < i + k)%nat -> (j < height h (u j))%nat /\ u j <> c
     /\ (forward h (u j) j = Some (Some c) <-> (j < height h c)%nat)) ->
  exists h', unlink h c i (u <$> seq i k) = Some h' /\ same_shape h h'
    /\ forall a j, forward h' a j =
         if decide (i <= j < i + k /\ j < height h c /\ a = u j)%nat then forward h c j
         else forward h a j.
Proof.
  induction k as [|k IH]; intros h i Hc Hu; cbn [seq fmap list_fmap unlink].
  - exists h. split_and!; [done|done|]. intros a j. by rewrite decide_False by lia.
  - destruct (Hu i) as (H1 & H2 & H3); [lia|].
    assert (forall a, (i < height h a)%nat -> exists p, forward h a i = Some p) as Hfw.
    { intros a Ha. unfold height, forward in *. destruct (h !! a) as [nd|]; simpl in *; [|lia].
      by apply lookup_lt_is_Some. }
    destruct (Hfw _ H1) as [p Hp]. rewrite Hp in H3 |- *. cbn [mbind option_bind].
    destruct (decide (p = Some c)) as [->|Hne].
    + rewrite bool_decide_true by done. cbn [negb]. assert (i < height h c)%nat as Hi by (by apply H3).
      destruct (Hfw _ Hi) as [q Hq]. rewrite Hq. cbn [mbind option_bind].
      destruct (set_forward_spec h (u i) i q H1) as (h1 & -> & S1 & F1). cbn [mbind option_bind].
      destruct (IH h1 (S i)) as (h' & -> & S2 & F2).
      { rewrite (shape_height _ _ _ S1). lia. }
      { intros j Hj. rewrite !(shape_height _ _ _ S1), F1, decide_False by lia. apply Hu. lia. }
      exists h'. split; [done|]. split; [by transitivity h1|]. intros a j.
      rewrite F2, !(shape_height _ _ _ S1), !F1. clear -Hq H2 Hi. by_ranges i j.
    + rewrite bool_decide_false by done. cbn [negb]. exists h. split_and!; [done..|].
      intros a j. rewrite decide_False; [done|]. intros (Hj & Hj' & ->).
      destruct (decide (i < height h c)%nat) as [Hi|]; [|lia].
      apply H3 in Hi. congruence.
Qed.

(** [lower] stops at the head's topmost level in use. *)
Lemma lower_spec h hd : forall level,
  (level < height h hd)%nat ->
  exists level', lower h hd level = Some level' /\ (level' <= level)%nat
    /\ forall j, (level' < j <= level)%nat -> forward h hd j = Some None.
Proof.
  induction level as [|level IH]; intros Hl; cbn [lower]; [by exists 0%nat; split_and!; [| |lia]|].
  destruct (forward h hd (S level)) as [[nx|]|] eqn:E; cbn [mbind option_bind].
  - exists (S level). split_and!; [done|lia|lia].
  - destruct IH as (l' & -> & Hle & Hn); [lia|]. exists l'. split_and!; [done|lia|].
    intros j Hj. destruct (decide (j = S level)) as [->|]; [done|]. apply Hn. lia.
  - unfold forward, height in *. destruct (h !! hd) as [nd|]; simpl in *; [|lia].
    apply lookup_ge_None in E. lia.
Qed.
End Update.

(** ** The operations on the list of nodes *)

Section Lists.
Context {V : Type}.
Implicit Types (h : gmap nat (Node V)) (l : list nat).

Lemma linked_app h l l' :
  linked h (l ++ l')
  <-> (forall l1 a l2, l = l1 ++ a :: l2 -> links h a (l2 ++ l')) /\ linked h l'.
Proof.
  split.
  - intros HL. split; intros l1 a l2 ->.
    + apply (HL l1). by simplify_list_eq.
    + apply (HL (l ++ l1)). by simplify_list_eq.
  - intros [H1 H2] l1 a l2 E.
    apply app_eq_inv in E as [(k & -> & E)|(k & -> & ->)]; [|by eapply H2].
    destruct k as [|b k]; simplify_list_eq; [by apply (H2 [])|]. by apply (H1 l1).
Qed.

Lemma linked_node h l a : linked h l -> a ∈ l -> is_Some (h !! a).
Proof. intros HL (l1 & l2 & ->)%list_elem_of_split. by apply (HL l1 a l2). Qed.

Lemma next_at_ext h h' i l :
  (forall b, b ∈ l -> height h' b = height h b) -> next_at h' i l = next_at h i l.
Proof.
  intros E. unfold next_at. f_equal. induction l as [|b l IH]; [done|].
  rewrite !filter_cons, IH, (E b) by set_solver. done.
Qed.

Lemma next_at_low h i a l : (height h a <= i)%nat -> next_at h i (a :: l) = next_at h i l.
Proof. intros Ha. apply (next_at_app_none h i [a]). by constructor. Qed.

Lemma next_at_in h i l b : next_at h i l = Some b -> b ∈ l.
Proof. unfold next_at. intros E%head_Some_elem_of. by apply list_elem_of_filter in E as [_ ?]. Qed.

Lemma next_at_some h i l a : a ∈ l -> (i < height h a)%nat -> next_at h i l <> None.
Proof.
  intros Hin Ha E. unfold next_at in E. apply head_None in E.
  assert (a ∈ filter (fun b => i < height h b)%nat l) as Hf by (by apply list_elem_of_filter).
  rewrite E in Hf. by apply not_elem_of_nil in Hf.
Qed.

Lemma next_at_bottom h l :
  (forall a, a ∈ l -> (1 <= height h a)%nat) -> next_at h 0 l = head l.
Proof.
  destruct l as [|a l]; [done|]. intros Hh. rewrite next_at_cons_yes; [done|]. apply Hh. set_solver.
Qed.

Lemma last_at_in h i c l : last_at h i c l ∈ c :: l.
Proof.
  destruct (last_at_suffix h i c l) as (lt & _ & [[E _]|[_ [m E]]]); [rewrite E; set_solver|].
  rewrite E at 2. set_solver.
Qed.

(** The last node of a level, seen from any node of that level before it. *)
Lemma last_at_pos h i c l l1 a l2 :
  c :: l = l1 ++ a :: l2 -> (i < height h a)%nat -> last_at h i c l = last_at h i a l2.
Proof.
  destruct l1 as [|b l1]; intros E Ha; simplify_list_eq; [done|]. by rewrite last_at_split.
Qed.

(** In a list of nodes before the key, a node is the last of a level exactly
    when only lower ones follow. *)
Lemma last_at_cases h i c l l1 a l2 :
  NoDup (c :: l) -> c :: l = l1 ++ a :: l2 -> (i < height h a)%nat ->
  (a = last_at h i c l /\ Forall (fun b => height h b <= i)%nat l2)
  \/ (a <> last_at h i c l /\ exists m1 b m2, l2 = m1 ++ b :: m2
        /\ Forall (fun b => height h b <= i)%nat m1 /\ (i < height h b)%nat).
Proof.
  intros Hnd E Ha. rewrite (last_at_pos h i c l l1 a l2) by done. rewrite E in Hnd.
  destruct (level_cases h i l2) as [Hlow|(m1 & b & m2 & -> & H1 & H2)].
  - left. by rewrite last_at_none.
  - right. split; [|by exists m1, b, m2]. rewrite last_at_split by done. intros Heq.
    apply NoDup_app in Hnd as (_ & _ & Hnd). apply NoDup_cons in Hnd as [Hni _]. apply Hni.
    rewrite Heq. pose proof (last_at_in h i b m2). set_solver.
Qed.

(** What the search ends on: a node of the level whose next one is in [ge]. *)
Lemma last_at_forward h i c lt ge :
  linked h (c :: lt ++ ge) -> (i < height h c)%nat ->
  (i < height h (last_at h i c lt))%nat
  /\ forward h (last_at h i c lt) i = Some (next_at h i ge).
Proof.
  intros HL Hc. destruct (last_at_suffix h i c lt) as (lt' & Hlow & [[-> ->]|[Hh [m Hm]]]).
  - split; [done|]. rewrite (proj2 (HL [] c (lt ++ ge) eq_refl)) by done.
    by rewrite next_at_app_none.
  - split; [done|]. assert (links h (last_at h i c lt) (lt' ++ ge)) as [_ Hf].
    { apply (HL (c :: m)). rewrite Hm at 1. by simplify_list_eq. }
    by rewrite Hf, next_at_app_none.
Qed.

Lemma entries_fst h l :
  (forall a, a ∈ l -> is_Some (h !! a)) -> (entries_of h l).*1 = key_of h <$> l.
Proof.
  intros Hn. unfold entries_of, key_of. induction l as [|a l IH]; [done|].
  cbn [omap list_omap fmap list_fmap]. destruct (Hn a) as [nd ->]; [set_solver|]. simpl.
  f_equal. apply IH. set_solver.
Qed.

Lemma entries_app h l l' : entries_of h (l ++ l') = entries_of h l ++ entries_of h l'.
Proof. apply omap_app. Qed.

Lemma entries_cons h a l nd :
  h !! a = Some nd -> entries_of h (a :: l) = (nd_key nd, nd_value nd) :: entries_of h l.
Proof. intros E. unfold entries_of. cbn [omap list_omap]. by rewrite E. Qed.

Lemma entries_ext h h' l : (forall a, a ∈ l -> h' !! a = h !! a) -> entries_of h' l = entries_of h l.
Proof.
  intros E. unfold entries_of. induction l as [|a l IH]; [done|]. cbn [omap list_omap].
  rewrite IH, (E a) by set_solver. done.
Qed.
End Lists.

Section Operations.
Context {V : Type} (cmp : Z -> Z -> bool)
  (cmp_total : forall a b, cmp a b = false -> cmp b a = false -> a = b)
  (cmp_irrefl : forall a, cmp a a = false)
  (cmp_trans : forall a b c, cmp a b = true -> cmp b c = true -> cmp a c = true).
Implicit Types (h : gmap nat (Node V)) (s : SkipList V).

(** [lt] are the nodes before the key, [ge] the others. *)
Record cut (h : gmap nat (Node V)) (key : Z) (lt ge : list nat) : Prop := {
  cut_lt : Forall (fun b => cmp (key_of h b) key = true) lt;
  cut_ge : Forall (fun b => cmp (key_of h b) key = false) ge;
}.

Lemma cut_exists s l key : rep cmp s l -> exists lt ge, l = lt ++ ge /\ cut (sl_heap s) key lt ge.
Proof using cmp_trans.
  intros R. pose proof (rep_sorted _ _ _ R) as Hs. clear R. induction l as [|a l IH].
  - exists [], []. by split; [|split].
  - cbn [fmap list_fmap] in Hs. apply StronglySorted_inv in Hs as [Hs Ha].
    destruct (cmp (key_of (sl_heap s) a) key) eqn:E.
    + destruct (IH Hs) as (lt & ge & -> & [H1 H2]). exists (a :: lt), ge. split; [done|].
      split; [by constructor|done].
    + exists [], (a :: l). split; [done|]. split; [done|]. constructor; [done|].
      apply Forall_fmap in Ha. eapply Forall_impl; [exact Ha|]. intros b Hb. simpl in Hb.
      destruct (cmp (key_of _ b) key) eqn:E'; [|done]. rewrite (cmp_trans _ _ _ Hb E') in E. done.
Qed.

Lemma search_spec s lt ge key :
  rep cmp s (lt ++ ge) -> cut (sl_heap s) key lt ge ->
  search cmp s key
  = Some (last_at (sl_heap s) 0 (sl_head s) lt,
          (fun j => last_at (sl_heap s) j (sl_head s) lt) <$> seq 0 (S (sl_currentLevel s))).
Proof.
  intros R [Hlt Hge]. unfold search.
  apply (descend_spec cmp (sl_heap s) key (sl_head s :: lt ++ ge) ge (rep_linked _ _ _ R) Hge).
  - split; [by exists []|done].
  - rewrite (rep_head _ _ _ R). pose proof (rep_level _ _ _ R). lia.
  - rewrite (rep_size _ _ _ R), length_app. lia.
Qed.

Lemma rep_height_pos s l a : rep cmp s l -> a ∈ l -> (1 <= height (sl_heap s) a)%nat.
Proof. intros R Ha. apply (rep_heights _ _ _ R a Ha). Qed.

Lemma rep_node s l a : rep cmp s l -> a ∈ l -> is_Some (sl_heap s !! a).
Proof. intros R Ha. apply (linked_node _ _ _ (rep_linked _ _ _ R)). set_solver. Qed.

(** The first node not before the key, if it has that key. *)
Definition hit h (key : Z) (ge : list nat) : option nat :=
  match ge with a :: _ => if bool_decide (key_of h a = key) then Some a else None | [] => None end.

Lemma candidate_spec s lt ge key :
  rep cmp s (lt ++ ge) -> cut (sl_heap s) key lt ge ->
  candidate cmp (sl_heap s) key (last_at (sl_heap s) 0 (sl_head s) lt)
  = Some (hit (sl_heap s) key ge).
Proof using cmp_total cmp_irrefl cmp_trans.
  intros R [_ Hge]. unfold candidate.
  destruct (last_at_forward _ 0 _ _ _ (rep_linked _ _ _ R)) as [_ ->];
    [by rewrite (rep_head _ _ _ R); lia|].
  rewrite next_at_bottom by (intros; eapply rep_height_pos; [done|set_solver]).
  destruct ge as [|a ge]; [done|]. cbn [head mbind option_bind hit].
  destruct (rep_node _ _ a R) as [nd Hnd]; [set_solver|]. unfold key_of in *.
  apply Forall_cons in Hge as [Ha _]. rewrite Hnd in *. simpl in *. rewrite Ha, andb_true_r.
  case_bool_decide as Hk; [by rewrite Hk, cmp_irrefl|].
  destruct (cmp key (nd_key nd)) eqn:E; [done|]. destruct Hk. by apply cmp_total.
Qed.

Lemma find_spec s lt ge key :
  rep cmp s (lt ++ ge) -> cut (sl_heap s) key lt ge ->
  find cmp s key = Some (hit (sl_heap s) key ge).
Proof using cmp_total cmp_irrefl cmp_trans.
  intros R C. unfold find. rewrite (search_spec _ _ _ _ R C). cbn [mbind option_bind].
  by apply candidate_spec.
Qed.

(** ** Insert *)

(** The heap with the new node spliced in. *)
Lemma link_heap h hd lt ge n key v nl :
  linked h (hd :: lt ++ ge) -> (nl < height h hd)%nat -> h !! n = None ->
  exists h', link (<[n := mkNode key v (replicate (S nl) None)]> h) n 0
               ((fun j => last_at h j hd lt) <$> seq 0 (S nl)) = Some h'
    /\ same_shape (<[n := mkNode key v (replicate (S nl) None)]> h) h'
    /\ (forall j, (j <= nl)%nat -> forward h' n j = Some (next_at h j ge))
    /\ forall a j, a <> n -> forward h' a j =
         if decide (j <= nl /\ a = last_at h j hd lt)%nat then Some (Some n) else forward h a j.
Proof.
  intros HL Hh Hn. set (h1 := <[n := _]> h).
  assert (forall j, j <= nl ->
    last_at h j hd lt <> n /\ (j < height h (last_at h j hd lt))%nat
    /\ forward h (last_at h j hd lt) j = Some (next_at h j ge))%nat as Hu.
  { intros j Hj. destruct (last_at_forward h j hd lt ge HL) as [H1 H2]; [lia|].
    split_and!; [|done..]. intros E. rewrite E in H1. unfold height in H1. rewrite Hn in H1. simpl in H1. lia. }
  assert (forall a, a <> n -> h1 !! a = h !! a) as Eh1 by (intros; by apply lookup_insert_ne).
  destruct (link_spec n (fun j => last_at h j hd lt) (S nl) h1 0) as (h' & -> & Hs & F).
  { intros j Hj. destruct (Hu j) as (H1 & H2 & H3); [lia|]. unfold height in *.
    rewrite (Eh1 _ H1). split_and!; [done| |done]. unfold h1. rewrite lookup_insert_eq. simpl.
    rewrite length_replicate. lia. }
  exists h'. split_and!; [done..| |].
  - intros j Hj. rewrite F, decide_True, decide_True by (done || lia).
    destruct (Hu j Hj) as (H1 & _ & <-). unfold forward. by rewrite Eh1.
  - intros a j Ha. rewrite F. unfold forward. rewrite (Eh1 a Ha).
    clear -Ha. repeat case_decide; naive_solver lia.
Qed.

Lemma new_heights h n key v nl h' :
  same_shape (<[n := mkNode key v (replicate (S nl) None)]> h) h' ->
  height h' n = S nl /\ (forall a, a <> n -> height h' a = height h a)
  /\ (forall a, is_Some (h !! a) \/ a = n -> is_Some (h' !! a)).
Proof.
  intros Hs. split_and!.
  - rewrite (shape_height _ _ _ Hs). unfold height. rewrite lookup_insert_eq. simpl.
    by rewrite length_replicate.
  - intros a Ha. rewrite (shape_height _ _ _ Hs). unfold height. by rewrite lookup_insert_ne.
  - intros a Ha. apply (shape_node _ _ _ Hs). destruct (decide (a = n)) as [->|].
    + rewrite lookup_insert_eq. by eexists.
    + rewrite lookup_insert_ne by done. tauto.
Qed.

(** A node before the key, on the list with [n] spliced in. *)
Lemma next_at_inserted h h' i n l2 ge :
  (forall b, b ∈ l2 ++ ge -> height h' b = height h b) ->
  next_at h' i (l2 ++ n :: ge)
  = if decide (Forall (fun b => height h b <= i)%nat l2 /\ i < height h' n)%nat
    then Some n else next_at h i (l2 ++ ge).
Proof.
  intros E. induction l2 as [|b l2 IH].
  - simpl. destruct (decide (i < height h' n)%nat) as [Hi|Hi].
    + rewrite decide_True by done. by apply next_at_cons_yes.
    + rewrite decide_False by tauto. rewrite next_at_low by lia. by apply next_at_ext.
  - cbn [app]. destruct (decide (i < height h b)%nat) as [Hi|Hi].
    + rewrite next_at_cons_yes by (rewrite E by set_solver; done).
      rewrite decide_False by (intros [Hl _]; apply Forall_cons in Hl; lia).
      by rewrite next_at_cons_yes.
    + rewrite (next_at_low h') by (rewrite E by set_solver; lia).
      rewrite (next_at_low h) by lia. rewrite IH by set_solver.
      apply decide_ext. rewrite Forall_cons. naive_solver lia.
Qed.

Lemma link_linked h hd lt ge n key v nl h' :
  linked h (hd :: lt ++ ge) -> NoDup (hd :: lt ++ ge) -> h !! n = None ->
  same_shape (<[n := mkNode key v (replicate (S nl) None)]> h) h' ->
  (forall j, (j <= nl)%nat -> forward h' n j = Some (next_at h j ge)) ->
  (forall a j, a <> n -> forward h' a j =
     if decide (j <= nl /\ a = last_at h j hd lt)%nat then Some (Some n) else forward h a j) ->
  linked h' (hd :: lt ++ n :: ge).
Proof.
  intros HL Hnd Hn Hs Fn Fo. destruct (new_heights _ _ _ _ _ _ Hs) as (En & Ea & Hex).
  assert (forall a, a ∈ hd :: lt ++ ge -> a <> n) as Hne.
  { intros a Ha ->. destruct (linked_node _ _ _ HL Ha). congruence. }
  apply (linked_app _ (hd :: lt)) in HL as [H1 H2]. apply (linked_app _ (hd :: lt)).
  rewrite app_comm_cons in Hnd. apply NoDup_app in Hnd as (Hnd & Hdis & _). split.
  - intros l1 a l2 E. destruct (H1 l1 a l2 E) as [Hx Ha].
    assert (forall b, b ∈ a :: l2 ++ ge -> b <> n) as Hne'.
    { intros b Hb. apply Hne. rewrite app_comm_cons, E. set_solver. }
    assert (a <> n) as Han by (apply Hne'; set_solver).
    split; [by auto|]. intros i Hi. rewrite Ea in Hi by done. rewrite Fo, Ha by done.
    rewrite (next_at_inserted h) by (intros; apply Ea, Hne'; set_solver). rewrite En.
    destruct (last_at_cases h i hd lt l1 a l2 Hnd E Hi) as [[? Hlow]|[Hla (m1 & b & m2 & -> & _ & Hb)]].
    + repeat case_decide; naive_solver lia.
    + rewrite decide_False by naive_solver. rewrite decide_False; [done|].
      intros [Hl _]. apply Forall_app in Hl as [_ Hl]. apply Forall_cons in Hl. lia.
  - apply (linked_app _ [n]). split.
    + intros [|? [|??]] a l2 E; simplify_list_eq. split; [by auto|]. intros i Hi.
      rewrite En in Hi. rewrite Fn by lia. f_equal. symmetry. apply next_at_ext.
      intros b Hb. apply Ea, Hne. set_solver.
    + intros l1 a l2 ->. destruct (H2 l1 a l2 eq_refl) as [Hx Ha].
      assert (a <> n) as Han by (apply Hne; set_solver). split; [by auto|].
      intros i Hi. rewrite Ea in Hi by done. rewrite Fo by done. rewrite decide_False, Ha;
        [|done|intros [_ ->]; apply (Hdis _ (last_at_in h i hd lt)); set_solver].
      f_equal. symmetry. apply next_at_ext. intros b Hb. apply Ea, Hne. set_solver.
Qed.

(** The update vector the splice uses. *)
Lemma update_levels s lt ge nl :
  rep cmp s (lt ++ ge) -> (nl <= sl_maxLevel s)%nat ->
  take (S nl) (((fun j => last_at (sl_heap s) j (sl_head s) lt) <$> seq 0 (S (sl_currentLevel s)))
               ++ replicate (nl - sl_currentLevel s) (sl_head s))
  = (fun j => last_at (sl_heap s) j (sl_head s) lt) <$> seq 0 (S nl).
Proof.
  intros R Hnl. apply list_eq. intros i.
  destruct (decide (i < S nl)%nat) as [Hi|Hi].
  - rewrite lookup_take_lt by lia. rewrite list_lookup_fmap, lookup_seq_lt by lia. cbn [fmap option_fmap option_map].
    destruct (decide (i <= sl_currentLevel s)%nat) as [Hc|Hc].
    + rewrite lookup_app_l by (rewrite length_fmap, length_seq; lia).
      by rewrite list_lookup_fmap, lookup_seq_lt by lia.
    + rewrite lookup_app_r by (rewrite length_fmap, length_seq; lia).
      rewrite length_fmap, length_seq. rewrite lookup_replicate_2 by lia. f_equal. symmetry.
      apply last_at_none, Forall_forall. intros b Hb.
      pose proof (rep_heights _ _ _ R b ltac:(set_solver)). simpl. lia.
  - rewrite lookup_take_ge by lia. symmetry. apply lookup_ge_None. rewrite length_fmap, length_seq. lia.
Qed.

Context `{!CoinFlips}.

Lemma randomLevel_bound seed room : forall lvl k,
  ((randomLevel seed room lvl k).1 <= lvl + room)%nat.
Proof.
  induction room as [|room IH]; intros lvl k; cbn [randomLevel]; destruct (flip seed k); simpl; try lia.
  specialize (IH (S lvl) (S k)). lia.
Qed.

(** Without a hit, what is not before the key is after it. *)
Lemma cut_gt s lt ge key :
  rep cmp s (lt ++ ge) -> cut (sl_heap s) key lt ge -> hit (sl_heap s) key ge = None ->
  Forall (fun b => cmp key (key_of (sl_heap s) b) = true) ge.
Proof using cmp_total cmp_trans.
  intros R [_ Hge] Hh. pose proof (rep_sorted _ _ _ R) as Hs. rewrite fmap_app in Hs.
  apply StronglySorted_app in Hs as (_ & _ & Hs). destruct ge as [|a ge]; [done|].
  cbn [fmap list_fmap] in Hs. apply StronglySorted_inv in Hs as [_ Ha]. cbn [hit] in Hh.
  case_bool_decide as Hk; [done|]. apply Forall_cons in Hge as [Hge _].
  assert (cmp key (key_of (sl_heap s) a) = true) as Hka.
  { destruct (cmp key _) eqn:E; [done|]. destruct Hk. by apply cmp_total. }
  constructor; [done|]. apply Forall_fmap in Ha. eapply Forall_impl; [exact Ha|].
  intros b Hb. by eapply cmp_trans.
Qed.

Lemma sorted_insert (ks1 ks2 : list Z) k :
  StronglySorted (fun a b => cmp a b = true) (ks1 ++ ks2) ->
  Forall (fun x => cmp x k = true) ks1 -> Forall (fun x => cmp k x = true) ks2 ->
  StronglySorted (fun a b => cmp a b = true) (ks1 ++ k :: ks2).
Proof.
  intros (Hx & H1 & H2)%StronglySorted_app F1 F2. apply StronglySorted_app. split_and!; [|done|].
  - intros a b Ha [->|Hb]%elem_of_cons; [|by apply Hx]. rewrite Forall_forall in F1. by apply F1.
  - by constructor.
Qed.

(** A heap with a node spliced in represents the longer list. *)
Lemma rep_spliced s lt ge key v nl h' flips :
  rep cmp s (lt ++ ge) -> (nl <= sl_maxLevel s)%nat ->
  Forall (fun b => cmp (key_of (sl_heap s) b) key = true) lt ->
  Forall (fun b => cmp key (key_of (sl_heap s) b) = true) ge ->
  let n := sl_fresh s in
  same_shape (<[n := mkNode key v (replicate (S nl) None)]> (sl_heap s)) h' ->
  linked h' (sl_head s :: lt ++ n :: ge) ->
  let s' := mkSkipList (sl_maxLevel s) (Nat.max (sl_currentLevel s) nl) (S (sl_size s)) (sl_head s)
              h' (S n) (sl_seed s) flips in
  rep cmp s' (lt ++ n :: ge)
  /\ entries_of h' (lt ++ n :: ge)
     = entries_of (sl_heap s) lt ++ (key, v) :: entries_of (sl_heap s) ge.
Proof.
  intros R Hnl Hlt Hgt n Hs HL s'. destruct (new_heights _ _ _ _ _ _ Hs) as (En & Ea & _).
  assert (forall a, a ∈ sl_head s :: lt ++ ge -> a <> n) as Hne.
  { intros a Ha ->. apply (linked_node _ _ _ (rep_linked _ _ _ R)), (rep_fresh _ _ _ R) in Ha.
    unfold n in Ha. lia. }
  assert (forall l, l ⊆ lt ++ ge -> key_of h' <$> l = key_of (sl_heap s) <$> l) as Ek.
  { intros l Hl. apply list_fmap_ext. intros i a Hi%list_elem_of_lookup_2. rewrite (shape_key _ _ _ Hs).
    unfold key_of. rewrite lookup_insert_ne; [done|]. intros <-. apply (Hne n); set_solver. }
  assert (key_of h' n = key) as Ekn.
  { rewrite (shape_key _ _ _ Hs). unfold key_of. by rewrite lookup_insert_eq. }
  split.
  - split; simpl.
    + apply (NoDup_Permutation_proper _ (n :: sl_head s :: lt ++ ge));
        [by rewrite <- Permutation_middle, Permutation_swap|].
      constructor; [by intros Hin%Hne|apply R].
    + done.
    + rewrite Ea by (apply Hne; set_solver). apply R.
    + pose proof (rep_level _ _ _ R). lia.
    + intros a Ha. destruct (decide (a = n)) as [->|Hna]; [rewrite En; lia|].
      rewrite Ea by done. pose proof (rep_heights _ _ _ R a ltac:(set_solver)). lia.
    + rewrite fmap_app, fmap_cons, !Ek, Ekn by set_solver. apply sorted_insert; [|by apply Forall_fmap..].
      rewrite <- fmap_app. apply R.
    + rewrite (rep_size _ _ _ R), !length_app. simpl. lia.
    + intros a Ha. destruct (decide (a = n)) as [->|Hna]; [lia|].
      assert (is_Some (sl_heap s !! a)) as Hx%(rep_fresh _ _ _ R); [|unfold n; lia].
      specialize (Hs a). rewrite lookup_insert_ne in Hs by done. destruct Ha as [nd Hnd].
      rewrite Hnd in Hs. destruct (sl_heap s !! a); [by eexists|done].
  - rewrite (shape_entries _ _ _ Hs), entries_app.
    erewrite (entries_cons _ n) by apply lookup_insert_eq. simpl.
    f_equal; [|f_equal]; apply entries_ext; intros a Ha; apply lookup_insert_ne; intros <-;
      apply (Hne n); set_solver.
Qed.

Lemma insert_absent s lt ge key v (v0 : V) :
  rep cmp s (lt ++ ge) -> cut (sl_heap s) key lt ge -> hit (sl_heap s) key ge = None ->
  exists s', insert v0 cmp s key v = Some (true, s')
    /\ rep cmp s' (lt ++ sl_fresh s :: ge)
    /\ entries_of (sl_heap s') (lt ++ sl_fresh s :: ge)
       = entries_of (sl_heap s) lt ++ (key, v) :: entries_of (sl_heap s) ge.
Proof.
  intros R C Hhit. unfold insert. rewrite (search_spec _ _ _ _ R C). cbn [mbind option_bind].
  rewrite (candidate_spec _ _ _ _ R C), Hhit. cbn [mbind option_bind].
  pose proof (randomLevel_bound (sl_seed s) (sl_maxLevel s) 0 (sl_flips s)) as Hnl.
  destruct (randomLevel _ _ _ _) as [nl flips]. simpl in Hnl.
  rewrite (update_levels s lt ge) by done. cbn [new_Node nd_forward].
  destruct (link_heap (sl_heap s) (sl_head s) lt ge (sl_fresh s) key v nl) as (h' & -> & Hs & Fn & Fo).
  { apply R. }
  { rewrite (rep_head _ _ _ R). lia. }
  { apply eq_None_not_Some. intros Hs%(rep_fresh _ _ _ R). lia. }
  cbn [mbind option_bind]. eexists. split; [done|].
  apply (rep_spliced s lt ge key v nl h' flips R); [done|apply C|by eapply cut_gt|done|].
  eapply link_linked; [apply R|apply R| |exact Hs|exact Fn|exact Fo].
  apply eq_None_not_Some. intros Hs'%(rep_fresh _ _ _ R). lia.
Qed.

Lemma insert_present s lt ge key v (v0 : V) a :
  rep cmp s (lt ++ ge) -> cut (sl_heap s) key lt ge -> hit (sl_heap s) key ge = Some a ->
  insert v0 cmp s key v = Some (false, s).
Proof.
  intros R C Hhit. unfold insert. rewrite (search_spec _ _ _ _ R C). cbn [mbind option_bind].
  by rewrite (candidate_spec _ _ _ _ R C), Hhit.
Qed.

(** ** Remove *)

Lemma last_at_forward_hit h i hd lt c ge :
  linked h (hd :: lt ++ c :: ge) -> NoDup (hd :: lt ++ c :: ge) -> (i < height h hd)%nat ->
  (i < height h (last_at h i hd lt))%nat /\ last_at h i hd lt <> c
  /\ (forward h (last_at h i hd lt) i = Some (Some c) <-> (i < height h c)%nat).
Proof.
  intros HL Hnd Hi. destruct (last_at_forward h i hd lt (c :: ge) HL Hi) as [H1 ->].
  rewrite app_comm_cons in Hnd. apply NoDup_app in Hnd as (_ & Hdis & Hnd).
  split_and!; [done| |].
  - intros E. apply (Hdis c); [|set_solver]. rewrite <- E. apply last_at_in.
  - destruct (decide (i < height h c)%nat) as [Hc|Hc]; [by rewrite next_at_cons_yes|].
    rewrite next_at_low by lia. split; [|lia]. intros E. injection E as E%next_at_in.
    by apply NoDup_cons in Hnd as [? _].
Qed.

(** A node before the key, on the list without [c]. *)
Lemma next_at_removed h i l2 c ge :
  next_at h i (l2 ++ ge)
  = if decide (Forall (fun b => height h b <= i)%nat l2 /\ i < height h c)%nat
    then next_at h i ge else next_at h i (l2 ++ c :: ge).
Proof.
  induction l2 as [|b l2 IH]; cbn [app].
  - destruct (decide (i < height h c)%nat) as [Hc|Hc]; [by rewrite decide_True by done|].
    rewrite decide_False by tauto. by rewrite next_at_low by lia.
  - destruct (decide (i < height h b)%nat) as [Hb|Hb].
    + rewrite !next_at_cons_yes by done.
      rewrite decide_False; [done|]. intros [Hl _]. apply Forall_cons in Hl. lia.
    + rewrite !(next_at_low h i b) by lia. rewrite IH. apply decide_ext. rewrite Forall_cons.
      naive_solver lia.
Qed.

Lemma delete_height h c a : a <> c -> height (delete c h) a = height h a.
Proof. intros Ha. unfold height. by rewrite lookup_delete_ne. Qed.

Lemma unlink_linked h h' hd lt c ge cur :
  linked h (hd :: lt ++ c :: ge) -> NoDup (hd :: lt ++ c :: ge) -> same_shape h h' ->
  (height h c <= S cur)%nat ->
  (forall a j, forward h' a j =
     if decide (0 <= j < 0 + S cur /\ j < height h c /\ a = last_at h j hd lt)%nat
     then forward h c j else forward h a j) ->
  linked (delete c h') (hd :: lt ++ ge).
Proof.
  intros HL Hnd Hs Hcur F. pose proof Hnd as Hndl.
  apply (linked_app _ (hd :: lt)) in HL as [H1 H2]. apply (linked_app _ [c]) in H2 as [Hc H2].
  destruct (Hc [] c [] eq_refl) as [_ Fc]. simpl in Fc.
  rewrite app_comm_cons in Hnd. apply NoDup_app in Hnd as (Hnd & Hdis & Hndc).
  assert (forall l1 a l2, hd :: lt ++ ge = l1 ++ a :: l2 -> a <> c /\ forall b, b ∈ l2 -> b <> c) as Hne.
  { intros l1 a l2 E. assert (c ∉ l1 ++ a :: l2) as Hni; [|set_solver]. rewrite <- E. intros Hin.
    apply NoDup_cons in Hndc as [Hnc _]. rewrite app_comm_cons in Hin.
    apply elem_of_app in Hin as [Hin|Hin]; [|done]. apply (Hdis c Hin). set_solver. }
  assert (forall l1 a l2, hd :: lt ++ ge = l1 ++ a :: l2 -> is_Some (h !! a) ->
    (forall i, (i < height h a)%nat -> forward h' a i = Some (next_at h i l2)) ->
    links (delete c h') a l2) as Hup.
  { intros l1 a l2 E Hx Ha. destruct (Hne _ _ _ E) as [Hac Hl2]. split.
    - rewrite lookup_delete_ne by done. by apply (shape_node _ _ _ Hs).
    - intros i Hi. rewrite delete_height, (shape_height _ _ _ Hs) in Hi by done.
      unfold forward. rewrite lookup_delete_ne by done. fold (forward h' a i). rewrite Ha by done.
      f_equal. symmetry. apply next_at_ext. intros b Hb.
      by rewrite delete_height, (shape_height _ _ _ Hs) by auto. }
  apply (linked_app _ (hd :: lt)). split.
  - intros l1 a l2 E. destruct (H1 l1 a l2 E) as [Hx Ha].
    apply (Hup l1); [by rewrite app_comm_cons, E; simplify_list_eq|done|]. intros i Hi.
    rewrite F, Ha, (next_at_removed h i l2 c ge) by done.
    destruct (last_at_cases h i hd lt l1 a l2 Hnd E Hi) as [[Hla Hlow]|[Hla (m1 & b & m2 & -> & _ & Hb)]].
    + destruct (decide (i < height h c)%nat).
      * rewrite decide_True by (split_and!; [lia..|done]). rewrite decide_True by done. by apply Fc.
      * rewrite decide_False by lia. by rewrite decide_False by naive_solver.
    + rewrite decide_False by naive_solver. rewrite decide_False; [done|].
      intros [Hl _]. apply Forall_app in Hl as [_ Hl]. apply Forall_cons in Hl. lia.
  - intros l1 a l2 ->. destruct (H2 l1 a l2 eq_refl) as [Hx Ha].
    apply (Hup (hd :: lt ++ l1)); [by simplify_list_eq|done|]. intros i Hi.
    rewrite F, decide_False; [by apply Ha|]. intros (_ & _ & ->).
    apply (Hdis _ (last_at_in h i hd lt)). set_solver.
Qed.

Lemma sorted_drop (ks1 ks2 : list Z) k :
  StronglySorted (fun a b => cmp a b = true) (ks1 ++ k :: ks2) ->
  StronglySorted (fun a b => cmp a b = true) (ks1 ++ ks2).
Proof.
  intros (Hx & H1 & H2)%StronglySorted_app. apply StronglySorted_inv in H2 as [H2 _].
  apply StronglySorted_app. split_and!; [|done..]. intros a b Ha Hb. apply Hx; [done|by right].
Qed.

(** A heap with [c] unlinked represents the shorter list. *)
Lemma rep_dropped s lt c ge h' level :
  rep cmp s (lt ++ c :: ge) -> same_shape (sl_heap s) h' ->
  linked (delete c h') (sl_head s :: lt ++ ge) -> (level <= sl_currentLevel s)%nat ->
  (forall j, (level < j <= sl_currentLevel s)%nat -> forward h' (sl_head s) j = Some None) ->
  let s' := mkSkipList (sl_maxLevel s) level (sl_size s - 1) (sl_head s) (delete c h')
              (sl_fresh s) (sl_seed s) (sl_flips s) in
  rep cmp s' (lt ++ ge)
  /\ entries_of (delete c h') (lt ++ ge)
     = entries_of (sl_heap s) lt ++ entries_of (sl_heap s) ge.
Proof.
  intros R Hs HL Hle Hlow s'.
  pose proof (rep_nodup _ _ _ R) as Hnd. rewrite app_comm_cons, <- Permutation_middle in Hnd.
  apply NoDup_cons in Hnd as [Hc Hnd].
  assert (forall a, a ∈ sl_head s :: lt ++ ge -> a <> c) as Hne by set_solver.
  assert (forall a, a ∈ sl_head s :: lt ++ ge -> height (delete c h') a = height (sl_heap s) a) as Ea.
  { intros a Ha%Hne. by rewrite delete_height, (shape_height _ _ _ Hs). }
  assert (forall a, a ∈ lt ++ ge -> key_of (delete c h') a = key_of (sl_heap s) a) as Ek.
  { intros a Ha. rewrite <- (shape_key _ _ _ Hs). unfold key_of.
    rewrite lookup_delete_ne; [done|]. intros <-. apply (Hne c); set_solver. }
  pose proof (rep_level _ _ _ R) as Hlev.
  split.
  - split; simpl.
    + done.
    + done.
    + rewrite Ea by set_solver. apply R.
    + lia.
    + intros a Ha. rewrite Ea by set_solver.
      pose proof (rep_heights _ _ _ R a ltac:(set_solver)) as Hh. split; [lia|].
      destruct (decide (height (sl_heap s) a <= S level)%nat) as [?|Hbig]; [done|exfalso].
      set (j := (height (sl_heap s) a - 1)%nat).
      destruct (HL [] (sl_head s) (lt ++ ge) eq_refl) as [_ Hf].
      assert (forward (delete c h') (sl_head s) j = Some None) as Hj.
      { unfold forward. rewrite lookup_delete_ne by (symmetry; apply Hne; set_solver).
        apply Hlow. unfold j. lia. }
      rewrite Hf in Hj by (rewrite Ea, (rep_head _ _ _ R) by set_solver; unfold j; lia).
      injection Hj as Hj. eapply next_at_some; [| |exact Hj]; [done|].
      rewrite Ea by set_solver. unfold j. lia.
    + replace (key_of (delete c h') <$> lt ++ ge) with (key_of (sl_heap s) <$> lt ++ ge).
      * pose proof (rep_sorted _ _ _ R) as Hso. rewrite !fmap_app, fmap_cons in *.
        by eapply sorted_drop.
      * apply list_fmap_ext. intros i a Hi%list_elem_of_lookup_2. symmetry. by apply Ek.
    + rewrite (rep_size _ _ _ R), !length_app. simpl. lia.
    + intros a [nd Hnd']. apply (rep_fresh _ _ _ R). apply lookup_delete_Some in Hnd' as [_ Hnd'].
      specialize (Hs a). rewrite Hnd' in Hs. destruct (sl_heap s !! a); [by eexists|done].
  - rewrite <- entries_app, <- (shape_entries _ _ _ Hs). apply entries_ext. intros a Ha.
    apply lookup_delete_ne. intros <-. apply (Hne c); set_solver.
Qed.

Lemma remove_hit s lt c ge key :
  rep cmp s (lt ++ c :: ge) -> cut (sl_heap s) key lt (c :: ge) -> key_of (sl_heap s) c = key ->
  exists s', remove cmp s key = Some (true, s') /\ rep cmp s' (lt ++ ge)
    /\ entries_of (sl_heap s') (lt ++ ge) = entries_of (sl_heap s) lt ++ entries_of (sl_heap s) ge.
Proof.
  intros R C Hk. unfold remove. rewrite (search_spec _ _ _ _ R C). cbn [mbind option_bind].
  rewrite (candidate_spec _ _ _ _ R C). cbn [hit]. rewrite bool_decide_true by done.
  cbn [mbind option_bind]. pose proof (rep_level _ _ _ R) as Hlev.
  destruct (unlink_spec c (fun j => last_at (sl_heap s) j (sl_head s) lt) (S (sl_currentLevel s))
              (sl_heap s) 0) as (h' & -> & Hs & F); [lia| |].
  { intros j Hj. apply (last_at_forward_hit _ _ _ _ _ ge); [apply R..|].
    rewrite (rep_head _ _ _ R). lia. }
  cbn [mbind option_bind].
  destruct (lower_spec h' (sl_head s) (sl_currentLevel s)) as (level & -> & Hle & Hlow).
  { rewrite (shape_height _ _ _ Hs), (rep_head _ _ _ R). lia. }
  cbn [mbind option_bind]. eexists. split; [done|].
  apply (rep_dropped s lt c ge h' level R); [done| |done..].
  eapply unlink_linked; [apply R|apply R|done| |exact F].
  apply (rep_heights _ _ _ R). set_solver.
Qed.

Lemma remove_absent s lt ge key :
  rep cmp s (lt ++ ge) -> cut (sl_heap s) key lt ge -> hit (sl_heap s) key ge = None ->
  remove cmp s key = Some (false, s).
Proof.
  intros R C Hhit. unfold remove. rewrite (search_spec _ _ _ _ R C). cbn [mbind option_bind].
  by rewrite (candidate_spec _ _ _ _ R C), Hhit.
Qed.

(** ** The sorted map a skip list stands for *)

Definition represents s (m : list (Z * V)) : Prop :=
  exists l, rep cmp s l /\ entries_of (sl_heap s) l = m.

Lemma rep_entries_cut s lt ge key :
  rep cmp s (lt ++ ge) -> cut (sl_heap s) key lt ge ->
  Forall (fun e => cmp e.1 key = true) (entries_of (sl_heap s) lt).
Proof.
  intros R [Hlt _]. apply (Forall_fmap fst (fun k => cmp k key = true)).
  rewrite entries_fst; [by apply Forall_fmap|]. intros a Ha. eapply rep_node; [done|set_solver].
Qed.

(** A represented map, cut at a key that it does not or does have. *)
Lemma represents_cut s m key :
  represents s m ->
  (exists lt ge, rep cmp s (lt ++ ge) /\ cut (sl_heap s) key lt ge
     /\ hit (sl_heap s) key ge = None
     /\ m = entries_of (sl_heap s) lt ++ entries_of (sl_heap s) ge
     /\ Forall (fun e => cmp e.1 key = true) (entries_of (sl_heap s) lt)
     /\ Forall (fun e => cmp key e.1 = true) (entries_of (sl_heap s) ge))
  \/ (exists lt c ge nd, rep cmp s (lt ++ c :: ge) /\ cut (sl_heap s) key lt (c :: ge)
     /\ hit (sl_heap s) key (c :: ge) = Some c
     /\ sl_heap s !! c = Some nd /\ nd_key nd = key
     /\ m = entries_of (sl_heap s) lt ++ (key, nd_value nd) :: entries_of (sl_heap s) ge
     /\ Forall (fun e => cmp e.1 key = true) (entries_of (sl_heap s) lt)).
Proof.
  intros (l & R & <-). destruct (cut_exists _ _ key R) as (lt & ge & -> & C).
  pose proof (rep_entries_cut _ _ _ _ R C) as Hlt. rewrite entries_app.
  destruct (hit (sl_heap s) key ge) as [c|] eqn:Hh.
  - right. destruct ge as [|c' ge]; [done|]. cbn [hit] in Hh.
    case_bool_decide as Hk; [|done]. injection Hh as ->.
    destruct (rep_node _ _ c R) as [nd Hnd]; [set_solver|].
    unfold key_of in Hk. rewrite Hnd in Hk. simpl in Hk. exists lt, c, ge, nd.
    rewrite (entries_cons _ _ _ _ Hnd), Hk. split_and!; try done.
    cbn [hit]. unfold key_of. rewrite Hnd. simpl. by rewrite bool_decide_true.
  - left. exists lt, ge. split_and!; try done.
    apply (Forall_fmap fst (fun k => cmp key k = true)).
    rewrite entries_fst by (intros; eapply rep_node; [done|set_solver]).
    apply Forall_fmap. by eapply cut_gt.
Qed.

Lemma equiv_key_refl key : equiv_key cmp key key = true.
Proof using cmp_irrefl. unfold equiv_key. by rewrite cmp_irrefl. Qed.

Lemma represents_sorted s m : represents s m -> sm_sorted cmp m.
Proof using cmp_total cmp_irrefl cmp_trans.
  intros (l & R & <-). unfold sm_sorted. rewrite entries_fst; [apply R|].
  intros. by eapply rep_node.
Qed.

Lemma insert_represents s m key v (v0 : V) :
  represents s m ->
  match sm_find cmp key m with
  | Some _ => insert v0 cmp s key v = Some (false, s)
  | None => exists s', insert v0 cmp s key v = Some (true, s')
              /\ represents s' (sm_index cmp v id key m)
  end.
Proof.
  intros Rm. destruct (represents_cut _ _ key Rm)
    as [(lt & ge & R & C & Hh & -> & H1 & H2)|(lt & c & ge & nd & R & C & Hh & Hnd & Hk & -> & H1)].
  - destruct (sm_before cmp cmp_irrefl cmp_trans _ (entries_of (sl_heap s) ge) key H1) as (E1 & _ & _ & E4).
    destruct (sm_after cmp _ key H2) as (F1 & _ & F3). rewrite E1, F1.
    destruct (insert_absent s lt ge key v v0 R C Hh) as (s' & -> & R' & E').
    exists s'. split; [done|]. exists (lt ++ sl_fresh s :: ge). by rewrite E', E4, F3.
  - destruct (sm_before cmp cmp_irrefl cmp_trans _ ((key, nd_value nd) :: entries_of (sl_heap s) ge) key H1)
      as (-> & _). simpl. rewrite equiv_key_refl. by eapply insert_present.
Qed.

Lemma remove_represents s m key :
  represents s m ->
  exists s', remove cmp s key = Some (bool_decide (is_Some (sm_find cmp key m)), s')
    /\ represents s' (sm_erase cmp key m).
Proof.
  intros Rm. destruct (represents_cut _ _ key Rm)
    as [(lt & ge & R & C & Hh & -> & H1 & H2)|(lt & c & ge & nd & R & C & Hh & Hnd & Hk & -> & H1)].
  - destruct (sm_before cmp cmp_irrefl cmp_trans _ (entries_of (sl_heap s) ge) key H1) as (-> & -> & _).
    destruct (sm_after cmp _ key H2) as (-> & -> & _). exists s.
    split; [by eapply remove_absent|]. exists (lt ++ ge). by rewrite entries_app.
  - destruct (sm_before cmp cmp_irrefl cmp_trans _ ((key, nd_value nd) :: entries_of (sl_heap s) ge) key H1)
      as (-> & -> & _). simpl. rewrite equiv_key_refl, bool_decide_true by done.
    destruct (remove_hit s lt c ge key R C) as (s' & -> & R' & E').
    { unfold key_of. by rewrite Hnd. }
    exists s'. split; [done|]. exists (lt ++ ge). by rewrite E'.
Qed.

(** Assigning through a node changes the value of its key. *)
Lemma set_value_rep s l1 a l2 nd v :
  rep cmp s (l1 ++ a :: l2) -> sl_heap s !! a = Some nd ->
  exists s', set_value s a v = Some s' /\ rep cmp s' (l1 ++ a :: l2)
    /\ entries_of (sl_heap s') (l1 ++ a :: l2)
       = entries_of (sl_heap s) l1 ++ (nd_key nd, v) :: entries_of (sl_heap s) l2.
Proof.
  intros R Hnd. unfold set_value. rewrite Hnd. cbn [mbind option_bind].
  set (h' := <[a := _]> (sl_heap s)). eexists. split; [done|].
  assert (forall b, h' !! b = if decide (b = a)
            then Some (mkNode (nd_key nd) v (nd_forward nd)) else sl_heap s !! b) as Eh.
  { intros b. unfold h'. case_decide as E; [subst; apply lookup_insert_eq|by apply lookup_insert_ne]. }
  assert (forall b, height h' b = height (sl_heap s) b /\ key_of h' b = key_of (sl_heap s) b
            /\ forall i, forward h' b i = forward (sl_heap s) b i) as Eb.
  { intros b. unfold height, key_of, forward. rewrite Eh. case_decide as E; [|done]. subst.
    by rewrite Hnd. }
  pose proof (rep_nodup _ _ _ R) as Hdup. split.
  - destruct R as [R1 R2 R3 R4 R5 R6 R7 R8]. split; simpl; try done.
    + intros k1 b k2 E. destruct (R2 k1 b k2 E) as [Hx Hf]. destruct (Eb b) as (E1 & _ & E3). split.
      * rewrite Eh. case_decide; [by eexists|done].
      * intros i Hi. rewrite E1 in Hi. rewrite E3, Hf by done. f_equal. symmetry.
        apply next_at_ext. intros c _. apply Eb.
    + by rewrite (proj1 (Eb _)).
    + intros b Hb. rewrite (proj1 (Eb _)). by apply R5.
    + erewrite list_fmap_ext; [exact R6|]. intros i b _. apply Eb.
    + intros b Hb. apply R8. rewrite Eh in Hb. case_decide; [subst; by eexists|done].
  - cbn [set_heap sl_heap]. rewrite entries_app. erewrite (entries_cons h') by (by rewrite Eh, decide_True).
    cbn [nd_key nd_value]. rewrite !(entries_ext (sl_heap s) h'); [done|..];
      intros b Hb; rewrite Eh, decide_False; try done; intros ->;
      apply NoDup_cons in Hdup as [_ Hdup]; apply NoDup_app in Hdup as (_ & Hdis & Hdup);
      [apply NoDup_cons in Hdup as [? _]; done|apply (Hdis a Hb); set_solver].
Qed.

Lemma find_represents s m key :
  represents s m ->
  match sm_find cmp key m with
  | None => find cmp s key = Some None
  | Some v => exists a, find cmp s key = Some (Some a) /\ value s a = Some v
      /\ forall v', exists s', set_value s a v' = Some s'
           /\ represents s' (sm_alter cmp (fun _ => v') key m)
  end.
Proof.
  intros Rm. destruct (represents_cut _ _ key Rm)
    as [(lt & ge & R & C & Hh & -> & H1 & H2)|(lt & c & ge & nd & R & C & Hh & Hnd & Hk & -> & H1)].
  - destruct (sm_before cmp cmp_irrefl cmp_trans _ (entries_of (sl_heap s) ge) key H1) as (-> & _).
    destruct (sm_after cmp _ key H2) as (-> & _). by rewrite (find_spec _ _ _ _ R C), Hh.
  - destruct (sm_before cmp cmp_irrefl cmp_trans _ ((key, nd_value nd) :: entries_of (sl_heap s) ge) key H1)
      as (-> & _ & E & _). simpl. rewrite equiv_key_refl. exists c.
    split; [by rewrite (find_spec _ _ _ _ R C), Hh|]. split; [unfold value; by rewrite Hnd|].
    intros v'. destruct (set_value_rep s lt c ge nd v' R Hnd) as (s' & -> & R' & E').
    exists s'. split; [done|]. exists (lt ++ c :: ge). rewrite E, E'. simpl.
    by rewrite equiv_key_refl, Hk.
Qed.

Lemma best_represents s m :
  represents s m ->
  match m with
  | [] => best s = Some None
  | (k, v) :: m' => exists a nd, best s = Some (Some a) /\ sl_heap s !! a = Some nd
      /\ nd_key nd = k /\ nd_value nd = v
      /\ forall v', exists s', set_value s a v' = Some s' /\ represents s' ((k, v') :: m')
  end.
Proof using cmp_total cmp_irrefl cmp_trans.
  intros (l & R & <-). unfold best.
  destruct (rep_linked _ _ _ R [] (sl_head s) l eq_refl) as [_ ->];
    [|rewrite (rep_head _ _ _ R); lia].
  rewrite next_at_bottom by (intros; by eapply rep_height_pos).
  destruct l as [|a l]; [done|]. destruct (rep_node _ _ a R) as [nd Hnd]; [set_solver|].
  rewrite (entries_cons _ _ _ _ Hnd). exists a, nd. split_and!; [done..|].
  intros v'. destruct (set_value_rep s [] a l nd v' R Hnd) as (s' & -> & R' & E').
  exists s'. split; [done|]. by exists (a :: l).
Qed.

Lemma scan_spec h l fuel :
  linked h l -> (forall a, a ∈ l -> (1 <= height h a)%nat) -> (length l <= fuel)%nat ->
  scan fuel h (head l) = Some (entries_of h l).
Proof.
  revert fuel. induction l as [|a l IH]; intros fuel HL Hh Hf; [by destruct fuel|].
  destruct fuel as [|fuel]; [simpl in Hf; lia|]. cbn [scan head].
  destruct (HL [] a l eq_refl) as [[nd Hnd] Ha]. rewrite Hnd. cbn [mbind option_bind].
  specialize (Ha 0%nat (Hh a ltac:(set_solver))). unfold forward in Ha. rewrite Hnd in Ha.
  cbn [mbind option_bind] in Ha. rewrite Ha. cbn [mbind option_bind].
  rewrite next_at_bottom by set_solver. rewrite IH.
  - cbn [mbind option_bind]. by rewrite (entries_cons _ _ _ _ Hnd).
  - intros l1 b l2 ->. by apply (HL (a :: l1)).
  - set_solver.
  - simpl in Hf. lia.
Qed.

Lemma entries_represents s m : represents s m -> entries s = Some m /\ getSize s = length m.
Proof using cmp_total cmp_irrefl cmp_trans.
  intros (l & R & <-). unfold entries, best.
  rewrite (proj2 (rep_linked _ _ _ R [] (sl_head s) l eq_refl)) by (rewrite (rep_head _ _ _ R); lia).
  rewrite next_at_bottom by (intros; by eapply rep_height_pos). cbn [mbind option_bind].
  rewrite scan_spec.
  - split; [done|]. unfold getSize. rewrite (rep_size _ _ _ R).
    rewrite <- (length_fmap fst), entries_fst, length_fmap; [done|]. intros. by eapply rep_node.
  - intros l1 a l2 ->. by apply (rep_linked _ _ _ R (sl_head s :: l1)).
  - intros. by eapply rep_height_pos.
  - by rewrite (rep_size _ _ _ R).
Qed.

Lemma new_represents (v0 : V) ml seed : represents (leveled v0 ml seed) [].
Proof using cmp_total cmp_irrefl cmp_trans.
  unfold leveled. set (nd := new_Node v0 0 ml).
  assert (height {[0%nat := nd]} 0%nat = S ml) as Eh.
  { unfold height. rewrite lookup_singleton_eq. simpl. by rewrite length_replicate. }
  exists []. split; [|done]. split; simpl; try done; try lia.
  - apply NoDup_singleton.
  - intros [|? [|??]] a l2 E; simplify_list_eq. split; [rewrite lookup_singleton_eq; by eexists|].
    intros i Hi. unfold forward. rewrite lookup_singleton_eq. cbn [mbind option_bind].
    apply lookup_replicate_2. by rewrite Eh in Hi.
  - set_solver.
  - constructor.
  - intros a [x [<- _]%lookup_singleton_Some]. lia.
Qed.
End Operations.

(** ** Sequences of calls *)

Section Calls.
Context `{!CoinFlips} {V : Type} (v0 : V) (cmp : Z -> Z -> bool).

Inductive call :=
  | CallInsert (key : Z) (v : V)
  | CallRemove (key : Z)
  | CallFind (key : Z)               (* the value at the node found *)
  | CallAssign (key : Z) (v : V)     (* assign through the node found *)
  | CallBest
  | CallSize.

Inductive answer :=
  | Flag (b : bool)
  | Value (v : option V)
  | Entry (e : option (Z * V))
  | Count (n : nat).

Definition sl_call (s : SkipList V) (c : call) : option (answer * SkipList V) :=
  match c with
  | CallInsert k v => '(b, s) ← insert v0 cmp s k v; Some (Flag b, s)
  | CallRemove k => '(b, s) ← remove cmp s k; Some (Flag b, s)
  | CallFind k =>
      node ← find cmp s k;
      match node with
      | None => Some (Value None, s)
      | Some a => v ← value s a; Some (Value (Some v), s)
      end
  | CallAssign k v =>
      node ← find cmp s k;
      match node with
      | None => Some (Flag false, s)
      | Some a => s ← set_value s a v; Some (Flag true, s)
      end
  | CallBest =>
      node ← best s;
      match node with
      | None => Some (Entry None, s)
      | Some a => nd ← sl_heap s !! a; Some (Entry (Some (nd_key nd, nd_value nd)), s)
      end
  | CallSize => Some (Count (getSize s), s)
  end.

(** What the same call answers on a sorted map. *)
Definition map_call (m : list (Z * V)) (c : call) : answer * list (Z * V) :=
  let has k := bool_decide (is_Some (sm_find cmp k m)) in
  match c with
  | CallInsert k v => (Flag (negb (has k)), if has k then m else sm_index cmp v id k m)
  | CallRemove k => (Flag (has k), sm_erase cmp k m)
  | CallFind k => (Value (sm_find cmp k m), m)
  | CallAssign k v => (Flag (has k), sm_alter cmp (fun _ => v) k m)
  | CallBest => (Entry (head m), m)
  | CallSize => (Count (length m), m)
  end.

Fixpoint sl_calls (s : SkipList V) (cs : list call) : option (list answer * SkipList V) :=
  match cs with
  | [] => Some ([], s)
  | c :: cs => '(r, s) ← sl_call s c; '(rs, s) ← sl_calls s cs; Some (r :: rs, s)
  end.

Fixpoint map_calls (m : list (Z * V)) (cs : list call) : list answer * list (Z * V) :=
  match cs with
  | [] => ([], m)
  | c :: cs =>
      let '(r, m) := map_call m c in
      let '(rs, m) := map_calls m cs in (r :: rs, m)
  end.

Context (cmp_total : forall a b, cmp a b = false -> cmp b a = false -> a = b)
  (cmp_irrefl : forall a, cmp a a = false)
  (cmp_trans : forall a b c, cmp a b = true -> cmp b c = true -> cmp a c = true).

Lemma sm_alter_missing (f : V -> V) k m : sm_find cmp k m = None -> sm_alter cmp f k m = m.
Proof.
  induction m as [|[k' v'] m IH]; simpl; [done|]. destruct (equiv_key cmp k k'); [done|].
  intros E. by rewrite IH.
Qed.

Lemma sl_call_refines s m c :
  represents cmp s m ->
  exists s', sl_call s c = Some ((map_call m c).1, s') /\ represents cmp s' (map_call m c).2.
Proof.
  intros R. destruct c as [k v|k|k|k v| |]; cbn [sl_call map_call fst snd].
  - pose proof (insert_represents cmp cmp_total cmp_irrefl cmp_trans s m k v v0 R) as Hi.
    destruct (sm_find cmp k m); [rewrite Hi; by exists s|].
    destruct Hi as (s' & -> & R'). by exists s'.
  - destruct (remove_represents cmp cmp_total cmp_irrefl cmp_trans s m k R) as (s' & -> & R').
    by exists s'.
  - pose proof (find_represents cmp cmp_total cmp_irrefl cmp_trans s m k R) as Hf.
    destruct (sm_find cmp k m); [|rewrite Hf; by exists s].
    destruct Hf as (a & -> & Hv & _). cbn [mbind option_bind]. rewrite Hv. by exists s.
  - pose proof (find_represents cmp cmp_total cmp_irrefl cmp_trans s m k R) as Hf.
    destruct (sm_find cmp k m) eqn:E.
    + destruct Hf as (a & -> & _ & Hs). destruct (Hs v) as (s' & Es & R'). cbn [mbind option_bind].
      rewrite Es. by exists s'.
    + rewrite Hf, sm_alter_missing by done. by exists s.
  - pose proof (best_represents cmp cmp_total cmp_irrefl cmp_trans s m R) as Hb. destruct m as [|[k v] m]; [rewrite Hb; by exists s|].
    destruct Hb as (a & nd & -> & Hn & <- & <- & _). cbn [mbind option_bind]. rewrite Hn. by exists s.
  - destruct (entries_represents cmp cmp_total cmp_irrefl cmp_trans s m R) as [_ <-]. by exists s.
Qed.

Lemma sl_calls_refines cs : forall s m,
  represents cmp s m ->
  exists s', sl_calls s cs = Some ((map_calls m cs).1, s') /\ represents cmp s' (map_calls m cs).2.
Proof.
  induction cs as [|c cs IH]; intros s m R; cbn [sl_calls map_calls]; [by exists s|].
  destruct (sl_call_refines s m c R) as (s1 & -> & R1). destruct (map_call m c) as [r m1].
  cbn [mbind option_bind fst snd] in *. destruct (IH s1 m1 R1) as (s2 & -> & R2).
  destruct (map_calls m1 cs) as [rs m2]. by exists s2.
Qed.

(** C19. The skip list is a drop-in sorted map: for every comparator that is
    a strict total order, every positive capacity, every outcome of the coin
    flips and every sequence of calls, the skip list follows no null pointer,
    answers each call as the sorted map does, and ends holding the map's
    entries in order. *)
Theorem skiplist_refines_map maxN seed cs :
  0 < maxN ->
  exists s s', new_SkipList v0 maxN seed = Some s
    /\ sl_calls s cs = Some ((map_calls [] cs).1, s')
    /\ entries s' = Some (map_calls [] cs).2 /\ sm_sorted cmp (map_calls [] cs).2.
Proof.
  intros Hn. unfold new_SkipList. rewrite (proj2 (Z.leb_gt maxN 0)) by lia.
  destruct (sl_calls_refines cs _ [] (new_represents cmp cmp_total cmp_irrefl cmp_trans v0 (Z.to_nat (Z.log2_up maxN)) seed)) as (s' & E & R).
  eexists _, s'. split_and!; [done|done|apply (entries_represents cmp cmp_total cmp_irrefl cmp_trans _ _ R)|by eapply represents_sorted].
Qed.
End Calls.
Arguments CallInsert {V}.
Arguments CallRemove {V}.
Arguments CallFind {V}.
Arguments CallAssign {V}.
Arguments CallBest {V}.
Arguments CallSize {V}.
Arguments Flag {V}.
Arguments Value {V}.
Arguments Entry {V}.
Arguments Count {V}.

Definition demo_flips : CoinFlips := {| flip := fun _ k => Nat.odd k |}.

Definition demo_calls : list call :=
  [CallInsert 5 50; CallInsert 3 30; CallInsert 9 90; CallInsert 3 31; CallRemove 5; CallRemove 5;
   CallAssign 9 91; CallFind 9; CallBest; CallSize].

Lemma skiplist_refines_map_witness :
  exists s s', @new_SkipList Z 0 65536 7 = Some s
    /\ @sl_calls demo_flips Z 0 Z.ltb s demo_calls
             = Some ([Flag true; Flag true; Flag true; Flag false; Flag true; Flag false;
                      Flag true; Value (Some 91); Entry (Some (3, 30)); Count 2], s')
    /\ entries s' = Some [(3, 30); (9, 91)].
Proof.
  destruct (@skiplist_refines_map demo_flips Z 0 Z.ltb ltac:(intros; lia) ltac:(intros; lia)
              ltac:(intros; lia) 65536 7 demo_calls eq_refl) as (s & s' & E0 & E1 & E2 & _).
  exists s, s'. split; [exact E0|]. split; [exact E1|exact E2].
Defined.
