(* ===== verification/SkipListOrderBook.v ===== *)
(** * [SkipListOrderBook]: the skip-list matching engine

    Models [src/app/statemachine/SkipListOrderBook.{h,cpp}].  Price levels
    and the order index are those of [MapOrderBook] (a level is a list of
    (address, order) nodes, an iterator is an address), the inner matching
    loop is the same code; the sides are [SkipList]s, reached through node
    pointers.  [sb_seeds] counts the draws from [random_device].

    [stands_for] relates a book to the [MapOrderBook] with the same levels.
    Every operation keeps the relation and returns what the [std::map]
    engine returns, so the contract of [IOrderBook] carries over. *)

From S2P Require Import Prelude IOrderBook BookSpec StdMap MapOrderBook SkipList SkipListRep.

Abbreviation LevelList := (list list_node).

Record SkipListOrderBook := mkSkipListOrderBook {
  sb_symbol : bytes;
  sb_bids : SkipList LevelList;
  sb_asks : SkipList LevelList;
  sb_orderIndex : gmap Z OrderLocation;
  sb_alloc : nat;
  sb_seeds : nat
}.

Definition capacity : Z := 65536.

(** [SkipList(capacity)]; the capacity is positive, so that it is defined. *)
Definition new_levels (seed : nat) : SkipList LevelList := leveled [] (Z.to_nat (Z.log2_up capacity)) seed.

Lemma new_levels_eq seed : new_SkipList ([] : LevelList) capacity seed = Some (new_levels seed).
Proof. done. Qed.

Definition new_SkipListOrderBook (symbol : bytes) : SkipListOrderBook :=
  mkSkipListOrderBook symbol (new_levels 0) (new_levels 1) ∅ 0 2.

(** The skip list of one side, and the book with it replaced. *)
Definition side_list (s : Side) (b : SkipListOrderBook) : SkipList LevelList :=
  match s with Buy => sb_bids b | Sell => sb_asks b end.

Definition set_side_list (s : Side) (l : SkipList LevelList) (b : SkipListOrderBook)
  : SkipListOrderBook :=
  match s with
  | Buy => mkSkipListOrderBook (sb_symbol b) l (sb_asks b) (sb_orderIndex b) (sb_alloc b) (sb_seeds b)
  | Sell => mkSkipListOrderBook (sb_symbol b) (sb_bids b) l (sb_orderIndex b) (sb_alloc b) (sb_seeds b)
  end.

Definition set_orderIndex (i : gmap Z OrderLocation) (b : SkipListOrderBook) : SkipListOrderBook :=
  mkSkipListOrderBook (sb_symbol b) (sb_bids b) (sb_asks b) i (sb_alloc b) (sb_seeds b).

Definition set_allocator (a : nat) (b : SkipListOrderBook) : SkipListOrderBook :=
  mkSkipListOrderBook (sb_symbol b) (sb_bids b) (sb_asks b) (sb_orderIndex b) a (sb_seeds b).

Section Engine.
Context `{!CoinFlips}.

(** ** Mutations *)

Fixpoint match_loop (fuel : nat) (takerSide : Side) (takerPrice : Z) (takerId : Z)
    (remainingQty : Z) (b : SkipListOrderBook) (fills : list Fill)
  : option (Z * SkipListOrderBook * list Fill) :=
  match fuel with
  | O => None
  | S fuel =>
      if 0 <? remainingQty then
        let side := opposite takerSide in
        node ← best (side_list side b);
        match node with
        | None => Some (remainingQty, b, fills)
        | Some a =>
            nd ← sl_heap (side_list side b) !! a;
            let bestPrice := nd_key nd in
            if match takerSide with
               | Buy => takerPrice <? bestPrice
               | Sell => bestPrice <? takerPrice
               end
            then Some (remainingQty, b, fills)
            else
              '(remainingQty, level, index, fills) ←
                 match_level (S (length (nd_value nd))) takerSide takerId remainingQty
                   (nd_value nd) (sb_orderIndex b) fills;
              l ← set_value (side_list side b) a level;
              l ← match level with
                  | [] => snd <$> remove (before side) l bestPrice
                  | _ => Some l
                  end;
              match_loop fuel takerSide takerPrice takerId remainingQty
                (set_side_list side l (set_orderIndex index b)) fills
        end
      else Some (remainingQty, b, fills)
  end.

Definition match_ (takerSide : Side) (takerPrice remainingQty takerId : Z) (b : SkipListOrderBook)
  : option (Z * SkipListOrderBook * list Fill) :=
  match_loop (S (getSize (side_list (opposite takerSide) b))) takerSide takerPrice takerId
    remainingQty b [].

(** Find the level's node, inserting an empty level first when there is
    none; push to its back; record the iterator. *)
Definition addResting (b : SkipListOrderBook) (o : Order) : option SkipListOrderBook :=
  let lt := before (o_side o) in
  let l := side_list (o_side o) b in
  node ← find lt l (o_price o);
  '(l, node) ← match node with
               | Some a => Some (l, Some a)
               | None =>
                   '(_, l) ← insert [] lt l (o_price o) [];
                   node ← find lt l (o_price o);
                   Some (l, node)
               end;
  a ← node;
  level ← value l a;
  let it := sb_alloc b in
  l ← set_value l a (level ++ [(it, o)]);
  Some (set_allocator (S it)
          (set_orderIndex (<[o_id o := mkLoc (o_side o) (o_price o) it]> (sb_orderIndex b))
             (set_side_list (o_side o) l b))).

Definition newOrder (b : SkipListOrderBook) (orderId : Z) (side : Side)
    (price quantity sequence : Z) : option (list Fill * SkipListOrderBook) :=
  if quantity <=? 0 then Some ([], b)
  else if bool_decide (is_Some (sb_orderIndex b !! orderId)) then Some ([], b)
  else
    '(remaining, b, fills) ← match_ side price quantity orderId b;
    if 0 <? remaining then
      b ← addResting b (mkOrder orderId side price remaining sequence);
      Some (fills, b)
    else Some (fills, b).

(** A location whose level is missing is skipped over here. *)
Definition cancelOrder (b : SkipListOrderBook) (orderId : Z) : option (bool * SkipListOrderBook) :=
  match sb_orderIndex b !! orderId with
  | None => Some (false, b)
  | Some loc =>
      let lt := before (loc_side loc) in
      let l := side_list (loc_side loc) b in
      node ← find lt l (loc_price loc);
      l ← match node with
          | None => Some l
          | Some a =>
              level ← value l a;
              level ← list_erase (loc_it loc) level;
              l ← set_value l a level;
              match level with
              | [] => snd <$> remove lt l (loc_price loc)
              | _ => Some l
              end
          end;
      Some (true, set_orderIndex (delete orderId (sb_orderIndex b)) (set_side_list (loc_side loc) l b))
  end.

Definition modifyOrder (b : SkipListOrderBook) (orderId newPrice newQuantity newSequence : Z)
  : option (bool * SkipListOrderBook) :=
  match sb_orderIndex b !! orderId with
  | None => Some (false, b)
  | Some loc =>
      '(_, b) ← cancelOrder b orderId;
      if 0 <? newQuantity then
        b ← addResting b (mkOrder orderId (loc_side loc) newPrice newQuantity newSequence);
        Some (true, b)
      else Some (true, b)
  end.

Definition addRestingOrder (b : SkipListOrderBook) (o : Order) : option SkipListOrderBook :=
  addResting b o.

Definition reset (b : SkipListOrderBook) (symbol : bytes) : SkipListOrderBook :=
  let k := sb_seeds b in
  mkSkipListOrderBook symbol (new_levels k) (new_levels (S k)) ∅ (sb_alloc b) (S (S k)).

Fixpoint rebuild (b : SkipListOrderBook) (orders : list Order) : option SkipListOrderBook :=
  match orders with
  | [] => Some b
  | o :: orders => b ← addRestingOrder b o; rebuild b orders
  end.
End Engine.

(** ** Queries *)

Definition allOrders (b : SkipListOrderBook) : option (list Order) :=
  mb ← entries (sb_bids b);
  ma ← entries (sb_asks b);
  Some ((snd <$> flat mb) ++ (snd <$> flat ma)).

Definition deref (it : nat) (b : SkipListOrderBook) : option Order :=
  mb ← entries (sb_bids b);
  ma ← entries (sb_asks b);
  snd <$> head (filter (fun nd => nd.1 = it) (flat mb ++ flat ma)).

Definition getOrder (b : SkipListOrderBook) (orderId : Z) : option (option Order) :=
  match sb_orderIndex b !! orderId with
  | None => Some None
  | Some loc => Some <$> deref (loc_it loc) b
  end.

Definition orderCount (b : SkipListOrderBook) : Z := Z.of_nat (size (sb_orderIndex b)).

(** The loop shared by [bids] and [asks]. *)
Fixpoint depth_nodes (fuel : nat) (h : gmap nat (Node LevelList)) (maxLevels : Z)
    (out : list PriceLevel) (n : option nat) : option (list PriceLevel) :=
  match n with
  | None => Some out
  | Some a =>
      match fuel with
      | O => None
      | S fuel =>
          nd ← h !! a;
          let out := out ++ [sum_level (nd_key nd) (nd_value nd)] in
          if negb (maxLevels =? 0) && (maxLevels <=? Z.of_nat (length out)) then Some out
          else next ← nd_forward nd !! 0%nat; depth_nodes fuel h maxLevels out next
      end
  end.

Definition depth (s : Side) (b : SkipListOrderBook) (maxLevels : Z) : option (list PriceLevel) :=
  let l := side_list s b in
  n ← best l; depth_nodes (getSize l) (sl_heap l) maxLevels [] n.
Definition bids (b : SkipListOrderBook) (maxLevels : Z) : option (list PriceLevel) :=
  depth Buy b maxLevels.
Definition asks (b : SkipListOrderBook) (maxLevels : Z) : option (list PriceLevel) :=
  depth Sell b maxLevels.

Definition best_price (s : Side) (b : SkipListOrderBook) : option (option Z) :=
  n ← best (side_list s b);
  match n with
  | None => Some None
  | Some a => nd ← sl_heap (side_list s b) !! a; Some (Some (nd_key nd))
  end.
Definition bestBid (b : SkipListOrderBook) : option (option Z) := best_price Buy b.
Definition bestAsk (b : SkipListOrderBook) : option (option Z) := best_price Sell b.

(** The queries of the interface return values; [depth_sim],
    [best_price_sim] and [allOrders_sim] show the defaults are not used. *)
#[global] Instance SkipListOrderBook_IOrderBook `{!CoinFlips} : IOrderBook SkipListOrderBook := {|
  ib_newOrder := newOrder;
  ib_cancelOrder := cancelOrder;
  ib_modifyOrder := modifyOrder;
  ib_getOrder := getOrder;
  ib_orderCount := orderCount;
  ib_symbol := sb_symbol;
  ib_bids := fun b n => default [] (bids b n);
  ib_asks := fun b n => default [] (asks b n);
  ib_bestBid := fun b => default None (bestBid b);
  ib_bestAsk := fun b => default None (bestAsk b);
  ib_addRestingOrder := addRestingOrder;
  ib_allOrders := fun b => default [] (allOrders b);
  ib_reset := fun b sym => Some (reset b sym)
|}.

(** ** The [std::map] book a skip-list book stands for *)

Definition stands_for (sb : SkipListOrderBook) (mb : MapOrderBook) : Prop :=
  (forall s, represents (before s) (side_list s sb) (levels s mb))
  /\ sb_symbol sb = mb_symbol mb /\ sb_orderIndex sb = mb_orderIndex mb
  /\ sb_alloc sb = mb_alloc mb.

Lemma stands_for_set s l m idx sb mb :
  stands_for sb mb -> represents (before s) l m ->
  stands_for (set_side_list s l (set_orderIndex idx sb)) (set_levels s m (set_index idx mb)).
Proof.
  intros (H1 & H2 & H3 & H4) Hl. split.
  - intros s'. specialize (H1 s'). by destruct s, s'.
  - by destruct s.
Qed.

Section Simulation.
Context `{!CoinFlips}.

Lemma find_side s (l : SkipList LevelList) m k :
  represents (before s) l m ->
  match sm_find (before s) k m with
  | None => find (before s) l k = Some None
  | Some v => exists a, find (before s) l k = Some (Some a) /\ value l a = Some v
      /\ forall v', exists l', set_value l a v' = Some l'
           /\ represents (before s) l' (sm_alter (before s) (fun _ => v') k m)
  end.
Proof. apply find_represents; [apply before_total|apply before_irrefl|apply before_trans]. Qed.

Lemma remove_side s (l : SkipList LevelList) m k :
  represents (before s) l m ->
  exists b l', remove (before s) l k = Some (b, l')
    /\ represents (before s) l' (sm_erase (before s) k m).
Proof.
  intros R. destruct (remove_represents (before s) (before_total s) (before_irrefl s) (before_trans s)
                        l m k R) as (l' & E & R'). eauto.
Qed.

Lemma insert_side s l m k (v : LevelList) :
  represents (before s) l m -> sm_find (before s) k m = None ->
  exists l', insert [] (before s) l k v = Some (true, l')
    /\ represents (before s) l' (sm_index (before s) v id k m).
Proof.
  intros R E. pose proof (insert_represents (before s) (before_total s) (before_irrefl s)
    (before_trans s) l m k v [] R) as Hi. by rewrite E in Hi.
Qed.

Lemma sorted_side s (l : SkipList LevelList) m : represents (before s) l m -> sm_sorted (before s) m.
Proof. apply represents_sorted; [apply before_total|apply before_irrefl|apply before_trans]. Qed.

Lemma entries_side s (l : SkipList LevelList) m :
  represents (before s) l m -> entries l = Some m /\ getSize l = length m.
Proof. apply entries_represents; [apply before_total|apply before_irrefl|apply before_trans]. Qed.

Lemma best_side s (l : SkipList LevelList) m :
  represents (before s) l m ->
  match m with
  | [] => best l = Some None
  | (k, v) :: m' => exists a nd, best l = Some (Some a) /\ sl_heap l !! a = Some nd
      /\ nd_key nd = k /\ nd_value nd = v
      /\ forall v', exists l', set_value l a v' = Some l' /\ represents (before s) l' ((k, v') :: m')
  end.
Proof. apply best_represents; [apply before_total|apply before_irrefl|apply before_trans]. Qed.

Lemma new_side s seed : represents (before s) (new_levels seed) [].
Proof. apply new_represents; [apply before_total|apply before_irrefl|apply before_trans]. Qed.

Lemma addResting_sim sb mb o :
  stands_for sb mb ->
  exists sb', addResting sb o = Some sb' /\ stands_for sb' (MapOrderBook.addResting mb o).
Proof.
  intros Hst. pose proof Hst as (Hs & _ & Hi & Ha). unfold addResting, MapOrderBook.addResting.
  set (s := o_side o). specialize (Hs s). rewrite Hi, Ha.
  set (f := fun level => level ++ [(mb_alloc mb, o)]).
  assert (forall l a v m', value l a = Some v ->
    (forall v', exists l', set_value l a v' = Some l'
       /\ represents (before s) l' (sm_alter (before s) (fun _ => v') (o_price o) m')) ->
    sm_index (before s) [] f (o_price o) (levels s mb) = sm_alter (before s) (fun _ => f v) (o_price o) m' ->
    exists sb', (level ← value l a; l ← set_value l a (f level);
      Some (set_allocator (S (mb_alloc mb))
        (set_orderIndex (<[o_id o := mkLoc s (o_price o) (mb_alloc mb)]> (mb_orderIndex mb))
           (set_side_list s l sb)))) = Some sb'
      /\ stands_for sb' (set_alloc (S (mb_alloc mb))
           (set_index (<[o_id o := mkLoc s (o_price o) (mb_alloc mb)]> (mb_orderIndex mb))
              (set_levels s (sm_index (before s) [] f (o_price o) (levels s mb)) mb)))) as Hpush.
  { intros l a v m' Hv Hset ->. rewrite Hv. cbn [mbind option_bind].
    destruct (Hset (f v)) as (l' & -> & R'). cbn [mbind option_bind]. eexists. split; [done|].
    destruct (stands_for_set s l' _ (<[o_id o := mkLoc s (o_price o) (mb_alloc mb)]> (mb_orderIndex mb))
      _ _ Hst R') as (G1 & G2 & G3 & _).
    clear -G1 G2 G3. destruct s; (split; [|done]); intros s'; specialize (G1 s'); by destruct s'. }
  pose proof (find_side s _ _ (o_price o) Hs) as Hf. pose proof (sorted_side _ _ _ Hs) as Hsort.
  rewrite (sm_index_alter (before s) (before_irrefl s) (before_trans s)) in Hpush by done.
  rewrite (sm_index_alter (before s) (before_irrefl s) (before_trans s)) by done.
  destruct (sm_find (before s) (o_price o) (levels s mb)) as [v|] eqn:E.
  - destruct Hf as (a & -> & Hv & Hset). cbn [mbind option_bind]. by eapply Hpush.
  - rewrite Hf. cbn [mbind option_bind]. destruct (insert_side s _ _ _ [] Hs E) as (l' & -> & R').
    cbn [mbind option_bind]. pose proof (find_side s _ _ (o_price o) R') as Hf'.
    rewrite (sm_find_index _ (before_irrefl s)) in Hf' by done.
    destruct Hf' as (a & -> & Hv & Hset). cbn [mbind option_bind]. by eapply Hpush.
Qed.

(** An emptied level is removed; any other is left in place. *)
Lemma drop_empty_sim s (l : SkipList LevelList) m k (level : LevelList) :
  represents (before s) l m ->
  exists l', match level with [] => snd <$> remove (before s) l k | _ => Some l end = Some l'
    /\ represents (before s) l' (match level with [] => sm_erase (before s) k m | _ => m end).
Proof.
  intros R. destruct level; [|by exists l].
  destruct (remove_side s l m k R) as (b & l' & -> & R'). by exists l'.
Qed.

Lemma match_loop_sim fuel s tp tid : forall rem sb mb fills r mb' fills',
  stands_for sb mb ->
  MapOrderBook.match_loop fuel s tp tid rem mb fills = Some (r, mb', fills') ->
  exists sb', match_loop fuel s tp tid rem sb fills = Some (r, sb', fills') /\ stands_for sb' mb'.
Proof.
  induction fuel as [|fuel IH]; intros rem sb mb fills r mb' fills' Hst E; [done|].
  cbn [match_loop MapOrderBook.match_loop] in *. pose proof Hst as (Hs & _ & Hi & _).
  destruct (0 <? rem); [|simplify_eq; by exists sb].
  pose proof (best_side _ _ _ (Hs (opposite s))) as Hb.
  destruct (levels (opposite s) mb) as [|[bp level] others]; [simplify_eq; rewrite Hb; by exists sb|].
  destruct Hb as (a & nd & -> & Hnd & Hk & Hv & Hset). cbn [mbind option_bind].
  rewrite Hnd. cbn [mbind option_bind]. rewrite Hk, Hv, Hi.
  destruct (match s with Buy => _ | Sell => _ end); [simplify_eq; by exists sb|].
  destruct (match_level _ _ _ _ _ _ _) as [[[[rem' level'] idx'] fs']|]; [|done].
  cbn [mbind option_bind] in *. destruct (Hset level') as (l1 & -> & R1). cbn [mbind option_bind].
  destruct (drop_empty_sim _ _ _ bp level' R1) as (l2 & -> & R2). cbn [mbind option_bind].
  eapply IH; [|exact E]. by apply stands_for_set.
Qed.

Lemma newOrder_sim sb mb id s p q seq fs mb' :
  stands_for sb mb -> MapOrderBook.newOrder mb id s p q seq = Some (fs, mb') ->
  exists sb', newOrder sb id s p q seq = Some (fs, sb') /\ stands_for sb' mb'.
Proof.
  intros Hst E. unfold newOrder, MapOrderBook.newOrder in *. pose proof Hst as (Hs & _ & Hi & _).
  rewrite Hi. destruct (q <=? 0); [simplify_eq; by exists sb|].
  case_bool_decide; [simplify_eq; by exists sb|].
  destruct (MapOrderBook.match_ s p q id mb) as [[[r mb1] fs1]|] eqn:Em; [|done].
  unfold MapOrderBook.match_ in Em. unfold match_.
  rewrite (proj2 (entries_side _ _ _ (Hs (opposite s)))).
  destruct (match_loop_sim _ _ _ _ _ _ _ _ _ _ _ Hst Em) as (sb1 & -> & Hst1).
  cbn [mbind option_bind] in *. injection E as <- <-.
  destruct (0 <? r); [|by exists sb1].
  destruct (addResting_sim sb1 mb1 (mkOrder id s p r seq) Hst1) as (sb2 & -> & Hst2). by exists sb2.
Qed.

Lemma cancelOrder_sim sb mb id r mb' :
  stands_for sb mb -> MapOrderBook.cancelOrder mb id = Some (r, mb') ->
  exists sb', cancelOrder sb id = Some (r, sb') /\ stands_for sb' mb'.
Proof.
  intros Hst E. unfold cancelOrder, MapOrderBook.cancelOrder in *. pose proof Hst as (Hs & _ & Hi & _).
  rewrite Hi. destruct (mb_orderIndex mb !! id) as [loc|]; [|simplify_eq; by exists sb].
  pose proof (find_side _ _ _ (loc_price loc) (Hs (loc_side loc))) as Hf.
  destruct (sm_find _ _ _) as [level|]; [|done]. cbn [mbind option_bind] in E.
  destruct Hf as (a & -> & Hv & Hset). cbn [mbind option_bind]. rewrite Hv. cbn [mbind option_bind].
  destruct (list_erase _ level) as [level'|]; [|done]. cbn [mbind option_bind] in *.
  destruct (Hset level') as (l1 & -> & R1). cbn [mbind option_bind].
  destruct (drop_empty_sim _ _ _ (loc_price loc) level' R1) as (l2 & -> & R2). cbn [mbind option_bind].
  injection E as <- <-. eexists. split; [done|].
  rewrite set_index_levels.
  replace (set_orderIndex _ (set_side_list _ _ _)) with
    (set_side_list (loc_side loc) l2 (set_orderIndex (delete id (mb_orderIndex mb)) sb))
    by (by destruct (loc_side loc)).
  by apply stands_for_set.
Qed.

Lemma modifyOrder_sim sb mb id np nq nseq r mb' :
  stands_for sb mb -> MapOrderBook.modifyOrder mb id np nq nseq = Some (r, mb') ->
  exists sb', modifyOrder sb id np nq nseq = Some (r, sb') /\ stands_for sb' mb'.
Proof.
  intros Hst E. unfold modifyOrder, MapOrderBook.modifyOrder in *. pose proof Hst as (_ & _ & Hi & _).
  rewrite Hi. destruct (mb_orderIndex mb !! id) as [loc|]; [|simplify_eq; by exists sb].
  destruct (MapOrderBook.cancelOrder mb id) as [[b mb1]|] eqn:Ec; [|done].
  destruct (cancelOrder_sim _ _ _ _ _ Hst Ec) as (sb1 & -> & Hst1). cbn [mbind option_bind] in *.
  injection E as <- <-. destruct (0 <? nq); [|by exists sb1].
  destruct (addResting_sim sb1 mb1 (mkOrder id (loc_side loc) np nq nseq) Hst1) as (sb2 & -> & Hst2).
  by exists sb2.
Qed.

Lemma reset_sim sb mb sym :
  sb_alloc sb = mb_alloc mb -> stands_for (reset sb sym) (MapOrderBook.reset mb sym).
Proof. intros Ha. split; [intros []; apply new_side|done]. Qed.

Lemma new_sim sym : stands_for (new_SkipListOrderBook sym) (new_MapOrderBook sym).
Proof. split; [intros []; apply new_side|done]. Qed.

(** ** The queries *)

Lemma depth_nodes_scan h n : forall fuel out a m,
  scan fuel h a = Some m -> depth_nodes fuel h n out a = Some (depth_loop n out m).
Proof.
  induction fuel as [|fuel IH]; intros out [a|] m E; cbn [scan depth_nodes] in *; simplify_eq; try done.
  destruct (h !! a) as [nd|]; [|done]. cbn [mbind option_bind] in *.
  destruct (nd_forward nd !! 0%nat) as [next|]; [|done]. cbn [mbind option_bind] in *.
  destruct (scan fuel h next) as [m'|] eqn:Es; [|done]. cbn [mbind option_bind] in E.
  injection E as <-. cbn [depth_loop]. destruct (_ && _); [done|]. cbn [mbind option_bind].
  by apply IH.
Qed.

Lemma depth_sim sb mb s n :
  stands_for sb mb -> depth s sb n = Some (depth_loop n [] (levels s mb)).
Proof.
  intros (Hs & _). destruct (entries_side _ _ _ (Hs s)) as [E _]. unfold depth, entries in *.
  destruct (best _) as [a|]; [|done]. cbn [mbind option_bind] in *. by apply depth_nodes_scan.
Qed.

Lemma best_price_sim sb mb s :
  stands_for sb mb -> best_price s sb = Some (fst <$> head (levels s mb)).
Proof.
  intros (Hs & _). pose proof (best_side _ _ _ (Hs s)) as Hb. unfold best_price.
  destruct (levels s mb) as [|[k v] m]; [by rewrite Hb|].
  destruct Hb as (a & nd & -> & Hnd & <- & _). cbn [mbind option_bind]. by rewrite Hnd.
Qed.

Lemma allOrders_sim sb mb : stands_for sb mb -> allOrders sb = Some (MapOrderBook.allOrders mb).
Proof.
  intros (Hs & _). unfold allOrders.
  rewrite (proj1 (entries_side Buy (sb_bids sb) _ (Hs Buy))).
  by rewrite (proj1 (entries_side Sell (sb_asks sb) _ (Hs Sell))).
Qed.

Lemma getOrder_sim sb mb id : stands_for sb mb -> getOrder sb id = MapOrderBook.getOrder mb id.
Proof.
  intros (Hs & _ & Hi & _). unfold getOrder, MapOrderBook.getOrder, deref. rewrite Hi.
  destruct (mb_orderIndex mb !! id); [|done].
  rewrite (proj1 (entries_side Buy (sb_bids sb) _ (Hs Buy))).
  by rewrite (proj1 (entries_side Sell (sb_asks sb) _ (Hs Sell))).
Qed.

(** ** The contract *)

(** The [std::map] book with the same entries. *)
Definition to_map (sb : SkipListOrderBook) : MapOrderBook :=
  mkMapOrderBook (sb_symbol sb) (default [] (entries (sb_bids sb)))
    (default [] (entries (sb_asks sb))) (sb_orderIndex sb) (sb_alloc sb).

Lemma to_map_unique sb mb : stands_for sb mb -> to_map sb = mb.
Proof.
  intros (Hs & H1 & H2 & H3). destruct mb. unfold to_map.
  destruct (entries_side _ _ _ (Hs Buy)) as [E _]. destruct (entries_side _ _ _ (Hs Sell)) as [E' _].
  simpl in *. by rewrite E, E', H1, H2, H3.
Qed.

Definition sbook_ok (sb : SkipListOrderBook) : Prop :=
  stands_for sb (to_map sb) /\ book_ok (to_map sb).
Definition sbook_abs (sb : SkipListOrderBook) : ABook := book_abs (to_map sb).

Lemma sbook_intro sb mb : stands_for sb mb -> book_ok mb -> sbook_ok sb /\ sbook_abs sb = book_abs mb.
Proof. intros Hst Hok. unfold sbook_ok, sbook_abs. by rewrite (to_map_unique _ _ Hst). Qed.

#[global] Program Instance SkipListOrderBook_laws : IOrderBookLaws SkipListOrderBook := {|
  ib_ok := sbook_ok;
  ib_abs := sbook_abs
|}.
Next Obligation. intros b [_ Hok]. by apply book_ok_abs. Qed.
Next Obligation.
  intros b id s p q seq [Hst Hok] H1 H2 H3 H4.
  destruct (newOrder_spec _ id s p q seq Hok H1 H2 H3 H4) as (mb' & E & Hok' & Ha).
  destruct (newOrder_sim _ _ _ _ _ _ _ _ _ Hst E) as (sb' & E' & Hst').
  exists sb'. split; [exact E'|]. destruct (sbook_intro _ _ Hst' Hok') as [? ->]. done.
Qed.
Next Obligation.
  intros b id [Hst Hok]. destruct (cancelOrder_spec _ id Hok) as (mb' & E & Hok' & Ha).
  destruct (cancelOrder_sim _ _ _ _ _ Hst E) as (sb' & E' & Hst').
  exists sb'. split; [exact E'|]. destruct (sbook_intro _ _ Hst' Hok') as [? ->]. done.
Qed.
Next Obligation.
  intros b id np nq nseq [Hst Hok] H1 H2 H3 H4.
  destruct (modifyOrder_spec _ id np nq nseq Hok H1 H2 H3 H4) as (mb' & E & Hok' & Ha).
  destruct (modifyOrder_sim _ _ _ _ _ _ _ _ Hst E) as (sb' & E' & Hst').
  exists sb'. split; [exact E'|]. destruct (sbook_intro _ _ Hst' Hok') as [? ->]. done.
Qed.
Next Obligation.
  intros b id [Hst Hok]. cbn. rewrite (getOrder_sim _ _ _ Hst). by apply getOrder_spec.
Qed.
Next Obligation. intros b [Hst Hok]. by apply (orderCount_spec (to_map b)). Qed.
Next Obligation. done. Qed.
Next Obligation.
  intros b n [Hst Hok] Hn. cbn. unfold bids. rewrite (depth_sim _ _ _ _ Hst).
  by apply (depth_spec Buy).
Qed.
Next Obligation.
  intros b n [Hst Hok] Hn. cbn. unfold asks. rewrite (depth_sim _ _ _ _ Hst).
  by apply (depth_spec Sell).
Qed.
Next Obligation.
  intros b [Hst Hok]. cbn. unfold bestBid. rewrite (best_price_sim _ _ _ Hst).
  by apply (best_spec Buy).
Qed.
Next Obligation.
  intros b [Hst Hok]. cbn. unfold bestAsk. rewrite (best_price_sim _ _ _ Hst).
  by apply (best_spec Sell).
Qed.
Next Obligation.
  intros b o [Hst Hok] Ht Hq Hf. destruct (addResting_spec _ o Hok Ht Hq Hf) as [Hok' Ha].
  destruct (addResting_sim b _ o Hst) as (sb' & E' & Hst').
  exists sb'. split; [exact E'|]. destruct (sbook_intro _ _ Hst' Hok') as [? ->]. done.
Qed.
Next Obligation. intros b [Hst Hok]. cbn. by rewrite (allOrders_sim _ _ Hst). Qed.
Next Obligation.
  intros b sym. destruct (ib_reset_spec (to_map b) sym) as (mb' & E & Hok' & Ha).
  injection E as <-. exists (reset b sym). split; [done|].
  destruct (sbook_intro _ _ (reset_sim b (to_map b) sym eq_refl) Hok') as [? ->]. done.
Qed.
End Simulation.
