(* ===== verification/OrderProtocol.v ===== *)
(** * The order wire format

    Models [src/app/protocol/OrderProtocol.h] and [OrderProtocol.cpp]: the
    little-endian helpers, the command and result encoders, which write into
    a preallocated buffer at a moving offset, and the decoders, which check
    bounds, opcode and side.  A decoder that returns [false] is [None]; the
    out-parameters of one that returns [true] are the value.  The file's
    theorems say that a decoder accepts exactly the encodings. *)

From S2P Require Import Prelude IOrderBook.

(** ** Opcodes *)

Definition OP_NEW := 0x10.
Definition OP_CXL := 0x11.
Definition OP_MOD := 0x12.
Definition OP_SHARDED_NEW := 0x20.
Definition OP_SHARDED_CXL := 0x21.
Definition OP_SHARDED_MOD := 0x22.

(** ** Writers: the buffer and the offset, both updated in place *)

Definition writer : Type := bytes * nat.

(** [buf.resize(n)]: cut, or zero-filled to the new size. *)
Definition resize (n : nat) (buf : bytes) : bytes :=
  take n buf ++ replicate (n - length buf) 0.

(** [if (off + n > buf.size()) buf.resize(off + n)] *)
Definition grow (n : nat) (w : writer) : bytes :=
  if bool_decide (length w.1 < w.2 + n)%nat then resize (w.2 + n) w.1 else w.1.

(** [for (i = 0; i < n; ++i) buf[off + i] = f(i)] *)
Definition store_loop (f : nat -> Z) (n : nat) (off : nat) (buf : bytes) : bytes :=
  foldl (fun b i => <[(off + i)%nat := f i]> b) buf (seq 0 n).

Definition putU8 (w : writer) (v : Z) : writer :=
  (<[w.2 := v]> (grow 1 w), (w.2 + 1)%nat).

Definition putU32 (w : writer) (v : Z) : writer :=
  (store_loop (fun i => u8 (Z.land (Z.shiftr v (Z.of_nat i * 8)) 255)) 4 w.2 (grow 4 w),
   (w.2 + 4)%nat).

Definition putU64 (w : writer) (v : Z) : writer :=
  (store_loop (fun i => u8 (Z.land (Z.shiftr v (Z.of_nat i * 8)) 255)) 8 w.2 (grow 8 w),
   (w.2 + 8)%nat).

Definition putI64 (w : writer) (v : Z) : writer := putU64 w (u64 v).

Definition putStr (w : writer) (s : bytes) : writer :=
  let w := putU32 w (u32 (Z.of_nat (length s))) in
  (store_loop (fun i => u8 (nth i s 0)) (length s) w.2 (grow (length s) w),
   (w.2 + length s)%nat).

(** ** Readers *)

Definition getU8 : bytes -> nat -> option (Z * nat) := read_le 1.
Definition getU32 : bytes -> nat -> option (Z * nat) := read_le 4.
Definition getU64 : bytes -> nat -> option (Z * nat) := read_le 8.

Definition getI64 (buf : bytes) (off : nat) : option (Z * nat) :=
  '(u, off) ← getU64 buf off; Some (i64 u, off).

Definition getStr (buf : bytes) (off : nat) : option (bytes * nat) :=
  '(len, off) ← getU32 buf off; read_raw len buf off.

(** ** Command encoders *)

Definition encodeNew (orderId : Z) (side : Side) (price quantity : Z) : bytes :=
  let w := (replicate (1 + 8 + 1 + 8 + 8) 0, 0%nat) in
  let w := putU8 w OP_NEW in
  let w := putU64 w orderId in
  let w := putU8 w (side_to_u8 side) in
  let w := putI64 w price in
  let w := putI64 w quantity in
  w.1.

Definition encodeCancel (orderId : Z) : bytes :=
  let w := (replicate (1 + 8) 0, 0%nat) in
  let w := putU8 w OP_CXL in
  let w := putU64 w orderId in
  w.1.

Definition encodeModify (orderId newPrice newQuantity : Z) : bytes :=
  let w := (replicate (1 + 8 + 8 + 8) 0, 0%nat) in
  let w := putU8 w OP_MOD in
  let w := putU64 w orderId in
  let w := putI64 w newPrice in
  let w := putI64 w newQuantity in
  w.1.

Definition encodeShardedNew (symbol : bytes) (orderId : Z) (side : Side)
    (price quantity : Z) : bytes :=
  let w := (replicate (1 + 4 + length symbol + 8 + 1 + 8 + 8) 0, 0%nat) in
  let w := putU8 w OP_SHARDED_NEW in
  let w := putStr w symbol in
  let w := putU64 w orderId in
  let w := putU8 w (side_to_u8 side) in
  let w := putI64 w price in
  let w := putI64 w quantity in
  w.1.

Definition encodeShardedCancel (symbol : bytes) (orderId : Z) : bytes :=
  let w := (replicate (1 + 4 + length symbol + 8) 0, 0%nat) in
  let w := putU8 w OP_SHARDED_CXL in
  let w := putStr w symbol in
  let w := putU64 w orderId in
  w.1.

Definition encodeShardedModify (symbol : bytes) (orderId newPrice newQuantity : Z) : bytes :=
  let w := (replicate (1 + 4 + length symbol + 8 + 8 + 8) 0, 0%nat) in
  let w := putU8 w OP_SHARDED_MOD in
  let w := putStr w symbol in
  let w := putU64 w orderId in
  let w := putI64 w newPrice in
  let w := putI64 w newQuantity in
  w.1.

(** ** Command decoders *)

Definition decodeNew (data : bytes) : option (Z * Side * Z * Z) :=
  '(op, off) ← getU8 data 0;
  if negb (op =? OP_NEW) then None else
  '(orderId, off) ← getU64 data off;
  '(s, off) ← getU8 data off;
  if 1 <? s then None else
  let side := side_of_u8 s in
  '(price, off) ← getI64 data off;
  '(quantity, off) ← getI64 data off;
  Some (orderId, side, price, quantity).

Definition decodeCancel (data : bytes) : option Z :=
  '(op, off) ← getU8 data 0;
  if negb (op =? OP_CXL) then None else
  '(orderId, off) ← getU64 data off;
  Some orderId.

Definition decodeModify (data : bytes) : option (Z * Z * Z) :=
  '(op, off) ← getU8 data 0;
  if negb (op =? OP_MOD) then None else
  '(orderId, off) ← getU64 data off;
  '(newPrice, off) ← getI64 data off;
  '(newQuantity, off) ← getI64 data off;
  Some (orderId, newPrice, newQuantity).

Definition decodeShardedNew (data : bytes) : option (bytes * Z * Side * Z * Z) :=
  '(op, off) ← getU8 data 0;
  if negb (op =? OP_SHARDED_NEW) then None else
  '(symbol, off) ← getStr data off;
  '(orderId, off) ← getU64 data off;
  '(s, off) ← getU8 data off;
  if 1 <? s then None else
  let side := side_of_u8 s in
  '(price, off) ← getI64 data off;
  '(quantity, off) ← getI64 data off;
  Some (symbol, orderId, side, price, quantity).

Definition decodeShardedCancel (data : bytes) : option (bytes * Z) :=
  '(op, off) ← getU8 data 0;
  if negb (op =? OP_SHARDED_CXL) then None else
  '(symbol, off) ← getStr data off;
  '(orderId, off) ← getU64 data off;
  Some (symbol, orderId).

Definition decodeShardedModify (data : bytes) : option (bytes * Z * Z * Z) :=
  '(op, off) ← getU8 data 0;
  if negb (op =? OP_SHARDED_MOD) then None else
  '(symbol, off) ← getStr data off;
  '(orderId, off) ← getU64 data off;
  '(newPrice, off) ← getI64 data off;
  '(newQuantity, off) ← getI64 data off;
  Some (symbol, orderId, newPrice, newQuantity).

(** ** Results *)

Definition put_fill (w : writer) (f : Fill) : writer :=
  let w := putU64 w (f_makerOrderId f) in
  let w := putU64 w (f_takerOrderId f) in
  let w := putI64 w (f_price f) in
  let w := putI64 w (f_quantity f) in
  putU8 w (side_to_u8 (f_takerSide f)).

Definition encodeNewResult (fills : list Fill) (rested : bool) (remainingQty : Z) : bytes :=
  let w := (replicate (1 + 4 + length fills * (8 + 8 + 8 + 8 + 1) + 1 + 8) 0, 0%nat) in
  let w := putU8 w 1 in
  let w := putU32 w (u32 (Z.of_nat (length fills))) in
  let w := foldl put_fill w fills in
  let w := putU8 w (if rested then 1 else 0) in
  let w := putI64 w remainingQty in
  w.1.

(** A decoded [Fill].  [static_cast<Side>(s)] is not checked here, unlike in
    [decodeNew], so the taker's side is kept as its underlying [uint8_t]: a
    byte above 1 is a [Side] that is neither enumerator. *)
Record WireFill := mkWireFill {
  wf_makerOrderId : Z;
  wf_takerOrderId : Z;
  wf_price : Z;
  wf_quantity : Z;
  wf_takerSide : Z;
}.

Definition wire_fill (f : Fill) : WireFill :=
  mkWireFill (f_makerOrderId f) (f_takerOrderId f) (f_price f) (f_quantity f)
    (side_to_u8 (f_takerSide f)).

(** One turn of the decoding loop. *)
Definition get_fill (data : bytes) (off : nat) : option (WireFill * nat) :=
  '(makerOrderId, off) ← getU64 data off;
  '(takerOrderId, off) ← getU64 data off;
  '(price, off) ← getI64 data off;
  '(quantity, off) ← getI64 data off;
  '(s, off) ← getU8 data off;
  Some (mkWireFill makerOrderId takerOrderId price quantity s, off).

(** [for (i = 0; i < fillCount; ++i)], [n] turns to go.  A turn consumes 33
    bytes or leaves the loop, so one unit of fuel per byte is enough
    ([get_fills_fuel]) however large the count. *)
Fixpoint get_fills (fuel : nat) (n : Z) (data : bytes) (off : nat) (fills : list WireFill)
    : option (list WireFill * nat) :=
  if n <=? 0 then Some (fills, off) else
  match fuel with
  | O => None
  | S fuel =>
      '(f, off) ← get_fill data off;
      get_fills fuel (n - 1) data off (fills ++ [f])
  end.

(** [fills.reserve(fillCount)] is taken to succeed; the replies decoded are
    those of [encodeNewResult], whose count is that of their fills. *)
Definition decodeNewResult (data : bytes) : option (list WireFill * bool * Z) :=
  '(ok, off) ← getU8 data 0;
  if ok =? 0 then None else
  '(fillCount, off) ← getU32 data off;
  '(fills, off) ← get_fills (S (length data)) fillCount data off [];
  '(r, off) ← getU8 data off;
  '(remainingQty, off) ← getI64 data off;
  Some (fills, negb (r =? 0), remainingQty).

Definition encodeSimpleResult (ok : bool) : bytes := [if ok then 1 else 0].

Definition decodeSimpleResult (data : bytes) : option bool :=
  match data with
  | [] => None
  | b :: _ => Some (negb (b =? 0))
  end.

(** ** The writer invariant

    [wrote w out]: what the writer has put so far, up to the offset, is
    [out], and the offset is inside the buffer. *)

Definition wrote (w : writer) (out : bytes) : Prop :=
  w.2 = length out /\ take (length out) w.1 = out.

Lemma wrote_length w out : wrote w out -> (w.2 <= length w.1)%nat.
Proof.
  intros [-> H]. apply (f_equal length) in H. rewrite length_take in H. lia.
Qed.

Lemma wrote_new n : wrote (replicate n 0, 0%nat) [].
Proof. by split. Qed.

(** A buffer filled to its end is what was written. *)
Lemma wrote_full w out : wrote w out -> length w.1 = length out -> w.1 = out.
Proof. intros [_ H] Hl. rewrite <- Hl in H. by rewrite take_ge in H. Qed.

Lemma grow_wrote n w out :
  wrote w out ->
  wrote (grow n w, w.2) out /\ length (grow n w) = (length w.1 `max` (length out + n))%nat.
Proof.
  intros H. pose proof (wrote_length _ _ H) as Hl. destruct H as [Hoff H].
  unfold grow, wrote, resize. rewrite Hoff in *. case_bool_decide; simpl; [|split; [done|lia]].
  rewrite length_app, length_replicate, length_take. split; [|lia]. split; [done|].
  rewrite take_app_le by (rewrite length_take; lia).
  rewrite take_take. by replace (_ `min` _)%nat with (length out) by lia.
Qed.

Lemma store_loop_eq f n off buf :
  (off + n <= length buf)%nat ->
  store_loop f n off buf = take off buf ++ (f <$> seq 0 n) ++ drop (off + n) buf.
Proof.
  intros H. unfold store_loop. induction n as [|n IH].
  - simpl. rewrite Nat.add_0_r. by rewrite take_drop.
  - rewrite seq_S, foldl_app, fmap_app, IH by lia. simpl.
    destruct (lookup_lt_is_Some_2 buf (off + n)) as [x Hx]; [lia|].
    rewrite (drop_S buf x (off + n)) by done.
    rewrite !app_assoc. rewrite insert_app_r_alt;
      rewrite length_app, length_take, length_fmap, length_seq; [|lia].
    replace (off + n - _)%nat with 0%nat by lia. simpl. rewrite <- !app_assoc. simpl.
    by replace (S (off + n)) with (off + S n)%nat by lia.
Qed.

Lemma wrote_store f n w out :
  wrote w out ->
  wrote (store_loop f n w.2 (grow n w), (w.2 + n)%nat) (out ++ (f <$> seq 0 n))
  /\ length (store_loop f n w.2 (grow n w)) = (length w.1 `max` (length out + n))%nat.
Proof.
  intros H. destruct (grow_wrote n _ _ H) as [[Ho Hg] Hl]. simpl in Ho, Hg.
  rewrite Ho, store_loop_eq by lia. rewrite Hg. split.
  - unfold wrote. simpl. rewrite length_app, length_fmap, length_seq. split; [done|].
    rewrite app_assoc, take_app_le by (rewrite length_app, length_fmap, length_seq; lia).
    apply take_ge. rewrite length_app, length_fmap, length_seq. lia.
  - rewrite !length_app, length_drop, length_fmap, length_seq. lia.
Qed.

(** The invariant with the size the buffer has: each write adds its bytes and
    grows the buffer only past its end. *)
Definition wrote_in (cap : nat) (w : writer) (out : bytes) : Prop :=
  wrote w out /\ length w.1 = (cap `max` length out)%nat.

Lemma u8_land v : u8 (Z.land v 255) = Z.land v 255.
Proof. change 255 with (Z.ones 8). rewrite Z.land_ones by lia. apply Z.mod_mod. lia. Qed.

Lemma put_le_u8 n v :
  (fun i => u8 (Z.land (Z.shiftr v (Z.of_nat i * 8)) 255)) <$> seq 0 n = put_le n v.
Proof. apply list_fmap_ext. intros. apply u8_land. Qed.

Lemma wrote_in_putU8 cap w out v :
  wrote_in cap w out -> wrote_in cap (putU8 w v) (out ++ [v]).
Proof.
  intros [H Hl]. destruct (wrote_store (fun _ => v) 1 w out H) as [H1 H2].
  unfold store_loop in H1, H2. simpl in H1, H2. rewrite Nat.add_0_r in *.
  split; [exact H1|].
  rewrite length_app. simpl in *. rewrite ?length_put_le. lia.
Qed.

Lemma wrote_in_putU32 cap w out v :
  wrote_in cap w out ->
  wrote_in cap (putU32 w v) (out ++ put_le 4 v).
Proof.
  intros [H Hl].
  destruct (wrote_store (fun i => u8 (Z.land (Z.shiftr v (Z.of_nat i * 8)) 255)) 4 w out H)
    as [H1 H2]. rewrite put_le_u8 in H1. split; [exact H1|].
  rewrite length_app. simpl in *. rewrite ?length_put_le. lia.
Qed.

Lemma wrote_in_putU64 cap w out v :
  wrote_in cap w out ->
  wrote_in cap (putU64 w v) (out ++ put_le 8 v).
Proof.
  intros [H Hl].
  destruct (wrote_store (fun i => u8 (Z.land (Z.shiftr v (Z.of_nat i * 8)) 255)) 8 w out H)
    as [H1 H2]. rewrite put_le_u8 in H1. split; [exact H1|].
  rewrite length_app. simpl in *. rewrite ?length_put_le. lia.
Qed.

(** The encodings as concatenations. *)
Definition enc_i64 (v : Z) : bytes := put_le 8 (u64 v).
Definition enc_str (s : bytes) : bytes := put_le 4 (u32 (Z.of_nat (length s))) ++ s.

Lemma wrote_in_putI64 cap w out v :
  wrote_in cap w out ->
  wrote_in cap (putI64 w v) (out ++ enc_i64 v).
Proof. apply wrote_in_putU64. Qed.

Lemma bytes_nth_seq (s : bytes) :
  bytes_ok s -> (fun i => u8 (nth i s 0)) <$> seq 0 (length s) = s.
Proof.
  intros Hs. apply list_eq_same_length with (length s); [done|by rewrite length_fmap, length_seq|].
  intros i x y Hi. rewrite list_lookup_fmap, lookup_seq_lt by done. simpl. intros Hx Hy.
  simplify_eq. apply nth_lookup_Some with (d := 0) in Hy as Hn. rewrite Hn.
  apply Z.mod_small. exact (Forall_lookup_1 _ _ _ _ Hs Hy).
Qed.

Lemma wrote_in_putStr cap w out s :
  bytes_ok s -> wrote_in cap w out ->
  wrote_in cap (putStr w s) (out ++ enc_str s).
Proof.
  intros Hs H. unfold putStr, enc_str.
  apply (wrote_in_putU32 _ _ _ (u32 (Z.of_nat (length s)))) in H as [H Hl].
  destruct (wrote_store (fun i => u8 (nth i s 0)) (length s) _ _ H) as [H1 H2].
  rewrite bytes_nth_seq, <- app_assoc in H1 by done. split; [exact H1|].
  etransitivity; [exact H2|]. rewrite Hl, !length_app, length_put_le. lia.
Qed.

Lemma wrote_in_new cap : wrote_in cap (replicate cap 0, 0%nat) [].
Proof. split; [apply wrote_new|]. simpl. rewrite length_replicate. lia. Qed.

Lemma wrote_in_full cap w out out' :
  wrote_in cap w out' -> out' = out -> length out = cap -> w.1 = out.
Proof. intros [H Hl] -> Hc. apply wrote_full; [done|lia]. Qed.

Lemma length_enc_i64 v : length (enc_i64 v) = 8%nat.
Proof. apply length_put_le. Qed.
Lemma length_enc_str s : length (enc_str s) = (4 + length s)%nat.
Proof. unfold enc_str. by rewrite length_app, length_put_le. Qed.

Create Rewrite HintDb wire.
#[export] Hint Rewrite @length_app length_put_le length_enc_i64 length_enc_str @length_nil
  @length_cons : wire.

(** Run the writes of an encoder one after the other. *)
Ltac write_step :=
  lazymatch goal with
  | |- wrote_in _ (putI64 _ _) _ => apply wrote_in_putI64
  | |- wrote_in _ (putU64 _ _) _ => apply wrote_in_putU64
  | |- wrote_in _ (putU32 _ _) _ => apply wrote_in_putU32
  | |- wrote_in _ (putU8 _ _) _ => apply wrote_in_putU8
  | |- wrote_in _ (putStr _ _) _ => apply wrote_in_putStr; [assumption|..]
  end.
Ltac write_all cap :=
  eapply (wrote_in_full cap);
  [repeat write_step; apply wrote_in_new
  |rewrite <- ?app_assoc; reflexivity|autorewrite with wire; lia].

(** ** The encoders as concatenations *)

Lemma encodeNew_eq id s p q :
  encodeNew id s p q
  = [OP_NEW] ++ put_le 8 id ++ [side_to_u8 s] ++ enc_i64 p ++ enc_i64 q.
Proof. unfold encodeNew. cbv zeta. write_all (1 + 8 + 1 + 8 + 8)%nat. Qed.

Lemma encodeCancel_eq id : encodeCancel id = [OP_CXL] ++ put_le 8 id.
Proof. unfold encodeCancel. cbv zeta. write_all (1 + 8)%nat. Qed.

Lemma encodeModify_eq id p q :
  encodeModify id p q = [OP_MOD] ++ put_le 8 id ++ enc_i64 p ++ enc_i64 q.
Proof. unfold encodeModify. cbv zeta. write_all (1 + 8 + 8 + 8)%nat. Qed.

Lemma encodeShardedNew_eq sym id s p q :
  bytes_ok sym ->
  encodeShardedNew sym id s p q
  = [OP_SHARDED_NEW] ++ enc_str sym ++ put_le 8 id ++ [side_to_u8 s] ++ enc_i64 p ++ enc_i64 q.
Proof. intros. unfold encodeShardedNew. cbv zeta. write_all (1 + 4 + length sym + 8 + 1 + 8 + 8)%nat. Qed.

Lemma encodeShardedCancel_eq sym id :
  bytes_ok sym -> encodeShardedCancel sym id = [OP_SHARDED_CXL] ++ enc_str sym ++ put_le 8 id.
Proof. intros. unfold encodeShardedCancel. cbv zeta. write_all (1 + 4 + length sym + 8)%nat. Qed.

Lemma encodeShardedModify_eq sym id p q :
  bytes_ok sym ->
  encodeShardedModify sym id p q
  = [OP_SHARDED_MOD] ++ enc_str sym ++ put_le 8 id ++ enc_i64 p ++ enc_i64 q.
Proof. intros. unfold encodeShardedModify. cbv zeta. write_all (1 + 4 + length sym + 8 + 8 + 8)%nat. Qed.

(** ** The readers are codecs *)

#[global] Instance getU8_codec : Codec getU8 (fun v => [v]) is_u8.
Proof.
  assert (forall v, is_u8 v -> put_le 1 v = [v]) as Hp.
  { intros v Hv. unfold put_le. simpl. rewrite Z.shiftr_0_r. change 255 with (Z.ones 8).
    rewrite Z.land_ones by lia. by rewrite Z.mod_small. }
  intros buf off v off' Hok. unfold getU8.
  rewrite (codec_iff (Codec := read_le_codec 1)) by done. rewrite length_put_le.
  split; intros (Hv & -> & rest & H); (split; [exact Hv|]); (split; [done|]); exists rest;
    [rewrite <- Hp|rewrite Hp]; done.
Qed.

#[global] Instance getU32_codec : Codec getU32 (put_le 4) is_u32 := read_le_codec 4.
#[global] Instance getU64_codec : Codec getU64 (put_le 8) is_u64 := read_le_codec 8.

#[global] Instance getI64_codec : Codec getI64 enc_i64 is_i64.
Proof.
  intros buf off v off' Hok. unfold getI64. rewrite length_enc_i64. split.
  - intros H. destruct (getU64 buf off) as [[u o]|] eqn:E; simplify_eq/=.
    apply (codec_iff (Codec := getU64_codec)) in E as (Hu & -> & rest & Hat); [|done].
    rewrite length_put_le. split; [apply i64_range|]. split; [done|].
    exists rest. unfold enc_i64. by rewrite u64_i64.
  - intros (Hv & -> & rest & Hat). destruct (codec_step getU64 (put_le 8) is_u64 buf off (u64 v)
      rest (fun '(u, off) => Some (i64 u, off)) Hok (u64_range v) Hat) as [-> _].
    rewrite length_put_le. by rewrite i64_u64.
Qed.

Definition str_ok (s : bytes) : Prop := bytes_ok s /\ Z.of_nat (length s) < 2 ^ 32.

#[global] Instance getStr_codec : Codec getStr enc_str str_ok.
Proof.
  intros buf off s off' Hok. unfold getStr. rewrite length_enc_str. split.
  - intros H. destruct (getU32 buf off) as [[n o]|] eqn:E; simpl in H; [|done].
    apply (codec_iff (Codec := getU32_codec)) in E as (Hn & -> & rest & Hat); [|done].
    rewrite length_put_le in H. unfold is_u32 in Hn.
    destruct (read_raw_Some n buf (off + 4) s off') as (Hl & -> & Hb); [lia|done|].
    unfold read_raw in H. destruct (_ <? _); [done|]. injection H as Hs.
    split; [split; [subst s; by apply Forall_take, Forall_drop|lia]|]. split; [lia|].
    exists (drop (Z.to_nat n) (drop (off + 4) buf)).
    unfold enc_str. rewrite Hl, u32_small by (mach_unfold; lia).
    rewrite <- app_assoc, <- Hs, take_drop.
    apply at_off_app in Hat as Hat'. rewrite length_put_le in Hat'. destruct Hat' as [_ ->].
    done.
  - intros ([Hs Hl] & -> & rest & Hat). unfold enc_str in Hat. rewrite <- app_assoc in Hat.
    assert (is_u32 (Z.of_nat (length s))) as Hu by mach. rewrite u32_small in Hat by done.
    destruct (codec_step getU32 (put_le 4) is_u32 buf off _ _ (fun '(n, off) => read_raw n buf off)
      Hok Hu Hat) as [-> Hat'].
    apply read_raw_app in Hat' as [-> _].
    rewrite length_put_le. do 2 f_equal. lia.
Qed.

(** ** Decoders accept exactly the encodings *)

Lemma side_of_to_u8 s : side_of_u8 (side_to_u8 s) = s.
Proof. by destruct s. Qed.
Lemma side_to_of_u8 z : is_u8 z -> z <= 1 -> side_to_u8 (side_of_u8 z) = z.
Proof.
  unfold is_u8, side_of_u8. intros. destruct (z =? 0) eqn:E; simpl; lia.
Qed.
Lemma side_u8_range s : is_u8 (side_to_u8 s).
Proof. destruct s; by vm_compute. Qed.

(** The commands are short strings of bytes. *)
Lemma encodeNew_ok id s p q : str_ok (encodeNew id s p q).
Proof.
  rewrite encodeNew_eq. split; [|by autorewrite with wire]. unfold bytes_ok, enc_i64. rewrite !Forall_app.
  repeat split; try apply put_le_ok; repeat constructor; try by vm_compute.
  all: apply side_u8_range.
Qed.

Lemma encodeCancel_ok id : str_ok (encodeCancel id).
Proof.
  rewrite encodeCancel_eq. split; [|by autorewrite with wire]. unfold bytes_ok. rewrite Forall_app.
  repeat split; try apply put_le_ok. by repeat constructor.
Qed.

Lemma encodeModify_ok id p q : str_ok (encodeModify id p q).
Proof.
  rewrite encodeModify_eq. split; [|by autorewrite with wire]. unfold bytes_ok, enc_i64. rewrite !Forall_app.
  repeat split; try apply put_le_ok. by repeat constructor.
Qed.
Lemma side_u8_le s : (1 <? side_to_u8 s) = false.
Proof. by destruct s. Qed.

(** Take a successful decode apart: readers, the opcode test, the side test. *)
Ltac decode_invert H :=
  repeat first
    [ codec_invert H
    | match type of H with
      | (if negb (?a =? ?b) then None else _) = _ =>
          destruct (Z.eqb_spec a b); cbn [negb] in H; [|discriminate H]
      | (if 1 <? ?s then None else _) = _ =>
          destruct (Z.ltb_spec 1 s); [discriminate H|]
      end ].

(** Run a decoder on bytes that start with an encoding. *)
Ltac decode_run :=
  repeat first
    [ codec_run; [by first [assumption|apply side_u8_range|vm_compute]|]
    | rewrite Z.eqb_refl; cbn [negb]
    | rewrite side_u8_le
    | progress cbv zeta ].

(** Stand at the start of [data], naming what is left to read. *)
Lemma at_start data : exists d, d = data /\ at_off data 0 d.
Proof. exists data. split; [done|apply at_off_0]. Qed.

(** The two directions of "accepts exactly the encodings", for a decoder and
    the equation of its encoder. *)
Ltac decode_forward dec eqn :=
  let H := fresh "H" in
  intros H; unfold dec in H; decode_invert H; injection H; clear H; repeat intros <-;
  split_and?; try done; eexists;
  match goal with
  | Hd : _ = ?data |- ?data = _ =>
      rewrite <- Hd, eqn by apply_str; rewrite ?side_to_of_u8 by done;
      subst; by rewrite <- !app_assoc
  end
with apply_str := match goal with Hs : str_ok ?s |- bytes_ok ?s => apply Hs end.

Ltac decode_backward dec eqn :=
  match goal with
  | Hd : ?d = ?data, Hr : ?data = _ |- _ =>
      rewrite eqn in Hr by apply_str; rewrite <- !app_assoc in Hr; rewrite <- Hd in Hr;
      clear Hd; subst d; unfold dec; decode_run; by rewrite ?side_of_to_u8
  end.

Lemma decodeNew_iff data id s p q :
  bytes_ok data ->
  decodeNew data = Some (id, s, p, q)
  <-> is_u64 id /\ is_i64 p /\ is_i64 q /\ exists rest, data = encodeNew id s p q ++ rest.
Proof.
  intros Hok. destruct (at_start data) as (d & Hd & Hat). split.
  - decode_forward decodeNew encodeNew_eq.
  - intros (Hid & Hp & Hq & rest & Hr). decode_backward decodeNew encodeNew_eq.
Qed.

Lemma decodeCancel_iff data id :
  bytes_ok data ->
  decodeCancel data = Some id <-> is_u64 id /\ exists rest, data = encodeCancel id ++ rest.
Proof.
  intros Hok. destruct (at_start data) as (d & Hd & Hat). split.
  - decode_forward decodeCancel encodeCancel_eq.
  - intros (Hid & rest & Hr). decode_backward decodeCancel encodeCancel_eq.
Qed.

Lemma decodeModify_iff data id p q :
  bytes_ok data ->
  decodeModify data = Some (id, p, q)
  <-> is_u64 id /\ is_i64 p /\ is_i64 q /\ exists rest, data = encodeModify id p q ++ rest.
Proof.
  intros Hok. destruct (at_start data) as (d & Hd & Hat). split.
  - decode_forward decodeModify encodeModify_eq.
  - intros (Hid & Hp & Hq & rest & Hr). decode_backward decodeModify encodeModify_eq.
Qed.

Lemma decodeShardedNew_iff data sym id s p q :
  bytes_ok data ->
  decodeShardedNew data = Some (sym, id, s, p, q)
  <-> str_ok sym /\ is_u64 id /\ is_i64 p /\ is_i64 q
      /\ exists rest, data = encodeShardedNew sym id s p q ++ rest.
Proof.
  intros Hok. destruct (at_start data) as (d & Hd & Hat). split.
  - decode_forward decodeShardedNew encodeShardedNew_eq.
  - intros (Hs & Hid & Hp & Hq & rest & Hr). decode_backward decodeShardedNew encodeShardedNew_eq.
Qed.

Lemma decodeShardedCancel_iff data sym id :
  bytes_ok data ->
  decodeShardedCancel data = Some (sym, id)
  <-> str_ok sym /\ is_u64 id /\ exists rest, data = encodeShardedCancel sym id ++ rest.
Proof.
  intros Hok. destruct (at_start data) as (d & Hd & Hat). split.
  - decode_forward decodeShardedCancel encodeShardedCancel_eq.
  - intros (Hs & Hid & rest & Hr). decode_backward decodeShardedCancel encodeShardedCancel_eq.
Qed.

Lemma decodeShardedModify_iff data sym id p q :
  bytes_ok data ->
  decodeShardedModify data = Some (sym, id, p, q)
  <-> str_ok sym /\ is_u64 id /\ is_i64 p /\ is_i64 q
      /\ exists rest, data = encodeShardedModify sym id p q ++ rest.
Proof.
  intros Hok. destruct (at_start data) as (d & Hd & Hat). split.
  - decode_forward decodeShardedModify encodeShardedModify_eq.
  - intros (Hs & Hid & Hp & Hq & rest & Hr).
    decode_backward decodeShardedModify encodeShardedModify_eq.
Qed.

(** ** The result of NEW *)

Definition enc_fill (f : Fill) : bytes :=
  put_le 8 (f_makerOrderId f) ++ put_le 8 (f_takerOrderId f) ++ enc_i64 (f_price f)
  ++ enc_i64 (f_quantity f) ++ [side_to_u8 (f_takerSide f)].

Definition enc_fills (fs : list Fill) : bytes := concat (enc_fill <$> fs).

Lemma length_enc_fill f : length (enc_fill f) = 33%nat.
Proof. unfold enc_fill. by autorewrite with wire. Qed.

Lemma enc_fills_cons f fs : enc_fills (f :: fs) = enc_fill f ++ enc_fills fs.
Proof. done. Qed.

Lemma length_enc_fills fs : length (enc_fills fs) = (length fs * 33)%nat.
Proof.
  induction fs as [|f fs IH]; [done|].
  rewrite enc_fills_cons, length_app, length_enc_fill, IH. cbn [length]. lia.
Qed.

Lemma wrote_in_put_fill cap w out f :
  wrote_in cap w out -> wrote_in cap (put_fill w f) (out ++ enc_fill f).
Proof.
  intros H. unfold put_fill, enc_fill. cbv zeta. rewrite !app_assoc. repeat write_step. done.
Qed.

Lemma wrote_in_put_fills cap fs : forall w out,
  wrote_in cap w out -> wrote_in cap (foldl put_fill w fs) (out ++ enc_fills fs).
Proof.
  induction fs as [|f fs IH]; intros w out H; csimpl.
  - by rewrite app_nil_r.
  - rewrite enc_fills_cons, app_assoc. apply IH. by apply wrote_in_put_fill.
Qed.

Lemma encodeNewResult_eq fs rested q :
  encodeNewResult fs rested q
  = [1] ++ put_le 4 (u32 (Z.of_nat (length fs))) ++ enc_fills fs
    ++ [if rested then 1 else 0] ++ enc_i64 q.
Proof.
  unfold encodeNewResult. cbv zeta.
  eapply (wrote_in_full (1 + 4 + length fs * (8 + 8 + 8 + 8 + 1) + 1 + 8)).
  - do 2 write_step. apply wrote_in_put_fills. repeat write_step. apply wrote_in_new.
  - rewrite <- ?app_assoc. reflexivity.
  - autorewrite with wire. rewrite length_enc_fills. simpl length. lia.
Qed.

Lemma enc_fill_ok f : bytes_ok (enc_fill f).
Proof.
  unfold enc_fill, enc_i64, bytes_ok. rewrite !Forall_app.
  repeat split; try apply put_le_ok. constructor; [apply side_u8_range|constructor].
Qed.

Lemma encodeNewResult_ok fs rested q : bytes_ok (encodeNewResult fs rested q).
Proof.
  rewrite encodeNewResult_eq. unfold bytes_ok, enc_i64. rewrite !Forall_app.
  repeat split; try apply put_le_ok.
  - by repeat constructor.
  - apply Forall_concat, Forall_fmap, Forall_true. intros f. apply enc_fill_ok.
  - destruct rested; by repeat constructor.
Qed.

(** One turn of the loop reads one written fill. *)
Lemma get_fill_enc data off f rest :
  bytes_ok data -> fill_typed f -> at_off data off (enc_fill f ++ rest) ->
  get_fill data off = Some (wire_fill f, (off + 33)%nat) /\ at_off data (off + 33) rest.
Proof.
  intros Hok (H1 & H2 & H3 & H4) Hat. split.
  - unfold enc_fill in Hat. rewrite <- !app_assoc in Hat. unfold get_fill. decode_run.
    autorewrite with wire. unfold wire_fill. do 2 f_equal. lia.
  - apply at_off_app in Hat. by rewrite length_enc_fill in Hat.
Qed.

Lemma get_fills_enc fs : forall fuel data off acc rest,
  bytes_ok data -> Forall fill_typed fs -> at_off data off (enc_fills fs ++ rest) ->
  (length fs <= fuel)%nat ->
  get_fills fuel (Z.of_nat (length fs)) data off acc
  = Some (acc ++ (wire_fill <$> fs), (off + length fs * 33)%nat)
  /\ at_off data (off + length fs * 33) rest.
Proof.
  induction fs as [|f fs IH]; intros fuel data off acc rest Hok Hfs Hat Hf.
  - destruct fuel; simpl; rewrite app_nil_r, Nat.add_0_r; done.
  - destruct fuel as [|fuel]; [simpl in Hf; lia|]. apply Forall_cons in Hfs as [Hf1 Hfs].
    rewrite enc_fills_cons, <- app_assoc in Hat.
    destruct (get_fill_enc data off f _ Hok Hf1 Hat) as [E Hat'].
    destruct (IH fuel data (off + 33)%nat (acc ++ [wire_fill f]) rest Hok Hfs Hat')
      as [E2 H2]; [simpl in Hf; lia|].
    cbn [length get_fills]. rewrite (proj2 (Z.leb_gt _ _)) by lia. rewrite E. cbn [mbind option_bind].
    replace (Z.of_nat (S (length fs)) - 1) with (Z.of_nat (length fs)) by lia.
    rewrite E2, <- app_assoc.
    replace (off + S (length fs) * 33)%nat with (off + 33 + length fs * 33)%nat by lia. done.
Qed.

(** More fuel than bytes left changes nothing. *)
Lemma get_fills_fuel fuel : forall n data off acc,
  (length data - off < fuel)%nat ->
  get_fills (S fuel) n data off acc = get_fills fuel n data off acc.
Proof.
  induction fuel as [|fuel IH]; intros n data off acc H; [lia|].
  change (get_fills (S (S fuel)) n data off acc) with
    (if n <=? 0 then Some (acc, off) else '(f, off) ← get_fill data off;
       get_fills (S fuel) (n - 1) data off (acc ++ [f])).
  change (get_fills (S fuel) n data off acc) with
    (if n <=? 0 then Some (acc, off) else '(f, off) ← get_fill data off;
       get_fills fuel (n - 1) data off (acc ++ [f])).
  destruct (n <=? 0); [done|]. destruct (get_fill data off) as [[f o]|] eqn:E; [|done]. simpl.
  apply IH. unfold get_fill, getI64, getU64, getU8, read_le in E.
  repeat (case_bool_decide; [discriminate E|]; cbn [mbind option_bind] in E).
  injection E as _ <-. lia.
Qed.

Lemma decodeNewResult_enc (fills : list Fill) (rested : bool) (remainingQty : Z) :
  Forall fill_typed fills -> Z.of_nat (length fills) < 2 ^ 32 -> is_i64 remainingQty ->
  decodeNewResult (encodeNewResult fills rested remainingQty)
  = Some (wire_fill <$> fills, rested, remainingQty).
Proof.
  intros Hfs Hn Hq. pose proof (encodeNewResult_ok fills rested remainingQty) as Hok.
  set (data := encodeNewResult fills rested remainingQty) in *.
  pose proof (at_off_0 data) as Hat. pose proof (encodeNewResult_eq fills rested remainingQty) as Heq.
  fold data in Heq. rewrite Heq in Hat at 2. rewrite <- (app_nil_r (enc_i64 _)) in Hat.
  assert (is_u32 (Z.of_nat (length fills))) as Hu by mach. rewrite u32_small in Hat by done.
  unfold decodeNewResult. codec_run; [by vm_compute|]. cbn [Z.eqb]. codec_run; [done|].
  destruct (get_fills_enc fills (S (length data)) data _ [] _ Hok Hfs Hat) as [-> Hat2].
  { rewrite Heq. autorewrite with wire. rewrite length_enc_fills. lia. }
  clear Hat. cbn [mbind option_bind]. codec_run; [by destruct rested|]. codec_run; [done|].
  by destruct rested.
Qed.

(** ** Properties *)

(** C24. Commands on the wire: each decoder accepts exactly the byte strings
    that start with an encoding made by its encoder, and gives back the
    encoded fields; so decoding undoes encoding, a wrong opcode, a side byte
    above 1 and a truncated message are rejected, and two different commands
    never share an encoding. *)
Theorem order_commands_exact (data : bytes) :
  bytes_ok data ->
  (forall id s p q, decodeNew data = Some (id, s, p, q)
     <-> is_u64 id /\ is_i64 p /\ is_i64 q /\ exists rest, data = encodeNew id s p q ++ rest)
  /\ (forall id, decodeCancel data = Some id
     <-> is_u64 id /\ exists rest, data = encodeCancel id ++ rest)
  /\ (forall id p q, decodeModify data = Some (id, p, q)
     <-> is_u64 id /\ is_i64 p /\ is_i64 q /\ exists rest, data = encodeModify id p q ++ rest).
Proof.
  intros Hok. split_and!; intros.
  - by apply decodeNew_iff.
  - by apply decodeCancel_iff.
  - by apply decodeModify_iff.
Qed.

Lemma order_commands_exact_witness :
  decodeNew (encodeNew 7 Sell (-3) 250) = Some (7, Sell, -3, 250)
  /\ decodeCancel (encodeNew 7 Sell (-3) 250) = None.
Proof.
  destruct (order_commands_exact (encodeNew 7 Sell (-3) 250)) as (H1 & H2 & _).
  { rewrite <- (bool_decide_spec (bytes_ok (encodeNew 7 Sell (-3) 250))). vm_compute. exact I. }
  split.
  - apply H1. split_and!; try by vm_compute. exists []. by rewrite app_nil_r.
  - destruct (decodeCancel _) as [id|]; [|done]. exfalso.
    destruct (proj1 (H2 id) eq_refl) as (_ & rest & E). rewrite encodeCancel_eq in E.
    apply (f_equal head) in E. vm_compute in E. discriminate E.
Defined.

(** The sharded commands, with the symbol in front, likewise; the symbol
    must be shorter than 2^32 bytes, the width of its length field. *)
Theorem sharded_commands_exact (data : bytes) :
  bytes_ok data ->
  (forall sym id s p q, decodeShardedNew data = Some (sym, id, s, p, q)
     <-> str_ok sym /\ is_u64 id /\ is_i64 p /\ is_i64 q
         /\ exists rest, data = encodeShardedNew sym id s p q ++ rest)
  /\ (forall sym id, decodeShardedCancel data = Some (sym, id)
     <-> str_ok sym /\ is_u64 id /\ exists rest, data = encodeShardedCancel sym id ++ rest)
  /\ (forall sym id p q, decodeShardedModify data = Some (sym, id, p, q)
     <-> str_ok sym /\ is_u64 id /\ is_i64 p /\ is_i64 q
         /\ exists rest, data = encodeShardedModify sym id p q ++ rest).
Proof.
  intros Hok. split_and!; intros.
  - by apply decodeShardedNew_iff.
  - by apply decodeShardedCancel_iff.
  - by apply decodeShardedModify_iff.
Qed.

Lemma sharded_commands_exact_witness :
  decodeShardedCancel (encodeShardedCancel [65; 66] 7) = Some ([65; 66], 7).
Proof.
  destruct (sharded_commands_exact (encodeShardedCancel [65; 66] 7)) as (_ & H2 & _).
  { rewrite <- (bool_decide_spec (bytes_ok (encodeShardedCancel [65; 66] 7))).
    vm_compute. exact I. }
  apply H2. split; [split; [by repeat constructor|by vm_compute]|].
  split; [by vm_compute|]. exists []. by rewrite app_nil_r.
Defined.

(** The reply to NEW: every list of fills of fewer than 2^32, the rested
    flag and the remaining quantity come back from their encoding. *)
Theorem new_result_roundtrip (fills : list Fill) (rested : bool) (remainingQty : Z) :
  Forall fill_typed fills -> Z.of_nat (length fills) < 2 ^ 32 -> is_i64 remainingQty ->
  decodeNewResult (encodeNewResult fills rested remainingQty)
  = Some (wire_fill <$> fills, rested, remainingQty).
Proof. apply decodeNewResult_enc. Qed.

Lemma new_result_roundtrip_witness :
  decodeNewResult (encodeNewResult [mkFill 1 2 (-100) 5 Buy; mkFill 3 2 100 6 Sell] true 9)
  = Some ([mkWireFill 1 2 (-100) 5 0; mkWireFill 3 2 100 6 1], true, 9).
Proof.
  apply (new_result_roundtrip [mkFill 1 2 (-100) 5 Buy; mkFill 3 2 100 6 Sell] true 9);
    [|by vm_compute..].
  apply (bool_decide_unpack _). vm_compute. exact I.
Defined.
