(* ===== verification/StateMachine.v ===== *)
(** * The replicated state machine interface

    Models [src/app/statemachine/StateMachine.h]: the three virtual methods
    as a type class, what an implementation promises as its laws, and what
    the replication layer builds on them: replaying a log, and the log
    compaction that replaces a prefix of the log by a snapshot. *)

From S2P Require Import Prelude.

(** [None] is behaviour that C++ does not define. *)
Class StateMachine (S : Type) := {
  sm_apply : S -> bytes -> option (bytes * S);
  sm_snapshot : S -> bytes;
  sm_restore : S -> bytes -> option S
}.

(** [sm_equiv] relates states that no sequence of commands can tell apart;
    [sm_fits] says the state's sizes fit the width of the snapshot's length
    fields. *)
Class StateMachineLaws (S : Type) `{StateMachine S} := {
  sm_ok : S -> Prop;
  sm_equiv : S -> S -> Prop;
  sm_fits : S -> Prop;
  sm_equiv_equivalence :: Equivalence sm_equiv;
  sm_apply_ok s d r s' : sm_ok s -> bytes_ok d -> sm_apply s d = Some (r, s') -> sm_ok s';
  sm_apply_equiv s t d r s' :
    sm_ok s -> sm_ok t -> bytes_ok d -> sm_equiv s t -> sm_apply s d = Some (r, s') ->
    exists t', sm_apply t d = Some (r, t') /\ sm_equiv s' t';
  sm_restore_snapshot s t :
    sm_ok s -> sm_ok t -> sm_fits s ->
    exists t', sm_restore t (sm_snapshot s) = Some t' /\ sm_ok t' /\ sm_equiv s t'
}.

Section Replay.
Context {S : Type} `{!StateMachine S}.

(** Applying the entries of a log in order, with the replies. *)
Fixpoint replay (s : S) (log : list bytes) : option (list bytes * S) :=
  match log with
  | [] => Some ([], s)
  | d :: log =>
      '(r, s) ← sm_apply s d;
      '(rs, s) ← replay s log;
      Some (r :: rs, s)
  end.

Context `{!StateMachineLaws S}.

Lemma replay_ok log : forall s rs s',
  sm_ok s -> Forall bytes_ok log -> replay s log = Some (rs, s') -> sm_ok s'.
Proof.
  induction log as [|d log IH]; intros s rs s' Hs Hl E; simpl in E; [by simplify_eq|].
  apply Forall_cons in Hl as [Hd Hl].
  destruct (sm_apply s d) as [[r s1]|] eqn:E1; simpl in E; [|done].
  destruct (replay s1 log) as [[rs1 s2]|] eqn:E2; simplify_eq/=.
  eapply IH; [|done|done]. by eapply sm_apply_ok.
Qed.

Lemma replay_equiv log : forall s t rs s',
  sm_ok s -> sm_ok t -> Forall bytes_ok log -> sm_equiv s t -> replay s log = Some (rs, s') ->
  exists t', replay t log = Some (rs, t') /\ sm_equiv s' t'.
Proof.
  induction log as [|d log IH]; intros s t rs s' Hs Ht Hl He E; simpl in *.
  { simplify_eq. by exists t. }
  apply Forall_cons in Hl as [Hd Hl].
  destruct (sm_apply s d) as [[r s1]|] eqn:E1; simpl in E; [|done].
  destruct (replay s1 log) as [[rs1 s2]|] eqn:E2; simplify_eq/=.
  destruct (sm_apply_equiv s t d r s1) as (t1 & E3 & He1); [done..|].
  destruct (IH s1 t1 rs1 s') as (t2 & E4 & He2); [by apply (sm_apply_ok s d r)|by apply (sm_apply_ok t d r)|done..|].
  exists t2. by rewrite E3; simpl; rewrite E4.
Qed.

(** Compaction: any state of the machine restored from a snapshot taken
    after a prefix of the log answers the rest of the log as the machine
    that applied all of it does. *)
Lemma snapshot_replay log1 log2 s t rs1 s1 rs2 s2 :
  sm_ok s -> sm_ok t -> Forall bytes_ok log1 -> Forall bytes_ok log2 ->
  replay s log1 = Some (rs1, s1) -> sm_fits s1 -> replay s1 log2 = Some (rs2, s2) ->
  exists t1 t2, sm_restore t (sm_snapshot s1) = Some t1
    /\ replay t1 log2 = Some (rs2, t2) /\ sm_equiv s2 t2.
Proof.
  intros Hs Ht Hl1 Hl2 E1 Hf E2. pose proof (replay_ok _ _ _ _ Hs Hl1 E1) as Hs1.
  destruct (sm_restore_snapshot s1 t) as (t1 & Er & Ht1 & He); [done..|].
  destruct (replay_equiv log2 s1 t1 rs2 s2) as (t2 & E3 & He2); [done..|].
  by exists t1, t2.
Qed.
End Replay.
