(* ===== verification/LOBStateMachine.v ===== *)
(** * The limit-order-book state machine

    Models [src/app/statemachine/LOBStateMachine.{h,cpp}] over any engine
    that implements [IOrderBook]: [apply] decodes a command, executes it and
    encodes the reply; [snapshot] and [restore] serialise the book and the
    sequence counter.  The mutex makes each method one atomic step.  The
    laws of [StateMachine] are discharged from those of [IOrderBook] alone. *)

From S2P Require Import Prelude IOrderBook BookSpec OrderProtocol StateMachine.

Section LOB.
Context {B : Type} `{!IOrderBook B}.

Record LOBStateMachine := mkLOB { lob_book : B; lob_nextSeq : Z }.

Definition new_LOBStateMachine (book : B) : LOBStateMachine := mkLOB book 1.

(** ** apply *)

(** [int64_t filled = 0; for (f : fills) filled += f.quantity] *)
Definition filled_quantity (fills : list Fill) : Z :=
  foldl (fun filled f => filled +s f_quantity f) 0 fills.

Definition apply (m : LOBStateMachine) (data : bytes) : option (bytes * LOBStateMachine) :=
  match data with
  | [] => Some (encodeSimpleResult false, m)
  | op :: _ =>
      let seq := lob_nextSeq m in
      let m := mkLOB (lob_book m) (lob_nextSeq m +u 1) in
      if op =? OP_NEW then
        match decodeNew data with
        | None => Some (encodeSimpleResult false, m)
        | Some (orderId, side, price, quantity) =>
            if quantity <=? 0 then Some (encodeSimpleResult false, m) else
            found ← ib_getOrder (lob_book m) orderId;
            match found with
            | Some _ => Some (encodeSimpleResult false, m)
            | None =>
                '(fills, book) ← ib_newOrder (lob_book m) orderId side price quantity seq;
                let filled := filled_quantity fills in
                let remaining := quantity -s filled in
                let rested := 0 <? remaining in
                Some (encodeNewResult fills rested remaining, mkLOB book (lob_nextSeq m))
            end
        end
      else if op =? OP_CXL then
        match decodeCancel data with
        | None => Some (encodeSimpleResult false, m)
        | Some orderId =>
            '(ok, book) ← ib_cancelOrder (lob_book m) orderId;
            Some (encodeSimpleResult ok, mkLOB book (lob_nextSeq m))
        end
      else if op =? OP_MOD then
        match decodeModify data with
        | None => Some (encodeSimpleResult false, m)
        | Some (orderId, newPrice, newQuantity) =>
            '(ok, book) ← ib_modifyOrder (lob_book m) orderId newPrice newQuantity seq;
            Some (encodeSimpleResult ok, mkLOB book (lob_nextSeq m))
        end
      else Some (encodeSimpleResult false, m)
  end.

(** ** snapshot *)

Definition putU64raw (buf : bytes) (v : Z) : bytes := buf ++ put_le 8 v.
Definition putU32raw (buf : bytes) (v : Z) : bytes := buf ++ put_le 4 v.
Definition getU64raw : bytes -> nat -> option (Z * nat) := read_le 8.
Definition getU32raw : bytes -> nat -> option (Z * nat) := read_le 4.

Definition put_order (buf : bytes) (o : Order) : bytes :=
  let buf := putU64raw buf (o_id o) in
  let buf := buf ++ [side_to_u8 (o_side o)] in
  let buf := putU64raw buf (u64 (o_price o)) in
  let buf := putU64raw buf (u64 (o_quantity o)) in
  putU64raw buf (o_sequence o).

Definition snapshot (m : LOBStateMachine) : bytes :=
  let buf := putU64raw [] (lob_nextSeq m) in
  let sym := ib_symbol (lob_book m) in
  let buf := putU32raw buf (u32 (Z.of_nat (length sym))) in
  let buf := buf ++ sym in
  let orders := ib_allOrders (lob_book m) in
  let buf := putU32raw buf (u32 (Z.of_nat (length orders))) in
  foldl put_order buf orders.

(** ** restore

    Every failed read is an early [return], which keeps what was done so
    far: the counter once read, the reset book, the orders already added. *)

Definition get_order (data : bytes) (off : nat) : option (Order * nat) :=
  '(orderId, off) ← getU64raw data off;
  '(s, off) ← read_le 1 data off;
  if 1 <? s then None else
  let side := side_of_u8 s in
  '(priceU, off) ← getU64raw data off;
  '(qtyU, off) ← getU64raw data off;
  '(seqU, off) ← getU64raw data off;
  Some (mkOrder orderId side (i64 priceU) (i64 qtyU) seqU, off).

(** The loop over the orders; a turn reads 33 bytes or leaves, so a unit of
    fuel per byte is enough.  [None] is the engine's, or no fuel left. *)
Fixpoint restore_loop (fuel : nat) (n : Z) (data : bytes) (off : nat) (book : B) : option B :=
  if n <=? 0 then Some book else
  match fuel with
  | O => None
  | S fuel =>
      match get_order data off with
      | None => Some book
      | Some (o, off) =>
          book ← ib_addRestingOrder book o;
          restore_loop fuel (n - 1) data off book
      end
  end.

Definition restore (m : LOBStateMachine) (data : bytes) : option LOBStateMachine :=
  match getU64raw data 0 with
  | None => Some m
  | Some (nextSeq, off) =>
      let m := mkLOB (lob_book m) nextSeq in
      match getU32raw data off with
      | None => Some m
      | Some (symLen, off) =>
          match read_raw symLen data off with
          | None => Some m
          | Some (sym, off) =>
              match getU32raw data off with
              | None => Some m
              | Some (orderCount, off) =>
                  book ← ib_reset (lob_book m) sym;
                  book ← restore_loop (S (length data)) orderCount data off book;
                  Some (mkLOB book nextSeq)
              end
          end
      end
  end.

(** ** Direct reads *)

Definition lob_bids (m : LOBStateMachine) (maxLevels : Z) : list PriceLevel :=
  ib_bids (lob_book m) maxLevels.
Definition lob_asks (m : LOBStateMachine) (maxLevels : Z) : list PriceLevel :=
  ib_asks (lob_book m) maxLevels.
Definition lob_bestBid (m : LOBStateMachine) : option Z := ib_bestBid (lob_book m).
Definition lob_bestAsk (m : LOBStateMachine) : option Z := ib_bestAsk (lob_book m).
Definition lob_orderCount (m : LOBStateMachine) : Z := ib_orderCount (lob_book m).
Definition lob_symbol (m : LOBStateMachine) : bytes := ib_symbol (lob_book m).

#[global] Instance LOB_StateMachine : StateMachine LOBStateMachine := {|
  sm_apply := apply; sm_snapshot := snapshot; sm_restore := restore |}.
End LOB.
Arguments LOBStateMachine : clear implicits.

(** ** What apply computes on the abstract book *)

Definition spec_apply (a : ABook) (seq : Z) (data : bytes) : bytes * ABook :=
  let reject := (encodeSimpleResult false, a) in
  match data with
  | [] => reject
  | op :: _ =>
      if op =? OP_NEW then
        match decodeNew data with
        | Some (id, s, p, q) =>
            if (q <=? 0) || bool_decide (is_Some (spec_find id a)) then reject else
            let '(fs, a') := spec_new id s p q seq a in
            let rest := q - fills_quantity fs in
            (encodeNewResult fs (0 <? rest) rest, a')
        | None => reject
        end
      else if op =? OP_CXL then
        match decodeCancel data with
        | Some id => let '(ok, a') := spec_cancel id a in (encodeSimpleResult ok, a')
        | None => reject
        end
      else if op =? OP_MOD then
        match decodeModify data with
        | Some (id, p, q) =>
            let '(ok, a') := spec_modify id p q seq a in (encodeSimpleResult ok, a')
        | None => reject
        end
      else reject
  end.

(** The counter advances on every non-empty entry, rejected ones included. *)
Definition next_seq (seq : Z) (data : bytes) : Z :=
  match data with [] => seq | _ => seq +u 1 end.

Lemma filled_quantity_acc fs : forall acc,
  Forall (fun f => 0 < f_quantity f) fs -> 0 <= acc -> acc + fills_quantity fs < 2 ^ 63 ->
  foldl (fun filled f => filled +s f_quantity f) acc fs = acc + fills_quantity fs.
Proof.
  induction fs as [|f fs IH]; intros acc Hpos Hacc Hb; simpl in *; [lia|].
  apply Forall_cons in Hpos as [Hf Hpos].
  assert (0 <= fills_quantity fs).
  { clear -Hpos. induction Hpos; simpl in *; lia. }
  rewrite i64_small by mach. rewrite IH by (done || lia). lia.
Qed.

Lemma filled_quantity_eq fs :
  Forall (fun f => 0 < f_quantity f) fs -> fills_quantity fs < 2 ^ 63 ->
  filled_quantity fs = fills_quantity fs.
Proof. intros. unfold filled_quantity. rewrite filled_quantity_acc; [done|done|lia|lia]. Qed.

(** The fills of an accepted order. *)
Lemma spec_match_typed s tp tid l : forall rem fs r l',
  Forall (fun o => order_typed o /\ 0 < o_quantity o) l -> is_u64 tid -> is_i64 rem ->
  spec_match s tp rem tid l = (fs, r, l') ->
  Forall (fun f => fill_typed f /\ 0 < f_quantity f) fs /\ (length fs <= length l)%nat.
Proof.
  induction l as [|m l IH]; intros rem fs r l' Hl Htid Hrem E; simpl in E; [by simplify_eq|].
  apply Forall_cons in Hl as [[(Hm1 & Hm2 & Hm3 & Hm4) Hmq] Hl].
  destruct (0 <? rem) eqn:Hr; simpl in E; [|simplify_eq; simpl; split; [done|lia]].
  apply Z.ltb_lt in Hr.
  destruct (crosses s tp (o_price m)); [|simplify_eq; simpl; split; [done|lia]].
  destruct (o_quantity m <=? _) eqn:Hle.
  - destruct (spec_match s tp _ tid l) as [[fs' r'] l''] eqn:E'. simplify_eq.
    apply IH in E' as [IH1 IH2]; [|done|done|mach]. simpl. split; [|lia].
    constructor; [|done]. split; [|simpl; lia]. repeat split; simpl; mach.
  - simplify_eq. simpl. split; [|lia]. constructor; [|done].
    split; [|simpl; lia]. repeat split; simpl; mach.
Qed.

Lemma spec_new_fills id s p q seq a fs a' :
  abook_ok a -> is_u64 id -> is_i64 q -> 0 < q -> spec_new id s p q seq a = (fs, a') ->
  Forall fill_typed fs /\ Forall (fun f => 0 < f_quantity f) fs
  /\ 0 <= fills_quantity fs <= q /\ (length fs <= length (a_side (opposite s) a))%nat.
Proof.
  intros Ha Hid Hq Hq0 E. unfold spec_new in E. rewrite (proj2 (Z.leb_gt _ _) Hq0) in E.
  simpl in E. case_bool_decide; [simplify_eq; simpl; split_and!; (done || lia)|].
  destruct (spec_match s p q id _) as [[fs1 r] l'] eqn:Em. injection E as -> _.
  pose proof (abook_ok_positive (opposite s) _ Ha) as Hpos.
  assert (0 <= q) as Hq' by lia.
  destruct (spec_match_conserves _ _ _ _ _ _ _ _ Hpos Hq' Em) as [H3 H4].
  apply spec_match_typed in Em as [H1 H2]; [|eapply Forall_impl; [apply Ha|]|done|done].
  - split_and!; [eapply Forall_impl; [exact H1|]; tauto
                |eapply Forall_impl; [exact H1|]; tauto|lia|lia|lia].
  - intros x (_ & Hx1 & Hx2). done.
Qed.

(** ** Laws *)

Section LOBLaws.
Context {B : Type} `{!IOrderBook B} `{!IOrderBookLaws B}.
Implicit Types m : LOBStateMachine B.

Definition lob_ok m : Prop := ib_ok (lob_book m) /\ is_u64 (lob_nextSeq m).
Definition lob_abs m : ABook := ib_abs (lob_book m).

(** [apply] computes [spec_apply], on every branch, and never fails. *)
Lemma apply_spec m data :
  lob_ok m -> bytes_ok data ->
  exists m', apply m data = Some (fst (spec_apply (lob_abs m) (lob_nextSeq m) data), m')
    /\ lob_ok m' /\ lob_abs m' = snd (spec_apply (lob_abs m) (lob_nextSeq m) data)
    /\ lob_nextSeq m' = next_seq (lob_nextSeq m) data.
Proof.
  intros [Hb Hseq] Hd. unfold apply, spec_apply, lob_abs. destruct data as [|op data'] eqn:Edata.
  { by exists m. }
  rewrite <- Edata in Hd |- *. cbn [lob_book lob_nextSeq].
  set (m1 := mkLOB (lob_book m) (lob_nextSeq m +u 1)).
  assert (lob_ok m1) as Hm1 by (split; [done|apply u64_range]).
  assert (next_seq (lob_nextSeq m) data = lob_nextSeq m +u 1) as -> by by rewrite Edata.
  assert (forall ms (x : bytes * ABook), ms = Some (fst x, m1) -> ib_abs (lob_book m) = snd x ->
    exists m', ms = Some (fst x, m') /\ lob_ok m' /\ ib_abs (lob_book m') = snd x
      /\ lob_nextSeq m' = lob_nextSeq m +u 1) as Hsame by (intros ms x -> Hx; by exists m1).
  destruct (op =? OP_NEW); [|destruct (op =? OP_CXL); [|destruct (op =? OP_MOD)]].
  - destruct (decodeNew data) as [[[[id s] p] q]|] eqn:Ed; [|by apply Hsame].
    apply decodeNew_iff in Ed as (Hid & Hp & Hq & _); [|done].
    destruct (q <=? 0) eqn:Hq0; [by apply Hsame|]. rewrite ib_getOrder_spec by done. simpl.
    destruct (spec_find id (ib_abs (lob_book m))) as [o|] eqn:Hfind;
      [rewrite bool_decide_eq_true_2 by done; by apply Hsame|].
    rewrite bool_decide_eq_false_2 by (by intros [? ?]).
    destruct (ib_newOrder_spec (lob_book m) id s p q (lob_nextSeq m)) as (b' & -> & Hb' & Ha);
      [done..|]. simpl.
    destruct (spec_new id s p q (lob_nextSeq m) (ib_abs (lob_book m))) as [fs a'] eqn:En.
    apply Z.leb_gt in Hq0.
    destruct (spec_new_fills _ _ _ _ _ _ _ _ (ib_ok_abs _ Hb) Hid Hq Hq0 En)
      as (_ & Hpos & Hle & _). simpl in *.
    rewrite filled_quantity_eq by (done || mach). rewrite i64_small by mach.
    exists (mkLOB b' (lob_nextSeq m +u 1)). split_and!; [done| |done|done].
    split; [done|apply u64_range].
  - destruct (decodeCancel data) as [id|] eqn:Ed; [|by apply Hsame].
    destruct (ib_cancelOrder_spec (lob_book m) id Hb) as (b' & -> & Hb' & Ha). simpl.
    destruct (spec_cancel _ _) as [ok a']. simpl in *.
    exists (mkLOB b' (lob_nextSeq m +u 1)). split_and!; [done| |done|done].
    split; [done|apply u64_range].
  - destruct (decodeModify data) as [[[id p] q]|] eqn:Ed; [|by apply Hsame].
    apply decodeModify_iff in Ed as (Hid & Hp & Hq & _); [|done].
    destruct (ib_modifyOrder_spec (lob_book m) id p q (lob_nextSeq m)) as (b' & -> & Hb' & Ha);
      [done..|]. simpl.
    destruct (spec_modify _ _ _ _ _) as [ok a']. simpl in *.
    exists (mkLOB b' (lob_nextSeq m +u 1)). split_and!; [done| |done|done].
    split; [done|apply u64_range].
  - by apply Hsame.
Qed.

(** ** Snapshots *)

Definition enc_order (o : Order) : bytes :=
  put_le 8 (o_id o) ++ [side_to_u8 (o_side o)] ++ put_le 8 (u64 (o_price o))
  ++ put_le 8 (u64 (o_quantity o)) ++ put_le 8 (o_sequence o).

Definition enc_orders (os : list Order) : bytes := concat (enc_order <$> os).

Lemma enc_orders_cons o os : enc_orders (o :: os) = enc_order o ++ enc_orders os.
Proof. done. Qed.

Lemma put_orders_eq os : forall buf, foldl put_order buf os = buf ++ enc_orders os.
Proof.
  induction os as [|o os IH]; intros buf; simpl; [by rewrite app_nil_r|].
  rewrite IH, enc_orders_cons. unfold put_order, putU64raw, enc_order.
  by rewrite <- !app_assoc.
Qed.

Lemma snapshot_eq m :
  snapshot m = put_le 8 (lob_nextSeq m) ++ enc_str (ib_symbol (lob_book m))
    ++ put_le 4 (u32 (Z.of_nat (length (ib_allOrders (lob_book m)))))
    ++ enc_orders (ib_allOrders (lob_book m)).
Proof.
  unfold snapshot, putU64raw, putU32raw, enc_str. cbv zeta. rewrite put_orders_eq.
  by rewrite <- !app_assoc.
Qed.

Lemma length_enc_order o : length (enc_order o) = 33%nat.
Proof. unfold enc_order. by autorewrite with wire. Qed.

Lemma length_enc_orders os : length (enc_orders os) = (length os * 33)%nat.
Proof.
  induction os as [|o os IH]; [done|].
  rewrite enc_orders_cons, length_app, length_enc_order, IH. cbn [length]. lia.
Qed.

Lemma enc_order_ok o : bytes_ok (enc_order o).
Proof.
  unfold enc_order, bytes_ok. rewrite !Forall_app. repeat split; try apply put_le_ok.
  constructor; [apply side_u8_range|constructor].
Qed.

Lemma snapshot_ok m : bytes_ok (ib_symbol (lob_book m)) -> bytes_ok (snapshot m).
Proof.
  intros Hs. rewrite snapshot_eq. unfold enc_str, bytes_ok. rewrite !Forall_app.
  repeat split; try apply put_le_ok; [done|].
  apply Forall_concat, Forall_fmap, Forall_true. intros o. apply enc_order_ok.
Qed.

(** One turn of the restoring loop reads one written order. *)
Lemma get_order_enc data off o rest :
  bytes_ok data -> order_typed o -> at_off data off (enc_order o ++ rest) ->
  get_order data off = Some (o, (off + 33)%nat) /\ at_off data (off + 33) rest.
Proof.
  intros Hok (H1 & H2 & H3 & H4) Hat. split.
  - unfold enc_order in Hat. rewrite <- !app_assoc in Hat. unfold get_order.
    change getU64raw with getU64. change (read_le 1) with getU8.
    pose proof (u64_range (o_price o)). pose proof (u64_range (o_quantity o)).
    decode_run. autorewrite with wire. rewrite side_of_to_u8, !i64_u64 by done.
    destruct o. do 2 f_equal. lia.
  - apply at_off_app in Hat. by rewrite length_enc_order in Hat.
Qed.

(** The loop over the written orders adds each of them to the book. *)
Lemma restore_loop_enc os : forall fuel data off rest b,
  bytes_ok data -> at_off data off (enc_orders os ++ rest) -> (length os <= fuel)%nat ->
  ib_ok b -> Forall (fun o => order_typed o /\ 0 < o_quantity o) os ->
  NoDup ((o_id <$> a_orders (ib_abs b)) ++ (o_id <$> os)) ->
  exists b', restore_loop fuel (Z.of_nat (length os)) data off b = Some b'
    /\ ib_ok b' /\ ib_abs b' = foldl (fun a o => spec_rest o a) (ib_abs b) os.
Proof.
  induction os as [|o os IH]; intros fuel data off rest b Hok Hat Hf Hb Hos Hnd.
  { exists b. by destruct fuel. }
  destruct fuel as [|fuel]; [simpl in Hf; lia|].
  apply Forall_cons in Hos as [[Ho Hq] Hos].
  rewrite enc_orders_cons, <- app_assoc in Hat.
  destruct (get_order_enc data off o _ Hok Ho Hat) as [E Hat'].
  csimpl in Hnd. rewrite <- Permutation_middle in Hnd.
  apply NoDup_cons in Hnd as [Hni Hnd]. rewrite elem_of_app in Hni.
  destruct (ib_addRestingOrder_spec b o) as (b1 & E1 & Hb1 & Ha1); [done..| |].
  { apply spec_find_None. intros x Hx Heq. apply Hni. left.
    rewrite <- Heq. by apply list_elem_of_fmap_2. }
  destruct (IH fuel data (off + 33)%nat rest b1) as (b2 & E2 & Hb2 & Ha2);
    [done|done|simpl in Hf; lia|done|done| |].
  { rewrite Ha1. unfold spec_rest. rewrite (a_orders_perm (o_side o)), fmap_app.
    autorewrite with book. rewrite spec_insert_perm. csimpl.
    rewrite (a_orders_perm (o_side o)), fmap_app in Hnd, Hni.
    apply NoDup_cons. rewrite elem_of_app. done. }
  exists b2. cbn [length restore_loop]. rewrite (proj2 (Z.leb_gt _ _)) by lia.
  rewrite E, E1. cbn [mbind option_bind].
  replace (Z.of_nat (S (length os)) - 1) with (Z.of_nat (length os)) by lia.
  rewrite E2, Ha2, Ha1. done.
Qed.

(** Orders of one side, added best first, rest in the order they come. *)
Lemma foldl_rest_side s l : forall a pre,
  a_side s a = pre -> price_sorted s (pre ++ l) -> Forall (fun o => o_side o = s) l ->
  foldl (fun a o => spec_rest o a) a l = a_set_side s (pre ++ l) a.
Proof.
  induction l as [|o l IH]; intros a pre Hpre Hs Hl; simpl.
  { rewrite app_nil_r, <- Hpre. by destruct a, s. }
  apply Forall_cons in Hl as [Ho Hl]. unfold spec_rest at 2. rewrite Ho, Hpre.
  rewrite spec_insert_last.
  - rewrite (IH _ (pre ++ [o])); [|by autorewrite with book|by rewrite <- app_assoc|done].
    rewrite <- app_assoc. by destruct a, s.
  - apply Forall_forall. intros x Hx.
    apply (StronglySorted_app_1_elem_of _ _ _ _ _ Hs Hx), list_elem_of_here.
Qed.

Lemma foldl_rest_all a :
  abook_ok a -> foldl (fun a o => spec_rest o a) (mkABook (a_symbol a) [] []) (a_orders a) = a.
Proof.
  intros [Ha _]. unfold a_orders. rewrite foldl_app.
  destruct (Ha Buy) as [Hb1 Hb2], (Ha Sell) as [Hs1 Hs2].
  rewrite (foldl_rest_side Buy (a_bids a) _ []); [|done|exact Hb1|eapply Forall_impl; [exact Hb2|]; by intros ? []].
  rewrite (foldl_rest_side Sell (a_asks a) _ []); [|done|exact Hs1|eapply Forall_impl; [exact Hs2|]; by intros ? []].
  by destruct a.
Qed.

(** What must fit the snapshot's 32-bit length fields. *)
Definition lob_fits m : Prop :=
  str_ok (ib_symbol (lob_book m)) /\ Z.of_nat (length (a_orders (lob_abs m))) < 2 ^ 32.

Lemma restore_snapshot m t :
  lob_ok m -> lob_fits m ->
  exists t', restore t (snapshot m) = Some t' /\ lob_ok t'
    /\ lob_abs t' = lob_abs m /\ lob_nextSeq t' = lob_nextSeq m.
Proof.
  intros [Hb Hseq] [[Hsym Hlen] Hn]. pose proof (snapshot_ok m Hsym) as Hok.
  pose proof (snapshot_eq m) as Heq. set (data := snapshot m) in *.
  pose proof (at_off_0 data) as Hat. rewrite Heq in Hat at 2. unfold lob_abs in *.
  rewrite ib_allOrders_spec in Heq, Hat by done. unfold enc_str in Hat.
  rewrite !u32_small in Hat by mach.
  rewrite <- !app_assoc in Hat. rewrite <- (app_nil_r (enc_orders _)) in Hat.
  apply read_put_le in Hat as [E1 Hat]. rewrite Z.mod_small in E1 by done.
  apply read_put_le in Hat as [E2 Hat]. rewrite Z.mod_small in E2 by (simpl; lia).
  apply read_raw_app in Hat as [E3 Hat].
  apply read_put_le in Hat as [E4 Hat]. rewrite Z.mod_small in E4 by (simpl; lia).
  unfold restore, getU64raw, getU32raw. rewrite E1, E2, E3, E4. cbn [lob_book].
  destruct (ib_reset_spec (lob_book t) (ib_symbol (lob_book m))) as (b0 & -> & Hb0 & Ha0).
  cbn [mbind option_bind].
  destruct (restore_loop_enc _ (S (length data)) _ _ _ b0 Hok Hat) as (b1 & -> & Hb1 & Ha1).
  - rewrite Heq. autorewrite with wire. rewrite length_enc_orders. lia.
  - done.
  - pose proof (ib_ok_abs _ Hb) as [Ha _]. unfold a_orders. apply Forall_app.
    split; [eapply Forall_impl; [apply (Ha Buy)|]|eapply Forall_impl; [apply (Ha Sell)|]];
      by intros ? (_ & ? & ?).
  - rewrite Ha0. apply (ib_ok_abs _ Hb).
  - exists (mkLOB b1 (lob_nextSeq m)). split; [done|]. split; [done|]. split; [|done].
    simpl. rewrite Ha1, Ha0, ib_symbol_spec. apply foldl_rest_all. by apply ib_ok_abs.
Qed.

#[global] Program Instance LOB_laws : StateMachineLaws (LOBStateMachine B) := {|
  sm_ok := lob_ok;
  sm_equiv m t := lob_abs m = lob_abs t /\ lob_nextSeq m = lob_nextSeq t;
  sm_fits := lob_fits
|}.
Next Obligation.
  split; [by split|by intros ? ? [? ?]|intros ? ? ? [? ?] [? ?]; split; congruence].
Qed.
Next Obligation.
  intros m d r m' Hm Hd E. destruct (apply_spec m d Hm Hd) as (m1 & E1 & Hm1 & _).
  simpl in E. congruence.
Qed.
Next Obligation.
  intros m t d r m' Hm Ht Hd [He1 He2] E. simpl in *.
  destruct (apply_spec m d Hm Hd) as (m1 & E1 & _ & Ha1 & Hs1).
  destruct (apply_spec t d Ht Hd) as (t1 & E2 & _ & Ha2 & Hs2).
  rewrite He1, He2 in *. exists t1. split_and!; congruence.
Qed.
Next Obligation.
  intros m t Hm _ Hf. destruct (restore_snapshot m t Hm Hf) as (t1 & ? & ? & ? & ?).
  by exists t1.
Qed.
End LOBLaws.
