(* ===== verification/BookTheorems.v ===== *)
(** * What clients of a matching engine rely on

    Properties of [IOrderBook] proved from its contract ([IOrderBookLaws]),
    hence of every engine that meets it, with [MapOrderBook] as the
    instance the witnesses evaluate; and properties of [MapOrderBook] that
    do not go through the contract. *)

From S2P Require Import Prelude IOrderBook BookSpec MapOrderBook.

(** ** Sequences of commands *)

Inductive Cmd :=
  | CNew (id : Z) (s : Side) (price quantity sequence : Z)
  | CCancel (id : Z)
  | CModify (id : Z) (price quantity sequence : Z).

Inductive Outcome :=
  | ONew (fills : list Fill)
  | ODone (ok : bool).

Definition cmd_typed (c : Cmd) : Prop :=
  match c with
  | CNew id _ p q seq | CModify id p q seq =>
      is_u64 id /\ is_i64 p /\ is_i64 q /\ is_u64 seq
  | CCancel id => is_u64 id
  end.

#[global] Instance cmd_typed_dec c : Decision (cmd_typed c).
Proof. destruct c; simpl; apply _. Defined.

Section Engine.
Context {B : Type} `{!IOrderBook B}.

Definition exec (b : B) (c : Cmd) : option (Outcome * B) :=
  match c with
  | CNew id s p q seq => '(fs, b) ← ib_newOrder b id s p q seq; Some (ONew fs, b)
  | CCancel id => '(ok, b) ← ib_cancelOrder b id; Some (ODone ok, b)
  | CModify id p q seq => '(ok, b) ← ib_modifyOrder b id p q seq; Some (ODone ok, b)
  end.

Fixpoint exec_all (b : B) (cs : list Cmd) : option (list Outcome * B) :=
  match cs with
  | [] => Some ([], b)
  | c :: cs => '(o, b) ← exec b c; '(os, b) ← exec_all b cs; Some (o :: os, b)
  end.

Context `{!IOrderBookLaws B}.

Definition spec_exec (a : ABook) (c : Cmd) : Outcome * ABook :=
  match c with
  | CNew id s p q seq => let '(fs, a) := spec_new id s p q seq a in (ONew fs, a)
  | CCancel id => let '(ok, a) := spec_cancel id a in (ODone ok, a)
  | CModify id p q seq => let '(ok, a) := spec_modify id p q seq a in (ODone ok, a)
  end.

Fixpoint spec_exec_all (a : ABook) (cs : list Cmd) : list Outcome * ABook :=
  match cs with
  | [] => ([], a)
  | c :: cs =>
      let '(o, a) := spec_exec a c in
      let '(os, a) := spec_exec_all a cs in (o :: os, a)
  end.

Lemma exec_spec b c :
  ib_ok b -> cmd_typed c ->
  exists b', exec b c = Some (fst (spec_exec (ib_abs b) c), b')
    /\ ib_ok b' /\ ib_abs b' = snd (spec_exec (ib_abs b) c).
Proof.
  intros Hb Hc. destruct c as [id s p q seq|id|id p q seq]; simpl in *.
  - destruct Hc as (? & ? & ? & ?).
    destruct (ib_newOrder_spec b id s p q seq) as (b' & -> & Hb' & Habs); [done..|].
    exists b'. rewrite Habs. by destruct (spec_new id s p q seq (ib_abs b)).
  - destruct (ib_cancelOrder_spec b id Hb) as (b' & -> & Hb' & Habs).
    exists b'. rewrite Habs. by destruct (spec_cancel id (ib_abs b)).
  - destruct Hc as (? & ? & ? & ?).
    destruct (ib_modifyOrder_spec b id p q seq) as (b' & -> & Hb' & Habs); [done..|].
    exists b'. rewrite Habs. by destruct (spec_modify id p q seq (ib_abs b)).
Qed.

Lemma exec_all_spec b cs :
  ib_ok b -> Forall cmd_typed cs ->
  exists b', exec_all b cs = Some (fst (spec_exec_all (ib_abs b) cs), b')
    /\ ib_ok b' /\ ib_abs b' = snd (spec_exec_all (ib_abs b) cs).
Proof.
  intros Hb Hcs. revert b Hb. induction Hcs as [|c cs Hc Hcs IH]; intros b Hb; simpl; [eauto|].
  destruct (exec_spec b c Hb Hc) as (b1 & -> & Hb1 & Habs1). simpl.
  destruct (IH b1 Hb1) as (b2 & -> & Hb2 & Habs2). exists b2. rewrite Habs2, Habs1.
  destruct (spec_exec (ib_abs b) c) as [o a]. simpl. by destruct (spec_exec_all a cs).
Qed.
End Engine.

(** ** The theorems *)

Lemma new_MapOrderBook_ok sym : book_ok (new_MapOrderBook sym).
Proof.
  split_and!.
  - intros []; split; constructor.
  - split_and!; constructor.
  - intros id loc. simpl. rewrite lookup_empty. split; [done|].
    intros (o & H & _). by apply not_elem_of_nil in H.
Qed.

(** A small book to evaluate the theorems on: two asks at 100, one at 101,
    one bid at 99. *)
Definition sample_cmds : list Cmd :=
  [CNew 1 Sell 101 5 1; CNew 2 Sell 100 5 2; CNew 3 Sell 100 4 3; CNew 4 Buy 99 7 4].
Definition sample_book : MapOrderBook :=
  match exec_all (new_MapOrderBook []) sample_cmds with
  | Some (_, b) => b
  | None => new_MapOrderBook []
  end.

Lemma sample_book_ok : book_ok sample_book.
Proof.
  destruct (@exec_all_spec MapOrderBook _ MapOrderBook_laws (new_MapOrderBook []) sample_cmds
    (new_MapOrderBook_ok []))
    as (b' & E & Hb' & _); [by apply (bool_decide_unpack _); vm_compute|].
  unfold sample_book. rewrite E. exact Hb'.
Qed.

(** C3. Refinement.  From an empty book, every sequence of well-typed NEW,
    CXL and MOD commands runs on the [std::map] engine without undefined
    behaviour (no dangling iterator, no missing level, no endless loop), and
    its fills, its success flags and the orders it leaves resting are those
    of the abstract price-time-priority book. *)
Theorem map_engine_refines_spec (sym : bytes) (cs : list Cmd) :
  Forall cmd_typed cs ->
  exists b, exec_all (new_MapOrderBook sym) cs
            = Some (fst (spec_exec_all (mkABook sym [] []) cs), b)
    /\ book_ok b /\ book_abs b = snd (spec_exec_all (mkABook sym [] []) cs).
Proof. apply (@exec_all_spec MapOrderBook _ MapOrderBook_laws), new_MapOrderBook_ok. Qed.

Lemma map_engine_refines_spec_witness :
  exists b, exec_all (new_MapOrderBook []) (sample_cmds ++ [CModify 2 101 3 5; CCancel 4])
            = Some (fst (spec_exec_all (mkABook [] [] [])
                           (sample_cmds ++ [CModify 2 101 3 5; CCancel 4])), b)
    /\ book_ok b
    /\ book_abs b = snd (spec_exec_all (mkABook [] [] [])
                           (sample_cmds ++ [CModify 2 101 3 5; CCancel 4])).
Proof.
  apply map_engine_refines_spec. apply (bool_decide_unpack _). vm_compute. exact I.
Defined.

(** C33. Termination.  The matching loop ends on every book and every taker,
    well-formed or not: one pass per opposite level and one more suffice. *)
Theorem match_terminates (s : Side) (takerPrice quantity takerId : Z) (b : MapOrderBook) :
  exists r, match_ s takerPrice quantity takerId b = Some r.
Proof. apply match_loop_total. lia. Qed.

Section Clients.
Context {B : Type} `{!IOrderBook B} `{!IOrderBookLaws B}.

(** C11. An accepted NEW trades with the opposite orders in price-time
    priority: its fills are with a prefix of them, each at the maker's
    price, which the limit accepts, and for at most the maker's quantity;
    filled and resting quantity add up to the order's; the order rests
    exactly when something is left. *)
Theorem newOrder_trades b id s p q seq fs b' :
  ib_ok b -> is_u64 id -> is_i64 p -> is_i64 q -> is_u64 seq -> 0 < q ->
  ib_getOrder b id = Some None ->
  ib_newOrder b id s p q seq = Some (fs, b') ->
  let makers := a_side (opposite s) (ib_abs b) in
  f_makerOrderId <$> fs = take (length fs) (o_id <$> makers)
  /\ Forall2 (fun f m => f_price f = o_price m /\ 0 < f_quantity f <= o_quantity m
               /\ crosses s p (o_price m) = true
               /\ f_takerOrderId f = id /\ f_takerSide f = s)
       fs (take (length fs) makers)
  /\ fills_quantity fs <= q
  /\ ib_getOrder b' id
     = Some (if bool_decide (fills_quantity fs < q)
             then Some (mkOrder id s p (q - fills_quantity fs) seq) else None).
Proof.
  intros Hb Hid Hp Hq Hseq Hq0 Hnone E makers.
  destruct (ib_newOrder_spec b id s p q seq) as (b1 & E1 & Hb1 & Habs); [done..|].
  rewrite E in E1. simplify_eq. rewrite ib_getOrder_spec in Hnone |- * by done.
  simplify_eq. rewrite Habs. unfold spec_new. rewrite Hnone.
  rewrite (bool_decide_eq_false_2 (is_Some None)) by (by intros [? ?]).
  replace (q <=? 0) with false by lia. simpl. fold makers.
  destruct (spec_match s p q id makers) as [[fs r] l'] eqn:Em. simpl.
  pose proof (abook_ok_positive (opposite s) _ (ib_ok_abs b Hb)) as Hpos.
  destruct (spec_match_fills _ _ _ _ _ _ _ _ Hpos Em) as [H1 H2].
  assert (0 <= q) as Hq' by lia.
  destruct (spec_match_conserves _ _ _ _ _ _ _ _ Hpos Hq' Em) as [H3 H4].
  destruct (spec_match_residual _ _ _ _ _ Hpos _ _ _ Em) as [k Hk].
  pose proof (spec_find_residual _ _ _ _ _ Hnone Hk) as Hnone'.
  split_and!; [done|done|lia|]. f_equal. case_bool_decide as Hlt.
  - replace (0 <? r) with true by lia. replace (q - fills_quantity fs) with r by lia.
    by apply (spec_find_rest (mkOrder id s p r seq)).
  - by replace (0 <? r) with false by lia.
Qed.

(** C21. NEW keeps an uncrossed book uncrossed: if the best bid was below the
    best ask, it still is.  (A book that a MOD has crossed may stay so.) *)
Theorem newOrder_keeps_uncrossed b id s p q seq fs b' :
  ib_ok b -> is_u64 id -> is_i64 p -> is_i64 q -> is_u64 seq ->
  uncrossed (ib_abs b) ->
  ib_newOrder b id s p q seq = Some (fs, b') ->
  uncrossed (ib_abs b')
  /\ forall x y, ib_bestBid b' = Some x -> ib_bestAsk b' = Some y -> x < y.
Proof.
  intros Hb Hid Hp Hq Hseq Hun E.
  destruct (ib_newOrder_spec b id s p q seq) as (b1 & E1 & Hb1 & Habs); [done..|].
  rewrite E in E1. simplify_eq.
  assert (uncrossed (ib_abs b1)) as Hun'.
  { rewrite Habs. apply uncrossed_new; [by apply ib_ok_abs|done]. }
  split; [done|]. intros x y. rewrite ib_bestBid_spec, ib_bestAsk_spec by done.
  unfold uncrossed in Hun'. destruct (a_bids (ib_abs b1)) as [|o1 l1]; [done|].
  destruct (a_asks (ib_abs b1)) as [|o2 l2]; [done|]. simpl. intros. simplify_eq.
  apply Hun'; left.
Qed.

(** C32. CXL succeeds exactly on a resting order; it removes that order and
    keeps every other in its place, and a failed CXL changes nothing. *)
Theorem cancelOrder_removes b id r b' :
  ib_ok b -> ib_cancelOrder b id = Some (r, b') ->
  r = bool_decide (ib_getOrder b id <> Some None)
  /\ ib_getOrder b' id = Some None
  /\ forall s, a_side s (ib_abs b')
               = filter (fun o => o_id o <> id) (a_side s (ib_abs b)).
Proof.
  intros Hb E. destruct (ib_cancelOrder_spec b id Hb) as (b1 & E1 & Hb1 & Habs).
  rewrite E in E1. simplify_eq. rewrite !ib_getOrder_spec by done.
  rewrite Habs, spec_find_cancelled. unfold spec_cancel.
  destruct (spec_find id (ib_abs b)) as [o|] eqn:Ef; cbn [fst snd].
  - split_and!; [by rewrite bool_decide_eq_true_2|done|]. by intros [].
  - split_and!; [by rewrite bool_decide_eq_false_2 by auto|done|].
    intros s. symmetry. apply spec_remove_notin.
    rewrite spec_find_None in Ef. intros o Ho. by apply Ef, (elem_of_a_orders s).
Qed.

(** MOD is a cancel-replace that never trades: a resting order moves
    to the back of the queue at its new price, on its own side, whatever
    rests on the other; a non-positive quantity cancels; on an unknown
    identifier nothing changes. *)
Theorem modifyOrder_replaces b id np nq nseq r b' :
  ib_ok b -> is_u64 id -> is_i64 np -> is_i64 nq -> is_u64 nseq ->
  ib_modifyOrder b id np nq nseq = Some (r, b') ->
  match spec_find id (ib_abs b) with
  | None => r = false /\ ib_abs b' = ib_abs b
  | Some o =>
      let keep s := filter (fun x => o_id x <> id) (a_side s (ib_abs b)) in
      r = true
      /\ a_side (opposite (o_side o)) (ib_abs b') = keep (opposite (o_side o))
      /\ a_side (o_side o) (ib_abs b')
         = (if 0 <? nq
            then spec_insert (o_side o) (mkOrder id (o_side o) np nq nseq) (keep (o_side o))
            else keep (o_side o))
  end.
Proof.
  intros Hb Hid Hp Hq Hseq E.
  destruct (ib_modifyOrder_spec b id np nq nseq) as (b1 & E1 & Hb1 & Habs); [done..|].
  rewrite E in E1. simplify_eq. rewrite Habs. unfold spec_modify, spec_cancel.
  destruct (spec_find id (ib_abs b)) as [o|] eqn:Ef; [|done]. simpl.
  split; [done|]. destruct (0 <? nq); unfold spec_rest; simpl; by destruct (o_side o).
Qed.

(** The depth view lists each price of a side once, best first, with
    the number of its orders and their summed quantity, limited to the
    requested number of levels; its first price is the best price. *)
Theorem depth_view b n :
  ib_ok b -> 0 <= n ->
  ib_bids b n = spec_depth n (a_bids (ib_abs b))
  /\ ib_asks b n = spec_depth n (a_asks (ib_abs b))
  /\ StronglySorted (fun p q => q < p) (pl_price <$> ib_bids b n)
  /\ StronglySorted (fun p q => p < q) (pl_price <$> ib_asks b n)
  /\ head (pl_price <$> ib_bids b n) = ib_bestBid b
  /\ head (pl_price <$> ib_asks b n) = ib_bestAsk b.
Proof.
  intros Hb Hn. rewrite ib_bids_spec, ib_asks_spec, ib_bestBid_spec, ib_bestAsk_spec by done.
  destruct (ib_ok_abs b Hb) as [Hside _]. rewrite !spec_depth_prices.
  assert (forall s, StronglySorted (fun p q => before s p q = true)
            (if n =? 0 then spec_prices (a_side s (ib_abs b))
             else take (Z.to_nat n) (spec_prices (a_side s (ib_abs b))))) as Hs.
  { intros s. destruct (Hside s) as [Hs _]. apply spec_prices_sorted in Hs.
    destruct (n =? 0); [done|]. by apply StronglySorted_take. }
  assert (forall l, head (if n =? 0 then spec_prices l else take (Z.to_nat n) (spec_prices l))
            = o_price <$> head l) as Hh.
  { intros l. destruct (Z.eqb_spec n 0); [by destruct l|].
    destruct (Z.to_nat n) eqn:En; [lia|]. by destruct l. }
  split_and!; [done|done| | |apply Hh|apply Hh].
  - eapply StronglySorted_impl; [|apply (Hs Buy)]. simpl. lia.
  - eapply StronglySorted_impl; [|apply (Hs Sell)]. simpl. lia.
Qed.
End Clients.

(** A consequence of MOD not matching: on an uncrossed book it can leave
    the best bid at the best ask. *)
Theorem modifyOrder_can_cross :
  uncrossed (book_abs sample_book)
  /\ exists b', modifyOrder sample_book 4 100 7 5 = Some (true, b')
     /\ bestBid b' = Some 100 /\ bestAsk b' = Some 100.
Proof.
  split.
  - intros x y. vm_compute a_bids. vm_compute a_asks.
    rewrite !elem_of_cons, !elem_of_nil. intuition (subst; simpl; lia).
  - eexists. split; [vm_compute; reflexivity|]. split; reflexivity.
Qed.

(** ** Witnesses: the theorems at the sample book *)

Ltac on_sample := first [exact sample_book_ok | by vm_compute | vm_compute; reflexivity].

Lemma newOrder_trades_witness :
  exists fs b', newOrder sample_book 9 Buy 100 12 9 = Some (fs, b')
    /\ f_makerOrderId <$> fs = [2; 3] /\ fills_quantity fs = 9
    /\ getOrder b' 9 = Some (Some (mkOrder 9 Buy 100 3 9)).
Proof.
  destruct (newOrder sample_book 9 Buy 100 12 9) as [[fs b']|] eqn:E; [|by vm_compute in E].
  assert (fs = [mkFill 2 9 100 5 Buy; mkFill 3 9 100 4 Buy]) as ->
    by (vm_compute in E; congruence).
  destruct (newOrder_trades (B := MapOrderBook) sample_book 9 Buy 100 12 9
    [mkFill 2 9 100 5 Buy; mkFill 3 9 100 4 Buy] b')
    as (H1 & H2 & H3 & H4); [on_sample..|exact E|].
  exists [mkFill 2 9 100 5 Buy; mkFill 3 9 100 4 Buy], b'.
  split; [done|]. split; [done|]. split; [done|].
  etransitivity; [exact H4|reflexivity].
Defined.

Lemma newOrder_keeps_uncrossed_witness :
  exists fs b', newOrder sample_book 9 Buy 100 12 9 = Some (fs, b')
    /\ uncrossed (book_abs b').
Proof.
  destruct (newOrder sample_book 9 Buy 100 12 9) as [[fs b']|] eqn:E; [|by vm_compute in E].
  exists fs, b'. split; [done|].
  destruct (newOrder_keeps_uncrossed (B := MapOrderBook) sample_book 9 Buy 100 12 9 fs b')
    as [H _]; [on_sample..| |exact E|exact H].
  intros x y. vm_compute a_bids. vm_compute a_asks.
  rewrite !elem_of_cons, !elem_of_nil. intuition (subst; simpl; lia).
Defined.

Lemma cancelOrder_removes_witness :
  exists b', cancelOrder sample_book 2 = Some (true, b') /\ getOrder b' 2 = Some None.
Proof.
  destruct (cancelOrder sample_book 2) as [[r b']|] eqn:E; [|by vm_compute in E].
  destruct (cancelOrder_removes (B := MapOrderBook) sample_book 2 r b')
    as (Hr & Hg & _); [on_sample|exact E|].
  exists b'. split; [|exact Hg]. by rewrite Hr.
Defined.

Lemma modifyOrder_replaces_witness :
  exists b', modifyOrder sample_book 2 100 3 5 = Some (true, b')
    /\ o_id <$> a_asks (book_abs b') = [3; 2; 1].
Proof.
  destruct (modifyOrder sample_book 2 100 3 5) as [[r b']|] eqn:E; [|by vm_compute in E].
  pose proof (modifyOrder_replaces (B := MapOrderBook) sample_book 2 100 3 5 r b'
    ltac:(on_sample) ltac:(on_sample) ltac:(on_sample) ltac:(on_sample) ltac:(on_sample) E) as H.
  vm_compute spec_find in H. destruct H as (-> & _ & H). exists b'.
  split; [done|]. etransitivity; [exact (f_equal (fmap o_id) H)|reflexivity].
Defined.

Lemma depth_view_witness :
  bids sample_book 1 = [mkPriceLevel 99 7 1]
  /\ asks sample_book 0 = [mkPriceLevel 100 9 2; mkPriceLevel 101 5 1].
Proof.
  destruct (depth_view (B := MapOrderBook) sample_book 1) as (H1 & _);
    [exact sample_book_ok|lia|].
  destruct (depth_view (B := MapOrderBook) sample_book 0) as (_ & H2 & _);
    [exact sample_book_ok|lia|].
  split; [etransitivity; [exact H1|]|etransitivity; [exact H2|]]; vm_compute; reflexivity.
Defined.
