(* ===== verification/EngineTheorems.v ===== *)
(** * The two matching engines are interchangeable

    [src/app/statemachine/SkipListOrderBook.h] calls the skip-list engine a
    drop-in replacement for [MapOrderBook].  Here the two run the same
    commands in lockstep, for every outcome of the skip lists' coin flips. *)

From S2P Require Import Prelude IOrderBook BookSpec MapOrderBook BookTheorems.
From S2P Require Import SkipList SkipListRep SkipListOrderBook.

Section Engines.
Context `{!CoinFlips}.

Lemma exec_sim sb mb c o mb' :
  stands_for sb mb -> exec mb c = Some (o, mb') ->
  exists sb', exec sb c = Some (o, sb') /\ stands_for sb' mb'.
Proof.
  intros Hst E. destruct c as [id s p q seq|id|id p q seq]; simpl in *.
  - destruct (MapOrderBook.newOrder mb id s p q seq) as [[fs mb1]|] eqn:En; [|done].
    destruct (newOrder_sim _ _ _ _ _ _ _ _ _ Hst En) as (sb' & -> & Hst'). simpl in *.
    simplify_eq. eauto.
  - destruct (MapOrderBook.cancelOrder mb id) as [[fs mb1]|] eqn:En; [|done].
    destruct (cancelOrder_sim _ _ _ _ _ Hst En) as (sb' & -> & Hst'). simpl in *.
    simplify_eq. eauto.
  - destruct (MapOrderBook.modifyOrder mb id p q seq) as [[fs mb1]|] eqn:En; [|done].
    destruct (modifyOrder_sim _ _ _ _ _ _ _ _ Hst En) as (sb' & -> & Hst'). simpl in *.
    simplify_eq. eauto.
Qed.

Lemma exec_all_sim cs : forall sb mb os mb',
  stands_for sb mb -> exec_all mb cs = Some (os, mb') ->
  exists sb', exec_all sb cs = Some (os, sb') /\ stands_for sb' mb'.
Proof.
  induction cs as [|c cs IH]; intros sb mb os mb' Hst E; cbn [exec_all] in *.
  { simplify_eq. eauto. }
  destruct (exec mb c) as [[o mb1]|] eqn:Ec; [|done]. cbn [mbind option_bind] in E.
  destruct (exec_sim _ _ _ _ _ Hst Ec) as (sb1 & -> & Hst1). cbn [mbind option_bind].
  destruct (exec_all mb1 cs) as [[os1 mb2]|] eqn:Es; [|done]. cbn [mbind option_bind] in E.
  destruct (IH _ _ _ _ Hst1 Es) as (sb2 & -> & Hst2). simplify_eq. eauto.
Qed.

(** C10. Equivalence of the engines.  From empty books, every sequence of
    well-typed NEW, CXL and MOD commands runs on both engines without
    undefined behaviour and with the same outcomes, fill by fill; afterwards
    every query (all orders, one order, count, depth to any number of levels,
    best prices) answers the same on both, and no pointer of the skip lists
    is null or dangling.  This holds for all outcomes of the coin flips. *)
Theorem engines_equivalent (sym : bytes) (cs : list Cmd) :
  Forall cmd_typed cs ->
  exists os (sb : SkipListOrderBook) (mb : MapOrderBook),
    exec_all (new_SkipListOrderBook sym) cs = Some (os, sb)
    /\ exec_all (new_MapOrderBook sym) cs = Some (os, mb)
    /\ SkipListOrderBook.allOrders sb = Some (MapOrderBook.allOrders mb)
    /\ (forall id, SkipListOrderBook.getOrder sb id = MapOrderBook.getOrder mb id)
    /\ SkipListOrderBook.orderCount sb = MapOrderBook.orderCount mb
    /\ (forall n, SkipListOrderBook.bids sb n = Some (MapOrderBook.bids mb n)
                  /\ SkipListOrderBook.asks sb n = Some (MapOrderBook.asks mb n))
    /\ SkipListOrderBook.bestBid sb = Some (MapOrderBook.bestBid mb)
    /\ SkipListOrderBook.bestAsk sb = Some (MapOrderBook.bestAsk mb).
Proof.
  intros Hcs.
  destruct (@exec_all_spec MapOrderBook _ MapOrderBook_laws (new_MapOrderBook sym) cs
              (new_MapOrderBook_ok sym) Hcs) as (mb & E & _ & _).
  destruct (exec_all_sim _ _ _ _ _ (new_sim sym) E) as (sb & Es & Hst).
  eexists _, sb, mb. split_and!; [exact Es|exact E|by apply allOrders_sim|..].
  - intros id. by apply getOrder_sim.
  - destruct Hst as (_ & _ & Hi & _). unfold SkipListOrderBook.orderCount. by rewrite Hi.
  - intros n. split; by apply depth_sim.
  - by apply best_price_sim.
  - by apply best_price_sim.
Qed.
End Engines.

#[local] Existing Instance demo_flips.

Lemma engines_equivalent_witness :
  exists os (sb : SkipListOrderBook) (mb : MapOrderBook),
    exec_all (new_SkipListOrderBook []) (sample_cmds ++ [CNew 5 Buy 101 12 5; CCancel 4]) = Some (os, sb)
    /\ exec_all (new_MapOrderBook []) (sample_cmds ++ [CNew 5 Buy 101 12 5; CCancel 4]) = Some (os, mb)
    /\ SkipListOrderBook.allOrders sb = Some (MapOrderBook.allOrders mb).
Proof.
  destruct (engines_equivalent [] (sample_cmds ++ [CNew 5 Buy 101 12 5; CCancel 4]))
    as (os & sb & mb & H1 & H2 & H3 & _).
  - apply (bool_decide_unpack _). vm_compute. exact I.
  - exists os, sb, mb. exact (conj H1 (conj H2 H3)).
Defined.
