(* ===== verification/LOBTheorems.v ===== *)
(** * Properties of the replicated order book

    The order-book state machine behind its byte interface, for any matching
    engine that satisfies the [IOrderBook] contract, with witnesses that run
    the [MapOrderBook] engine. *)

From S2P Require Import Prelude IOrderBook BookSpec MapOrderBook OrderProtocol.
From S2P Require Import StateMachine LOBStateMachine BookTheorems.

Section LOBTheorems.
Context {B : Type} `{!IOrderBook B} `{!IOrderBookLaws B}.
Implicit Types m t : LOBStateMachine B.

(** C17. [apply] on every byte string, malformed ones included: it returns,
    its reply and its effect on the book are those of the price-time
    specification, the reported remaining quantity is computed without
    overflow, and the sequence counter advances by one on every non-empty
    entry, whether it is accepted or rejected. *)
Theorem lob_apply_correct m data :
  lob_ok m -> bytes_ok data ->
  exists m', apply m data = Some (fst (spec_apply (lob_abs m) (lob_nextSeq m) data), m')
    /\ lob_ok m' /\ lob_abs m' = snd (spec_apply (lob_abs m) (lob_nextSeq m) data)
    /\ lob_nextSeq m' = next_seq (lob_nextSeq m) data.
Proof. apply apply_spec. Qed.

(** The reply to a NEW, decoded. *)
Lemma lob_new_reply m id s p q :
  lob_ok m -> is_u64 id -> is_i64 p -> is_i64 q -> 0 < q ->
  spec_find id (lob_abs m) = None -> Z.of_nat (length (a_orders (lob_abs m))) < 2 ^ 32 ->
  let fs := fst (spec_new id s p q (lob_nextSeq m) (lob_abs m)) in
  let rest := q - fills_quantity fs in
  exists reply m',
    apply m (encodeNew id s p q) = Some (reply, m')
    /\ decodeNewResult reply = Some (wire_fill <$> fs, bool_decide (0 < rest), rest)
    /\ 0 <= rest <= q
    /\ lob_ok m'
    /\ lob_abs m' = snd (spec_new id s p q (lob_nextSeq m) (lob_abs m)).
Proof.
  intros Hm Hid Hp Hq Hq0 Hnone Hcount fs rest.
  destruct (encodeNew_ok id s p q) as [Hok _].
  destruct (apply_spec m _ Hm Hok) as (m' & E & Hm' & Ha & _).
  assert (decodeNew (encodeNew id s p q) = Some (id, s, p, q)) as Hdec.
  { apply decodeNew_iff; [done|]. split_and!; try done; try mach.
    exists []. by rewrite app_nil_r. }
  assert (spec_apply (lob_abs m) (lob_nextSeq m) (encodeNew id s p q)
    = (encodeNewResult fs (0 <? rest) rest,
       snd (spec_new id s p q (lob_nextSeq m) (lob_abs m)))) as Hspec.
  { unfold spec_apply. rewrite Hdec, Hnone. rewrite encodeNew_eq at 1. simpl.
    rewrite (proj2 (Z.leb_gt _ _) Hq0). simpl. unfold rest, fs. by destruct (spec_new _ _ _ _ _ _). }
  rewrite Hspec in E, Ha. simpl in E, Ha. exists (encodeNewResult fs (0 <? rest) rest), m'.
  destruct (spec_new id s p q (lob_nextSeq m) (lob_abs m)) as [fs0 a'] eqn:En.
  destruct (spec_new_fills _ _ _ _ _ _ _ _ (ib_ok_abs _ (proj1 Hm)) Hid Hq Hq0 En)
    as (Hty & _ & Hle & Hlen). simpl in fs.
  assert (length (a_side (opposite s) (lob_abs m)) <= length (a_orders (lob_abs m)))%nat.
  { rewrite (a_orders_perm s), length_app. lia. }
  split_and!; [done| |unfold rest, fs; lia..|done|done].
  rewrite decodeNewResult_enc; [|done|unfold fs, lob_abs in *; lia|unfold rest, fs; mach].
  do 2 f_equal. f_equal. destruct (Z.ltb_spec 0 rest);
    [by rewrite bool_decide_eq_true_2|by rewrite bool_decide_eq_false_2 by lia].
Qed.

(** A NEW from end to end: encoding the order, applying the entry and
    decoding the reply gives the fills that price-time matching makes, and
    what remains of the quantity, resting if positive. *)
Theorem lob_new_end_to_end m id s p q :
  lob_ok m -> is_u64 id -> is_i64 p -> is_i64 q -> 0 < q ->
  spec_find id (lob_abs m) = None -> Z.of_nat (length (a_orders (lob_abs m))) < 2 ^ 32 ->
  let fs := fst (spec_new id s p q (lob_nextSeq m) (lob_abs m)) in
  let rest := q - fills_quantity fs in
  exists reply m',
    apply m (encodeNew id s p q) = Some (reply, m')
    /\ decodeNewResult reply = Some (wire_fill <$> fs, bool_decide (0 < rest), rest)
    /\ 0 <= rest <= q
    /\ lob_abs m' = snd (spec_new id s p q (lob_nextSeq m) (lob_abs m)).
Proof.
  intros Hm Hid Hp Hq Hq0 Hn Hc. destruct (lob_new_reply m id s p q Hm Hid Hp Hq Hq0 Hn Hc)
    as (reply & m' & H1 & H2 & H3 & _ & H4). by exists reply, m'.
Qed.

Lemma fills_quantity_take k fs :
  Forall (fun f => 0 < f_quantity f) fs -> 0 <= fills_quantity (take k fs) <= fills_quantity fs.
Proof.
  revert k. induction fs as [|f fs IH]; intros k Hf; [by rewrite take_nil|].
  apply Forall_cons in Hf as [Hf Hfs]. specialize (IH (pred k) Hfs). pose proof (IH) as [? ?].
  destruct k; simpl in *; lia.
Qed.

(** C27. The 64-bit arithmetic of a NEW is exact.  The running total of the
    fills never leaves the range from 0 to the order's quantity, so neither
    it nor the remaining quantity overflows, and every order left in the
    book has a positive 64-bit quantity. *)
Theorem new_arithmetic_exact b id s p q seq fs b' :
  ib_ok b -> is_u64 id -> is_i64 p -> is_i64 q -> is_u64 seq -> 0 < q ->
  ib_getOrder b id = Some None -> ib_newOrder b id s p q seq = Some (fs, b') ->
  (forall k, 0 <= fills_quantity (take k fs) <= q)
  /\ filled_quantity fs = fills_quantity fs
  /\ q -s filled_quantity fs = q - fills_quantity fs
  /\ Forall (fun o => 0 < o_quantity o < 2 ^ 63) (a_orders (ib_abs b')).
Proof.
  intros Hb Hid Hp Hq Hseq Hq0 Hnone E.
  destruct (ib_newOrder_spec b id s p q seq) as (b1 & E1 & Hb1 & Habs); [done..|].
  rewrite E in E1. simplify_eq. rewrite ib_getOrder_spec in Hnone by done. simplify_eq.
  unfold spec_new. rewrite Hnone, (bool_decide_eq_false_2 (is_Some None)) by (by intros [? ?]).
  replace (q <=? 0) with false by lia. simpl.
  destruct (spec_match s p q id (a_side (opposite s) (ib_abs b))) as [[fs r] l'] eqn:Em. simpl.
  pose proof (abook_ok_positive (opposite s) _ (ib_ok_abs b Hb)) as Hpos.
  destruct (spec_match_conserves _ _ _ _ _ _ _ _ Hpos (Z.lt_le_incl _ _ Hq0) Em) as [H3 H4].
  assert (Forall (fun f => 0 < f_quantity f) fs) as Hf.
  { destruct (spec_match_fills _ _ _ _ _ _ _ _ Hpos Em) as [_ H2].
    eapply Forall2_Forall_l; [exact H2|]. apply Forall_true. intros ? ? Hx. apply Hx. }
  assert (filled_quantity fs = fills_quantity fs) as Ef by (apply filled_quantity_eq; [done|mach]).
  split_and!; [|done| |].
  - intros k. pose proof (fills_quantity_take k fs Hf). lia.
  - rewrite Ef. apply i64_small. mach.
  - destruct (ib_ok_abs b1 Hb1) as [Hs _].
    apply Forall_app; split; [pose proof (proj2 (Hs Buy)) as Hr|pose proof (proj2 (Hs Sell)) as Hr];
      (eapply Forall_impl; [exact Hr|]); intros o (_ & Ht & ?); unfold order_typed in Ht; mach.
Qed.

(** C18. Log compaction is sound: replacing any prefix of the log by the
    snapshot taken after it, on a replica in any state, gives the same
    replies to the rest of the log and an equivalent final state: the same
    orders in the same priority and the same sequence counter. *)
Theorem lob_compaction_sound log1 log2 m t rs1 m1 rs2 m2 :
  lob_ok m -> lob_ok t -> Forall bytes_ok log1 -> Forall bytes_ok log2 ->
  replay m log1 = Some (rs1, m1) -> lob_fits m1 -> replay m1 log2 = Some (rs2, m2) ->
  exists t1 t2, restore t (snapshot m1) = Some t1
    /\ replay t1 log2 = Some (rs2, t2)
    /\ lob_abs t2 = lob_abs m2 /\ lob_nextSeq t2 = lob_nextSeq m2.
Proof.
  intros Hm Ht Hl1 Hl2 E1 Hf E2.
  destruct (snapshot_replay log1 log2 m t rs1 m1 rs2 m2) as (t1 & t2 & ? & ? & He & Hs);
    [done..|]. by exists t1, t2.
Qed.
End LOBTheorems.

(** ** Witnesses *)

(** The sample book behind the state machine, and a log for it: a NEW that
    sweeps two asks and rests, a CXL, a MOD, a rejected entry. *)
Definition sample_lob : LOBStateMachine MapOrderBook := mkLOB sample_book 9.

Definition sample_log : list bytes :=
  [encodeNew 9 Buy 100 12; encodeCancel 1; encodeModify 4 98 1; [0x77]].

Lemma sample_lob_ok : lob_ok sample_lob.
Proof. split; [exact sample_book_ok|by vm_compute]. Qed.

Lemma sample_log_ok : Forall bytes_ok sample_log.
Proof. apply (bool_decide_unpack _). vm_compute. exact I. Qed.

Definition fresh_lob : LOBStateMachine MapOrderBook := new_LOBStateMachine (new_MapOrderBook [76]).

Lemma fresh_lob_ok : lob_ok fresh_lob.
Proof.
  split.
  - exact (new_MapOrderBook_ok [76]).
  - unfold is_u64. simpl. lia.
Qed.

Lemma lob_apply_correct_witness :
  exists m', apply sample_lob (encodeCancel 2) = Some ([1], m') /\ lob_nextSeq m' = 10.
Proof.
  destruct (lob_apply_correct sample_lob (encodeCancel 2)) as (m' & E & _ & _ & Hs);
    [exact sample_lob_ok|apply (bool_decide_unpack _); vm_compute; exact I|].
  exists m'. split; [rewrite E; f_equal; f_equal; vm_compute; reflexivity|rewrite Hs; vm_compute; reflexivity].
Defined.

Lemma new_arithmetic_exact_witness :
  exists fs b', ib_newOrder sample_book 9 Buy 100 12 9 = Some (fs, b')
    /\ filled_quantity fs = 9 /\ 12 -s filled_quantity fs = 12 - fills_quantity fs.
Proof.
  eexists _, _. split; [vm_compute; reflexivity|]. split; [vm_compute; reflexivity|].
  eapply (new_arithmetic_exact sample_book 9 Buy 100 12 9); [exact sample_book_ok| |..];
    try (by vm_compute); vm_compute; reflexivity.
Defined.

(** The depth view has no such bound: two orders of one price can add up to
    more than 64 bits hold. *)
Example depth_total_overflows :
  (b ← snd <$> newOrder (new_MapOrderBook []) 1 Buy 100 (2 ^ 62) 1;
   b ← snd <$> newOrder b 2 Buy 100 (2 ^ 62) 2;
   Some (bids b 0)) = Some [mkPriceLevel 100 (- 2 ^ 63) 2].
Proof. vm_compute. reflexivity. Qed.

Lemma lob_new_end_to_end_witness :
  exists reply m', apply sample_lob (encodeNew 9 Buy 100 12) = Some (reply, m')
    /\ decodeNewResult reply
       = Some ([mkWireFill 2 9 100 5 0; mkWireFill 3 9 100 4 0], true, 3).
Proof.
  destruct (lob_new_end_to_end sample_lob 9 Buy 100 12) as (reply & m' & E & Ed & _);
    [exact sample_lob_ok|by vm_compute..|].
  exists reply, m'. split; [exact E|]. rewrite Ed. vm_compute. reflexivity.
Defined.

Lemma lob_compaction_sound_witness :
  exists t1 rs t2,
    restore fresh_lob (snapshot sample_lob) = Some t1
    /\ replay t1 sample_log = Some (rs, t2)
    /\ lob_nextSeq t2 = 13 /\ o_id <$> a_bids (lob_abs t2) = [9; 4].
Proof.
  destruct (replay sample_lob sample_log) as [[rs m2]|] eqn:E; [|by vm_compute in E].
  destruct (lob_compaction_sound [] sample_log sample_lob
    fresh_lob [] sample_lob rs m2)
    as (t1 & t2 & E1 & E2 & Ha & Hs).
  - exact sample_lob_ok.
  - exact fresh_lob_ok.
  - constructor.
  - exact sample_log_ok.
  - reflexivity.
  - split; [split; [by repeat constructor|by vm_compute]|by vm_compute].
  - exact E.
  - exists t1, rs, t2. split; [exact E1|]. split; [exact E2|].
    rewrite Ha, Hs. vm_compute in E. injection E as <- <-. split; vm_compute; reflexivity.
Defined.
