(* ===== verification/KVStateMachine.v ===== *)
(** * The key-value state machine and its codec

    Models [src/app/statemachine/KVStateMachine.{h,cpp}], the wire format of
    [src/app/protocol/Protocol.{h,cpp}] and [src/app/protocol/KVCodec.cpp],
    with the request and response types of [src/app/net/ClientServer.h].
    The store is a finite map.  The order in which C++ iterates over an
    [std::unordered_map] is unspecified, so the order in which a snapshot
    lists the entries is a parameter: any enumeration of the map. *)

From S2P Require Import Prelude OrderProtocol StateMachine.

Definition OP_SET := 0x01.
Definition OP_GET := 0x02.
Definition OP_DEL := 0x03.

(** ** Helpers: writers append, readers check bounds *)

Definition writeU8 (buf : bytes) (v : Z) : bytes := buf ++ [v].
Definition writeU32 (buf : bytes) (v : Z) : bytes := buf ++ put_le 4 v.
Definition writeStr (buf s : bytes) : bytes := writeU32 buf (u32 (Z.of_nat (length s))) ++ s.

Definition readU8 : bytes -> nat -> option (Z * nat) := read_le 1.
Definition readU32 : bytes -> nat -> option (Z * nat) := read_le 4.
Definition readStr (buf : bytes) (off : nat) : option (bytes * nat) :=
  '(len, off) ← readU32 buf off; read_raw len buf off.

(** ** Commands *)

Definition encodeSet (k v : bytes) : bytes := writeStr (writeStr (writeU8 [] OP_SET) k) v.
Definition encodeGet (k : bytes) : bytes := writeStr (writeU8 [] OP_GET) k.
Definition encodeDel (k : bytes) : bytes := writeStr (writeU8 [] OP_DEL) k.

(** [val] is left empty except for SET. *)
Definition decode (data : bytes) : option (Z * bytes * bytes) :=
  '(op, off) ← readU8 data 0;
  '(key, off) ← readStr data off;
  if op =? OP_SET then '(val, off) ← readStr data off; Some (op, key, val)
  else Some (op, key, []).

(** ** The store *)

Abbreviation kv_map := (gmap bytes bytes).

Record KVStateMachine := mkKV { kv_data : kv_map }.

Definition result_of (found : bool) (oldVal : bytes) : bytes :=
  writeStr (writeU8 [] (if found then 1 else 0)) oldVal.

(** [None]: DEL of a missing key calls [map_.erase(map_.end())], which is
    undefined. *)
Definition apply (m : KVStateMachine) (data : bytes) : option (bytes * KVStateMachine) :=
  match decode data with
  | None => Some ([], m)
  | Some (op, key, val) =>
      let it := kv_data m !! key in
      let existed := bool_decide (is_Some it) in
      let oldVal := default [] it in
      if op =? OP_SET then Some (result_of existed oldVal, mkKV (<[key := val]> (kv_data m)))
      else if op =? OP_GET then Some (result_of existed oldVal, m)
      else if op =? OP_DEL then
        if existed then Some (result_of existed oldVal, mkKV (delete key (kv_data m))) else None
      else Some ([], m)
  end.

(** Direct reads. *)
Definition get (m : KVStateMachine) (key : bytes) : option bytes := kv_data m !! key.
Definition exists_ (m : KVStateMachine) (key : bytes) : bool :=
  bool_decide (is_Some (kv_data m !! key)).
Definition size_ (m : KVStateMachine) : Z := Z.of_nat (size (kv_data m)).

(** ** Snapshots *)

Class MapOrder := {
  map_order : kv_map -> list (bytes * bytes);
  map_order_perm m : map_order m ≡ₚ map_to_list m
}.

Definition write_entry (buf : bytes) (e : bytes * bytes) : bytes :=
  writeStr (writeStr buf e.1) e.2.

Definition serializeMap `{MapOrder} (m : KVStateMachine) : bytes :=
  foldl write_entry (writeU32 [] (u32 (Z.of_nat (size (kv_data m))))) (map_order (kv_data m)).

(** A turn reads at least 8 bytes or leaves; a failed read keeps the entries
    read so far. *)
Fixpoint deserialize_loop (fuel : nat) (n : Z) (data : bytes) (off : nat) (m : kv_map)
    : option kv_map :=
  if n <=? 0 then Some m else
  match fuel with
  | O => None
  | S fuel =>
      match readStr data off with
      | None => Some m
      | Some (k, off) =>
          match readStr data off with
          | None => Some m
          | Some (v, off) => deserialize_loop fuel (n - 1) data off (<[k := v]> m)
          end
      end
  end.

Definition deserializeMap (m : KVStateMachine) (data : bytes) : option KVStateMachine :=
  match readU32 data 0 with
  | None => Some (mkKV ∅)
  | Some (count, off) => mkKV <$> deserialize_loop (S (length data)) count data off ∅
  end.

Definition snapshot `{MapOrder} (m : KVStateMachine) : bytes := serializeMap m.
Definition restore (m : KVStateMachine) (data : bytes) : option KVStateMachine :=
  deserializeMap m data.

#[global] Instance KV_StateMachine `{MapOrder} : StateMachine KVStateMachine := {|
  sm_apply := apply; sm_snapshot := snapshot; sm_restore := restore |}.

(** ** The client's side: Protocol.cpp and KVCodec.cpp *)

Module Protocol.
Definition appendU8 (buf : bytes) (v : Z) : bytes := buf ++ [v].
Definition appendU32 (buf : bytes) (v : Z) : bytes := buf ++ put_le 4 v.
Definition appendStr (buf s : bytes) : bytes := appendU32 buf (u32 (Z.of_nat (length s))) ++ s.

Definition readU8 : bytes -> nat -> option (Z * nat) := read_le 1.
Definition readU32 : bytes -> nat -> option (Z * nat) := read_le 4.
Definition readStr (buf : bytes) (off : nat) : option (bytes * nat) :=
  '(len, off) ← readU32 buf off; read_raw len buf off.

Definition encodeSet (key value : bytes) : bytes :=
  appendStr (appendStr (appendU8 [] OP_SET) key) value.
Definition encodeGet (key : bytes) : bytes := appendStr (appendU8 [] OP_GET) key.
Definition encodeDel (key : bytes) : bytes := appendStr (appendU8 [] OP_DEL) key.

(** The out-parameters keep their value where the function returns before
    assigning them. *)
Definition decodeApplyResult (bs : bytes) (found : bool) (value : bytes)
    : bool * bool * bytes :=
  match readU8 bs 0 with
  | None => (false, found, value)
  | Some (f, off) =>
      let found := negb (f =? 0) in
      match readStr bs off with
      | None => (false, found, value)
      | Some (value, _) => (true, found, value)
      end
  end.
End Protocol.

Inductive Op := SET | GET | DEL.

Record ClientRequest := mkRequest { req_op : Op; req_key : bytes; req_value : bytes }.

Record ClientResponse := mkResponse {
  resp_ok : bool;
  resp_err : bytes;
  resp_found : bool;
  resp_value : bytes;
  resp_leaderHint : Z;
}.

Module KVCodec.
Definition encode (req : ClientRequest) : bytes :=
  match req_op req with
  | SET => Protocol.encodeSet (req_key req) (req_value req)
  | GET => Protocol.encodeGet (req_key req)
  | DEL => Protocol.encodeDel (req_key req)
  end.

Definition decodeResult (result : bytes) : ClientResponse :=
  let '(_, found, value) := Protocol.decodeApplyResult result false [] in
  mkResponse true [] found value 0.
End KVCodec.

(** ** Proofs *)

#[global] Instance readU8_codec : Codec readU8 (fun v => [v]) is_u8 := getU8_codec.
#[global] Instance readU32_codec : Codec readU32 (put_le 4) is_u32 := getU32_codec.
#[global] Instance readStr_codec : Codec readStr enc_str str_ok := getStr_codec.

Definition kv_ok (m : KVStateMachine) : Prop :=
  map_Forall (fun k v => str_ok k /\ str_ok v) (kv_data m).

Lemma str_ok_nil : str_ok [].
Proof. split; [constructor|by vm_compute]. Qed.

Lemma kv_ok_lookup m k : kv_ok m -> str_ok (default [] (kv_data m !! k)).
Proof.
  intros Hm. destruct (kv_data m !! k) as [v|] eqn:E; simpl; [|apply str_ok_nil].
  by apply Hm in E as [_ ?].
Qed.

Lemma writeStr_eq buf s : writeStr buf s = buf ++ enc_str s.
Proof. unfold writeStr, writeU32, enc_str. by rewrite <- app_assoc. Qed.

(** The server's private encoders and the client's are the same. *)
Lemma protocol_encode_eq key value :
  Protocol.encodeSet key value = encodeSet key value
  /\ Protocol.encodeGet key = encodeGet key /\ Protocol.encodeDel key = encodeDel key.
Proof. done. Qed.

Lemma enc_str_ok s : bytes_ok s -> bytes_ok (enc_str s).
Proof. intros. apply Forall_app. split; [apply put_le_ok|done]. Qed.

Lemma decode_encodeSet k v :
  str_ok k -> str_ok v -> decode (encodeSet k v) = Some (OP_SET, k, v).
Proof.
  intros Hk Hv. set (data := encodeSet k v).
  assert (data = [OP_SET] ++ enc_str k ++ enc_str v ++ []) as Heq.
  { unfold data, encodeSet. rewrite !writeStr_eq, app_nil_r. by rewrite <- !app_assoc. }
  assert (bytes_ok data) as Hok.
  { rewrite Heq. unfold bytes_ok. rewrite !Forall_app.
    split; [by apply Forall_singleton|]. split; [by apply enc_str_ok, Hk|].
    split; [by apply enc_str_ok, Hv|constructor]. }
  pose proof (at_off_0 data) as Hat. rewrite Heq in Hat at 2.
  unfold decode. decode_run. done.
Qed.

Lemma decode_encodeKey op k :
  is_u8 op -> op <> OP_SET -> str_ok k -> decode (writeStr (writeU8 [] op) k) = Some (op, k, []).
Proof.
  intros Hop Hne Hk. set (data := writeStr (writeU8 [] op) k).
  assert (data = [op] ++ enc_str k ++ []) as Heq.
  { unfold data. by rewrite writeStr_eq, app_nil_r. }
  assert (bytes_ok data) as Hok.
  { rewrite Heq. unfold bytes_ok. rewrite !Forall_app.
    split; [by apply Forall_singleton|]. split; [by apply enc_str_ok, Hk|constructor]. }
  pose proof (at_off_0 data) as Hat. rewrite Heq in Hat at 2.
  unfold decode. decode_run. by rewrite (proj2 (Z.eqb_neq _ _) Hne).
Qed.

Lemma decodeResult_result_of found old :
  str_ok old -> KVCodec.decodeResult (result_of found old) = mkResponse true [] found old 0.
Proof.
  intros Hold. set (data := result_of found old).
  assert (data = [if found then 1 else 0] ++ enc_str old ++ []) as Heq.
  { unfold data, result_of. by rewrite writeStr_eq, app_nil_r. }
  assert (is_u8 (if found then 1 else 0)) as Hf by by destruct found.
  assert (bytes_ok data) as Hok.
  { rewrite Heq. unfold bytes_ok. rewrite !Forall_app.
    split; [by apply Forall_singleton|]. split; [by apply enc_str_ok, Hold|constructor]. }
  pose proof (at_off_0 data) as Hat. rewrite Heq in Hat at 2.
  unfold KVCodec.decodeResult, Protocol.decodeApplyResult.
  change Protocol.readU8 with readU8. change Protocol.readStr with readStr.
  destruct (codec_read readU8 (fun v => [v]) is_u8 data 0 _ _ Hok Hf Hat) as [-> Hat1].
  destruct (codec_read readStr enc_str str_ok data _ _ _ Hok Hold Hat1) as [-> _].
  by destruct found.
Qed.

Lemma decode_ok data op k v : bytes_ok data -> decode data = Some (op, k, v) -> str_ok k /\ str_ok v.
Proof.
  intros Hok H. destruct (at_start data) as (d & Hd & Hat). unfold decode in H.
  codec_invert H. codec_invert H. destruct (v0 =? OP_SET).
  - codec_invert H. by simplify_eq.
  - simplify_eq. split; [done|apply str_ok_nil].
Qed.

Lemma apply_ok m data r m' :
  kv_ok m -> bytes_ok data -> apply m data = Some (r, m') -> kv_ok m'.
Proof.
  intros Hm Hd E. unfold apply in E. destruct (decode data) as [[[op k] v]|] eqn:Ed; [|by simplify_eq].
  apply decode_ok in Ed as [Hk Hv]; [|done].
  destruct (op =? OP_SET); [simplify_eq; by apply map_Forall_insert_2|].
  destruct (op =? OP_GET); [by simplify_eq|].
  destruct (op =? OP_DEL); [|by simplify_eq]. case_bool_decide; simplify_eq.
  by apply map_Forall_delete.
Qed.

(** *** Snapshot round trip *)

Section Snapshot.
Context `{MapOrder}.

Definition enc_entry (e : bytes * bytes) : bytes := enc_str e.1 ++ enc_str e.2.
Definition enc_entries (es : list (bytes * bytes)) : bytes := concat (enc_entry <$> es).

Lemma enc_entries_cons e es : enc_entries (e :: es) = enc_entry e ++ enc_entries es.
Proof. done. Qed.

Lemma write_entries_eq es : forall buf, foldl write_entry buf es = buf ++ enc_entries es.
Proof.
  induction es as [|e es IH]; intros buf; simpl; [by rewrite app_nil_r|].
  rewrite IH, enc_entries_cons. unfold write_entry, enc_entry. rewrite !writeStr_eq.
  by rewrite <- !app_assoc.
Qed.

Lemma length_enc_entries es : (length es <= length (enc_entries es))%nat.
Proof.
  induction es as [|e es IH]; [done|]. rewrite enc_entries_cons. unfold enc_entry.
  autorewrite with wire. lia.
Qed.

Lemma enc_entries_ok es :
  Forall (fun e => str_ok e.1 /\ str_ok e.2) es -> bytes_ok (enc_entries es).
Proof.
  induction 1 as [|e es [H1 H2] _ IH]; [constructor|]. rewrite enc_entries_cons.
  apply Forall_app_2; [|done].
  apply Forall_app_2; [by apply enc_str_ok, H1|by apply enc_str_ok, H2].
Qed.

Lemma deserialize_loop_enc es : forall fuel data off rest m,
  bytes_ok data -> at_off data off (enc_entries es ++ rest) -> (length es <= fuel)%nat ->
  Forall (fun e => str_ok e.1 /\ str_ok e.2) es ->
  deserialize_loop fuel (Z.of_nat (length es)) data off m
  = Some (foldl (fun m e => <[e.1 := e.2]> m) m es).
Proof.
  induction es as [|[k v] es IH]; intros fuel data off rest m Hok Hat Hf Hes.
  { by destruct fuel. }
  destruct fuel as [|fuel]; [simpl in Hf; lia|].
  apply Forall_cons in Hes as [[Hk Hv] Hes]. simpl in Hk, Hv.
  rewrite enc_entries_cons in Hat. unfold enc_entry in Hat. rewrite <- !app_assoc in Hat.
  cbn [fst snd length deserialize_loop] in Hat |- *. rewrite (proj2 (Z.leb_gt _ _)) by lia.
  destruct (codec_read readStr enc_str str_ok data _ _ _ Hok Hk Hat) as [-> Hat1].
  destruct (codec_read readStr enc_str str_ok data _ _ _ Hok Hv Hat1) as [-> Hat2].
  replace (Z.of_nat (S (length es)) - 1) with (Z.of_nat (length es)) by lia.
  rewrite (IH fuel data _ rest); [done|done|done|simpl in Hf; lia|done].
Qed.

Lemma foldl_insert_map (m0 : kv_map) es :
  NoDup es.*1 ->
  foldl (fun (m : kv_map) e => <[e.1 := e.2]> m) m0 es = list_to_map es ∪ m0.
Proof.
  revert m0. induction es as [|[k v] es IH]; intros m0 Hnd; csimpl.
  { by rewrite (left_id_L ∅ (∪)). }
  apply NoDup_cons in Hnd as [Hni Hnd]. rewrite IH by done.
  rewrite <- insert_union_l. rewrite <- insert_union_r; [done|].
  by apply not_elem_of_list_to_map_1.
Qed.

Lemma restore_snapshot_kv m t :
  kv_ok m -> Z.of_nat (size (kv_data m)) < 2 ^ 32 ->
  restore t (snapshot m) = Some m.
Proof.
  intros Hm Hsz. set (es := map_order (kv_data m)).
  pose proof (map_order_perm (kv_data m)) as Hp. fold es in Hp.
  assert (Forall (fun e => str_ok e.1 /\ str_ok e.2) es) as Hes.
  { rewrite Hp. apply map_Forall_to_list in Hm. eapply Forall_impl; [exact Hm|].
    by intros [? ?]. }
  assert (length es = size (kv_data m)) as Hlen.
  { rewrite Hp. by rewrite length_map_to_list. }
  set (data := snapshot m).
  assert (data = put_le 4 (Z.of_nat (size (kv_data m))) ++ enc_entries es ++ []) as Heq.
  { unfold data, snapshot, serializeMap. rewrite write_entries_eq, app_nil_r.
    unfold writeU32. by rewrite u32_small by mach. }
  assert (bytes_ok data) as Hok.
  { rewrite Heq. apply Forall_app_2; [apply put_le_ok|].
    apply Forall_app_2; [by apply enc_entries_ok|constructor]. }
  pose proof (at_off_0 data) as Hat. rewrite Heq in Hat at 2.
  apply read_put_le in Hat as [E Hat]. rewrite Z.mod_small in E by (simpl; lia).
  unfold restore, deserializeMap, readU32. rewrite E, <- Hlen.
  rewrite (deserialize_loop_enc es _ _ _ []); [|done|done| |done].
  - simpl. f_equal. destruct m as [m]. simpl in *. f_equal.
    assert (NoDup es.*1) as Hnd by (rewrite Hp; apply NoDup_fst_map_to_list).
    rewrite foldl_insert_map by done. rewrite (right_id_L ∅ (∪)).
    rewrite <- (list_to_map_to_list m). by apply list_to_map_proper.
  - rewrite Heq, !length_app, length_put_le. pose proof (length_enc_entries es). lia.
Qed.

#[global] Program Instance KV_laws : StateMachineLaws KVStateMachine := {|
  sm_ok := kv_ok;
  sm_equiv := eq;
  sm_fits m := Z.of_nat (size (kv_data m)) < 2 ^ 32
|}.
Next Obligation. intros m d r m'. apply apply_ok. Qed.
Next Obligation. intros m ? d r m' _ _ _ <- E. by exists m'. Qed.
Next Obligation.
  intros m t Hm _ Hf. exists m. split; [by apply restore_snapshot_kv|done].
Qed.
End Snapshot.

(** ** Properties *)

(** What a request does to the map. *)
Definition spec_request (req : ClientRequest) (m : kv_map) : kv_map :=
  match req_op req with
  | SET => <[req_key req := req_value req]> m
  | GET => m
  | DEL => delete (req_key req) m
  end.

(** C29. A client request from end to end: encoded by the codec, applied and
    decoded, it is answered with whether the key was there and its previous
    value, and changes the map as SET, GET and DEL should; except that a DEL
    of a key that is not there, and nothing else, has undefined behaviour. *)
Theorem kv_request_end_to_end (m : KVStateMachine) (req : ClientRequest) :
  kv_ok m -> str_ok (req_key req) -> str_ok (req_value req) ->
  match apply m (KVCodec.encode req) with
  | None => req_op req = DEL /\ kv_data m !! req_key req = None
  | Some (reply, m') =>
      (req_op req = DEL -> is_Some (kv_data m !! req_key req))
      /\ KVCodec.decodeResult reply
         = mkResponse true [] (bool_decide (is_Some (kv_data m !! req_key req)))
             (default [] (kv_data m !! req_key req)) 0
      /\ kv_data m' = spec_request req (kv_data m) /\ kv_ok m'
  end.
Proof.
  intros Hm Hk Hv. pose proof (kv_ok_lookup m (req_key req) Hm) as Hold.
  destruct req as [op k v]. simpl in *. unfold apply, KVCodec.encode, spec_request. simpl.
  destruct op; simpl; destruct (protocol_encode_eq k v) as (E1 & E2 & E3).
  - rewrite E1, decode_encodeSet by done. simpl.
    rewrite decodeResult_result_of by done. split_and!; [done..|].
    by apply map_Forall_insert_2.
  - rewrite E2. unfold encodeGet. rewrite decode_encodeKey by done. simpl.
    by rewrite decodeResult_result_of by done.
  - rewrite E3. unfold encodeDel. rewrite decode_encodeKey by done. simpl.
    case_bool_decide as Hd; [|split; [done|by apply eq_None_not_Some]].
    rewrite decodeResult_result_of by done. split_and!; [done..|by apply map_Forall_delete].
Qed.

(** A DEL of a key that is not there has undefined behaviour, although
    its documentation promises an empty result: [map_.erase] is called with
    the end iterator. *)
Theorem kv_del_missing_undefined (m : KVStateMachine) (k : bytes) :
  str_ok k -> kv_data m !! k = None ->
  apply m (KVCodec.encode (mkRequest DEL k [])) = None.
Proof.
  intros Hk Hnone. unfold apply, KVCodec.encode. simpl.
  destruct (protocol_encode_eq k []) as (_ & _ & ->). unfold encodeDel.
  rewrite decode_encodeKey by done. simpl. by rewrite Hnone.
Qed.

(** Compaction of the key-value log, whatever the iteration order of the
    map: the restored replica is in the very state of the one that applied
    the prefix, so it answers the rest of the log identically. *)
Theorem kv_compaction_sound `{MapOrder} log1 log2 m t rs1 m1 rs2 m2 :
  kv_ok m -> kv_ok t -> Forall bytes_ok log1 -> Forall bytes_ok log2 ->
  replay m log1 = Some (rs1, m1) -> Z.of_nat (size (kv_data m1)) < 2 ^ 32 ->
  replay m1 log2 = Some (rs2, m2) ->
  exists t1, restore t (snapshot m1) = Some t1 /\ replay t1 log2 = Some (rs2, m2).
Proof.
  intros Hm Ht Hl1 Hl2 E1 Hf E2.
  destruct (snapshot_replay log1 log2 m t rs1 m1 rs2 m2) as (t1 & t2 & ? & ? & He);
    [done..|]. simpl in He. subst. by exists t1.
Qed.

(** ** Witnesses *)

Definition sample_kv : KVStateMachine := mkKV {[ [97] := [1; 2] ]}.

Lemma sample_kv_ok : kv_ok sample_kv.
Proof.
  apply map_Forall_singleton. split; (split; [by repeat constructor|by vm_compute]).
Qed.

Lemma kv_request_end_to_end_witness :
  exists reply m', apply sample_kv (KVCodec.encode (mkRequest DEL [97] [])) = Some (reply, m')
    /\ KVCodec.decodeResult reply = mkResponse true [] true [1; 2] 0
    /\ kv_data m' !! [97] = None.
Proof.
  pose proof (kv_request_end_to_end sample_kv (mkRequest DEL [97] []) sample_kv_ok
    ltac:(split; [by repeat constructor|by vm_compute]) str_ok_nil) as H.
  destruct (apply sample_kv (KVCodec.encode (mkRequest DEL [97] []))) as [[reply m']|] eqn:E;
    [|by vm_compute in E].
  exists reply, m'. destruct H as (_ & Er & Hd & _). split; [reflexivity|]. split; [exact Er|]. by rewrite Hd.
Defined.

Lemma kv_del_missing_undefined_witness :
  apply sample_kv (KVCodec.encode (mkRequest DEL [98] [])) = None.
Proof.
  apply (kv_del_missing_undefined sample_kv [98]); [|reflexivity].
  split; [by repeat constructor|by vm_compute].
Defined.

#[local] Instance sample_order : MapOrder := {|
  map_order m := reverse (map_to_list m);
  map_order_perm m := reverse_Permutation (map_to_list m) |}.

Lemma kv_compaction_sound_witness :
  exists t1 rs m2, restore (mkKV ∅) (snapshot sample_kv) = Some t1
    /\ replay t1 [encodeSet [98] [7]; encodeGet [97]] = Some (rs, m2)
    /\ kv_data m2 !! [98] = Some [7] /\ rs !! 1%nat = Some [1; 2; 0; 0; 0; 1; 2].
Proof.
  destruct (replay sample_kv [encodeSet [98] [7]; encodeGet [97]]) as [[rs m2]|] eqn:E;
    [|by vm_compute in E].
  destruct (kv_compaction_sound [] [encodeSet [98] [7]; encodeGet [97]] sample_kv (mkKV ∅)
    [] sample_kv rs m2) as (t1 & E1 & E2).
  - exact sample_kv_ok.
  - apply map_Forall_empty.
  - constructor.
  - apply (bool_decide_unpack _). vm_compute. exact I.
  - reflexivity.
  - by vm_compute.
  - exact E.
  - exists t1, rs, m2. split; [exact E1|]. split; [exact E2|].
    vm_compute in E. injection E as <- <-. split; vm_compute; reflexivity.
Defined.
