(* ===== verification/CommandCodec.v ===== *)
(** * The interfaces a server is given

    Models [src/app/protocol/CommandCodec.h]: the translation between client
    requests and replicated commands, and the reader of the order book. *)

From S2P Require Import Prelude IOrderBook KVStateMachine.

(** A codec may keep state, and [encode] may throw ([None]). *)
Class CommandCodec := {
  cc_state : Type;
  cc_encode : cc_state -> ClientRequest -> option (bytes * cc_state);
  cc_decodeResult : bytes -> ClientResponse
}.

(** The reader looks at the state machine. *)
Record BookReader (S : Type) := mkBookReader {
  br_bids : S -> Z -> list PriceLevel;
  br_asks : S -> Z -> list PriceLevel;
}.
Arguments br_bids {S}.
Arguments br_asks {S}.

(** The key-value codec has none. *)
Definition KVCodec_instance : CommandCodec := {|
  cc_state := unit;
  cc_encode := fun _ req => Some (KVCodec.encode req, tt);
  cc_decodeResult := KVCodec.decodeResult
|}.
