(* ===== verification/ClientServer.v ===== *)
(** * The text protocol

    Models [src/app/net/ClientServer.h] and [src/app/net/ClientServer.cpp]:
    a connection's bytes are cut into lines, each line is a command, each
    command gets a reply.  The proposal handler is a parameter, with its
    state; it may throw ([None]), which ends the process, since nothing
    catches an exception of the accept thread.  The result of [writeAll] is
    not looked at, so no later step depends on a write: [handleClient]
    collects the replies in the order they are written, and [transmit] is
    what the calls of [writeAll] then put on the wire.  The accept loop is in
    [Acceptor]; it serves one client at a time.

    [toupper] is that of the C locale, on the bytes as [unsigned char]. *)

From Stdlib Require Import String.
From S2P Require Import Prelude StdString Socket KVStateMachine.

(** ** Commands *)

Definition toupper (c : Z) : Z := if (97 <=? c) && (c <=? 122) then c - 32 else c.

(** The characters up to the next white space. *)
Fixpoint word (s : bytes) : bytes * bytes :=
  match s with
  | [] => ([], [])
  | c :: s' => if is_space c then ([], s) else let '(w, r) := word s' in (c :: w, r)
  end.

(** [iss >> w]: the word and what is left, or failure at the end. *)
Definition next_word (s : bytes) : option (bytes * bytes) :=
  match skip_spaces s with
  | [] => None
  | s => Some (word s)
  end.

Definition parseCommand (line : bytes) : option ClientRequest :=
  '(cmd, iss) ← next_word line;
  let cmd := toupper <$> cmd in
  if bool_decide (cmd = ascii_bytes "SET") then
    '(key, iss) ← next_word iss;
    '(value, iss) ← next_word iss;
    Some (mkRequest SET key value)
  else if bool_decide (cmd = ascii_bytes "GET") then
    '(key, iss) ← next_word iss; Some (mkRequest GET key [])
  else if bool_decide (cmd = ascii_bytes "DEL") then
    '(key, iss) ← next_word iss; Some (mkRequest DEL key [])
  else None.

Definition newline : Z := 10.
Definition carriage_return : Z := 13.

Definition formatResponse (resp : ClientResponse) : bytes :=
  if negb (resp_ok resp) then
    if negb (bool_decide (resp_err resp = [])) && bool_decide (resp_err resp = ascii_bytes "not leader")
    then ascii_bytes "NOTLEADER " ++ to_string (resp_leaderHint resp) ++ [newline]
    else ascii_bytes "ERR " ++ resp_err resp ++ [newline]
  else if resp_found resp then ascii_bytes "OK " ++ resp_value resp ++ [newline]
  else ascii_bytes "OK" ++ [newline].

Definition strip_cr (line : bytes) : bytes :=
  match last line with
  | Some c => if c =? carriage_return then take (length line - 1) line else line
  | None => line
  end.

(** ** The writes *)

Section Writes.
Context `{!Network}.

(** [ClientServer::writeAll]: success, the bytes written, and the calls of
    [send] so far. *)
Definition writeAll (k : nat) (s : bytes) : option (bool * bytes * nat) := Socket.writeAll k s.

(** The calls of [writeAll] of a session, none of whose results is looked
    at: the bytes of each reply that went out, and the calls of [send]. *)
Fixpoint transmit (k : nat) (replies : list bytes) : option (list bytes * nat) :=
  match replies with
  | [] => Some ([], k)
  | reply :: replies =>
      '(_, w, k) ← writeAll k reply;
      '(ws, k) ← transmit k replies;
      Some (w :: ws, k)
  end.
End Writes.

(** ** A connection *)

Section Connection.
(** The handler registered by [setProposalHandler], if any. *)
Context {H : Type} (proposalHandler : option (H -> ClientRequest -> option (ClientResponse * H))).

(** What one line of input does: the reply, if it gets one.  [None] when
    the handler throws. *)
Definition handle_line (h : H) (line : bytes) : option (option bytes * H) :=
  let line := strip_cr line in
  match line with
  | [] => Some (None, h)
  | _ =>
      match parseCommand line with
      | None => Some (Some (ascii_bytes "ERR invalid command" ++ [newline]), h)
      | Some req =>
          '(resp, h) ← match proposalHandler with
                       | Some handler => handler h req
                       | None => Some (mkResponse false (ascii_bytes "no handler") false [] 0, h)
                       end;
          Some (Some (formatResponse resp), h)
      end
  end.

(** The loop over the complete lines of the buffer: the replies written, the
    buffer left, the handler's state; [false] when the process ended. *)
Fixpoint process_lines (fuel : nat) (buffer : bytes) (h : H)
  : option (list bytes * bytes * H * bool) :=
  match find_byte newline buffer with
  | None => Some ([], buffer, h, true)
  | Some pos =>
      match fuel with
      | O => None
      | S fuel =>
          let line := take pos buffer in
          let buffer := drop (S pos) buffer in
          match handle_line h line with
          | None => Some ([], buffer, h, false)
          | Some (reply, h) =>
              '(replies, buffer, h, alive) ← process_lines fuel buffer h;
              Some (option_list reply ++ replies, buffer, h, alive)
          end
      end
  end.

Definition chunk_size : nat := 1024.

(** The outer loop, when [running_] is found set [rounds] times. *)
Fixpoint handleClient (rounds : nat) (inc : Incoming) (buffer : bytes) (h : H)
  : option (list bytes * H * bool) :=
  match rounds with
  | O => Some ([], h, true)
  | S rounds =>
      match recv chunk_size inc with
      | None => Some ([], h, true)
      | Some (chunk, inc) =>
          let buffer := buffer ++ chunk in
          '(replies, buffer, h, alive) ← process_lines (length buffer) buffer h;
          if alive : bool then
            '(more, h, alive) ← handleClient rounds inc buffer h;
            Some (replies ++ more, h, alive)
          else Some (replies, h, false)
      end
  end.

(** ** The reference: the lines of the whole input, one after the other *)

(** The complete lines of an input and what follows the last of them. *)
Fixpoint split_lines (s : bytes) : list bytes * bytes :=
  match s with
  | [] => ([], [])
  | c :: s =>
      let '(ls, rest) := split_lines s in
      if c =? newline then ([] :: ls, rest)
      else match ls with
           | [] => ([], c :: rest)
           | l :: ls => ((c :: l) :: ls, rest)
           end
  end.

Fixpoint serve (ls : list bytes) (h : H) : list bytes * H * bool :=
  match ls with
  | [] => ([], h, true)
  | l :: ls =>
      match handle_line h l with
      | None => ([], h, false)
      | Some (reply, h) =>
          let '(replies, h, alive) := serve ls h in (option_list reply ++ replies, h, alive)
      end
  end.
End Connection.

(** ** Proofs *)

Lemma split_lines_none s : newline ∉ s -> split_lines s = ([], s).
Proof.
  induction s as [|c s IH]; intros Hn; [done|]. simpl. rewrite IH by set_solver.
  destruct (Z.eqb_spec c newline); [set_solver|done].
Qed.

Lemma split_lines_line l s : newline ∉ l ->
  split_lines (l ++ newline :: s) = (l :: (split_lines s).1, (split_lines s).2).
Proof.
  induction l as [|c l IH]; intros Hn; simpl.
  - by destruct (split_lines s).
  - rewrite IH by set_solver. destruct (Z.eqb_spec c newline); [set_solver|done].
Qed.

(** Induction line by line. *)
Lemma lines_ind (P : bytes -> Prop) :
  (forall s, newline ∉ s -> P s) ->
  (forall l s, newline ∉ l -> P s -> P (l ++ newline :: s)) -> forall s, P s.
Proof.
  intros Hend Hline s. remember (length s) as n eqn:En. revert s En.
  induction n as [n IH] using lt_wf_ind; intros s ->.
  destruct (find_byte newline s) as [i|] eqn:E.
  - apply find_byte_Some in E as (l & r & -> & _ & Hl). apply Hline; [done|].
    apply (IH (length r)); [rewrite length_app; simpl; lia|done].
  - by apply Hend, find_byte_None.
Qed.

Lemma split_lines_app s1 s2 :
  split_lines (s1 ++ s2)
  = ((split_lines s1).1 ++ (split_lines ((split_lines s1).2 ++ s2)).1,
     (split_lines ((split_lines s1).2 ++ s2)).2).
Proof.
  induction s1 as [s1 Hs|l r Hl IH] using lines_ind.
  - rewrite (split_lines_none s1) by done. cbn [fst snd app]. by destruct (split_lines (s1 ++ s2)).
  - rewrite <- app_assoc. cbn [app]. rewrite !split_lines_line by done. cbn [fst snd app].
    by rewrite IH.
Qed.

Lemma split_lines_rest s : newline ∉ (split_lines s).2.
Proof.
  induction s as [s Hs|l r Hl IH] using lines_ind.
  - by rewrite split_lines_none.
  - by rewrite split_lines_line.
Qed.

Section Reference.
Context {H : Type} (handler : option (H -> ClientRequest -> option (ClientResponse * H))).

Lemma serve_app ls1 ls2 h :
  serve handler (ls1 ++ ls2) h
  = let '(r1, h1, a1) := serve handler ls1 h in
    if a1 : bool then let '(r2, h2, a2) := serve handler ls2 h1 in (r1 ++ r2, h2, a2)
    else (r1, h1, false).
Proof.
  revert h. induction ls1 as [|l ls1 IH]; intros h; cbn [app serve].
  { by destruct (serve handler ls2 h) as [[? ?] ?]. }
  destruct (handle_line handler h l) as [[reply h1]|]; [|done]. rewrite IH.
  destruct (serve handler ls1 h1) as [[r1 h2] []]; [|done].
  destruct (serve handler ls2 h2) as [[r2 h3] a2]. by rewrite app_assoc.
Qed.

Lemma process_lines_spec fuel : forall buffer h,
  (length buffer <= fuel)%nat ->
  exists rest, process_lines handler fuel buffer h
    = Some (let '(r, h', alive) := serve handler (split_lines buffer).1 h in (r, rest, h', alive))
  /\ ((serve handler (split_lines buffer).1 h).2 = true -> rest = (split_lines buffer).2).
Proof.
  induction fuel as [|fuel IH]; intros buffer h Hf; cbn [process_lines].
  - destruct buffer; [|simpl in Hf; lia]. by exists [].
  - destruct (find_byte newline buffer) as [pos|] eqn:E.
    + apply find_byte_Some in E as (l & r & -> & <- & Hl).
      rewrite take_app_length, split_lines_line by done.
      rewrite drop_past.
      cbn [fst snd serve]. destruct (handle_line handler h l) as [[reply h1]|]; [|by exists r].
      rewrite length_app in Hf. simpl in Hf.
      destruct (IH r h1) as (rest & -> & Hr); [lia|]. exists rest.
      destruct (serve handler (split_lines r).1 h1) as [[r1 h2] a1]. done.
    + apply find_byte_None in E. rewrite (split_lines_none buffer) by done. by exists buffer.
Qed.

Lemma handleClient_spec rounds : forall inc buffer h,
  live inc -> newline ∉ buffer -> (length (concat inc) < rounds)%nat ->
  handleClient handler rounds inc buffer h
  = Some (serve handler (split_lines (buffer ++ concat inc)).1 h).
Proof.
  induction rounds as [|rounds IH]; intros inc buffer h Hl Hb Hr; [lia|]. cbn [handleClient].
  pose proof (recv_live chunk_size inc Hl ltac:(unfold chunk_size; lia)) as Hv.
  destruct (recv chunk_size inc) as [[c inc']|].
  - destruct Hv as (Ec & Hl' & Hc). rewrite Ec, app_assoc, (split_lines_app (buffer ++ c)). cbn [fst].
    rewrite serve_app.
    destruct (process_lines_spec (length (buffer ++ c)) (buffer ++ c) h) as (rest & -> & Hrest); [done|].
    destruct (serve handler (split_lines (buffer ++ c)).1 h) as [[r1 h1] a1].
    cbn [mbind option_bind snd] in *. destruct a1; [|done].
    rewrite (Hrest eq_refl). rewrite IH; [|done| |rewrite Ec, length_app in Hr; lia].
    + cbn [mbind option_bind]. by destruct (serve handler _ h1) as [[r2 h2] a2].
    + apply split_lines_rest.
  - rewrite Hv, app_nil_r, split_lines_none by done. done.
Qed.
End Reference.

Section Claims.
Context {H : Type} (handler : option (H -> ClientRequest -> option (ClientResponse * H))).

Lemma serve_count ls : forall h replies h',
  serve handler ls h = (replies, h', true) ->
  length replies = length (filter (fun l => strip_cr l <> []) ls).
Proof.
  induction ls as [|l ls IH]; intros h replies h' E; cbn [serve] in E; [by simplify_eq|].
  destruct (handle_line handler h l) as [[reply h1]|] eqn:Eh; [|done].
  destruct (serve handler ls h1) as [[r h2] a] eqn:Es. injection E as <- <- ->.
  rewrite length_app, (IH _ _ _ Es). unfold handle_line in Eh.
  destruct (strip_cr l) as [|c l'] eqn:El.
  - injection Eh as <- _. by rewrite filter_cons_False by (by rewrite El; intros []).
  - rewrite filter_cons_True by (by rewrite El). simpl. f_equal.
    destruct (parseCommand _); [|by simplify_eq].
    destruct (match handler with Some f => _ | None => _ end) as [[resp h3]|]; by simplify_eq/=.
Qed.

Context `{!Network} `{!NetworkLaws}.

(** Every reply is offered to the network, whatever became of those before
    it; of each, a prefix goes out, and all of it when no [send] fails. *)
Lemma transmit_spec replies : forall k, exists ws k',
  transmit k replies = Some (ws, k')
  /\ Forall2 prefix ws replies
  /\ ((forall k n, net_send k n <> None) -> ws = replies).
Proof.
  induction replies as [|r replies IH]; intros k; [by exists [], k|]. cbn [transmit]. unfold writeAll.
  destruct (writeAll_spec k r) as (ok & w & k1 & E & Hw). destruct (IH k1) as (ws & k' & Et & Hp & Ht).
  exists (w :: ws), k'. rewrite E. cbn [mbind option_bind]. rewrite Et. split_and!; [done| |].
  - constructor; [|done]. destruct ok; [by subst|by destruct Hw].
  - intros writes. destruct (writeAll_through writes k r) as [k2 E2]. rewrite E in E2. simplify_eq.
    by rewrite Ht.
Qed.

(** C23. A client's session depends only on the bytes it sends: however the
    network cuts them into segments, and whatever part of a line a segment
    ends in, the server handles the complete lines one by one, in order, each
    exactly once; every line that is not blank gets one reply, in order, as
    long as no handler throws.  However the network takes the replies, what
    goes out of each is a prefix of it, in order, and all of it when no write
    fails: the client then receives the replies, one after the other. *)
Theorem text_session_by_lines rounds inc h k :
  live inc -> (length (concat inc) < rounds)%nat ->
  let '(lines, _) := split_lines (concat inc) in
  exists replies h' alive ws k',
    handleClient handler rounds inc [] h = Some (replies, h', alive)
    /\ serve handler lines h = (replies, h', alive)
    /\ (alive = true -> length replies = length (filter (fun l => strip_cr l <> []) lines))
    /\ transmit k replies = Some (ws, k')
    /\ Forall2 prefix ws replies
    /\ ((forall k n, net_send k n <> None) -> concat ws = concat replies).
Proof.
  intros Hl Hr. pose proof (handleClient_spec handler rounds inc [] h Hl (not_elem_of_nil _) Hr) as E.
  cbn [app] in E. destruct (split_lines (concat inc)) as [lines rest]. cbn [fst] in E.
  destruct (serve handler lines h) as [[replies h'] alive] eqn:Es.
  destruct (transmit_spec replies k) as (ws & k' & Et & Hp & Ht). exists replies, h', alive, ws, k'.
  split_and!; [done..| |done|done|].
  - intros ->. by apply (serve_count lines h replies h').
  - intros writes. by rewrite Ht.
Qed.
End Claims.

(** A handler that counts requests and answers with the key. *)
Definition demo_handler (n : nat) (req : ClientRequest) : option (ClientResponse * nat) :=
  Some (mkResponse true [] true (req_key req) 0, S n).

(** A network that takes at most two bytes at a time, and fails once. *)
Definition demo_network : Network :=
  {| net_connect _ _ _ := true;
     net_send k n := if (k =? 1)%nat then None else Some (Nat.min 2 n) |}.

Lemma demo_network_laws : @NetworkLaws demo_network.
Proof. intros k n s Hn E. unfold net_send, demo_network in E. destruct (k =? 1)%nat; [done|].
  injection E as <-. destruct n as [|[|n]]; simpl in *; lia.
Qed.

Definition demo_input : Incoming :=
  [ascii_bytes "GET a"; [13; 10; 10] ++ ascii_bytes "set k"; ascii_bytes " v" ++ [10; 71]].

Lemma text_session_by_lines_witness :
  let '(lines, _) := split_lines (concat demo_input) in
  exists replies h' alive ws k',
    handleClient (Some demo_handler) 99 demo_input [] 0%nat = Some (replies, h', alive)
    /\ serve (Some demo_handler) lines 0%nat = (replies, h', alive)
    /\ (alive = true -> length replies = length (filter (fun l => strip_cr l <> []) lines))
    /\ @transmit demo_network 0 replies = Some (ws, k')
    /\ Forall2 prefix ws replies
    /\ ((forall k n, @net_send demo_network k n <> None) -> concat ws = concat replies).
Proof.
  apply (@text_session_by_lines _ (Some demo_handler) demo_network demo_network_laws 99 demo_input 0%nat 0%nat);
    apply (bool_decide_unpack _); vm_compute; exact I.
Defined.

Example demo_session :
  handleClient (Some demo_handler) 99 demo_input [] 0%nat
  = Some ([ascii_bytes "OK a" ++ [10]; ascii_bytes "OK k" ++ [10]], 2%nat, true)
  /\ @transmit demo_network 0 [ascii_bytes "OK a" ++ [10]; ascii_bytes "OK k" ++ [10]]
     = Some ([ascii_bytes "OK"; ascii_bytes "OK k" ++ [10]], 5%nat).
Proof. split; vm_compute; reflexivity. Qed.
