(* ===== verification/LOBCodec.v ===== *)
(** * The codec of the order book's text commands

    Models [src/app/protocol/LOBCodec.h] and [src/app/protocol/LOBCodec.cpp].
    The state of the codec is [nextOrderId_].  The conversions [std::stoll]
    and [std::stoull] throw on what is not a number; nothing between them and
    the client's thread catches that. *)

From Stdlib Require Import String.
From S2P Require Import Prelude StdString IOrderBook BookSpec OrderProtocol StateMachine.
From S2P Require Import LOBStateMachine LOBTheorems MapOrderBook BookTheorems KVStateMachine.
From S2P Require Import CommandCodec Socket ClientServer.

Definition colon : Z := 58.

Definition encode (nextOrderId : Z) (req : ClientRequest) : option (bytes * Z) :=
  match req_op req with
  | SET =>
      let side := if bool_decide (req_key req = ascii_bytes "sell") then Sell else Buy in
      match find_byte colon (req_value req) with
      | None => Some ([], nextOrderId)
      | Some i =>
          price ← stoll (take i (req_value req));
          qty ← stoll (drop (S i) (req_value req));
          Some (encodeNew nextOrderId side price qty, nextOrderId +u 1)
      end
  | DEL =>
      orderId ← stoull (req_key req);
      Some (encodeCancel orderId, nextOrderId)
  | GET => Some ([], nextOrderId)
  end.

Definition fill_summary (f : WireFill) : bytes :=
  ascii_bytes "F " ++ to_string (wf_quantity f) ++ ascii_bytes "@" ++ to_string (wf_price f)
  ++ ascii_bytes " ".

Definition decodeResult (result : bytes) : ClientResponse :=
  match result with
  | [] => mkResponse false [] false [] 0
  | _ =>
      match decodeNewResult result with
      | Some (fills, rested, remaining) =>
          let summary := concat (fill_summary <$> fills) in
          let summary := if rested : bool then summary ++ ascii_bytes "REST " ++ to_string remaining
                         else summary in
          mkResponse true [] (negb (bool_decide (fills = []))) summary 0
      | None =>
          match decodeSimpleResult result with
          | Some ok => mkResponse ok [] false [] 0
          | None => mkResponse false [] false [] 0
          end
      end
  end.

Definition new_LOBCodec : Z := 1.

Definition LOBCodec_instance : CommandCodec := {|
  cc_state := Z;
  cc_encode := encode;
  cc_decodeResult := decodeResult
|}.

(** ** What a client types *)

Definition side_word (s : Side) : bytes :=
  match s with Buy => ascii_bytes "buy" | Sell => ascii_bytes "sell" end.

Definition order_line (s : Side) (price qty : Z) : bytes :=
  ascii_bytes "SET " ++ side_word s ++ ascii_bytes " " ++ to_string price ++ [colon] ++ to_string qty.

Definition cancel_line (id : Z) : bytes := ascii_bytes "DEL " ++ to_string id.

(** ** Words *)

Definition no_space (w : bytes) : Prop := Forall (fun c => is_space c = false) w.

Lemma word_app w rest :
  no_space w -> match rest with [] => True | c :: _ => is_space c = true end ->
  word (w ++ rest) = (w, rest).
Proof.
  induction 1 as [|c w Hc _ IH]; intros Hr; simpl; [|rewrite Hc; by rewrite IH].
  destruct rest as [|c rest]; [done|]. simpl. by rewrite Hr.
Qed.

Lemma next_word_app w rest :
  no_space w -> w <> [] -> match rest with [] => True | c :: _ => is_space c = true end ->
  next_word (32 :: w ++ rest) = Some (w, rest) /\ next_word (w ++ rest) = Some (w, rest).
Proof.
  intros Hw Hne Hr. destruct w as [|c w]; [done|]. pose proof Hw as [Hc _]%Forall_cons.
  unfold next_word. cbn [skip_spaces app]. change (is_space 32) with true. rewrite Hc.
  split; f_equal; apply (word_app (c :: w)); done.
Qed.

Lemma parse_set k v :
  no_space k -> k <> [] -> no_space v -> v <> [] ->
  parseCommand (ascii_bytes "SET " ++ k ++ ascii_bytes " " ++ v) = Some (mkRequest SET k v).
Proof.
  intros Hk Hk0 Hv Hv0. unfold parseCommand.
  change (next_word (ascii_bytes "SET " ++ k ++ ascii_bytes " " ++ v))
    with (next_word (ascii_bytes "SET" ++ 32 :: k ++ 32 :: v)).
  rewrite (proj2 (next_word_app (ascii_bytes "SET") (32 :: k ++ 32 :: v)
                    ltac:(by apply (bool_decide_unpack _); vm_compute) ltac:(done) eq_refl)).
  cbn [mbind option_bind]. rewrite bool_decide_true by (by vm_compute).
  rewrite (proj1 (next_word_app k (32 :: v) Hk Hk0 eq_refl)). cbn [mbind option_bind].
  rewrite <- (app_nil_r v) at 1. by rewrite (proj1 (next_word_app v [] Hv Hv0 I)).
Qed.

Lemma parse_del k :
  no_space k -> k <> [] -> parseCommand (ascii_bytes "DEL " ++ k) = Some (mkRequest DEL k []).
Proof.
  intros Hk Hk0. unfold parseCommand.
  change (next_word (ascii_bytes "DEL " ++ k)) with (next_word (ascii_bytes "DEL" ++ 32 :: k)).
  rewrite (proj2 (next_word_app (ascii_bytes "DEL") (32 :: k)
                    ltac:(by apply (bool_decide_unpack _); vm_compute) ltac:(done) eq_refl)).
  cbn [mbind option_bind]. rewrite bool_decide_false by (by vm_compute).
  rewrite bool_decide_false by (by vm_compute). rewrite bool_decide_true by (by vm_compute).
  rewrite <- (app_nil_r k) at 1. by rewrite (proj1 (next_word_app k [] Hk Hk0 I)).
Qed.

(** Printed numbers are words, and hold no colon. *)
Lemma to_string_chars v : - 10 ^ 20 < v < 10 ^ 20 ->
  to_string v <> [] /\ Forall (fun c => c = 45 \/ is_digit c = true) (to_string v).
Proof.
  intros Hv. unfold to_string. destruct (Z.ltb_spec v 0).
  - split; [done|]. constructor; [by left|].
    eapply Forall_impl; [apply print_nat_digits; lia|]. auto.
  - destruct (print_nat_head 19 v ltac:(lia)) as (c & s & E & _). split; [by rewrite E|].
    eapply Forall_impl; [apply print_nat_digits; lia|]. auto.
Qed.

Lemma to_string_word v : - 10 ^ 20 < v < 10 ^ 20 -> no_space (to_string v) /\ colon ∉ to_string v.
Proof.
  intros Hv. destruct (to_string_chars v Hv) as [_ Hc]. split.
  - eapply Forall_impl; [exact Hc|]. intros c [->|Hd]; [done|]. by apply digit_not_special.
  - intros Hin. rewrite Forall_forall in Hc. destruct (Hc _ Hin) as [E|E]; done.
Qed.

Lemma encode_order next s p q :
  is_i64 p -> is_i64 q ->
  (req ← parseCommand (order_line s p q); encode next req)
  = Some (encodeNew next s p q, next +u 1).
Proof.
  intros Hp Hq.
  destruct (to_string_word p ltac:(mach)) as [Wp Cp], (to_string_word q ltac:(mach)) as [Wq _].
  unfold order_line. rewrite parse_set.
  - cbn [mbind option_bind]. unfold encode. cbn [req_op req_key req_value].
    rewrite (proj2 (find_byte_Some _ _ (length (to_string p)))) by (by eexists _, _).
    rewrite take_app_length. cbn [app].
    rewrite (stoll_to_string p Hp). cbn [mbind option_bind].
    rewrite drop_past.
    rewrite (stoll_to_string q Hq). cbn [mbind option_bind].
    destruct s; [rewrite bool_decide_false by (by vm_compute)|rewrite bool_decide_true by done]; done.
  - destruct s; apply (bool_decide_unpack _); vm_compute; exact I.
  - by destruct s.
  - apply Forall_app. split; [done|]. by constructor.
  - by destruct (to_string p).
Qed.

Lemma encode_cancel next id :
  is_u64 id ->
  (req ← parseCommand (cancel_line id); encode next req) = Some (encodeCancel id, next).
Proof.
  intros Hid. destruct (to_string_word id ltac:(mach)) as [Wi _].
  destruct (to_string_chars id ltac:(mach)) as [Ni _].
  unfold cancel_line. rewrite parse_del by done. cbn [mbind option_bind]. unfold encode.
  cbn [req_op req_key]. by rewrite stoull_to_string.
Qed.

(** ** A session

    The handler behind the text server, without the replication in between:
    a request is encoded, applied to the state machine and its reply decoded. *)
Section Session.
Context {B : Type} `{!IOrderBook B}.

Definition lob_handler (h : Z * LOBStateMachine B) (req : ClientRequest)
  : option (ClientResponse * (Z * LOBStateMachine B)) :=
  let '(next, m) := h in
  '(data, next) ← encode next req;
  if bool_decide (data = []) then
    Some (mkResponse false (ascii_bytes "bad request") false [] 0, (next, m))
  else
    '(reply, m) ← LOBStateMachine.apply m data;
    Some (decodeResult reply, (next, m)).

Context `{!IOrderBookLaws B}.

(** The text of the reply to an order that was accepted. *)
Definition order_reply (fs : list Fill) (rest : Z) : bytes :=
  match fs with
  | [] => ascii_bytes "OK"
  | _ => ascii_bytes "OK " ++ concat (fill_summary <$> (wire_fill <$> fs))
         ++ (if 0 <? rest then ascii_bytes "REST " ++ to_string rest else [])
  end ++ [newline].

Lemma strip_cr_word (l : bytes) c : is_space c = false -> strip_cr (l ++ [c]) = l ++ [c].
Proof.
  intros Hc. unfold strip_cr. rewrite last_snoc. destruct (Z.eqb_spec c carriage_return) as [->|]; [done|].
  done.
Qed.

(** A line that ends in a printed number is taken as it stands. *)
Lemma line_kept pre v :
  - 10 ^ 20 < v < 10 ^ 20 ->
  strip_cr (pre ++ to_string v) = pre ++ to_string v /\ pre ++ to_string v <> [].
Proof.
  intros Hv. destruct (to_string_chars v Hv) as [Hn Hc].
  destruct (exists_last Hn) as (l & c & E). rewrite E in Hc |- *. rewrite app_assoc.
  apply Forall_app in Hc as [_ Hc]. rewrite Forall_singleton in Hc.
  split; [|by destruct (pre ++ l)]. apply strip_cr_word.
  destruct Hc as [->|Hd]; [done|by apply digit_not_special].
Qed.

(** The handler behind [handle_line], once the line is parsed and encoded. *)
Lemma handle_encoded next next' m line data reply m' :
  strip_cr line = line -> line <> [] -> data <> [] ->
  (req ← parseCommand line; encode next req) = Some (data, next') ->
  LOBStateMachine.apply m data = Some (reply, m') ->
  handle_line (Some lob_handler) (next, m) line
  = Some (Some (formatResponse (decodeResult reply)), (next', m')).
Proof.
  intros Hs Hl Hd He Ha. unfold handle_line. rewrite Hs. destruct line as [|c line]; [done|].
  destruct (parseCommand (c :: line)) as [req|]; [|done]. cbn [mbind option_bind] in He.
  unfold lob_handler. rewrite He. cbn [mbind option_bind]. rewrite bool_decide_false by done.
  rewrite Ha. done.
Qed.

Lemma encodeNew_bytes id s p q : encodeNew id s p q <> [] /\ bytes_ok (encodeNew id s p q).
Proof. split; [by rewrite encodeNew_eq|apply encodeNew_ok]. Qed.

Lemma order_line_kept s p q :
  is_i64 q -> strip_cr (order_line s p q) = order_line s p q /\ order_line s p q <> [].
Proof.
  intros Hq. destruct (line_kept (ascii_bytes "SET " ++ side_word s ++ ascii_bytes " " ++ to_string p ++ [colon]) q
              ltac:(mach)) as [Hk Hne].
  by rewrite <- !app_assoc in Hk, Hne.
Qed.

(** What a client reads of the result of an order. *)
Lemma order_reply_eq reply fs rest :
  decodeNewResult reply = Some (wire_fill <$> fs, bool_decide (0 < rest), rest) ->
  formatResponse (decodeResult reply) = order_reply fs rest.
Proof.
  intros Hd. unfold decodeResult. destruct reply as [|b reply]; [done|]. rewrite Hd.
  unfold formatResponse, order_reply. cbn [resp_ok resp_found resp_value negb].
  destruct fs as [|f fs]; cbn [fmap list_fmap]; [done|].
  rewrite bool_decide_false by done. cbn [negb].
  destruct (Z.ltb_spec 0 rest) as [Hlt|Hlt];
    [rewrite bool_decide_true by done|rewrite bool_decide_false by lia];
    rewrite ?app_nil_r, <- !app_assoc; done.
Qed.

(** An order typed by a client, through the line parser, the codec and the
    state machine, with nothing replicated in between. *)
Theorem text_order_end_to_end next m s p q :
  lob_ok m -> is_u64 next -> is_i64 p -> is_i64 q -> 0 < q ->
  spec_find next (lob_abs m) = None -> Z.of_nat (length (a_orders (lob_abs m))) < 2 ^ 32 ->
  let fs := fst (spec_new next s p q (lob_nextSeq m) (lob_abs m)) in
  exists m', handle_line (Some lob_handler) (next, m) (order_line s p q)
             = Some (Some (order_reply fs (q - fills_quantity fs)), (next +u 1, m'))
    /\ lob_ok m' /\ lob_abs m' = snd (spec_new next s p q (lob_nextSeq m) (lob_abs m)).
Proof.
  intros Hm Hn Hp Hq Hq0 Hf Hc fs.
  destruct (lob_new_reply m next s p q Hm Hn Hp Hq Hq0 Hf Hc) as (reply & m' & Ha & Hd & _ & Hm' & Habs).
  fold fs in Hd. exists m'. split_and!; [|done..]. destruct (order_line_kept s p q Hq) as [Hk Hne].
  rewrite (handle_encoded next (next +u 1) m (order_line s p q) (encodeNew next s p q) reply m');
    [|exact Hk|exact Hne|apply encodeNew_bytes|by apply encode_order|done].
  by rewrite (order_reply_eq reply fs (q - fills_quantity fs)).
Qed.

(** An id that is already in use is refused, and nothing changes but the
    counters; a codec that starts again at 1 runs into this after a change
    of leader. *)
Lemma text_order_collision next m s p q :
  lob_ok m -> is_u64 next -> is_i64 p -> is_i64 q ->
  is_Some (spec_find next (lob_abs m)) ->
  exists m', handle_line (Some lob_handler) (next, m) (order_line s p q)
             = Some (Some (ascii_bytes "ERR " ++ [newline]), (next +u 1, m'))
    /\ lob_abs m' = lob_abs m.
Proof.
  intros Hm Hn Hp Hq Hf. destruct (encodeNew_bytes next s p q) as [Hne Hb].
  destruct (apply_spec m _ Hm Hb) as (m' & Ha & _ & Habs & _).
  assert (spec_apply (lob_abs m) (lob_nextSeq m) (encodeNew next s p q)
          = (encodeSimpleResult false, lob_abs m)) as Es.
  { unfold spec_apply. assert (decodeNew (encodeNew next s p q) = Some (next, s, p, q)) as ->.
    { apply decodeNew_iff; [done|]. split_and!; try done; try mach. exists []. by rewrite app_nil_r. }
    rewrite encodeNew_eq at 1. simpl. rewrite (bool_decide_true (is_Some _)) by done.
    by rewrite orb_true_r. }
  rewrite Es in Ha, Habs. exists m'. split; [|done].
  destruct (line_kept (ascii_bytes "SET " ++ side_word s ++ ascii_bytes " " ++ to_string p ++ [colon]) q
              ltac:(mach)) as [Hk Hne'].
  rewrite <- !app_assoc in Hk, Hne'.
  by rewrite (handle_encoded next (next +u 1) m (order_line s p q) (encodeNew next s p q)
                (encodeSimpleResult false) m');
    [|exact Hk|exact Hne'|done|by apply encode_order|done].
Qed.

Lemma strto_garbage c s : is_space c = false -> is_digit c = false -> c <> 45 -> c <> 43 ->
  strto (c :: s) = None.
Proof.
  intros H1' H2' H3' H4'. unfold strto. cbn [skip_spaces]. rewrite H1'.
  apply Z.eqb_neq in H3', H4'. by rewrite H3', H4', H2'.
Qed.

(** A price that is not a number ends the process: [std::stoll] throws
    and nothing on the way back to the accept thread catches it.  So one
    line typed by one client stops the server for all of them. *)
Theorem text_garbage_ends_process next m s c tail q :
  no_space (c :: tail) -> colon ∉ c :: tail -> is_digit c = false -> c <> 45 -> c <> 43 -> is_i64 q ->
  handle_line (Some lob_handler) (next, m)
    (ascii_bytes "SET " ++ side_word s ++ ascii_bytes " " ++ (c :: tail) ++ [colon] ++ to_string q)
  = None.
Proof.
  intros Hw Hcol Hd Hm Hp Hq.
  destruct (line_kept (ascii_bytes "SET " ++ side_word s ++ ascii_bytes " " ++ (c :: tail) ++ [colon]) q
              ltac:(mach)) as [Hk Hne].
  rewrite <- !app_assoc in Hk, Hne. unfold handle_line. rewrite Hk.
  destruct (to_string_word q ltac:(mach)) as [Wq _]. rewrite parse_set.
  - change (match ascii_bytes "SET " ++ _ with [] => _ | _ => ?x end) with x.
    cbn [mbind option_bind]. unfold lob_handler, encode. cbn [req_op req_key req_value].
    rewrite (proj2 (find_byte_Some _ _ (length (c :: tail)))) by (by eexists _, _).
    rewrite take_app_length. unfold stoll.
    rewrite strto_garbage; [done|by apply Forall_cons in Hw as [? _]|done..].
  - destruct s; apply (bool_decide_unpack _); vm_compute; exact I.
  - by destruct s.
  - apply Forall_app. split; [done|]. by constructor.
  - done.
Qed.
End Session.

(** ** Witnesses *)

Lemma text_order_end_to_end_witness :
  exists m', handle_line (Some (@lob_handler MapOrderBook _)) (7, sample_lob) (order_line Buy 100 6)
             = Some (Some (ascii_bytes "OK F 5@100 F 1@100 " ++ [newline]), (8, m')).
Proof.
  destruct (@text_order_end_to_end MapOrderBook _ MapOrderBook_laws 7 sample_lob Buy 100 6)
    as (m' & E & _); [exact sample_lob_ok|by vm_compute..|].
  exists m'. rewrite E. do 3 f_equal.
Defined.

Lemma text_garbage_ends_process_witness :
  handle_line (Some (@lob_handler MapOrderBook _)) (1, sample_lob) (ascii_bytes "SET buy abc:5") = None.
Proof.
  apply (@text_garbage_ends_process MapOrderBook _ 1 sample_lob Buy 97 [98; 99] 5);
    apply (bool_decide_unpack _); vm_compute; exact I.
Defined.
