(* ===== verification/OrderClientServer.v ===== *)
(** * The binary order protocol

    Models [src/app/net/OrderClientServer.h] and
    [src/app/net/OrderClientServer.cpp]: length-prefixed frames, a handler
    per opcode, one response frame per request frame.  The callbacks the
    server registers are parameters with a state; [None] is one that does
    not return.  The accept loop is in [Acceptor]; it serves one client at a
    time. *)

From Stdlib Require Import String.
From S2P Require Import Prelude StdString Socket IOrderBook BookSpec OrderProtocol StateMachine.
From S2P Require Import LOBStateMachine LOBTheorems MapOrderBook BookTheorems.

Module order_wire.
Definition OP_NEW : Z := 0x10.
Definition OP_CXL : Z := 0x11.
Definition OP_MOD : Z := 0x12.
Definition OP_BOOK : Z := 0x04.
Definition OP_ERR : Z := 0xFF.
End order_wire.

Definition putU32 (buf : bytes) (v : Z) : bytes := buf ++ put_le 4 v.
Definition putU64 (buf : bytes) (v : Z) : bytes := buf ++ put_le 8 v.
Definition putI64 (buf : bytes) (v : Z) : bytes := putU64 buf (u64 v).
Definition getU32 : bytes -> nat -> option (Z * nat) := read_le 4.
Definition getU64 : bytes -> nat -> option (Z * nat) := read_le 8.
Definition getI64 (p : bytes) (off : nat) : option (Z * nat) :=
  '(u, off) ← getU64 p off; Some (i64 u, off).

(** ** Frames *)

Definition max_frame : Z := 2 ^ 20.

Definition readFrame (inc : Incoming) : option (bytes * Incoming) :=
  '(lenBuf, inc) ← readN 4 inc;
  let length := get_le 4 lenBuf in
  if (length =? 0) || (max_frame <? length) then None
  else readN (Z.to_nat length) inc.

Section Frames.
Context `{!Network}.

Definition writeRaw (k : nat) (data : bytes) : option (bool * bytes * nat) := writeAll k data.

(** Success, the bytes written, and the calls of [send] so far. *)
Definition writeFrame (k : nat) (payload : bytes) : option (bool * bytes * nat) :=
  let length := u32 (Z.of_nat (length payload)) in
  '(ok, w, k) ← writeRaw k (put_le 4 length);
  if ok : bool then
    '(ok, w', k) ← writeRaw k payload;
    Some (ok, w ++ w', k)
  else Some (false, w, k).
End Frames.

(** ** Handlers *)

Definition makeError (msg : string) : bytes :=
  let msg := ascii_bytes msg in
  putU32 [order_wire.OP_ERR; 0] (u32 (Z.of_nat (length msg))) ++ msg.

Definition put_level (buf : bytes) (pl : PriceLevel) : bytes :=
  putU32 (putI64 (putI64 buf (pl_price pl)) (pl_totalQuantity pl)) (pl_orderCount pl).

Section Handlers.
Context {H : Type}
  (submitCb : option (H -> bytes -> option (bytes * H)))
  (readCb : option (H -> Z -> option (list PriceLevel * list PriceLevel * H)))
  (isLeaderCb : option (H -> bool)).

Definition leading (h : H) : bool := match isLeaderCb with Some f => f h | None => false end.

(** The end all three command handlers share: submit, then
    [opcode, status, result]. *)
Definition submit_reply (opcode : Z) (cmd : bytes) (h : H) : option (bytes * H) :=
  match submitCb with
  | None => Some (makeError "no submit handler", h)
  | Some submit =>
      '(result, h) ← submit h cmd;
      Some ([opcode; if bool_decide (result = []) then 0 else 1] ++ result, h)
  end.

Definition handleNew (p : bytes) (h : H) : option (bytes * H) :=
  if negb (leading h) then Some (makeError "not leader", h) else
  match getU64 p 0 with
  | None => Some (makeError "bad frame", h)
  | Some (orderId, off) =>
      match p !! off with
      | None => Some (makeError "bad frame", h)
      | Some side =>
          let off := S off in
          if 1 <? side then Some (makeError "bad side", h) else
          match getI64 p off with
          | None => Some (makeError "bad frame", h)
          | Some (price, off) =>
              match getI64 p off with
              | None => Some (makeError "bad frame", h)
              | Some (qty, off) =>
                  submit_reply order_wire.OP_NEW (encodeNew orderId (side_of_u8 side) price qty) h
              end
          end
      end
  end.

Definition handleCxl (p : bytes) (h : H) : option (bytes * H) :=
  if negb (leading h) then Some (makeError "not leader", h) else
  match getU64 p 0 with
  | None => Some (makeError "bad frame", h)
  | Some (orderId, off) => submit_reply order_wire.OP_CXL (encodeCancel orderId) h
  end.

Definition handleMod (p : bytes) (h : H) : option (bytes * H) :=
  if negb (leading h) then Some (makeError "not leader", h) else
  match getU64 p 0 with
  | None => Some (makeError "bad frame", h)
  | Some (orderId, off) =>
      match getI64 p off with
      | None => Some (makeError "bad frame", h)
      | Some (newPrice, off) =>
          match getI64 p off with
          | None => Some (makeError "bad frame", h)
          | Some (newQty, off) =>
              submit_reply order_wire.OP_MOD (encodeModify orderId newPrice newQty) h
          end
      end
  end.

(** A frame too short for the number of levels asks for all of them. *)
Definition handleBook (p : bytes) (h : H) : option (bytes * H) :=
  match readCb with
  | None => Some (makeError "no book reader", h)
  | Some read =>
      let maxLevels := match getU32 p 0 with Some (n, _) => n | None => 0 end in
      '(bids, asks, h) ← read h maxLevels;
      let resp := putU32 [order_wire.OP_BOOK; 1] (u32 (Z.of_nat (length bids))) in
      let resp := foldl put_level resp bids in
      let resp := putU32 resp (u32 (Z.of_nat (length asks))) in
      Some (foldl put_level resp asks, h)
  end.

Definition dispatch (frame : bytes) (h : H) : option (bytes * H) :=
  match frame with
  | [] => None
  | opcode :: payload =>
      if opcode =? order_wire.OP_NEW then handleNew payload h
      else if opcode =? order_wire.OP_CXL then handleCxl payload h
      else if opcode =? order_wire.OP_MOD then handleMod payload h
      else if opcode =? order_wire.OP_BOOK then handleBook payload h
      else Some (makeError "unknown opcode", h)
  end.

Context `{!Network}.

(** [handleClient], when [running_] is found set [rounds] times: the bytes
    written to the client. *)
Fixpoint handleClient (rounds : nat) (inc : Incoming) (k : nat) (h : H) : option (bytes * H) :=
  match rounds with
  | O => Some ([], h)
  | S rounds =>
      match readFrame inc with
      | None => Some ([], h)
      | Some (frame, inc) =>
          if bool_decide (frame = []) then Some ([], h)
          else
            '(response, h) ← dispatch frame h;
            '(ok, written, k) ← writeFrame k response;
            if ok : bool then
              '(more, h) ← handleClient rounds inc k h;
              Some (written ++ more, h)
            else Some (written, h)
      end
  end.
End Handlers.

(** ** Sessions *)

Definition framed (payload : bytes) : bytes :=
  put_le 4 (u32 (Z.of_nat (length payload))) ++ payload.

Definition frame_ok (payload : bytes) : Prop :=
  payload <> [] /\ Z.of_nat (length payload) <= max_frame.

#[global] Instance frame_ok_dec payload : Decision (frame_ok payload).
Proof. unfold frame_ok. apply _. Defined.

Lemma readFrame_framed inc payload rest :
  live inc -> frame_ok payload -> concat inc = framed payload ++ rest ->
  exists inc', readFrame inc = Some (payload, inc') /\ concat inc' = rest /\ live inc'.
Proof.
  intros Hl [Hne Hmax] E. unfold framed in E. rewrite <- app_assoc in E.
  destruct (readN_app 4 inc _ _ Hl E (length_put_le _ _)) as (inc1 & E1 & Ec1 & Hl1).
  destruct (readN_app (length payload) inc1 _ _ Hl1 Ec1 eq_refl) as (inc2 & E2 & Ec2 & Hl2).
  exists inc2. split_and!; [|done..]. unfold readFrame. rewrite E1. cbn [mbind option_bind].
  unfold max_frame in *. rewrite <- (app_nil_r (put_le 4 _)), get_put_le, u32_small by mach.
  rewrite Z.mod_small by lia.
  assert (0 < length payload)%nat by (destruct payload; [done|simpl; lia]).
  replace (_ || _) with false by (unfold max_frame; lia). by rewrite Nat2Z.id.
Qed.

Section Session.
Context {H : Type}
  (submitCb : option (H -> bytes -> option (bytes * H)))
  (readCb : option (H -> Z -> option (list PriceLevel * list PriceLevel * H)))
  (isLeaderCb : option (H -> bool)).
Context `{!Network} `{!NetworkLaws} (writes : forall k n, net_send k n <> None).

(** The reference: dispatch the frames one after the other. *)
Fixpoint answers (frames : list bytes) (h : H) : option (list bytes * H) :=
  match frames with
  | [] => Some ([], h)
  | f :: frames =>
      '(r, h) ← dispatch submitCb readCb isLeaderCb f h;
      '(rs, h) ← answers frames h;
      Some (r :: rs, h)
  end.

Lemma writeFrame_through k payload : exists k', writeFrame k payload = Some (true, framed payload, k').
Proof.
  unfold writeFrame, writeRaw, framed.
  destruct (writeAll_through writes k (put_le 4 (u32 (Z.of_nat (length payload))))) as [k1 ->].
  cbn [mbind option_bind]. destruct (writeAll_through writes k1 payload) as [k2 ->]. by exists k2.
Qed.

Lemma handleClient_answers frames : forall rounds inc k h rs h',
  live inc -> Forall frame_ok frames -> concat inc = concat (framed <$> frames) ->
  (length frames < rounds)%nat -> answers frames h = Some (rs, h') ->
  handleClient submitCb readCb isLeaderCb rounds inc k h = Some (concat (framed <$> rs), h').
Proof.
  induction frames as [|f frames IH]; intros [|rounds] inc k h rs h' Hl Hf E Hr Ha;
    simpl in Hr; try lia; cbn [handleClient].
  - simpl in Ha. simplify_eq. unfold readFrame.
    rewrite readN_short by (done || rewrite E; simpl; lia). done.
  - apply Forall_cons in Hf as [Hf Hfs]. cbn [fmap list_fmap concat] in E.
    destruct (readFrame_framed inc f _ Hl Hf E) as (inc' & -> & Ec & Hl').
    rewrite bool_decide_false by apply Hf. cbn [answers] in Ha.
    destruct (dispatch _ _ _ f h) as [[r h1]|]; [|done]. cbn [mbind option_bind] in *.
    destruct (answers frames h1) as [[rs1 h2]|] eqn:E1; [|done]. cbn [mbind option_bind] in Ha.
    injection Ha as <- <-. destruct (writeFrame_through k r) as [k' ->]. cbn [mbind option_bind].
    by rewrite (IH rounds inc' k' h1 rs1 h2) by (done || lia).
Qed.
End Session.

(** ** The fields of a command frame *)

Section Fields.
Context (id : Z) (s : Side) (p q : Z) (rest : bytes)
  (Hid : is_u64 id) (Hp : is_i64 p) (Hq : is_i64 q) (Hrest : bytes_ok rest).

Lemma two_prices_ok : bytes_ok (enc_i64 p ++ enc_i64 q ++ rest).
Proof. unfold bytes_ok, enc_i64. rewrite !Forall_app. split_and!; try apply put_le_ok. done. Qed.

(** Two signed fields, read one after the other. *)
Lemma read_prices buf off :
  bytes_ok buf -> at_off buf off (enc_i64 p ++ enc_i64 q ++ rest) ->
  exists off' off'', getI64 buf off = Some (p, off') /\ getI64 buf off' = Some (q, off'').
Proof.
  intros Hb Hat.
  destruct (codec_read OrderProtocol.getI64 enc_i64 is_i64 _ _ _ _ Hb Hp Hat) as [E1 H1].
  destruct (codec_read OrderProtocol.getI64 enc_i64 is_i64 _ _ _ _ Hb Hq H1) as [E2 _].
  eexists _, _. split; [exact E1|exact E2].
Qed.

Lemma read_commands {H} (submitCb : option (H -> bytes -> option (bytes * H)))
    (isLeaderCb : option (H -> bool)) h :
  leading isLeaderCb h = true ->
  handleNew submitCb isLeaderCb (put_le 8 id ++ [side_to_u8 s] ++ enc_i64 p ++ enc_i64 q ++ rest) h
  = submit_reply submitCb order_wire.OP_NEW (encodeNew id s p q) h
  /\ handleCxl submitCb isLeaderCb (put_le 8 id ++ rest) h
     = submit_reply submitCb order_wire.OP_CXL (encodeCancel id) h
  /\ handleMod submitCb isLeaderCb (put_le 8 id ++ enc_i64 p ++ enc_i64 q ++ rest) h
     = submit_reply submitCb order_wire.OP_MOD (encodeModify id p q) h.
Proof.
  intros Hl. unfold handleNew, handleCxl, handleMod. rewrite Hl. cbn [negb].
  change getU64 with OrderProtocol.getU64. pose proof two_prices_ok as Ht. split_and!.
  - set (buf := put_le 8 id ++ _). assert (bytes_ok buf) as Hb.
    { apply Forall_app_2; [apply put_le_ok|]. apply Forall_app_2; [|exact Ht].
      apply Forall_singleton, side_u8_range. }
    destruct (codec_read OrderProtocol.getU64 _ is_u64 buf 0 id _ Hb Hid (at_off_0 _)) as [-> H1].
    assert (buf !! (0 + length (put_le 8 id))%nat = Some (side_to_u8 s)) as ->.
    { destruct H1 as [_ H1]. rewrite <- (Nat.add_0_r (0 + _)), <- lookup_drop, H1. done. }
    replace (1 <? side_to_u8 s) with false by (by destruct s).
    apply (at_off_app _ _ [side_to_u8 s]) in H1. cbn [length] in H1. rewrite Nat.add_1_r in H1.
    destruct (read_prices buf _ Hb H1) as (o1 & o2 & -> & ->).
    by replace (side_of_u8 (side_to_u8 s)) with s by (by destruct s).
  - assert (bytes_ok (put_le 8 id ++ rest)) as Hb by (apply Forall_app_2; [apply put_le_ok|done]).
    by destruct (codec_read OrderProtocol.getU64 _ is_u64 _ 0 id _ Hb Hid (at_off_0 _)) as [-> _].
  - set (buf := put_le 8 id ++ _). assert (bytes_ok buf) as Hb.
    { apply Forall_app_2; [apply put_le_ok|exact Ht]. }
    destruct (codec_read OrderProtocol.getU64 _ is_u64 buf 0 id _ Hb Hid (at_off_0 _)) as [-> H1].
    by destruct (read_prices buf _ Hb H1) as (o1 & o2 & -> & ->).
Qed.
End Fields.

(** ** With the order book behind it *)

Section Book.
Context {B : Type} `{!IOrderBook B} `{!IOrderBookLaws B}.

(** Commands are applied as they are submitted; this node leads. *)
Definition lob_submit (m : LOBStateMachine B) (cmd : bytes) : option (bytes * LOBStateMachine B) :=
  apply m cmd.
Definition lob_read (m : LOBStateMachine B) (n : Z)
  : option (list PriceLevel * list PriceLevel * LOBStateMachine B) :=
  Some (lob_bids m n, lob_asks m n, m).
Definition lob_dispatch : bytes -> LOBStateMachine B -> option (bytes * LOBStateMachine B) :=
  dispatch (Some lob_submit) (Some lob_read) (Some (fun _ => true)).

Lemma spec_apply_nonempty a seq cmd : fst (spec_apply a seq cmd) <> [].
Proof.
  unfold spec_apply. destruct cmd as [|op cmd]; [done|].
  destruct (op =? OP_NEW); [|destruct (op =? OP_CXL); [|destruct (op =? OP_MOD); [|done]]].
  - destruct (decodeNew _) as [[[[id s] p] q]|]; [|done]. destruct (_ || _); [done|].
    destruct (spec_new _ _ _ _ _ _) as [fs a']. cbn [fst]. by rewrite encodeNewResult_eq.
  - destruct (decodeCancel _); [|done]. by destruct (spec_cancel _ _).
  - destruct (decodeModify _) as [[[id p] q]|]; [|done]. by destruct (spec_modify _ _ _ _ _).
Qed.

(** A command reaches the book as it was sent: the status byte is 1 and the
    result is the state machine's. *)
Lemma submit_reply_lob op cmd m :
  lob_ok m -> bytes_ok cmd ->
  exists m', submit_reply (Some lob_submit) op cmd m
             = Some ([op; 1] ++ fst (spec_apply (lob_abs m) (lob_nextSeq m) cmd), m')
    /\ lob_ok m' /\ lob_abs m' = snd (spec_apply (lob_abs m) (lob_nextSeq m) cmd).
Proof.
  intros Hm Hc. destruct (apply_spec m cmd Hm Hc) as (m' & E & Hm' & Ha & _). exists m'.
  unfold submit_reply, lob_submit. rewrite E. cbn [mbind option_bind].
  rewrite bool_decide_false by apply spec_apply_nonempty. done.
Qed.

Lemma command_bytes id s p q :
  bytes_ok (encodeNew id s p q) /\ bytes_ok (encodeCancel id) /\ bytes_ok (encodeModify id p q).
Proof. split_and!; [apply encodeNew_ok|apply encodeCancel_ok|apply encodeModify_ok]. Qed.

(** Every frame is answered, and the book stays well formed. *)
Lemma lob_dispatch_total f m :
  f <> [] -> lob_ok m -> exists r m', lob_dispatch f m = Some (r, m') /\ lob_ok m'.
Proof.
  intros Hf Hm. unfold lob_dispatch, dispatch. destruct f as [|op p]; [done|].
  assert (forall op cmd, bytes_ok cmd ->
    exists r m', submit_reply (Some lob_submit) op cmd m = Some (r, m') /\ lob_ok m') as Hs.
  { intros op' cmd Hc. destruct (submit_reply_lob op' cmd m Hm Hc) as (m' & -> & ? & _). eauto. }
  destruct (op =? _); [|destruct (op =? _); [|destruct (op =? _); [|destruct (op =? _); [|by eauto]]]].
  - unfold handleNew. cbn [leading negb]. destruct (getU64 p 0) as [[id off]|]; [|by eauto].
    destruct (p !! off) as [sd|]; [|by eauto]. destruct (1 <? sd); [by eauto|].
    destruct (getI64 p _) as [[pr off']|]; [|by eauto]. destruct (getI64 p off') as [[q ?]|]; [|by eauto].
    apply Hs. by destruct (command_bytes id (side_of_u8 sd) pr q).
  - unfold handleCxl. cbn [leading negb]. destruct (getU64 p 0) as [[id off]|]; [|by eauto].
    apply Hs. by destruct (command_bytes id Buy 0 0) as (_ & ? & _).
  - unfold handleMod. cbn [leading negb]. destruct (getU64 p 0) as [[id off]|]; [|by eauto].
    destruct (getI64 p off) as [[pr off']|]; [|by eauto]. destruct (getI64 p off') as [[q ?]|]; [|by eauto].
    apply Hs. by destruct (command_bytes id Buy pr q) as (_ & _ & ?).
  - unfold handleBook, lob_read. cbn [mbind option_bind]. eauto.
Qed.

Lemma answers_total frames : forall m,
  Forall frame_ok frames -> lob_ok m ->
  exists rs m', answers (Some lob_submit) (Some lob_read) (Some (fun _ => true)) frames m = Some (rs, m')
    /\ length rs = length frames /\ lob_ok m'.
Proof.
  induction frames as [|f frames IH]; intros m Hf Hm; cbn [answers]; [by exists [], m|].
  apply Forall_cons in Hf as [[Hf _] Hfs]. destruct (lob_dispatch_total f m Hf Hm) as (r & m1 & E & Hm1).
  unfold lob_dispatch in E. rewrite E. cbn [mbind option_bind].
  destruct (IH m1 Hfs Hm1) as (rs & m2 & -> & El & Hm2). exists (r :: rs), m2. simpl. by rewrite El.
Qed.

(** C22. A session of the binary order protocol: for every sequence of
    non-empty frames of at most 1 MiB, however they are cut into segments,
    over a network that takes the replies in pieces of any size, a leading
    server whose callbacks apply a command and read the book at once
    dispatches each frame once and in order, answers every one with exactly
    one response frame, in order, and leaves a well-formed book. *)
Theorem order_session `{!Network} `{!NetworkLaws} rounds inc k m frames :
  (forall j n, net_send j n <> None) -> lob_ok m -> Forall frame_ok frames -> live inc ->
  concat inc = concat (framed <$> frames) -> (length frames < rounds)%nat ->
  exists rs m',
    answers (Some lob_submit) (Some lob_read) (Some (fun _ => true)) frames m = Some (rs, m')
    /\ handleClient (Some lob_submit) (Some lob_read) (Some (fun _ => true)) rounds inc k m
       = Some (concat (framed <$> rs), m')
    /\ length rs = length frames /\ lob_ok m'.
Proof.
  intros Hw Hm Hf Hl E Hr. destruct (answers_total frames m Hf Hm) as (rs & m' & Ea & El & Hm').
  exists rs, m'. split_and!; try done. by apply (handleClient_answers _ _ _ Hw frames).
Qed.

(** A command frame reaches the book unchanged: NEW, CXL and MOD frames
    of well-typed values, whatever bytes trail them, are answered with the
    opcode, status 1 and the state machine's result for that command, and
    the book changes as the specification says. *)
Theorem order_frames_applied m id s p q rest :
  lob_ok m -> is_u64 id -> is_i64 p -> is_i64 q -> bytes_ok rest ->
  let result := spec_apply (lob_abs m) (lob_nextSeq m) in
  (exists m', lob_dispatch (order_wire.OP_NEW :: put_le 8 id ++ [side_to_u8 s] ++ enc_i64 p ++ enc_i64 q ++ rest) m
     = Some ([order_wire.OP_NEW; 1] ++ fst (result (encodeNew id s p q)), m')
     /\ lob_abs m' = snd (result (encodeNew id s p q)))
  /\ (exists m', lob_dispatch (order_wire.OP_CXL :: put_le 8 id ++ rest) m
     = Some ([order_wire.OP_CXL; 1] ++ fst (result (encodeCancel id)), m')
     /\ lob_abs m' = snd (result (encodeCancel id)))
  /\ (exists m', lob_dispatch (order_wire.OP_MOD :: put_le 8 id ++ enc_i64 p ++ enc_i64 q ++ rest) m
     = Some ([order_wire.OP_MOD; 1] ++ fst (result (encodeModify id p q)), m')
     /\ lob_abs m' = snd (result (encodeModify id p q))).
Proof.
  intros Hm Hid Hp Hq Hrest result.
  assert (forall op cmd, bytes_ok cmd -> exists m', submit_reply (Some lob_submit) op cmd m
    = Some ([op; 1] ++ fst (result cmd), m') /\ lob_abs m' = snd (result cmd)) as Hs.
  { intros op cmd Hc. destruct (submit_reply_lob op cmd m Hm Hc) as (m' & ? & _ & ?). eauto. }
  destruct (command_bytes id s p q) as (B1 & B2 & B3).
  destruct (read_commands id s p q rest Hid Hp Hq Hrest (Some lob_submit) (Some (fun _ => true)) m eq_refl)
    as (E1 & E2 & E3).
  split_and!; [change (lob_dispatch _ m) with (handleNew (Some lob_submit) (Some (fun _ => true))
      (put_le 8 id ++ [side_to_u8 s] ++ enc_i64 p ++ enc_i64 q ++ rest) m); rewrite E1; by apply Hs
    |change (lob_dispatch _ m) with (handleCxl (Some lob_submit) (Some (fun _ => true))
      (put_le 8 id ++ rest) m); rewrite E2; by apply Hs
    |change (lob_dispatch _ m) with (handleMod (Some lob_submit) (Some (fun _ => true))
      (put_le 8 id ++ enc_i64 p ++ enc_i64 q ++ rest) m); rewrite E3; by apply Hs].
Qed.

(** The status byte does not tell whether a cancel worked: it is 1 for an id
    that is not resting as well, with the outcome in a payload of one byte. *)
Theorem cancel_status_always_ok m id :
  lob_ok m -> is_u64 id ->
  exists m', lob_dispatch (order_wire.OP_CXL :: put_le 8 id) m
             = Some ([order_wire.OP_CXL; 1; if bool_decide (is_Some (spec_find id (lob_abs m))) then 1 else 0], m').
Proof.
  intros Hm Hid.
  destruct (read_commands id Buy 0 0 [] Hid ltac:(by vm_compute) ltac:(by vm_compute) ltac:(constructor)
              (Some lob_submit) (Some (fun _ => true)) m eq_refl) as (_ & E & _).
  rewrite app_nil_r in E. destruct (command_bytes id Buy 0 0) as (_ & Hb & _).
  destruct (submit_reply_lob order_wire.OP_CXL _ m Hm Hb) as (m' & Es & _). exists m'.
  change (lob_dispatch _ m) with
    (handleCxl (Some lob_submit) (Some (fun _ => true)) (put_le 8 id) m).
  rewrite E, Es. do 2 f_equal. unfold spec_apply.
  assert (decodeCancel (encodeCancel id) = Some id) as ->.
  { apply decodeCancel_iff; [done|]. split; [done|]. exists []. by rewrite app_nil_r. }
  rewrite encodeCancel_eq. simpl. unfold spec_cancel. by destruct (spec_find id (lob_abs m)).
Qed.
End Book.

(** ** Witnesses *)

Definition steady_net : Network := {|
  net_connect := fun _ _ _ => true;
  net_send := fun _ n => Some (Nat.max 1 (Nat.min n 7))
|}.
Lemma steady_net_laws : @NetworkLaws steady_net.
Proof. intros k n s Hn [= <-]. lia. Qed.

Definition demo_frames : list bytes :=
  [order_wire.OP_NEW :: put_le 8 9 ++ [0] ++ put_le 8 100 ++ put_le 8 12;
   [order_wire.OP_BOOK]; order_wire.OP_CXL :: put_le 8 77; [1; 2; 3]].

Lemma order_session_witness :
  exists rs m',
    answers (Some lob_submit) (Some lob_read) (Some (fun _ => true)) demo_frames sample_lob = Some (rs, m')
    /\ @handleClient _ (Some lob_submit) (Some lob_read) (Some (fun _ => true)) steady_net 9
         [take 11 (concat (framed <$> demo_frames)); drop 11 (concat (framed <$> demo_frames))] 0 sample_lob
       = Some (concat (framed <$> rs), m')
    /\ length rs = length demo_frames /\ lob_ok m'.
Proof.
  apply (@order_session MapOrderBook _ MapOrderBook_laws steady_net steady_net_laws).
  - done.
  - exact sample_lob_ok.
  - apply (bool_decide_unpack _). vm_compute. exact I.
  - apply (bool_decide_unpack _). vm_compute. exact I.
  - vm_compute. reflexivity.
  - apply (bool_decide_unpack _). vm_compute. exact I.
Defined.

Lemma order_frames_applied_witness :
  exists m', lob_dispatch (order_wire.OP_CXL :: put_le 8 2 ++ [99]) sample_lob
    = Some ([order_wire.OP_CXL; 1] ++ fst (spec_apply (lob_abs sample_lob) 9 (encodeCancel 2)), m').
Proof.
  destruct (@order_frames_applied MapOrderBook _ MapOrderBook_laws sample_lob 2 Sell 100 5 [99])
    as (_ & (m' & E & _) & _); [exact sample_lob_ok|by vm_compute..| |].
  - apply (bool_decide_unpack _). vm_compute. exact I.
  - exists m'. exact E.
Defined.
