(* ===== verification/RaftTypes.v ===== *)
(** * Raft: data types and the storage interface

    Models [src/raft/include/raft/Types.h], [RPC.h], [Storage.h] and
    [Ready.h].  An [enum class] with a fixed underlying type can hold any
    value of that type, so the two enumerations that arrive from a file or
    the network have one more constructor for the values without a name. *)

From S2P Require Import Prelude.

Inductive EntryType := Normal | ConfChange | ConfChangeV2 | EntryUnnamed (v : Z).

#[global] Instance EntryType_eq_dec : EqDecision EntryType.
Proof. solve_decision. Defined.

Inductive Role := Follower | Candidate | Leader | PreCandidate.

#[global] Instance Role_eq_dec : EqDecision Role.
Proof. solve_decision. Defined.

Record Entry := mkEntry {
  e_term : Z;
  e_index : Z;
  e_type : EntryType;
  e_data : bytes;
}.

#[global] Instance Entry_eq_dec : EqDecision Entry.
Proof. solve_decision. Defined.

(** [Entry{}] *)
Definition empty_entry : Entry := mkEntry 0 0 Normal [].

Inductive MessageType :=
| MsgPropose | MsgApp | MsgAppResp | MsgVote | MsgVoteResp | MsgPreVote | MsgPreVoteResp
| MsgSnap | MsgHeartbeat | MsgHeartbeatResp | MsgUnreachable | MsgSnapStatus | MsgCheckQuorum
| MsgTransferLeader | MsgTimeoutNow | MsgReadIndex | MsgReadIndexResp | MsgUnnamed (v : Z).

#[global] Instance MessageType_eq_dec : EqDecision MessageType.
Proof. solve_decision. Defined.

Record Snapshot := mkSnapshot { s_term : Z; s_index : Z; s_data : bytes }.

#[global] Instance Snapshot_eq_dec : EqDecision Snapshot.
Proof. solve_decision. Defined.

Definition empty_snapshot : Snapshot := mkSnapshot 0 0 [].

Record Message := mkMessage {
  m_type : MessageType;
  m_to : Z;
  m_from : Z;
  m_term : Z;
  m_logTerm : Z;
  m_index : Z;
  m_commit : Z;
  m_reject : bool;
  m_rejectHint : Z;
  m_entries : list Entry;
  m_snapshot : Snapshot;
  m_context : bytes;
}.

#[global] Instance Message_eq_dec : EqDecision Message.
Proof. solve_decision. Defined.

(** [Message m; m.type = type; m.to = to; m.from = from; m.term = term], the
    other fields with their initialisers. *)
Definition message (type : MessageType) (to from term : Z) : Message :=
  mkMessage type to from term 0 0 0 false 0 [] empty_snapshot [].

Record HardState := mkHardState { hs_term : Z; hs_vote : Z; hs_commit : Z }.
Record ConfState := mkConfState { cs_nodes : list Z; cs_learners : list Z }.
Record InitialState := mkInitialState { is_hardState : HardState; is_confState : ConfState }.

Record ReadState := mkReadState { rs_index : Z; rs_requestCtx : bytes }.

Record Ready := mkReady {
  rd_entries : list Entry;
  rd_hardState : HardState;
  rd_messages : list Message;
  rd_committedEntries : list Entry;
  rd_snapshot : option Snapshot;
  rd_readStates : list ReadState;
  rd_entriesRemoved : bool;
}.

(** ** Storage

    The abstract class, read-only.  [None] is an exception. *)
Class Storage (St : Type) := {
  st_initialState : St -> InitialState;
  st_entries : St -> Z -> Z -> Z -> option (list Entry);
  st_term : St -> Z -> option Z;
  st_firstIndex : St -> Z;
  st_lastIndex : St -> Z;
  st_snapshot : St -> Snapshot
}.

(** Entries numbered consecutively from [first]. *)
Definition contiguous (first : Z) (l : list Entry) : Prop :=
  forall k e, l !! k = Some e -> e_index e = first + Z.of_nat k.

(** The entries [lo, hi) of a log whose first entry has index [first]. *)
Definition log_slice (first lo hi : Z) (l : list Entry) : list Entry :=
  take (Z.to_nat (hi - lo)) (drop (Z.to_nat (lo - first)) l).

Definition log_lookup (first i : Z) (l : list Entry) : option Entry :=
  if i <? first then None else l !! Z.to_nat (i - first).

(** What the interface's comments promise: a log of consecutive entries, the
    term of each, slices cut by size but, as the implementations do, never
    to nothing, and exceptions outside the log's range.  Indices stay clear
    of the top of their type. *)
Class StorageLaws (St : Type) `{Storage St} := {
  st_ok : St -> Prop;
  st_log : St -> list Entry;
  st_first_range s : st_ok s -> 1 <= st_firstIndex s;
  st_last_eq s : st_ok s -> st_lastIndex s = st_firstIndex s + Z.of_nat (length (st_log s)) - 1;
  st_last_range s : st_ok s -> st_lastIndex s < 2 ^ 63;
  st_contiguous s : st_ok s -> contiguous (st_firstIndex s) (st_log s);
  st_term_eq s i : st_ok s -> st_term s i = e_term <$> log_lookup (st_firstIndex s) i (st_log s);
  st_entries_low s lo hi mx :
    st_ok s -> lo < st_firstIndex s \/ st_lastIndex s + 1 < hi -> st_entries s lo hi mx = None;
  st_entries_eq s lo hi mx :
    st_ok s -> st_firstIndex s <= lo -> lo < hi -> hi <= st_lastIndex s + 1 ->
    exists k, st_entries s lo hi mx
              = Some (take (S k) (log_slice (st_firstIndex s) lo hi (st_log s)))
      /\ (mx = 2 ^ 64 - 1 -> take (S k) (log_slice (st_firstIndex s) lo hi (st_log s))
                            = log_slice (st_firstIndex s) lo hi (st_log s))
}.
