(* ===== verification/LogUnstable.v ===== *)
(** * The unstable part of the raft log

    Models [src/raft/include/raft/LogUnstable.h] and
    [src/raft/src/LogUnstable.cpp]: the entries and the snapshot that are
    not yet persisted. *)

From S2P Require Import Prelude RaftTypes.

Record LogUnstable := mkUnstable {
  u_entries : list Entry;
  u_offset : Z;                    (* index of the first of [u_entries] *)
  u_snapshot : option Snapshot;
}.

Definition new_LogUnstable : LogUnstable := mkUnstable [] 0 None.

Definition u_size (u : LogUnstable) : Z := Z.of_nat (length (u_entries u)).

Definition maybeFirstIndex (u : LogUnstable) : option Z :=
  match u_snapshot u with
  | Some s => Some (s_index s +u 1)
  | None => None
  end.

Definition maybeLastIndex (u : LogUnstable) : option Z :=
  match u_entries u with
  | _ :: _ => Some (u_offset u +u u_size u -u 1)
  | [] => match u_snapshot u with
          | Some s => Some (s_index s)
          | None => None
          end
  end.

(** The outer [None] is an access past the end of [entries_]. *)
Definition maybeTerm (u : LogUnstable) (i : Z) : option (option Z) :=
  if i <? u_offset u then
    match u_snapshot u with
    | Some s => if s_index s =? i then Some (Some (s_term s)) else Some None
    | None => Some None
    end
  else
    match maybeLastIndex u with
    | None => Some None
    | Some last =>
        if last <? i then Some None
        else e ← u_entries u !! Z.to_nat (i -u u_offset u); Some (Some (e_term e))
    end.

Definition u_stableTo (u : LogUnstable) (i t : Z) : LogUnstable :=
  let trim (u : LogUnstable) :=
    match u_entries u with
    | [] => u
    | _ :: _ =>
        if i <? u_offset u then u else
        let cut := i +u 1 -u u_offset u in
        mkUnstable (if u_size u <=? cut then [] else drop (Z.to_nat cut) (u_entries u))
          (i +u 1) (u_snapshot u)
    end in
  match u_snapshot u with
  | Some s =>
      if (i =? s_index s) && (t =? s_term s) then mkUnstable (u_entries u) (u_offset u) None
      else if i <=? s_index s then u
      else trim u
  | None => trim u
  end.

Definition u_stableSnapTo (u : LogUnstable) (i : Z) : LogUnstable :=
  match u_snapshot u with
  | Some s => if s_index s =? i then mkUnstable (u_entries u) (u_offset u) None else u
  | None => u
  end.

Definition u_restore (u : LogUnstable) (snap : Snapshot) : LogUnstable :=
  mkUnstable [] (s_index snap +u 1) (Some snap).

Definition truncateFrom (u : LogUnstable) (fromIndex : Z) : LogUnstable :=
  match u_entries u with
  | [] => u
  | _ :: _ =>
      if fromIndex <? u_offset u then mkUnstable [] (u_offset u) (u_snapshot u)
      else
        let cut := fromIndex -u u_offset u in
        if cut <? u_size u
        then mkUnstable (take (Z.to_nat cut) (u_entries u)) (u_offset u) (u_snapshot u)
        else u
  end.

Definition truncateAndAppend (u : LogUnstable) (entries : list Entry) : LogUnstable :=
  match entries with
  | [] => u
  | e :: _ =>
      let first := e_index e in
      match u_entries u with
      | [] => mkUnstable entries first (u_snapshot u)
      | _ :: _ =>
          let ourLast := u_offset u +u u_size u -u 1 in
          if first <=? u_offset u then mkUnstable entries first (u_snapshot u)
          else if ourLast +u 1 <? first then mkUnstable entries first (u_snapshot u)
          else
            let cut := first -u u_offset u in
            mkUnstable (take (Z.to_nat cut) (u_entries u) ++ entries) (u_offset u) (u_snapshot u)
      end
  end.

Definition u_append (u : LogUnstable) (entries : list Entry) : LogUnstable :=
  truncateAndAppend u entries.

Definition u_slice (u : LogUnstable) (lo hi : Z) : list Entry :=
  if (lo <? u_offset u) || (u_offset u +u u_size u <? hi) || (hi <? lo) then []
  else take (Z.to_nat (hi -u lo)) (drop (Z.to_nat (lo -u u_offset u)) (u_entries u)).

(** ** The invariant

    The entries are numbered consecutively from the offset, and a pending
    snapshot lies just below them. *)

Definition unstable_ok (u : LogUnstable) : Prop :=
  contiguous (u_offset u) (u_entries u)
  /\ 0 <= u_offset u /\ u_offset u + u_size u < 2 ^ 63
  /\ match u_snapshot u with
     | Some s => 0 <= s_index s < 2 ^ 62 /\ u_offset u = s_index s + 1
     | None => True
     end.

Lemma contiguous_nil first : contiguous first [].
Proof. intros k x H. by rewrite lookup_nil in H. Qed.

Lemma contiguous_cons first e l :
  contiguous first (e :: l) <-> e_index e = first /\ contiguous (first + 1) l.
Proof.
  unfold contiguous. split.
  - intros H. split; [specialize (H 0%nat e); simpl in H; rewrite H by done; lia|].
    intros k x Hk. rewrite (H (S k) x Hk). lia.
  - intros [H1 H2] [|k] x Hk; simpl in Hk; simplify_eq; [lia|]. rewrite (H2 _ _ Hk). lia.
Qed.

Lemma contiguous_app first l1 l2 :
  contiguous first (l1 ++ l2)
  <-> contiguous first l1 /\ contiguous (first + Z.of_nat (length l1)) l2.
Proof.
  revert first. induction l1 as [|e l1 IH]; intros first.
  - simpl. rewrite Z.add_0_r. split; [intros H; split; [apply contiguous_nil|done]|by intros [_ ?]].
  - cbn [app length]. rewrite !contiguous_cons, IH.
    replace (first + 1 + Z.of_nat (length l1)) with (first + Z.of_nat (S (length l1))) by lia. tauto.
Qed.

Lemma contiguous_take first n l : contiguous first l -> contiguous first (take n l).
Proof. intros H. rewrite <- (take_drop n l) in H. by apply contiguous_app in H as [? _]. Qed.

Lemma contiguous_drop first n l :
  contiguous first l -> (n <= length l)%nat -> contiguous (first + Z.of_nat n) (drop n l).
Proof.
  intros H Hn. rewrite <- (take_drop n l) in H. apply contiguous_app in H as [_ H].
  rewrite length_take in H. by replace (n `min` length l)%nat with n in H by lia.
Qed.

Section UnstableOps.
Context (u : LogUnstable) (Hu : unstable_ok u).

Lemma maybeLastIndex_eq :
  maybeLastIndex u = match u_entries u, u_snapshot u with
                     | [], None => None
                     | _, _ => Some (u_offset u + u_size u - 1)
                     end.
Proof using Hu.
  destruct Hu as (_ & Ho & Hb & Hs). unfold maybeLastIndex, u_size in *.
  destruct (u_entries u) as [|e l] eqn:E; simpl length in *.
  - destruct (u_snapshot u); [f_equal; lia|done].
  - f_equal. rewrite (u64_small (u_offset u + _)) by mach. by rewrite u64_small by mach.
Qed.

(** [maybeTerm] never reads past the end. *)
Lemma maybeTerm_eq i :
  0 <= i < 2 ^ 63 ->
  maybeTerm u i
  = Some (if i <? u_offset u
          then match u_snapshot u with
               | Some s => if s_index s =? i then Some (s_term s) else None
               | None => None
               end
          else e_term <$> u_entries u !! Z.to_nat (i - u_offset u)).
Proof using Hu.
  intros Hi. unfold maybeTerm. destruct (Z.ltb_spec i (u_offset u)) as [Hlt|Hge].
  { destruct (u_snapshot u) as [s|]; [|done]. by destruct (_ =? _). }
  rewrite maybeLastIndex_eq. destruct Hu as (_ & Ho & Hb & Hs).
  assert ((i -u u_offset u) = i - u_offset u) as Hsub by (apply u64_small; mach).
  rewrite Hsub. unfold u_size in *.
  assert (forall last, last = u_offset u + Z.of_nat (length (u_entries u)) - 1 ->
    (if last <? i then Some None
     else e ← u_entries u !! Z.to_nat (i - u_offset u); Some (Some (e_term e)))
    = Some (e_term <$> u_entries u !! Z.to_nat (i - u_offset u))) as Hmain.
  { intros last ->. destruct (Z.ltb_spec (u_offset u + Z.of_nat (length (u_entries u)) - 1) i).
    - by rewrite lookup_ge_None_2 by lia.
    - destruct (lookup_lt_is_Some_2 (u_entries u) (Z.to_nat (i - u_offset u))) as [e ->];
        [lia|done]. }
  destruct (u_entries u) as [|e l] eqn:E; [destruct (u_snapshot u); [by apply Hmain|done]|].
  by apply Hmain.
Qed.

(** Dropping what was persisted keeps the invariant, unless a snapshot is
    still waiting. *)
Lemma u_stableTo_ok i t :
  0 <= i < 2 ^ 62 -> u_snapshot u = None -> unstable_ok (u_stableTo u i t).
Proof using Hu.
  intros Hi Hsnap. destruct Hu as (Hc & Ho & Hb & _). unfold u_stableTo. rewrite Hsnap.
  destruct (u_entries u) as [|e l] eqn:E; [exact Hu|].
  destruct (Z.ltb_spec i (u_offset u)); [exact Hu|].
  unfold unstable_ok, u_size in *. rewrite E in *.
  assert ((i +u 1) = i + 1) as -> by (apply u64_small; mach).
  assert ((i + 1 -u u_offset u) = i + 1 - u_offset u) as -> by (apply u64_small; mach).
  cbn [u_entries u_offset u_snapshot].
  destruct (Z.leb_spec (Z.of_nat (length (e :: l))) (i + 1 - u_offset u)).
  - split_and!; [apply contiguous_nil|lia|simpl; lia|done].
  - split_and!; [|lia|rewrite length_drop; lia|done].
    replace (i + 1) with (u_offset u + Z.of_nat (Z.to_nat (i + 1 - u_offset u))) at 1 by lia.
    apply contiguous_drop; [done|lia].
Qed.

Lemma truncateFrom_ok from : 0 <= from < 2 ^ 63 -> unstable_ok (truncateFrom u from).
Proof using Hu.
  intros Hf. destruct Hu as (Hc & Ho & Hb & Hs). unfold truncateFrom.
  destruct (u_entries u) as [|e l] eqn:E; [exact Hu|].
  destruct (Z.ltb_spec from (u_offset u)).
  - unfold unstable_ok, u_size in *. simpl. rewrite E in *. simpl in *.
    split_and!; [apply contiguous_nil|lia|lia|done].
  - destruct (_ <? _) eqn:Hlt; [|exact Hu].
    unfold unstable_ok, u_size in *. rewrite E in *. cbn [u_entries u_offset u_snapshot].
    split_and!; [by apply contiguous_take|lia|rewrite length_take; lia|done].
Qed.

(** Appending replaces everything from the first new index on; the result
    is the old entries below it followed by the new ones. *)
Lemma truncateAndAppend_ok e l :
  contiguous (e_index e) (e :: l) ->
  e_index e + Z.of_nat (length (e :: l)) < 2 ^ 63 ->
  match u_snapshot u with Some s => u_offset u <= e_index e | None => 0 <= e_index e end ->
  (u_entries u = [] -> u_snapshot u <> None -> e_index e = u_offset u) ->
  (u_entries u <> [] -> e_index e <= u_offset u + u_size u) ->
  let u' := truncateAndAppend u (e :: l) in
  unstable_ok u'
  /\ u_snapshot u' = u_snapshot u
  /\ u_offset u' = (if decide (u_entries u = []) then e_index e
                    else Z.min (u_offset u) (e_index e))
  /\ u_entries u' = take (Z.to_nat (e_index e - u_offset u)) (u_entries u) ++ e :: l.
Proof using Hu.
  intros Hc Hb Hs Hempty Hgap u'. destruct Hu as (Huc & Huo & Hub & Hus).
  unfold u', truncateAndAppend. destruct (u_entries u) as [|e0 l0] eqn:E.
  - rewrite take_nil. cbn [app u_snapshot u_offset u_entries].
    split_and!; [|done|by rewrite decide_True by done|done].
    unfold unstable_ok, u_size. cbn [u_entries u_offset u_snapshot].
    destruct (u_snapshot u) as [s|] eqn:Es; split_and!; try done; try lia.
    rewrite Hempty by done. lia.
  - unfold u_size in *. rewrite E in *. rewrite decide_False by done.
    specialize (Hgap ltac:(done)).
    assert ((u_offset u +u Z.of_nat (length (e0 :: l0)) -u 1)
            = u_offset u + Z.of_nat (length (e0 :: l0)) - 1) as ->.
    { cbn [length] in *. rewrite (u64_small (u_offset u + _)) by mach. apply u64_small. mach. }
    assert ((u_offset u + Z.of_nat (length (e0 :: l0)) - 1 +u 1)
            = u_offset u + Z.of_nat (length (e0 :: l0))) as ->.
    { replace (_ - 1 + 1) with (u_offset u + Z.of_nat (length (e0 :: l0))) by lia.
      apply u64_small. mach. }
    destruct (Z.leb_spec (e_index e) (u_offset u)) as [Hle|Hgt].
    + replace (Z.to_nat (e_index e - u_offset u)) with 0%nat by lia.
      cbn [take app u_snapshot u_offset u_entries]. split_and!; [|done|lia|done].
      unfold unstable_ok, u_size. cbn [u_entries u_offset u_snapshot].
      destruct (u_snapshot u) as [s|]; split_and!; try done; lia.
    + destruct (Z.ltb_spec (u_offset u + Z.of_nat (length (e0 :: l0))) (e_index e)); [lia|].
      assert ((e_index e -u u_offset u) = e_index e - u_offset u) as -> by (apply u64_small; mach).
      cbn [u_snapshot u_offset u_entries]. split_and!; [|done|lia|done].
      unfold unstable_ok, u_size. cbn [u_entries u_offset u_snapshot].
      assert (length (take (Z.to_nat (e_index e - u_offset u)) (e0 :: l0))
              = Z.to_nat (e_index e - u_offset u)) as Hlen by (rewrite length_take; lia).
      split_and!; [|lia| |done].
      * apply contiguous_app. split; [by apply contiguous_take|]. rewrite Hlen.
        by replace (u_offset u + _) with (e_index e) by lia.
      * rewrite length_app, Hlen. lia.
Qed.

Lemma u_slice_eq lo hi :
  0 <= lo -> 0 <= hi <= 2 ^ 63 -> u_offset u <= lo -> lo <= hi -> hi <= u_offset u + u_size u ->
  u_slice u lo hi = log_slice (u_offset u) lo hi (u_entries u).
Proof using Hu.
  intros Hlo Hhi H1 H2 H3. destruct Hu as (_ & Ho & Hb & _). unfold u_slice, log_slice.
  assert ((u_offset u +u u_size u) = u_offset u + u_size u) as ->
    by (unfold u_size in *; apply u64_small; mach).
  rewrite (proj2 (Z.ltb_ge _ _)), (proj2 (Z.ltb_ge _ _)), (proj2 (Z.ltb_ge _ _)) by lia.
  simpl. by rewrite !u64_small by mach.
Qed.
End UnstableOps.

Lemma u_restore_ok u s :
  0 <= s_index s < 2 ^ 62 -> unstable_ok (u_restore u s).
Proof.
  intros H. unfold unstable_ok, u_restore, u_size. simpl. rewrite u64_small by mach.
  split_and!; try done; try lia.
Qed.
