(* ===== verification/RaftLog.v ===== *)
(** * The raft log: unstable entries over persistent storage

    Models [src/raft/include/raft/RaftLog.h] and [src/raft/src/RaftLog.cpp].
    The log reads the application's storage through a pointer it does not
    own; since the application writes that storage between calls, every
    operation here takes its current value [st] as an argument.  [None] is
    an access outside an array, except in [slice], where it is the
    exception the code throws. *)

From S2P Require Import Prelude RaftTypes LogUnstable.

(** [sizeof(Entry)], fixed by the platform. *)
Class Platform := { sizeof_Entry : Z; sizeof_Entry_pos : 0 < sizeof_Entry < 2 ^ 32 }.

Definition noLimit : Z := 2 ^ 64 - 1.

Record RaftLog := mkRaftLog {
  rl_unstable : LogUnstable;
  rl_committed : Z;
  rl_applied : Z;
}.

Definition set_unstable (u : LogUnstable) (l : RaftLog) : RaftLog :=
  mkRaftLog u (rl_committed l) (rl_applied l).
Definition set_committed (c : Z) (l : RaftLog) : RaftLog :=
  mkRaftLog (rl_unstable l) c (rl_applied l).

Section RaftLog.
Context `{!Platform} {St : Type} `{!Storage St}.
Implicit Types (st : St) (l : RaftLog).

Definition new_RaftLog st : RaftLog :=
  let committed := st_firstIndex st -u 1 in
  let snap := st_snapshot st in
  if committed <? s_index snap then mkRaftLog new_LogUnstable (s_index snap) (s_index snap)
  else mkRaftLog new_LogUnstable committed committed.

Definition firstIndex st l : Z :=
  match maybeFirstIndex (rl_unstable l) with
  | Some i => i
  | None => st_firstIndex st
  end.

Definition lastIndex st l : Z :=
  match maybeLastIndex (rl_unstable l) with
  | Some i => i
  | None => st_lastIndex st
  end.

Definition term st l (i : Z) : option Z :=
  if i =? (firstIndex st l -u 1) then Some 0 else
  ut ← maybeTerm (rl_unstable l) i;
  match ut with
  | Some t => Some t
  | None => match st_term st i with Some t => Some t | None => Some 0 end
  end.

Definition lastTerm st l : option Z := term st l (lastIndex st l).

Definition commitIndex l : Z := rl_committed l.
Definition appliedIndex l : Z := rl_applied l.

Definition maybeCommit st l (index t : Z) : option (bool * RaftLog) :=
  if rl_committed l <? index then
    t' ← term st l index;
    if t' =? t then Some (true, set_committed index l) else Some (false, l)
  else Some (false, l).

Definition commitTo st l (index : Z) : RaftLog :=
  if rl_committed l <? index then set_committed (Z.min index (lastIndex st l)) l else l.

(** The loop that cuts the batch at [maxSize], after its first entry. *)
Fixpoint cut_size (maxSize size : Z) (ents : list Entry) : list Entry :=
  match ents with
  | [] => []
  | e :: ents =>
      let size := size +u (Z.of_nat (length (e_data e)) +u sizeof_Entry) in
      if maxSize <? size then [] else e :: cut_size maxSize size ents
  end.

(** The truncation to [maxSize]; at least one entry stays. *)
Definition cut_batch (maxSize : Z) (ents : list Entry) : list Entry :=
  match ents with
  | e :: _ :: _ =>
      if maxSize =? noLimit then ents
      else e :: cut_size maxSize (Z.of_nat (length (e_data e)) +u sizeof_Entry) (drop 1 ents)
  | _ => ents
  end.

Definition slice st l (lo hi maxSize : Z) : option (list Entry) :=
  if hi <=? lo then Some [] else
  if lo <? firstIndex st l then None else
  if lastIndex st l +u 1 <? hi then None else
  let unstableOffset := u_offset (rl_unstable l) in
  let finish (ents : list Entry) : list Entry :=
    cut_batch maxSize
      (if unstableOffset <? hi
       then ents ++ u_slice (rl_unstable l) (Z.max lo unstableOffset) hi
       else ents) in
  if lo <? unstableOffset then
    let storageHi := Z.min hi unstableOffset in
    stored ← st_entries st lo storageHi maxSize;
    if Z.of_nat (length stored) <? (storageHi -u lo) then Some stored
    else Some (finish stored)
  else Some (finish []).

(** The cut at the first configuration change. *)
Fixpoint until_conf_change (ents : list Entry) : list Entry :=
  match ents with
  | [] => []
  | e :: ents =>
      match e_type e with
      | ConfChange | ConfChangeV2 => []
      | _ => e :: until_conf_change ents
      end
  end.

Definition nextCommittedEntries st l (allowConfChange : bool) : list Entry :=
  if rl_committed l <=? rl_applied l then [] else
  match slice st l (rl_applied l +u 1) (rl_committed l +u 1) noLimit with
  | None => []
  | Some ents => if allowConfChange then ents else until_conf_change ents
  end.

Definition appliedTo l (i : Z) : RaftLog :=
  if (i <? rl_applied l) || (rl_committed l <? i) then l
  else mkRaftLog (rl_unstable l) (rl_committed l) i.

Fixpoint findConflict st l (entries : list Entry) : option Z :=
  match entries with
  | [] => Some 0
  | e :: entries =>
      t ← term st l (e_index e);
      if t =? e_term e then findConflict st l entries else Some (e_index e)
  end.

Definition maybeAppend st l (prevLogIndex prevLogTerm leaderCommit : Z) (entries : list Entry)
    : option (bool * RaftLog) :=
  t ← term st l prevLogIndex;
  if negb (t =? prevLogTerm) then Some (false, l) else
  let lastNewIndex := prevLogIndex +u Z.of_nat (length entries) in
  conflict ← findConflict st l entries;
  l ← (if conflict =? 0 then
         if lastNewIndex <? lastIndex st l
         then Some (set_unstable (truncateFrom (rl_unstable l) (lastNewIndex +u 1)) l)
         else Some l
       else if conflict <=? rl_committed l then Some l
       else
         let k := conflict -u prevLogIndex -u 1 in
         if Z.of_nat (length entries) <? k then None
         else Some (set_unstable (u_append (rl_unstable l) (drop (Z.to_nat k) entries)) l));
  Some (true, if rl_committed l <? leaderCommit
              then set_committed (Z.min leaderCommit lastNewIndex) l else l).

Definition append st l (entries : list Entry) : Z * RaftLog :=
  match entries with
  | [] => (lastIndex st l, l)
  | e :: _ =>
      let after := e_index e -u 1 in
      if after <? rl_committed l then (lastIndex st l, l)
      else let l := set_unstable (u_append (rl_unstable l) entries) l in (lastIndex st l, l)
  end.

Definition restore l (snap : Snapshot) : RaftLog :=
  mkRaftLog (u_restore (rl_unstable l) snap) (s_index snap) (s_index snap).

Definition snapshot st l : Snapshot :=
  match u_snapshot (rl_unstable l) with
  | Some s => s
  | None => st_snapshot st
  end.
Definition snapshotIndex st l : Z := s_index (snapshot st l).
Definition snapshotTerm st l : Z := s_term (snapshot st l).

Definition unstableEntries l : list Entry := u_entries (rl_unstable l).
Definition stableTo l (i t : Z) : RaftLog := set_unstable (u_stableTo (rl_unstable l) i t) l.
Definition stableSnapTo l (i : Z) : RaftLog := set_unstable (u_stableSnapTo (rl_unstable l) i) l.
End RaftLog.

(** ** Slices *)

Lemma log_slice_lookup first lo hi (L : list Entry) k :
  first <= lo ->
  log_slice first lo hi L !! k
  = if decide (Z.of_nat k < hi - lo) then log_lookup first (lo + Z.of_nat k) L else None.
Proof.
  intros H. unfold log_slice, log_lookup. case_decide.
  - rewrite lookup_take_lt, lookup_drop by lia. rewrite (proj2 (Z.ltb_ge _ _)) by lia.
    f_equal. lia.
  - by rewrite lookup_take_ge by lia.
Qed.

Lemma log_slice_app first lo mid hi (L : list Entry) :
  first <= lo -> lo <= mid <= hi ->
  log_slice first lo hi L = log_slice first lo mid L ++ log_slice first mid hi L.
Proof.
  intros H1 H2. unfold log_slice.
  replace (Z.to_nat (hi - lo)) with (Z.to_nat (mid - lo) + Z.to_nat (hi - mid))%nat by lia.
  rewrite <- take_take_drop. f_equal. rewrite drop_drop. do 2 f_equal. lia.
Qed.

Lemma length_log_slice first lo hi (L : list Entry) :
  first <= lo <= hi -> hi <= first + Z.of_nat (length L) ->
  length (log_slice first lo hi L) = Z.to_nat (hi - lo).
Proof. intros. unfold log_slice. rewrite length_take, length_drop. lia. Qed.

Lemma cut_size_prefix `{!Platform} mx ents : forall sz,
  exists k, cut_size mx sz ents = take k ents.
Proof.
  induction ents as [|e ents IH]; intros sz; simpl; [by exists 0%nat|].
  destruct (mx <? _); [by exists 0%nat|]. destruct (IH (sz +u (Z.of_nat (length (e_data e)) +u sizeof_Entry))) as [k ->].
  by exists (S k).
Qed.

Lemma cut_batch_prefix `{!Platform} mx (ents : list Entry) :
  ents <> [] ->
  exists k, cut_batch mx ents = take (S k) ents /\ (mx = noLimit -> take (S k) ents = ents).
Proof.
  intros Hne. destruct ents as [|e [|e2 es]]; [done|by exists 0%nat|]. unfold cut_batch.
  destruct (Z.eqb_spec mx noLimit) as [->|Hmx].
  - exists (S (length es)). simpl. by rewrite firstn_all.
  - simpl drop.
    destruct (cut_size_prefix mx (e2 :: es) (Z.of_nat (length (e_data e)) +u sizeof_Entry))
      as [k ->]. by exists k.
Qed.

(** ** The log as one list

    Below the unstable entries lies what storage holds of the log; a pending
    snapshot hides storage. *)

Section LogView.
Context `{!Platform} {St : Type} `{!Storage St} `{!StorageLaws St}.
Implicit Types (st : St) (l : RaftLog).

Definition log_first st l : Z :=
  match u_snapshot (rl_unstable l) with
  | Some s => s_index s + 1
  | None => st_firstIndex st
  end.

Definition log_list st l : list Entry :=
  let u := rl_unstable l in
  match u_snapshot u, u_entries u with
  | None, [] => st_log st
  | None, _ => take (Z.to_nat (u_offset u - st_firstIndex st)) (st_log st) ++ u_entries u
  | Some _, _ => u_entries u
  end.

Definition log_last st l : Z := log_first st l + Z.of_nat (length (log_list st l)) - 1.

(** Well-formed: the unstable entries continue what storage has. *)
Definition raftlog_ok st l : Prop :=
  st_ok st /\ unstable_ok (rl_unstable l)
  /\ (u_snapshot (rl_unstable l) = None -> u_entries (rl_unstable l) <> [] ->
      st_firstIndex st <= u_offset (rl_unstable l) <= st_lastIndex st + 1).

(** Entries are applied only once committed. *)
Definition cursors_ok l : Prop :=
  0 <= rl_applied l <= rl_committed l /\ rl_committed l < 2 ^ 63.

(** Storage holds nothing above the log's end. *)
Definition no_stale st l : Prop := st_lastIndex st <= log_last st l.

Definition term_at st l (i : Z) : Z :=
  default 0 (e_term <$> log_lookup (log_first st l) i (log_list st l)).

(** The offset stands just after the log when nothing is unstable. *)
Definition synced st l : Prop :=
  u_entries (rl_unstable l) = [] -> u_offset (rl_unstable l) = log_last st l + 1.

Section Ok.
Context st l (Hok : raftlog_ok st l).

Lemma firstIndex_eq : firstIndex st l = log_first st l.
Proof using Hok.
  destruct Hok as (_ & (_ & _ & _ & Hs) & _). unfold firstIndex, log_first, maybeFirstIndex.
  destruct (u_snapshot _) as [s|]; [|done]. apply u64_small. mach.
Qed.

Lemma log_first_range : 1 <= log_first st l <= 2 ^ 63.
Proof using Hok.
  destruct Hok as (Hst & (_ & _ & _ & Hs) & _). unfold log_first.
  pose proof (st_first_range _ Hst). pose proof (st_last_range _ Hst).
  pose proof (st_last_eq _ Hst). destruct (u_snapshot _) as [s|]; lia.
Qed.

Lemma lastIndex_eq : lastIndex st l = log_last st l.
Proof using Hok.
  destruct Hok as (Hst & Hu & Hov). unfold lastIndex. rewrite maybeLastIndex_eq by done.
  pose proof (st_last_eq _ Hst) as Hl. destruct Hu as (_ & Ho & Hb & Hs).
  unfold log_last, log_first, log_list, u_size in *.
  destruct (u_entries (rl_unstable l)) as [|e es] eqn:E, (u_snapshot (rl_unstable l)) as [s|] eqn:Es;
    cbn [length] in *; [lia..|]. specialize (Hov eq_refl ltac:(done)).
  rewrite length_app, length_take. cbn [length]. lia.
Qed.

Lemma log_contiguous : contiguous (log_first st l) (log_list st l).
Proof using Hok.
  destruct Hok as (Hst & Hu & Hov). pose proof (st_contiguous _ Hst) as Hc.
  pose proof (st_last_eq _ Hst) as Hl. destruct Hu as (Hu & Ho & Hb & Hs).
  unfold log_first, log_list.
  destruct (u_snapshot (rl_unstable l)) as [s|] eqn:Es.
  { destruct Hs as [_ <-]. done. }
  destruct (u_entries (rl_unstable l)) as [|e es] eqn:E; [done|].
  specialize (Hov eq_refl ltac:(done)).
  apply contiguous_app. split; [by apply contiguous_take|]. rewrite length_take.
  by replace (_ + Z.of_nat _) with (u_offset (rl_unstable l)) by lia.
Qed.

Lemma log_last_range : log_first st l - 1 <= log_last st l < 2 ^ 63.
Proof using Hok.
  unfold log_last. split; [lia|]. fold (log_last st l). rewrite <- lastIndex_eq.
  destruct Hok as (Hst & Hu & _). unfold lastIndex. rewrite maybeLastIndex_eq by done.
  pose proof (st_last_range _ Hst). destruct Hu as (_ & Ho & Hb & _).
  destruct (u_entries (rl_unstable l)), (u_snapshot (rl_unstable l)); lia.
Qed.

(** Reading the log at an index: unstable first, then storage. *)
Lemma log_lookup_eq i :
  log_first st l <= i <= log_last st l ->
  log_lookup (log_first st l) i (log_list st l)
  = if i <? u_offset (rl_unstable l) then log_lookup (st_firstIndex st) i (st_log st)
    else match u_entries (rl_unstable l) with
         | [] => log_lookup (st_firstIndex st) i (st_log st)
         | es => es !! Z.to_nat (i - u_offset (rl_unstable l))
         end.
Proof using Hok.
  intros Hi. destruct Hok as (Hst & Hu & Hov). destruct Hu as (_ & Ho & Hb & Hs).
  pose proof (st_last_eq _ Hst) as Hl.
  unfold log_last, log_lookup, log_first, log_list in *.
  destruct (u_snapshot (rl_unstable l)) as [s|] eqn:Es;
    destruct (u_entries (rl_unstable l)) as [|e es] eqn:E; cbn [length] in *.
  - lia.
  - rewrite (proj2 (Z.ltb_ge _ _)) by lia. rewrite (proj2 (Z.ltb_ge _ _)) by lia.
    destruct Hs as [_ ->]. done.
  - by destruct (i <? u_offset _).
  - specialize (Hov eq_refl ltac:(done)). rewrite (proj2 (Z.ltb_ge _ _)) by lia.
    assert (length (take (Z.to_nat (u_offset (rl_unstable l) - st_firstIndex st)) (st_log st))
            = Z.to_nat (u_offset (rl_unstable l) - st_firstIndex st)) as Hlen
      by (rewrite length_take; lia).
    destruct (Z.ltb_spec i (u_offset (rl_unstable l))).
    + rewrite (lookup_app_l _ _) by lia. rewrite lookup_take_lt by lia. done.
    + rewrite lookup_app_r by lia. rewrite Hlen. f_equal. lia.
Qed.

Lemma log_lookup_range first (L : list Entry) i :
  first <= i -> i < first + Z.of_nat (length L) -> is_Some (log_lookup first i L).
Proof using Type.
  intros H1 H2. unfold log_lookup. rewrite (proj2 (Z.ltb_ge _ _)) by lia.
  apply lookup_lt_is_Some_2. lia.
Qed.

(** [term] reads the log's term at every index of the log, and 0 just
    below it. *)
Lemma term_eq i :
  log_first st l - 1 <= i <= log_last st l ->
  term st l i
  = Some (default 0 (e_term <$> log_lookup (log_first st l) i (log_list st l))).
Proof using Hok.
  intros Hi. pose proof log_first_range as Hf. pose proof log_last_range as Hlr.
  unfold term. rewrite firstIndex_eq. rewrite u64_small by mach.
  destruct (Z.eqb_spec i (log_first st l - 1)) as [->|Hne].
  { unfold log_lookup. by rewrite (proj2 (Z.ltb_lt _ _)) by lia. }
  destruct (log_lookup_range (log_first st l) (log_list st l) i) as [e He];
    [lia|unfold log_last in Hi; lia|].
  rewrite He. pose proof He as He'. rewrite log_lookup_eq in He' by lia.
  destruct Hok as (Hst & Hu & Hov). rewrite maybeTerm_eq by (done || lia).
  pose proof (st_term_eq _ i Hst) as Ht. cbn [mbind option_bind].
  destruct (Z.ltb_spec i (u_offset (rl_unstable l))) as [Hlt|Hge].
  - destruct (u_snapshot (rl_unstable l)) as [s|] eqn:Es.
    + destruct Hu as (_ & _ & _ & Hs). rewrite Es in Hs. unfold log_first in *.
      rewrite Es in *. lia.
    + by rewrite Ht, He'.
  - destruct (u_entries (rl_unstable l)) as [|e0 es] eqn:E.
    + rewrite lookup_nil. simpl. by rewrite Ht, He'.
    + by rewrite He'.
Qed.

(** The storage's and the unstable part of a slice. *)
Lemma log_slice_storage lo hi :
  log_first st l <= lo -> hi <= u_offset (rl_unstable l) -> hi <= log_last st l + 1 ->
  log_slice (log_first st l) lo hi (log_list st l)
  = log_slice (st_firstIndex st) lo hi (st_log st).
Proof using Hok.
  intros Hlo Hoff Hhi. apply list_eq. intros k.
  destruct (decide (lo < hi)) as [Hlt|Hge].
  - assert (st_firstIndex st <= lo).
    { unfold log_first in Hlo. destruct (u_snapshot (rl_unstable l)) as [s|] eqn:Es; [|lia].
      destruct Hok as (_ & (_ & _ & _ & Hs) & _). rewrite Es in Hs. lia. }
    rewrite !log_slice_lookup by done. case_decide; [|done].
    rewrite log_lookup_eq by lia. by rewrite (proj2 (Z.ltb_lt _ _)) by lia.
  - unfold log_slice. replace (Z.to_nat (hi - lo)) with 0%nat by lia. done.
Qed.

Lemma unstable_last : u_entries (rl_unstable l) <> [] ->
  u_offset (rl_unstable l) + u_size (rl_unstable l) = log_last st l + 1.
Proof using Hok.
  intros Hne. rewrite <- lastIndex_eq by done. unfold lastIndex.
  rewrite maybeLastIndex_eq by apply Hok. by destruct (u_entries (rl_unstable l)); [|lia].
Qed.

Lemma log_slice_unstable lo hi :
  log_first st l <= lo -> u_offset (rl_unstable l) <= lo -> hi <= log_last st l + 1 ->
  u_entries (rl_unstable l) <> [] ->
  log_slice (log_first st l) lo hi (log_list st l)
  = log_slice (u_offset (rl_unstable l)) lo hi (u_entries (rl_unstable l)).
Proof using Hok.
  intros Hlo Hoff Hhi Hne. apply list_eq. intros k.
  rewrite !log_slice_lookup by done. case_decide; [|done].
  rewrite log_lookup_eq by lia. rewrite (proj2 (Z.ltb_ge _ _)) by lia.
  destruct (u_entries (rl_unstable l)) as [|e es]; [done|].
  unfold log_lookup. by rewrite (proj2 (Z.ltb_ge _ _)) by lia.
Qed.

(** Below the unstable entries there is no unstable snapshot. *)
Lemma below_offset_no_snapshot i :
  log_first st l <= i -> i < u_offset (rl_unstable l) -> u_snapshot (rl_unstable l) = None.
Proof using Hok.
  intros Hi Hlt. destruct (u_snapshot (rl_unstable l)) as [s|] eqn:Es; [|done].
  destruct Hok as (_ & (_ & _ & _ & Hs) & _). rewrite Es in Hs.
  unfold log_first in Hi. rewrite Es in Hi. lia.
Qed.

Lemma unstable_slice lo hi :
  synced st l -> log_first st l <= lo -> lo < hi -> u_offset (rl_unstable l) <= lo ->
  hi <= log_last st l + 1 ->
  u_slice (rl_unstable l) lo hi = log_slice (log_first st l) lo hi (log_list st l).
Proof using Hok.
  intros Hsync Hlo Hlt Hoff Hhi. pose proof log_last_range. pose proof log_first_range.
  assert (u_entries (rl_unstable l) <> []) as Hne.
  { intros Hnil. specialize (Hsync Hnil). lia. }
  pose proof (unstable_last Hne) as Hul. rewrite u_slice_eq by (first [apply Hok|lia]).
  symmetry. apply log_slice_unstable; [lia|lia|lia|done].
Qed.

(** What is below the unstable entries is in storage. *)
Lemma stored_below lo hi :
  log_first st l <= lo -> lo < u_offset (rl_unstable l) -> hi <= log_last st l + 1 ->
  Z.min hi (u_offset (rl_unstable l)) <= st_lastIndex st + 1.
Proof using Hok.
  intros Hlo Hlt Hhi. pose proof (below_offset_no_snapshot lo Hlo Hlt) as Hsnap.
  destruct Hok as (Hstok & _ & Hov). destruct (u_entries (rl_unstable l)) as [|e es] eqn:E.
  - pose proof (st_last_eq _ Hstok). unfold log_last, log_first, log_list in *.
    rewrite Hsnap, E in *. lia.
  - specialize (Hov Hsnap ltac:(done)). lia.
Qed.

Lemma slice_eq lo hi mx :
  synced st l -> log_first st l <= lo -> lo < hi -> hi <= log_last st l + 1 ->
  exists k, slice st l lo hi mx
            = Some (take (S k) (log_slice (log_first st l) lo hi (log_list st l)))
    /\ (mx = noLimit -> take (S k) (log_slice (log_first st l) lo hi (log_list st l))
                        = log_slice (log_first st l) lo hi (log_list st l)).
Proof using Hok.
  intros Hsync Hlo Hlt Hhi. pose proof log_last_range as Hlr. pose proof log_first_range as Hfr.
  set (S1 := log_slice (log_first st l) lo hi (log_list st l)).
  assert (length S1 = Z.to_nat (hi - lo)) as HlenS.
  { apply length_log_slice; unfold log_last in *; lia. }
  assert (S1 <> []) as HneS by (intros ->; simpl in HlenS; lia).
  unfold slice. rewrite firstIndex_eq, lastIndex_eq by done.
  rewrite (proj2 (Z.leb_gt hi lo)) by lia.
  rewrite (proj2 (Z.ltb_ge lo (log_first st l))) by lia.
  rewrite (u64_small (log_last st l + 1)) by mach.
  rewrite (proj2 (Z.ltb_ge (log_last st l + 1) hi)) by lia. cbv zeta.
  set (off := u_offset (rl_unstable l)) in *.
  assert (forall lo', lo <= lo' < hi -> off <= lo' ->
    u_slice (rl_unstable l) lo' hi = log_slice (log_first st l) lo' hi (log_list st l)) as Hun
    by (intros lo' Hlo' Hoff; apply unstable_slice; lia || done).
  destruct (Z.ltb_spec lo off) as [Hlow|Hhigh].
  - set (shi := Z.min hi off).
    assert (log_slice (log_first st l) lo shi (log_list st l)
            = log_slice (st_firstIndex st) lo shi (st_log st)) as Hst.
    { apply log_slice_storage; fold off; lia. }
    pose proof (below_offset_no_snapshot lo Hlo Hlow) as Hsnap.
    pose proof (stored_below lo hi Hlo Hlow Hhi) as Hshi. fold off shi in Hshi.
    destruct (st_entries_eq st lo shi mx) as (k & -> & Hk);
      [apply Hok|unfold log_first in Hlo; rewrite Hsnap in Hlo; lia|lia|done|].
    rewrite <- Hst in *. cbn [mbind option_bind].
    assert (S1 = log_slice (log_first st l) lo shi (log_list st l)
                 ++ log_slice (log_first st l) shi hi (log_list st l)) as HS.
    { apply log_slice_app; lia. }
    assert (length (log_slice (log_first st l) lo shi (log_list st l)) = Z.to_nat (shi - lo))
      as Hls by (apply length_log_slice; unfold log_last in *; lia).
    rewrite u64_small by mach.
    destruct (Z.ltb_spec (Z.of_nat (length (take (S k) (log_slice (log_first st l) lo shi (log_list st l)))))
      (shi - lo)) as [Hshort|Hfull].
    + exists k. split; [|intros ->; specialize (Hk eq_refl); rewrite Hk in Hshort; lia].
      f_equal. rewrite HS, take_app_le; [done|]. rewrite length_take in Hshort. lia.
    + rewrite length_take in Hfull. rewrite take_ge by lia.
      destruct (cut_batch_prefix mx S1 HneS) as (k' & Hk' & Hk''). exists k'.
      split; [|done]. rewrite <- Hk'. do 2 f_equal. destruct (Z.ltb_spec off hi) as [Hoh|Hoh].
      * rewrite Hun by lia. rewrite HS. do 2 f_equal. lia.
      * replace shi with hi by lia. done.
  - destruct (cut_batch_prefix mx S1 HneS) as (k' & Hk' & Hk''). exists k'. split; [|done].
    rewrite <- Hk'. rewrite (proj2 (Z.ltb_lt off hi)) by lia. do 2 f_equal. simpl.
    rewrite Hun by lia. unfold S1. f_equal. lia.
Qed.

Lemma slice_out lo hi mx :
  lo < hi -> hi < 2 ^ 63 -> lo < log_first st l \/ log_last st l + 1 < hi ->
  slice st l lo hi mx = None.
Proof using Hok.
  intros Hlt Hhi Hout. pose proof log_last_range. pose proof log_first_range. unfold slice.
  rewrite firstIndex_eq, lastIndex_eq by done. rewrite (proj2 (Z.leb_gt hi lo)) by lia.
  rewrite (u64_small (log_last st l + 1)) by mach.
  destruct (Z.ltb_spec lo (log_first st l)); [done|].
  by rewrite (proj2 (Z.ltb_lt (log_last st l + 1) hi)) by lia.
Qed.

(** Above the log's end [term] is 0, unless storage still holds entries
    that the unstable ones replaced. *)
Lemma term_at_beyond i : log_last st l < i -> term_at st l i = 0.
Proof using Hok.
  intros Hi. pose proof log_first_range as Hf. pose proof log_last_range as Hlr.
  unfold term_at, log_lookup. rewrite (proj2 (Z.ltb_ge _ _)) by lia.
  rewrite lookup_ge_None_2; [done|]. unfold log_last in *. lia.
Qed.

Lemma term_any i :
  no_stale st l -> log_first st l - 1 <= i < 2 ^ 63 -> term st l i = Some (term_at st l i).
Proof using Hok.
  intros Hns Hi. destruct (decide (i <= log_last st l)); [apply term_eq; lia|].
  pose proof log_first_range as Hf. pose proof log_last_range as Hlr. unfold no_stale in Hns.
  rewrite term_at_beyond by lia.
  unfold term. rewrite firstIndex_eq, u64_small by mach.
  rewrite (proj2 (Z.eqb_neq _ _)) by lia.
  destruct Hok as (Hst & Hu & Hov). rewrite maybeTerm_eq by (done || lia).
  cbn [mbind option_bind].
  assert (st_term st i = None) as Hnone.
  { rewrite st_term_eq by done. unfold log_lookup. pose proof (st_last_eq _ Hst).
    destruct (_ <? _); [done|]. by rewrite lookup_ge_None_2 by lia. }
  destruct (Z.ltb_spec i (u_offset (rl_unstable l))) as [Hlt|Hge].
  - destruct (u_snapshot (rl_unstable l)) as [s|] eqn:Es; [|by rewrite Hnone].
    destruct Hu as (_ & _ & _ & Hs). rewrite Es in Hs. unfold log_first in *.
    rewrite Es in *. lia.
  - destruct (decide (u_entries (rl_unstable l) = [])) as [->|Hne].
    + rewrite lookup_nil. simpl. by rewrite Hnone.
    + pose proof (unstable_last Hne) as Hul. unfold u_size in Hul.
      rewrite lookup_ge_None_2 by lia. simpl. by rewrite Hnone.
Qed.

(** *** Truncating and appending *)

Lemma set_unstable_first u :
  u_snapshot u = u_snapshot (rl_unstable l) -> log_first st (set_unstable u l) = log_first st l.
Proof using Type. intros Hs. unfold log_first. simpl. by rewrite Hs. Qed.

Lemma append_list e es :
  contiguous (e_index e) (e :: es) -> log_first st l <= e_index e <= log_last st l + 1 ->
  e_index e + Z.of_nat (length (e :: es)) < 2 ^ 63 ->
  let l' := set_unstable (u_append (rl_unstable l) (e :: es)) l in
  raftlog_ok st l' /\ log_first st l' = log_first st l
  /\ log_list st l' = take (Z.to_nat (e_index e - log_first st l)) (log_list st l) ++ e :: es.
Proof using Hok.
  intros Hc Hr Hb l'. pose proof log_first_range as Hf.
  pose proof unstable_last as Hul. unfold u_append in l'.
  destruct Hok as (Hst & Hu & Hov).
  pose proof (st_last_eq _ Hst) as Hstl. pose proof (st_first_range _ Hst) as Hstf.
  destruct (truncateAndAppend_ok (rl_unstable l) Hu e es) as (Hu' & Hs' & Ho' & He');
    [done|done| | |intros Hne; specialize (Hul Hne); lia|].
  { destruct Hu as (_ & _ & _ & Hs). unfold log_first in Hr.
    destruct (u_snapshot _); lia. }
  { intros Hnil Hsn. destruct Hu as (_ & _ & _ & Hs). unfold log_last, log_first, log_list in Hr.
    rewrite Hnil in Hr. destruct (u_snapshot _); [|done]. simpl in Hr. lia. }
  assert (u_entries (truncateAndAppend (rl_unstable l) (e :: es)) <> []) as Hne'
    by (rewrite He'; by destruct (take _ _)).
  assert (log_first st l' = log_first st l) as Hf' by (by apply set_unstable_first).
  split_and!; [|done|].
  - split_and!; [done|done|]. unfold l'. cbn [rl_unstable set_unstable].
    rewrite Hs', Ho'. intros Hsn _.
    unfold log_last, log_first, log_list in Hr. rewrite Hsn in Hr, Hov.
    case_decide as Hnil; [rewrite Hnil in Hr; lia|]. specialize (Hov eq_refl Hnil). lia.
  - unfold log_list, l'. cbn [rl_unstable set_unstable]. rewrite Hs', He'.
    destruct Hu as (_ & _ & _ & Hs). unfold log_first, log_last, log_list in *.
    destruct (u_snapshot (rl_unstable l)) as [s|] eqn:Es.
    { destruct Hs as [_ ->]. done. }
    destruct (u_entries (rl_unstable l)) as [|e0 es0] eqn:E.
    { rewrite take_nil, Ho'. done. }
    specialize (Hov eq_refl ltac:(done)). rewrite Ho', decide_False by done.
    destruct (take (Z.to_nat (e_index e - u_offset (rl_unstable l))) (e0 :: es0) ++ e :: es)
      eqn:Et; [by destruct (take _ _)|]. rewrite <- Et. clear Et.
    destruct (Z.leb_spec (e_index e) (u_offset (rl_unstable l))).
    + replace (Z.to_nat (e_index e - u_offset (rl_unstable l))) with 0%nat by lia.
      rewrite Z.min_r by lia. rewrite take_app_le by (rewrite length_take; lia).
      rewrite take_take. do 2 f_equal. lia.
    + rewrite Z.min_l by lia. rewrite app_assoc. f_equal.
      rewrite take_app_ge by (rewrite length_take; lia). do 2 f_equal. rewrite length_take. lia.
Qed.
End Ok.

Lemma truncateFrom_fields u n :
  u_snapshot (truncateFrom u n) = u_snapshot u /\ u_offset (truncateFrom u n) = u_offset u.
Proof.
  unfold truncateFrom. destruct (u_entries _); [done|]. destruct (_ <? _); [done|].
  by destruct (_ <? _).
Qed.

Lemma truncateFrom_entries u n :
  0 <= u_offset u -> n < 2 ^ 63 ->
  u_entries (truncateFrom u n) = take (Z.to_nat (n - u_offset u)) (u_entries u).
Proof.
  intros Hoff Hn. unfold truncateFrom, u_size.
  destruct (u_entries u) as [|e es] eqn:E; [by rewrite E, take_nil|].
  destruct (Z.ltb_spec n (u_offset u)).
  { by replace (Z.to_nat (n - u_offset u)) with 0%nat by lia. }
  rewrite u64_small by mach.
  destruct (Z.ltb_spec (n - u_offset u) (Z.of_nat (length (e :: es)))); [done|].
  by rewrite E, take_ge by lia.
Qed.

Lemma truncate_lookup st l n :
  raftlog_ok st l -> log_first st l - 1 <= n < 2 ^ 62 ->
  let l' := set_unstable (truncateFrom (rl_unstable l) (n + 1)) l in
  raftlog_ok st l' /\ log_first st l' = log_first st l
  /\ forall i, log_first st l <= i <= n -> i <= log_last st l ->
      log_lookup (log_first st l) i (log_list st l')
      = log_lookup (log_first st l) i (log_list st l).
Proof.
  intros Hok Hn l'. pose proof (log_first_range _ _ Hok) as Hf. pose proof Hok as (Hst & Hu & Hov).
  set (u' := truncateFrom (rl_unstable l) (n + 1)).
  destruct (truncateFrom_fields (rl_unstable l) (n + 1)) as [Hs' Ho']. fold u' in Hs', Ho'.
  assert (log_first st l' = log_first st l) as Hf' by (by apply set_unstable_first).
  assert (u_entries (rl_unstable l) = [] -> u' = rl_unstable l) as Hnil'.
  { intros Hnil. unfold u', truncateFrom. by rewrite Hnil. }
  assert (raftlog_ok st l') as Hok'.
  { split_and!; [done|apply truncateFrom_ok; [done|lia]|]. unfold l'.
    cbn [rl_unstable set_unstable]. fold u'. rewrite Hs', Ho'.
    intros Hsn Hne. apply Hov; [done|]. intros Hnil. apply Hne. by rewrite Hnil'. }
  split_and!; [done|done|]. intros i Hi Hil.
  destruct (decide (u_entries (rl_unstable l) = [])) as [Hnil|Hne].
  { unfold log_list, l'. cbn [rl_unstable set_unstable]. fold u'. by rewrite Hnil'. }
  pose proof (unstable_last _ _ Hok Hne) as Hul. destruct Hu as (_ & Hoff & Hub & _).
  pose proof (truncateFrom_entries (rl_unstable l) (n + 1) ltac:(mach) ltac:(lia)) as He'. fold u' in He'.
  assert (i <= log_last st l') as Hil'.
  { destruct (decide (u_entries u' = [])) as [Hnil|Hne'].
    - rewrite Hnil in He'. symmetry in He'. apply (f_equal length) in He'.
      rewrite length_take in He'. simpl in He'.
      assert (length (u_entries (rl_unstable l)) <> 0%nat)
        by (by destruct (u_entries (rl_unstable l))).
      pose proof (below_offset_no_snapshot _ _ Hok i ltac:(lia) ltac:(lia)) as Hsn. specialize (Hov Hsn Hne).
      unfold log_last, log_first, log_list, l'. cbn [rl_unstable set_unstable]. fold u'.
      rewrite Hs', Hsn, Hnil. pose proof (st_last_eq _ Hst). lia.
    - pose proof (unstable_last _ _ Hok' Hne') as Hul'. unfold l' in Hul'.
      cbn [rl_unstable set_unstable] in Hul'. fold u' l' in Hul'. unfold u_size in *.
      assert (length (u_entries u') <> 0%nat) as Hlen by (by destruct (u_entries u')).
      rewrite Ho', He', length_take in *. change (set_unstable u' l) with l' in Hul'. lia. }
  rewrite <- Hf' at 1. rewrite !log_lookup_eq by (done || lia).
  unfold l'. cbn [rl_unstable set_unstable]. fold u'. rewrite Ho', He'.
  destruct (Z.ltb_spec i (u_offset (rl_unstable l))); [done|].
  destruct (u_entries (rl_unstable l)) as [|e es] eqn:E; [done|].
  destruct (take _ _) as [|e' es'] eqn:Et.
  - apply (f_equal length) in Et. rewrite length_take in Et. cbn [length] in Et. lia.
  - rewrite <- Et, lookup_take_lt by lia. done.
Qed.

(** *** The follower's append *)

(** The scan stops at the first entry whose term differs from the log's at
    its index; all entries before it are in the log. *)
Lemma findConflict_spec st l : raftlog_ok st l -> no_stale st l -> forall ents prev,
  log_first st l - 1 <= prev -> contiguous (prev + 1) ents ->
  prev + Z.of_nat (length ents) < 2 ^ 63 ->
  exists n c, findConflict st l ents = Some c /\ (n <= length ents)%nat
    /\ (forall k e, ents !! k = Some e -> (k < n)%nat ->
          term_at st l (prev + 1 + Z.of_nat k) = e_term e)
    /\ match ents !! n with
       | None => c = 0
       | Some e => c = prev + 1 + Z.of_nat n /\ term_at st l c <> e_term e
       end.
Proof.
  intros Hok Hns. pose proof (log_first_range _ _ Hok) as Hf.
  induction ents as [|e ents IH]; intros prev Hp Hc Hb.
  { exists 0%nat, 0. split_and!; [done|lia|intros ? ? ?; lia|done]. }
  apply contiguous_cons in Hc as [He Hc]. cbn [length findConflict] in *. rewrite He.
  rewrite term_any by (done || lia). cbn [mbind option_bind].
  destruct (Z.eqb_spec (term_at st l (prev + 1)) (e_term e)) as [Heq|Hne].
  - destruct (IH (prev + 1)) as (n & c & E & Hn & Hmatch & Hat); [lia|done|lia|].
    exists (S n), c. split_and!; [done|lia| |].
    + intros [|k] x Hx Hk; simpl in Hx; [simplify_eq; by rewrite Z.add_0_r|].
      replace (prev + 1 + Z.of_nat (S k)) with (prev + 1 + 1 + Z.of_nat k) by lia.
      apply Hmatch; [done|lia].
    + simpl. destruct (ents !! n); [|done].
      replace (prev + 1 + Z.of_nat (S n)) with (prev + 1 + 1 + Z.of_nat n) by lia. done.
  - exists 0%nat, (prev + 1). split_and!; [done|lia|intros ? ? ?; lia|].
    simpl. split; [lia|done].
Qed.

(** An index with a positive term is in the log. *)
Lemma term_at_in st l i t :
  1 <= t -> term_at st l i = t ->
  exists e, log_lookup (log_first st l) i (log_list st l) = Some e /\ e_term e = t
    /\ log_first st l <= i <= log_last st l.
Proof.
  unfold term_at. intros Ht Hi. destruct (log_lookup _ _ _) as [e|] eqn:E; simpl in Hi; [|lia].
  exists e. split_and!; [done|done| |].
  - unfold log_lookup in E. by destruct (Z.ltb_spec i (log_first st l)).
  - unfold log_lookup in E. destruct (Z.ltb_spec i (log_first st l)); [done|].
    apply lookup_lt_Some in E. unfold log_last. lia.
Qed.

(** After an accepted append the log holds, at the position of each of the
    leader's entries, that entry or one it already had there with the same
    term, and is unchanged up to the previous index. *)
Definition appended st l l' (prev : Z) (ents : list Entry) : Prop :=
  raftlog_ok st l' /\ log_first st l' = log_first st l
  /\ (forall i, log_first st l <= i <= prev ->
        log_lookup (log_first st l) i (log_list st l')
        = log_lookup (log_first st l) i (log_list st l))
  /\ (forall k e, ents !! k = Some e ->
        exists e', log_lookup (log_first st l) (prev + 1 + Z.of_nat k) (log_list st l') = Some e'
          /\ e_term e' = e_term e
          /\ (e' = e \/ log_lookup (log_first st l) (prev + 1 + Z.of_nat k) (log_list st l) = Some e')).

Section Append.
Context st l (prev : Z) (ents : list Entry) (Hok : raftlog_ok st l) (Hns : no_stale st l).
Context (Hprev : log_first st l - 1 <= prev <= log_last st l).
Context (Hc : contiguous (prev + 1) ents).
Context (Hb : prev + Z.of_nat (length ents) < 2 ^ 62).
Context (Hpos : Forall (fun e => 1 <= e_term e) ents).

Lemma ents_pos k e : ents !! k = Some e -> 1 <= e_term e.
Proof using Hpos. intros Hk. by apply (Forall_lookup_1 _ _ _ _ Hpos Hk). Qed.

(** No conflict: the entries are all there, whatever is cut after them. *)
Lemma appended_all l' :
  (forall k e, ents !! k = Some e -> term_at st l (prev + 1 + Z.of_nat k) = e_term e) ->
  raftlog_ok st l' -> log_first st l' = log_first st l ->
  (forall i, log_first st l <= i <= prev + Z.of_nat (length ents) -> i <= log_last st l ->
     log_lookup (log_first st l) i (log_list st l')
     = log_lookup (log_first st l) i (log_list st l)) ->
  appended st l l' prev ents.
Proof using Hpos Hprev.
  intros Hmatch Hok' Hf' Hsame. split_and!; [done|done| |].
  - intros i Hi. apply Hsame; lia.
  - intros k e Hk. destruct (term_at_in st l _ _ (ents_pos _ _ Hk) (Hmatch _ _ Hk))
      as (e' & He' & Ht & Hr). apply lookup_lt_Some in Hk as Hlt.
    exists e'. rewrite Hsame by lia. auto.
Qed.

(** A conflict: the log is cut there and the rest of the entries added. *)
Lemma appended_cut n e :
  ents !! n = Some e ->
  (forall k x, ents !! k = Some x -> (k < n)%nat ->
     term_at st l (prev + 1 + Z.of_nat k) = e_term x) ->
  appended st l (set_unstable (u_append (rl_unstable l) (drop n ents)) l) prev ents.
Proof using Hpos Hprev Hok Hc Hb.
  intros Hn Hmatch. apply lookup_lt_Some in Hn as Hlt.
  assert (prev + Z.of_nat n <= log_last st l) as Hin.
  { destruct n as [|n]; [lia|]. destruct (lookup_lt_is_Some_2 ents n) as [x Hx]; [lia|].
    destruct (term_at_in st l _ _ (ents_pos _ _ Hx) (Hmatch _ _ Hx ltac:(lia)))
      as (_ & _ & _ & Hr). lia. }
  rewrite (drop_S ents e n Hn). pose proof (Hc _ _ Hn) as Hidx.
  assert (contiguous (e_index e) (e :: drop (S n) ents)) as Hcd.
  { rewrite <- (drop_S ents e n Hn), Hidx. apply contiguous_drop; [done|lia]. }
  destruct (append_list st l Hok e (drop (S n) ents)) as (Hok' & Hf' & HL);
    [done|lia|rewrite <- (drop_S ents e n Hn), length_drop; lia|].
  rewrite <- (drop_S ents e n Hn) in *.
  assert (length (take (Z.to_nat (e_index e - log_first st l)) (log_list st l))
          = Z.to_nat (e_index e - log_first st l)) as Hlen.
  { rewrite length_take. unfold log_last in *. lia. }
  assert (forall i, log_first st l <= i < e_index e ->
    log_lookup (log_first st l) i (log_list st (set_unstable (u_append (rl_unstable l) (drop n ents)) l))
    = log_lookup (log_first st l) i (log_list st l)) as Hlow.
  { intros i Hi. unfold log_lookup. rewrite HL, (proj2 (Z.ltb_ge _ _)) by lia.
    rewrite lookup_app_l by lia. by rewrite lookup_take_lt by lia. }
  split_and!; [done|done|intros i Hi; apply Hlow; lia|].
  intros k x Hk. destruct (decide (k < n)%nat) as [Hkn|Hkn].
  - destruct (term_at_in st l _ _ (ents_pos _ _ Hk) (Hmatch _ _ Hk Hkn)) as (e' & He' & Ht & Hr).
    exists e'. rewrite Hlow by lia. auto.
  - exists x. split; [|auto]. unfold log_lookup. rewrite HL, (proj2 (Z.ltb_ge _ _)) by lia.
    rewrite lookup_app_r by lia. rewrite Hlen, lookup_drop. rewrite <- Hk. f_equal. lia.
Qed.

(** [maybeAppend] rejects exactly a previous term that differs; it accepts
    otherwise, and unless an entry conflicts with a committed one the log
    then holds the entries. *)
Lemma maybeAppend_spec prevTerm lc :
  0 <= rl_committed l < 2 ^ 63 ->
  if decide (term_at st l prev = prevTerm) then
    exists l', maybeAppend st l prev prevTerm lc ents = Some (true, l')
      /\ rl_committed l' = (if rl_committed l <? lc
                            then Z.min lc (prev + Z.of_nat (length ents)) else rl_committed l)
      /\ rl_applied l' = rl_applied l
      /\ ((forall k e, ents !! k = Some e -> prev + 1 + Z.of_nat k <= rl_committed l ->
             term_at st l (prev + 1 + Z.of_nat k) = e_term e) ->
          appended st l l' prev ents)
  else maybeAppend st l prev prevTerm lc ents = Some (false, l).
Proof using All.
  intros Hcom. pose proof (log_first_range _ _ Hok) as Hf.
  pose proof (log_last_range _ _ Hok) as Hlr. unfold maybeAppend.
  rewrite term_any by (done || lia). cbn [mbind option_bind].
  case_decide as Ht; [|by rewrite (proj2 (Z.eqb_neq _ _) Ht)].
  rewrite (proj2 (Z.eqb_eq _ _) Ht). cbn [negb]. rewrite (u64_small (prev + _)) by mach.
  destruct (findConflict_spec st l Hok Hns ents prev) as (n & c & -> & Hn & Hmatch & Hat);
    [lia|done|lia|]. cbn [mbind option_bind].
  assert (forall l0 x, rl_committed l0 = rl_committed l -> rl_applied l0 = rl_applied l ->
    ((forall k e, ents !! k = Some e -> prev + 1 + Z.of_nat k <= rl_committed l ->
        term_at st l (prev + 1 + Z.of_nat k) = e_term e) -> appended st l l0 prev ents) ->
    x = Some l0 ->
    exists l', (l1 ← x; Some (true, if rl_committed l1 <? lc
        then set_committed (Z.min lc (prev + Z.of_nat (length ents))) l1 else l1)) = Some (true, l')
      /\ rl_committed l' = (if rl_committed l <? lc
                            then Z.min lc (prev + Z.of_nat (length ents)) else rl_committed l)
      /\ rl_applied l' = rl_applied l
      /\ ((forall k e, ents !! k = Some e -> prev + 1 + Z.of_nat k <= rl_committed l ->
             term_at st l (prev + 1 + Z.of_nat k) = e_term e) -> appended st l l' prev ents))
    as Hfin.
  { intros l0 x Hc0 Ha0 Happ ->. cbn [mbind option_bind]. eexists. split; [done|].
    rewrite Hc0. by destruct (rl_committed l <? lc). }
  destruct (ents !! n) as [e|] eqn:En.
  - destruct Hat as [-> Hne]. rewrite (proj2 (Z.eqb_neq _ _)) by lia.
    apply lookup_lt_Some in En as Hlt.
    destruct (Z.leb_spec (prev + 1 + Z.of_nat n) (rl_committed l)) as [Hle|Hgt].
    + apply (Hfin l); [done|done| |done]. intros Hcommitted.
      destruct Hne. by apply Hcommitted.
    + rewrite (u64_small (prev + 1 + _ - _)) by mach.
      rewrite u64_small by mach. rewrite (proj2 (Z.ltb_ge _ _)) by lia.
      replace (Z.to_nat (prev + 1 + Z.of_nat n - prev - 1)) with n by lia.
      eapply Hfin; [| | |reflexivity]; [done|done|].
      intros _. by apply (appended_cut n e).
  - subst c. cbn [Z.eqb]. rewrite lookup_ge_None in En. rewrite lastIndex_eq by done.
    assert (forall k e, ents !! k = Some e -> term_at st l (prev + 1 + Z.of_nat k) = e_term e)
      as Hall by (intros k e Hk; apply lookup_lt_Some in Hk as ?; apply Hmatch; [done|lia]).
    destruct (Z.ltb_spec (prev + Z.of_nat (length ents)) (log_last st l)).
    + rewrite u64_small by mach.
      destruct (truncate_lookup st l (prev + Z.of_nat (length ents))) as (Hok' & Hf' & Hsame);
        [done|lia|]. eapply Hfin; [| | |reflexivity]; [done|done|].
      intros _. by apply appended_all.
    + apply (Hfin l); [done|done| |done]. intros _. by apply appended_all.
Qed.

(** A conflict with a committed entry: nothing is written. *)
Lemma maybeAppend_committed_conflict prevTerm lc k e :
  0 <= rl_committed l < 2 ^ 63 -> term_at st l prev = prevTerm ->
  ents !! k = Some e -> prev + 1 + Z.of_nat k <= rl_committed l ->
  term_at st l (prev + 1 + Z.of_nat k) <> e_term e ->
  maybeAppend st l prev prevTerm lc ents
  = Some (true, if rl_committed l <? lc
                then set_committed (Z.min lc (prev + Z.of_nat (length ents))) l else l).
Proof using All.
  intros Hcom Ht Hk Hle Hne. pose proof (log_first_range _ _ Hok) as Hf.
  pose proof (log_last_range _ _ Hok) as Hlr. unfold maybeAppend.
  rewrite term_any by (done || lia). cbn [mbind option_bind].
  rewrite (proj2 (Z.eqb_eq _ _) Ht). cbn [negb]. rewrite (u64_small (prev + _)) by mach.
  destruct (findConflict_spec st l Hok Hns ents prev) as (n & c & -> & Hn & Hmatch & Hat);
    [lia|done|lia|]. cbn [mbind option_bind].
  assert (n <= k)%nat as Hnk.
  { destruct (decide (n <= k)%nat); [done|]. destruct Hne. apply (Hmatch k e Hk). lia. }
  apply lookup_lt_Some in Hk as Hlt. destruct (lookup_lt_is_Some_2 ents n) as [x En]; [lia|].
  rewrite En in Hat. destruct Hat as [-> _]. rewrite (proj2 (Z.eqb_neq _ _)) by lia.
  by rewrite (proj2 (Z.leb_le _ _)) by lia.
Qed.
End Append.

(** *** Applying and persisting *)

Lemma nextCommittedEntries_eq st l :
  raftlog_ok st l -> synced st l -> cursors_ok l ->
  log_first st l - 1 <= rl_applied l -> rl_committed l <= log_last st l ->
  nextCommittedEntries st l true
  = log_slice (log_first st l) (rl_applied l + 1) (rl_committed l + 1) (log_list st l).
Proof.
  intros Hok Hsync [Ha Hc] Hfirst Hlast. unfold nextCommittedEntries.
  pose proof (log_first_range _ _ Hok) as Hf. pose proof (log_last_range _ _ Hok) as Hl.
  destruct (Z.leb_spec (rl_committed l) (rl_applied l)).
  { unfold log_slice. by replace (Z.to_nat _) with 0%nat by lia. }
  rewrite !u64_small by mach.
  destruct (slice_eq st l Hok (rl_applied l + 1) (rl_committed l + 1) noLimit)
    as (k & -> & Hk); [done|lia|lia|lia|]. by apply Hk.
Qed.

(** Once storage holds the log up to [i], marking it stable changes where
    entries are kept and not what they are. *)
Lemma stableTo_spec st st' l i t :
  raftlog_ok st l -> u_snapshot (rl_unstable l) = None -> u_entries (rl_unstable l) <> [] ->
  u_offset (rl_unstable l) <= i <= log_last st l -> i < 2 ^ 62 ->
  st_ok st' -> st_firstIndex st' = st_firstIndex st ->
  st_log st' = take (Z.to_nat (i + 1 - st_firstIndex st)) (log_list st l) ->
  raftlog_ok st' (stableTo l i t) /\ log_first st' (stableTo l i t) = log_first st l
  /\ log_list st' (stableTo l i t) = log_list st l /\ synced st' (stableTo l i t).
Proof.
  intros Hok Hsn Hne Hi Hi62 Hst' Hf' HL'. pose proof (unstable_last _ _ Hok Hne) as Hul.
  pose proof Hok as (Hst & Hu & Hov). specialize (Hov Hsn Hne).
  pose proof (st_first_range _ Hst) as Hfr. pose proof (st_last_eq _ Hst') as Hl'.
  pose proof (u_stableTo_ok _ Hu i t ltac:(lia) Hsn) as Hu'.
  destruct Hu as (_ & Hoff & Hub & _). set (u := rl_unstable l) in *.
  assert (log_list st l = take (Z.to_nat (u_offset u - st_firstIndex st)) (st_log st) ++ u_entries u)
    as HL.
  { unfold log_list. fold u. rewrite Hsn. by destruct (u_entries u). }
  assert (length (take (Z.to_nat (u_offset u - st_firstIndex st)) (st_log st))
          = Z.to_nat (u_offset u - st_firstIndex st)) as Hlen.
  { rewrite length_take. pose proof (st_last_eq _ Hst). lia. }
  assert (u_stableTo u i t
    = mkUnstable (drop (Z.to_nat (i + 1 - u_offset u)) (u_entries u)) (i + 1) None) as Eu.
  { unfold u_stableTo. rewrite Hsn. destruct (u_entries u) as [|e es] eqn:E; [done|].
    rewrite (proj2 (Z.ltb_ge _ _)) by lia. rewrite (u64_small (i + 1)) by mach.
    unfold u_size in *. rewrite E in *. rewrite u64_small by mach.
    destruct (Z.leb_spec (Z.of_nat (length (e :: es))) (i + 1 - u_offset u)); [|done].
    by rewrite drop_ge by lia. }
  assert (length (st_log st') = Z.to_nat (i + 1 - st_firstIndex st)) as Hlen'.
  { rewrite HL', length_take, HL, length_app, Hlen. unfold u_size in Hul. lia. }
  assert (raftlog_ok st' (stableTo l i t)) as Hok'.
  { split_and!; [done|done|]. intros _ _. unfold stableTo. cbn [rl_unstable set_unstable].
    fold u. rewrite Eu. simpl. lia. }
  assert (log_first st' (stableTo l i t) = log_first st l) as Hfirst.
  { unfold log_first, stableTo. cbn [rl_unstable set_unstable]. fold u. by rewrite Eu, Hsn. }
  assert (log_list st' (stableTo l i t) = log_list st l) as Hlist.
  { unfold log_list at 1, stableTo. cbn [rl_unstable set_unstable]. fold u. rewrite Eu.
    cbn [u_snapshot u_entries u_offset]. rewrite Hf', HL'.
    assert (drop (Z.to_nat (i + 1 - u_offset u)) (u_entries u)
            = drop (Z.to_nat (i + 1 - st_firstIndex st)) (log_list st l)) as Hd.
    { rewrite HL, drop_app_ge by lia. f_equal. lia. }
    rewrite Hd. destruct (drop _ (log_list st l)) eqn:E.
    - rewrite <- (take_drop (Z.to_nat (i + 1 - st_firstIndex st)) (log_list st l)) at 2.
      by rewrite E, app_nil_r.
    - rewrite <- E, take_take. rewrite Nat.min_id. apply take_drop. }
  split_and!; [done|done|done|]. intros Hnil. unfold stableTo in Hnil |- *.
  cbn [rl_unstable set_unstable] in *. fold u in Hnil |- *. rewrite Eu in *. simpl in *.
  unfold log_last. unfold stableTo in Hfirst, Hlist. fold u in Hfirst, Hlist. rewrite Eu in *.
  rewrite Hfirst, Hlist. apply (f_equal length) in Hnil. rewrite length_drop in Hnil.
  simpl in Hnil. unfold log_last, u_size in *. lia.
Qed.
End LogView.
