(* ===== verification/WriteAheadLog.v ===== *)
(** * The write-ahead log

    Models [src/app/storage/WriteAheadLog.{h,cpp}]: the three files as byte
    strings, the in-memory mirror, the [raft::Storage] read side and the
    write side.  Integers are written in the machine's byte order, which is
    little-endian here.  Opening a file is taken to succeed, and a flush to
    reach the file; what a crash can leave of an unfinished write is a
    prefix of it. *)

From S2P Require Import Prelude RaftTypes LogUnstable RaftLog OrderProtocol.

(** ** Records on disk *)

Definition etype_to_u8 (t : EntryType) : Z :=
  match t with Normal => 0 | ConfChange => 1 | ConfChangeV2 => 2 | EntryUnnamed v => v end.
Definition etype_of_u8 (v : Z) : EntryType :=
  if v =? 0 then Normal else if v =? 1 then ConfChange else if v =? 2 then ConfChangeV2
  else EntryUnnamed v.

(** The files: the bytes written, and reads at a position, which fail
    without enough bytes left. *)
Definition writeU8 (f : bytes) (v : Z) : bytes := f ++ [v].
Definition writeU32 (f : bytes) (v : Z) : bytes := f ++ put_le 4 v.
Definition writeU64 (f : bytes) (v : Z) : bytes := f ++ put_le 8 v.
Definition readU8 : bytes -> nat -> option (Z * nat) := read_le 1.
Definition readU32 : bytes -> nat -> option (Z * nat) := read_le 4.
Definition readU64 : bytes -> nat -> option (Z * nat) := read_le 8.

Definition writeEntry (f : bytes) (e : Entry) : bytes :=
  let f := writeU64 f (e_term e) in
  let f := writeU64 f (e_index e) in
  let f := writeU8 f (etype_to_u8 (e_type e)) in
  let f := writeU32 f (u32 (Z.of_nat (length (e_data e)))) in
  f ++ e_data e.

Definition readEntry (f : bytes) (off : nat) : option (Entry * nat) :=
  '(term, off) ← readU64 f off;
  '(index, off) ← readU64 f off;
  '(t, off) ← readU8 f off;
  '(len, off) ← readU32 f off;
  '(data, off) ← read_raw len f off;
  Some (mkEntry term index (etype_of_u8 t) data, off).

Definition writeHardState (f : bytes) (hs : HardState) : bytes :=
  writeU64 (writeU64 (writeU64 f (hs_term hs)) (hs_vote hs)) (hs_commit hs).

(** [readU64(f, v)] on a variable that outlives it: the value of [v], and the
    position unless the file ended; the bytes there were are then in [v]. *)
Definition readU64_into (f : bytes) (off : nat) (v : Z) : Z * option nat :=
  match readU64 f off with
  | Some (v, off) => (v, Some off)
  | None => let got := drop off f in (get_le 8 (got ++ drop (length got) (put_le 8 v)), None)
  end.

(** Fields already read stay assigned when a later read fails. *)
Definition readHardState (f : bytes) (hs : HardState) : HardState :=
  match readU64_into f 0 (hs_term hs) with
  | (term, None) => mkHardState term (hs_vote hs) (hs_commit hs)
  | (term, Some off) =>
      match readU64_into f off (hs_vote hs) with
      | (vote, None) => mkHardState term vote (hs_commit hs)
      | (vote, Some off) => mkHardState term vote (readU64_into f off (hs_commit hs)).1
      end
  end.

Definition writeConfState (f : bytes) (cs : ConfState) : bytes :=
  let f := writeU32 f (u32 (Z.of_nat (length (cs_nodes cs)))) in
  let f := foldl writeU64 f (cs_nodes cs) in
  let f := writeU32 f (u32 (Z.of_nat (length (cs_learners cs)))) in
  foldl writeU64 f (cs_learners cs).

(** [ids.resize(n); for (auto& id : ids) if (!readU64(f, id)) return false]:
    the ids read, zeros after the one that failed, and the position unless
    one failed. *)
Fixpoint read_ids (n : nat) (f : bytes) (off : nat) : list Z * option nat :=
  match n with
  | O => ([], Some off)
  | S n =>
      match readU64_into f off 0 with
      | (id, None) => (id :: replicate n 0, None)
      | (id, Some off) => let '(ids, r) := read_ids n f off in (id :: ids, r)
      end
  end.

Definition readConfState (f : bytes) (cs : ConfState) : ConfState :=
  match readU32 f 0 with
  | None => cs
  | Some (n, off) =>
      match read_ids (Z.to_nat n) f off with
      | (nodes, None) => mkConfState nodes (cs_learners cs)
      | (nodes, Some off) =>
          match readU32 f off with
          | None => mkConfState nodes (cs_learners cs)
          | Some (l, off) => mkConfState nodes (read_ids (Z.to_nat l) f off).1
          end
      end
  end.

(** ** The log object *)

Record WriteAheadLog := mkWAL {
  w_logFile : bytes;               (* log.bin *)
  w_hsFile : option bytes;         (* hardstate.bin, once written *)
  w_csFile : option bytes;         (* confstate.bin, once written *)
  w_entries : list Entry;
  w_hardState : HardState;
  w_confState : ConfState;
  w_snapIndex : Z;
  w_snapTerm : Z;
}.

(** [entries_.resize(n)] with default entries *)
Definition resize_entries (n : nat) (l : list Entry) : list Entry :=
  take n l ++ replicate (n - length l) empty_entry.

(** One record of the replay: grow to the index and store. *)
Definition replay_entry (entries : list Entry) (e : Entry) : list Entry :=
  let n := Z.to_nat (e_index e) in
  <[n := e]> (if bool_decide (length entries <= n)%nat
              then resize_entries (S n) entries else entries).

(** A record is at least 21 bytes: the file's length is fuel enough. *)
Fixpoint replay_loop (fuel : nat) (f : bytes) (off : nat) (entries : list Entry) : list Entry :=
  match fuel with
  | O => entries
  | S fuel =>
      match readEntry f off with
      | None => entries
      | Some (e, off) => replay_loop fuel f off (replay_entry entries e)
      end
  end.

Definition replay (f : bytes) : list Entry := replay_loop (S (length f)) f 0 [empty_entry].

(** What a missing file leaves is the default. *)
Definition loadHardState (hsFile : option bytes) : HardState :=
  match hsFile with
  | Some f => readHardState f (mkHardState 0 0 0)
  | None => mkHardState 0 0 0
  end.

Definition loadConfState (csFile : option bytes) : ConfState :=
  match csFile with
  | Some f => readConfState f (mkConfState [] [])
  | None => mkConfState [] []
  end.

(** The constructor, on the files it finds. *)
Definition new_WriteAheadLog (logFile : bytes) (hsFile csFile : option bytes) : WriteAheadLog :=
  mkWAL logFile hsFile csFile (replay logFile) (loadHardState hsFile) (loadConfState csFile) 0 0.

Definition w_size (w : WriteAheadLog) : Z := Z.of_nat (length (w_entries w)).

Definition firstIndex (w : WriteAheadLog) : Z := w_snapIndex w +u 1.
Definition lastIndex (w : WriteAheadLog) : Z := w_size w -u 1.

Definition initialState (w : WriteAheadLog) : InitialState :=
  mkInitialState (w_hardState w) (w_confState w).

Section Sizes.
Context `{!Platform}.

(** The loop of [entries] over [entries_[lo..hi)]. *)
Fixpoint collect (maxSize size : Z) (result ents : list Entry) : list Entry :=
  match ents with
  | [] => result
  | e :: ents =>
      let size := size +u (sizeof_Entry +u Z.of_nat (length (e_data e))) in
      if negb (maxSize =? 0) && (maxSize <? size) && negb (bool_decide (result = [])) then result
      else collect maxSize size (result ++ [e]) ents
  end.

Definition entries (w : WriteAheadLog) (lo hi maxSize : Z) : option (list Entry) :=
  if lo <? firstIndex w then None else
  if lastIndex w +u 1 <? hi then None else
  Some (collect maxSize 0 [] (take (Z.to_nat (hi - lo)) (drop (Z.to_nat lo) (w_entries w)))).
End Sizes.

Definition term (w : WriteAheadLog) (i : Z) : option Z :=
  if (i <? firstIndex w) || (lastIndex w <? i) then None
  else e_term <$> w_entries w !! Z.to_nat i.

Definition snapshot (w : WriteAheadLog) : Snapshot := mkSnapshot (w_snapTerm w) (w_snapIndex w) [].

#[global] Instance WAL_Storage `{!Platform} : Storage WriteAheadLog := {|
  st_initialState := initialState; st_entries := entries; st_term := term;
  st_firstIndex := firstIndex; st_lastIndex := lastIndex; st_snapshot := snapshot |}.

(** ** The write side *)

Definition set_log (file : bytes) (ents : list Entry) (w : WriteAheadLog) : WriteAheadLog :=
  mkWAL file (w_hsFile w) (w_csFile w) ents (w_hardState w) (w_confState w)
    (w_snapIndex w) (w_snapTerm w).

(** The file rewritten with the entries above the snapshot. *)
Definition rewrite_log (w : WriteAheadLog) : WriteAheadLog :=
  set_log (foldl writeEntry [] (drop (Z.to_nat (w_snapIndex w +u 1)) (w_entries w)))
    (w_entries w) w.

(** One turn of the append loop. *)
Definition push_entry (w : WriteAheadLog) (e : Entry) : WriteAheadLog :=
  set_log (writeEntry (w_logFile w) e) (w_entries w ++ [e]) w.

Definition appendNoSync (w : WriteAheadLog) (ents : list Entry) : WriteAheadLog :=
  match ents with
  | [] => w
  | e :: _ =>
      let first := e_index e in
      let w := if first <=? lastIndex w
               then rewrite_log (set_log (w_logFile w)
                      (resize_entries (Z.to_nat first) (w_entries w)) w)
               else w in
      foldl push_entry w ents
  end.

(** A flush; the model's files have no buffer. *)
Definition sync (w : WriteAheadLog) : WriteAheadLog := w.

Definition append (w : WriteAheadLog) (ents : list Entry) : WriteAheadLog :=
  sync (appendNoSync w ents).

Definition saveHardState (w : WriteAheadLog) (hs : HardState) : WriteAheadLog :=
  mkWAL (w_logFile w) (Some (writeHardState [] hs)) (w_csFile w) (w_entries w) hs
    (w_confState w) (w_snapIndex w) (w_snapTerm w).

Definition saveConfState (w : WriteAheadLog) (cs : ConfState) : WriteAheadLog :=
  mkWAL (w_logFile w) (w_hsFile w) (Some (writeConfState [] cs)) (w_entries w) (w_hardState w)
    cs (w_snapIndex w) (w_snapTerm w).

(** [None]: [entries_[snap.index]] past the end. *)
Definition applySnapshot (w : WriteAheadLog) (snap : Snapshot) : option WriteAheadLog :=
  let n := Z.to_nat (s_index snap) in
  let ents := if s_index snap <? w_size w
              then resize_entries (S n) (w_entries w) else w_entries w in
  let dummy := mkEntry (s_term snap) (s_index snap) Normal [] in
  if bool_decide (n < length ents)%nat then
    let w := rewrite_log (set_log (w_logFile w) (<[n := dummy]> ents) w) in
    Some (mkWAL (w_logFile w) (w_hsFile w) (w_csFile w) (w_entries w) (w_hardState w)
      (w_confState w) (s_index snap) (s_term snap))
  else None.

(** What a restart finds: the files, and nothing else. *)
Definition reopen (w : WriteAheadLog) : WriteAheadLog :=
  new_WriteAheadLog (w_logFile w) (w_hsFile w) (w_csFile w).

(** ** Records: writing and reading back *)

Definition enc_entry (e : Entry) : bytes :=
  put_le 8 (e_term e) ++ put_le 8 (e_index e) ++ [etype_to_u8 (e_type e)]
  ++ enc_str (e_data e).

Definition enc_log (es : list Entry) : bytes := concat (enc_entry <$> es).

Definition entry_typed (e : Entry) : Prop :=
  is_u64 (e_term e) /\ is_u64 (e_index e)
  /\ is_u8 (etype_to_u8 (e_type e)) /\ etype_of_u8 (etype_to_u8 (e_type e)) = e_type e
  /\ str_ok (e_data e).

Lemma enc_log_cons e es : enc_log (e :: es) = enc_entry e ++ enc_log es.
Proof. done. Qed.

Lemma enc_log_app es1 es2 : enc_log (es1 ++ es2) = enc_log es1 ++ enc_log es2.
Proof. unfold enc_log. by rewrite fmap_app, concat_app. Qed.

Lemma writeEntry_eq f e : writeEntry f e = f ++ enc_entry e.
Proof.
  unfold writeEntry, writeU64, writeU8, writeU32, enc_entry, enc_str. by rewrite <- !app_assoc.
Qed.

Lemma writeEntries_eq es : forall f, foldl writeEntry f es = f ++ enc_log es.
Proof.
  induction es as [|e es IH]; intros f; simpl; [by rewrite app_nil_r|].
  by rewrite IH, writeEntry_eq, enc_log_cons, <- app_assoc.
Qed.

Lemma length_enc_entry e : (21 <= length (enc_entry e))%nat.
Proof. unfold enc_entry. autorewrite with wire. lia. Qed.

Lemma length_enc_log es : (length es <= length (enc_log es))%nat.
Proof.
  induction es as [|e es IH]; [done|]. rewrite enc_log_cons, length_app.
  pose proof (length_enc_entry e). simpl. lia.
Qed.

Lemma enc_entry_ok e : entry_typed e -> bytes_ok (enc_entry e).
Proof.
  intros (_ & _ & Ht & _ & Hd & _). unfold enc_entry, enc_str, bytes_ok. rewrite !Forall_app.
  repeat split; try apply put_le_ok; [by apply Forall_singleton|done].
Qed.

Lemma enc_log_ok es : Forall entry_typed es -> bytes_ok (enc_log es).
Proof.
  induction 1 as [|e es He _ IH]; [constructor|]. rewrite enc_log_cons.
  apply Forall_app_2; [by apply enc_entry_ok|done].
Qed.

Lemma etype_of_to v : is_u8 v -> etype_to_u8 (etype_of_u8 v) = v.
Proof.
  intros _. unfold etype_of_u8. destruct (Z.eqb_spec v 0); [done|].
  destruct (Z.eqb_spec v 1); [done|]. by destruct (Z.eqb_spec v 2).
Qed.

(** The length and the data together are a length-prefixed string. *)
Lemma readEntry_alt f off :
  readEntry f off =
  '(term, off) ← getU64 f off;
  '(index, off) ← getU64 f off;
  '(t, off) ← getU8 f off;
  '(data, off) ← getStr f off;
  Some (mkEntry term index (etype_of_u8 t) data, off).
Proof.
  unfold readEntry, getStr, readU64, readU32, readU8, getU64, getU32, getU8.
  repeat (destruct (read_le _ _ _) as [[? ?]|]; simpl; [|done]). done.
Qed.

#[global] Instance readEntry_codec : Codec readEntry enc_entry entry_typed.
Proof.
  intros f off e off' Hok. rewrite readEntry_alt. split.
  - intros H. assert (off <= length f)%nat as Hoff.
    { destruct (getU64 f off) as [[? ?]|] eqn:E; [|done]. unfold getU64, read_le in E.
      case_bool_decide; [done|lia]. }
    assert (at_off f off (drop off f)) as Hat by done.
    remember (drop off f) as d eqn:Ed. do 4 (codec_invert H). injection H as <- <-.
    split_and!.
    + unfold entry_typed. cbn [e_term e_index e_type e_data]. rewrite etype_of_to by done. done.
    + unfold enc_entry. cbn [e_term e_index e_type e_data]. rewrite etype_of_to by done.
      autorewrite with wire. simpl. lia.
    + eexists. split; [done|]. rewrite <- Ed. unfold enc_entry. cbn [e_term e_index e_type e_data].
      rewrite etype_of_to by done. by rewrite <- !app_assoc.
  - intros ((H1 & H2 & H3 & H4 & H5) & -> & rest & Hat). unfold enc_entry in *.
    rewrite <- !app_assoc in Hat. repeat (codec_run; [done|]). rewrite H4.
    rewrite !length_app. destruct e. simpl. do 2 f_equal. lia.
Qed.

(** An encoding cut short is not the encoding of anything. *)
Lemma readEntry_torn f off e n :
  bytes_ok f -> entry_typed e -> at_off f off (take n (enc_entry e)) ->
  (n < length (enc_entry e))%nat -> readEntry f off = None.
Proof.
  intros Hf He Hat Hn. destruct (readEntry f off) as [[e' off']|] eqn:E; [|done]. exfalso.
  apply (codec_iff (Codec := readEntry_codec)) in E as (He' & -> & rest & Hat'); [|done].
  destruct Hat as [_ Hd], Hat' as [_ Hd']. rewrite Hd in Hd'.
  assert (at_off (enc_entry e) 0 (enc_entry e ++ [])) as H1
    by (rewrite app_nil_r; apply at_off_0).
  assert (at_off (enc_entry e) 0 (enc_entry e' ++ rest ++ drop n (enc_entry e))) as H2.
  { rewrite app_assoc, <- Hd', take_drop. apply at_off_0. }
  pose proof (enc_entry_ok e He) as Hok.
  destruct (codec_read readEntry enc_entry entry_typed _ _ _ _ Hok He H1) as [E1 _].
  destruct (codec_read readEntry enc_entry entry_typed _ _ _ _ Hok He' H2) as [E2 _].
  rewrite E1 in E2. injection E2 as <- _. apply (f_equal length) in Hd'.
  rewrite length_take, length_app in Hd'. lia.
Qed.

(** ** Recovery *)

(** Replaying records that continue the array appends them. *)
Lemma replay_entry_next es e :
  e_index e = Z.of_nat (length es) -> replay_entry es e = es ++ [e].
Proof.
  intros He. unfold replay_entry. rewrite He, Nat2Z.id, bool_decide_eq_true_2 by lia.
  unfold resize_entries. rewrite take_ge by lia.
  replace (S (length es) - length es)%nat with 1%nat by lia. simpl.
  rewrite insert_app_r_alt by lia. by rewrite Nat.sub_diag.
Qed.

Lemma replay_contiguous es : forall acc,
  contiguous (Z.of_nat (length acc)) es -> foldl replay_entry acc es = acc ++ es.
Proof.
  induction es as [|e es IH]; intros acc Hc; simpl; [by rewrite app_nil_r|].
  apply contiguous_cons in Hc as [He Hc]. rewrite replay_entry_next by done.
  rewrite IH; [by rewrite <- app_assoc|]. rewrite length_app. simpl.
  by replace (Z.of_nat (length acc + 1)) with (Z.of_nat (length acc) + 1) by lia.
Qed.

(** The loop on a file cut anywhere reads the records that are whole. *)
Lemma replay_loop_torn es : forall fuel f off n acc,
  bytes_ok f -> Forall entry_typed es -> at_off f off (take n (enc_log es)) ->
  (length f - off < fuel)%nat ->
  exists k, (k <= length es)%nat
    /\ replay_loop fuel f off acc = foldl replay_entry acc (take k es)
    /\ (length (enc_log (take k es)) <= n)%nat
    /\ ((k < length es)%nat -> (n < length (enc_log (take (S k) es)))%nat).
Proof.
  induction es as [|e es IH]; intros fuel f off n acc Hf Hes Hat Hfuel;
    (destruct fuel as [|fuel]; [lia|]).
  - exists 0%nat. split_and!; [done| |simpl; lia|simpl; lia]. cbn [replay_loop take foldl].
    destruct (readEntry f off) as [[e off']|] eqn:E; [|done]. exfalso.
    apply (codec_iff (Codec := readEntry_codec)) in E as (_ & _ & rest & Hat'); [|done].
    destruct Hat as [_ Hd], Hat' as [_ Hd']. rewrite Hd in Hd'.
    apply (f_equal length) in Hd'. rewrite length_app, length_take in Hd'.
    pose proof (length_enc_entry e). simpl in Hd'. lia.
  - apply Forall_cons in Hes as [He Hes]. rewrite enc_log_cons in Hat.
    destruct (decide (n < length (enc_entry e))%nat) as [Hlt|Hge].
    + exists 0%nat. rewrite take_app_le in Hat by lia. cbn [replay_loop].
      rewrite (readEntry_torn f off e n) by done.
      split_and!; [lia|done|simpl; lia|]. intros _. cbn [take]. rewrite enc_log_cons, length_app. lia.
    + rewrite take_app_ge in Hat by lia.
      destruct (codec_read readEntry enc_entry entry_typed f off e _ Hf He Hat) as [E Hat'].
      pose proof (length_enc_entry e). pose proof (proj1 Hat').
      destruct (IH fuel f _ _ (replay_entry acc e) Hf Hes Hat')
        as (k & Hk & E' & Hn1 & Hn2); [lia|].
      exists (S k). cbn [replay_loop]. rewrite E.
      split_and!; [simpl; lia|done|cbn [take]; rewrite enc_log_cons, length_app; lia|].
      intros Hk'. cbn [take length] in *. rewrite enc_log_cons, length_app.
      specialize (Hn2 ltac:(lia)). lia.
Qed.

(** Recovery after a crash in the middle of a write: exactly the records that
    are whole, in order, after the dummy entry at index 0. *)
Lemma replay_torn es n :
  Forall entry_typed es -> contiguous 1 es ->
  exists k, (k <= length es)%nat /\ replay (take n (enc_log es)) = empty_entry :: take k es
    /\ (length (enc_log (take k es)) <= n)%nat
    /\ ((k < length es)%nat -> (n < length (enc_log (take (S k) es)))%nat).
Proof.
  intros Hes Hc. unfold replay. set (f := take n (enc_log es)).
  assert (bytes_ok f) as Hf by (apply Forall_take, enc_log_ok, Hes).
  destruct (replay_loop_torn es (S (length f)) f 0 n [empty_entry]) as (k & Hk & E & H1 & H2);
    [done|done|apply at_off_0|lia|].
  exists k. split_and!; [done| |done|done]. rewrite E.
  rewrite replay_contiguous; [done|]. by apply contiguous_take.
Qed.

Lemma replay_whole es :
  Forall entry_typed es -> contiguous 1 es -> replay (enc_log es) = empty_entry :: es.
Proof.
  intros Hes Hc. destruct (replay_torn es (length (enc_log es)) Hes Hc) as (k & Hk & E & H1 & H2).
  rewrite firstn_all in E. rewrite E. destruct (decide (k < length es)%nat) as [Hlt|Hge].
  - specialize (H2 Hlt). rewrite <- (take_drop (S k) es) in H2 at 1.
    rewrite enc_log_app, length_app in H2. lia.
  - by rewrite take_ge by lia.
Qed.

(** What is read back, each field reduced to 64 bits. *)
Lemma readHardState_written hs hs0 :
  readHardState (writeHardState [] hs) hs0
  = mkHardState (u64 (hs_term hs)) (u64 (hs_vote hs)) (u64 (hs_commit hs)).
Proof.
  set (f := writeHardState [] hs).
  assert (f = put_le 8 (hs_term hs) ++ put_le 8 (hs_vote hs) ++ put_le 8 (hs_commit hs) ++ []) as Hf.
  { unfold f, writeHardState, writeU64. by rewrite app_nil_r, <- !app_assoc. }
  pose proof (at_off_0 f) as Hat. rewrite Hf in Hat at 2.
  apply read_put_le in Hat as [E1 Hat]. apply read_put_le in Hat as [E2 Hat].
  apply read_put_le in Hat as [E3 _]. unfold readHardState, readU64_into, readU64. by rewrite E1, E2, E3.
Qed.

Lemma readHardState_write hs hs0 :
  is_u64 (hs_term hs) -> is_u64 (hs_vote hs) -> is_u64 (hs_commit hs) ->
  readHardState (writeHardState [] hs) hs0 = hs.
Proof. intros. rewrite readHardState_written, !u64_small by done. by destruct hs. Qed.

(** A variable that was zero holds the bytes there were. *)
Lemma readU64_into_zero f off : (readU64_into f off 0).1 = get_le 8 (drop off f).
Proof.
  unfold readU64_into, readU64, read_le. case_bool_decide; [|done]. cbn [fst].
  change (put_le 8 0) with (replicate 8 0). by rewrite drop_replicate, get_le_zeros.
Qed.

Lemma readU64_into_at f off v : (readU64_into f off v).2 = if bool_decide (length f < off + 8)%nat then None else Some (off + 8)%nat.
Proof. unfold readU64_into, readU64, read_le. by case_bool_decide. Qed.

(** A hard state of which [k] bytes reached the file: each field is what its
    bytes there say. *)
Lemma loadHardState_torn hs k :
  let kept (j : nat) (v : Z) := v mod 2 ^ (Z.of_nat (Nat.min (k - j) 8) * 8) in
  loadHardState (Some (take k (writeHardState [] hs)))
  = mkHardState (kept 0%nat (hs_term hs)) (kept 8%nat (hs_vote hs)) (kept 16%nat (hs_commit hs)).
Proof.
  set (f := take k (writeHardState [] hs)).
  assert (writeHardState [] hs = put_le 8 (hs_term hs) ++ put_le 8 (hs_vote hs) ++ put_le 8 (hs_commit hs)) as Hf
    by (unfold writeHardState, writeU64; by rewrite <- !app_assoc).
  assert (length f = Nat.min k 24) as Hlen by (unfold f; rewrite Hf, length_take, !length_app, !length_put_le; lia).
  assert (forall j v rest, drop j (writeHardState [] hs) = put_le 8 v ++ rest ->
    get_le 8 (drop j f) = v mod 2 ^ (Z.of_nat (Nat.min (k - j) 8) * 8)) as Hget.
  { intros j v rest Hd. unfold f. rewrite skipn_firstn_comm, Hd. apply get_le_torn. }
  intros kept. cbn [loadHardState]. unfold readHardState. cbn [hs_term hs_vote hs_commit].
  assert (forall v, v mod 2 ^ (Z.of_nat (Nat.min 0 8) * 8) = 0) as Hnone by (intros v; apply Z.mod_1_r).
  pose proof (readU64_into_zero f 0) as E0. pose proof (readU64_into_at f 0 0) as A0.
  pose proof (readU64_into_zero f 8) as E1. pose proof (readU64_into_zero f 16) as E2.
  rewrite (Hget 0%nat _ _ Hf) in E0. rewrite (Hget 8%nat (hs_vote hs) (put_le 8 (hs_commit hs))) in E1 by (by rewrite Hf).
  rewrite (Hget 16%nat (hs_commit hs) []) in E2 by (by rewrite Hf, app_nil_r).
  rewrite Hlen in A0. unfold kept. destruct (readU64_into f 0 0) as [t o0]. cbn [fst snd] in E0, A0. subst t o0.
  case_bool_decide as H0.
  { replace (k - 8)%nat with 0%nat by lia. replace (k - 16)%nat with 0%nat by lia. by rewrite !Hnone. }
  cbn [Nat.add]. pose proof (readU64_into_at f 8 0) as A1. rewrite Hlen in A1. destruct (readU64_into f 8 0) as [v o1]. cbn [fst snd] in E1, A1. subst v o1.
  case_bool_decide as H1; [replace (k - 16)%nat with 0%nat by lia; by rewrite Hnone|].
  cbn [Nat.add]. by rewrite E2.
Qed.

Lemma writeIds_eq ids : forall f, foldl writeU64 f ids = f ++ concat (put_le 8 <$> ids).
Proof.
  induction ids as [|x ids IH]; intros f; csimpl; [by rewrite app_nil_r|].
  rewrite IH. unfold writeU64. by rewrite <- app_assoc.
Qed.

Lemma read_ids_write ids : forall f off rest,
  Forall is_u64 ids -> at_off f off (concat (put_le 8 <$> ids) ++ rest) ->
  exists off', read_ids (length ids) f off = (ids, Some off') /\ at_off f off' rest.
Proof.
  induction ids as [|x ids IH]; intros f off rest Hids Hat; [by exists off|].
  apply Forall_cons in Hids as [Hx Hids]. cbn [fmap list_fmap concat] in Hat.
  rewrite <- app_assoc in Hat. apply read_put_le in Hat as [E Hat].
  rewrite Z.mod_small in E by done.
  destruct (IH f (off + 8)%nat rest Hids Hat) as (off' & E' & Hat').
  exists off'. cbn [length read_ids]. unfold readU64_into, readU64. by rewrite E, E'.
Qed.

Lemma readConfState_write cs cs0 :
  Forall is_u64 (cs_nodes cs) -> Forall is_u64 (cs_learners cs) ->
  Z.of_nat (length (cs_nodes cs)) < 2 ^ 32 -> Z.of_nat (length (cs_learners cs)) < 2 ^ 32 ->
  readConfState (writeConfState [] cs) cs0 = cs.
Proof.
  intros H1 H2 H3 H4. set (f := writeConfState [] cs).
  assert (f = put_le 4 (Z.of_nat (length (cs_nodes cs))) ++ concat (put_le 8 <$> cs_nodes cs)
    ++ put_le 4 (Z.of_nat (length (cs_learners cs))) ++ concat (put_le 8 <$> cs_learners cs) ++ []) as Hf.
  { unfold f, writeConfState. rewrite !writeIds_eq. unfold writeU32.
    rewrite !u32_small by mach. by rewrite app_nil_r, <- !app_assoc. }
  pose proof (at_off_0 f) as Hat. rewrite Hf in Hat at 2.
  apply read_put_le in Hat as [E1 Hat]. rewrite Z.mod_small in E1 by (simpl; lia).
  apply read_ids_write in Hat as (off1 & E2 & Hat); [|done].
  apply read_put_le in Hat as [E3 Hat]. rewrite Z.mod_small in E3 by (simpl; lia).
  apply read_ids_write in Hat as (off2 & E4 & _); [|done].
  unfold readConfState, readU32. rewrite E1, Nat2Z.id, E2, E3, Nat2Z.id, E4. by destruct cs.
Qed.

(** ** The invariant and the storage contract *)

Definition w_log (w : WriteAheadLog) : list Entry :=
  drop (Z.to_nat (w_snapIndex w + 1)) (w_entries w).

(** The mirror reaches above the snapshot, its entries are numbered by their
    position, and the file holds those above the snapshot. *)
Definition wal_ok (w : WriteAheadLog) : Prop :=
  0 <= w_snapIndex w < w_size w /\ w_size w < 2 ^ 62
  /\ contiguous (w_snapIndex w + 1) (w_log w) /\ Forall entry_typed (w_log w)
  /\ w_logFile w = enc_log (w_log w).

Section WALOk.
Context w (Hw : wal_ok w).

Lemma w_firstIndex : firstIndex w = w_snapIndex w + 1.
Proof using Hw. destruct Hw as (Hs & Hb & _). apply u64_small. mach. Qed.

Lemma w_lastIndex : lastIndex w = w_size w - 1.
Proof using Hw. destruct Hw as (Hs & Hb & _). apply u64_small. mach. Qed.

Lemma length_w_log : Z.of_nat (length (w_log w)) = w_size w - w_snapIndex w - 1.
Proof using Hw. destruct Hw as (Hs & _). unfold w_log, w_size in *. rewrite length_drop. lia. Qed.

Lemma w_log_lookup i :
  w_snapIndex w + 1 <= i -> log_lookup (w_snapIndex w + 1) i (w_log w) = w_entries w !! Z.to_nat i.
Proof using Hw.
  intros Hi. destruct Hw as (Hs & _). unfold log_lookup, w_log.
  rewrite (proj2 (Z.ltb_ge _ _)), lookup_drop by lia. f_equal. lia.
Qed.
End WALOk.

Lemma collect_prefix `{!Platform} mx ents : forall size result,
  exists k, collect mx size result ents = result ++ take k ents
    /\ (result = [] -> ents <> [] -> (0 < k)%nat)
    /\ (mx = 2 ^ 64 - 1 -> take k ents = ents).
Proof.
  induction ents as [|e ents IH]; intros size result; cbn [collect].
  { exists 0%nat. rewrite app_nil_r. by split_and!. }
  set (size' := size +u _).
  destruct (negb (mx =? 0) && (mx <? size') && negb (bool_decide (result = []))) eqn:Hstop.
  - exists 0%nat. rewrite app_nil_r. split_and!; [done| |].
    + intros ->. rewrite bool_decide_eq_true_2 in Hstop by done. by rewrite andb_false_r in Hstop.
    + intros ->. pose proof (u64_range (size + (sizeof_Entry +u Z.of_nat (length (e_data e))))) as Hr.
      fold size' in Hr. unfold is_u64 in Hr. rewrite (proj2 (Z.ltb_ge _ _)) in Hstop by lia. done.
  - destruct (IH size' (result ++ [e])) as (k & -> & _ & Hk). exists (S k).
    rewrite <- app_assoc. split_and!; [done|lia|]. intros Hmx. simpl. by rewrite Hk.
Qed.

#[global] Program Instance WAL_laws `{!Platform} : StorageLaws WriteAheadLog := {|
  st_ok := wal_ok; st_log := w_log |}.
Next Obligation. intros ? w Hw. simpl. rewrite w_firstIndex by done. destruct Hw as (? & _). lia. Qed.
Next Obligation.
  intros ? w Hw. simpl. rewrite w_firstIndex, w_lastIndex, length_w_log by done. lia.
Qed.
Next Obligation.
  intros ? w Hw. simpl. rewrite w_lastIndex by done. destruct Hw as (_ & ? & _). lia.
Qed.
Next Obligation. intros ? w Hw. simpl. rewrite w_firstIndex by done. apply Hw. Qed.
Next Obligation.
  intros ? w i Hw. simpl. unfold term. rewrite w_firstIndex, w_lastIndex by done.
  pose proof (length_w_log w Hw) as Hl. destruct (Z.ltb_spec i (w_snapIndex w + 1)) as [Hlt|Hge].
  { simpl. unfold log_lookup. by rewrite (proj2 (Z.ltb_lt _ _)) by lia. }
  rewrite w_log_lookup by (done || lia). simpl. destruct (Z.ltb_spec (w_size w - 1) i); [|done].
  unfold w_size in *. by rewrite lookup_ge_None_2 by lia.
Qed.
Next Obligation.
  intros ? w lo hi mx Hw Hout. simpl in *. unfold entries. rewrite w_firstIndex, w_lastIndex in * by done.
  destruct Hw as (Hs & Hb & _). rewrite u64_small by mach.
  destruct (Z.ltb_spec lo (w_snapIndex w + 1)); [done|].
  by rewrite (proj2 (Z.ltb_lt _ _)) by lia.
Qed.
Next Obligation.
  intros ? w lo hi mx Hw Hlo Hlt Hhi. simpl in *. unfold entries.
  rewrite w_firstIndex, w_lastIndex in * by done. pose proof (length_w_log w Hw) as Hl.
  pose proof Hw as (Hs & Hb & _). rewrite u64_small by mach.
  rewrite (proj2 (Z.ltb_ge lo _)) by lia. rewrite (proj2 (Z.ltb_ge _ hi)) by lia.
  assert (take (Z.to_nat (hi - lo)) (drop (Z.to_nat lo) (w_entries w))
          = log_slice (w_snapIndex w + 1) lo hi (w_log w)) as Hsl.
  { unfold log_slice, w_log. rewrite drop_drop. do 2 f_equal. lia. }
  rewrite Hsl. set (S1 := log_slice _ _ _ _).
  assert (S1 <> []) as Hne.
  { intros HS. assert (length S1 = Z.to_nat (hi - lo)) as Hln by (apply length_log_slice; lia).
    rewrite HS in Hln. simpl in Hln. lia. }
  destruct (collect_prefix mx S1 0 []) as (k & -> & Hk1 & Hk2). specialize (Hk1 eq_refl Hne).
  destruct k as [|k]; [lia|]. by exists k.
Qed.

Lemma push_entries_spec l : forall w,
  w_log (foldl push_entry w l) = drop (Z.to_nat (w_snapIndex w + 1)) (w_entries w ++ l)
  /\ w_logFile (foldl push_entry w l) = w_logFile w ++ enc_log l
  /\ w_snapIndex (foldl push_entry w l) = w_snapIndex w
  /\ w_size (foldl push_entry w l) = w_size w + Z.of_nat (length l).
Proof.
  induction l as [|x l IH]; intros w; simpl.
  - rewrite !app_nil_r. split_and!; [done..|lia].
  - destruct (IH (push_entry w x)) as (-> & -> & -> & ->).
    simpl. rewrite writeEntry_eq, enc_log_cons, <- !app_assoc. split_and!; [done..|].
    unfold w_size. simpl. rewrite length_app. simpl. lia.
Qed.

(** Appending consecutive entries inside the log or at its end replaces the
    log from the first new index on, in memory and in the file. *)
Lemma append_spec w e es :
  wal_ok w -> contiguous (e_index e) (e :: es) -> Forall entry_typed (e :: es) ->
  w_snapIndex w + 1 <= e_index e <= w_size w ->
  e_index e + Z.of_nat (length (e :: es)) < 2 ^ 62 ->
  let w' := append w (e :: es) in
  wal_ok w' /\ w_snapIndex w' = w_snapIndex w
  /\ w_log w' = take (Z.to_nat (e_index e - (w_snapIndex w + 1))) (w_log w) ++ e :: es.
Proof.
  intros Hw Hc Ht Hi Hb w'. pose proof (length_w_log w Hw) as Hl.
  pose proof Hw as (Hs & Hsz & Hcl & Htl & Hf).
  set (n := Z.to_nat (e_index e - (w_snapIndex w + 1))).
  (* the log cut at the first new index *)
  assert (exists w0, append w (e :: es)
      = foldl push_entry w0 (e :: es)
    /\ w_snapIndex w0 = w_snapIndex w /\ w_log w0 = take n (w_log w)
    /\ w_logFile w0 = enc_log (take n (w_log w)) /\ w_size w0 = e_index e) as (w0 & E & Hs0 & Hl0 & Hf0 & Hz0).
  { unfold append, sync, appendNoSync. rewrite w_lastIndex by done.
    destruct (Z.leb_spec (e_index e) (w_size w - 1)).
    - eexists. split; [reflexivity|]. unfold rewrite_log, w_log, w_size, resize_entries.
      simpl. unfold w_size in *. replace (Z.to_nat (e_index e) - length (w_entries w))%nat with 0%nat by lia.
      rewrite u64_small by mach. simpl. rewrite !app_nil_r, writeEntries_eq.
      assert (drop (Z.to_nat (w_snapIndex w + 1)) (take (Z.to_nat (e_index e)) (w_entries w))
              = take n (w_log w)) as Hd.
      { unfold w_log, n. rewrite skipn_firstn_comm. f_equal. lia. }
      rewrite Hd. split_and!; [done|done|done|rewrite length_take; lia].
    - exists w. unfold w_size in *. rewrite (take_ge (w_log w)) by lia. split_and!; [done..|lia]. }
  unfold w'. rewrite E. clear E w'.
  destruct (push_entries_spec (e :: es) w0) as (HL & HF & HS & HZ).
  rewrite drop_app_le in HL by (unfold w_size in *; lia).
  change (drop (Z.to_nat (w_snapIndex w0 + 1)) (w_entries w0)) with (w_log w0) in HL.
  rewrite Hl0 in HL. rewrite HS, HL, Hs0. split_and!; [|done|done].
  unfold wal_ok. rewrite HS, HZ, HL, HF, Hf0, Hs0, Hz0. cbn [length] in *.
  split_and!; [lia|lia|lia| |by apply Forall_app_2; [apply Forall_take|]|by rewrite enc_log_app].
  apply contiguous_app. split; [by apply contiguous_take|]. rewrite length_take.
  by replace (w_snapIndex w + 1 + _) with (e_index e) by (unfold n; lia).
Qed.
