(* ===== verification/LogHistory.v ===== *)
(** * Logs and the histories of the terms

    The log of a term's leader only grows, so that a term has a history: the
    longest log its leader has had.  A log follows the histories when every
    entry in it stands where the history of its term has it, after the same
    entries.  Two logs that follow the same histories agree up to any entry
    they share, and what [RaftLog]'s operations make of such a log follows
    them again. *)

From S2P Require Import Prelude RaftTypes LogUnstable WriteAheadLog RaftLog.

Definition history := Z -> list Entry.

Definition follows (H : history) (L : list Entry) : Prop :=
  forall k e, L !! k = Some e -> take (S k) L `prefix_of` H (e_term e).

Definition extends (H H' : history) : Prop := forall T, H T `prefix_of` H' T.

#[global] Instance extends_preorder : PreOrder extends.
Proof. split; [by intros H T|]. intros H1 H2 H3 H12 H23 T. etransitivity; [apply H12|apply H23]. Qed.

(** Indices stay below this bound. *)
Definition max_log : Z := 2 ^ 61.

Definition entry_good (e : Entry) : Prop := 1 <= e_term e /\ entry_typed e.

Record history_ok (H : history) : Prop := {
  ho_contiguous T : contiguous 1 (H T);
  ho_good T : Forall entry_good (H T);
  ho_follows T : follows H (H T);
  ho_bound T : Z.of_nat (length (H T)) <= max_log
}.

Definition last_term (l : list Entry) : Z := default 0 (e_term <$> last l).

(** ** Prefixes *)

Lemma prefix_same_length {A} (l1 l2 m : list A) :
  l1 `prefix_of` m -> l2 `prefix_of` m -> length l1 = length l2 -> l1 = l2.
Proof. intros [k1 ->] [k2 E] Hl. by apply app_inj_1 in E as [-> _]. Qed.

Lemma prefix_eq_take {A} (l m : list A) : l `prefix_of` m -> l = take (length l) m.
Proof. intros [k ->]. by rewrite take_app_length. Qed.

Lemma prefix_lookup_Some {A} (l m : list A) k x : l `prefix_of` m -> l !! k = Some x -> m !! k = Some x.
Proof. intros [r ->] Hk. by apply lookup_app_l_Some. Qed.

Lemma prefix_drop_splice {A} (p : nat) (ents G : list A) :
  (p <= length G)%nat -> ents `prefix_of` drop p G -> take p G ++ ents = take (p + length ents) G.
Proof.
  intros Hp [k E]. rewrite <- (take_drop p G) at 2. rewrite E, app_assoc.
  symmetry. apply take_app_length'. rewrite length_app, length_take. lia.
Qed.

Lemma prefix_drop {A} n (l m : list A) : l `prefix_of` m -> (n <= length l)%nat -> drop n l `prefix_of` drop n m.
Proof. intros [k ->] Hn. rewrite drop_app_le by done. by exists k. Qed.

Lemma last_take_S {A} (l : list A) k x : l !! k = Some x -> last (take (S k) l) = Some x.
Proof. intros Hk. by rewrite (take_S_r _ _ _ Hk), last_snoc. Qed.

(** ** Following *)

Lemma follows_nil H : follows H [].
Proof. intros k e Hk. by rewrite lookup_nil in Hk. Qed.

Lemma follows_prefix H L L' : L' `prefix_of` L -> follows H L -> follows H L'.
Proof.
  intros Hp HL k e Hk. pose proof (prefix_lookup_Some _ _ _ _ Hp Hk) as Hk'.
  destruct Hp as [r ->]. specialize (HL k e Hk'). apply lookup_lt_Some in Hk.
  by rewrite take_app_le in HL by lia.
Qed.

Lemma follows_take H n L : follows H L -> follows H (take n L).
Proof. apply follows_prefix, prefix_take. Qed.

Lemma follows_mono H H' L : extends H H' -> follows H L -> follows H' L.
Proof. intros He HL k e Hk. etransitivity; [by apply (HL k)|apply He]. Qed.

(** Log matching: an entry's index and term fix the log up to it. *)
Lemma follows_agree H L1 L2 k e1 e2 :
  follows H L1 -> follows H L2 -> L1 !! k = Some e1 -> L2 !! k = Some e2 -> e_term e1 = e_term e2 ->
  take (S k) L1 = take (S k) L2.
Proof.
  intros F1 F2 H1 H2 Ht. eapply prefix_same_length; [by apply F1|rewrite Ht; by apply F2|].
  rewrite !length_take. apply lookup_lt_Some in H1, H2. lia.
Qed.

Section Ok.
Context (H : history) (HH : history_ok H).

(** What the entries of a log inherit from the histories. *)
Lemma follows_entry L k e : follows H L -> L !! k = Some e -> entry_good e /\ e_index e = 1 + Z.of_nat k.
Proof using HH.
  intros HL Hk. pose proof (HL k e Hk) as Hp. assert (H (e_term e) !! k = Some e) as He.
  { eapply prefix_lookup_Some; [exact Hp|]. rewrite lookup_take_lt by lia. done. }
  split; [by apply (Forall_lookup_1 _ _ _ _ (ho_good _ HH (e_term e)) He)|by apply (ho_contiguous _ HH (e_term e))].
Qed.

Lemma follows_good L : follows H L -> Forall entry_good L.
Proof using HH. intros HL. apply Forall_lookup_2. intros k e Hk. by eapply follows_entry. Qed.

Lemma follows_typed L : follows H L -> Forall entry_typed L.
Proof using HH. intros HL. eapply Forall_impl; [by apply follows_good|]. by intros e [_ ?]. Qed.

Lemma follows_contiguous L : follows H L -> contiguous 1 L.
Proof using HH. intros HL k e Hk. by eapply follows_entry. Qed.

Lemma follows_bound L : follows H L -> Z.of_nat (length L) <= max_log.
Proof using HH.
  intros HL. destruct (decide (L = [])) as [->|Hne]; [done|].
  destruct (lookup_lt_is_Some_2 L (pred (length L))) as [e He]; [by destruct L; [|simpl; lia]|].
  apply HL, prefix_length in He. rewrite length_take in He. pose proof (ho_bound _ HH (e_term e)).
  destruct L; [done|]. simpl in *. lia.
Qed.

(** The term's leader appends. *)
Definition hist_grow (T : Z) (L : list Entry) : history := fun T' => if decide (T' = T) then L else H T'.

Lemma hist_grow_extends T L : H T `prefix_of` L -> extends H (hist_grow T L).
Proof using Type. intros Hp T'. unfold hist_grow. by case_decide; subst. Qed.

Lemma hist_grow_ok T L :
  H T `prefix_of` L -> contiguous 1 L -> Forall entry_good L -> Z.of_nat (length L) <= max_log ->
  follows (hist_grow T L) L -> history_ok (hist_grow T L).
Proof using HH.
  intros Hp Hc Hg Hb Hf. pose proof (hist_grow_extends T L Hp) as He.
  assert (forall P : list Entry -> Prop, P L -> (forall T', P (H T')) -> forall T', P (hist_grow T L T')) as Hall.
  { intros P HL HP T'. unfold hist_grow. by case_decide. }
  split; [apply (Hall (contiguous 1))|apply (Hall (Forall entry_good))|apply (Hall (follows (hist_grow T L)))
    |apply (Hall (fun l => Z.of_nat (length l) <= max_log))]; try done; try apply HH.
  intros T'. eapply follows_mono; [exact He|apply HH].
Qed.

Lemma hist_grow_new T L : follows H L -> H T = [] -> history_ok (hist_grow T L) /\ follows (hist_grow T L) L.
Proof using HH.
  intros HL Hn. assert (H T `prefix_of` L) as Hp by (rewrite Hn; apply prefix_nil).
  assert (follows (hist_grow T L) L) as Hf by (eapply follows_mono; [by apply hist_grow_extends|done]).
  split; [|done]. apply hist_grow_ok; [done|by apply follows_contiguous|by apply follows_good|by apply follows_bound|done].
Qed.

Lemma hist_grow_append T e :
  entry_good e -> e_term e = T -> e_index e = Z.of_nat (length (H T)) + 1 ->
  Z.of_nat (length (H T)) < max_log ->
  history_ok (hist_grow T (H T ++ [e])) /\ follows (hist_grow T (H T ++ [e])) (H T ++ [e]).
Proof using HH.
  intros He Ht Hi Hb. set (L := H T ++ [e]). assert (H T `prefix_of` L) as Hp by (by apply prefix_app_r).
  assert (follows (hist_grow T L) L) as Hf.
  { intros k x Hk. destruct (decide (k < length (H T))%nat) as [Hlt|Hge].
    - unfold L in *. rewrite lookup_app_l in Hk by lia. rewrite take_app_le by lia.
      etransitivity; [by apply (ho_follows _ HH T)|by apply hist_grow_extends].
    - assert (x = e) as ->.
      { unfold L in Hk. rewrite lookup_app_r in Hk by lia. apply list_lookup_singleton_Some in Hk. naive_solver. }
      unfold hist_grow. rewrite decide_True by done. apply prefix_take. }
  split; [|done]. apply hist_grow_ok; [done| | | |done].
  - apply contiguous_app. split; [apply HH|]. intros k x Hk.
    apply list_lookup_singleton_Some in Hk as [-> <-]. lia.
  - apply Forall_app. split; [apply HH|by apply Forall_singleton].
  - unfold L. rewrite length_app. simpl. lia.
Qed.
End Ok.

(** ** The operations of the log *)

Section Operations.
Context (H : history) (HH : history_ok H).
Context `{!Platform} {St : Type} `{!Storage St} `{!StorageLaws St}.
Implicit Types (st : St) (l : RaftLog).

(** Well-formed, and never compacted. *)
Definition log_plain st l : Prop :=
  raftlog_ok st l /\ u_snapshot (rl_unstable l) = None /\ st_firstIndex st = 1.

Definition log_follows st l : Prop :=
  log_plain st l /\ follows H (st_log st) /\ follows H (log_list st l).

Lemma plain_first st l : log_plain st l -> log_first st l = 1.
Proof using Type. intros (_ & Hs & Hf). unfold log_first. by rewrite Hs. Qed.

Lemma plain_last st l : log_plain st l -> log_last st l = Z.of_nat (length (log_list st l)).
Proof using Type. intros Hp. unfold log_last. rewrite plain_first by done. lia. Qed.

(** What the log is when its unstable part is replaced. *)
Lemma plain_list st l :
  log_plain st l ->
  log_list st l = match u_entries (rl_unstable l) with
                  | [] => st_log st
                  | es => take (Z.to_nat (u_offset (rl_unstable l) - 1)) (st_log st) ++ es
                  end.
Proof using Type. intros (_ & Hs & Hf). unfold log_list. rewrite Hs, Hf. by destruct (u_entries _). Qed.

(** Only the unstable part matters. *)
Lemma log_follows_same st l l' :
  rl_unstable l' = rl_unstable l -> log_follows st l -> log_follows st l'.
Proof using Type.
  intros E. unfold log_follows, log_plain, raftlog_ok, log_list. by rewrite E.
Qed.

Lemma truncateFrom_take u n :
  exists k, truncateFrom u n = mkUnstable (take k (u_entries u)) (u_offset u) (u_snapshot u).
Proof using Type.
  assert (exists k, u = mkUnstable (take k (u_entries u)) (u_offset u) (u_snapshot u)) as Hu.
  { exists (length (u_entries u)). rewrite take_ge by done. by destruct u. }
  unfold truncateFrom. destruct (u_entries u) eqn:Eu; [done|]. rewrite <- Eu.
  destruct (_ <? _); [by exists 0%nat|]. destruct (_ <? _); [by eexists|]. by rewrite Eu.
Qed.

(** Cutting the unstable entries leaves a prefix of the log, or what storage
    holds. *)
Lemma truncate_follows st l n :
  log_follows st l -> log_follows st (set_unstable (truncateFrom (rl_unstable l) n) l).
Proof using Type.
  intros (Hp & HS & HL). pose proof Hp as ((Hok & Hu & Hov) & Hs & Hf).
  destruct (truncateFrom_take (rl_unstable l) n) as [k ->].
  set (l' := set_unstable _ l). assert (log_plain st l') as Hp'.
  { split_and!; [split_and!; [done| |]|done|done].
    - destruct Hu as (Hc & Ho & Hb & Hsn). unfold unstable_ok, u_size in *. simpl.
      split_and!; [by apply contiguous_take|done|rewrite length_take; lia|done].
    - simpl. intros _ Hne. apply Hov; [done|]. intros Hnil. apply Hne. by rewrite Hnil, take_nil. }
  split_and!; [done|done|]. rewrite plain_list in * by done. simpl.
  destruct (take k (u_entries (rl_unstable l))) as [|e es] eqn:Et; [done|]. rewrite <- Et.
  destruct (u_entries (rl_unstable l)) as [|e0 es0]; [by rewrite take_nil in Et|].
  eapply follows_prefix; [|exact HL]. apply prefix_app, prefix_take.
Qed.

(** The term of an index above 0 is the log's there, or beyond its end what
    storage still holds. *)
Lemma term_split st l i t :
  log_plain st l -> 1 <= i < 2 ^ 63 -> 1 <= t -> term st l i = Some t ->
  (exists e, log_list st l !! Z.to_nat (i - 1) = Some e /\ e_term e = t)
  \/ (Z.of_nat (length (log_list st l)) < i /\ u_entries (rl_unstable l) <> []
      /\ exists e, st_log st !! Z.to_nat (i - 1) = Some e /\ e_term e = t).
Proof using Type.
  intros Hp Hi Ht Hterm. pose proof Hp as (Hok & Hs & Hf). pose proof (plain_first _ _ Hp) as Hfirst.
  pose proof (plain_last _ _ Hp) as Hlast. destruct (decide (i <= log_last st l)) as [Hle|Hgt].
  - left. rewrite term_eq in Hterm by (done || lia). rewrite Hfirst in Hterm. unfold log_lookup in Hterm.
    rewrite (proj2 (Z.ltb_ge _ _)) in Hterm by lia.
    destruct (log_list st l !! Z.to_nat (i - 1)) as [e|]; injection Hterm as <-; [by exists e|done].
  - right. split; [lia|]. unfold term in Hterm. rewrite firstIndex_eq, Hfirst in Hterm by done.
    rewrite u64_small in Hterm by mach. rewrite (proj2 (Z.eqb_neq _ _)) in Hterm by lia.
    destruct Hok as (Hst & Hu & Hov). rewrite maybeTerm_eq in Hterm by (done || lia).
    rewrite Hs in Hterm. cbn [mbind option_bind] in Hterm.
    assert (forall x, (match st_term st i with Some t => Some t | None => Some 0 end) = Some x -> x = t ->
      exists e, st_log st !! Z.to_nat (i - 1) = Some e /\ e_term e = t) as Hst'.
    { intros x Hx ->. rewrite st_term_eq, Hf in Hx by done. unfold log_lookup in Hx.
      rewrite (proj2 (Z.ltb_ge _ _)) in Hx by lia.
      destruct (st_log st !! Z.to_nat (i - 1)) as [e|]; injection Hx as Hx; [by exists e|lia]. }
    assert (u_entries (rl_unstable l) <> []) as Hne.
    { intros Hnil. rewrite plain_list, Hnil in Hlast by done.
      assert (exists e, st_log st !! Z.to_nat (i - 1) = Some e /\ e_term e = t) as (e & He & _).
      { rewrite Hnil, lookup_nil in Hterm. destruct (_ <? _) in Hterm; exact (Hst' t Hterm eq_refl). }
      apply lookup_lt_Some in He. lia. }
    split; [done|]. revert Hterm. destruct (Z.ltb_spec i (u_offset (rl_unstable l))); [by eauto|].
    pose proof (unstable_last st l ltac:(done) Hne) as Hul. unfold u_size in Hul.
    rewrite lookup_ge_None_2 by lia. simpl. eauto.
Qed.

(** Where the term of an entry of [G] is read, the log or storage agrees
    with [G] up to it. *)
Lemma term_agrees st l G j e :
  log_follows st l -> follows H G -> G !! j = Some e -> Z.of_nat j < 2 ^ 62 ->
  term st l (Z.of_nat j + 1) = Some (e_term e) ->
  (S j <= length (log_list st l))%nat /\ take (S j) (log_list st l) = take (S j) G
  \/ (length (log_list st l) < S j)%nat /\ (S j <= length (st_log st))%nat
     /\ u_entries (rl_unstable l) <> [] /\ take (S j) (st_log st) = take (S j) G.
Proof using HH.
  intros (Hp & HS & HL) HG Hj Hb Ht. destruct (follows_entry H HH G j e HG Hj) as [[He _] _].
  apply term_split in Ht as [(x & Hx & Et)|(Hlt & Hne & x & Hx & Et)]; [..|done|lia|lia];
    replace (Z.to_nat (Z.of_nat j + 1 - 1)) with j in Hx by lia;
    pose proof (lookup_lt_Some _ _ _ Hx) as Hl.
  - left. split; [lia|]. by apply (follows_agree H _ _ j x e).
  - right. split_and!; [lia|lia|done|]. by apply (follows_agree H _ _ j x e).
Qed.

(** Entries of [G] from position [j] on, added where the log or storage
    agrees with [G]: the log becomes a prefix of [G]. *)
Lemma splice_follows st l G j e es :
  log_follows st l -> follows H G -> e :: es `prefix_of` drop j G ->
  (j <= length (log_list st l))%nat /\ take j (log_list st l) = take j G
  \/ (length (log_list st l) < j)%nat /\ (j <= length (st_log st))%nat
     /\ u_entries (rl_unstable l) <> [] /\ take j (st_log st) = take j G ->
  log_follows st (set_unstable (u_append (rl_unstable l) (e :: es)) l).
Proof using HH.
  intros (Hp & HS & HL) HG Hes Hag. pose proof Hp as (Hok & Hs & Hf). pose proof (plain_first _ _ Hp) as Hfirst.
  pose proof (plain_last _ _ Hp) as Hlast. pose proof (follows_bound H HH G HG) as Hb. unfold max_log in Hb.
  assert (j + length (e :: es) <= length G)%nat as Hj.
  { apply prefix_length in Hes. rewrite length_drop in Hes. simpl in *. lia. }
  assert (contiguous (1 + Z.of_nat j) (e :: es)) as Hc.
  { destruct Hes as [r Er]. eapply (proj1 (contiguous_app _ _ r)). rewrite <- Er.
    apply contiguous_drop; [by eapply follows_contiguous|lia]. }
  assert (e_index e = 1 + Z.of_nat j) as Hi by (by apply contiguous_cons in Hc as [? _]).
  rewrite <- Hi in Hc. cbn [length] in *. set (l' := set_unstable _ l).
  cut (log_plain st l' /\ log_list st l' = take j G ++ e :: es).
  { intros [Hp' EL]. split_and!; [done..|]. rewrite EL, prefix_drop_splice by (done || lia).
    by apply follows_take. }
  destruct Hag as [[Hjl Et]|(Hjl & Hjs & Hne & Et)].
  - destruct (append_list st l Hok e es) as (Hok' & Hf' & EL); [done|lia|cbn [length]; lia|].
    split; [split_and!; [done| |done]|].
    + unfold l', u_append. cbn [rl_unstable set_unstable]. destruct (truncateAndAppend_ok (rl_unstable l)) with (e := e) (l := es)
        as (_ & -> & _); [apply Hok|done|cbn [length]; lia|rewrite Hs; lia|by rewrite Hs| |done].
      intros Hne. pose proof (unstable_last _ _ Hok Hne). lia.
    + unfold l'. rewrite EL, Hfirst. rewrite <- Et. do 2 f_equal. lia.
  - pose proof (unstable_last _ _ Hok Hne) as Hul. pose proof Hok as (Hst & Hu & Hov).
    pose proof (st_last_eq _ Hst) as Hsl. rewrite Hf in Hsl.
    assert (u_append (rl_unstable l) (e :: es) = mkUnstable (e :: es) (e_index e) None) as Eu.
    { unfold u_append, truncateAndAppend. destruct Hu as (_ & Ho & Hbu & _). unfold u_size in *.
      destruct (u_entries (rl_unstable l)) as [|x xs] eqn:E; [done|]. rewrite Hs.
      destruct (_ <=? _); [done|]. rewrite (u64_small (_ + Z.of_nat _)) by mach.
      cbn [length] in *. rewrite (u64_small (_ - 1)) by mach. rewrite u64_small by mach.
      by rewrite (proj2 (Z.ltb_lt _ _)) by lia. }
    assert (log_plain st l') as Hp'.
    { unfold l'. rewrite Eu. split_and!; [split_and!; [done| |]|done|done].
      - unfold unstable_ok, u_size. simpl. split_and!; [done|lia|lia|done].
      - simpl. lia. }
    split; [done|]. rewrite plain_list by done. unfold l'. cbn [rl_unstable set_unstable]. rewrite Eu. simpl.
    rewrite <- Et. do 2 f_equal. lia.
Qed.

(** A batch of the log [G]: the entries after position [prev], with the term
    of the entry there. *)
Definition batch_of (G : list Entry) (prev prevTerm : Z) (ents : list Entry) : Prop :=
  exists p : nat, prev = Z.of_nat p /\ (p <= length G)%nat /\ prevTerm = last_term (take p G)
    /\ ents `prefix_of` drop p G.

Lemma findConflict_scan st l ents : forall prev c,
  contiguous (prev + 1) ents -> findConflict st l ents = Some c ->
  c = 0 \/ exists n e, ents !! n = Some e /\ c = e_index e
    /\ forall k x, ents !! k = Some x -> (k < n)%nat -> term st l (e_index x) = Some (e_term x).
Proof using Type.
  induction ents as [|e ents IH]; intros prev c Hc Hs; cbn [findConflict] in Hs; [injection Hs; auto|].
  apply contiguous_cons in Hc as [He Hc].
  destruct (term st l (e_index e)) as [t|] eqn:Et; cbn [mbind option_bind] in Hs; [|done].
  destruct (Z.eqb_spec t (e_term e)) as [->|Hne].
  - destruct (IH _ _ Hc Hs) as [?|(n & x & Hn & -> & Hall)]; [by left|right]. exists (S n), x.
    split_and!; [done|done|]. intros [|k] y Hy Hk; simpl in Hy; [by simplify_eq|]. apply (Hall k); [done|lia].
  - right. exists 0%nat, e. injection Hs as <-. split_and!; [done|done|lia].
Qed.

(** [maybeAppend] on a batch of a log that follows the histories. *)
Lemma maybeAppend_follows st l G prev pt lc ents ok l' :
  log_follows st l -> follows H G -> ents = [] \/ batch_of G prev pt ents ->
  maybeAppend st l prev pt lc ents = Some (ok, l') -> log_follows st l'.
Proof using HH.
  intros Hl HG Hb Hs. unfold maybeAppend in Hs.
  destruct (term st l prev) as [t|] eqn:Et; cbn [mbind option_bind] in Hs; [|done].
  destruct (Z.eqb_spec t pt) as [->|]; cbn [negb] in Hs; [|by simplify_eq].
  destruct (findConflict st l ents) as [c|] eqn:Ec; cbn [mbind option_bind] in Hs; [|done].
  match type of Hs with mbind (M := option) _ ?x = _ => destruct x as [l1|] eqn:E1 end;
    cbn [mbind option_bind] in Hs; [|done].
  cut (log_follows st l1). { intros Hl1. injection Hs as <- <-. eapply log_follows_same, Hl1. by destruct (rl_committed l1 <? lc). }
  clear Hs. destruct (Z.eqb_spec c 0) as [->|Hc0].
  { destruct (_ <? _) in E1; simplify_eq; [by apply truncate_follows|done]. }
  destruct (_ <=? _) in E1; [by simplify_eq|]. destruct Hb as [->|(p & -> & Hp & -> & Hpre)]; [by simplify_eq/=|].
  pose proof (follows_bound H HH G HG) as Hbd. unfold max_log in Hbd.
  assert (p + length ents <= length G)%nat as Hlen.
  { apply prefix_length in Hpre. rewrite length_drop in Hpre. lia. }
  assert (contiguous (Z.of_nat p + 1) ents) as Hcon.
  { destruct Hpre as [r Er]. eapply (proj1 (contiguous_app _ _ r)). rewrite <- Er, Z.add_comm.
    apply contiguous_drop; [by eapply follows_contiguous|lia]. }
  assert (forall k x, ents !! k = Some x -> G !! (p + k)%nat = Some x) as HGk.
  { intros k x Hk. rewrite <- lookup_drop. by eapply prefix_lookup_Some. }
  apply (findConflict_scan _ _ _ _ _ Hcon) in Ec as [?|(n & e & Hn & -> & Hall)]; [done|].
  pose proof (Hcon n e Hn) as Hie. pose proof (lookup_lt_Some _ _ _ Hn) as Hnl. rewrite Hie in E1.
  rewrite (u64_small (Z.of_nat p + 1 + _ - _)), u64_small in E1 by mach.
  rewrite (proj2 (Z.ltb_ge _ _)) in E1 by lia.
  replace (Z.to_nat _) with n in E1 by lia. injection E1 as <-. rewrite (drop_S _ _ _ Hn).
  apply (splice_follows st l G (p + n)); [done|done| |].
  { rewrite <- (drop_S _ _ _ Hn), <- drop_drop. apply prefix_drop; [done|lia]. }
  destruct (decide (p + n = 0)%nat) as [->|Hpn]; [by left; split; [lia|]|].
  assert (exists j x, (p + n = S j)%nat /\ G !! j = Some x /\ term st l (Z.of_nat j + 1) = Some (e_term x))
    as (j & x & -> & Hx & Htx).
  { destruct n as [|n].
    - destruct p as [|p]; [lia|]. destruct (lookup_lt_is_Some_2 G p) as [x Hx]; [lia|].
      exists p, x. split_and!; [lia|done|]. replace (Z.of_nat p + 1) with (Z.of_nat (S p)) by lia.
      rewrite Et. unfold last_term. by rewrite (last_take_S _ _ _ Hx).
    - destruct (lookup_lt_is_Some_2 ents n) as [x Hx]; [lia|]. exists (p + n)%nat, x.
      split_and!; [lia|by apply HGk|]. pose proof (Hcon n x Hx) as Hix.
      replace (Z.of_nat (p + n) + 1) with (e_index x) by lia. apply (Hall n); [done|lia]. }
  pose proof (lookup_lt_Some _ _ _ Hx). apply (term_agrees st l G j x); [done|done|done|lia|done].
Qed.

(** The leader's own append adds its entry at the end, or does nothing. *)
Lemma leader_append st l e :
  log_plain st l -> Z.of_nat (length (log_list st l)) < max_log -> e_index e = (lastIndex st l +u 1) ->
  let l' := (append st l [e]).2 in
  rl_unstable l' = rl_unstable l
  \/ log_plain st l' /\ log_list st l' = log_list st l ++ [e]
     /\ u_entries (rl_unstable l') = u_entries (rl_unstable l) ++ [e]
     /\ (u_entries (rl_unstable l) <> [] -> u_offset (rl_unstable l') = u_offset (rl_unstable l)).
Proof using Type.
  intros Hp Hb Hi l'. pose proof Hp as (Hok & Hs & Hf). pose proof (plain_first _ _ Hp) as Hfirst.
  pose proof (plain_last _ _ Hp) as Hlast. unfold max_log in Hb. rewrite lastIndex_eq, u64_small in Hi by (done || mach).
  unfold l', append. destruct (_ <? _); [by left|right]. cbn [snd]. clear l'.
  destruct (append_list st l Hok e []) as (Hok' & Hf' & EL);
    [by apply contiguous_cons; split; [|apply contiguous_nil]|lia|cbn [length]; lia|].
  destruct (truncateAndAppend_ok (rl_unstable l)) with (e := e) (l := @nil Entry) as (_ & Es & Eo & Ee);
    [apply Hok|by apply contiguous_cons; split; [|apply contiguous_nil]|cbn [length]; lia
    |rewrite Hs; lia|by rewrite Hs|intros Hne; pose proof (unstable_last _ _ Hok Hne); lia|].
  unfold u_append in *. cbn [rl_unstable set_unstable].
  split_and!; [split_and!; [done|cbn [rl_unstable set_unstable]; congruence|done]| | |].
  - rewrite EL, Hfirst, take_ge by lia. done.
  - rewrite Ee. destruct (decide (u_entries (rl_unstable l) = [])) as [->|Hne]; [by rewrite take_nil|].
    pose proof (unstable_last _ _ Hok Hne) as Hul. unfold u_size in Hul. by rewrite take_ge by lia.
  - intros Hne. rewrite Eo, decide_False by done. pose proof (unstable_last _ _ Hok Hne) as Hul.
    unfold u_size in Hul. lia.
Qed.

(** ** Batches *)

Lemma cut_batch_take mx (ents : list Entry) : cut_batch mx ents `prefix_of` ents.
Proof using Type.
  destruct (decide (ents = [])) as [->|Hne]; [done|].
  destruct (cut_batch_prefix mx ents Hne) as (k & -> & _). apply prefix_take.
Qed.

Lemma log_slice_prefix lo hi (L : list Entry) : log_slice 1 lo hi L `prefix_of` drop (Z.to_nat (lo - 1)) L.
Proof using Type. apply prefix_take. Qed.

(** The unstable part of a slice up to the log's end, when it is read at all. *)
Lemma u_slice_end st l lo :
  log_plain st l -> 1 <= lo <= log_last st l -> u_offset (rl_unstable l) <= lo ->
  u_slice (rl_unstable l) lo (log_last st l + 1) = []
  \/ u_slice (rl_unstable l) lo (log_last st l + 1) = log_slice 1 lo (log_last st l + 1) (log_list st l).
Proof using Type.
  intros Hp Hlo Hoff. pose proof Hp as (Hok & Hs & Hf). pose proof (plain_first _ _ Hp) as Hfirst.
  pose proof (log_last_range _ _ Hok) as Hlr. pose proof (proj1 (proj2 Hok)) as Hu.
  destruct (decide (u_entries (rl_unstable l) = [])) as [Hnil|Hne].
  - left. unfold u_slice, u_size. rewrite Hnil. simpl.
    destruct Hu as (_ & Ho & Hb & _). unfold u_size in Hb. rewrite u64_small by mach.
    rewrite (proj2 (Z.ltb_lt _ (log_last st l + 1))) by lia. by rewrite orb_true_r.
  - right. pose proof (unstable_last _ _ Hok Hne) as Hul. rewrite u_slice_eq by (done || lia).
    symmetry. rewrite <- Hfirst. apply log_slice_unstable; done || lia.
Qed.

Lemma slice_prefix st l lo mx ents :
  log_plain st l -> 1 <= lo -> slice st l lo (lastIndex st l +u 1) mx = Some ents ->
  ents `prefix_of` drop (Z.to_nat (lo - 1)) (log_list st l).
Proof using Type.
  intros Hp Hlo Hsl. pose proof Hp as (Hok & Hs & Hf). pose proof (plain_first _ _ Hp) as Hfirst.
  pose proof (log_last_range _ _ Hok) as Hlr. unfold slice in Hsl.
  rewrite lastIndex_eq, (u64_small (log_last st l + 1)) in Hsl by (done || mach).
  destruct (Z.leb_spec (log_last st l + 1) lo); [simplify_eq; apply prefix_nil|].
  destruct (lo <? _); [done|]. rewrite (proj2 (Z.ltb_ge _ _)) in Hsl by lia. cbv zeta in Hsl.
  set (hi := log_last st l + 1) in *. set (off := u_offset (rl_unstable l)) in *.
  etransitivity; [|apply (log_slice_prefix lo hi)].
  destruct (Z.ltb_spec lo off) as [Hlow|Hhigh].
  - set (shi := Z.min hi off) in *.
    assert (log_slice 1 lo shi (log_list st l) = log_slice (st_firstIndex st) lo shi (st_log st)) as Est.
    { rewrite <- Hfirst. apply log_slice_storage; fold off; (done || lia). }
    assert (log_slice 1 lo hi (log_list st l)
            = log_slice 1 lo shi (log_list st l) ++ log_slice 1 shi hi (log_list st l)) as Ehi
      by (apply log_slice_app; lia).
    destruct (st_entries_eq st lo shi mx) as (k & Ek & _); [apply Hok|lia|lia
      |apply (stored_below _ _ Hok lo hi); fold off; lia|].
    rewrite Ek in Hsl. cbn [mbind option_bind] in Hsl. rewrite <- Est in Hsl.
    assert (length (log_slice 1 lo shi (log_list st l)) = Z.to_nat (shi - lo)) as Hlen
      by (apply length_log_slice; unfold log_last in *; lia).
    rewrite (u64_small (shi - lo)) in Hsl by mach. rewrite Ehi. clear Ehi.
    destruct (Z.ltb_spec (Z.of_nat (length (take (S k) (log_slice 1 lo shi (log_list st l))))) (shi - lo))
      as [_|Hfull]; injection Hsl as <-; [apply prefix_app_r, prefix_take|].
    rewrite length_take in Hfull. rewrite take_ge by lia. etransitivity; [apply cut_batch_take|].
    destruct (Z.ltb_spec off hi) as [Hoh|Hoh]; [|by apply prefix_app_r].
    apply prefix_app. replace (Z.max lo off) with off by lia. replace shi with off by lia.
    destruct (u_slice_end st l off) as [E|E]; [done|lia|lia|..]; fold hi in E; rewrite E; [apply prefix_nil|done].
  - injection Hsl as <-. etransitivity; [apply cut_batch_take|].
    rewrite (proj2 (Z.ltb_lt off hi)) by lia. rewrite Z.max_l by lia.
    destruct (u_slice_end st l lo) as [E|E]; [done|lia|lia|..]; fold hi in E; rewrite E; [apply prefix_nil|done].
Qed.

(** What the leader puts into an append message. *)
Lemma slice_batch st l next mx ents pt :
  log_plain st l -> 1 <= next -> slice st l next (lastIndex st l +u 1) mx = Some ents ->
  term st l (next -u 1) = Some pt -> ents <> [] -> batch_of (log_list st l) (next -u 1) pt ents.
Proof using Type.
  intros Hp Hn Hsl Ht Hne. pose proof Hp as (Hok & _). pose proof (plain_first _ _ Hp) as Hfirst.
  pose proof (plain_last _ _ Hp) as Hlast. apply slice_prefix in Hsl; [|done|lia].
  assert (Z.to_nat (next - 1) < length (log_list st l))%nat as Hlt.
  { apply prefix_length in Hsl. rewrite length_drop in Hsl. destruct ents; [done|]. simpl in Hsl. lia. }
  pose proof (log_last_range _ _ Hok). rewrite u64_small in * by mach. exists (Z.to_nat (next - 1)). split_and!; [lia|lia| |done].
  rewrite term_eq in Ht by (done || lia). injection Ht as <-. unfold last_term.
  rewrite Hfirst. unfold log_lookup. destruct (Z.ltb_spec (next - 1) 1).
  - by replace (Z.to_nat (next - 1)) with 0%nat by lia.
  - replace (Z.to_nat (next - 1)) with (S (Z.to_nat (next - 1 - 1))) by lia.
    destruct (lookup_lt_is_Some_2 (log_list st l) (Z.to_nat (next - 1 - 1))) as [x Hx]; [lia|].
    by rewrite (last_take_S _ _ _ Hx), Hx.
Qed.
End Operations.
