(* ===== verification/RaftTransport.v ===== *)
(** * The transport between raft nodes

    Models [src/app/net/RaftTransport.h] and [src/app/net/RaftTransport.cpp]:
    the wire format of a [raft::Message], the sender's table of persistent
    connections and the receiver's loop.  A socket is named by the attempt
    that opened it, so a descriptor the system hands out again is another
    socket; [rt_streams] is what has been written to each.  Sends come from
    one thread.  [resize] in the decoder throws [bad_alloc] beyond what
    memory holds ([max_entries], a parameter); in the receiving thread that
    ends the process.  The accept loop is system calls only.

    Together: whatever the segmentation of the stream and wherever it is
    cut, the receiver delivers exactly the messages whose [send] succeeded,
    in order ([transport_delivers]). *)

From S2P Require Import Prelude Socket Config OrderProtocol RaftTypes WriteAheadLog.

(** ** Wire format *)

Definition mtype_to_u8 (t : MessageType) : Z :=
  match t with
  | MsgPropose => 0 | MsgApp => 1 | MsgAppResp => 2 | MsgVote => 3 | MsgVoteResp => 4
  | MsgPreVote => 5 | MsgPreVoteResp => 6 | MsgSnap => 7 | MsgHeartbeat => 8
  | MsgHeartbeatResp => 9 | MsgUnreachable => 10 | MsgSnapStatus => 11 | MsgCheckQuorum => 12
  | MsgTransferLeader => 13 | MsgTimeoutNow => 14 | MsgReadIndex => 15 | MsgReadIndexResp => 16
  | MsgUnnamed v => v
  end.

Definition named_types : list MessageType :=
  [MsgPropose; MsgApp; MsgAppResp; MsgVote; MsgVoteResp; MsgPreVote; MsgPreVoteResp; MsgSnap;
   MsgHeartbeat; MsgHeartbeatResp; MsgUnreachable; MsgSnapStatus; MsgCheckQuorum;
   MsgTransferLeader; MsgTimeoutNow; MsgReadIndex; MsgReadIndexResp].

(** [static_cast<raft::MessageType>(t)] *)
Definition mtype_of_u8 (v : Z) : MessageType :=
  default (MsgUnnamed v) (named_types !! Z.to_nat v).

Definition appendU8 (buf : bytes) (v : Z) : bytes := buf ++ [v].
Definition appendU32 (buf : bytes) (v : Z) : bytes := buf ++ put_le 4 v.
Definition appendU64 (buf : bytes) (v : Z) : bytes := buf ++ put_le 8 v.

Definition readU8 : bytes -> nat -> option (Z * nat) := read_le 1.
Definition readU32 : bytes -> nat -> option (Z * nat) := read_le 4.
Definition readU64 : bytes -> nat -> option (Z * nat) := read_le 8.

(** A length and the bytes. *)
Definition append_data (buf data : bytes) : bytes :=
  appendU32 buf (u32 (Z.of_nat (length data))) ++ data.

Definition append_entry (buf : bytes) (e : Entry) : bytes :=
  let buf := appendU64 buf (e_term e) in
  let buf := appendU64 buf (e_index e) in
  let buf := appendU8 buf (etype_to_u8 (e_type e)) in
  append_data buf (e_data e).

Definition serializeMessage (m : Message) : bytes :=
  let buf := appendU8 [] (mtype_to_u8 (m_type m)) in
  let buf := appendU64 buf (m_to m) in
  let buf := appendU64 buf (m_from m) in
  let buf := appendU64 buf (m_term m) in
  let buf := appendU64 buf (m_logTerm m) in
  let buf := appendU64 buf (m_index m) in
  let buf := appendU64 buf (m_commit m) in
  let buf := appendU8 buf (if m_reject m then 1 else 0) in
  let buf := appendU64 buf (m_rejectHint m) in
  let buf := appendU32 buf (u32 (Z.of_nat (length (m_entries m)))) in
  let buf := foldl append_entry buf (m_entries m) in
  let buf := appendU64 buf (s_term (m_snapshot m)) in
  let buf := appendU64 buf (s_index (m_snapshot m)) in
  let buf := append_data buf (s_data (m_snapshot m)) in
  let buf := append_data buf (m_context m) in
  appendU32 [] (u32 (Z.of_nat (length buf))) ++ buf.

(** A length and, if they are there, that many bytes. *)
Definition read_data (buf : bytes) (off : nat) : option (bytes * nat) :=
  '(n, off) ← readU32 buf off; read_raw n buf off.

Definition read_entry (buf : bytes) (off : nat) : option (Entry * nat) :=
  '(term, off) ← readU64 buf off;
  '(index, off) ← readU64 buf off;
  '(et, off) ← readU8 buf off;
  '(data, off) ← read_data buf off;
  Some (mkEntry term index (etype_of_u8 et) data, off).

Fixpoint read_entries (n : nat) (buf : bytes) (off : nat) : option (list Entry * nat) :=
  match n with
  | O => Some ([], off)
  | S n =>
      '(e, off) ← read_entry buf off;
      '(es, off) ← read_entries n buf off;
      Some (e :: es, off)
  end.

(** The fields up to the number of entries. *)
Definition read_header (buf : bytes) : option (Message * Z * nat) :=
  '(t, off) ← readU8 buf 0;
  '(to, off) ← readU64 buf off;
  '(from, off) ← readU64 buf off;
  '(term, off) ← readU64 buf off;
  '(logTerm, off) ← readU64 buf off;
  '(index, off) ← readU64 buf off;
  '(commit, off) ← readU64 buf off;
  '(rej, off) ← readU8 buf off;
  '(rejectHint, off) ← readU64 buf off;
  '(nEntries, off) ← readU32 buf off;
  Some (mkMessage (mtype_of_u8 t) to from term logTerm index commit (negb (rej =? 0)) rejectHint
          [] empty_snapshot [], nEntries, off).

(** How many entries [resize] can make room for. *)
Class Memory := { max_entries : Z }.

Inductive Decoded := Refused | BadAlloc | Decode (m : Message).

Section Decode.
Context `{!Memory}.

Definition deserializeMessage (buf : bytes) : Decoded :=
  match read_header buf with
  | None => Refused
  | Some (m, nEntries, off) =>
      if max_entries <? nEntries then BadAlloc
      else
        let tail :=
          '(entries, off) ← read_entries (Z.to_nat nEntries) buf off;
          '(snapTerm, off) ← readU64 buf off;
          '(snapIndex, off) ← readU64 buf off;
          '(snapData, off) ← read_data buf off;
          '(context, off) ← read_data buf off;
          Some (mkMessage (m_type m) (m_to m) (m_from m) (m_term m) (m_logTerm m) (m_index m)
                  (m_commit m) (m_reject m) (m_rejectHint m) entries
                  (mkSnapshot snapTerm snapIndex snapData) context) in
        match tail with None => Refused | Some m => Decode m end
  end.

(** ** Receiving *)

Inductive Ended := Closed | Stopped | Terminated.

Definition max_frame : Z := 2 ^ 24.

(** [connLoop], when [running_] is found set [rounds] times: the messages
    handed to [onRecv_] and how it ended. *)
Fixpoint connLoop (rounds : nat) (inc : Incoming) : list Message * Ended :=
  match rounds with
  | O => ([], Stopped)
  | S rounds =>
      match readN 4 inc with
      | None => ([], Closed)
      | Some (lenBuf, inc) =>
          let msgLen := get_le 4 lenBuf in
          if (msgLen =? 0) || (max_frame <? msgLen) then ([], Closed)
          else
            match readN (Z.to_nat msgLen) inc with
            | None => ([], Closed)
            | Some (body, inc) =>
                match deserializeMessage body with
                | Refused => connLoop rounds inc
                | BadAlloc => ([], Terminated)
                | Decode m => let '(ms, e) := connLoop rounds inc in (m :: ms, e)
                end
            end
      end
  end.
End Decode.

(** ** Sending *)

Record RaftTransport := mkRaftTransport {
  rt_selfId : Z;
  rt_listenPort : Z;
  rt_peers : gmap Z PeerAddr;
  rt_running : bool;
  rt_conns : gmap (Z * Z) nat;
  rt_attempts : nat;               (* calls of [connect] *)
  rt_sends : nat;                  (* calls of [::send] *)
  rt_streams : gmap nat bytes;     (* bytes written to each socket *)
  rt_closed : gset nat;
}.

Definition new_RaftTransport (selfId listenPort : Z) : RaftTransport :=
  mkRaftTransport selfId listenPort ∅ false ∅ 0 0 ∅ ∅.

Definition setPeers (peers : gmap Z PeerAddr) (t : RaftTransport) : RaftTransport :=
  mkRaftTransport (rt_selfId t) (rt_listenPort t) peers (rt_running t) (rt_conns t) (rt_attempts t)
    (rt_sends t) (rt_streams t) (rt_closed t).

Definition set_conns (conns : gmap (Z * Z) nat) (closed : gset nat) (t : RaftTransport) : RaftTransport :=
  mkRaftTransport (rt_selfId t) (rt_listenPort t) (rt_peers t) (rt_running t) conns (rt_attempts t)
    (rt_sends t) (rt_streams t) closed.

Definition start (t : RaftTransport) : RaftTransport :=
  mkRaftTransport (rt_selfId t) (rt_listenPort t) (rt_peers t) true (rt_conns t) (rt_attempts t)
    (rt_sends t) (rt_streams t) (rt_closed t).

Definition stop (t : RaftTransport) : RaftTransport :=
  mkRaftTransport (rt_selfId t) (rt_listenPort t) (rt_peers t) false ∅ (rt_attempts t)
    (rt_sends t) (rt_streams t)
    (rt_closed t ∪ list_to_set (snd <$> map_to_list (rt_conns t))).

Definition isHeartbeat (t : MessageType) : bool :=
  match t with MsgHeartbeat | MsgHeartbeatResp => true | _ => false end.

Section Send.
Context `{!Network}.

Definition getOrCreateConn (to channel : Z) (t : RaftTransport) : option nat * RaftTransport :=
  match rt_conns t !! (to, channel) with
  | Some sock => (Some sock, t)
  | None =>
      match rt_peers t !! to with
      | None => (None, t)
      | Some addr =>
          let sock := rt_attempts t in
          let ok := net_connect sock (pa_host addr) (pa_port addr) in
          let conns := if ok then <[(to, channel) := sock]> (rt_conns t) else rt_conns t in
          let closed := if ok then rt_closed t else {[sock]} ∪ rt_closed t in
          (if ok then Some sock else None,
           mkRaftTransport (rt_selfId t) (rt_listenPort t) (rt_peers t) (rt_running t) conns
             (S sock) (rt_sends t) (<[sock := []]> (rt_streams t)) closed)
      end
  end.

Definition sendOnConn (sock : nat) (m : Message) (t : RaftTransport) : option (bool * RaftTransport) :=
  '(ok, written, k) ← writeAll (rt_sends t) (serializeMessage m);
  Some (ok, mkRaftTransport (rt_selfId t) (rt_listenPort t) (rt_peers t) (rt_running t) (rt_conns t)
              (rt_attempts t) k
              (<[sock := default [] (rt_streams t !! sock) ++ written]> (rt_streams t)) (rt_closed t)).

Definition send (m : Message) (t : RaftTransport) : option (bool * RaftTransport) :=
  let channel := if isHeartbeat (m_type m) then 1 else 0 in
  let '(sock, t) := getOrCreateConn (m_to m) channel t in
  match sock with
  | None => Some (false, set_conns (delete (m_to m, channel) (rt_conns t)) (rt_closed t) t)
  | Some sock =>
      '(ok, t) ← sendOnConn sock m t;
      if ok : bool then Some (true, t)
      else Some (false, set_conns (delete (m_to m, channel) (rt_conns t)) ({[sock]} ∪ rt_closed t) t)
  end.
End Send.

(** ** The encoding *)

Definition enc_head (m : Message) : bytes :=
  [mtype_to_u8 (m_type m)] ++ put_le 8 (m_to m) ++ put_le 8 (m_from m) ++ put_le 8 (m_term m)
  ++ put_le 8 (m_logTerm m) ++ put_le 8 (m_index m) ++ put_le 8 (m_commit m)
  ++ [if m_reject m then 1 else 0] ++ put_le 8 (m_rejectHint m)
  ++ put_le 4 (u32 (Z.of_nat (length (m_entries m)))).

Definition enc_tail (m : Message) : bytes :=
  enc_log (m_entries m) ++ put_le 8 (s_term (m_snapshot m)) ++ put_le 8 (s_index (m_snapshot m))
  ++ enc_str (s_data (m_snapshot m)) ++ enc_str (m_context m).

Definition enc_message (m : Message) : bytes := enc_head m ++ enc_tail m.

Definition message_typed (m : Message) : Prop :=
  is_u8 (mtype_to_u8 (m_type m)) /\ mtype_of_u8 (mtype_to_u8 (m_type m)) = m_type m
  /\ is_u64 (m_to m) /\ is_u64 (m_from m) /\ is_u64 (m_term m) /\ is_u64 (m_logTerm m)
  /\ is_u64 (m_index m) /\ is_u64 (m_commit m) /\ is_u64 (m_rejectHint m)
  /\ Forall entry_typed (m_entries m) /\ Z.of_nat (length (m_entries m)) < 2 ^ 32
  /\ is_u64 (s_term (m_snapshot m)) /\ is_u64 (s_index (m_snapshot m))
  /\ str_ok (s_data (m_snapshot m)) /\ str_ok (m_context m).

#[global] Instance entry_typed_dec e : Decision (entry_typed e).
Proof. unfold entry_typed, str_ok, bytes_ok. apply _. Defined.
#[global] Instance message_typed_dec m : Decision (message_typed m).
Proof. unfold message_typed, str_ok, bytes_ok. apply _. Defined.

Lemma append_entries_eq es : forall buf, foldl append_entry buf es = buf ++ enc_log es.
Proof. apply writeEntries_eq. Qed.

Lemma serializeMessage_eq m :
  serializeMessage m = put_le 4 (u32 (Z.of_nat (length (enc_message m)))) ++ enc_message m.
Proof.
  unfold serializeMessage, append_data. rewrite append_entries_eq.
  unfold enc_message, enc_head, enc_tail, enc_str, appendU8, appendU32, appendU64.
  simpl app. rewrite <- !app_assoc. done.
Qed.

Lemma enc_message_ok m : message_typed m -> bytes_ok (enc_message m).
Proof.
  intros (Ht & _ & _ & _ & _ & _ & _ & _ & _ & He & _ & _ & _ & [Hs _] & [Hc _]).
  unfold enc_message, enc_head, enc_tail, enc_str, bytes_ok. rewrite !Forall_app.
  repeat split; try apply put_le_ok; try done.
  - by apply Forall_singleton.
  - apply Forall_singleton. by destruct (m_reject m).
  - by apply enc_log_ok.
Qed.

Lemma read_entry_eq buf off : read_entry buf off = readEntry buf off.
Proof. rewrite readEntry_alt. done. Qed.

Lemma read_entries_enc es : forall buf off rest,
  bytes_ok buf -> Forall entry_typed es -> at_off buf off (enc_log es ++ rest) ->
  exists off', read_entries (length es) buf off = Some (es, off') /\ at_off buf off' rest.
Proof.
  induction es as [|e es IH]; intros buf off rest Hok He Hat; cbn [read_entries length].
  { by exists off. }
  apply Forall_cons in He as [He Hes]. rewrite enc_log_cons, <- app_assoc in Hat.
  destruct (codec_read readEntry enc_entry entry_typed buf off e _ Hok He Hat) as [E Hat'].
  rewrite read_entry_eq, E. cbn [mbind option_bind].
  destruct (IH buf _ rest Hok Hes Hat') as (off' & -> & Hat''). by exists off'.
Qed.

(** Evaluate one read of a goal: the codec, the value's range, where the
    encoding stands, and where the rest does. *)
Ltac read_field c T Hat Hat' :=
  let E := fresh in
  destruct (c _ _ _ _ ltac:(eassumption) T Hat) as [E Hat'];
  rewrite E; clear E Hat; cbn [mbind option_bind].

Section Decoding.
Context `{!Memory}.

Lemma read_head m buf rest :
  bytes_ok buf -> message_typed m -> at_off buf 0 (enc_head m ++ rest) ->
  exists off, at_off buf off rest
    /\ deserializeMessage buf =
       if max_entries <? Z.of_nat (length (m_entries m)) then BadAlloc
       else match
         '(entries, off) ← read_entries (length (m_entries m)) buf off;
         '(snapTerm, off) ← getU64 buf off;
         '(snapIndex, off) ← getU64 buf off;
         '(snapData, off) ← getStr buf off;
         '(context, off) ← getStr buf off;
         Some (mkMessage (m_type m) (m_to m) (m_from m) (m_term m) (m_logTerm m) (m_index m)
                 (m_commit m) (m_reject m) (m_rejectHint m) entries
                 (mkSnapshot snapTerm snapIndex snapData) context)
       with None => Refused | Some m => Decode m end.
Proof.
  intros Hok (T1 & T2 & T3 & T4 & T5 & T6 & T7 & T8 & T9 & _ & Hn & _) Hat.
  unfold enc_head in Hat. rewrite <- !app_assoc in Hat.
  assert (is_u8 (if m_reject m then 1 else 0)) as Tr by (by destruct (m_reject m)).
  rewrite u32_small in Hat by mach.
  assert (is_u32 (Z.of_nat (length (m_entries m)))) as Te by mach.
  unfold deserializeMessage, read_header. cbv zeta. change readU8 with getU8. change readU64 with getU64.
  change readU32 with getU32. change read_data with getStr.
  read_field (codec_read getU8 (fun v => [v]) is_u8) T1 Hat H1.
  read_field (codec_read getU64 _ is_u64) T3 H1 H2.
  read_field (codec_read getU64 _ is_u64) T4 H2 H1.
  read_field (codec_read getU64 _ is_u64) T5 H1 H2.
  read_field (codec_read getU64 _ is_u64) T6 H2 H1.
  read_field (codec_read getU64 _ is_u64) T7 H1 H2.
  read_field (codec_read getU64 _ is_u64) T8 H2 H1.
  read_field (codec_read getU8 (fun v => [v]) is_u8) Tr H1 H2.
  read_field (codec_read getU64 _ is_u64) T9 H2 H1.
  read_field (codec_read getU32 _ is_u32) Te H1 H2.
  cbn [mbind option_bind]. rewrite T2, Nat2Z.id. eexists. split; [exact H2|].
  destruct m as [? ? ? ? ? ? ? [] ? ? ? ?]; done.
Qed.

(** Decoding what was encoded. *)
Lemma deserialize_enc m :
  message_typed m -> Z.of_nat (length (m_entries m)) <= max_entries ->
  deserializeMessage (enc_message m) = Decode m.
Proof.
  intros Hm Hmax. pose proof (enc_message_ok m Hm) as Hok.
  destruct (read_head m (enc_message m) (enc_tail m) Hok Hm (at_off_0 _)) as (off & Hat & ->).
  replace (max_entries <? _) with false by lia.
  pose proof Hm as (_ & _ & _ & _ & _ & _ & _ & _ & _ & He & _ & U1 & U2 & U3 & U4).
  unfold enc_tail in Hat.
  destruct (read_entries_enc _ _ _ _ Hok He Hat) as (off' & -> & H1). cbn [mbind option_bind].
  read_field (codec_read getU64 _ is_u64) U1 H1 H2.
  read_field (codec_read getU64 _ is_u64) U2 H2 H1.
  read_field (codec_read getStr enc_str str_ok) U3 H1 H2.
  rewrite <- (app_nil_r (enc_str (m_context m))) in H2.
  read_field (codec_read getStr enc_str str_ok) U4 H2 H1. by destruct m as [? ? ? ? ? ? ? ? ? ? [] ?].
Qed.

(** ** Streams *)

(** A message the transport can carry: typed, within memory, and within
    the frame limit. *)
Definition carried (m : Message) : Prop :=
  message_typed m /\ Z.of_nat (length (m_entries m)) <= max_entries
  /\ Z.of_nat (length (enc_message m)) <= max_frame.

Lemma length_enc_message m : (1 <= length (enc_message m))%nat.
Proof. unfold enc_message, enc_head. simpl. lia. Qed.

(** One frame at the front of the stream. *)
Lemma connLoop_frame rounds m inc rest :
  live inc -> carried m -> concat inc = serializeMessage m ++ rest ->
  exists inc', live inc' /\ concat inc' = rest
    /\ connLoop (S rounds) inc
       = (let '(ms, e) := connLoop rounds inc' in (m :: ms, e)).
Proof.
  intros Hl (Ht & Hn & Hf) E. rewrite serializeMessage_eq, <- app_assoc in E.
  destruct (readN_app 4 inc _ _ Hl E (length_put_le _ _)) as (inc1 & E1 & Ec1 & Hl1).
  pose proof (length_enc_message m) as Hpos. unfold max_frame in Hf.
  assert (get_le 4 (put_le 4 (u32 (Z.of_nat (length (enc_message m)))))
          = Z.of_nat (length (enc_message m))) as Eg.
  { rewrite <- (app_nil_r (put_le 4 _)), get_put_le, u32_small by mach. apply Z.mod_small. lia. }
  destruct (readN_app (length (enc_message m)) inc1 _ _ Hl1 Ec1 eq_refl) as (inc2 & E2 & Ec2 & Hl2).
  exists inc2. split_and!; [done..|]. cbn [connLoop]. rewrite E1, Eg.
  replace (_ || _) with false by (unfold max_frame; lia).
  by rewrite Nat2Z.id, E2, deserialize_enc.
Qed.

(** A frame that was cut short ends the loop with nothing delivered. *)
Lemma connLoop_cut rounds m inc :
  live inc -> carried m -> concat inc `prefix_of` serializeMessage m ->
  (length (concat inc) < length (serializeMessage m))%nat ->
  connLoop (S rounds) inc = ([], Closed).
Proof.
  intros Hl (Ht & Hn & Hf) Hp Hlt. rewrite serializeMessage_eq in Hp, Hlt.
  rewrite length_app, length_put_le in Hlt. cbn [connLoop].
  destruct (decide (length (concat inc) < 4)%nat) as [Hs|Hs]; [by rewrite readN_short|].
  assert (exists bs, concat inc = put_le 4 (u32 (Z.of_nat (length (enc_message m)))) ++ bs
            /\ (length bs < length (enc_message m))%nat) as (bs & Eb & Hbs).
  { destruct Hp as [k Hk]. exists (drop 4 (concat inc)).
    rewrite length_drop. split; [|lia]. rewrite <- (take_drop 4 (concat inc)) at 1. f_equal.
    apply (f_equal (take 4)) in Hk. rewrite take_app_length' in Hk by (by rewrite length_put_le).
    rewrite take_app_le in Hk by lia. done. }
  destruct (readN_app 4 inc _ _ Hl Eb (length_put_le _ _)) as (inc1 & -> & Ec1 & Hl1).
  pose proof (length_enc_message m) as Hpos. unfold max_frame in Hf.
  rewrite <- (app_nil_r (put_le 4 _)), get_put_le, u32_small by mach.
  rewrite Z.mod_small by lia.
  replace (_ || _) with false by (unfold max_frame; lia).
  rewrite readN_short; [done|done|]. rewrite Ec1, Nat2Z.id. done.
Qed.

Definition frames (ms : list Message) : bytes := concat (serializeMessage <$> ms).

(** A stream of whole frames, then possibly a part of one more. *)
Lemma connLoop_stream ms : forall rounds inc part next,
  live inc -> Forall carried ms -> carried next -> concat inc = frames ms ++ part ->
  part `prefix_of` serializeMessage next -> (length part < length (serializeMessage next))%nat ->
  (length ms < rounds)%nat -> connLoop rounds inc = (ms, Closed).
Proof.
  induction ms as [|m ms IH]; intros [|rounds] inc part next Hl Hms Hnext E Hp Hpl Hr; simpl in Hr; try lia.
  - simpl in E. subst part. by apply (connLoop_cut rounds next).
  - apply Forall_cons in Hms as [Hm Hms]. unfold frames in E. cbn [fmap list_fmap concat] in E.
    rewrite <- app_assoc in E.
    destruct (connLoop_frame rounds m inc _ Hl Hm E) as (inc' & Hl' & Ec' & ->).
    rewrite (IH rounds inc' part next); try done. lia.
Qed.
End Decoding.

(** ** From [send] to [onRecv_] *)

Lemma frames_app ms1 ms2 : frames (ms1 ++ ms2) = frames ms1 ++ frames ms2.
Proof. unfold frames. by rewrite fmap_app, concat_app. Qed.

Lemma frames_one m : frames [m] = serializeMessage m.
Proof. apply app_nil_r. Qed.

Lemma length_serialize m : (4 < length (serializeMessage m))%nat.
Proof. rewrite serializeMessage_eq, length_app, length_put_le. pose proof (length_enc_message m). lia. Qed.

(** A cut of a stream of frames is a stream of fewer frames and a part. *)
Lemma frames_cut ms : forall part next bs,
  bs `prefix_of` frames ms ++ part ->
  part `prefix_of` serializeMessage next -> (length part < length (serializeMessage next))%nat ->
  exists k part' next', bs = frames (take k ms) ++ part' /\ next' ∈ next :: ms
    /\ part' `prefix_of` serializeMessage next' /\ (length part' < length (serializeMessage next'))%nat.
Proof.
  induction ms as [|m ms IH]; intros part next bs Hb Hp Hl.
  - exists 0%nat, bs, next. split_and!; [done|set_solver|by etransitivity|].
    apply prefix_length in Hb. simpl in Hb. lia.
  - unfold frames in Hb. cbn [fmap list_fmap concat] in Hb. rewrite <- app_assoc in Hb.
    destruct Hb as [k Hk]. apply app_eq_inv in Hk as [(x & Ex & _)|(x & -> & Ex)].
    + destruct x as [|y x].
      * exists 1%nat, [], next. rewrite app_nil_r in Ex. subst bs. unfold frames. simpl.
        rewrite !app_nil_r. split_and!; [done|set_solver|apply prefix_nil|lia].
      * exists 0%nat, bs, m. split_and!; [done|set_solver|by exists (y :: x)|].
        rewrite Ex, length_app. simpl. lia.
    + destruct (IH part next x) as (j & part' & next' & -> & H1 & H2); [by exists k|done..|].
      exists (S j), part', next'. split; [|split; [set_solver|done]].
      unfold frames. cbn [take fmap list_fmap concat]. by rewrite <- app_assoc.
Qed.

Section EndToEnd.
Context `{!Network} `{!NetworkLaws} `{!Memory}.

(** What each [send] of a sequence did: the socket it used, if any, and
    whether it succeeded. *)
Definition sent : Type := option nat * bool * Message.

Fixpoint send_all (ms : list Message) (t : RaftTransport) : option (list sent * RaftTransport) :=
  match ms with
  | [] => Some ([], t)
  | m :: ms =>
      let channel := if isHeartbeat (m_type m) then 1 else 0 in
      let sock := (getOrCreateConn (m_to m) channel t).1 in
      '(ok, t) ← send m t;
      '(log, t) ← send_all ms t;
      Some ((sock, ok, m) :: log, t)
  end.

(** The messages whose [send] succeeded on a socket, in order. *)
Definition accepted (sock : nat) (log : list sent) : list Message :=
  omap (fun e : sent => let '(s, ok, m) := e in
          if bool_decide (s = Some sock) && ok then Some m else None) log.

Lemma accepted_app sock log log' : accepted sock (log ++ log') = accepted sock log ++ accepted sock log'.
Proof. apply omap_app. Qed.

(** The streams hold the frames of the accepted messages; one that ends in
    part of a frame is no longer in the table. *)
Record streams_ok (log : list sent) (t : RaftTransport) : Prop := {
  so_bound sock : is_Some (rt_streams t !! sock) -> (sock < rt_attempts t)%nat;
  so_conns key sock : rt_conns t !! key = Some sock ->
    rt_streams t !! sock = Some (frames (accepted sock log));
  so_inj k1 k2 sock : rt_conns t !! k1 = Some sock -> rt_conns t !! k2 = Some sock -> k1 = k2;
  so_fresh sock : (rt_attempts t <= sock)%nat -> accepted sock log = [];
  so_streams sock bs : rt_streams t !! sock = Some bs ->
    exists part next, bs = frames (accepted sock log) ++ part /\ carried next
      /\ part `prefix_of` serializeMessage next /\ (length part < length (serializeMessage next))%nat;
  so_accepted sock : Forall carried (accepted sock log)
}.

Lemma streams_ok_snoc log t sock ok m :
  streams_ok log t -> (forall s, sock = Some s -> ok = true -> False) ->
  streams_ok (log ++ [(sock, ok, m)]) t.
Proof.
  intros Hs Hno.
  assert (forall s, accepted s (log ++ [(sock, ok, m)]) = accepted s log) as E.
  { intros s. rewrite accepted_app. unfold accepted at 2. simpl.
    destruct sock as [s'|]; [|by rewrite app_nil_r]. destruct ok; [by destruct (Hno s')|].
    rewrite andb_false_r. by rewrite app_nil_r. }
  destruct Hs as [F1 F2 F3 F4 F5 F6]. split; intros; rewrite ?E in *; eauto.
Qed.

Lemma streams_ok_delete log t key closed :
  streams_ok log t -> streams_ok log (set_conns (delete key (rt_conns t)) closed t).
Proof.
  intros [F1 F2 F3 F4 F5 F6]. split; simpl; try done.
  - intros k s Hk%lookup_delete_Some. by eapply F2, Hk.
  - intros k1 k2 s Hk1%lookup_delete_Some Hk2%lookup_delete_Some. by eapply F3; [apply Hk1|apply Hk2].
Qed.

Lemma streams_ok_record log t key sock closed :
  streams_ok log t -> rt_streams t !! sock = Some (frames (accepted sock log)) ->
  (forall k, rt_conns t !! k <> Some sock) ->
  streams_ok log (set_conns (<[key := sock]> (rt_conns t)) closed t).
Proof.
  intros [F1 F2 F3 F4 F5 F6] Hb Hno. split; simpl; try done.
  - intros k s [[<- <-]|[_ Hk]]%lookup_insert_Some; [done|by eapply F2].
  - intros k1 k2 s [[<- <-]|[_ Hk1]]%lookup_insert_Some [[<- E]|[_ Hk2]]%lookup_insert_Some; try done.
    + by destruct (Hno k2).
    + subst s. by destruct (Hno k1).
    + by eapply F3.
Qed.

(** A new socket, nothing written to it yet. *)
Definition opened (t : RaftTransport) : RaftTransport :=
  mkRaftTransport (rt_selfId t) (rt_listenPort t) (rt_peers t) (rt_running t) (rt_conns t)
    (S (rt_attempts t)) (rt_sends t) (<[rt_attempts t := []]> (rt_streams t)) (rt_closed t).

Lemma conns_bound log t k s : streams_ok log t -> rt_conns t !! k = Some s -> (s < rt_attempts t)%nat.
Proof. intros Hs Hk. apply (so_bound _ _ Hs). rewrite (so_conns _ _ Hs _ _ Hk). by eexists. Qed.

Lemma streams_ok_opened log t m0 : streams_ok log t -> carried m0 -> streams_ok log (opened t).
Proof.
  intros Hs Hm0. pose proof (conns_bound log t) as Hlt. destruct Hs as [F1 F2 F3 F4 F5 F6] eqn:Eq.
  clear Eq. assert (streams_ok log t) as Hs' by done. split; simpl; try done.
  - intros s [bs [[<- _]|[_ Hb]]%lookup_insert_Some]; [lia|].
    pose proof (F1 s ltac:(by eexists)). lia.
  - intros k s Hk. pose proof (Hlt _ _ Hs' Hk). rewrite lookup_insert_ne by lia. by eapply F2.
  - intros s Hge. apply F4. lia.
  - intros s bs [[<- <-]|[_ Hb]]%lookup_insert_Some; [|by eapply F5].
    exists [], m0. rewrite (F4 (rt_attempts t)) by lia.
    split_and!; [done|done|apply prefix_nil|]. pose proof (length_serialize m0). simpl. lia.
Qed.

(** Opening a connection, or failing to. *)
Lemma getOrCreateConn_ok log t to channel m0 :
  streams_ok log t -> carried m0 ->
  let '(sock, t') := getOrCreateConn to channel t in
  streams_ok log t' /\ forall s, sock = Some s -> rt_conns t' !! (to, channel) = Some s.
Proof.
  intros Hs Hm0. unfold getOrCreateConn.
  destruct (rt_conns t !! (to, channel)) as [s|] eqn:Ec; [split; [done|]; by intros ? [= <-]|].
  destruct (rt_peers t !! to) as [addr|]; [|done].
  pose proof (streams_ok_opened log t m0 Hs Hm0) as Ho.
  destruct (net_connect (rt_attempts t) (pa_host addr) (pa_port addr)).
  - split; [|intros s [= <-]; apply lookup_insert_eq].
    apply (streams_ok_record log (opened t) (to, channel) (rt_attempts t) (rt_closed t) Ho).
    + cbn [opened rt_streams]. rewrite lookup_insert_eq. by rewrite (so_fresh _ _ Hs).
    + intros k Hk. apply (conns_bound log t k _ Hs) in Hk. lia.
  - split; [|done]. by destruct Ho as [F1 F2 F3 F4 F5 F6]; split.
Qed.

(** Writing to a connection of the table: a whole frame, or a part of one
    after which the connection leaves the table. *)
Lemma sendOnConn_ok log t key sock m :
  streams_ok log t -> rt_conns t !! key = Some sock -> carried m ->
  exists ok t', sendOnConn sock m t = Some (ok, t') /\ rt_conns t' = rt_conns t
    /\ streams_ok (log ++ [(Some sock, ok, m)])
         (if ok : bool then t' else set_conns (delete key (rt_conns t')) ({[sock]} ∪ rt_closed t') t').
Proof.
  intros Hs Hk Hm. unfold sendOnConn.
  destruct (writeAll_spec (rt_sends t) (serializeMessage m)) as (ok & w & k' & -> & Hw).
  cbn [mbind option_bind]. eexists ok, _. split; [done|]. split; [done|].
  pose proof (so_conns _ _ Hs _ _ Hk) as Hb. rewrite Hb. cbn [default from_option id].
  pose proof (conns_bound _ _ _ _ Hs Hk) as Hlt.
  assert (forall s, accepted s (log ++ [(Some sock, ok, m)])
            = accepted s log ++ (if bool_decide (s = sock) && ok then [m] else [])) as Ea.
  { intros s. rewrite accepted_app. f_equal. unfold accepted. cbn [omap list_omap].
    rewrite (bool_decide_ext (Some sock = Some s) (s = sock)) by naive_solver. by destruct (_ && _). }
  destruct Hs as [F1 F2 F3 F4 F5 F6]. destruct ok; split; simpl; try done.
  - intros s [bs [[<- _]|[_ Hx]]%lookup_insert_Some]; [done|]. apply F1. by eexists.
  - intros k s Hk'. rewrite Ea, andb_true_r. case_bool_decide as E.
    + subst s. by rewrite lookup_insert_eq, frames_app, Hw, frames_one.
    + rewrite lookup_insert_ne, app_nil_r by done. by eapply F2.
  - intros s Hge. rewrite Ea, bool_decide_false by lia. by rewrite (F4 s Hge).
  - intros s bs [[<- <-]|[Hne Hx]]%lookup_insert_Some; rewrite Ea, andb_true_r.
    + rewrite bool_decide_true by done. exists [], m. rewrite frames_app, Hw, app_nil_r, frames_one.
      split_and!; [done|done|apply prefix_nil|pose proof (length_serialize m); simpl; lia].
    + rewrite bool_decide_false, app_nil_r by done. by eapply F5.
  - intros s. rewrite Ea. apply Forall_app. split; [done|]. destruct (_ && _); [|done]. by constructor.
  - intros s [bs [[<- _]|[_ Hx]]%lookup_insert_Some]; [done|]. apply F1. by eexists.
  - intros k s Hk'%lookup_delete_Some. destruct Hk' as [Hne Hk']. rewrite Ea, andb_false_r, app_nil_r.
    rewrite lookup_insert_ne; [by eapply F2|]. intros <-. by destruct (Hne (F3 _ _ _ Hk Hk')).
  - intros k1 k2 s Hk1%lookup_delete_Some Hk2%lookup_delete_Some. by eapply F3; [apply Hk1|apply Hk2].
  - intros s Hge. rewrite Ea, andb_false_r. by rewrite (F4 s Hge).
  - intros s bs [[<- <-]|[Hne Hx]]%lookup_insert_Some; rewrite Ea, andb_false_r, app_nil_r; [|by eapply F5].
    exists w, m. done.
  - intros s. rewrite Ea, andb_false_r, app_nil_r. done.
Qed.

Lemma send_ok log t m :
  streams_ok log t -> carried m ->
  let channel := if isHeartbeat (m_type m) then 1 else 0 in
  exists ok t', send m t = Some (ok, t')
    /\ streams_ok (log ++ [((getOrCreateConn (m_to m) channel t).1, ok, m)]) t'.
Proof.
  intros Hs Hm channel. unfold send. fold channel.
  pose proof (getOrCreateConn_ok log t (m_to m) channel m Hs Hm) as Hg.
  destruct (getOrCreateConn (m_to m) channel t) as [[sock|] t1]; destruct Hg as [Hs1 Hk].
  - destruct (sendOnConn_ok log t1 (m_to m, channel) sock m Hs1 (Hk _ eq_refl) Hm)
      as (ok & t2 & -> & Ec & Hs2). cbn [mbind option_bind].
    exists ok. destruct ok; eexists; (split; [done|]); exact Hs2.
  - eexists false, _. split; [done|]. apply streams_ok_snoc; [|done]. by apply streams_ok_delete.
Qed.

Lemma send_all_ok ms : forall log t,
  streams_ok log t -> Forall carried ms ->
  exists log' t', send_all ms t = Some (log', t') /\ log'.*2 = ms /\ streams_ok (log ++ log') t'.
Proof.
  induction ms as [|m ms IH]; intros log t Hs Hms; cbn [send_all].
  { exists [], t. by rewrite app_nil_r. }
  apply Forall_cons in Hms as [Hm Hms]. destruct (send_ok log t m Hs Hm) as (ok & t1 & -> & Hs1).
  cbn [mbind option_bind]. destruct (IH _ _ Hs1 Hms) as (log' & t' & -> & El & Hs').
  cbn [mbind option_bind]. eexists _, t'. split; [done|]. rewrite <- app_assoc in Hs'.
  split; [|exact Hs']. cbn [fmap list_fmap snd]. by rewrite El.
Qed.

Lemma streams_ok_new id port peers : streams_ok [] (setPeers peers (new_RaftTransport id port)).
Proof.
  split; simpl; try done; intros;
    repeat match goal with X : context [∅ !! _] |- _ => rewrite lookup_empty in X end;
    by destruct_or?; naive_solver.
Qed.

(** C13. The transport delivers what it accepted.  Take messages that can be
    carried, well typed, with a frame of at most 16 MiB and no more entries
    than the receiver's memory holds, sent one after the other.  For every
    network that accepts or refuses connections and writes as it likes, every
    sequence of sends ends, and on each socket the receiver, however the
    stream is cut into segments, delivers exactly the messages whose send on
    it succeeded, once each and in order; if only a prefix of the stream
    arrives, it delivers a prefix of them.  A send that failed half-way is
    never delivered, not even as part of a later message. *)
Theorem transport_delivers id port peers ms :
  Forall carried ms ->
  exists log t, send_all ms (setPeers peers (new_RaftTransport id port)) = Some (log, t)
    /\ log.*2 = ms
    /\ forall sock bs inc rounds,
         rt_streams t !! sock = Some bs -> live inc -> concat inc `prefix_of` bs ->
         (length (accepted sock log) < rounds)%nat ->
         exists k, connLoop rounds inc = (take k (accepted sock log), Closed)
           /\ (concat inc = bs -> take k (accepted sock log) = accepted sock log).
Proof.
  intros Hms. destruct (send_all_ok ms [] _ (streams_ok_new id port peers) Hms)
    as (log & t & E & El & Hs). exists log, t. split_and!; [done..|].
  intros sock bs inc rounds Hb Hl Hp Hr.
  destruct (so_streams _ _ Hs _ _ Hb) as (part & next & -> & Hn & Hpp & Hpl). simpl in *.
  pose proof (so_accepted _ _ Hs sock) as Ha. simpl in Ha.
  destruct (decide (concat inc = frames (accepted sock log) ++ part)) as [Ei|Ei].
  - exists (length (accepted sock log)). rewrite firstn_all. split; [|done].
    by apply (connLoop_stream _ rounds inc part next).
  - destruct (frames_cut _ _ _ _ Hp Hpp Hpl) as (k & part' & next' & Ec & Hin & H1' & H2').
    exists k. split; [|done]. apply (connLoop_stream _ rounds inc part' next'); try done.
    + by apply Forall_take.
    + apply elem_of_cons in Hin as [->|Hin]; [done|]. rewrite Forall_forall in Ha. by apply Ha.
    + rewrite length_take. lia.
Qed.
End EndToEnd.

(** ** Limits *)

Section Limits.
Context `{!Memory}.

(** A message beyond the frame limit ends the connection at the receiver,
    with everything behind it, although its [send] succeeds. *)
Lemma oversized_closes rounds m inc rest :
  live inc -> concat inc = serializeMessage m ++ rest ->
  max_frame < Z.of_nat (length (enc_message m)) < 2 ^ 32 ->
  connLoop (S rounds) inc = ([], Closed).
Proof.
  intros Hl E Hm. rewrite serializeMessage_eq, <- app_assoc in E.
  destruct (readN_app 4 inc _ _ Hl E (length_put_le _ _)) as (inc1 & E1 & _).
  cbn [connLoop]. rewrite E1. unfold max_frame in *.
  rewrite <- (app_nil_r (put_le 4 _)), get_put_le, u32_small by mach.
  rewrite Z.mod_small by lia. by replace (_ || _) with true by lia.
Qed.

(** The head of a message that announces 2^32 - 1 entries, framed. *)
Definition greedy_frame : bytes := put_le 4 62 ++ replicate 58 0 ++ put_le 4 (2 ^ 32 - 1).

(** The decoder makes room for the announced number of entries before
    it looks for them: a frame of 66 bytes that announces 2^32 - 1 entries
    ends the receiving process, unless memory holds that many. *)
Theorem greedy_frame_terminates rounds inc rest :
  live inc -> concat inc = greedy_frame ++ rest -> max_entries < 2 ^ 32 - 1 ->
  connLoop (S rounds) inc = ([], Terminated).
Proof.
  intros Hl E Hmem. unfold greedy_frame in E. rewrite <- app_assoc in E.
  destruct (readN_app 4 inc _ _ Hl E (length_put_le _ _)) as (inc1 & E1 & Ec1 & Hl1).
  destruct (readN_app 62 inc1 _ _ Hl1 Ec1 eq_refl) as (inc2 & E2 & _).
  cbn [connLoop]. rewrite E1. change (get_le 4 (put_le 4 62)) with 62. cbv iota.
  change (Z.to_nat 62) with 62%nat. rewrite E2.
  assert (exists m off, read_header (replicate 58 0 ++ put_le 4 (2 ^ 32 - 1)) = Some (m, 2 ^ 32 - 1, off))
    as (m & off & Eh) by (eexists _, _; vm_compute; reflexivity).
  unfold deserializeMessage. rewrite Eh. by replace (max_entries <? 2 ^ 32 - 1) with true by lia.
Qed.
End Limits.

(** ** Witnesses *)

(** A network whose sixth call of [send] fails and which accepts at most 40
    bytes at a time. *)
Definition demo_net : Network := {|
  net_connect := fun _ _ _ => true;
  net_send := fun k n => if (k =? 5)%nat then None else Some (Nat.min n 40)
|}.
Lemma demo_net_laws : @NetworkLaws demo_net.
Proof. intros k n s Hn. simpl. destruct (k =? 5)%nat; [done|]. intros [= <-]. lia. Qed.

Definition demo_mem : Memory := {| max_entries := 2 ^ 20 |}.

Definition demo_messages : list Message :=
  [mkMessage MsgApp 2 1 3 2 7 6 false 0 [mkEntry 3 8 Normal [1; 2; 3]] empty_snapshot [];
   message MsgVote 2 1 4; message MsgHeartbeat 2 1 4; message MsgApp 2 1 4].

Lemma transport_delivers_witness :
  exists log t, @send_all demo_net demo_messages
      (setPeers {[2 := mkPeerAddr [] 9998]} (new_RaftTransport 1 9999)) = Some (log, t)
    /\ log.*2 = demo_messages
    /\ (exists bs, rt_streams t !! 0%nat = Some bs
         /\ @connLoop demo_mem 9 [bs] = (accepted 0 log, Closed)).
Proof.
  destruct (@transport_delivers demo_net demo_net_laws demo_mem 1 9999
              {[2 := mkPeerAddr [] 9998]} demo_messages) as (log & t & E & El & Hd).
  { apply (bool_decide_unpack _). vm_compute. exact I. }
  exists log, t. split; [exact E|]. split; [exact El|].
  assert (exists bs, rt_streams t !! 0%nat = Some bs /\ bs <> [] /\ (length (accepted 0 log) < 9)%nat)
    as (bs & Eb & Hne & Hr).
  { vm_compute in E. injection E as <- <-. eexists. split_and!; [vm_compute; reflexivity|done|].
    vm_compute. lia. }
  exists bs. split; [exact Eb|].
  assert (live [bs]) as Hl by (by constructor).
  assert (concat [bs] `prefix_of` bs) as Hp by (simpl; by rewrite app_nil_r).
  destruct (Hd 0%nat bs [bs] 9%nat Eb Hl Hp Hr) as (k & -> & Hk).
  f_equal. apply Hk, app_nil_r.
Defined.

Lemma greedy_frame_terminates_witness :
  @connLoop demo_mem 1 [take 30 greedy_frame; drop 30 greedy_frame] = ([], Terminated).
Proof.
  apply (@greedy_frame_terminates demo_mem 0 [take 30 greedy_frame; drop 30 greedy_frame] []).
  - apply (bool_decide_unpack _). vm_compute. exact I.
  - reflexivity.
  - reflexivity.
Defined.
