(* ===== verification/RaftLogTheorems.v ===== *)
(** * Properties of the raft log and its storage

    The log's operations against its view as one list, for any storage that
    keeps the [Storage] contract; the write-ahead log as such a storage,
    with recovery; and the composition of the two in the persist-then-
    acknowledge cycle. *)

From S2P Require Import Prelude RaftTypes LogUnstable RaftLog OrderProtocol WriteAheadLog.

Section RaftLogTheorems.
Context `{!Platform} {St : Type} `{!Storage St} `{!StorageLaws St}.
Implicit Types (st : St) (l : RaftLog).

(** Slices.  Inside the log, [slice] returns a non-empty prefix of the
    requested entries, all of them when no size limit is given; outside it
    throws.  The hypothesis [synced] holds from the first append on. *)
Theorem raftlog_slice_correct st l lo hi mx :
  raftlog_ok st l -> synced st l -> lo < hi -> hi < 2 ^ 63 ->
  if decide (log_first st l <= lo /\ hi <= log_last st l + 1) then
    let wanted := log_slice (log_first st l) lo hi (log_list st l) in
    exists k, slice st l lo hi mx = Some (take (S k) wanted)
      /\ length wanted = Z.to_nat (hi - lo)
      /\ (mx = noLimit -> take (S k) wanted = wanted)
  else slice st l lo hi mx = None.
Proof.
  intros Hok Hsync Hlt Hhi. case_decide as Hin.
  - destruct Hin as [H1 H2]. destruct (slice_eq st l Hok lo hi mx) as (k & E & Hk); [done..|].
    exists k. split_and!; [done| |done]. apply length_log_slice; unfold log_last in *; lia.
  - apply slice_out; [done..|]. lia.
Qed.

(** C14. The follower's append, at a previous index at or above the start of
    the log, on a log whose storage holds nothing beyond its end.  It is
    refused exactly when the term at the previous index differs, which
    includes a previous index beyond the end, and then changes nothing.
    Accepted entries that agree with the committed part are in the log
    afterwards, each at its index, in place of anything that conflicted with
    them, and the log up to the previous index is untouched.  Accepted entries
    that conflict with the committed part are not written: the log keeps its
    entries. *)
Theorem raftlog_maybeAppend_correct st l prev prevTerm lc ents :
  raftlog_ok st l -> no_stale st l ->
  log_first st l - 1 <= prev -> (prev <= log_last st l \/ 1 <= prevTerm) -> contiguous (prev + 1) ents ->
  prev + Z.of_nat (length ents) < 2 ^ 62 -> Forall (fun e => 1 <= e_term e) ents ->
  0 <= rl_committed l < 2 ^ 63 ->
  if decide (term_at st l prev = prevTerm) then
    exists l', maybeAppend st l prev prevTerm lc ents = Some (true, l')
      /\ rl_committed l' = (if rl_committed l <? lc
                            then Z.min lc (prev + Z.of_nat (length ents)) else rl_committed l)
      /\ rl_applied l' = rl_applied l
      /\ ((forall k e, ents !! k = Some e -> prev + 1 + Z.of_nat k <= rl_committed l ->
             term_at st l (prev + 1 + Z.of_nat k) = e_term e) ->
          appended st l l' prev ents)
      /\ (forall k e, ents !! k = Some e -> prev + 1 + Z.of_nat k <= rl_committed l ->
             term_at st l (prev + 1 + Z.of_nat k) <> e_term e -> log_list st l' = log_list st l)
  else maybeAppend st l prev prevTerm lc ents = Some (false, l).
Proof.
  intros Hok Hns Hp Hend Hc Hb Hpos Hcom. destruct (decide (prev <= log_last st l)) as [Hin|Hout].
  - pose proof (maybeAppend_spec st l prev ents Hok Hns (conj Hp Hin) Hc Hb Hpos prevTerm lc Hcom) as Hs.
    case_decide as Ht; [|done]. destruct Hs as (l' & E & Hcl & Ha & Happ). exists l'. split_and!; [done..|].
    intros k e Hk Hle Hne.
    rewrite (maybeAppend_committed_conflict st l prev ents Hok Hns (conj Hp Hin) Hc Hb Hpos
               prevTerm lc k e Hcom Ht Hk Hle Hne) in E.
    injection E as <-. by destruct (_ <? _).
  - destruct Hend as [?|Ht]; [lia|]. pose proof (term_at_beyond st l Hok prev ltac:(lia)) as E0.
    rewrite decide_False by lia. unfold maybeAppend. rewrite term_any by (done || lia).
    cbn [mbind option_bind]. rewrite E0. by rewrite (proj2 (Z.eqb_neq _ _)) by lia.
Qed.


(** A log built on storage that already has entries answers every
    slice with nothing until something is appended: its offset starts at 0
    and not behind the stored entries, so after a restart neither
    replication nor application sees them. *)
Theorem raftlog_fresh_slice_empty st lo hi mx :
  st_ok st ->
  st_firstIndex st <= lo -> lo < hi -> hi <= st_lastIndex st + 1 ->
  slice st (new_RaftLog st) lo hi mx = Some [].
Proof.
  intros Hst Hlo Hlt Hhi. pose proof (st_first_range _ Hst). pose proof (st_last_range _ Hst).
  assert (rl_unstable (new_RaftLog st) = new_LogUnstable) as Hu.
  { unfold new_RaftLog. by destruct (_ <? _). }
  unfold slice, RaftLog.firstIndex, RaftLog.lastIndex. rewrite Hu. simpl.
  rewrite (proj2 (Z.leb_gt hi lo)), (proj2 (Z.ltb_ge lo (st_firstIndex st))) by lia.
  rewrite (u64_small (st_lastIndex st + 1)) by mach.
  rewrite (proj2 (Z.ltb_ge (st_lastIndex st + 1) hi)) by lia.
  rewrite (proj2 (Z.ltb_ge lo 0)), (proj2 (Z.ltb_lt 0 hi)) by lia.
  unfold u_slice. simpl. rewrite drop_nil, take_nil. by destruct (_ || _).
Qed.
End RaftLogTheorems.

(** ** The write-ahead log *)

(** C15. Crash recovery.  After any prefix of log.bin has reached the disk,
    reopening finds the saved hard state and configuration, and exactly the
    entries whose records are whole, in order; an untorn file gives back the
    whole log. *)
Theorem wal_crash_recovery w hs cs n :
  wal_ok w -> w_snapIndex w = 0 ->
  is_u64 (hs_term hs) -> is_u64 (hs_vote hs) -> is_u64 (hs_commit hs) ->
  Forall is_u64 (cs_nodes cs) -> Forall is_u64 (cs_learners cs) ->
  Z.of_nat (length (cs_nodes cs)) < 2 ^ 32 -> Z.of_nat (length (cs_learners cs)) < 2 ^ 32 ->
  let w1 := saveConfState (saveHardState w hs) cs in
  let w2 := new_WriteAheadLog (take n (w_logFile w1)) (w_hsFile w1) (w_csFile w1) in
  initialState w2 = mkInitialState hs cs
  /\ exists k, w_log w2 = take k (w_log w)
     /\ (length (enc_log (take k (w_log w))) <= n)%nat
     /\ ((k < length (w_log w))%nat -> (n < length (enc_log (take (S k) (w_log w))))%nat).
Proof.
  intros Hw Hs H1 H2 H3 H4 H5 H6 H7 w1 w2. split.
  - unfold initialState, w2. simpl. by rewrite readHardState_write, readConfState_write.
  - destruct Hw as (_ & _ & Hc & Ht & Hf). rewrite Hs in Hc.
    destruct (replay_torn (w_log w) n Ht Hc) as (k & Hk & E & Hn1 & Hn2).
    exists k. split_and!; [|done|done]. unfold w_log at 1, w2. simpl. rewrite Hf, E. done.
Qed.

(** Writing the unstable entries and marking them stable. *)
Lemma persist_cycle `{!Platform} (w : WriteAheadLog) (l : RaftLog) t :
  raftlog_ok w l -> u_snapshot (rl_unstable l) = None -> unstableEntries l <> [] ->
  Forall entry_typed (unstableEntries l) -> RaftLog.lastIndex w l < 2 ^ 62 - 1 ->
  let i := RaftLog.lastIndex w l in
  let w' := append w (unstableEntries l) in
  let l' := stableTo l i t in
  raftlog_ok w' l' /\ synced w' l' /\ log_first w' l' = log_first w l
  /\ log_list w' l' = log_list w l /\ st_log w' = log_list w l /\ unstableEntries l' = []
  /\ u_snapshot (rl_unstable l') = None /\ wal_ok w'.
Proof.
  intros Hok Hsn Hne Ht Hlast i w' l'. rewrite lastIndex_eq in Hlast by done.
  unfold l'. clear l'. replace i with (log_last w l) by (symmetry; by apply lastIndex_eq). clear i.
  pose proof (unstable_last _ _ Hok Hne) as Hul. pose proof Hok as (Hw & Hu & Hov).
  specialize (Hov Hsn Hne). unfold unstableEntries in *. set (u := rl_unstable l) in *.
  destruct (u_entries u) as [|e es] eqn:E; [done|]. destruct Hu as (Hc & Ho & Hb & _).
  rewrite E in *. assert (e_index e = u_offset u) as Hidx by by apply contiguous_cons in Hc as [? _].
  simpl in Hw, Hov. pose proof (length_w_log w Hw) as Hlen.
  rewrite w_firstIndex, w_lastIndex in Hov by done. unfold u_size in *. rewrite E in *.
  destruct (append_spec w e es) as (Hw' & Hs' & Hl');
    [done|by rewrite Hidx|done|lia|lia|]. fold w' in Hw', Hs', Hl'.
  assert (w_log w' = log_list w l) as Hll.
  { rewrite Hl', Hidx. unfold log_list. fold u. rewrite Hsn, E. simpl. by rewrite w_firstIndex. }
  assert (length (log_list w l) = Z.to_nat (log_last w l + 1 - (w_snapIndex w + 1))) as HlenL.
  { unfold log_last, log_first. fold u. rewrite Hsn. simpl. rewrite w_firstIndex by done. lia. }
  destruct (stableTo_spec w w' l (log_last w l) t) as (Hok' & Hf' & HL' & Hsync).
  - done.
  - done.
  - fold u. by rewrite E.
  - fold u. cbn [length] in Hul. lia.
  - lia.
  - done.
  - simpl. by rewrite !w_firstIndex, Hs' by done.
  - simpl. rewrite Hll, w_firstIndex by done. rewrite take_ge by lia. done.
  - assert (unstableEntries (stableTo l (log_last w l) t) = []
      /\ u_snapshot (rl_unstable (stableTo l (log_last w l) t)) = None) as [? ?]; [|by split_and!].
    unfold unstableEntries, stableTo. cbn [rl_unstable set_unstable].
    fold u. unfold u_stableTo. rewrite Hsn, E. cbn [length] in Hul.
    rewrite (proj2 (Z.ltb_ge _ _)) by lia. cbn [u_entries].
    rewrite (u64_small (log_last w l + 1)) by mach. rewrite u64_small by mach.
    unfold u_size. rewrite E. by rewrite (proj2 (Z.leb_le _ _)) by (cbn [length]; lia).
Qed.

(** C20. Persisting a Ready: writing the unstable entries to the write-ahead
    log and marking them stable leaves the raft log's contents as they were,
    moves all of them to storage, and re-establishes the log's invariant
    with nothing unstable. *)
Theorem ready_persist_cycle `{!Platform} (w : WriteAheadLog) (l : RaftLog) t :
  raftlog_ok w l -> u_snapshot (rl_unstable l) = None -> unstableEntries l <> [] ->
  Forall entry_typed (unstableEntries l) -> RaftLog.lastIndex w l < 2 ^ 62 - 1 ->
  let i := RaftLog.lastIndex w l in
  let w' := append w (unstableEntries l) in
  let l' := stableTo l i t in
  raftlog_ok w' l' /\ synced w' l' /\ log_first w' l' = log_first w l
  /\ log_list w' l' = log_list w l /\ st_log w' = log_list w l /\ unstableEntries l' = [].
Proof.
  intros. destruct (persist_cycle w l t) as (? & ? & ? & ? & ? & ? & _); [done..|]. by split_and!.
Qed.

(** Installing a snapshot in the write-ahead log drops every entry above
    the snapshot's index, which the comment says are kept, and keeps in the
    file those below it; with an index beyond the log it writes outside the
    array. *)
Theorem wal_snapshot_drops_tail w snap :
  wal_ok w -> 0 <= s_index snap < 2 ^ 62 ->
  if decide (s_index snap < w_size w) then
    exists w', applySnapshot w snap = Some w'
      /\ lastIndex w' = s_index snap /\ firstIndex w' = s_index snap + 1 /\ w_log w' = []
  else applySnapshot w snap = None.
Proof.
  intros Hw Hs. pose proof Hw as (_ & Hb & _). unfold applySnapshot, w_size in *. case_decide as Hlt.
  - rewrite (proj2 (Z.ltb_lt _ _) Hlt). unfold resize_entries.
    replace (S (Z.to_nat (s_index snap)) - length (w_entries w))%nat with 0%nat by lia.
    simpl replicate. rewrite app_nil_r.
    assert (length (take (S (Z.to_nat (s_index snap))) (w_entries w)) = S (Z.to_nat (s_index snap)))
      as Hlen by (rewrite length_take; lia).
    rewrite bool_decide_eq_true_2 by lia. eexists. split; [done|].
    unfold lastIndex, firstIndex, w_log, w_size. cbn [w_entries w_snapIndex rewrite_log set_log].
    rewrite length_insert, Hlen. split_and!.
    + rewrite u64_small by mach. lia.
    + apply u64_small. mach.
    + apply drop_ge. rewrite length_insert, Hlen. lia.
  - rewrite (proj2 (Z.ltb_ge _ _)) by lia. by rewrite bool_decide_eq_false_2 by lia.
Qed.

(** ** Concrete logs *)

#[local] Instance sample_platform : Platform := {|
  sizeof_Entry := 48; sizeof_Entry_pos := conj eq_refl eq_refl |}.

Definition ent (t i : Z) : Entry := mkEntry t i Normal [].

(** Five persisted entries of term 1. *)
Definition sample_wal : WriteAheadLog :=
  append (new_WriteAheadLog [] None None) [ent 1 1; ent 1 2; ent 1 3; ent 1 4; ent 1 5].

Lemma ent_typed t i : is_u64 t -> is_u64 i -> entry_typed (ent t i).
Proof. intros. split_and!; try done. split; [constructor|by vm_compute]. Qed.

Lemma fresh_wal_ok : wal_ok (new_WriteAheadLog [] None None).
Proof.
  split; [split; [done|reflexivity]|]. split; [reflexivity|].
  split; [apply contiguous_nil|]. split; [constructor|reflexivity].
Qed.

Lemma sample_wal_ok : wal_ok sample_wal.
Proof.
  apply (append_spec (new_WriteAheadLog [] None None) (ent 1 1) [ent 1 2; ent 1 3; ent 1 4; ent 1 5]).
  - exact fresh_wal_ok.
  - by rewrite !contiguous_cons.
  - repeat (constructor; [by apply ent_typed|]). constructor.
  - by vm_compute.
  - by vm_compute.
Qed.

(** Two unstable entries of term 2 above them; four of five committed entries
    applied. *)
Definition sample_raftlog : RaftLog := mkRaftLog (mkUnstable [ent 2 6; ent 2 7] 6 None) 5 4.

Lemma sample_raftlog_ok : raftlog_ok sample_wal sample_raftlog.
Proof.
  split_and!; [exact sample_wal_ok| |by vm_compute].
  split; [change (contiguous 6 [ent 2 6; ent 2 7]); by rewrite !contiguous_cons|].
  split; [by vm_compute|]. split; [by vm_compute|done].
Qed.

Lemma sample_synced : synced sample_wal sample_raftlog.
Proof. done. Qed.

(** What half a record does.  [log.bin] ends with a torn record (four of the
    25 bytes of its data reached the disk): the replay ignores the bytes but
    leaves them in the file, so that the next record is written behind them.
    The entry of term 2 is there as long as the process lives; after the next
    restart the old entry of term 1 is back in its place, its data filled up
    with the bytes of the new record. *)
Definition torn_wal : WriteAheadLog :=
  let w := append (new_WriteAheadLog [] None None) [ent 1 1; mkEntry 1 2 Normal (replicate 25 65)] in
  new_WriteAheadLog (take 46 (w_logFile w)) None None.

Theorem torn_record_poisons_log :
  let w := append torn_wal [ent 2 2] in
  w_log torn_wal = [ent 1 1] /\ w_log w = [ent 1 1; ent 2 2]
  /\ w_log (reopen w) = [ent 1 1; mkEntry 1 2 Normal (replicate 4 65 ++ enc_entry (ent 2 2))].
Proof. split_and!; vm_compute; reflexivity. Qed.

(** Three ways [maybeAppend] can go wrong on logs that arise in
    operation.  A commit index above the message's last entry moves the
    follower's commit index down, below what is applied; a conflict in the
    committed part is answered with success although nothing is written; and
    while storage still holds entries that were replaced, an append beyond
    the end of the log is accepted and the replaced entries come back. *)
Theorem maybeAppend_hazards :
  let committed5 := mkRaftLog new_LogUnstable 5 5 in
  let replaced3 := mkRaftLog (mkUnstable [ent 2 3] 3 None) 2 2 in
  maybeAppend sample_wal committed5 2 1 6 [ent 1 3] = Some (true, mkRaftLog new_LogUnstable 3 5)
  /\ (maybeAppend sample_wal committed5 2 1 0 [ent 2 3] = Some (true, committed5)
      /\ RaftLog.term sample_wal committed5 3 = Some 1)
  /\ (RaftLog.lastIndex sample_wal replaced3 = 3
      /\ exists l', maybeAppend sample_wal replaced3 5 1 2 [ent 3 6] = Some (true, l')
         /\ RaftLog.term sample_wal replaced3 3 = Some 2 /\ RaftLog.term sample_wal l' 3 = Some 1).
Proof.
  split; [vm_compute; reflexivity|]. split; [split; vm_compute; reflexivity|].
  split; [vm_compute; reflexivity|].
  eexists. split; [vm_compute; reflexivity|]. split; vm_compute; reflexivity.
Qed.

(** ** Witnesses *)

Lemma raftlog_slice_correct_witness :
  exists k, slice sample_wal sample_raftlog 4 8 96 = Some (take (S k) [ent 1 4; ent 1 5; ent 2 6; ent 2 7]).
Proof.
  pose proof (raftlog_slice_correct sample_wal sample_raftlog 4 8 96 sample_raftlog_ok sample_synced
    ltac:(lia) ltac:(lia)) as H.
  rewrite decide_True in H by (split; vm_compute; congruence). destruct H as (k & E & _).
  exists k. etransitivity; [exact E|]. do 2 f_equal; vm_compute; reflexivity.
Defined.

Lemma raftlog_maybeAppend_correct_witness :
  exists l', maybeAppend sample_wal sample_raftlog 6 2 7 [ent 3 7; ent 3 8] = Some (true, l')
    /\ rl_committed l' = 7
    /\ exists e, log_lookup 1 7 (log_list sample_wal l') = Some e /\ e_term e = 3.
Proof.
  pose proof (raftlog_maybeAppend_correct sample_wal sample_raftlog 6 2 7 [ent 3 7; ent 3 8]
    sample_raftlog_ok) as H.
  rewrite decide_True in H by (vm_compute; reflexivity).
  destruct H as (l' & E & Hc & _ & Happ & _).
  - by vm_compute.
  - by vm_compute.
  - by right.
  - by rewrite !contiguous_cons.
  - by vm_compute.
  - by repeat constructor.
  - by vm_compute.
  - exists l'. split; [exact E|]. split; [rewrite Hc; vm_compute; reflexivity|].
    destruct Happ as (_ & _ & _ & Hin).
    + intros k e Hk Hle. change (rl_committed sample_raftlog) with 5 in Hle. lia.
    + destruct (Hin 0%nat (ent 3 7) eq_refl) as (e & He & Ht & _).
      exists e. split; [exact He|exact Ht].
Defined.


Lemma raftlog_fresh_slice_empty_witness :
  slice sample_wal (new_RaftLog sample_wal) 1 6 noLimit = Some [].
Proof.
  apply (raftlog_fresh_slice_empty (St := WriteAheadLog) sample_wal 1 6 noLimit);
    [exact sample_wal_ok|by vm_compute..].
Defined.

Lemma wal_crash_recovery_witness :
  exists k, w_log (new_WriteAheadLog (take 50 (w_logFile sample_wal)) None None)
            = take k (w_log sample_wal) /\ (k <= 2)%nat.
Proof.
  destruct (wal_crash_recovery sample_wal (mkHardState 1 2 3) (mkConfState [1; 2] []) 50)
    as (_ & k & E & Hn & _).
  - exact sample_wal_ok.
  - reflexivity.
  - by vm_compute.
  - by vm_compute.
  - by vm_compute.
  - repeat (constructor; [by vm_compute|]). constructor.
  - constructor.
  - by vm_compute.
  - by vm_compute.
  - exists k. split; [exact E|]. destruct (decide (k <= 2)%nat) as [|Hk]; [done|]. exfalso.
    destruct k as [|[|[|k]]]; [lia..|]. clear E. simpl take in Hn.
    rewrite !enc_log_cons, !length_app in Hn.
    pose proof (length_enc_entry (ent 1 1)). pose proof (length_enc_entry (ent 1 2)).
    pose proof (length_enc_entry (ent 1 3)). lia.
Defined.

Lemma ready_persist_cycle_witness :
  let w' := append sample_wal [ent 2 6; ent 2 7] in
  w_log w' = [ent 1 1; ent 1 2; ent 1 3; ent 1 4; ent 1 5; ent 2 6; ent 2 7]
  /\ unstableEntries (stableTo sample_raftlog 7 2) = [].
Proof.
  destruct (ready_persist_cycle sample_wal sample_raftlog 2 sample_raftlog_ok)
    as (_ & _ & _ & _ & H1 & H2).
  - reflexivity.
  - discriminate.
  - repeat (constructor; [by apply ent_typed|]). constructor.
  - by vm_compute.
  - split; [|exact H2]. etransitivity; [exact H1|]. vm_compute. reflexivity.
Defined.

Lemma wal_snapshot_drops_tail_witness :
  exists w', applySnapshot sample_wal (mkSnapshot 1 3 []) = Some w' /\ lastIndex w' = 3.
Proof.
  pose proof (wal_snapshot_drops_tail sample_wal (mkSnapshot 1 3 []) sample_wal_ok
    ltac:(by vm_compute)) as H.
  rewrite decide_True in H by (vm_compute; reflexivity).
  destruct H as (w' & E & Hl & _). exists w'. split; [exact E|exact Hl].
Defined.
