(* ===== verification/Progress.v ===== *)
(** * Replication progress of a peer

    Models [src/raft/include/raft/tracker/Progress.h] and
    [src/raft/src/tracker/Progress.cpp]: the ring buffer of in-flight
    appends and the per-peer state the leader keeps.  Positions in the ring
    are [size_t] values below twice its capacity, kept as naturals; [None] is
    [std::abort] or an access outside the buffer. *)

From S2P Require Import Prelude RaftTypes.

(** ** Inflights *)

Record Inflights := mkInflights {
  in_buffer : list Z;
  in_head : nat;
  in_count : nat;
}.

Definition new_Inflights (capacity : nat) : Inflights := mkInflights (replicate capacity 0) 0 0.

Definition full (i : Inflights) : bool := bool_decide (in_count i = length (in_buffer i)).

Definition add (i : Inflights) (index : Z) : option Inflights :=
  if full i then None else
  let next := (in_head i + in_count i)%nat in
  let next := if bool_decide (length (in_buffer i) <= next)%nat
              then (next - length (in_buffer i))%nat else next in
  if bool_decide (next < length (in_buffer i))%nat
  then Some (mkInflights (<[next := index]> (in_buffer i)) (in_head i) (S (in_count i)))
  else None.

(** The scan: [n] slots left, [idx] the current one; the number of slots
    freed and the slot where it stopped. *)
Fixpoint free_scan (n : nat) (to : Z) (buffer : list Z) (idx : nat) (i : nat) : option (nat * nat) :=
  match n with
  | O => Some (i, idx)
  | S n =>
      x ← buffer !! idx;
      if to <? x then Some (i, idx)
      else
        let idx := S idx in
        let idx := if bool_decide (length buffer <= idx)%nat
                   then (idx - length buffer)%nat else idx in
        free_scan n to buffer idx (S i)
  end.

Definition freeTo (i : Inflights) (to : Z) : option Inflights :=
  if bool_decide (in_count i = 0%nat) then Some i else
  '(freed, idx) ← free_scan (in_count i) to (in_buffer i) (in_head i) 0;
  let count := (in_count i - freed)%nat in
  Some (mkInflights (in_buffer i) (if bool_decide (count = 0%nat) then 0%nat else idx) count).

Definition in_reset (i : Inflights) : Inflights := mkInflights (in_buffer i) 0 0.

(** ** Progress *)

Inductive ProgressState := Probe | Replicate | SnapshotState.

#[global] Instance ProgressState_eq_dec : EqDecision ProgressState.
Proof. solve_decision. Defined.

Record Progress := mkProgress {
  p_matchIndex : Z;
  p_nextIndex : Z;
  p_state : ProgressState;
  p_paused : bool;
  p_pendingSnapshotIndex : Z;
  p_isLearner : bool;
  p_inflights : Inflights;
}.

Definition new_Progress (inflightCapacity : nat) (learner : bool) : Progress :=
  mkProgress 0 0 Probe false 0 learner (new_Inflights inflightCapacity).

(** [Progress()]: what [operator[]] inserts for a missing peer. *)
Definition default_Progress : Progress := new_Progress 256 false.

Definition set_inflights (i : Inflights) (p : Progress) : Progress :=
  mkProgress (p_matchIndex p) (p_nextIndex p) (p_state p) (p_paused p)
    (p_pendingSnapshotIndex p) (p_isLearner p) i.
Definition set_match_next (mi ni : Z) (p : Progress) : Progress :=
  mkProgress mi ni (p_state p) (p_paused p) (p_pendingSnapshotIndex p) (p_isLearner p)
    (p_inflights p).
Definition set_paused (b : bool) (p : Progress) : Progress :=
  mkProgress (p_matchIndex p) (p_nextIndex p) (p_state p) b
    (p_pendingSnapshotIndex p) (p_isLearner p) (p_inflights p).

Definition isCaughtUp (p : Progress) : bool := (p_matchIndex p +u 1) =? p_nextIndex p.

Definition p_reset (p : Progress) (lastIndex : Z) : Progress :=
  mkProgress 0 (lastIndex +u 1) Probe false 0 (p_isLearner p) (in_reset (p_inflights p)).

Definition update (p : Progress) (lastIndex : Z) : option Progress :=
  let mi := Z.max (p_matchIndex p) lastIndex in
  match p_state p with
  | Replicate =>
      i ← freeTo (p_inflights p) lastIndex;
      Some (set_inflights i (set_match_next mi (lastIndex +u 1) p))
  | _ => Some (set_match_next mi (p_nextIndex p) p)
  end.

Definition maybeDecrFromRejectHint (p : Progress) (rejected hint : Z) : bool * Progress :=
  match p_state p with
  | Replicate =>
      if rejected <=? p_matchIndex p then (false, p)
      else (true, set_match_next (p_matchIndex p) (p_matchIndex p +u 1) p)
  | _ =>
      if rejected <? (p_nextIndex p -u 1) then (false, p)
      else
        let next := if hint <? rejected then hint +u 1 else rejected in
        let next := if next <? 1 then 1 else next in
        (true, set_match_next (p_matchIndex p) next p)
  end.

Definition becomeSnapshot (p : Progress) (snapshotIndex : Z) : Progress :=
  mkProgress (p_matchIndex p) (p_nextIndex p) SnapshotState true snapshotIndex (p_isLearner p)
    (p_inflights p).

Definition becomeProbe (p : Progress) : Progress :=
  mkProgress (p_matchIndex p) (p_nextIndex p) Probe false
    (match p_state p with SnapshotState => 0 | _ => p_pendingSnapshotIndex p end)
    (p_isLearner p) (p_inflights p).

Definition becomeReplicate (p : Progress) : Progress :=
  mkProgress (p_matchIndex p) (p_matchIndex p +u 1) Replicate false (p_pendingSnapshotIndex p)
    (p_isLearner p) (in_reset (p_inflights p)).

(** ** The ring as a queue *)

Definition slot (i : Inflights) (k : nat) : nat :=
  let j := (in_head i + k)%nat in
  if bool_decide (length (in_buffer i) <= j)%nat then (j - length (in_buffer i))%nat else j.

(** The indices in flight, oldest first. *)
Definition queue (i : Inflights) : list Z :=
  (fun k => nth (slot i k) (in_buffer i) 0) <$> seq 0 (in_count i).

Definition inflights_ok (i : Inflights) : Prop :=
  (in_count i <= length (in_buffer i))%nat
  /\ (in_head i < length (in_buffer i) \/ in_head i = 0 /\ in_count i = 0)%nat.

(** What an acknowledgement should leave: everything from the first index
    above it. *)
Fixpoint drop_acked (to : Z) (q : list Z) : list Z :=
  match q with
  | [] => []
  | x :: q' => if to <? x then q else drop_acked to q'
  end.

Lemma length_queue i : length (queue i) = in_count i.
Proof. unfold queue. by rewrite length_fmap, length_seq. Qed.

Lemma queue_lookup i k :
  (k < in_count i)%nat -> queue i !! k = Some (nth (slot i k) (in_buffer i) 0).
Proof. intros H. unfold queue. by rewrite list_lookup_fmap, lookup_seq_lt. Qed.

Lemma add_queue i x :
  inflights_ok i -> (in_count i < length (in_buffer i))%nat ->
  exists i', add i x = Some i' /\ inflights_ok i' /\ queue i' = queue i ++ [x]
    /\ length (in_buffer i') = length (in_buffer i).
Proof.
  intros [Hc Hh] Hroom. unfold add, full. rewrite bool_decide_eq_false_2 by lia.
  fold (slot i (in_count i)).
  assert (slot i (in_count i) < length (in_buffer i))%nat as Hs.
  { unfold slot. case_bool_decide; lia. }
  rewrite bool_decide_eq_true_2 by done. eexists. split; [done|].
  split_and!; [split; simpl; rewrite length_insert; lia| |by simpl; rewrite length_insert].
  unfold queue at 1. cbn [in_count]. rewrite seq_S, fmap_app. f_equal.
  - apply list_fmap_ext. intros j k Hk. apply lookup_seq in Hk as [-> Hk]. simpl.
    unfold slot at 1. simpl. rewrite length_insert. fold (slot i j).
    rewrite !nth_lookup, list_lookup_insert_ne; [done|].
    unfold slot. do 2 case_bool_decide; lia.
  - simpl. unfold slot at 1. simpl. rewrite length_insert. fold (slot i (in_count i)).
    by rewrite nth_lookup, list_lookup_insert_eq.
Qed.

Lemma slot_S i k :
  inflights_ok i -> (k < in_count i)%nat ->
  slot i (S k) = (if bool_decide (length (in_buffer i) <= S (slot i k))%nat
                  then (S (slot i k) - length (in_buffer i))%nat else S (slot i k)).
Proof. intros [Hc Hh] Hk. unfold slot. cbv zeta. repeat case_bool_decide; lia. Qed.

(** The scan frees exactly the acknowledged front of the queue. *)
Lemma free_scan_spec i to : inflights_ok i -> forall n k,
  (k + n = in_count i)%nat ->
  exists m, free_scan n to (in_buffer i) (slot i k) k = Some (m, slot i m)
    /\ (k <= m <= in_count i)%nat /\ drop m (queue i) = drop_acked to (drop k (queue i)).
Proof.
  intros Hok. induction n as [|n IH]; intros k Hk.
  - exists k. cbn [free_scan]. split_and!; [done|lia|lia|].
    by rewrite drop_ge by (rewrite length_queue; lia).
  - cbn [free_scan]. pose proof (queue_lookup i k ltac:(lia)) as Hq.
    assert (slot i k < length (in_buffer i))%nat as Hs.
    { destruct Hok as [Hc Hh]. unfold slot. case_bool_decide; lia. }
    destruct (lookup_lt_is_Some_2 _ _ Hs) as [x Hx]. rewrite Hx. cbn [mbind option_bind].
    rewrite (nth_lookup_Some _ _ _ _ Hx) in Hq. rewrite (drop_S _ _ _ Hq). cbn [drop_acked].
    destruct (to <? x).
    + exists k. split_and!; [done|lia|lia|by rewrite (drop_S _ _ _ Hq)].
    + cbv zeta. rewrite <- (slot_S i k) by (done || lia).
      destruct (IH (S k)) as (m & E & Hm & Hd); [lia|]. exists m. split_and!; [done|lia|lia|done].
Qed.

Lemma freeTo_queue i to :
  inflights_ok i ->
  exists i', freeTo i to = Some i' /\ inflights_ok i' /\ queue i' = drop_acked to (queue i)
    /\ length (in_buffer i') = length (in_buffer i).
Proof.
  intros Hok. unfold freeTo. case_bool_decide as H0.
  { exists i. split_and!; try done. unfold queue. by rewrite H0. }
  assert (slot i 0 = in_head i) as Hs0.
  { destruct Hok as [Hc Hh]. unfold slot. case_bool_decide; lia. }
  destruct (free_scan_spec i to Hok (in_count i) 0) as (m & E & Hm & Hd); [lia|].
  rewrite Hs0 in E. rewrite E. cbn [mbind option_bind]. eexists. split; [done|].
  rewrite drop_0 in Hd. rewrite <- Hd. destruct Hok as [Hc Hh]. simpl. case_bool_decide as Hz.
  - split_and!; [split; simpl; lia| |done]. unfold queue at 1. simpl. rewrite Hz. simpl.
    by rewrite drop_ge by (rewrite length_queue; lia).
  - assert (slot i m < length (in_buffer i))%nat as Hsm by (unfold slot; case_bool_decide; lia).
    split_and!; [split; simpl; lia| |done].
    apply (list_eq_same_length _ _ (in_count i - m)); [by rewrite length_drop, length_queue|
      by rewrite length_queue|].
    intros k x y Hk Hx Hy. rewrite lookup_drop, queue_lookup in Hy by lia.
    rewrite queue_lookup in Hx by (simpl; lia). simplify_eq. simpl. f_equal.
    unfold slot in *. simpl. repeat case_bool_decide; lia.
Qed.
