(* ===== verification/ReadOnly.v ===== *)
(** * Pending linearizable reads

    Models [src/raft/include/raft/ReadOnly.h] and [src/raft/src/ReadOnly.cpp]:
    the read requests a leader has registered, the acknowledgements it has
    received for each, and their order.  The maps are never iterated over. *)

From S2P Require Import Prelude RaftTypes.

Inductive ReadOnlyOption := Safe | LeaseBased.

#[global] Instance ReadOnlyOption_eq_dec : EqDecision ReadOnlyOption.
Proof. solve_decision. Defined.

Record ReadOnly := mkReadOnly {
  ro_option : ReadOnlyOption;
  ro_pending : gmap bytes Z;
  ro_acks : gmap bytes (list Z);
  ro_recvQueue : list bytes;
}.

Definition new_ReadOnly (option : ReadOnlyOption) : ReadOnly := mkReadOnly option ∅ ∅ [].

Definition ro_add (r : ReadOnly) (index : Z) (ctx : bytes) : ReadOnly :=
  match ro_pending r !! ctx with
  | Some _ => r
  | None => mkReadOnly (ro_option r) (<[ctx := index]> (ro_pending r)) (ro_acks r)
              (ro_recvQueue r ++ [ctx])
  end.

Definition recvAck (r : ReadOnly) (m : Message) (quorum : nat) : option Z * ReadOnly :=
  let ctx := m_context m in
  match ro_pending r !! ctx with
  | None => (None, r)
  | Some index =>
      let ackList := default [] (ro_acks r !! ctx) in
      let ackList := if bool_decide (m_from m ∈ ackList) then ackList else ackList ++ [m_from m] in
      let r := mkReadOnly (ro_option r) (ro_pending r) (<[ctx := ackList]> (ro_acks r))
                 (ro_recvQueue r) in
      (if bool_decide (quorum <= length ackList + 1)%nat then Some index else None, r)
  end.

(** The loop that pops the queue up to and including [ctx]. *)
Fixpoint pop_until (ctx : bytes) (pending : gmap bytes Z) (acks : gmap bytes (list Z))
    (q : list bytes) : gmap bytes Z * gmap bytes (list Z) * list bytes :=
  match q with
  | [] => (pending, acks, [])
  | front :: q =>
      let pending := delete front pending in
      let acks := delete front acks in
      if bool_decide (front = ctx) then (pending, acks, q) else pop_until ctx pending acks q
  end.

Definition ro_advance (r : ReadOnly) (ctx : bytes) : option Z * ReadOnly :=
  match ro_pending r !! ctx with
  | None => (None, r)
  | Some index =>
      let '(pending, acks, q) := pop_until ctx (ro_pending r) (ro_acks r) (ro_recvQueue r) in
      (Some index, mkReadOnly (ro_option r) pending acks q)
  end.

Definition ro_reset (r : ReadOnly) : ReadOnly := mkReadOnly (ro_option r) ∅ ∅ [].

Definition setOption (r : ReadOnly) (option : ReadOnlyOption) : ReadOnly :=
  mkReadOnly option (ro_pending r) (ro_acks r) (ro_recvQueue r).

(** ** Invariant: the queue lists the pending tokens once each, and only they
    have acknowledgements, each peer counted once *)

Definition ro_ok (r : ReadOnly) : Prop :=
  NoDup (ro_recvQueue r)
  /\ (forall ctx, ctx ∈ ro_recvQueue r <-> is_Some (ro_pending r !! ctx))
  /\ (forall ctx l, ro_acks r !! ctx = Some l -> NoDup l /\ is_Some (ro_pending r !! ctx)).

Lemma new_ReadOnly_ok o : ro_ok (new_ReadOnly o).
Proof.
  split_and!; [constructor| |intros ctx l; simpl; by rewrite lookup_empty].
  intros ctx. simpl. rewrite lookup_empty, elem_of_nil. split; [done|by intros [? ?]].
Qed.

Lemma ro_add_ok r i ctx : ro_ok r -> ro_ok (ro_add r i ctx).
Proof.
  intros (H1 & H2 & H3). unfold ro_add. destruct (ro_pending r !! ctx) eqn:E; [done|].
  split_and!; simpl.
  - apply NoDup_app. split_and!; [done| |apply NoDup_singleton].
    intros x Hx. apply H2 in Hx. rewrite list_elem_of_singleton. intros ->.
    rewrite E in Hx. by destruct Hx.
  - intros c. rewrite elem_of_app, list_elem_of_singleton, H2.
    destruct (decide (c = ctx)) as [->|Hne].
    + rewrite lookup_insert_eq. split; [done|by right].
    + rewrite lookup_insert_ne by done. split; [by intros [?|?]|by left].
  - intros c l Hl. destruct (H3 c l Hl) as [Hnd Hp]. split; [done|].
    destruct (decide (c = ctx)) as [->|Hne]; [by rewrite lookup_insert_eq|].
    by rewrite lookup_insert_ne by done.
Qed.

Lemma recvAck_ok r m q : ro_ok r -> ro_ok (recvAck r m q).2.
Proof.
  intros (H1 & H2 & H3). unfold recvAck.
  destruct (ro_pending r !! m_context m) as [i|] eqn:E; [|done]. simpl.
  split_and!; [done|done|]. intros c l. simpl.
  destruct (decide (c = m_context m)) as [->|Hne].
  - rewrite lookup_insert_eq. intros. simplify_eq. split; [|by rewrite E].
    assert (NoDup (default [] (ro_acks r !! m_context m))) as Hnd.
    { destruct (ro_acks r !! m_context m) as [l|] eqn:El; simpl; [by apply H3 in El as [? _]|constructor]. }
    case_bool_decide as Hin; [done|]. apply NoDup_app. split_and!; [done| |apply NoDup_singleton].
    intros x Hx. rewrite list_elem_of_singleton. by intros ->.
  - rewrite lookup_insert_ne by done. apply H3.
Qed.

Lemma pop_until_spec ctx q : forall p a,
  NoDup q -> ctx ∈ q ->
  exists q1 q2, q = q1 ++ ctx :: q2
    /\ (forall c, (pop_until ctx p a q).1.1 !! c
                  = if bool_decide (c ∈ q1 ++ [ctx]) then None else p !! c)
    /\ (forall c, (pop_until ctx p a q).1.2 !! c
                  = if bool_decide (c ∈ q1 ++ [ctx]) then None else a !! c)
    /\ (pop_until ctx p a q).2 = q2.
Proof.
  induction q as [|x q IH]; intros p a Hnd Hin; [by apply not_elem_of_nil in Hin|].
  apply NoDup_cons in Hnd as [Hni Hnd]. cbn [pop_until]. case_bool_decide as Hx.
  - subst. exists [], q. split_and!; [done| | |done]; intros c; simpl;
      (destruct (decide (c = ctx)) as [->|Hne];
       [rewrite lookup_delete_eq, bool_decide_eq_true_2; [done|by apply list_elem_of_here]
       |rewrite lookup_delete_ne, bool_decide_eq_false_2; [done| |done];
        by rewrite list_elem_of_singleton]).
  - apply elem_of_cons in Hin as [->|Hin]; [done|].
    destruct (IH (delete x p) (delete x a) Hnd Hin) as (q1 & q2 & -> & Hp & Ha & Hq).
    exists (x :: q1), q2. split_and!; [done| | |done]; intros c; rewrite ?Hp, ?Ha; cbn [app];
      (destruct (decide (c = x)) as [->|Hne];
       [rewrite lookup_delete_eq, (bool_decide_eq_true_2 (x ∈ x :: _)) by (by apply list_elem_of_here);
        by case_bool_decide
       |rewrite lookup_delete_ne by done; do 2 case_bool_decide; try done; exfalso;
        rewrite elem_of_cons in *; tauto]).
Qed.

Lemma ro_advance_ok r ctx : ro_ok r -> ro_ok (ro_advance r ctx).2.
Proof.
  intros (H1 & H2 & H3). unfold ro_advance. destruct (ro_pending r !! ctx) as [i|] eqn:E; [|done].
  destruct (pop_until_spec ctx (ro_recvQueue r) (ro_pending r) (ro_acks r) H1)
    as (q1 & q2 & Hq & Hp & Ha & Hq2); [apply H2; by rewrite E|].
  destruct (pop_until ctx _ _ _) as [[p a] q] eqn:Ep. simpl in *. subst q. clear Ep.
  rewrite Hq in H1. assert (NoDup ((q1 ++ [ctx]) ++ q2)) as Hnd by (by rewrite <- app_assoc).
  apply NoDup_app in Hnd as (_ & Hdis & Hnd2).
  assert (forall c, is_Some (p !! c) <-> is_Some (ro_pending r !! c) /\ c ∉ q1 ++ [ctx]) as Hpc.
  { intros c. rewrite Hp. case_bool_decide; split; try tauto; try by intros [? ?]. }
  split_and!; simpl; [done| |].
  - intros c. rewrite Hpc, <- H2, Hq.
    assert (c ∈ q1 ++ ctx :: q2 <-> c ∈ q1 ++ [ctx] \/ c ∈ q2) as ->.
    { rewrite !elem_of_app, elem_of_cons, list_elem_of_singleton. tauto. }
    split; [|tauto]. intros Hc. split; [by right|]. intros Hc'. by apply (Hdis c).
  - intros c l. rewrite Ha. case_bool_decide as Hc; [done|]. intros Hl.
    destruct (H3 c l Hl) as [Hn Hs]. split; [done|]. apply Hpc. by split.
Qed.

Lemma ro_reset_ok r : ro_ok (ro_reset r).
Proof. apply (new_ReadOnly_ok (ro_option r)). Qed.

(** ** Every sequence of calls *)

Inductive ro_call :=
| CAdd (index : Z) (ctx : bytes)
| CRecvAck (m : Message) (quorum : nat)
| CAdvance (ctx : bytes)
| CReset.

(** What a call returns, and what it leaves. *)
Definition ro_do (r : ReadOnly) (c : ro_call) : option Z * ReadOnly :=
  match c with
  | CAdd i ctx => (None, ro_add r i ctx)
  | CRecvAck m quorum => recvAck r m quorum
  | CAdvance ctx => ro_advance r ctx
  | CReset => (None, ro_reset r)
  end.

(** ** The specification: a queue of reads, each with the set of peers that
    have confirmed it *)

Record Read := mkRead { re_ctx : bytes; re_index : Z; re_peers : gset Z }.

Definition read_of (ctx : bytes) (q : list Read) : option Read := head (filter (fun x => re_ctx x = ctx) q).

Definition confirm (ctx : bytes) (p : Z) (x : Read) : Read :=
  if bool_decide (re_ctx x = ctx) then mkRead (re_ctx x) (re_index x) ({[p]} ∪ re_peers x) else x.

(** What was requested after the read. *)
Fixpoint after_read (ctx : bytes) (q : list Read) : list Read :=
  match q with
  | [] => []
  | x :: q => if bool_decide (re_ctx x = ctx) then q else after_read ctx q
  end.

(** A request joins the queue unless it waits already; a reply confirms its
    read, which has its majority when the peers that confirmed it and the
    leader are a quorum; completing a read completes those before it; a reset
    forgets all. *)
Definition reads_do (q : list Read) (c : ro_call) : option Z * list Read :=
  match c with
  | CAdd i ctx => (None, if read_of ctx q then q else q ++ [mkRead ctx i ∅])
  | CRecvAck m quorum =>
      let q := confirm (m_context m) (m_from m) <$> q in
      (x ← read_of (m_context m) q;
       if bool_decide (quorum <= size (re_peers x) + 1)%nat then Some (re_index x) else None, q)
  | CAdvance ctx =>
      match read_of ctx q with
      | None => (None, q)
      | Some x => (Some (re_index x), after_read ctx q)
      end
  | CReset => (None, [])
  end.

(** What the calls return, in order, and what they leave. *)
Fixpoint replies {A} (do : A -> ro_call -> option Z * A) (a : A) (cs : list ro_call) : list (option Z) * A :=
  match cs with
  | [] => ([], a)
  | c :: cs => let '(o, a) := do a c in let '(os, a) := replies do a cs in (o :: os, a)
  end.

(** ** Refinement *)

Definition entry_of (r : ReadOnly) (ctx : bytes) : Read :=
  mkRead ctx (default 0 (ro_pending r !! ctx)) (list_to_set (default [] (ro_acks r !! ctx))).

Definition reads_of (r : ReadOnly) : list Read := entry_of r <$> ro_recvQueue r.

Lemma read_of_fmap (f : bytes -> Read) ctx l :
  (forall c, re_ctx (f c) = c) ->
  read_of ctx (f <$> l) = if bool_decide (ctx ∈ l) then Some (f ctx) else None.
Proof.
  intros Hf. induction l as [|c l IH]; [done|]. unfold read_of in *. rewrite fmap_cons.
  destruct (decide (c = ctx)) as [->|Hne].
  - rewrite filter_cons_True by done. by rewrite bool_decide_eq_true_2 by (by left).
  - rewrite filter_cons_False, IH by (by rewrite Hf). by do 2 case_bool_decide; set_solver.
Qed.

Lemma read_of_reads r ctx :
  ro_ok r -> read_of ctx (reads_of r) = (fun _ => entry_of r ctx) <$> ro_pending r !! ctx.
Proof.
  intros (_ & Hq & _). unfold reads_of. rewrite read_of_fmap by done. case_bool_decide as Hin; rewrite Hq in Hin.
  - by destruct Hin as [i ->].
  - by apply eq_None_not_Some in Hin as ->.
Qed.

Lemma after_read_fmap (f : bytes -> Read) ctx q1 q2 :
  (forall c, re_ctx (f c) = c) -> ctx ∉ q1 -> after_read ctx (f <$> q1 ++ ctx :: q2) = f <$> q2.
Proof.
  intros Hf. induction q1 as [|c q1 IH]; intros Hni; rewrite ?app_nil_l, <- ?app_comm_cons, fmap_cons; cbn [after_read].
  - by rewrite bool_decide_eq_true_2.
  - rewrite Hf, bool_decide_eq_false_2 by set_solver. apply IH. set_solver.
Qed.

(** What a call changes of the other reads: nothing. *)
Lemma ro_add_reads r i ctx :
  ro_ok r -> reads_of (ro_add r i ctx) = (reads_do (reads_of r) (CAdd i ctx)).2.
Proof.
  intros Hok. cbn [reads_do snd]. rewrite read_of_reads by done. destruct Hok as (_ & Hq & Ha). unfold ro_add.
  destruct (ro_pending r !! ctx) as [j|] eqn:E; [done|]. cbn [fmap option_fmap option_map].
  unfold reads_of. simpl. rewrite fmap_app. f_equal.
  - apply list_fmap_ext. intros k c Hc%list_elem_of_lookup_2. unfold entry_of. simpl.
    rewrite lookup_insert_ne; [done|]. intros ->. apply Hq in Hc. rewrite E in Hc. by destruct Hc.
  - unfold entry_of. simpl. rewrite lookup_insert_eq. repeat f_equal.
    destruct (ro_acks r !! ctx) as [l|] eqn:El; [|done]. apply Ha in El as [_ [? ?]]. congruence.
Qed.

Lemma recvAck_reads r m quorum :
  ro_ok r -> let '(o, r') := recvAck r m quorum in (o, reads_of r') = reads_do (reads_of r) (CRecvAck m quorum).
Proof.
  intros Hok. pose proof (recvAck_ok r m quorum Hok) as Hok'. pose proof Hok as (_ & Hq & Ha).
  assert (reads_of (recvAck r m quorum).2 = confirm (m_context m) (m_from m) <$> reads_of r) as Hreads.
  { unfold reads_of. rewrite <- list_fmap_compose. unfold recvAck.
    destruct (ro_pending r !! m_context m) as [i|] eqn:E; simpl; apply list_fmap_ext;
      intros k c Hc%list_elem_of_lookup_2; unfold entry_of, confirm; simpl.
    - destruct (decide (c = m_context m)) as [->|Hne];
        [rewrite (bool_decide_eq_true_2 (m_context m = _)) by done
        |by rewrite (bool_decide_eq_false_2 (c = _)), lookup_insert_ne by done].
      rewrite lookup_insert_eq. f_equal. simpl. case_bool_decide as Hin; set_solver.
    - rewrite bool_decide_eq_false_2; [done|]. intros ->. apply Hq in Hc. rewrite E in Hc. by destruct Hc. }
  cbn [reads_do]. rewrite <- Hreads, read_of_reads by done. unfold recvAck in *.
  destruct (ro_pending r !! m_context m) as [i|] eqn:E; simpl in *; rewrite E; [|done].
  simpl. rewrite E, lookup_insert_eq. simpl. do 2 f_equal.
  destruct Hok' as (_ & _ & Ha'). destruct (Ha' (m_context m) _ (lookup_insert_eq _ _ _)) as [Hnd _].
  by rewrite size_list_to_set.
Qed.

Lemma ro_advance_reads r ctx :
  ro_ok r -> let '(o, r') := ro_advance r ctx in (o, reads_of r') = reads_do (reads_of r) (CAdvance ctx).
Proof.
  intros Hok. cbn [reads_do]. rewrite read_of_reads by done. pose proof Hok as (Hnd & Hq & _). unfold ro_advance.
  destruct (ro_pending r !! ctx) as [i|] eqn:E; [|done].
  destruct (pop_until_spec ctx (ro_recvQueue r) (ro_pending r) (ro_acks r) Hnd)
    as (q1 & q2 & Eq & Hp & Ha & Hq2); [apply Hq; by rewrite E|].
  destruct (pop_until ctx _ _ _) as [[p a] q]. simpl in *. subst q. rewrite E. f_equal.
  rewrite Eq in Hnd. unfold reads_of. rewrite Eq, after_read_fmap;
    [|done|by apply NoDup_app in Hnd as (_ & Hd & _); intros Hin; apply (Hd ctx Hin); left].
  apply list_fmap_ext. intros k c Hc%list_elem_of_lookup_2. unfold entry_of. simpl. rewrite Hp, Ha.
  rewrite bool_decide_eq_false_2; [done|]. intros Hin.
  assert (NoDup ((q1 ++ [ctx]) ++ q2)) as Hnd' by (by rewrite <- app_assoc).
  apply NoDup_app in Hnd' as (_ & Hd & _). by apply (Hd c).
Qed.

Lemma ro_do_reads r c :
  ro_ok r -> let '(o, r') := ro_do r c in ro_ok r' /\ (o, reads_of r') = reads_do (reads_of r) c.
Proof.
  intros Hok. destruct c as [i ctx|m quorum|ctx|]; cbn [ro_do].
  - split; [by apply ro_add_ok|]. by rewrite ro_add_reads.
  - pose proof (recvAck_ok r m quorum Hok). pose proof (recvAck_reads r m quorum Hok). by destruct (recvAck _ _ _).
  - pose proof (ro_advance_ok r ctx Hok). pose proof (ro_advance_reads r ctx Hok). by destruct (ro_advance _ _).
  - split; [apply ro_reset_ok|done].
Qed.

(** C30. Pending reads.  Under every sequence of requests, replies,
    completions and resets the three maps and lists of [ReadOnly] are a queue
    of reads: a reply confirms a read only while it is pending, with the
    index it was requested with, and exactly when the distinct peers that
    replied to it since then and the leader make a quorum; completing a read
    completes those before it; after a reset nothing is pending.  Every call
    returns what the queue says. *)
Theorem readonly_refines_queue o cs :
  let '(os, r) := replies ro_do (new_ReadOnly o) cs in (os, reads_of r) = replies reads_do [] cs.
Proof.
  change (@nil Read) with (reads_of (new_ReadOnly o)). pose proof (new_ReadOnly_ok o) as Hok.
  revert Hok. generalize (new_ReadOnly o) as r. induction cs as [|c cs IH]; intros r Hok; [done|].
  cbn [replies]. pose proof (ro_do_reads r c Hok) as Hc. destruct (ro_do r c) as [out r1].
  destruct Hc as [Hok1 <-]. specialize (IH r1 Hok1). destruct (replies ro_do r1 cs) as [os r2]. by rewrite <- IH.
Qed.

(** Two of three nodes confirm a read, after a reset that forgot another. *)
Example read_confirmed :
  let ack p ctx := CRecvAck (mkMessage MsgHeartbeatResp 1 p 1 0 0 0 false 0 [] empty_snapshot ctx) 3 in
  (replies ro_do (new_ReadOnly Safe)
     [CAdd 5 [9]; ack 2 [9]; CReset; ack 3 [9]; CAdd 6 [9]; ack 2 [9]; ack 2 [9]; ack 3 [9]; CAdvance [9]]).1
  = [None; None; None; None; None; None; None; Some 6; Some 6].
Proof. vm_compute. reflexivity. Qed.
