(* ===== verification/RawNode.v ===== *)
(** * The raft node

    Models [src/raft/include/raft/RawNode.h] and [src/raft/src/RawNode.cpp]:
    the poll-based state machine, every handler and every branch.  A node is
    a record of the class's fields; a method takes and returns it, with
    [None] for an access outside an array or an abort.  The storage behind
    the log is an argument (see [RaftLog]).  The draws of
    [std::random_device] are a parameter: the k-th draw for given bounds. *)

From S2P Require Import Prelude StdMap RaftTypes LogUnstable RaftLog Progress ReadOnly.

Class Random := {
  draw : nat -> Z -> Z -> Z;
  draw_range k a b : a <= b -> a <= draw k a b <= b
}.

Record Config := mkConfig {
  c_id : Z;
  c_leaderId : Z;
  c_electionTick : Z;
  c_heartbeatTick : Z;
  c_maxSizePerMsg : Z;
  c_maxInflightMsgs : Z;
  c_peers : list Z;
  c_learners : list Z;
  c_readOnlyOption : ReadOnlyOption;
}.

Record RawNode := mkRawNode {
  (* set by the constructor for good *)
  n_id : Z;
  n_electionTick : Z;
  n_heartbeatTick : Z;
  n_maxSizePerMsg : Z;
  n_maxInflightMsgs : Z;
  n_voters : list Z;
  n_learners : list Z;
  (* election *)
  n_lead : Z;
  n_term : Z;
  n_vote : Z;
  n_role : Role;
  n_votes : list Z;
  (* timing *)
  n_randomizedElectionTick : Z;
  n_tickCount : Z;
  n_draws : nat;
  (* log and replication *)
  n_log : RaftLog;
  n_pr : list (Z * Progress);
  n_readOnly : ReadOnly;
  (* output *)
  n_msgs : list Message;
  n_lastReadyLastIndex : Z;
  n_lastReadyApplied : Z;
  n_readStates : list ReadState;
  n_readRequestors : gmap bytes Z;
}.

(** Field updates. *)
Definition set_election (role : Role) (term lead vote : Z) (votes : list Z) (n : RawNode) : RawNode :=
  mkRawNode (n_id n) (n_electionTick n) (n_heartbeatTick n) (n_maxSizePerMsg n) (n_maxInflightMsgs n)
    (n_voters n) (n_learners n) lead term vote role votes (n_randomizedElectionTick n)
    (n_tickCount n) (n_draws n) (n_log n) (n_pr n) (n_readOnly n) (n_msgs n)
    (n_lastReadyLastIndex n) (n_lastReadyApplied n) (n_readStates n) (n_readRequestors n).
Definition set_lead (lead : Z) (n : RawNode) : RawNode :=
  set_election (n_role n) (n_term n) lead (n_vote n) (n_votes n) n.
Definition set_vote (vote : Z) (n : RawNode) : RawNode :=
  set_election (n_role n) (n_term n) (n_lead n) vote (n_votes n) n.
Definition set_votes (votes : list Z) (n : RawNode) : RawNode :=
  set_election (n_role n) (n_term n) (n_lead n) (n_vote n) votes n.
Definition set_timing (rand tick : Z) (draws : nat) (n : RawNode) : RawNode :=
  mkRawNode (n_id n) (n_electionTick n) (n_heartbeatTick n) (n_maxSizePerMsg n) (n_maxInflightMsgs n)
    (n_voters n) (n_learners n) (n_lead n) (n_term n) (n_vote n) (n_role n) (n_votes n) rand
    tick draws (n_log n) (n_pr n) (n_readOnly n) (n_msgs n)
    (n_lastReadyLastIndex n) (n_lastReadyApplied n) (n_readStates n) (n_readRequestors n).
Definition set_tick (tick : Z) (n : RawNode) : RawNode :=
  set_timing (n_randomizedElectionTick n) tick (n_draws n) n.
Definition set_repl (log : RaftLog) (pr : list (Z * Progress)) (ro : ReadOnly) (n : RawNode) : RawNode :=
  mkRawNode (n_id n) (n_electionTick n) (n_heartbeatTick n) (n_maxSizePerMsg n) (n_maxInflightMsgs n)
    (n_voters n) (n_learners n) (n_lead n) (n_term n) (n_vote n) (n_role n) (n_votes n)
    (n_randomizedElectionTick n) (n_tickCount n) (n_draws n) log pr ro (n_msgs n)
    (n_lastReadyLastIndex n) (n_lastReadyApplied n) (n_readStates n) (n_readRequestors n).
Definition set_log (log : RaftLog) (n : RawNode) : RawNode := set_repl log (n_pr n) (n_readOnly n) n.
Definition set_pr (pr : list (Z * Progress)) (n : RawNode) : RawNode :=
  set_repl (n_log n) pr (n_readOnly n) n.
Definition set_readOnly (ro : ReadOnly) (n : RawNode) : RawNode := set_repl (n_log n) (n_pr n) ro n.
Definition set_output (msgs : list Message) (lastIndex lastApplied : Z) (rss : list ReadState)
    (reqs : gmap bytes Z) (n : RawNode) : RawNode :=
  mkRawNode (n_id n) (n_electionTick n) (n_heartbeatTick n) (n_maxSizePerMsg n) (n_maxInflightMsgs n)
    (n_voters n) (n_learners n) (n_lead n) (n_term n) (n_vote n) (n_role n) (n_votes n)
    (n_randomizedElectionTick n) (n_tickCount n) (n_draws n) (n_log n) (n_pr n) (n_readOnly n) msgs
    lastIndex lastApplied rss reqs.
Definition set_msgs (msgs : list Message) (n : RawNode) : RawNode :=
  set_output msgs (n_lastReadyLastIndex n) (n_lastReadyApplied n) (n_readStates n)
    (n_readRequestors n) n.
Definition set_readStates (rss : list ReadState) (n : RawNode) : RawNode :=
  set_output (n_msgs n) (n_lastReadyLastIndex n) (n_lastReadyApplied n) rss (n_readRequestors n) n.
Definition set_readRequestors (reqs : gmap bytes Z) (n : RawNode) : RawNode :=
  set_output (n_msgs n) (n_lastReadyLastIndex n) (n_lastReadyApplied n) (n_readStates n) reqs n.

(** [std::map<NodeId, Progress>]. *)
Abbreviation pr_find := (sm_find Z.ltb).
Abbreviation pr_alter := (sm_alter Z.ltb).
Abbreviation pr_index := (sm_index Z.ltb default_Progress).

(** [std::sort(matches, std::greater)] *)
Definition sort_desc (l : list Z) : list Z :=
  @merge_sort Z (fun x y => y <= x) (fun x y => decide (y <= x)) l.

Section RawNode.
Context `{!Platform} `{!Random} {St : Type} `{!Storage St}.
Implicit Types (st : St) (n : RawNode).

Definition quorum n : nat := (length (n_voters n) / 2 + 1)%nat.

Definition send n (m : Message) : RawNode := set_msgs (n_msgs n ++ [m]) n.

(** [dist(electionTick_, 2 * electionTick_)] in [uint32_t], with the tick
    counter reset as at all its uses. *)
Definition randomize n : RawNode :=
  set_timing (draw (n_draws n) (n_electionTick n) (u32 (2 * n_electionTick n))) 0 (S (n_draws n)) n.

(** ** Construction *)

Definition new_RawNode (c : Config) st : RawNode :=
  let init := st_initialState st in
  let bootstrap := (st_lastIndex st =? 0) && negb (bool_decide (c_peers c = [])) in
  let voters := if bootstrap then c_peers c else cs_nodes (is_confState init) in
  let learners := if bootstrap then [] else cs_learners (is_confState init) in
  let voters := if bool_decide (voters = []) && negb (bool_decide (c_peers c = []))
                then c_peers c else voters in
  let learners := if bool_decide (learners = []) && negb (bool_decide (c_learners c = []))
                  then c_learners c else learners in
  mkRawNode (c_id c) (c_electionTick c) (c_heartbeatTick c) (c_maxSizePerMsg c) (c_maxInflightMsgs c)
    voters learners (c_leaderId c) (hs_term (is_hardState init)) (hs_vote (is_hardState init))
    Follower [] (draw 0 (c_electionTick c) (u32 (2 * c_electionTick c))) 0 1
    (new_RaftLog st) [] (setOption (new_ReadOnly Safe) (c_readOnlyOption c)) [] 0 0 [] ∅.

(** ** Role transitions *)

Definition becomeFollower n (term lead : Z) : RawNode :=
  let n := set_election Follower term lead 0 [] n in
  let n := randomize n in
  set_readOnly (ro_reset (n_readOnly n)) n.

Definition becomeCandidate n : RawNode :=
  let n := set_election Candidate (n_term n +u 1) 0 (n_id n) [n_id n] n in
  let n := randomize n in
  set_readOnly (ro_reset (n_readOnly n)) n.

Definition becomePreCandidate n : RawNode :=
  let n := set_election PreCandidate (n_term n) 0 (n_vote n) [n_id n] n in
  randomize n.

(** ** Replication *)

Definition sendSnapshot st n (to : Z) : RawNode :=
  match pr_find to (n_pr n) with
  | None => n
  | Some pr =>
      let snap := snapshot st (n_log n) in
      if s_index snap =? 0 then n else
      let n := set_pr (pr_alter (fun p => becomeSnapshot p (s_index snap)) to (n_pr n)) n in
      send n (mkMessage MsgSnap to (n_id n) (n_term n) 0 0 0 false 0 [] snap [])
  end.

Definition sendAppend st n (to : Z) : option RawNode :=
  match pr_find to (n_pr n) with
  | None => Some n
  | Some pr =>
      if p_paused pr then Some n else
      if bool_decide (p_state pr = SnapshotState) then Some (sendSnapshot st n to) else
      let next := p_nextIndex pr in
      if next <? firstIndex st (n_log n) then Some (sendSnapshot st n to) else
      match slice st (n_log n) next (lastIndex st (n_log n) +u 1) (n_maxSizePerMsg n) with
      | None => Some (sendSnapshot st n to)
      | Some ents =>
          if bool_decide (ents = []) && negb (bool_decide (p_state pr = Probe)) then Some n else
          let track := bool_decide (p_state pr = Replicate) && negb (bool_decide (ents = [])) in
          if track && full (p_inflights pr) then Some n else
          pr ← (if track
                then i ← add (p_inflights pr) (match last ents with Some e => e_index e | None => 0 end);
                     Some (set_inflights i pr)
                else Some pr);
          prevTerm ← term st (n_log n) (next -u 1);
          let m := mkMessage MsgApp to (n_id n) (n_term n) prevTerm (next -u 1)
                     (commitIndex (n_log n)) false 0 ents empty_snapshot [] in
          let pr := if bool_decide (p_state pr = Probe) then set_paused true pr else pr in
          Some (send (set_pr (pr_alter (fun _ => pr) to (n_pr n)) n) m)
      end
  end.

(** [for (auto& [id, pr] : pr_) { if (id == id_) continue; f(id); }]: the
    keys do not change meanwhile. *)
Definition for_peers n (f : RawNode -> Z -> option RawNode) : option RawNode :=
  foldl (fun acc id => n ← acc; if id =? n_id n then Some n else f n id) (Some n) (n_pr n).*1.

Definition broadcastAppend st n : option RawNode := for_peers n (sendAppend st).

Definition sendHeartbeat n (to : Z) : RawNode :=
  send n (mkMessage MsgHeartbeat to (n_id n) (n_term n) 0 0 (commitIndex (n_log n)) false 0 []
            empty_snapshot []).

Definition broadcastHeartbeat n : option RawNode :=
  for_peers n (fun n id => Some (sendHeartbeat n id)).

(** A heartbeat with a read context to every peer. *)
Definition broadcastReadHeartbeat n (ctx : bytes) : option RawNode :=
  for_peers n (fun n id => Some (send n (mkMessage MsgHeartbeat id (n_id n) (n_term n) 0 0
                                           (commitIndex (n_log n)) false 0 [] empty_snapshot ctx))).

Definition maybeCommit st n : option (bool * RawNode) :=
  let matches := (fun '(id, pr) => if id =? n_id n then lastIndex st (n_log n) else p_matchIndex pr)
                 <$> n_pr n in
  let matches := sort_desc matches in
  k ← matches !! (quorum n - 1)%nat;
  if commitIndex (n_log n) <? k then
    t ← term st (n_log n) k;
    if t =? n_term n then
      '(_, log) ← RaftLog.maybeCommit st (n_log n) k (n_term n);
      Some (true, set_log log n)
    else Some (false, n)
  else Some (false, n).

Definition restore n (snap : Snapshot) : RawNode :=
  let n := set_log (RaftLog.restore (n_log n) snap) n in
  set_pr ((fun '(id, pr) => if id =? n_id n
                            then (id, set_match_next (s_index snap) (s_index snap +u 1) pr)
                            else (id, p_reset pr (s_index snap))) <$> n_pr n) n.

(** ** Election *)

(** The leader's own slot: [pr_\[id_\].matchIndex_ = lastIndex(); nextIndex_ = lastIndex() + 1]. *)
Definition self_progress st n : RawNode :=
  set_pr (pr_index (fun p => set_match_next (lastIndex st (n_log n))
            (lastIndex st (n_log n) +u 1) p) (n_id n) (n_pr n)) n.

Definition init_progress st n : RawNode :=
  set_pr (foldl (fun pr id =>
      let isLearner := bool_decide (id ∈ n_learners n) in
      let pr := pr_index (fun _ => new_Progress (Z.to_nat (n_maxInflightMsgs n)) isLearner) id pr in
      pr_index (fun p => p_reset p (lastIndex st (n_log n))) id pr) [] (n_voters n)) n.

Definition self_replicate n : RawNode := set_pr (pr_index becomeReplicate (n_id n) (n_pr n)) n.

(** The empty entry of the leader's term, appended to the log unless it is
    empty. *)
Definition append_noop st n : RawNode :=
  if firstIndex st (n_log n) <=? lastIndex st (n_log n) then
    let noop := mkEntry (n_term n) (lastIndex st (n_log n) +u 1) Normal [] in
    self_progress st (set_log (append st (n_log n) [noop]).2 n)
  else n.

Definition becomeLeader st n : option RawNode :=
  let n := set_election Leader (n_term n) (n_id n) (n_vote n) (n_votes n) n in
  let n := set_tick 0 n in
  let n := init_progress st n in
  let n := self_progress st n in
  let n := self_replicate n in
  let n := append_noop st n in
  broadcastAppend st n.

Definition campaign st n : option RawNode :=
  let n := becomeCandidate n in
  if bool_decide (quorum n = 1%nat) then becomeLeader st n else
  foldl (fun acc id =>
      n ← acc;
      if id =? n_id n then Some n else
      lt ← lastTerm st (n_log n);
      Some (send n (mkMessage MsgVote id (n_id n) (n_term n) lt (lastIndex st (n_log n)) 0 false 0 []
                      empty_snapshot [])))
    (Some n) (n_voters n).

Definition pollVote st n (from : Z) (granted : bool) : option RawNode :=
  if bool_decide (from ∈ n_votes n) then Some n else
  if granted then
    let n := set_votes (n_votes n ++ [from]) n in
    if bool_decide (quorum n <= length (n_votes n))%nat then becomeLeader st n else Some n
  else Some n.

(** ** Client requests *)

Definition propose st n (data : bytes) : option (bool * RawNode) :=
  if negb (bool_decide (n_role n = Leader)) then Some (false, n) else
  let e := mkEntry (n_term n) (lastIndex st (n_log n) +u 1) Normal data in
  let n := set_log (append st (n_log n) [e]).2 n in
  let n := self_progress st n in
  n ← broadcastAppend st n;
  Some (true, n).

Definition readIndex n (ctx : bytes) : option (bool * RawNode) :=
  if negb (bool_decide (n_role n = Leader)) then Some (false, n) else
  if bool_decide (ctx = []) then Some (false, n) else
  let n := set_readOnly (ro_add (n_readOnly n) (commitIndex (n_log n)) ctx) n in
  if bool_decide (ro_option (n_readOnly n) = Safe) then
    n ← broadcastReadHeartbeat n ctx; Some (true, n)
  else Some (true, n).

(** ** Handlers *)

Definition stepLeader st n (m : Message) : option RawNode :=
  match m_type m with
  | MsgPropose =>
      '(_, n) ← propose st n (match m_entries m with [] => [] | e :: _ => e_data e end);
      Some n
  | MsgAppResp =>
      match pr_find (m_from m) (n_pr n) with
      | None => Some n
      | Some pr =>
          if m_reject m then
            let pr := (maybeDecrFromRejectHint pr (m_index m) (m_rejectHint m)).2 in
            let n := set_pr (pr_alter (fun _ => becomeProbe pr) (m_from m) (n_pr n)) n in
            sendAppend st n (m_from m)
          else
            pr ← update pr (m_index m);
            let pr := if bool_decide (p_state pr = Probe) then becomeReplicate pr else pr in
            let n := set_pr (pr_alter (fun _ => pr) (m_from m) (n_pr n)) n in
            '(moved, n) ← maybeCommit st n;
            n ← (if moved : bool then broadcastAppend st n else Some n);
            match pr_find (m_from m) (n_pr n) with
            | Some pr => if bool_decide (p_state pr = Replicate)
                         then sendAppend st n (m_from m) else Some n
            | None => Some n
            end
      end
  | MsgHeartbeatResp =>
      match pr_find (m_from m) (n_pr n) with
      | None => Some n
      | Some pr =>
          n ← (if bool_decide (p_state pr = Replicate) then sendAppend st n (m_from m)
               else if bool_decide (p_state pr = Probe) && negb (p_paused pr)
               then sendAppend st n (m_from m) else Some n);
          if bool_decide (m_context m = []) then Some n else
          let '(ackIndex, ro) := recvAck (n_readOnly n) m (quorum n) in
          let n := set_readOnly ro n in
          match ackIndex with
          | None => Some n
          | Some _ =>
              let ctx := m_context m in
              let '(idx, ro) := ro_advance (n_readOnly n) ctx in
              let n := set_readOnly ro n in
              match idx with
              | None => Some n
              | Some idx =>
                  let n := set_readStates (n_readStates n ++ [mkReadState idx ctx]) n in
                  match n_readRequestors n !! ctx with
                  | None => Some n
                  | Some to =>
                      let n := set_readRequestors (delete ctx (n_readRequestors n)) n in
                      Some (send n (mkMessage MsgReadIndexResp to (n_id n) (n_term n) 0 idx 0
                                      false 0 [] empty_snapshot ctx))
                  end
              end
          end
      end
  | MsgReadIndex =>
      if bool_decide (m_context m = []) then Some n else
      let n := set_readOnly (ro_add (n_readOnly n) (commitIndex (n_log n)) (m_context m)) n in
      let n := if m_from m =? n_id n then n
               else set_readRequestors (<[m_context m := m_from m]> (n_readRequestors n)) n in
      if bool_decide (ro_option (n_readOnly n) = Safe) then broadcastReadHeartbeat n (m_context m)
      else Some n
  | _ => Some n
  end.

Definition stepFollower st n (m : Message) : option RawNode :=
  let forward n :=
    if n_lead n =? 0 then Some n else
    Some (send n (mkMessage (m_type m) (n_lead n) (m_from m) (m_term m) (m_logTerm m) (m_index m)
                    (m_commit m) (m_reject m) (m_rejectHint m) (m_entries m) (m_snapshot m)
                    (m_context m))) in
  match m_type m with
  | MsgPropose => forward n
  | MsgApp =>
      let n := set_tick 0 (set_lead (m_from m) n) in
      '(ok, log) ← maybeAppend st (n_log n) (m_index m) (m_logTerm m) (m_commit m) (m_entries m);
      let n := set_log log n in
      let resp :=
        if ok : bool
        then mkMessage MsgAppResp (m_from m) (n_id n) (n_term n) 0
               (m_index m +u Z.of_nat (length (m_entries m))) 0 false 0 [] empty_snapshot []
        else mkMessage MsgAppResp (m_from m) (n_id n) (n_term n) 0 (m_index m) 0 true
               (lastIndex st (n_log n)) [] empty_snapshot [] in
      Some (send n resp)
  | MsgHeartbeat =>
      let n := set_tick 0 (set_lead (m_from m) n) in
      let n := if commitIndex (n_log n) <? m_commit m
               then set_log (commitTo st (n_log n) (m_commit m)) n else n in
      Some (send n (message MsgHeartbeatResp (m_from m) (n_id n) (n_term n)))
  | MsgSnap =>
      let n := set_tick 0 (set_lead (m_from m) n) in
      let n := restore n (m_snapshot m) in
      Some (send n (mkMessage MsgAppResp (m_from m) (n_id n) (n_term n) 0 (s_index (m_snapshot m)) 0
                      false 0 [] empty_snapshot []))
  | MsgVote | MsgPreVote =>
      lt ← lastTerm st (n_log n);
      let logUpToDate := (lt <? m_logTerm m)
        || ((m_logTerm m =? lt) && (lastIndex st (n_log n) <=? m_index m)) in
      let grant := ((n_vote n =? 0) || (n_vote n =? m_from m)) && logUpToDate in
      let isVote := bool_decide (m_type m = MsgVote) in
      let n := send n (mkMessage (if isVote then MsgVoteResp else MsgPreVoteResp) (m_from m) (n_id n)
                         (n_term n) 0 0 0 (negb grant) 0 [] empty_snapshot []) in
      Some (if grant && isVote then set_tick 0 (set_vote (m_from m) n) else n)
  | MsgReadIndex => forward n
  | MsgReadIndexResp =>
      Some (set_readStates (n_readStates n ++ [mkReadState (m_index m) (m_context m)]) n)
  | MsgTimeoutNow => campaign st n
  | _ => Some n
  end.

Definition stepCandidate st n (m : Message) : option RawNode :=
  match m_type m with
  | MsgVoteResp | MsgPreVoteResp => pollVote st n (m_from m) (negb (m_reject m))
  | MsgApp | MsgHeartbeat | MsgSnap =>
      let n := if m_term m =? n_term n then becomeFollower n (m_term m) (m_from m) else n in
      stepFollower st n m
  | MsgTimeoutNow => campaign st n
  | _ => Some n
  end.

(** The reply to a message of an older term. *)
Definition stale_reply n (m : Message) : RawNode :=
  let reply t := send n (mkMessage t (m_from m) (n_id n) (n_term n) 0 0 0 true 0 [] empty_snapshot []) in
  match m_type m with
  | MsgApp => reply MsgAppResp
  | MsgHeartbeat => reply MsgHeartbeatResp
  | MsgSnap => reply MsgAppResp
  | MsgVote => reply MsgVoteResp
  | MsgPreVote => reply MsgPreVoteResp
  | _ => n
  end.

Definition step st n (m : Message) : option RawNode :=
  match m_type m with
  | MsgUnreachable => Some (set_pr (pr_alter becomeProbe (m_from m) (n_pr n)) n)
  | MsgSnapStatus =>
      match pr_find (m_from m) (n_pr n) with
      | None => Some n
      | Some pr =>
          let pr := becomeProbe pr in
          if m_reject m then Some (set_pr (pr_alter (fun _ => pr) (m_from m) (n_pr n)) n)
          else
            let pr := set_match_next (p_pendingSnapshotIndex pr) (p_pendingSnapshotIndex pr +u 1) pr in
            '(_, n) ← maybeCommit st (set_pr (pr_alter (fun _ => pr) (m_from m) (n_pr n)) n);
            Some n
      end
  | _ =>
      let n := if n_term n <? m_term m then
                 match m_type m with
                 | MsgPreVote | MsgPreVoteResp => n
                 | _ => becomeFollower n (m_term m) 0
                 end
               else n in
      if m_term m <? n_term n then Some (stale_reply n m) else
      match n_role n with
      | Leader => stepLeader st n m
      | Candidate | PreCandidate => stepCandidate st n m
      | Follower => stepFollower st n m
      end
  end.

(** ** Time *)

Definition tickHeartbeat n : option RawNode := broadcastHeartbeat n.

Definition tickElection st n : option (bool * RawNode) :=
  let n := set_tick (u32 (n_tickCount n + 1)) n in
  if n_randomizedElectionTick n <=? n_tickCount n then
    n ← campaign st n; Some (true, set_tick 0 n)
  else Some (false, n).

Definition tick st n : option (bool * RawNode) :=
  if bool_decide (n_role n = Leader) then
    let n := set_tick (u32 (n_tickCount n + 1)) n in
    if n_heartbeatTick n <=? n_tickCount n then
      n ← tickHeartbeat n; Some (true, set_tick 0 n)
    else Some (false, n)
  else tickElection st n.

(** ** Ready *)

Definition hasReady n : bool := true.

Definition makeHardState (t v c : Z) : HardState := mkHardState t v c.

Definition poll st n : Ready * RawNode :=
  let entries := unstableEntries (n_log n) in
  let lastIdx := match last entries with Some e => e_index e | None => n_lastReadyLastIndex n end in
  let hs := makeHardState (n_term n) (n_vote n) (commitIndex (n_log n)) in
  let committed := nextCommittedEntries st (n_log n) true in
  let lastApp := match last committed with Some e => e_index e | None => n_lastReadyApplied n end in
  (mkReady entries hs (n_msgs n) committed None (n_readStates n) false,
   set_output [] lastIdx lastApp [] (n_readRequestors n) n).

Definition advance st n : option RawNode :=
  n ← (if 0 <? n_lastReadyLastIndex n then
         t ← term st (n_log n) (n_lastReadyLastIndex n);
         let n := set_log (stableTo (n_log n) (n_lastReadyLastIndex n) t) n in
         Some (set_output (n_msgs n) 0 (n_lastReadyApplied n) (n_readStates n) (n_readRequestors n) n)
       else Some n);
  if 0 <? n_lastReadyApplied n then
    let n := set_log (appliedTo (n_log n) (n_lastReadyApplied n)) n in
    Some (set_output (n_msgs n) (n_lastReadyLastIndex n) 0 (n_readStates n) (n_readRequestors n) n)
  else Some n.
End RawNode.
