(* ===== verification/RaftActions.v ===== *)
(** * What a raft node does, in small actions

    Every handler of [RawNode] is a sequence of a few kinds of actions on the
    parts of the node that matter to safety: its election state, the
    unstable part of its log and its outgoing messages.  The invariants of a
    cluster are proved per action, and this file alone looks into the
    handlers. *)

From S2P Require Import Prelude StdMap RaftTypes LogUnstable RaftLog Progress ReadOnly RawNode.

(** ** Messages that matter to elections *)

Definition granted (m : Message) : bool := bool_decide (m_type m = MsgVoteResp) && negb (m_reject m).

Definition prevote (m : Message) : bool :=
  bool_decide (m_type m = MsgPreVote) || bool_decide (m_type m = MsgPreVoteResp).

(** A message without consequences: a reply, a heartbeat, a read. *)
Definition plain_msg (m : Message) : Prop :=
  granted m = false /\ prevote m = false
  /\ m_type m <> MsgVote /\ m_type m <> MsgApp /\ m_type m <> MsgSnap /\ m_type m <> MsgPropose.

(** What the node is given. *)
Inductive input := InTick | InMessage (m : Message) | InPropose (data : bytes) | InRead.

Definition message_of (i : input) : option Message :=
  match i with InMessage m => Some m | _ => None end.

(** The data of the entry a leader appends: nothing for its first entry, else
    what was proposed. *)
Definition supplies (i : input) (data : bytes) : Prop :=
  match i with
  | InMessage m => m_type m = MsgPropose
  | InPropose d => data = d
  | _ => False
  end.

(** ** Actions *)

Definition same_node (n n' : RawNode) : Prop :=
  n_id n' = n_id n /\ n_voters n' = n_voters n /\ n_lastReadyLastIndex n' = n_lastReadyLastIndex n.
Definition same_election (n n' : RawNode) : Prop :=
  n_role n' = n_role n /\ n_term n' = n_term n /\ n_vote n' = n_vote n /\ n_votes n' = n_votes n.
Definition same_log (n n' : RawNode) : Prop := rl_unstable (n_log n') = rl_unstable (n_log n).
Definition same_msgs (n n' : RawNode) : Prop := n_msgs n' = n_msgs n.

Section Actions.
Context `{!Platform} `{!Random} {St : Type} `{!Storage St}.
Implicit Types (st : St) (n : RawNode).

(** What a node does in any role: bookkeeping, messages, and the leader's
    batches and own entries.  The leader's log ends below [M]. *)
Inductive calm st (M : Z) (i : input) n n' : Prop :=
| calm_quiet :
    same_node n n' -> same_election n n' -> same_log n n' -> same_msgs n n' -> calm st M i n n'
| calm_send m : plain_msg m -> n' = send n m -> calm st M i n n'
| calm_batch m next :
    n_role n = Leader -> m_type m = MsgApp -> m_term m = n_term n ->
    firstIndex st (n_log n) <= next ->
    slice st (n_log n) next (lastIndex st (n_log n) +u 1) (n_maxSizePerMsg n) = Some (m_entries m) ->
    m_index m = (next -u 1) -> term st (n_log n) (next -u 1) = Some (m_logTerm m) ->
    n' = send n m -> calm st M i n n'
| calm_snapshot m :
    m_type m = MsgSnap -> s_index (snapshot st (n_log n)) <> 0 -> n' = send n m -> calm st M i n n'
| calm_append e :
    n_role n = Leader -> lastIndex st (n_log n) < M ->
    e_term e = n_term n -> e_index e = (lastIndex st (n_log n) +u 1) ->
    e_type e = Normal -> e_data e = [] \/ supplies i (e_data e) ->
    n' = set_log (append st (n_log n) [e]).2 n -> calm st M i n n'.

(** And what elections and the leader's messages make it do. *)
Inductive act st (M : Z) (i : input) n n' : Prop :=
| act_calm : calm st M i n n' -> act st M i n n'
| act_forward v m :
    i = InMessage v -> m_type v = MsgPropose \/ m_type v = MsgReadIndex -> m_type m = m_type v ->
    n' = send n m -> act st M i n n'
| act_request m :
    n_role n = Candidate -> m_type m = MsgVote -> m_from m = n_id n -> m_term m = n_term n ->
    n' = send n m -> act st M i n n'
| act_accept v ok log :
    i = InMessage v -> n_role n = Follower -> m_type v = MsgApp -> m_term v = n_term n ->
    maybeAppend st (n_log n) (m_index v) (m_logTerm v) (m_commit v) (m_entries v) = Some (ok, log) ->
    n' = set_log log n -> act st M i n n'
| act_restore v :
    i = InMessage v -> m_type v = MsgSnap -> n_role n = Follower ->
    n' = set_log (RaftLog.restore (n_log n) (m_snapshot v)) n -> act st M i n n'
| act_follow :
    same_node n n' -> same_log n n' -> same_msgs n n' ->
    n_role n' = Follower -> n_votes n' = [] -> n_vote n' = 0 ->
    n_term n < n_term n' < 2 ^ 64
    \/ n_term n' = n_term n /\ (n_role n = Candidate \/ n_role n = PreCandidate) ->
    act st M i n n'
| act_campaign :
    same_node n n' -> same_log n n' -> same_msgs n n' ->
    n_role n' = Candidate -> n_term n' = n_term n + 1 -> n_term n < 2 ^ 64 - 1 -> n_vote n' = n_id n -> n_votes n' = [n_id n] ->
    act st M i n n'
| act_elect :
    same_node n n' -> same_log n n' -> same_msgs n n' ->
    n_role n = Candidate \/ n_role n = PreCandidate -> n_role n' = Leader ->
    n_term n' = n_term n -> n_vote n' = n_vote n -> n_votes n' = n_votes n ->
    (quorum n <= length (n_votes n))%nat -> act st M i n n'
| act_grant v resp :
    i = InMessage v -> m_type v = MsgVote -> m_term v = n_term n ->
    granted resp = true -> prevote resp = false -> m_to resp = m_from v -> m_from resp = n_id n ->
    m_term resp = n_term n ->
    same_node n n' -> same_log n n' -> n_msgs n' = n_msgs n ++ [resp] ->
    n_role n = Follower -> n_role n' = Follower -> n_term n' = n_term n -> n_votes n' = n_votes n ->
    n_vote n = 0 \/ n_vote n = m_from v -> n_vote n' = m_from v -> act st M i n n'
| act_count v :
    i = InMessage v -> granted v = true -> m_term v = n_term n ->
    same_node n n' -> same_log n n' -> same_msgs n n' ->
    n_role n = Candidate \/ n_role n = PreCandidate ->
    n_role n' = n_role n -> n_term n' = n_term n -> n_vote n' = n_vote n ->
    m_from v ∉ n_votes n -> n_votes n' = n_votes n ++ [m_from v] -> act st M i n n'.

Definition calms st M i : relation RawNode := rtc (calm st M i).
Definition acts st M i : relation RawNode := rtc (act st M i).

#[global] Instance calms_preorder st M i : PreOrder (calms st M i).
Proof. unfold calms. apply _. Qed.
#[global] Instance acts_preorder st M i : PreOrder (acts st M i).
Proof. unfold acts. apply _. Qed.

Lemma calms_acts st M i n n' : calms st M i n n' -> acts st M i n n'.
Proof. apply rtc_subrel, act_calm. Qed.

Lemma calms_quiet st M i n n' :
  same_node n n' -> same_election n n' -> same_log n n' -> same_msgs n n' -> calms st M i n n'.
Proof. intros. by apply rtc_once, calm_quiet. Qed.

Lemma calms_send st M i n m : plain_msg m -> calms st M i n (send n m).
Proof. intros. by eapply rtc_once, calm_send. Qed.
End Actions.

(** Updates of other fields. *)
Ltac calm_update := apply calms_quiet; [by split_and!|by split_and!|reflexivity|reflexivity].
Ltac calm_message := apply calms_send; split_and!; (reflexivity || discriminate).
Ltac act_update := apply calms_acts; calm_update.
Ltac act_message := apply calms_acts; calm_message.

Ltac unbind Hs :=
  repeat match type of Hs with
  | mbind (M := option) _ ?x = Some _ =>
      let E := fresh "E" in destruct x eqn:E; cbn [mbind option_bind] in Hs; [|discriminate Hs]
  end.

(** ** The handlers *)

Section Handlers.
Context `{!Platform} `{!Random} {St : Type} `{!Storage St}.
Implicit Types (st : St) (n : RawNode).

Lemma sendSnapshot_calms st M i n to : calms st M i n (sendSnapshot st n to).
Proof.
  unfold sendSnapshot. destruct (sm_find _ _ _); [|done].
  destruct (Z.eqb_spec (s_index (snapshot st (n_log n))) 0); [done|].
  eapply rtc_r; [|eapply calm_snapshot; [| |reflexivity]; done]. calm_update.
Qed.

Lemma sendAppend_calms st M i n to n' :
  n_role n = Leader -> sendAppend st n to = Some n' -> calms st M i n n'.
Proof.
  unfold sendAppend. intros Hr Hs. destruct (sm_find _ _ _) as [pr|]; [|by simplify_eq].
  destruct (p_paused pr); [by simplify_eq|].
  destruct (bool_decide _); [simplify_eq; apply sendSnapshot_calms|].
  destruct (Z.ltb_spec (p_nextIndex pr) (firstIndex st (n_log n))); [simplify_eq; apply sendSnapshot_calms|].
  destruct (slice _ _ _ _ _) as [ents|] eqn:Esl; [|simplify_eq; apply sendSnapshot_calms].
  destruct (_ && _); [by simplify_eq|]. destruct (_ && _); [by simplify_eq|].
  match type of Hs with mbind (M := option) _ ?x = _ => destruct x as [pr'|] end;
    simpl in Hs; [|done].
  destruct (term _ _ _) as [t|] eqn:Et; simpl in Hs; [|done]. simplify_eq.
  eapply rtc_r; [|eapply (calm_batch _ _ _ _ _ _ (p_nextIndex pr)); [..|reflexivity]; done]. calm_update.
Qed.

(** What every send preserves, a broadcast preserves. *)
Lemma for_peers_rel (R : RawNode -> RawNode -> Prop) `{!PreOrder R} n f n' :
  (forall n id n', f n id = Some n' -> R n n') -> for_peers n f = Some n' -> R n n'.
Proof.
  intros Hf. unfold for_peers. generalize (n_pr n).*1 as l. intros l.
  assert (forall l acc, (forall x, acc = Some x -> R n x) ->
    forall x, foldl (fun acc id => n ← acc; if id =? n_id n then Some n else f n id) acc l = Some x ->
    R n x) as Hfold.
  { clear l. induction l as [|id l IH]; intros acc Hacc x Hx; simpl in Hx; [by apply Hacc|].
    apply IH in Hx; [done|]. clear x Hx IH. intros x Hx.
    destruct acc as [n1|]; simpl in Hx; [|done]. etransitivity; [by apply Hacc|].
    destruct (id =? n_id n1); [by simplify_eq|by apply Hf in Hx]. }
  apply Hfold. intros x Hx. by simplify_eq.
Qed.

(** Leaders stay leaders while they send. *)
Lemma sendAppend_role st n to n' : sendAppend st n to = Some n' -> n_role n' = n_role n.
Proof.
  assert (n_role (sendSnapshot st n to) = n_role n) as Hsn.
  { unfold sendSnapshot. destruct (sm_find _ _ _); [|done]. by destruct (_ =? 0). }
  unfold sendAppend. intros Hs. destruct (sm_find _ _ _) as [pr|]; [|by simplify_eq].
  destruct (p_paused pr); [by simplify_eq|]. destruct (bool_decide _); [by simplify_eq|].
  destruct (_ <? _); [by simplify_eq|]. destruct (slice _ _ _ _ _) as [ents|]; [|by simplify_eq].
  destruct (_ && _); [by simplify_eq|]. destruct (_ && _); [by simplify_eq|]. unbind Hs. by simplify_eq.
Qed.

Definition leader_only st M i n n' : Prop := n_role n = Leader -> calms st M i n n' /\ n_role n' = Leader.

#[local] Instance leader_only_preorder st M i : PreOrder (leader_only st M i).
Proof.
  split; [by intros n Hr|]. intros n1 n2 n3 H12 H23 Hr. destruct (H12 Hr) as [A1 R1].
  destruct (H23 R1) as [A2 R2]. split; [by etransitivity|done].
Qed.

Lemma broadcastAppend_calms st M i n n' :
  n_role n = Leader -> broadcastAppend st n = Some n' -> calms st M i n n' /\ n_role n' = Leader.
Proof.
  intros Hr Hs. revert Hr. change (leader_only st M i n n'). revert Hs.
  apply (for_peers_rel (leader_only st M i)). intros n0 id n1 Hs Hr.
  split; [by eapply sendAppend_calms|]. apply sendAppend_role in Hs. congruence.
Qed.

Lemma broadcastHeartbeat_calms st M i n n' : broadcastHeartbeat n = Some n' -> calms st M i n n'.
Proof. apply (for_peers_rel (calms st M i)). intros n0 id n1 E. simplify_eq. calm_message. Qed.

Lemma broadcastReadHeartbeat_calms st M i n ctx n' : broadcastReadHeartbeat n ctx = Some n' -> calms st M i n n'.
Proof. apply (for_peers_rel (calms st M i)). intros n0 id n1 E. simplify_eq. calm_message. Qed.

Lemma maybeCommit_calms st M i n b n' :
  maybeCommit st n = Some (b, n') -> calms st M i n n' /\ n_role n' = n_role n.
Proof.
  unfold maybeCommit. intros Hs. destruct (_ !! _); simpl in Hs; [|done].
  destruct (_ <? _); [|by simplify_eq]. destruct (term _ _ _); simpl in Hs; [|done].
  destruct (_ =? _); [|by simplify_eq].
  destruct (RaftLog.maybeCommit st (n_log n) z (n_term n)) as [[b0 log]|] eqn:E; cbn [mbind option_bind] in Hs; [|done].
  simplify_eq. split; [|done]. assert (rl_unstable log = rl_unstable (n_log n)) as Eu.
  { unfold RaftLog.maybeCommit in E. destruct (_ <? _); [|by simplify_eq].
    destruct (term _ _ _); cbn [mbind option_bind] in E; [|done]. by destruct (_ =? _); simplify_eq. }
  apply calms_quiet; [by split_and!|by split_and!|exact Eu|reflexivity].
Qed.

(* Unfolding a broadcast makes the kernel slow. *)
#[local] Strategy opaque [broadcastAppend].

(** A leader's append, then its own progress. *)
Lemma append_calms st M i n data :
  n_role n = Leader -> lastIndex st (n_log n) < M -> data = [] \/ supplies i data ->
  calms st M i n (self_progress st (set_log (append st (n_log n)
    [mkEntry (n_term n) (lastIndex st (n_log n) +u 1) Normal data]).2 n)).
Proof.
  intros Hr Hb Hd. eapply rtc_l; [eapply (calm_append _ _ _ _ _ (mkEntry _ _ _ data)); [..|reflexivity]; done|]. calm_update.
Qed.

Lemma propose_calms st M i n data b n' :
  lastIndex st (n_log n) < M -> data = [] \/ supplies i data -> propose st n data = Some (b, n') -> calms st M i n n'.
Proof.
  unfold propose. intros Hb Hd Hs. destruct (bool_decide (n_role n = Leader)) eqn:Er; cbn [negb] in Hs; [|by simplify_eq].
  apply bool_decide_eq_true in Er. cbn zeta in Hs.
  destruct (broadcastAppend st _) as [n2|] eqn:E in Hs; cbn [mbind option_bind] in Hs; [|done]. simplify_eq.
  apply (broadcastAppend_calms st M i) in E as [E _]; [|done].
  etransitivity; [|exact E]. by apply append_calms.
Qed.

Lemma readIndex_calms st M i n ctx b n' : readIndex n ctx = Some (b, n') -> calms st M i n n'.
Proof.
  unfold readIndex. intros Hs. destruct (negb _); [by simplify_eq|].
  destruct (bool_decide _); [by simplify_eq|]. destruct (bool_decide _).
  - destruct (broadcastReadHeartbeat _ _) as [n2|] eqn:E; simpl in Hs; [|done]. simplify_eq.
    apply (broadcastReadHeartbeat_calms st M i) in E. etransitivity; [|exact E]. calm_update.
  - simplify_eq. calm_update.
Qed.

(** The part of a heartbeat reply that confirms reads. *)
Definition ack_part n (m : Message) : option RawNode :=
  if bool_decide (m_context m = []) then Some n else
  let '(ackIndex, ro) := recvAck (n_readOnly n) m (quorum n) in
  let n := set_readOnly ro n in
  match ackIndex with
  | None => Some n
  | Some _ =>
      let ctx := m_context m in
      let '(idx, ro) := ro_advance (n_readOnly n) ctx in
      let n := set_readOnly ro n in
      match idx with
      | None => Some n
      | Some idx =>
          let n := set_readStates (n_readStates n ++ [mkReadState idx ctx]) n in
          match n_readRequestors n !! ctx with
          | None => Some n
          | Some to =>
              let n := set_readRequestors (delete ctx (n_readRequestors n)) n in
              Some (send n (mkMessage MsgReadIndexResp to (n_id n) (n_term n) 0 idx 0
                              false 0 [] empty_snapshot ctx))
          end
      end
  end.

Lemma ack_part_calms st M i n m n' : ack_part n m = Some n' -> calms st M i n n'.
Proof.
  unfold ack_part. intros Hs. destruct (bool_decide _); [by simplify_eq|].
  destruct (recvAck _ _ _) as [[j|] ro]; [|simplify_eq; calm_update].
  cbn zeta in Hs. destruct (ro_advance _ _) as [[k|] ro'] ; [|simplify_eq; calm_update].
  cbn zeta in Hs. destruct (_ !! _); simplify_eq; [|calm_update].
  etransitivity; [|calm_message]. calm_update.
Qed.

Lemma stepLeader_calms st M n m n' :
  n_role n = Leader -> lastIndex st (n_log n) < M -> stepLeader st n m = Some n' -> calms st M (InMessage m) n n'.
Proof.
  unfold stepLeader. intros Hr Hb Hs. destruct (m_type m) eqn:Ety; try (by simplify_eq).
  - unbind Hs. destruct p. simplify_eq. eapply propose_calms; [done|by right|exact E].
  - destruct (sm_find _ _ _) as [pr|]; [|by simplify_eq]. destruct (m_reject m).
    + cbn zeta in Hs. eapply sendAppend_calms in Hs; [|done]. etransitivity; [|exact Hs]. calm_update.
    + unbind Hs. cbn zeta in Hs. unbind Hs. destruct p0 as [b n1].
      eapply maybeCommit_calms in E0 as [E0 Er]. etransitivity; [etransitivity; [|exact E0]; calm_update|].
      clear E0. assert (n_role n1 = Leader) as Hr1 by (rewrite Er; done). clear Er.
      unbind Hs. assert (calms st M (InMessage m) n1 r /\ n_role r = Leader) as [Ea Hr2].
      { destruct b; [by eapply broadcastAppend_calms in E0|by simplify_eq]. }
      etransitivity; [exact Ea|]. destruct (sm_find _ _ _); [|by simplify_eq].
      destruct (bool_decide _); [by eapply sendAppend_calms in Hs|by simplify_eq].
  - destruct (sm_find _ _ _) as [pr|]; [|by simplify_eq]. unbind Hs.
    apply (ack_part_calms st M (InMessage m)) in Hs. etransitivity; [|exact Hs]. clear Hs.
    repeat case_match; simplify_eq; try done; by eapply sendAppend_calms in E.
  - destruct (bool_decide _); [by simplify_eq|]. cbn zeta in Hs.
    destruct (_ =? _), (bool_decide _); simplify_eq; try calm_update;
      apply (broadcastReadHeartbeat_calms st M (InMessage m)) in Hs; (etransitivity; [|exact Hs]); calm_update.
Qed.

Lemma becomeLeader_acts st M i n n' :
  n_role n = Candidate \/ n_role n = PreCandidate -> (quorum n <= length (n_votes n))%nat ->
  lastIndex st (n_log n) < M -> becomeLeader st n = Some n' -> acts st M i n n'.
Proof.
  intros Hr Hq Hb Hs. unfold becomeLeader in Hs. cbn zeta in Hs.
  set (n1 := set_election Leader (n_term n) (n_id n) (n_vote n) (n_votes n) n) in Hs.
  set (n2 := self_replicate _) in Hs.
  assert (calms st M i n1 n2) as H2 by calm_update. assert (n_role n2 = Leader) as Hr2 by done.
  assert (calms st M i n2 (append_noop st n2) /\ n_role (append_noop st n2) = Leader) as [H3 Hr3].
  { unfold append_noop. destruct (_ <=? _); [|done]. split; [|done]. apply append_calms; [done|done|by left]. }
  apply (broadcastAppend_calms st M i) in Hs as [Hs _]; [|done].
  eapply rtc_l; [|apply calms_acts; etransitivity; [exact H2|etransitivity; [exact H3|exact Hs]]].
  apply act_elect; done.
Qed.

Lemma vote_requests_acts st M i n n' l :
  n_role n = Candidate ->
  foldl (fun acc id =>
      n ← acc;
      if id =? n_id n then Some n else
      lt ← lastTerm st (n_log n);
      Some (send n (mkMessage MsgVote id (n_id n) (n_term n) lt (lastIndex st (n_log n)) 0 false 0 []
                      empty_snapshot [])))
    (Some n) l = Some n' -> acts st M i n n'.
Proof.
  revert n. induction l as [|id l IH]; intros n Hr Hs; [by simplify_eq/=|].
  cbn [foldl mbind option_bind] in Hs. destruct (id =? n_id n); [by apply IH|].
  destruct (lastTerm st (n_log n)) as [lt|]; cbn [mbind option_bind] in Hs.
  - eapply rtc_l; [|apply IH, Hs; done]. eapply act_request; [..|reflexivity]; done.
  - exfalso. clear IH. induction l as [|? l IH]; [done|]. by apply IH.
Qed.

Lemma campaign_acts st M i n n' :
  0 <= n_term n < 2 ^ 64 - 1 -> lastIndex st (n_log n) < M -> campaign st n = Some n' -> acts st M i n n'.
Proof.
  intros Ht Hb Hs. unfold campaign in Hs. set (n1 := becomeCandidate n) in Hs.
  eapply rtc_l with n1.
  - apply act_campaign; try done; [|lia].
    subst n1. cbn [n_term becomeCandidate set_election randomize set_timing set_readOnly set_repl].
    apply u64_small. mach.
  - destruct (bool_decide _) eqn:E.
    + apply bool_decide_eq_true in E. eapply becomeLeader_acts; [by left| |done|exact Hs].
      rewrite E. subst n1. cbn. lia.
    + by apply (vote_requests_acts st M i) in Hs.
Qed.

Lemma pollVote_acts st M n m n' :
  n_role n = Candidate \/ n_role n = PreCandidate -> m_type m = MsgVoteResp -> m_term m = n_term n ->
  lastIndex st (n_log n) < M -> pollVote st n (m_from m) (negb (m_reject m)) = Some n' -> acts st M (InMessage m) n n'.
Proof.
  intros Hr Hty Ht Hb Hs. unfold pollVote in Hs.
  destruct (bool_decide (m_from m ∈ n_votes n)) eqn:E; [by simplify_eq|].
  apply bool_decide_eq_false in E.
  destruct (m_reject m) eqn:Erej; cbn [negb] in Hs; [by simplify_eq|].
  set (n1 := set_votes (n_votes n ++ [m_from m]) n) in Hs. apply rtc_l with n1.
  - eapply act_count; try done. unfold granted. by rewrite Hty, Erej.
  - destruct (bool_decide _) eqn:Eq; [|by simplify_eq].
    apply bool_decide_eq_true in Eq. by eapply becomeLeader_acts.
Qed.

Lemma stepFollower_acts st M n m n' :
  n_role n = Follower -> 0 <= n_term n < 2 ^ 64 - 1 -> prevote m = false -> m_term m = n_term n ->
  lastIndex st (n_log n) < M -> stepFollower st n m = Some n' -> acts st M (InMessage m) n n'.
Proof.
  intros Hr Ht Hpv Hmt Hb Hs. unfold stepFollower in Hs.
  destruct (m_type m) eqn:Ety; try (by simplify_eq).
  - destruct (_ =? _); simplify_eq; [done|]. eapply rtc_once, act_forward; [done|by left| |done]; done.
  - unbind Hs. destruct p as [ok log]. simplify_eq.
    etransitivity; [|destruct ok; act_message].
    eapply rtc_l with (set_tick 0 (set_lead (m_from m) n)); [by apply act_calm, calm_quiet|].
    eapply rtc_once, act_accept; [..|exact E|reflexivity]; done.
  - unbind Hs. change (bool_decide (MsgVote = MsgVote)) with true in Hs.
    cbn zeta in Hs. rewrite andb_true_r in Hs.
    destruct (((n_vote n =? 0) || (n_vote n =? m_from m)) && _) eqn:Eg; simplify_eq.
    + apply rtc_once. apply andb_true_iff in Eg as [Eg _].
      eapply act_grant; [done|done|done| | | | | | | |reflexivity|..]; try done.
      apply orb_true_iff in Eg as [Eg|Eg]; apply Z.eqb_eq in Eg; auto.
    + act_message.
  - unfold prevote in Hpv. by rewrite Ety in Hpv.
  - simplify_eq. etransitivity; [|act_message].
    eapply rtc_l with (set_tick 0 (set_lead (m_from m) n)); [by apply act_calm, calm_quiet|].
    eapply rtc_l; [eapply act_restore; [..|reflexivity]; done|]. act_update.
  - simplify_eq. etransitivity; [|act_message].
    destruct (_ <? _); [|act_update]. apply calms_acts, calms_quiet; [by split_and!|by split_and!| |reflexivity].
    unfold same_log. simpl. unfold commitTo. by destruct (_ <? _).
  - by eapply campaign_acts.
  - destruct (_ =? _); simplify_eq; [done|]. eapply rtc_once, act_forward; [done|by right| |done]; done.
  - simplify_eq. act_update.
Qed.

Lemma becomeFollower_act st M i n t lead :
  n_term n < t < 2 ^ 64 \/ t = n_term n /\ (n_role n = Candidate \/ n_role n = PreCandidate) ->
  act st M i n (becomeFollower n t lead).
Proof. intros Ht. by apply act_follow. Qed.

Lemma stepCandidate_acts st M n m n' :
  n_role n = Candidate \/ n_role n = PreCandidate -> 0 <= n_term n < 2 ^ 64 - 1 ->
  prevote m = false -> m_term m = n_term n ->
  lastIndex st (n_log n) < M -> stepCandidate st n m = Some n' -> acts st M (InMessage m) n n'.
Proof.
  intros Hr Ht Hpv Hmt Hb Hs. unfold stepCandidate in Hs.
  assert (stepFollower st (becomeFollower n (m_term m) (m_from m)) m = Some n' ->
          acts st M (InMessage m) n n') as Hdown.
  { intros Hd. eapply rtc_l; [|apply (stepFollower_acts st M) in Hd; [exact Hd|done| |done|done|done]].
    - apply becomeFollower_act. by right.
    - cbn. by rewrite Hmt. }
  rewrite (proj2 (Z.eqb_eq _ _) Hmt) in Hs.
  destruct (m_type m) eqn:Ety; try (by simplify_eq); try (by apply Hdown).
  - by apply (pollVote_acts st M) in Hs.
  - unfold prevote in Hpv. by rewrite Ety in Hpv.
  - by eapply campaign_acts.
Qed.

Lemma stale_reply_acts st M i n m : prevote m = false -> acts st M i n (stale_reply n m).
Proof.
  intros Hpv. unfold stale_reply. destruct (m_type m) eqn:E; try done; try act_message.
  unfold prevote in Hpv. by rewrite E in Hpv.
Qed.

(** [RawNode::step], with terms below the last value of the counter. *)
Lemma step_acts st M n m n' :
  0 <= n_term n < 2 ^ 64 - 1 -> m_term m < 2 ^ 64 - 1 -> prevote m = false ->
  lastIndex st (n_log n) < M -> step st n m = Some n' -> acts st M (InMessage m) n n'.
Proof.
  intros Ht Hmt Hpv Hb Hs. unfold step in Hs.
  assert (forall n1, 0 <= n_term n1 < 2 ^ 64 - 1 -> m_term m <= n_term n1 -> n_log n1 = n_log n ->
    (if m_term m <? n_term n1 then Some (stale_reply n1 m) else
     match n_role n1 with
     | Leader => stepLeader st n1 m
     | Candidate | PreCandidate => stepCandidate st n1 m
     | Follower => stepFollower st n1 m
     end) = Some n' -> acts st M (InMessage m) n1 n') as Hrest.
  { intros n1 Ht1 Hle Hl1 Hn1. rewrite <- Hl1 in Hb. destruct (Z.ltb_spec (m_term m) (n_term n1)).
    - simplify_eq. by apply stale_reply_acts.
    - destruct (n_role n1) eqn:Er.
      + apply (stepFollower_acts st M) in Hn1; auto with lia.
      + apply (stepCandidate_acts st M) in Hn1; auto with lia.
      + by apply calms_acts; apply (stepLeader_calms st M) in Hn1.
      + apply (stepCandidate_acts st M) in Hn1; auto with lia. }
  assert (forall n1, n1 = (if n_term n <? m_term m then becomeFollower n (m_term m) 0 else n) ->
    acts st M (InMessage m) n1 n' -> acts st M (InMessage m) n n') as Hup.
  { intros n1 -> Hm. destruct (Z.ltb_spec (n_term n) (m_term m)); [|done].
    eapply rtc_l; [|exact Hm]. apply becomeFollower_act. left. lia. }
  destruct (m_type m) eqn:Ety;
    try (eapply Hup; [done|]; apply Hrest; [..|exact Hs];
         destruct (Z.ltb_spec (n_term n) (m_term m)); cbn; (lia || done));
    try (by unfold prevote in Hpv; rewrite Ety in Hpv).
  - simplify_eq. act_update.
  - destruct (sm_find _ _ _); [|by simplify_eq]. cbn zeta in Hs.
    destruct (m_reject m); [simplify_eq; act_update|]. unbind Hs. destruct p0. simplify_eq.
    eapply maybeCommit_calms in E as [E _]. apply calms_acts. etransitivity; [|exact E]. calm_update.
Qed.

Lemma tick_acts st M n b n' :
  0 <= n_term n < 2 ^ 64 - 1 -> lastIndex st (n_log n) < M -> tick st n = Some (b, n') -> acts st M InTick n n'.
Proof.
  intros Ht Hb Hs. unfold tick in Hs.
  set (n1 := set_tick (u32 (n_tickCount n + 1)) n) in Hs.
  assert (acts st M InTick n n1) as Hq by act_update. etransitivity; [exact Hq|].
  destruct (bool_decide _).
  - destruct (_ <=? _); [|by simplify_eq].
    unbind Hs. simplify_eq. apply (broadcastHeartbeat_calms st M InTick), calms_acts in E.
    etransitivity; [exact E|]. act_update.
  - unfold tickElection in Hs. fold n1 in Hs.
    destruct (_ <=? _); [|by simplify_eq]. unbind Hs. simplify_eq.
    etransitivity; [by eapply campaign_acts|]. act_update.
Qed.
End Handlers.
