(* ===== verification/RaftElection.v ===== *)
(** * Elections

    What the actions of a node do to its election state, as a few kinds of
    small moves ([micro]).  Over them, a cluster of nodes that exchange
    messages through an unreliable network (any delay, loss, reordering or
    duplication, arbitrary storage contents, forged messages of every kind
    except votes) never has two leaders in one term. *)

From S2P Require Import Prelude StdMap RaftTypes LogUnstable RaftLog Progress ReadOnly RawNode RaftActions.

Definition quiet_msg (m : Message) : Prop := granted m = false /\ prevote m = false.

(** ** Small moves *)

Definition grows (n n' : RawNode) (ms : list Message) : Prop :=
  n_id n' = n_id n /\ n_voters n' = n_voters n /\ n_msgs n' = n_msgs n ++ ms.

(** Nothing about the election changes. *)
Definition quiet (n n' : RawNode) : Prop :=
  n_role n' = n_role n /\ n_term n' = n_term n /\ n_vote n' = n_vote n /\ n_votes n' = n_votes n
  /\ exists ms, grows n n' ms /\ Forall quiet_msg ms.

Inductive micro (m : option Message) (n n' : RawNode) : Prop :=
| mi_quiet : quiet n n' -> micro m n n'
| mi_follow :
    grows n n' [] -> n_role n' = Follower -> n_votes n' = [] ->
    n_term n < n_term n' \/ n_term n' = n_term n /\ n_role n <> Follower ->
    micro m n n'
| mi_campaign :
    grows n n' [] -> n_role n' = Candidate -> n_term n' = n_term n + 1 ->
    n_vote n' = n_id n -> n_votes n' = [n_id n] -> micro m n n'
| mi_elect :
    grows n n' [] -> n_role n = Candidate \/ n_role n = PreCandidate -> n_role n' = Leader ->
    n_term n' = n_term n -> n_vote n' = n_vote n -> n_votes n' = n_votes n ->
    (quorum n <= length (n_votes n))%nat -> micro m n n'
| mi_grant c resp :
    grows n n' [resp] -> granted resp = true -> prevote resp = false ->
    m_to resp = c -> m_from resp = n_id n -> m_term resp = n_term n ->
    n_role n = Follower -> n_role n' = Follower -> n_term n' = n_term n ->
    n_votes n' = n_votes n -> n_vote n = 0 \/ n_vote n = c -> n_vote n' = c -> micro m n n'
| mi_count v :
    m = Some v -> granted v = true -> m_term v = n_term n ->
    grows n n' [] -> n_role n = Candidate \/ n_role n = PreCandidate ->
    n_role n' = n_role n -> n_term n' = n_term n -> n_vote n' = n_vote n ->
    m_from v ∉ n_votes n -> n_votes n' = n_votes n ++ [m_from v] -> micro m n n'.

Abbreviation moves m := (rtc (micro m)).

#[global] Instance quiet_preorder : PreOrder quiet.
Proof.
  split.
  - intros n. split_and!; [done..|]. exists []. split; [|constructor].
    split_and!; [done..|by rewrite app_nil_r].
  - intros n1 n2 n3 (H1 & H2 & H3 & H4 & ms1 & (H5 & H6 & H7) & H8)
      (G1 & G2 & G3 & G4 & ms2 & (G5 & G6 & G7) & G8).
    split_and!; [congruence..|]. exists (ms1 ++ ms2). split; [|by apply Forall_app_2].
    split_and!; [congruence..|]. by rewrite G7, H7, <- app_assoc.
Qed.

Lemma quiet_send n m : quiet_msg m -> quiet n (send n m).
Proof.
  intros Hm. split_and!; [done..|]. exists [m]. split; [done|]. by apply Forall_singleton.
Qed.

(** Updates of fields outside the election state. *)
Lemma quiet_same n n' :
  n_id n' = n_id n -> n_voters n' = n_voters n -> n_msgs n' = n_msgs n ->
  n_role n' = n_role n -> n_term n' = n_term n -> n_vote n' = n_vote n -> n_votes n' = n_votes n ->
  quiet n n'.
Proof.
  intros. split_and!; [done..|]. exists []. split; [|constructor].
  split_and!; [done..|by rewrite app_nil_r].
Qed.

Ltac quiet_update := apply quiet_same; reflexivity.

Section Handlers.
Context `{!Platform} `{!Random} {St : Type} `{!Storage St}.
Implicit Types (st : St) (n : RawNode).

Lemma grows_nil n n' : same_node n n' -> same_msgs n n' -> grows n n' [].
Proof. intros (? & ? & _) Hm. split_and!; [done..|]. by rewrite app_nil_r. Qed.

(** A message that is neither a vote nor a pre-vote. *)
Lemma quiet_type n m :
  m_type m <> MsgVoteResp -> m_type m <> MsgPreVote -> m_type m <> MsgPreVoteResp -> quiet n (send n m).
Proof.
  intros H1 H2 H3. apply quiet_send. unfold quiet_msg, granted, prevote.
  by rewrite !bool_decide_eq_false_2.
Qed.

Lemma calm_quiet_move st M i n n' : calm st M i n n' -> quiet n n'.
Proof.
  intros [(? & ? & _) (? & ? & ? & ?) _ ?|m (? & ? & _) ->|m next _ E _ _ _ _ _ ->|m E _ ->|e _ _ _ _ _ _ ->].
  - by apply quiet_same.
  - by apply quiet_send.
  - apply quiet_type; congruence.
  - apply quiet_type; congruence.
  - quiet_update.
Qed.

Lemma act_micro st M i n n' : act st M i n n' -> micro (message_of i) n n'.
Proof.
  intros [Hc|v m _ Hty E ->|m _ E _ _ ->|v ok log _ _ _ _ _ ->|v _ _ _ ->|Hn _ Hm Hr Hvs _ Ht
    |Hn _ Hm Hr Ht _ Hv Hvs|Hn _ Hm Hr Hr' Ht Hv Hvs Hq
    |v resp -> _ Ht Hg Hp Hto Hf Htr (Hi & HV & _) _ Hm Hr Hr' Ht' Hvs Hv Hv'
    |v -> Hg Ht Hn _ Hm Hr Hr' Ht' Hv Hin Hvs].
  - by apply mi_quiet, (calm_quiet_move st M i).
  - apply mi_quiet, quiet_type; destruct Hty; congruence.
  - apply mi_quiet, quiet_type; congruence.
  - apply mi_quiet. quiet_update.
  - apply mi_quiet. quiet_update.
  - apply mi_follow; [by apply grows_nil|done|done|].
    destruct Ht as [[? _]|[? [?|?]]]; [by left|right..]; (split; [done|congruence]).
  - apply mi_campaign; [by apply grows_nil|done..].
  - apply mi_elect; [by apply grows_nil|done..].
  - eapply (mi_grant _ _ _ (m_from v)); [done|..]; done.
  - eapply mi_count; [done|done|done|by apply grows_nil|done..].
Qed.

Lemma acts_moves st M i n n' : acts st M i n n' -> moves (message_of i) n n'.
Proof. apply rtc_subrel, act_micro. Qed.

Lemma step_moves st n m n' :
  0 <= n_term n < 2 ^ 64 - 1 -> m_term m < 2 ^ 64 - 1 -> prevote m = false ->
  step st n m = Some n' -> moves (Some m) n n'.
Proof. intros ? ? ? Hs. apply (acts_moves st (lastIndex st (n_log n) + 1) (InMessage m)), step_acts; (done || lia). Qed.

Lemma tick_moves st n b n' :
  0 <= n_term n < 2 ^ 64 - 1 -> tick st n = Some (b, n') -> moves None n n'.
Proof. intros ? Hs. eapply (acts_moves st (lastIndex st (n_log n) + 1) InTick), tick_acts; [done|lia|done]. Qed.

Lemma propose_moves st n data b n' : propose st n data = Some (b, n') -> moves None n n'.
Proof. intros Hs. 
  apply (acts_moves st (lastIndex st (n_log n) + 1) (InPropose data)), calms_acts.
  eapply propose_calms, Hs; [lia|by right]. Qed.

Lemma moves_quiet m n n' : quiet n n' -> moves m n n'.
Proof. intros Hq. apply rtc_once. by constructor. Qed.

Lemma advance_quiet st n n' : advance st n = Some n' -> quiet n n'.
Proof.
  unfold advance. intros Hs. unbind Hs. trans r.
  - destruct (0 <? n_lastReadyLastIndex n); [|by simplify_eq].
    destruct (term st (n_log n) (n_lastReadyLastIndex n)) as [t|]; [|done].
    injection E as <-. quiet_update.
  - clear E. destruct (_ <? _); simplify_eq; [quiet_update|done].
Qed.
End Handlers.

(** A read looks at no storage: any will do. *)
#[local] Instance no_storage : Storage unit := {|
  st_initialState _ := mkInitialState (mkHardState 0 0 0) (mkConfState [] []);
  st_entries _ _ _ _ := None; st_term _ _ := None; st_firstIndex _ := 1; st_lastIndex _ := 0;
  st_snapshot _ := empty_snapshot |}.

Lemma readIndex_moves `{!Platform} `{!Random} n ctx b n' :
  readIndex n ctx = Some (b, n') -> moves None n n'.
Proof. intros Hs. by apply (readIndex_calms tt 0 InRead), calms_acts, acts_moves in Hs. Qed.
