(* ===== verification/RaftLocal.v ===== *)
(** * A raft node on its own

    Ticks, proposals, reads, polls and advances, the operations that need no
    message from another node.  None of them moves the commit index. *)

From S2P Require Import Prelude StdMap RaftTypes LogUnstable WriteAheadLog RaftLogTheorems.
From S2P Require Import RaftLog Progress ReadOnly RawNode RaftActions RaftElection.

Inductive local_op := LTick | LPropose (data : bytes) | LRead (ctx : bytes) | LPoll | LAdvance.

Section Local.
Context `{!Platform} `{!Random} {St : Type} `{!Storage St}.
Implicit Types (st : St) (n : RawNode).

Definition local_step st n (o : local_op) : option RawNode :=
  match o with
  | LTick => snd <$> tick st n
  | LPropose data => snd <$> propose st n data
  | LRead ctx => snd <$> readIndex n ctx
  | LPoll => Some (poll st n).2
  | LAdvance => advance st n
  end.

Definition committed n : Z := commitIndex (n_log n).

(** The commit and applied indices. *)
Definition marks n : Z * Z := (commitIndex (n_log n), appliedIndex (n_log n)).

Lemma marks_log n n' : n_log n' = n_log n -> marks n' = marks n.
Proof. unfold marks. by intros ->. Qed.

Lemma append_marks st l es :
  rl_committed (append st l es).2 = rl_committed l /\ rl_applied (append st l es).2 = rl_applied l.
Proof. unfold append. destruct es; [done|]. by destruct (_ <? _). Qed.

Lemma sendAppend_log st n to n' : sendAppend st n to = Some n' -> n_log n' = n_log n.
Proof.
  assert (n_log (sendSnapshot st n to) = n_log n) as Hsn.
  { unfold sendSnapshot. destruct (sm_find _ _ _); [|done]. by destruct (_ =? 0). }
  unfold sendAppend. intros Hs. destruct (sm_find _ _ _) as [pr|]; [|by simplify_eq].
  destruct (p_paused pr); [by simplify_eq|].
  destruct (bool_decide _); [by simplify_eq|].
  destruct (_ <? _); [by simplify_eq|].
  destruct (slice _ _ _ _ _) as [ents|]; [|by simplify_eq].
  destruct (_ && _); [by simplify_eq|]. destruct (_ && _); [by simplify_eq|]. unbind Hs.
  by simplify_eq.
Qed.

#[local] Instance same_log_preorder : PreOrder (fun n n' : RawNode => n_log n' = n_log n).
Proof. split; [done|]. intros n1 n2 n3 E1 E2. congruence. Qed.

Lemma broadcastAppend_log st n n' : broadcastAppend st n = Some n' -> n_log n' = n_log n.
Proof. apply (for_peers_rel (fun n n' => n_log n' = n_log n)). apply sendAppend_log. Qed.

Lemma broadcastHeartbeat_log n n' : broadcastHeartbeat n = Some n' -> n_log n' = n_log n.
Proof.
  apply (for_peers_rel (fun n n' => n_log n' = n_log n)). intros n0 id n1 E. by simplify_eq.
Qed.

Lemma broadcastReadHeartbeat_log n ctx n' :
  broadcastReadHeartbeat n ctx = Some n' -> n_log n' = n_log n.
Proof.
  apply (for_peers_rel (fun n n' => n_log n' = n_log n)). intros n0 id n1 E. by simplify_eq.
Qed.

(** The changes that leave the log alone. *)
Lemma set_pr_log pr n : n_log (set_pr pr n) = n_log n.
Proof. done. Qed.
Lemma set_election_log r t l v vs n : n_log (set_election r t l v vs n) = n_log n.
Proof. done. Qed.
Lemma set_tick_log t n : n_log (set_tick t n) = n_log n.
Proof. done. Qed.
Lemma set_log_log l n : n_log (set_log l n) = l.
Proof. done. Qed.
Lemma self_progress_log st n : n_log (self_progress st n) = n_log n.
Proof. apply set_pr_log. Qed.

Lemma append_noop_marks st n : marks (append_noop st n) = marks n.
Proof.
  unfold append_noop. destruct (_ <=? _); [|done]. cbn zeta. unfold marks.
  rewrite self_progress_log, set_log_log. unfold commitIndex, appliedIndex.
  destruct (append_marks st (n_log n) [mkEntry (n_term n) (lastIndex st (n_log n) +u 1) Normal []])
    as [-> ->]. done.
Qed.

Lemma self_replicate_log n : n_log (self_replicate n) = n_log n.
Proof. apply set_pr_log. Qed.
Lemma init_progress_log st n : n_log (init_progress st n) = n_log n.
Proof. apply set_pr_log. Qed.

(* The kernel should unfold [becomeLeader] first. *)
#[local] Strategy opaque [broadcastAppend append_noop self_replicate self_progress init_progress].

Lemma becomeLeader_marks st n n' : becomeLeader st n = Some n' -> marks n' = marks n.
Proof.
  intros Hs. unfold becomeLeader in Hs. cbn zeta in Hs. apply broadcastAppend_log, marks_log in Hs.
  rewrite Hs, append_noop_marks. apply marks_log.
  by rewrite self_replicate_log, self_progress_log, init_progress_log, set_tick_log, set_election_log.
Qed.

Lemma campaign_marks st n n' : campaign st n = Some n' -> marks n' = marks n.
Proof.
  unfold campaign. intros Hs. destruct (bool_decide _).
  - by apply becomeLeader_marks in Hs.
  - change (marks n) with (marks (becomeCandidate n)). revert Hs.
    generalize (n_voters (becomeCandidate n)) as l. generalize (becomeCandidate n) as n0.
    intros n0 l. revert n0. induction l as [|id l IH]; intros n0 Hs; [by simplify_eq/=|].
    cbn [foldl mbind option_bind] in Hs. destruct (id =? n_id n0); [by apply IH|].
    destruct (lastTerm st (n_log n0)); cbn [mbind option_bind] in Hs.
    + apply IH in Hs. exact Hs.
    + exfalso. clear IH. induction l as [|? l IH]; [done|]. by apply IH.
Qed.

Lemma propose_marks st n data b n' : propose st n data = Some (b, n') -> marks n' = marks n.
Proof.
  unfold propose. intros Hs. destruct (negb _); [by simplify_eq|]. cbn zeta in Hs. unbind Hs.
  simplify_eq. apply broadcastAppend_log, marks_log in E. rewrite E. unfold marks.
  rewrite self_progress_log, set_log_log. unfold commitIndex, appliedIndex.
  destruct (append_marks st (n_log n) [mkEntry (n_term n) (lastIndex st (n_log n) +u 1) Normal data])
    as [-> ->]. done.
Qed.

Lemma readIndex_marks n ctx b n' : readIndex n ctx = Some (b, n') -> marks n' = marks n.
Proof.
  unfold readIndex. intros Hs. destruct (negb _); [by simplify_eq|].
  destruct (bool_decide _); [by simplify_eq|]. destruct (bool_decide _); [|by simplify_eq].
  unbind Hs. simplify_eq. apply broadcastReadHeartbeat_log in E. by apply marks_log.
Qed.

Lemma tick_marks st n b n' : tick st n = Some (b, n') -> marks n' = marks n.
Proof.
  unfold tick. intros Hs. destruct (bool_decide _).
  - cbn zeta in Hs. destruct (_ <=? _); [|by simplify_eq]. unbind Hs. simplify_eq.
    apply broadcastHeartbeat_log in E. apply marks_log. by rewrite set_tick_log, E.
  - unfold tickElection in Hs. cbn zeta in Hs. destruct (_ <=? _); [|by simplify_eq].
    unbind Hs. simplify_eq. by apply campaign_marks in E.
Qed.

(** What is marked applied was committed. *)
Lemma advance_marks st n n' :
  advance st n = Some n' ->
  committed n' = committed n
  /\ (appliedIndex (n_log n') = appliedIndex (n_log n)
      \/ appliedIndex (n_log n) <= appliedIndex (n_log n') <= committed n).
Proof.
  unfold advance. intros Hs. unbind Hs.
  assert (marks r = marks n) as Em.
  { clear Hs. destruct (0 <? n_lastReadyLastIndex n); [|by simplify_eq].
    destruct (term st (n_log n) (n_lastReadyLastIndex n)) as [t|]; [|done].
    injection E as <-. done. }
  unfold marks in Em. injection Em as Ec Ea. unfold committed. rewrite <- Ec, <- Ea. clear E Ec Ea.
  unfold commitIndex, appliedIndex, appliedTo in *.
  destruct (0 <? n_lastReadyApplied r); simplify_eq; [|by split; [|left]]. simpl.
  destruct (_ || _) eqn:Eo; [by split; [|left]|]. simpl. split; [done|]. right. lia.
Qed.

Lemma local_step_committed st n o n' : local_step st n o = Some n' -> committed n' = committed n.
Proof.
  assert (forall n1, marks n1 = marks n -> committed n1 = committed n) as Hm by (by intros n1 [=]).
  destruct o; simpl; intros Hs; try (apply fmap_Some in Hs as ([b n1] & Hs & ->)); simpl.
  - by eapply Hm, tick_marks.
  - by eapply Hm, propose_marks.
  - by eapply Hm, readIndex_marks.
  - by simplify_eq.
  - by apply advance_marks in Hs as [? _].
Qed.

(** With nothing committed, nothing becomes ready to apply. *)
Lemma local_step_idle st n o n' :
  local_step st n o = Some n' -> marks n = (0, 0) -> marks n' = (0, 0).
Proof.
  destruct o; simpl; intros Hs; try (apply fmap_Some in Hs as ([b n1] & Hs & ->)); simpl; intros Hm.
  - by rewrite (tick_marks _ _ _ _ Hs).
  - by rewrite (propose_marks _ _ _ _ _ Hs).
  - by rewrite (readIndex_marks _ _ _ _ Hs).
  - by simplify_eq.
  - apply advance_marks in Hs. unfold marks, committed in *. injection Hm as Ec Ea. rewrite Ec, Ea in Hs.
    f_equal; [tauto|]. destruct Hs as [_ [?|?]]; lia.
Qed.

Lemma poll_idle st n : marks n = (0, 0) -> rd_committedEntries (poll st n).1 = [] /\ rd_snapshot (poll st n).1 = None.
Proof.
  unfold marks, commitIndex, appliedIndex, poll, nextCommittedEntries. intros [= Ec Ea].
  simpl. by rewrite Ec, Ea.
Qed.
End Local.
