(* ===== verification/RaftCluster.v ===== *)
(** * A cluster of raft nodes

    Nodes run [RawNode]'s operations and exchange messages through a network
    that may delay, lose, reorder and duplicate them, and that may inject
    messages of its own except granted votes and pre-votes.  A host polls its
    node, then persists the hard state and sends the messages; it can crash
    at any moment, between these two or in the middle of sending, and restart
    from the hard state it persisted.  The storage an operation reads is
    arbitrary each time.  No term reaches the last value of the 64-bit
    counter.  The invariant [election_inv] of every reachable cluster gives
    election safety: one leader per term. *)

From S2P Require Import Prelude StdMap RaftTypes LogUnstable RaftLog Progress ReadOnly RawNode.
From S2P Require Import RaftActions RaftElection.

(** A node, the hard state its files hold, and what was polled but not yet
    persisted and sent. *)
Record Host := mkHost {
  ho_node : RawNode;
  ho_saved : HardState;
  ho_ready : option (HardState * list Message)
}.

Record Cluster := mkCluster { cl_hosts : gmap Z Host; cl_net : list Message }.

Definition set_host (i : Z) (ho : Host) (cl : Cluster) : Cluster :=
  mkCluster (<[i := ho]> (cl_hosts cl)) (cl_net cl).
Definition with_node (n : RawNode) (ho : Host) : Host := mkHost n (ho_saved ho) (ho_ready ho).

Definition term_below (t : Z) : Prop := 0 <= t < 2 ^ 64 - 1.

(** Persisting [hs] over [old]: skipped in term 0, and faithful at least to
    the term and to a vote for a member. *)
Definition persists (V : list Z) (hs old new : HardState) : Prop :=
  hs_term hs = 0 /\ new = old
  \/ hs_term new = hs_term hs /\ (hs_vote hs ∈ V -> hs_vote new = hs_vote hs).

(** A node built from a persisted hard state. *)
Definition restarted (V : list Z) (i : Z) (hs : HardState) (n : RawNode) : Prop :=
  n_id n = i /\ n_voters n = V /\ n_role n = Follower /\ n_term n = hs_term hs
  /\ n_vote n = hs_vote hs /\ n_msgs n = [].

Section Cluster.
Context `{!Platform} `{!Random} {St : Type} `{!Storage St}.
Implicit Types (st : St) (n : RawNode) (ho : Host) (cl : Cluster).

(** What may be handed to [step] at node [i]: a message on its way to it, or
    any other that is neither a granted vote nor a pre-vote. *)
Definition deliverable cl (i : Z) (m : Message) : Prop :=
  term_below (m_term m) /\
  (m ∈ cl_net cl /\ m_to m = i \/ granted m = false /\ prevote m = false).

Inductive cluster_step cl : Cluster -> Prop :=
| c_tick i ho st b n' :
    cl_hosts cl !! i = Some ho -> term_below (n_term (ho_node ho)) ->
    tick st (ho_node ho) = Some (b, n') -> cluster_step cl (set_host i (with_node n' ho) cl)
| c_step i ho st m n' :
    cl_hosts cl !! i = Some ho -> term_below (n_term (ho_node ho)) -> deliverable cl i m ->
    step st (ho_node ho) m = Some n' -> cluster_step cl (set_host i (with_node n' ho) cl)
| c_propose i ho st data b n' :
    cl_hosts cl !! i = Some ho -> propose st (ho_node ho) data = Some (b, n') ->
    cluster_step cl (set_host i (with_node n' ho) cl)
| c_readIndex i ho ctx b n' :
    cl_hosts cl !! i = Some ho -> readIndex (ho_node ho) ctx = Some (b, n') ->
    cluster_step cl (set_host i (with_node n' ho) cl)
| c_advance i ho st n' :
    cl_hosts cl !! i = Some ho -> advance st (ho_node ho) = Some n' ->
    cluster_step cl (set_host i (with_node n' ho) cl)
| c_poll i ho st rd n' :
    cl_hosts cl !! i = Some ho -> ho_ready ho = None -> poll st (ho_node ho) = (rd, n') ->
    cluster_step cl
      (set_host i (mkHost n' (ho_saved ho) (Some (rd_hardState rd, rd_messages rd))) cl)
| c_send i ho hs ms saved :
    cl_hosts cl !! i = Some ho -> ho_ready ho = Some (hs, ms) ->
    persists (n_voters (ho_node ho)) hs (ho_saved ho) saved ->
    cluster_step cl
      (mkCluster (<[i := mkHost (ho_node ho) saved None]> (cl_hosts cl)) (cl_net cl ++ ms))
| c_crash i ho n' :
    cl_hosts cl !! i = Some ho -> restarted (n_voters (ho_node ho)) i (ho_saved ho) n' ->
    cluster_step cl (set_host i (mkHost n' (ho_saved ho) None) cl)
| c_crash_sending i ho hs ms saved sent n' :  (* some messages were sent *)
    cl_hosts cl !! i = Some ho -> ho_ready ho = Some (hs, ms) ->
    persists (n_voters (ho_node ho)) hs (ho_saved ho) saved ->
    restarted (n_voters (ho_node ho)) i saved n' -> sent ⊆ ms ->
    cluster_step cl
      (mkCluster (<[i := mkHost n' saved None]> (cl_hosts cl)) (cl_net cl ++ sent)).

(** Fresh hosts, one for each member, whose nodes start from their files and
    have sent nothing. *)
Definition initial (V : list Z) cl : Prop :=
  cl_net cl = [] /\
  forall i ho, cl_hosts cl !! i = Some ho ->
    i ∈ V /\ i <> 0 /\ restarted V i (ho_saved ho) (ho_node ho) /\ 0 <= hs_term (ho_saved ho)
    /\ ho_ready ho = None.

Definition reachable (V : list Z) cl : Prop :=
  exists cl0, initial V cl0 /\ rtc cluster_step cl0 cl.

(** ** The invariant *)

(** The messages a host has produced and not yet sent. *)
Definition outgoing ho : list Message := default [] (snd <$> ho_ready ho) ++ n_msgs (ho_node ho).

Definition produced cl (m : Message) : Prop :=
  m ∈ cl_net cl \/ exists i ho, cl_hosts cl !! i = Some ho /\ m ∈ outgoing ho.

(** A vote for [c] in term [t] binds the node. *)
Definition promised n (t c : Z) : Prop :=
  t <= n_term n /\ (t = n_term n -> n_role n = Follower /\ n_vote n = c).

(** A hard state that remembers the vote [m]. *)
Definition remembers (hs : HardState) (m : Message) : Prop :=
  m_term m <= hs_term hs /\ (m_term m = hs_term hs -> hs_vote hs = m_to m).

Section Members.
Variable V : list Z.

(** A vote for a member. *)
Definition is_vote (m : Message) : Prop :=
  granted m = true /\ m_to m ∈ V /\ m_to m <> 0 /\ 0 < m_term m.

(** Every counted vote but the node's own was sent to it in its term. *)
Definition backed cl (i : Z) n : Prop :=
  NoDup (n_votes n) /\
  forall v, v ∈ n_votes n -> v = i \/
    exists m, m ∈ cl_net cl /\ is_vote m /\ m_from m = v /\ m_to m = i /\ m_term m = n_term n.

Record election_inv cl : Prop := {
  ei_nodes i ho : cl_hosts cl !! i = Some ho ->
    i ∈ V /\ i <> 0 /\ n_id (ho_node ho) = i /\ n_voters (ho_node ho) = V
    /\ n_role (ho_node ho) <> PreCandidate
    /\ 0 <= n_term (ho_node ho) /\ (n_role (ho_node ho) <> Follower -> 0 < n_term (ho_node ho));
  ei_prevote m : produced cl m -> prevote m = false;
  ei_own i ho m : cl_hosts cl !! i = Some ho -> m ∈ outgoing ho -> is_vote m -> m_from m = i;
  ei_promise m : produced cl m -> is_vote m ->
    exists ho, cl_hosts cl !! m_from m = Some ho /\ promised (ho_node ho) (m_term m) (m_to m);
  ei_unique m1 m2 : produced cl m1 -> produced cl m2 -> is_vote m1 -> is_vote m2 ->
    m_from m1 = m_from m2 -> m_term m1 = m_term m2 -> m_to m1 = m_to m2;
  ei_votes i ho : cl_hosts cl !! i = Some ho -> n_role (ho_node ho) <> Follower ->
    backed cl i (ho_node ho);
  ei_quorum i ho : cl_hosts cl !! i = Some ho -> n_role (ho_node ho) = Leader ->
    (quorum (ho_node ho) <= length (n_votes (ho_node ho)))%nat;
  ei_saved i ho : cl_hosts cl !! i = Some ho ->
    0 <= hs_term (ho_saved ho) <= n_term (ho_node ho)
    /\ forall m, m ∈ cl_net cl -> is_vote m -> m_from m = i -> remembers (ho_saved ho) m;
  ei_ready i ho hs ms : cl_hosts cl !! i = Some ho -> ho_ready ho = Some (hs, ms) ->
    hs_term (ho_saved ho) <= hs_term hs <= n_term (ho_node ho)
    /\ forall m, m ∈ cl_net cl ++ ms -> is_vote m -> m_from m = i -> remembers hs m
}.

Lemma initial_inv cl : initial V cl -> election_inv cl.
Proof.
  intros [Hnet Hn].
  assert (forall i ho, cl_hosts cl !! i = Some ho -> outgoing ho = []) as Ho.
  { intros i ho Hi. apply Hn in Hi as (_ & _ & (_ & _ & _ & _ & _ & E) & _ & Er).
    unfold outgoing. by rewrite E, Er. }
  assert (forall m, ~ produced cl m) as Hs.
  { intros m [Hm|(i & ho & Hi & Hm)]; [rewrite Hnet in Hm|rewrite (Ho i ho Hi) in Hm];
      by apply not_elem_of_nil in Hm. }
  constructor; try (intros; exfalso; by eapply Hs).
  - intros i ho Hi. apply Hn in Hi as (? & ? & (-> & -> & -> & -> & _) & ? & _). by split_and!.
  - intros i ho m Hi Hm. rewrite (Ho i ho Hi) in Hm. by apply not_elem_of_nil in Hm.
  - intros i ho Hi Hr. apply Hn in Hi as (_ & _ & (_ & _ & E & _) & _). congruence.
  - intros i ho Hi Hr. apply Hn in Hi as (_ & _ & (_ & _ & E & _) & _). congruence.
  - intros i ho Hi. apply Hn in Hi as (_ & _ & (_ & _ & _ & -> & _) & ? & _). split; [lia|].
    intros m Hm. exfalso. apply (Hs m). by left.
  - intros i ho hs ms Hi Hr. apply Hn in Hi as (_ & _ & _ & _ & E). congruence.
Qed.

(** ** Small moves keep it *)

Lemma promised_micro om n n' t c :
  c <> 0 -> n_role n <> PreCandidate -> micro om n n' -> promised n t c -> promised n' t c.
Proof.
  unfold promised. intros Hc Hr Hm [Hle Heq].
  destruct Hm as [(-> & -> & -> & _)|_ -> _ [?|[-> ?]]|_ -> -> _ _|_ Hcand -> -> -> _ _
    |c' resp _ _ _ _ _ _ _ -> -> _ Hv ->|v _ _ _ _ _ -> -> -> _ _]; try done.
  - split; [lia|]. lia.
  - split; [done|]. intros E. by apply Heq in E as [? _].
  - split; [lia|]. lia.
  - split; [done|]. intros E. apply Heq in E as [E _]. destruct Hcand; congruence.
  - split; [done|]. intros E. apply Heq in E as [_ E]. split; [done|]. destruct Hv; congruence.
Qed.

Lemma lookup_set_host cl i ho j ho' :
  cl_hosts (set_host i ho cl) !! j = Some ho' <->
  i = j /\ ho = ho' \/ i <> j /\ cl_hosts cl !! j = Some ho'.
Proof. apply lookup_insert_Some. Qed.

Lemma outgoing_node ho n' ms :
  n_msgs n' = n_msgs (ho_node ho) ++ ms -> outgoing (with_node n' ho) = outgoing ho ++ ms.
Proof. intros E. unfold outgoing. simpl. by rewrite E, app_assoc. Qed.

(** What is produced when the outgoing messages of a host change. *)
Lemma produced_set cl i ho ho' m :
  cl_hosts cl !! i = Some ho ->
  produced (set_host i ho' cl) m ->
  m ∈ cl_net cl \/ m ∈ outgoing ho'
  \/ exists j hj, j <> i /\ cl_hosts cl !! j = Some hj /\ m ∈ outgoing hj.
Proof.
  intros Hi [Hm|(j & hj & Hj & Hm)]; [by left|].
  apply lookup_set_host in Hj as [[<- <-]|[Hne Hj]]; [auto|]. right; right. eauto.
Qed.

Lemma produced_move cl i ho n' ms m :
  cl_hosts cl !! i = Some ho -> n_msgs n' = n_msgs (ho_node ho) ++ ms ->
  produced (set_host i (with_node n' ho) cl) m -> produced cl m \/ m ∈ ms.
Proof.
  intros Hi Hms Hm. apply (produced_set cl i ho) in Hm as [Hm|[Hm|(j & hj & _ & Hj & Hm)]]; [| | |done].
  - left. by left.
  - rewrite (outgoing_node _ _ _ Hms) in Hm. apply elem_of_app in Hm as [Hm|Hm]; [|by right].
    left. right. eauto.
  - left. right. eauto.
Qed.

(** The messages a move adds: no pre-vote, and at most a vote the node is
    then bound by. *)
Lemma micro_grows om n n' :
  micro om n n' ->
  exists ms, grows n n' ms /\ Forall (fun m => prevote m = false) ms /\
    (Forall (fun m => granted m = false) ms \/
     exists resp, ms = [resp] /\ m_from resp = n_id n /\ m_term resp = n_term n
       /\ n_role n = Follower /\ (n_vote n = 0 \/ n_vote n = m_to resp)
       /\ promised n' (m_term resp) (m_to resp)).
Proof.
  intros [(_ & _ & _ & _ & ms & Hg & Hq)|? _ _ _|? _ _ _ _|? _ _ _ _ _ _
    |c resp Hg Hgr Hpv <- Hf Ht Hr Hr' Ht' _ Hv Hv'|v _ _ _ ? _ _ _ _ _ _];
    try (by exists []; split_and!; [done|constructor|left; constructor]).
  - exists ms. split_and!; [done| |left]; eapply Forall_impl; [exact Hq| |exact Hq|]; by intros ? [].
  - exists [resp]. split_and!; [done|by constructor|]. right. exists resp. split_and!; try done.
    split; [lia|]. intros _. auto.
Qed.

(** A vote produced by a move is an old one, or the one that now binds. *)
Lemma vote_of_move cl i ho n' m om :
  cl_hosts cl !! i = Some ho -> n_id (ho_node ho) = i -> micro om (ho_node ho) n' ->
  produced (set_host i (with_node n' ho) cl) m -> is_vote m ->
  produced cl m \/
  m_from m = i /\ m_term m = n_term (ho_node ho) /\
  (n_vote (ho_node ho) = 0 \/ n_vote (ho_node ho) = m_to m) /\ promised n' (m_term m) (m_to m) /\
  n_msgs n' = n_msgs (ho_node ho) ++ [m].
Proof.
  intros Hi Hid Hm Hs (Hgr & _). apply micro_grows in Hm as (ms & (_ & _ & Hms) & _ & Hcase).
  apply (produced_move _ _ ho _ ms) in Hs as [Hs|Hs]; [by left| |done|done].
  destruct Hcase as [Hng|(resp & -> & ?)].
  - rewrite Forall_forall in Hng. rewrite Hng in Hgr by done. done.
  - apply list_elem_of_singleton in Hs as ->. right. naive_solver.
Qed.

Lemma backed_mono cl cl' i n :
  (forall m, m ∈ cl_net cl -> m ∈ cl_net cl') -> backed cl i n -> backed cl' i n.
Proof.
  intros Hs [Hnd Hb]. split; [done|]. intros v Hv.
  destruct (Hb v Hv) as [?|(m & ? & ?)]; [by left|right]. exists m. naive_solver.
Qed.

(** The votes of a node after a move. *)
Lemma backed_micro cl om i n n' :
  n_id n = i -> i ∈ V -> i <> 0 -> 0 <= n_term n -> (n_role n <> Follower -> 0 < n_term n) ->
  (n_role n <> Follower -> backed cl i n) ->
  (forall v, om = Some v -> granted v = true -> v ∈ cl_net cl /\ m_to v = i) ->
  micro om n n' -> n_role n' <> Follower -> backed cl i n'.
Proof.
  unfold backed. intros Hid HiV Hi0 Ht0 Ht Hb Hom Hm Hr'.
  destruct Hm as [(Hr & -> & _ & -> & _)|_ Hr _ _|_ _ _ _ ->|_ Hr _ -> _ -> _
    |c resp _ _ _ _ _ _ _ Hr _ _ _ _|v -> Hgr Hvt _ Hr _ -> _ Hnin ->]; try done.
  - apply Hb. congruence.
  - split; [apply NoDup_singleton|]. intros v Hv%list_elem_of_singleton. left. congruence.
  - apply Hb. by destruct Hr as [-> | ->].
  - assert (n_role n <> Follower) as Hnf by (by destruct Hr as [-> | ->]).
    destruct (Hb Hnf) as [Hnd Hb']. destruct (Hom v eq_refl Hgr) as [Hs Hto]. split.
    + apply NoDup_app. split_and!; [done| |apply NoDup_singleton].
      intros x Hx ->%list_elem_of_singleton. done.
    + intros w [Hw|Hw%list_elem_of_singleton]%elem_of_app; [by apply Hb'|right].
      exists v. specialize (Ht Hnf). split_and!; try congruence. split_and!; congruence || lia.
Qed.

Lemma quorum_micro om n n' :
  (n_role n = Leader -> (quorum n <= length (n_votes n))%nat) ->
  micro om n n' -> n_role n' = Leader -> (quorum n' <= length (n_votes n'))%nat.
Proof.
  intros Hq Hm Hr'. pose proof (micro_grows _ _ _ Hm) as (ms & (_ & Hv & _) & _).
  unfold quorum in *. rewrite Hv.
  destruct Hm as [(Hr & _ & _ & -> & _)| | |_ _ _ _ _ -> ?| |v _ _ _ _ Hr Hrr _ _ _ _]; try congruence.
  - apply Hq. congruence.
  - done.
  - destruct Hr; congruence.
Qed.

Lemma micro_role_term om n n' :
  micro om n n' -> n_role n <> PreCandidate ->
  n_role n' <> PreCandidate /\ n_term n <= n_term n'.
Proof.
  intros Hm Hr.
  destruct Hm as [(-> & -> & _)|_ -> _ [?|[-> _]]|_ -> -> _ _|_ _ -> -> _ _ _
    |c resp _ _ _ _ _ _ _ -> -> _ _ _|v _ _ _ _ _ -> -> _ _ _]; (split; [done|lia]).
Qed.

Lemma micro_positive om n n' :
  micro om n n' -> 0 <= n_term n -> (n_role n <> Follower -> 0 < n_term n) ->
  n_role n' <> Follower -> 0 < n_term n'.
Proof.
  intros Hm H0' Ht Hr'.
  destruct Hm as [(Hr & -> & _)|_ Hr _ _|_ _ -> _ _|_ Hr _ -> _ _ _
    |c resp _ _ _ _ _ _ _ Hr _ _ _ _|v _ _ _ _ _ Hr -> _ _ _]; try done.
  - apply Ht. congruence.
  - lia.
  - apply Ht. by destruct Hr as [-> | ->].
  - apply Ht. congruence.
Qed.


(** A move of the node of host [i] that leaves its promises alone. *)
Lemma micro_inv cl om i ho n' :
  election_inv cl -> cl_hosts cl !! i = Some ho ->
  (forall v, om = Some v -> granted v = true -> v ∈ cl_net cl /\ m_to v = i) ->
  micro om (ho_node ho) n' -> election_inv (set_host i (with_node n' ho) cl).
Proof.
  intros [Hn Hpre Hown Hpr Hun Hvo Hqu Hsv Hrd] Hi Hom Hm.
  destruct (Hn i ho Hi) as (HiV & Hi0 & Hid & HV & Hrole & Ht & Hpos).
  pose proof (micro_grows _ _ _ Hm) as (ms & (Hid' & HV' & Hms) & Hmpre & _).
  destruct (micro_role_term _ _ _ Hm Hrole) as [Hrole' Ht'].
  pose proof (fun m => vote_of_move cl i ho n' m om Hi Hid Hm) as Hvm.
  constructor.
  - intros j hj Hj. apply lookup_set_host in Hj as [[<- <-]|[_ Hj]]; [|by apply Hn].
    cbn [ho_node with_node]. split_and!; try congruence; [lia|]. by eapply micro_positive.
  - intros m Hs. apply (produced_move _ _ ho _ ms) in Hs as [Hs|Hs]; [by apply Hpre| |done|done].
    rewrite Forall_forall in Hmpre. by apply Hmpre.
  - intros j hj m Hj Hmo Hv. apply lookup_set_host in Hj as [[<- <-]|[_ Hj]]; [|by eapply Hown].
    assert (produced (set_host i (with_node n' ho) cl) m) as Hp.
    { right. exists i, (with_node n' ho). split; [apply lookup_set_host; by left|done]. }
    rewrite (outgoing_node _ _ _ Hms) in Hmo. apply elem_of_app in Hmo as [Hmo|Hmo]; [by eapply Hown|].
    apply micro_grows in Hm as (ms' & (_ & _ & Hms') & _ & Hcase).
    rewrite Hms in Hms'. simplify_list_eq. destruct Hcase as [Hng|(resp & -> & Hf & _)].
    + rewrite Forall_forall in Hng. apply Hng in Hmo. destruct Hv as [? _]. congruence.
    + apply list_elem_of_singleton in Hmo as ->. congruence.
  - intros m Hs Hv. destruct (Hvm m Hs Hv) as [Hold|(Hf & _ & _ & Hp & _)].
    + destruct (Hpr m Hold Hv) as (hf & Hhf & Hp). destruct (decide (m_from m = i)) as [Hf|Hne].
      * rewrite Hf in *. rewrite Hi in Hhf. injection Hhf as <-. eexists.
        split; [apply lookup_set_host; by left|]. destruct Hv as (_ & _ & ? & _).
        by apply (promised_micro om (ho_node ho)).
      * exists hf. split; [|done]. apply lookup_set_host. auto.
    + rewrite Hf. eexists. split; [apply lookup_set_host; by left|done].
  - assert (forall m1 m2, produced cl m1 -> is_vote m1 -> m_from m1 = i ->
      m_term m1 = n_term (ho_node ho) ->
      n_vote (ho_node ho) = 0 \/ n_vote (ho_node ho) = m_to m2 -> m_to m1 = m_to m2) as Hmix.
    { intros m1 m2 Hs1 Hv1 Hf1 Ht1 Hvote. destruct (Hpr m1 Hs1 Hv1) as (hf & Hhf & _ & Hp).
      rewrite Hf1 in Hhf. simplify_eq. destruct (Hp Ht1) as [_ E]. destruct Hv1 as (_ & _ & ? & _).
      destruct Hvote; congruence. }
    intros m1 m2 Hs1 Hs2 Hv1 Hv2 Hf Htt.
    destruct (Hvm m1 Hs1 Hv1) as [O1|(F1 & T1 & V1 & _ & M1)],
      (Hvm m2 Hs2 Hv2) as [O2|(F2 & T2 & V2 & _ & M2)].
    + by apply Hun.
    + apply Hmix; congruence || done.
    + symmetry. apply Hmix; congruence || done.
    + rewrite M1 in M2. by simplify_list_eq.
  - intros j hj Hj Hr. apply lookup_set_host in Hj as [[<- <-]|[_ Hj]]; [|by apply Hvo].
    eapply (backed_micro cl om i (ho_node ho) n'); eauto.
  - intros j hj Hj Hr. apply lookup_set_host in Hj as [[<- <-]|[_ Hj]]; [|by eapply Hqu].
    eapply (quorum_micro om (ho_node ho) n'); eauto.
  - intros j hj Hj. apply lookup_set_host in Hj as [[<- <-]|[_ Hj]]; [|by apply Hsv].
    destruct (Hsv i ho Hi) as [? ?]. split; [simpl; lia|done].
  - intros j hj hs ms' Hj Hr. apply lookup_set_host in Hj as [[<- <-]|[_ Hj]]; [|by eapply Hrd].
    destruct (Hrd i ho hs ms' Hi Hr) as [? ?]. split; [simpl; lia|done].
Qed.

Lemma set_host_twice cl i ho ho' : set_host i ho' (set_host i ho cl) = set_host i ho' cl.
Proof. unfold set_host. simpl. by rewrite insert_insert_eq. Qed.

Lemma set_host_same cl i ho : cl_hosts cl !! i = Some ho -> set_host i ho cl = cl.
Proof. intros Hi. destruct cl. unfold set_host. simpl in *. by rewrite insert_id. Qed.

Lemma moves_inv cl om i ho n' :
  moves om (ho_node ho) n' -> election_inv cl -> cl_hosts cl !! i = Some ho ->
  (forall v, om = Some v -> granted v = true -> v ∈ cl_net cl /\ m_to v = i) ->
  election_inv (set_host i (with_node n' ho) cl).
Proof.
  intros Hm. remember (ho_node ho) as n eqn:En. revert cl ho En.
  induction Hm as [n|n1 n2 n3 Hm _ IH]; intros cl ho -> Hinv Hi Hom.
  - rewrite set_host_same; [done|]. by destruct ho.
  - pose proof (micro_inv cl om i ho n2 Hinv Hi Hom Hm) as Hinv2.
    rewrite <- (set_host_twice _ _ (with_node n2 ho)).
    apply (IH (set_host i (with_node n2 ho) cl) (with_node n2 ho)); [done|done| |done].
    apply lookup_set_host. by left.
Qed.

(** ** Polling, sending and crashing *)

(** Messages of the network or of a host, when one host's part is spread
    otherwise over them. *)
Lemma produced_other cl i ho ho' net m :
  cl_hosts cl !! i = Some ho -> net ⊆ cl_net cl ++ outgoing ho -> outgoing ho' ⊆ outgoing ho ->
  produced (mkCluster (<[i := ho']> (cl_hosts cl)) net) m -> produced cl m.
Proof.
  intros Hi Hnet Ho [Hm|(j & hj & Hj & Hm)]; simpl in *.
  - apply Hnet, elem_of_app in Hm as [Hm|Hm]; [by left|right; eauto].
  - apply lookup_insert_Some in Hj as [[<- <-]|[_ Hj]]; right; eauto.
Qed.

Lemma poll_inv cl i ho st rd n' :
  election_inv cl -> cl_hosts cl !! i = Some ho -> ho_ready ho = None ->
  poll st (ho_node ho) = (rd, n') ->
  election_inv (set_host i (mkHost n' (ho_saved ho) (Some (rd_hardState rd, rd_messages rd))) cl).
Proof.
  intros [Hn Hpre Hown Hpr Hun Hvo Hqu Hsv Hrd] Hi Hnone Hp. unfold poll in Hp. injection Hp as <- <-.
  cbn [rd_hardState rd_messages]. set (n := ho_node ho) in *.
  set (n' := set_output [] _ _ [] _ n). set (ho' := mkHost n' _ _).
  assert (outgoing ho' = outgoing ho) as Eo.
  { unfold outgoing. rewrite Hnone. simpl. by rewrite app_nil_r. }
  assert (forall m, produced (set_host i ho' cl) m -> produced cl m) as Hback.
  { intros m. apply (produced_other cl i ho); [done|set_solver|by rewrite Eo]. }
  assert (forall j hj, cl_hosts (set_host i ho' cl) !! j = Some hj ->
    exists h, cl_hosts cl !! j = Some h /\ n_id (ho_node hj) = n_id (ho_node h)
      /\ n_voters (ho_node hj) = n_voters (ho_node h) /\ n_role (ho_node hj) = n_role (ho_node h)
      /\ n_term (ho_node hj) = n_term (ho_node h) /\ n_votes (ho_node hj) = n_votes (ho_node h)
      /\ outgoing hj = outgoing h /\ ho_saved hj = ho_saved h) as Hnode.
  { intros j hj Hj. apply lookup_set_host in Hj as [[<- <-]|[_ Hj]]; [|by exists hj].
    exists ho. split_and!; done. }
  constructor.
  - intros j hj Hj. destruct (Hnode j hj Hj) as (h & Hh & -> & -> & -> & -> & _). by apply Hn.
  - intros m Hm. by apply Hpre, Hback.
  - intros j hj m Hj Hm. destruct (Hnode j hj Hj) as (h & Hh & _ & _ & _ & _ & _ & E & _).
    rewrite E in Hm. by eapply Hown.
  - intros m Hm Hv. destruct (Hpr m (Hback m Hm) Hv) as (hf & Hf & Hprom).
    destruct (decide (i = m_from m)) as [Heq|Hne].
    + exists ho'. rewrite <- Heq in *. simplify_eq. split; [apply lookup_set_host; by left|done].
    + exists hf. split; [|done]. apply lookup_set_host. by right.
  - intros m1 m2 ? ?. apply Hun; auto.
  - intros j hj Hj Hr. destruct (Hnode j hj Hj) as (h & Hh & _ & _ & Er & Et & Ev & _).
    unfold backed. rewrite Et, Ev. apply (Hvo j h); congruence.
  - intros j hj Hj Hr. destruct (Hnode j hj Hj) as (h & Hh & _ & Ev & Er & _ & Evs & _).
    unfold quorum. rewrite Ev, Evs. eapply Hqu; [exact Hh|congruence].
  - intros j hj Hj. destruct (Hnode j hj Hj) as (h & Hh & _ & _ & _ & -> & _ & _ & ->). by apply Hsv.
  - intros j hj hs ms Hj Hr. apply lookup_set_host in Hj as [[<- <-]|[_ Hj]]; [|by eapply Hrd].
    simpl in Hr. injection Hr as <- <-. destruct (Hsv i ho Hi) as [Hst _]. fold n in Hst.
    split; [simpl; lia|]. intros m Hm Hv Hf.
    destruct (Hpr m) as (hf & Hhf & Hle & Heq); [|done|].
    { apply elem_of_app in Hm as [Hm|Hm]; [by left|]. right. exists i, ho. split; [done|].
      unfold outgoing. by rewrite Hnone. }
    rewrite Hf, Hi in Hhf. injection Hhf as <-. split; [done|]. intros E. by destruct (Heq E).
Qed.

(** What persisting gives. *)
Lemma persists_remembers cl i ho hs ms saved :
  election_inv cl -> cl_hosts cl !! i = Some ho -> ho_ready ho = Some (hs, ms) ->
  persists V hs (ho_saved ho) saved ->
  0 <= hs_term saved <= n_term (ho_node ho)
  /\ forall m, m ∈ cl_net cl ++ ms -> is_vote m -> m_from m = i -> remembers saved m.
Proof.
  intros Hinv Hi Hr Hp. destruct (ei_ready _ Hinv _ _ _ _ Hi Hr) as [Hb Hrem].
  destruct (ei_saved _ Hinv _ _ Hi) as [Hs _]. destruct Hp as [[H0' ->]|[Et Ev]].
  - split; [lia|]. intros m Hm Hv Hf. destruct (Hrem m Hm Hv Hf) as [Hle _].
    destruct Hv as (_ & _ & _ & ?). lia.
  - split; [lia|]. intros m Hm Hv Hf. destruct (Hrem m Hm Hv Hf) as [Hle Heq].
    unfold remembers. rewrite Et. split; [done|]. intros E. rewrite Ev by (rewrite (Heq E); apply Hv). auto.
Qed.

(** A host that puts some of its messages on the network and goes on as
    [ho'], which has nothing polled. *)
Lemma release_inv cl i ho ho' ms :
  election_inv cl -> cl_hosts cl !! i = Some ho ->
  ms ⊆ outgoing ho -> outgoing ho' ⊆ outgoing ho -> ho_ready ho' = None ->
  n_role (ho_node ho') = Follower \/ ho_node ho' = ho_node ho ->
  n_id (ho_node ho') = i -> n_voters (ho_node ho') = V ->
  0 <= hs_term (ho_saved ho') <= n_term (ho_node ho') ->
  (forall m, m ∈ cl_net cl ++ ms -> is_vote m -> m_from m = i -> remembers (ho_saved ho') m) ->
  (forall m, m ∈ cl_net cl ++ ms ++ outgoing ho' -> is_vote m -> m_from m = i ->
    promised (ho_node ho') (m_term m) (m_to m)) ->
  election_inv (mkCluster (<[i := ho']> (cl_hosts cl)) (cl_net cl ++ ms)).
Proof.
  intros [Hn Hpre Hown Hpr Hun Hvo Hqu Hsv Hrd] Hi Hms Ho' Hnone Hrole Hid HV Hsaved Hrem Hprom.
  set (cl' := mkCluster _ _). destruct (Hn i ho Hi) as (HiV & Hi0 & _ & _ & Hpc & Ht & Hpos).
  assert (forall j hj, cl_hosts cl' !! j = Some hj ->
    i = j /\ ho' = hj \/ i <> j /\ cl_hosts cl !! j = Some hj) as Hl
    by (intros j hj; apply lookup_insert_Some).
  assert (forall m, produced cl' m -> produced cl m) as Hback.
  { intros m. apply (produced_other cl i ho); [done|set_solver|done]. }
  assert (forall m, m ∈ cl_net cl ++ ms -> is_vote m -> m_from m <> i -> m ∈ cl_net cl) as Hfrom.
  { intros m [Hm|Hm]%elem_of_app Hv Hne; [done|]. destruct Hne. by eapply Hown; [|apply Hms|]. }
  constructor.
  - intros j hj [[<- <-]|[_ Hj]]%Hl; [|by apply Hn]. split_and!; try done; [|lia|].
    + destruct Hrole as [-> | ->]; done.
    + destruct Hrole as [-> | ->]; done.
  - intros m Hm. by apply Hpre, Hback.
  - intros j hj m [[<- <-]|[_ Hj]]%Hl Hm; [|by eapply Hown]. intros Hv. by eapply Hown; [|apply Ho'|].
  - intros m Hm Hv. destruct (decide (m_from m = i)) as [Hf|Hne].
    + exists ho'. rewrite Hf. split; [apply lookup_insert_eq|]. apply Hprom; [|done..].
      destruct Hm as [Hm|(j & hj & Hj & Hm)]; [simpl in Hm; set_solver|].
      apply Hl in Hj as [[<- <-]|[Hne Hj]]; [set_solver|]. destruct Hne. rewrite <- Hf. by eapply Hown.
    + destruct (Hpr m (Hback m Hm) Hv) as (hf & Hf & Hp). exists hf. split; [|done].
      simpl. by rewrite lookup_insert_ne.
  - intros m1 m2 ? ?. apply Hun; auto.
  - intros j hj [[<- <-]|[_ Hj]]%Hl Hr.
    + destruct Hrole as [?|E]; [done|]. rewrite E in *. eapply backed_mono; [|by apply Hvo].
      intros m Hm. simpl. set_solver.
    + eapply backed_mono; [|by apply Hvo]. intros m Hm. simpl. set_solver.
  - intros j hj [[<- <-]|[_ Hj]]%Hl Hr; [|by eapply Hqu].
    destruct Hrole as [?|E]; [congruence|]. rewrite E in *. by eapply Hqu.
  - intros j hj [[<- <-]|[Hne Hj]]%Hl; [done|]. destruct (Hsv j hj Hj) as [? Hr]. split; [done|].
    intros m Hm Hv Hf. apply Hr; [|done..]. apply Hfrom; [done..|congruence].
  - intros j hj hs ms' [[<- <-]|[Hne Hj]]%Hl Hr; [congruence|].
    destruct (Hrd j hj hs ms' Hj Hr) as [? Hr']. split; [done|].
    intros m Hm Hv Hf. apply Hr'; [|done..]. simpl in Hm. apply elem_of_app in Hm as [Hm|Hm]; [|set_solver].
    apply elem_of_app. left. apply Hfrom; [done..|congruence].
Qed.

Lemma ready_outgoing ho hs ms : ho_ready ho = Some (hs, ms) -> outgoing ho = ms ++ n_msgs (ho_node ho).
Proof. intros E. unfold outgoing. by rewrite E. Qed.

Lemma send_inv cl i ho hs ms saved :
  election_inv cl -> cl_hosts cl !! i = Some ho -> ho_ready ho = Some (hs, ms) ->
  persists V hs (ho_saved ho) saved ->
  election_inv (mkCluster (<[i := mkHost (ho_node ho) saved None]> (cl_hosts cl)) (cl_net cl ++ ms)).
Proof.
  intros Hinv Hi Hr Hp. destruct (persists_remembers _ _ _ _ _ _ Hinv Hi Hr Hp) as [Hb Hrem].
  pose proof (ready_outgoing _ _ _ Hr) as Ho. destruct (ei_nodes _ Hinv _ _ Hi) as (_ & _ & Hid & HV & _).
  eapply release_inv; [done|done|rewrite Ho; set_solver|rewrite Ho; set_solver|done|by right|done..|].
  intros m Hm Hv Hf. destruct (ei_promise _ Hinv m) as (hf & Hhf & Hpr); [|done|].
  - rewrite app_assoc in Hm. apply elem_of_app in Hm as [[Hm|Hm]%elem_of_app|Hm]; [by left|right..];
      exists i, ho; (split; [done|]); rewrite Ho; set_solver.
  - rewrite Hf, Hi in Hhf. by injection Hhf as <-.
Qed.

Lemma restart_inv cl i ho saved ms n' :
  election_inv cl -> cl_hosts cl !! i = Some ho -> ms ⊆ outgoing ho ->
  0 <= hs_term saved ->
  (forall m, m ∈ cl_net cl ++ ms -> is_vote m -> m_from m = i -> remembers saved m) ->
  restarted V i saved n' ->
  election_inv (mkCluster (<[i := mkHost n' saved None]> (cl_hosts cl)) (cl_net cl ++ ms)).
Proof.
  intros Hinv Hi Hms Hs Hrem (Hid & HV & Hrole & Et & Ev & Em).
  assert (outgoing (mkHost n' saved None) = []) as Eo by (unfold outgoing; simpl; by rewrite Em).
  eapply release_inv; [done|done|done|rewrite Eo; set_solver|done|by left|done|done|simpl; lia|done|].
  rewrite Eo, app_nil_r. intros m Hm Hv Hf. destruct (Hrem m Hm Hv Hf) as [Hle Heq].
  split; [simpl; lia|]. simpl. rewrite Et, Ev. auto.
Qed.

Lemma cluster_step_inv cl cl' : election_inv cl -> cluster_step cl cl' -> election_inv cl'.
Proof.
  intros Hinv Hstep.
  destruct Hstep as [i ho st b n' Hi Ht Hs|i ho st m n' Hi Ht [Hmt Hd] Hs|i ho st data b n' Hi Hs
    |i ho ctx b n' Hi Hs|i ho st n' Hi Hs|i ho st rd n' Hi Hr Hs|i ho hs ms saved Hi Hr Hp
    |i ho n' Hi Hn|i ho hs ms saved k n' Hi Hr Hp Hn].
  - eapply moves_inv; [by eapply tick_moves| |..]; done.
  - assert (prevote m = false) as Hpv.
    { destruct Hd as [[Hm _]|[_ ?]]; [|done]. eapply ei_prevote; [exact Hinv|by left]. }
    eapply moves_inv; [eapply step_moves; eauto; apply Hmt| |..]; [done..|].
    intros v [= ->] Hg. destruct Hd as [[Hm ?]|[? _]]; [|congruence]. done.
  - eapply moves_inv; [by eapply propose_moves| |..]; done.
  - eapply moves_inv; [by eapply readIndex_moves| |..]; done.
  - eapply moves_inv; [by eapply (moves_quiet None), advance_quiet| |..]; done.
  - by eapply poll_inv.
  - destruct (ei_nodes _ Hinv _ _ Hi) as (_ & _ & _ & HV & _). rewrite HV in Hp. by eapply send_inv.
  - destruct (ei_nodes _ Hinv _ _ Hi) as (_ & _ & _ & HV & _). rewrite HV in Hn.
    destruct (ei_saved _ Hinv _ _ Hi) as [? ?]. unfold set_host. rewrite <- (app_nil_r (cl_net cl)).
    eapply restart_inv; [done|done|set_solver|lia|by rewrite app_nil_r|done].
  - destruct (ei_nodes _ Hinv _ _ Hi) as (_ & _ & _ & HV & _). rewrite HV in Hp, Hn.
    destruct (persists_remembers _ _ _ _ _ _ Hinv Hi Hr Hp) as [? Hrem].
    eapply restart_inv; [done|done|rewrite (ready_outgoing _ _ _ Hr); set_solver|lia| |done].
    intros m Hm. apply Hrem. set_solver.
Qed.

Lemma reachable_inv cl : reachable V cl -> election_inv cl.
Proof.
  intros (cl0 & H0' & Hr). apply initial_inv in H0'.
  induction Hr as [cl|cl1 cl2 cl3 Hs _ IH]; [done|]. apply IH. by eapply cluster_step_inv.
Qed.

(** ** Majorities meet *)

Lemma majorities_meet (l1 l2 : list Z) :
  NoDup V -> NoDup l1 -> NoDup l2 -> l1 ⊆ V -> l2 ⊆ V ->
  (length V / 2 + 1 <= length l1)%nat -> (length V / 2 + 1 <= length l2)%nat ->
  exists v, v ∈ l1 /\ v ∈ l2.
Proof.
  intros HV H1 H2 S1 S2 L1 L2.
  destruct (decide (Exists (fun v => v ∈ l2) l1)) as [He|Hne].
  - apply Exists_exists in He as (v & ? & ?). by exists v.
  - exfalso. apply not_Exists_Forall in Hne; [|apply _]. rewrite Forall_forall in Hne.
    assert (NoDup (l1 ++ l2)) as Hnd by (apply NoDup_app; split_and!; auto).
    assert (l1 ++ l2 ⊆ V) as Hsub by set_solver.
    pose proof (NoDup_submseteq _ _ Hnd Hsub) as Hsm.
    apply submseteq_length in Hsm. rewrite length_app in Hsm.
    pose proof (Nat.div_mod (length V) 2). pose proof (Nat.mod_upper_bound (length V) 2). lia.
Qed.

(** The voters a node counted are members. *)
Lemma votes_members cl i ho :
  election_inv cl -> cl_hosts cl !! i = Some ho -> backed cl i (ho_node ho) -> n_votes (ho_node ho) ⊆ V.
Proof.
  intros Hinv Hi [_ Hb] v Hv. destruct (Hb v Hv) as [->|(m & Hm & Hvm & <- & _)].
  - by apply (ei_nodes _ Hinv) in Hi as [? _].
  - apply (ei_promise _ Hinv) in Hvm as (hf & Hf & _); [|by left].
    by apply (ei_nodes _ Hinv) in Hf as [? _].
Qed.

(** No vote comes from a leader of its term. *)
Lemma leader_no_vote cl i ho m :
  election_inv cl -> cl_hosts cl !! i = Some ho -> n_role (ho_node ho) = Leader ->
  m ∈ cl_net cl -> is_vote m -> m_from m = i -> m_term m = n_term (ho_node ho) -> False.
Proof.
  intros Hinv Hi Hr Hm Hv Hf Ht. apply (ei_promise _ Hinv) in Hv as (h & Hh & _ & Hp); [|by left].
  rewrite Hf, Hi in Hh. simplify_eq. destruct (Hp Ht). congruence.
Qed.

Lemma leaders_agree cl i j hi hj :
  NoDup V -> election_inv cl -> cl_hosts cl !! i = Some hi -> cl_hosts cl !! j = Some hj ->
  n_role (ho_node hi) = Leader -> n_role (ho_node hj) = Leader ->
  n_term (ho_node hi) = n_term (ho_node hj) -> i = j.
Proof.
  intros HV Hinv Hi Hj Hri Hrj Ht.
  assert (backed cl i (ho_node hi)) as Hbi by (eapply ei_votes; eauto; congruence).
  assert (backed cl j (ho_node hj)) as Hbj by (eapply ei_votes; eauto; congruence).
  pose proof (ei_quorum _ Hinv _ _ Hi Hri) as Hqi. pose proof (ei_quorum _ Hinv _ _ Hj Hrj) as Hqj.
  pose proof (ei_nodes _ Hinv _ _ Hi) as (_ & _ & _ & HVi & _).
  pose proof (ei_nodes _ Hinv _ _ Hj) as (_ & _ & _ & HVj & _).
  unfold quorum in *. rewrite HVi in Hqi. rewrite HVj in Hqj.
  destruct (majorities_meet (n_votes (ho_node hi)) (n_votes (ho_node hj))) as (v & Hvi & Hvj); try done.
  { apply Hbi. } { apply Hbj. } { by eapply votes_members. } { by eapply votes_members. }
  destruct (proj2 Hbi v Hvi) as [Ei|(m1 & Hn1 & Hm1 & F1 & T1 & E1)],
    (proj2 Hbj v Hvj) as [Ej|(m2 & Hn2 & Hm2 & F2 & T2 & E2)].
  - congruence.
  - exfalso. eapply (leader_no_vote cl i hi m2); eauto; congruence.
  - exfalso. eapply (leader_no_vote cl j hj m1); eauto; congruence.
  - rewrite <- T1, <- T2. eapply (ei_unique _ Hinv); [by left|by left|done|done|congruence..].
Qed.
End Members.

(** ** Running a cluster *)

Inductive action :=
| ATick (i : Z)
| ADeliver (k : nat)
| APropose (i : Z) (data : bytes)
| APoll (i : Z)
| ASend (i : Z)
| ACrash (i : Z) (n : RawNode).  (* and restart as [n] *)

#[global] Instance restarted_dec V i hs n : Decision (restarted V i hs n).
Proof. unfold restarted. apply _. Defined.

Definition exec st cl (a : action) : option Cluster :=
  match a with
  | ATick i =>
      ho ← cl_hosts cl !! i;
      guard (term_below (n_term (ho_node ho)));;
      '(_, n') ← tick st (ho_node ho); Some (set_host i (with_node n' ho) cl)
  | ADeliver k =>
      m ← cl_net cl !! k;
      ho ← cl_hosts cl !! m_to m;
      guard (term_below (n_term (ho_node ho)) /\ term_below (m_term m));;
      n' ← step st (ho_node ho) m; Some (set_host (m_to m) (with_node n' ho) cl)
  | APropose i data =>
      ho ← cl_hosts cl !! i;
      '(_, n') ← propose st (ho_node ho) data; Some (set_host i (with_node n' ho) cl)
  | APoll i =>
      ho ← cl_hosts cl !! i;
      guard (ho_ready ho = None);;
      let '(rd, n') := poll st (ho_node ho) in
      Some (set_host i (mkHost n' (ho_saved ho) (Some (rd_hardState rd, rd_messages rd))) cl)
  | ASend i =>
      ho ← cl_hosts cl !! i;
      '(hs, ms) ← ho_ready ho;
      Some (mkCluster (<[i := mkHost (ho_node ho) hs None]> (cl_hosts cl)) (cl_net cl ++ ms))
  | ACrash i n =>
      ho ← cl_hosts cl !! i;
      guard (restarted (n_voters (ho_node ho)) i (ho_saved ho) n);;
      Some (set_host i (mkHost n (ho_saved ho) None) cl)
  end.

Lemma exec_sound st cl a cl' : exec st cl a = Some cl' -> cluster_step cl cl'.
Proof.
  destruct a as [i|k|i data|i|i|i n]; cbn [exec]; intros Hs; unbind Hs.
  - case_guard; [|done]. cbn [mbind option_bind] in Hs. unbind Hs. destruct p as [b n'].
    simplify_eq. by eapply c_tick.
  - case_guard as Hg; [|done]. cbn [mbind option_bind] in Hs. unbind Hs. simplify_eq.
    destruct Hg as [Ht Hm]. eapply c_step; eauto. split; [done|]. left.
    split; [by eapply list_elem_of_lookup_2|done].
  - destruct p as [b n']. simplify_eq. by eapply c_propose.
  - case_guard; [|done]. cbn [mbind option_bind] in Hs.
    destruct (poll st (ho_node h)) as [rd n'] eqn:Ep. simplify_eq. by eapply c_poll.
  - destruct p as [hs ms]. simplify_eq. eapply c_send; [done|done|]. by right.
  - case_guard; [|done]. cbn [mbind option_bind] in Hs. simplify_eq. by eapply c_crash.
Qed.

Fixpoint exec_all st cl (acts : list action) : option Cluster :=
  match acts with
  | [] => Some cl
  | a :: acts => cl ← exec st cl a; exec_all st cl acts
  end.

Lemma exec_all_sound st acts : forall cl cl',
  exec_all st cl acts = Some cl' -> rtc cluster_step cl cl'.
Proof.
  induction acts as [|a acts IH]; intros cl cl' Hs; cbn [exec_all] in Hs; [by simplify_eq|].
  unbind Hs. eapply rtc_l; [by eapply exec_sound|by apply IH].
Qed.
End Cluster.
