(* ===== verification/RaftReplica.v ===== *)
(** * Replicas: raft nodes over their write-ahead logs

    A replica runs [RawNode] over its [WriteAheadLog] the way the loop of
    [Server] does: it ticks and steps while nothing is polled, polls, writes
    the entries and then the hard state to its files, sends the messages,
    and advances; proposals and reads come at any time.  It can be killed
    between any two of these, also while the log file is being written and
    while messages are sent, and starts again from its files.  A kill leaves
    whole records of the log file ([RaftLogTheorems.torn_record_poisons_log]
    shows what half a record does) and the old or the new hard state: one
    inside [saveHardState], which rewrites its file in place, is excluded.  The network delays,
    loses, reorders and duplicates what was sent, and adds nothing.

    This file has the model and the invariant [replica_inv] with its parts;
    [LogMatching] shows that every step keeps it. *)

From S2P Require Import Prelude RaftTypes LogUnstable WriteAheadLog RaftLog Progress ReadOnly RawNode.
From S2P Require Import RaftActions RaftElection RaftCluster LogHistory OrderProtocol.

(** ** The hard state on disk *)

(** The hard state a restart reads. *)
Definition file_hs (f : option bytes) : HardState := loadHardState f.

Definition saves (hs : HardState) : bool := negb (hs_term hs =? 0) || negb (hs_commit hs =? 0).

(** [hardstate.bin] after a Ready was persisted. *)
Definition hs_after (rd : Ready) (f : option bytes) : option bytes :=
  if saves (rd_hardState rd) then Some (writeHardState [] (rd_hardState rd)) else f.

(** The file after persisting. *)
Lemma persists_file V rd f :
  Forall is_u64 V -> term_below (hs_term (rd_hardState rd)) ->
  persists V (rd_hardState rd) (file_hs f) (file_hs (hs_after rd f)).
Proof.
  intros HV Ht. unfold hs_after, saves. destruct (Z.eqb_spec (hs_term (rd_hardState rd)) 0) as [E|E];
    [destruct (hs_commit (rd_hardState rd) =? 0)|]; cbn [negb orb]; [by left|right..];
    unfold file_hs; cbn [loadHardState]; rewrite readHardState_written; cbn [hs_term hs_vote]; unfold term_below in Ht;
    (split; [apply u64_small; mach|]);
    intros Hv; rewrite Forall_forall in HV; by apply u64_small, HV.
Qed.

(** A node built on a directory with no saved configuration. *)
Lemma new_RawNode_restarted `{!Platform} `{!Random} V c log hsFile :
  c_peers c = V -> V <> [] ->
  restarted V (c_id c) (file_hs hsFile) (new_RawNode c (new_WriteAheadLog log hsFile None)).
Proof.
  intros HV Hne. unfold restarted. split_and!; [done| |done..].
  simpl. rewrite HV. rewrite (bool_decide_eq_false_2 (V = [])) by done. simpl.
  rewrite andb_true_r. by destruct (_ =? 0); [rewrite (bool_decide_eq_false_2 (V = []))|].
Qed.

(** ** Replicas *)

(** Where the loop stands. *)
Inductive phase := Idle | Polled (rd : Ready) | Written.

Record Replica := mkReplica { rp_node : RawNode; rp_wal : WriteAheadLog; rp_phase : phase }.
Record World := mkWorld { wd_replicas : gmap Z Replica; wd_wire : list Message }.

Definition put (i : Z) (r : Replica) (W : World) : World :=
  mkWorld (<[i := r]> (wd_replicas W)) (wd_wire W).
Definition with_rnode (n : RawNode) (r : Replica) : Replica := mkReplica n (rp_wal r) (rp_phase r).

(** What [processReady] writes: the entries, then the hard state. *)
Definition persist_log (rd : Ready) (w : WriteAheadLog) : WriteAheadLog :=
  match rd_entries rd with [] => w | es => appendNoSync w es end.
Definition persist (rd : Ready) (w : WriteAheadLog) : WriteAheadLog :=
  let w := persist_log rd w in
  if saves (rd_hardState rd) then saveHardState w (rd_hardState rd) else w.

(** The state files after it. *)
Lemma appendNoSync_files w es :
  w_hsFile (appendNoSync w es) = w_hsFile w /\ w_csFile (appendNoSync w es) = w_csFile w.
Proof.
  assert (forall es w, w_hsFile (foldl push_entry w es) = w_hsFile w /\ w_csFile (foldl push_entry w es) = w_csFile w)
    as Hf.
  { clear. induction es as [|e es IH]; intros w; [done|]. cbn [foldl]. by destruct (IH (push_entry w e)) as [-> ->]. }
  unfold appendNoSync. destruct es as [|e es]; [done|]. destruct (Hf (e :: es)) with
    (w := if e_index e <=? WriteAheadLog.lastIndex w
          then rewrite_log (WriteAheadLog.set_log (w_logFile w) (resize_entries (Z.to_nat (e_index e)) (w_entries w)) w)
          else w) as [-> ->]. by destruct (_ <=? _).
Qed.

Lemma persist_log_files rd w :
  w_hsFile (persist_log rd w) = w_hsFile w /\ w_csFile (persist_log rd w) = w_csFile w.
Proof. unfold persist_log. destruct (rd_entries rd); [done|apply appendNoSync_files]. Qed.

Lemma persist_files rd w :
  w_hsFile (persist rd w) = hs_after rd (w_hsFile w) /\ w_csFile (persist rd w) = w_csFile w.
Proof.
  destruct (persist_log_files rd w). unfold persist, hs_after. by destruct (saves _).
Qed.

Section Replica.
Context `{!Platform} `{!Random} (V : list Z).
Implicit Types (r : Replica) (W : World).

(** Neither the term nor the log is at the end of its range. *)
Definition fits (w : WriteAheadLog) (n : RawNode) : Prop :=
  term_below (n_term n) /\ Z.of_nat (length (log_list w (n_log n))) < max_log.

(** Started on these files. *)
Definition revived (i : Z) (logFile : bytes) (hsFile csFile : option bytes) r : Prop :=
  exists c, c_id c = i /\ c_peers c = V /\ c_learners c = [] /\
    let w := new_WriteAheadLog logFile hsFile csFile in r = mkReplica (new_RawNode c w) w Idle.

Inductive replica_step W : World -> Prop :=
| r_tick i r b n' :
    wd_replicas W !! i = Some r -> rp_phase r = Idle -> fits (rp_wal r) (rp_node r) ->
    tick (rp_wal r) (rp_node r) = Some (b, n') -> replica_step W (put i (with_rnode n' r) W)
| r_step i r m n' :
    wd_replicas W !! i = Some r -> rp_phase r = Idle -> fits (rp_wal r) (rp_node r) ->
    m ∈ wd_wire W -> m_to m = i -> term_below (m_term m) ->
    step (rp_wal r) (rp_node r) m = Some n' -> replica_step W (put i (with_rnode n' r) W)
| r_propose i r data b n' :
    wd_replicas W !! i = Some r -> fits (rp_wal r) (rp_node r) -> str_ok data ->
    propose (rp_wal r) (rp_node r) data = Some (b, n') -> replica_step W (put i (with_rnode n' r) W)
| r_readIndex i r ctx b n' :
    wd_replicas W !! i = Some r -> fits (rp_wal r) (rp_node r) ->
    readIndex (rp_node r) ctx = Some (b, n') -> replica_step W (put i (with_rnode n' r) W)
| r_poll i r rd n' :
    wd_replicas W !! i = Some r -> rp_phase r = Idle -> poll (rp_wal r) (rp_node r) = (rd, n') ->
    replica_step W (put i (mkReplica n' (rp_wal r) (Polled rd)) W)
| r_write i r rd :
    wd_replicas W !! i = Some r -> rp_phase r = Polled rd -> term_below (hs_term (rd_hardState rd)) ->
    replica_step W
      (mkWorld (<[i := mkReplica (rp_node r) (persist rd (rp_wal r)) Written]> (wd_replicas W))
         (wd_wire W ++ rd_messages rd))
| r_advance i r n' :
    wd_replicas W !! i = Some r -> rp_phase r = Written -> advance (rp_wal r) (rp_node r) = Some n' ->
    replica_step W (put i (mkReplica n' (rp_wal r) Idle) W)
| r_crash i r r' :
    wd_replicas W !! i = Some r ->
    revived i (w_logFile (rp_wal r)) (w_hsFile (rp_wal r)) (w_csFile (rp_wal r)) r' ->
    replica_step W (put i r' W)
| r_crash_writing i r rd k r' :  (* [k] records of the new log reached the disk *)
    wd_replicas W !! i = Some r -> rp_phase r = Polled rd ->
    revived i (foldl writeEntry [] (take k (w_log (persist_log rd (rp_wal r))))) (w_hsFile (rp_wal r))
      (w_csFile (rp_wal r)) r' ->
    replica_step W (put i r' W)
| r_crash_sending i r rd sent r' :  (* some messages were sent, by threads of their own *)
    wd_replicas W !! i = Some r -> rp_phase r = Polled rd -> term_below (hs_term (rd_hardState rd)) ->
    revived i (w_logFile (persist rd (rp_wal r))) (w_hsFile (persist rd (rp_wal r)))
      (w_csFile (persist rd (rp_wal r))) r' ->
    sent ⊆ rd_messages rd ->
    replica_step W (mkWorld (<[i := r']> (wd_replicas W)) (wd_wire W ++ sent)).

(** Members on empty logs, with any hard state. *)
Definition replica_initial W : Prop :=
  wd_wire W = [] /\
  forall i r, wd_replicas W !! i = Some r ->
    i ∈ V /\ i <> 0 /\ exists hsFile, 0 <= hs_term (file_hs hsFile) /\ revived i [] hsFile None r.

Definition replica_reachable W : Prop := exists W0, replica_initial W0 /\ rtc replica_step W0 W.

(** ** The cluster they form *)

Definition saved r : HardState := file_hs (w_hsFile (rp_wal r)).

Definition polled r : option (HardState * list Message) :=
  match rp_phase r with Polled rd => Some (rd_hardState rd, rd_messages rd) | _ => None end.

Definition rhost r : Host := mkHost (rp_node r) (saved r) (polled r).
Definition rcluster W : Cluster := mkCluster (rhost <$> wd_replicas W) (wd_wire W).

Lemma lookup_rcluster W i r :
  wd_replicas W !! i = Some r -> cl_hosts (rcluster W) !! i = Some (rhost r).
Proof. intros Hi. simpl. by rewrite lookup_fmap, Hi. Qed.

Lemma lookup_rcluster_inv W i ho :
  cl_hosts (rcluster W) !! i = Some ho -> exists r, wd_replicas W !! i = Some r /\ ho = rhost r.
Proof. simpl. rewrite lookup_fmap. intros (r & ? & ->)%fmap_Some. eauto. Qed.

Lemma rcluster_put W i r : rcluster (put i r W) = set_host i (rhost r) (rcluster W).
Proof. unfold rcluster, put, set_host. simpl. by rewrite fmap_insert. Qed.

(** ** The invariant *)

Definition log_of r : list Entry := log_list (rp_wal r) (n_log (rp_node r)).

(** The log on disk and in memory. *)
Definition logs_ok (H : history) r : Prop :=
  w_snapIndex (rp_wal r) = 0 /\ w_csFile (rp_wal r) = None /\ log_follows H (rp_wal r) (n_log (rp_node r)).

(** What the loop knows of the entries it took. *)
Definition phase_ok r : Prop :=
  let n := rp_node r in
  let u := rl_unstable (n_log n) in
  match rp_phase r with
  | Idle => n_lastReadyLastIndex n = 0
  | Polled rd =>
      rd_snapshot rd = None /\ rd_entries rd `prefix_of` u_entries u
      /\ n_lastReadyLastIndex n = match last (rd_entries rd) with Some e => e_index e | None => 0 end
  | Written =>
      n_lastReadyLastIndex n = 0 \/
      u_entries u <> [] /\ u_offset u <= n_lastReadyLastIndex n <= Z.of_nat (length (log_of r))
      /\ w_log (rp_wal r) = take (Z.to_nat (n_lastReadyLastIndex n)) (log_of r)
  end.

(** A hard state that does not forget that [i] led term [T]. *)
Definition bound (hs : HardState) (T i : Z) : Prop :=
  T <= hs_term hs /\ (hs_term hs = T -> hs_vote hs = i).

(** What [i] remembers of having led it. *)
Definition owned r (T i : Z) : Prop :=
  T <= n_term (rp_node r)
  /\ (n_term (rp_node r) = T ->
      n_role (rp_node r) = Leader \/ n_role (rp_node r) = Follower /\ n_vote (rp_node r) = i)
  /\ bound (saved r) T i /\ forall rd, rp_phase r = Polled rd -> bound (rd_hardState rd) T i.

(** [i] is the one leader of term [T], for good: a majority voted for it, and
    it neither votes for another nor stands again in [T]. *)
Record owns W (T i : Z) : Prop := {
  ow_votes : exists vs, NoDup vs /\ (length V / 2 + 1 <= length vs)%nat /\
    forall v, v ∈ vs -> v = i \/
      exists m, m ∈ wd_wire W /\ is_vote V m /\ m_from m = v /\ m_to m = i /\ m_term m = T;
  ow_faithful m : produced (rcluster W) m -> is_vote V m -> m_from m = i -> m_term m = T -> m_to m = i;
  ow_replica : exists r, wd_replicas W !! i = Some r /\ owned r T i
}.

(** A candidate or leader has voted for itself in every hard state of its
    term. *)
Definition self_voted (i : Z) r : Prop :=
  n_role (rp_node r) <> Follower ->
  n_vote (rp_node r) = i /\ (hs_term (saved r) = n_term (rp_node r) -> hs_vote (saved r) = i)
  /\ forall rd, rp_phase r = Polled rd -> hs_term (rd_hardState rd) = n_term (rp_node r) ->
      hs_vote (rd_hardState rd) = i.

(** An append message carries a batch of its term's history. *)
Definition batch_ok (H : history) (m : Message) : Prop :=
  m_type m = MsgApp ->
  m_entries m = [] \/ batch_of (H (m_term m)) (m_index m) (m_logTerm m) (m_entries m).

Definition sendable (H : history) (m : Message) : Prop :=
  batch_ok H m /\ m_type m <> MsgSnap /\ m_type m <> MsgPropose.

Record replica_inv (H : history) W : Prop := {
  ri_election : election_inv V (rcluster W);
  ri_history : history_ok H;
  ri_logs i r : wd_replicas W !! i = Some r -> logs_ok H r /\ phase_ok r /\ self_voted i r;
  ri_leader i r : wd_replicas W !! i = Some r -> n_role (rp_node r) = Leader ->
    log_of r = H (n_term (rp_node r)) /\ owns W (n_term (rp_node r)) i;
  ri_owner T : H T <> [] -> exists i, owns W T i;
  ri_messages m : produced (rcluster W) m -> sendable H m;
  (* vote requests: sent once the term is on disk, and answered only then *)
  ri_requested i r m : wd_replicas W !! i = Some r -> m ∈ outgoing (rhost r) -> m_type m = MsgVote ->
    m_from m = i /\ 0 < m_term m <= n_term (rp_node r)
    /\ forall rd, rp_phase r = Polled rd -> m ∈ rd_messages rd -> m_term m <= hs_term (rd_hardState rd);
  ri_on_disk m i r : m ∈ wd_wire W -> m_type m = MsgVote -> m_from m = i ->
    wd_replicas W !! i = Some r -> m_term m <= hs_term (saved r);
  ri_answered m : produced (rcluster W) m -> is_vote V m ->
    exists q, q ∈ wd_wire W /\ m_type q = MsgVote /\ m_from q = m_to m /\ m_term q = m_term m
}.
End Replica.
