(* ===== verification/LogMatching.v ===== *)
(** * Log matching

    Every step of the replicas keeps [replica_inv].  Hence each term has one
    leader for good, its log only grows while it leads, and two logs of the
    cluster, in memory or on disk, at the same or at different times, that
    share an entry of some index and term agree on everything up to it. *)

From S2P Require Import Prelude RaftTypes LogUnstable WriteAheadLog RaftLog Progress ReadOnly RawNode.
From S2P Require Import RaftActions RaftElection RaftCluster LogHistory RaftReplica OrderProtocol.

(** ** What an action does to votes and requests *)

Record vote_effect (i : input) (n n' : RawNode) (ms : list Message) : Prop := {
  ve_msgs : n_msgs n' = n_msgs n ++ ms;
  ve_term : n_term n <= n_term n';
  ve_request m : m ∈ ms -> m_type m = MsgVote ->
    n_role n = Candidate /\ m_from m = n_id n /\ m_term m = n_term n;
  ve_grant m : m ∈ ms -> granted m = true ->
    n_role n = Follower /\ m_from m = n_id n /\ m_term m = n_term n
    /\ (n_vote n = 0 \/ n_vote n = m_to m)
    /\ exists v, i = InMessage v /\ m_type v = MsgVote /\ m_from v = m_to m /\ m_term v = m_term m;
  ve_leader : n_term n' = n_term n -> n_role n = Leader -> n_role n' = Leader;
  ve_voted : n_term n' = n_term n -> n_role n = Follower -> n_vote n <> 0 ->
    n_role n' = Follower /\ n_vote n' = n_vote n;
  ve_self : n_role n' <> Follower ->
    n_term n' = n_term n /\ n_role n <> Follower /\ n_vote n' = n_vote n
    \/ n_term n < n_term n' /\ n_vote n' = n_id n
}.

(** No election, and messages that are neither votes nor requests. *)
Lemma vote_effect_quiet i n n' ms :
  same_election n n' -> n_msgs n' = n_msgs n ++ ms ->
  Forall (fun m => m_type m <> MsgVote /\ granted m = false) ms -> vote_effect i n n' ms.
Proof.
  intros (Hr & Ht & Hv & _) Hm Hms. rewrite Forall_forall in Hms.
  constructor; [done|lia|intros m Hin; by destruct (Hms m Hin)| | | |].
  - intros m Hin Hg. destruct (Hms m Hin). congruence.
  - congruence.
  - intros _ ? _. split; congruence.
  - rewrite Hr, Ht, Hv. auto.
Qed.

Lemma vote_effect_nil i n n' :
  same_election n n' -> same_msgs n n' -> vote_effect i n n' [].
Proof. intros He Hm. apply vote_effect_quiet; [done|by rewrite app_nil_r|constructor]. Qed.

Section Effects.
Context `{!Platform} `{!Random} {St : Type} `{!Storage St}.
Implicit Types (st : St) (n : RawNode).

Lemma vote_effect_send i n m :
  m_type m <> MsgVote -> granted m = false -> vote_effect i n (send n m) [m].
Proof. intros. apply vote_effect_quiet; [by split_and!|done|by apply Forall_singleton]. Qed.

Lemma not_granted m : m_type m <> MsgVoteResp -> granted m = false.
Proof. intros Hm. unfold granted. by rewrite bool_decide_eq_false_2. Qed.

Lemma calm_vote_effect st M i n n' : calm st M i n n' -> exists ms, vote_effect i n n' ms.
Proof.
  intros [_ He _ Hm|m (Hg & _ & Hv & _) ->|m next _ Ht _ _ _ _ _ ->|m Ht _ ->|e _ _ _ _ _ _ ->].
  - exists []. by apply vote_effect_nil.
  - exists [m]. by apply vote_effect_send.
  - exists [m]. apply vote_effect_send; [congruence|apply not_granted; congruence].
  - exists [m]. apply vote_effect_send; [congruence|apply not_granted; congruence].
  - exists []. by apply vote_effect_nil.
Qed.

Lemma act_vote_effect st M i n n' : act st M i n n' -> exists ms, vote_effect i n n' ms.
Proof.
  intros [Hc|v m _ Hty E ->|m Hr E Hf Ht ->|v ok log _ _ _ _ _ ->|v _ _ _ ->|Hn _ Hm Hr Hvs Hv Ht
    |Hn _ Hm Hr Ht _ Hv Hvs|Hn _ Hm Hr Hr' Ht Hv Hvs Hq
    |v resp Hi Hty Ht Hg Hp Hto Hf Htr _ _ Hm Hr Hr' Ht' Hvs Hv Hv'
    |v Hi Hg Ht Hn _ Hm Hr Hr' Ht' Hv Hnew Hvs].
  - by eapply calm_vote_effect.
  - exists [m]. apply vote_effect_send; [|apply not_granted]; destruct Hty; congruence.
  - exists [m]. constructor; simpl; try (done || lia || auto).
    + intros m' ->%list_elem_of_singleton _. done.
    + intros m' ->%list_elem_of_singleton Hg. rewrite not_granted in Hg by congruence. done.
  - exists []. by apply vote_effect_nil.
  - exists []. by apply vote_effect_nil.
  - assert (n_term n <= n_term n') by (destruct Ht as [[? _]|[-> _]]; lia).
    exists []. constructor; try done; try (intros m Hin; by apply not_elem_of_nil in Hin).
    + by rewrite app_nil_r.
    + intros E. destruct Ht as [?|[_ [?|?]]]; [lia|congruence..].
    + intros E. destruct Ht as [?|[_ [?|?]]]; [lia|congruence..].
  - exists []. constructor; try (intros m Hin; by apply not_elem_of_nil in Hin); try lia.
    + by rewrite app_nil_r.
  - exists []. constructor; try (intros m Hin; by apply not_elem_of_nil in Hin); try done; try lia.
    + by rewrite app_nil_r.
    + intros _ ?. destruct Hr; congruence.
    + intros _. left. split_and!; [done|destruct Hr; congruence|done].
  - exists [resp]. constructor; try done; try lia.
    + intros m ->%list_elem_of_singleton E. unfold granted in Hg. by rewrite E in Hg.
    + intros m ->%list_elem_of_singleton _. split_and!; [done..|congruence|]. exists v. split_and!; congruence.
    + congruence.
    + intros _ _ ?. split; [done|]. destruct Hv; congruence.
  - exists []. constructor; try (intros m Hin; by apply not_elem_of_nil in Hin); try lia.
    + by rewrite app_nil_r.
    + congruence.
    + intros _ ?. destruct Hr; congruence.
    + intros _. left. split_and!; [done|destruct Hr; congruence|done].
Qed.
End Effects.

(** ** The log of a replica *)

(** Only the unstable part of the log in memory matters. *)
Lemma log_list_same `{!Platform} (w : WriteAheadLog) (l l' : RaftLog) :
  rl_unstable l' = rl_unstable l -> log_list w l' = log_list w l.
Proof. intros E. unfold log_list. by rewrite E. Qed.

Section Invariant.
Context `{!Platform} `{!Random} (V : list Z).
Implicit Types (r : Replica) (W : World) (hist : history).

(** The invariant holds of the next world, and no term loses its leader. *)
Definition keeps hist W W' : Prop :=
  replica_inv V hist W' /\ forall T j, owns V W T j -> owns V W' T j.

(** What may be fed to replica [i]. *)
Definition input_ok W (i : Z) (inp : input) : Prop :=
  match inp with
  | InMessage m => m ∈ wd_wire W /\ m_to m = i
  | InPropose data => str_ok data
  | _ => True
  end.

Lemma lookup_put W i r j r' :
  wd_replicas (put i r W) !! j = Some r' <-> i = j /\ r = r' \/ i <> j /\ wd_replicas W !! j = Some r'.
Proof using Type. apply lookup_insert_Some. Qed.

Lemma rhost_rnode n' r : rhost (with_rnode n' r) = with_node n' (rhost r).
Proof using Type. done. Qed.

Section Act.
Context hist W (i : Z) r (inp : input) (n' : RawNode) (ms : list Message).
Context (Hinv : replica_inv V hist W) (Hi : wd_replicas W !! i = Some r) (Hin : input_ok W i inp).
Context (Hve : vote_effect inp (rp_node r) n' ms).
Let W' := put i (with_rnode n' r) W.

Lemma act_member : i ∈ V /\ i <> 0 /\ n_id (rp_node r) = i /\ n_voters (rp_node r) = V
  /\ n_role (rp_node r) <> PreCandidate /\ 0 <= n_term (rp_node r)
  /\ (n_role (rp_node r) <> Follower -> 0 < n_term (rp_node r)).
Proof using Hinv Hi. apply (ei_nodes _ _ (ri_election _ _ _ Hinv) _ _ (lookup_rcluster _ _ _ Hi)). Qed.

Lemma produced_act m : produced (rcluster W') m -> produced (rcluster W) m \/ m ∈ ms.
Proof using Hi Hve.
  unfold W'. rewrite rcluster_put, rhost_rnode.
  apply produced_move; [by apply lookup_rcluster|apply Hve].
Qed.

Lemma owns_act T j : owns V W T j -> owns V W' T j.
Proof using Hinv Hi Hve.
  intros [Hvotes Hfaith (rj & Hj & Ht & Hrole & Hsaved & Hrd)].
  pose proof act_member as (_ & Hi0 & Hid & _).
  constructor; [exact Hvotes| |].
  - intros m Hp Hv Hf HT. apply produced_act in Hp as [Hp|Hm]; [by apply Hfaith|].
    destruct (ve_grant _ _ _ _ Hve m Hm (proj1 Hv)) as (Hr & Hfrom & Hterm & Hvote & _).
    rewrite Hid in Hfrom. rewrite Hfrom in Hf. subst j. rewrite Hi in Hj. injection Hj as <-.
    destruct Hrole as [?|[_ Hvi]]; [congruence..|]. destruct Hvote as [?|Hto]; [congruence|].
    by rewrite <- Hto, Hvi.
  - destruct (decide (i = j)) as [<-|Hne].
    + exists (with_rnode n' r). rewrite Hi in Hj. injection Hj as <-.
      pose proof (ve_term _ _ _ _ Hve). unfold owned.
      split_and!; [apply lookup_put; by left|simpl; lia| |done|done].
      simpl. intros E. assert (n_term (rp_node r) = T) as E' by lia.
      destruct (Hrole E') as [Hl|[Hf Hv]].
      * left. apply (ve_leader _ _ _ _ Hve); [congruence|done].
      * right. destruct (ve_voted _ _ _ _ Hve) as [? Ev]; [congruence|done|congruence|]. split; [done|congruence].
    + exists rj. split; [apply lookup_put; by right|done].
Qed.

Lemma self_voted_act : self_voted i (with_rnode n' r).
Proof using Hinv Hi Hve.
  intros Hr'. pose proof act_member as (_ & _ & Hid & _).
  destruct (ri_logs _ _ _ Hinv _ _ Hi) as (_ & _ & Hs).
  destruct (ei_saved _ _ (ri_election _ _ _ Hinv) _ _ (lookup_rcluster _ _ _ Hi)) as [Hsv _].
  pose proof (ei_ready _ _ (ri_election _ _ _ Hinv) i (rhost r)) as Hrd. simpl in Hr', Hsv |- *.
  destruct (ve_self _ _ _ _ Hve Hr') as [(Et & Hr & Ev)|[Ht Ev]].
  - rewrite Ev, Et. by apply Hs.
  - split_and!; [congruence|unfold saved; simpl in *; unfold saved in Hsv; lia|].
    intros rd Hp E. exfalso. destruct (Hrd (rd_hardState rd) (rd_messages rd)) as [Hle _].
    + by apply lookup_rcluster.
    + simpl. unfold polled. by rewrite Hp.
    + simpl in Hle. lia.
Qed.

(** The messages and requests after an action whose messages may be sent. *)
Lemma requests_act :
  (forall j rj m, wd_replicas W' !! j = Some rj -> m ∈ outgoing (rhost rj) -> m_type m = MsgVote ->
     m_from m = j /\ 0 < m_term m <= n_term (rp_node rj)
     /\ forall rd, rp_phase rj = Polled rd -> m ∈ rd_messages rd -> m_term m <= hs_term (rd_hardState rd))
  /\ (forall m j rj, m ∈ wd_wire W' -> m_type m = MsgVote -> m_from m = j ->
        wd_replicas W' !! j = Some rj -> m_term m <= hs_term (saved rj))
  /\ (forall m, produced (rcluster W') m -> is_vote V m ->
        exists q, q ∈ wd_wire W' /\ m_type q = MsgVote /\ m_from q = m_to m /\ m_term q = m_term m).
Proof using Hinv Hi Hin Hve.
  pose proof act_member as (_ & _ & Hid & _ & _ & _ & Hpos). split_and!.
  - intros j rj m Hj Hm Hty. apply lookup_put in Hj as [[<- <-]|[_ Hj]]; [|by eapply ri_requested].
    rewrite rhost_rnode, (outgoing_node (rhost r) n' ms (ve_msgs _ _ _ _ Hve)) in Hm.
    pose proof (ve_term _ _ _ _ Hve). apply elem_of_app in Hm as [Hm|Hm].
    + destruct (ri_requested _ _ _ Hinv i r m Hi Hm Hty) as (? & ? & ?). split_and!; simpl; (done || lia).
    + destruct (ve_request _ _ _ _ Hve m Hm Hty) as (Hr & ? & ?). specialize (Hpos ltac:(congruence)).
      split_and!; simpl; [congruence|lia|lia|].
      intros rd Hp Hmr. destruct (ri_requested _ _ _ Hinv i r m Hi) as (_ & _ & Hle); [|done|by apply Hle].
      unfold outgoing. simpl. unfold polled. rewrite Hp. simpl. set_solver.
  - intros m j rj Hm Hty Hf Hj. apply lookup_put in Hj as [[<- <-]|[_ Hj]].
    + exact (ri_on_disk _ _ _ Hinv m i r Hm Hty Hf Hi).
    + exact (ri_on_disk _ _ _ Hinv m j rj Hm Hty Hf Hj).
  - intros m Hp Hv. apply produced_act in Hp as [Hp|Hm]; [exact (ri_answered _ _ _ Hinv m Hp Hv)|].
    destruct (ve_grant _ _ _ _ Hve m Hm (proj1 Hv)) as (_ & _ & _ & _ & v & -> & Hty & Hf & Ht).
    destruct Hin as [Hw _]. by exists v.
Qed.
End Act.

(** ** Histories that hist_grow *)

Lemma batch_of_mono G G' prev pt ents : G `prefix_of` G' -> batch_of G prev pt ents -> batch_of G' prev pt ents.
Proof using Type.
  intros [k ->] (p & -> & Hp & -> & Hpre). exists p. rewrite take_app_le, drop_app_le by done.
  split_and!; [done|rewrite length_app; lia|done|by apply prefix_app_r].
Qed.

Lemma sendable_mono hist hist' m : extends hist hist' -> sendable hist m -> sendable hist' m.
Proof using Type.
  intros He (Hb & Hm). split; [|done]. intros Hty. destruct (Hb Hty) as [?|?]; [by left|right].
  eapply batch_of_mono; [apply He|done].
Qed.

Lemma logs_ok_mono hist hist' r : extends hist hist' -> logs_ok hist r -> logs_ok hist' r.
Proof using Type.
  intros He (Hs & Hc & Hp & HS & HL). split_and!; [done..|]. split_and!; [done|..]; by eapply follows_mono.
Qed.

Context (HVn : NoDup V).

(** The invariant after an action: what is left to show is about the node
    that acted. *)
Lemma act_assemble hist hist' W i r inp n' ms :
  replica_inv V hist W -> wd_replicas W !! i = Some r -> input_ok W i inp ->
  vote_effect inp (rp_node r) n' ms ->
  let r' := with_rnode n' r in
  let W' := put i r' W in
  election_inv V (rcluster W') -> history_ok hist' -> extends hist hist' ->
  logs_ok hist' r' -> phase_ok r' ->
  (n_role n' = Leader -> log_of r' = hist' (n_term n') /\ owns V W' (n_term n') i) ->
  (forall T, hist' T <> hist T -> T = n_term n' /\ n_role n' = Leader) ->
  (forall m, m ∈ ms -> sendable hist' m) ->
  replica_inv V hist' W'.
Proof using HVn.
  intros Hinv Hi Hin Hve r' W' Hel Hho Hext Hlogs Hphase Hlead Hchange Hms.
  destruct (requests_act hist W i r inp n' ms Hinv Hi Hin Hve) as (Hrq & Hdisk & Hans).
  constructor; [done|done| | | | |done|done|done].
  - intros j rj Hj. apply lookup_put in Hj as [[<- <-]|[_ Hj]].
    + split_and!; [done|done|]. by eapply self_voted_act.
    + destruct (ri_logs _ _ _ Hinv _ _ Hj) as (? & ? & ?). split_and!; [by eapply logs_ok_mono|done|done].
  - intros j rj Hj Hr. apply lookup_put in Hj as [[<- <-]|[Hne Hj]]; [by apply Hlead|].
    destruct (ri_leader _ _ _ Hinv _ _ Hj Hr) as [El Ho]. split; [|by eapply owns_act].
    destruct (decide (hist' (n_term (rp_node rj)) = hist (n_term (rp_node rj)))) as [->|Hd]; [done|].
    apply Hchange in Hd as [Et Hr'].
    assert (wd_replicas W' !! i = Some r' /\ wd_replicas W' !! j = Some rj) as [Hi' Hj'].
    { split; apply lookup_put; [by left|by right]. }
    destruct Hne. by apply (leaders_agree V (rcluster W') i j (rhost r') (rhost rj)); try apply lookup_rcluster.
  - intros T HT. destruct (decide (hist' T = hist T)) as [E|Hd].
    + rewrite E in HT. destruct (ri_owner _ _ _ Hinv T HT) as [k Hk]. exists k. by eapply owns_act.
    + apply Hchange in Hd as [-> Hr']. exists i. by apply Hlead.
  - intros m Hp. apply (produced_act W i r inp n' ms Hi Hve) in Hp as [Hp|Hm]; [|by apply Hms].
    eapply sendable_mono; [exact Hext|]. by eapply ri_messages.
Qed.

(** An action that leaves the histories alone. *)
Lemma act_assemble_same hist W i r inp n' ms :
  replica_inv V hist W -> wd_replicas W !! i = Some r -> input_ok W i inp ->
  vote_effect inp (rp_node r) n' ms -> n_term n' = n_term (rp_node r) \/ n_role n' <> Leader ->
  (n_role n' = Leader -> n_role (rp_node r) = Leader) ->
  let r' := with_rnode n' r in
  let W' := put i r' W in
  election_inv V (rcluster W') -> logs_ok hist r' -> phase_ok r' ->
  (n_role n' = Leader -> log_of r' = log_of r) -> (forall m, m ∈ ms -> sendable hist m) ->
  replica_inv V hist W'.
Proof using HVn.
  intros Hinv Hi Hin Hve Ht Hr r' W' Hel Hlogs Hphase Hlog Hms.
  apply (act_assemble hist hist W i r inp n' ms); try done; [apply Hinv|].
  intros Hl. destruct Ht as [Ht|?]; [|done]. destruct (ri_leader _ _ _ Hinv _ _ Hi (Hr Hl)) as [El Ho].
  rewrite Ht. split; [by rewrite <- El; apply Hlog|]. by eapply owns_act.
Qed.

(** ** One action *)

Lemma same_log_ok hist r n' :
  same_log (rp_node r) n' -> n_lastReadyLastIndex n' = n_lastReadyLastIndex (rp_node r) ->
  logs_ok hist r -> phase_ok r ->
  log_of (with_rnode n' r) = log_of r /\ logs_ok hist (with_rnode n' r) /\ phase_ok (with_rnode n' r).
Proof using Type.
  intros Hl Hr (Hs & Hc & Hf) Hp. unfold same_log in Hl.
  assert (log_of (with_rnode n' r) = log_of r) as El by (by apply log_list_same).
  split_and!; [done|split_and!; [done..|by eapply log_follows_same]|].
  unfold phase_ok in *. rewrite El. simpl. by rewrite Hl, Hr.
Qed.

(** The messages of an action, known from what the node's list became. *)
Lemma msgs_of_act (n n' : RawNode) (ms ms' : list Message) (P : Message -> Prop) :
  n_msgs n' = n_msgs n ++ ms -> n_msgs n' = n_msgs n ++ ms' -> Forall P ms' -> forall m, m ∈ ms -> P m.
Proof using Type. intros E1 E2 HP m Hm. rewrite E1 in E2. apply app_inv_head in E2 as ->. by eapply Forall_forall. Qed.

Lemma sendable_other hist m :
  m_type m <> MsgApp -> m_type m <> MsgSnap -> m_type m <> MsgPropose -> sendable hist m.
Proof using Type. intros. split_and!; [by intros ?|done|done]. Qed.

Section OneAct.
Context (hist : history) W (i : Z) r (inp : input) (n' : RawNode).
Context (Hinv : replica_inv V hist W) (Hi : wd_replicas W !! i = Some r) (Hin : input_ok W i inp).
Let W' := put i (with_rnode n' r) W.

Lemma election_act : act (rp_wal r) max_log inp (rp_node r) n' -> election_inv V (rcluster W').
Proof using Hinv Hi Hin.
  intros Ha. unfold W'. rewrite rcluster_put, rhost_rnode. apply (micro_inv V _ (message_of inp)).
  - apply Hinv.
  - by apply lookup_rcluster.
  - intros v Hv _. destruct inp; simplify_eq/=. done.
  - by eapply act_micro.
Qed.

(** An action that keeps the log, in a role that is not won by it. *)
Lemma keep_act ms' :
  act (rp_wal r) max_log inp (rp_node r) n' -> same_log (rp_node r) n' -> same_node (rp_node r) n' ->
  (n_role n' = Leader -> n_role (rp_node r) = Leader /\ n_term n' = n_term (rp_node r)) ->
  n_msgs n' = n_msgs (rp_node r) ++ ms' -> Forall (sendable hist) ms' ->
  replica_inv V hist W'.
Proof using Hinv Hi Hin HVn.
  intros Ha Hl (_ & _ & Hlr) Hr Em Hms. destruct (act_vote_effect _ _ _ _ _ Ha) as [ms Hve].
  destruct (ri_logs _ _ _ Hinv _ _ Hi) as (Hlog & Hph & _).
  destruct (same_log_ok hist r n' Hl Hlr Hlog Hph) as (El & Hlog' & Hph').
  apply (act_assemble_same hist W i r inp n' ms); try done.
  - destruct (decide (n_role n' = Leader)) as [E|E]; [left; by apply Hr|by right].
  - intros E. by apply Hr.
  - by apply election_act.
  - eapply msgs_of_act; [apply Hve|exact Em|done].
Qed.

(** The leader's own entry. *)
Lemma append_phase_ok l' e :
  let u := rl_unstable (n_log (rp_node r)) in
  phase_ok r -> log_list (rp_wal r) l' = log_of r ++ [e] ->
  u_entries (rl_unstable l') = u_entries u ++ [e] ->
  (u_entries u <> [] -> u_offset (rl_unstable l') = u_offset u) ->
  phase_ok (with_rnode (set_log l' (rp_node r)) r).
Proof using Type.
  intros u Hph EL Eu Eo. unfold phase_ok in *. simpl in *. fold u in Hph. unfold log_of in *. simpl.
  destruct (rp_phase r) as [|rd|]; [done| |].
  - destruct Hph as (? & ? & ?). rewrite Eu. split_and!; [done|by apply prefix_app_r|done].
  - destruct Hph as [?|(Hne & Hb & Hw)]; [by left|right]. rewrite Eu, Eo, EL by done.
    split_and!; [by destruct (u_entries u)|lia|rewrite length_app; simpl; lia|].
    rewrite take_app_le by lia. done.
Qed.

Lemma append_inv e :
  n_role (rp_node r) = Leader -> lastIndex (rp_wal r) (n_log (rp_node r)) < max_log ->
  e_term e = n_term (rp_node r) -> e_index e = (lastIndex (rp_wal r) (n_log (rp_node r)) +u 1) ->
  entry_typed e -> n' = set_log (append (rp_wal r) (n_log (rp_node r)) [e]).2 (rp_node r) ->
  act (rp_wal r) max_log inp (rp_node r) n' ->
  exists hist', extends hist hist' /\ replica_inv V hist' W'.
Proof using Hinv Hi Hin HVn.
  intros Hr Hb Ht Hix Hty E Ha.
  destruct (ri_logs _ _ _ Hinv _ _ Hi) as ((Hsi & Hcs & Hp & HS & HL) & Hph & _).
  destruct (ri_leader _ _ _ Hinv _ _ Hi Hr) as [El Ho]. pose proof (ri_history _ _ _ Hinv) as Hho.
  destruct (act_member hist W i r Hinv Hi) as (_ & _ & _ & _ & _ & _ & Hpos).
  specialize (Hpos ltac:(congruence)). set (T := n_term (rp_node r)) in *.
  pose proof (plain_last _ _ Hp) as Hlast. change (log_list (rp_wal r) (n_log (rp_node r))) with (log_of r) in *.
  rewrite lastIndex_eq, Hlast in Hb by apply Hp.
  destruct (leader_append _ _ e Hp Hb Hix) as [Eu|(Hp' & EL & Eun & Eo)].
  { exists hist. split; [done|]. apply (keep_act []); rewrite ?E; try done; try (by rewrite <- E).
    by rewrite app_nil_r. }
  set (l' := (append _ _ _).2) in *. change (log_list (rp_wal r) (n_log (rp_node r))) with (log_of r) in EL.
  rewrite lastIndex_eq, Hlast, u64_small, El in Hix by (apply Hp || (unfold max_log in *; mach)). rewrite El in Hb.
  destruct (hist_grow_append hist Hho T e) as [Hho' Hf']; [split; [lia|done]|done|done|done|].
  set (hist' := hist_grow hist T (hist T ++ [e])) in *.
  assert (extends hist hist') as Hext by (apply hist_grow_extends; by apply prefix_app_r).
  assert (hist' T = hist T ++ [e]) as ET by (unfold hist', hist_grow; by rewrite decide_True).
  assert (log_of (with_rnode n' r) = hist T ++ [e]) as El' by (unfold log_of at 1; rewrite E; simpl; by rewrite EL, El).
  exists hist'. split; [done|]. destruct (act_vote_effect _ _ _ _ _ Ha) as [ms Hve].
  apply (act_assemble hist hist' W i r inp n' ms); try done.
  - by apply election_act.
  - rewrite E. split_and!; [done..|]. split_and!; [done|by eapply follows_mono|].
    simpl. rewrite EL, El. done.
  - rewrite E. by eapply append_phase_ok.
  - intros _. rewrite E. simpl. fold T. rewrite ET. rewrite E in El'. split; [done|]. rewrite <- E. by eapply owns_act.
  - intros T' HT'. rewrite E. simpl. fold T. split; [|done].
    destruct (decide (T' = T)) as [|Hne]; [done|]. destruct HT'. unfold hist', hist_grow. by rewrite decide_False.
  - eapply (msgs_of_act (rp_node r) n' ms []); [apply Hve|rewrite E; simpl; by rewrite app_nil_r|constructor].
Qed.

(** Bookkeeping, messages, batches, entries. *)
Lemma calm_inv :
  n_term (rp_node r) < 2 ^ 64 -> calm (rp_wal r) max_log inp (rp_node r) n' ->
  exists hist', extends hist hist' /\ replica_inv V hist' W'.
Proof using Hinv Hi Hin HVn.
  intros Hterm64 Hc. pose proof (act_calm _ _ _ _ _ Hc) as Ha.
  destruct (ri_logs _ _ _ Hinv _ _ Hi) as ((Hsi & _ & Hp & HS & HL) & Hph & _).
  assert (forall m, n' = send (rp_node r) m -> sendable hist m ->
    exists hist', extends hist hist' /\ replica_inv V hist' W') as Hsend.
  { intros m E Hm. exists hist. split; [done|]. apply (keep_act [m]); try done; try (by rewrite E).
    by apply Forall_singleton. }
  destruct Hc as [Hn (Hr & Ht & _) Hl Hm|m (_ & _ & Hv & Happ & Hsn & Hpr) E|m next Hr Hty Ht Hf Hsl Hix Hterm E
    |m _ Hs _|e Hr Hb Ht Hix Hty Hd E].
  - exists hist. split; [done|]. apply (keep_act []); try done.
    + intros E. split; congruence.
    + by rewrite app_nil_r.
  - apply (Hsend m E). by apply sendable_other.
  - apply (Hsend m E). destruct (ri_leader _ _ _ Hinv _ _ Hi Hr) as [El _]. split_and!; [|congruence..].
    intros _. destruct (decide (m_entries m = [])) as [?|Hne]; [by left|right].
    rewrite Ht, <- El, Hix. eapply slice_batch; [exact Hp| |exact Hsl|exact Hterm|done].
    rewrite firstIndex_eq, plain_first in Hf by (done || apply Hp). done.
  - exfalso. apply Hs. unfold snapshot. destruct Hp as (_ & Hu & _). rewrite Hu. simpl. done.
  - apply (append_inv e); try done. destruct (act_member hist W i r Hinv Hi) as (_ & _ & _ & _ & _ & H0' & _).
    unfold entry_typed. rewrite Ht, Hix, Hty. split_and!; [mach|apply u64_range|done|done|].
    destruct Hd as [->|Hd]; [split; [constructor|done]|]. destruct inp as [|m|d|]; try done; [|by rewrite Hd].
    destruct Hin as [Hw _]. exfalso. assert (sendable hist m) as (_ & _ & Hnp) by (by eapply ri_messages; [|left]).
    done.
Qed.

(** *** Winning an election *)

Section Won.
Context (Hcand : n_role (rp_node r) = Candidate) (Hq : (quorum (rp_node r) <= length (n_votes (rp_node r)))%nat).
Let T := n_term (rp_node r).

Lemma candidate_backed : backed V (rcluster W) i (rp_node r).
Proof using Hinv Hi Hcand.
  apply (ei_votes _ _ (ri_election _ _ _ Hinv) _ _ (lookup_rcluster _ _ _ Hi)). simpl. congruence.
Qed.

(** A candidate has voted for nobody else in its term. *)
Lemma candidate_no_vote m :
  produced (rcluster W) m -> is_vote V m -> m_from m = i -> m_term m = T -> False.
Proof using Hinv Hi Hcand.
  intros Hp Hv Hf Ht. destruct (ei_promise _ _ (ri_election _ _ _ Hinv) m Hp Hv) as (ho & Hho & _ & Hpr).
  rewrite Hf, (lookup_rcluster _ _ _ Hi) in Hho. injection Hho as <-. destruct (Hpr Ht) as [E _].
  simpl in E. congruence.
Qed.

(** The term had no leader before. *)
Lemma candidate_fresh : hist T = [].
Proof using Hinv Hi Hcand Hq HVn.
  destruct (decide (hist T = [])) as [|Hne]; [done|exfalso].
  destruct (ri_owner _ _ _ Hinv T Hne) as [k [(vs & Hnd & Hlen & Hvs) Hfaith (rk & Hk & _ & Hrole & _)]].
  pose proof (ri_election _ _ _ Hinv) as Hel. pose proof candidate_backed as Hb.
  destruct (act_member hist W i r Hinv Hi) as (HiV & _ & _ & HV & _).
  assert (k <> i) as Hki.
  { intros ->. rewrite Hi in Hk. injection Hk as <-. destruct (Hrole eq_refl) as [?|[? _]]; congruence. }
  assert (vs ⊆ V) as Hsub.
  { intros v Hv. destruct (Hvs v Hv) as [->|(m & Hm & Hmv & <- & _)].
    - by destruct (ei_nodes _ _ Hel _ _ (lookup_rcluster _ _ _ Hk)).
    - destruct (ei_promise _ _ Hel m) as (ho & Hho & _); [by left|done|]. by destruct (ei_nodes _ _ Hel _ _ Hho). }
  unfold quorum in Hq. rewrite HV in Hq.
  destruct (majorities_meet V vs (n_votes (rp_node r))) as (v & Hv1 & Hv2); try done; [apply Hb| |].
  { apply (votes_members V (rcluster W) i (rhost r)); [done|by apply lookup_rcluster|done]. }
  destruct (Hvs v Hv1) as [E1|(m1 & Hw1 & Hm1 & Hf1 & Ht1 & Et1)],
    (proj2 Hb v Hv2) as [E2|(m2 & Hw2 & Hm2 & Hf2 & Ht2 & Et2)].
  - congruence.
  - destruct Hki. rewrite <- Ht2. symmetry. apply Hfaith; [by left|done|congruence|done].
  - eapply (candidate_no_vote m1); [by left|done|congruence|done].
  - destruct Hki. rewrite <- Ht1, <- Ht2. eapply (ei_unique _ _ Hel); [by left|by left|done|done|congruence|by rewrite Et1, Et2].
Qed.

Context (HV2 : (2 <= length V)%nat).

(** The votes came in answer to requests, which were sent with the term and
    the candidate's own vote on disk. *)
Lemma candidate_on_disk : bound (saved r) T i.
Proof using Hinv Hi Hcand Hq HV2.
  destruct candidate_backed as [Hnd Hb]. pose proof (ri_election _ _ _ Hinv) as Hel.
  destruct (act_member hist W i r Hinv Hi) as (_ & _ & _ & HV & _).
  assert (exists v, v ∈ n_votes (rp_node r) /\ v <> i) as (v & Hv & Hne).
  { assert (2 <= length (n_votes (rp_node r)))%nat as H2.
    { unfold quorum in Hq. rewrite HV in Hq. pose proof (Nat.div_le_mono 2 (length V) 2 ltac:(lia) HV2) as Hd.
      change (2 / 2)%nat with 1%nat in Hd. lia. }
    destruct (n_votes (rp_node r)) as [|a [|b l]]; simpl in H2; [lia..|].
    apply NoDup_cons in Hnd as [Hab _]. rewrite elem_of_cons in Hab. setoid_rewrite elem_of_cons.
    destruct (decide (a = i)) as [->|]; [|exists a; auto]. exists b. rewrite elem_of_cons.
    split; [auto|]. intros ->. auto. }
  destruct (Hb v Hv) as [?|(m & Hw & Hm & Hf & Hto & Ht)]; [done|].
  destruct (ri_answered _ _ _ Hinv m) as (q & Hqw & Hqt & Hqf & HqT); [by left|done|].
  assert (T <= hs_term (saved r)) as Hle.
  { replace T with (m_term q) by (by rewrite HqT, Ht). apply (ri_on_disk _ _ _ Hinv q i r); congruence. }
  destruct (ri_logs _ _ _ Hinv _ _ Hi) as (_ & _ & Hs). destruct (Hs ltac:(congruence)) as (_ & Hsv & _).
  split; [done|]. intros E. by apply Hsv.
Qed.

Lemma elect_inv :
  act (rp_wal r) max_log inp (rp_node r) n' -> rp_phase r = Idle ->
  same_log (rp_node r) n' -> same_node (rp_node r) n' -> same_msgs (rp_node r) n' ->
  n_role n' = Leader -> n_term n' = T -> n_votes n' = n_votes (rp_node r) ->
  exists hist', extends hist hist' /\ replica_inv V hist' W'.
Proof using Hinv Hi Hin Hcand Hq HV2 HVn.
  intros Ha Hidle Hl (_ & _ & Hlr) Hm Hr' Ht' Hvs'. pose proof (ri_history _ _ _ Hinv) as Hho.
  destruct (ri_logs _ _ _ Hinv _ _ Hi) as (Hlogs & Hph & _).
  destruct (same_log_ok hist r n' Hl Hlr Hlogs Hph) as (El & Hlogs' & Hph').
  pose proof candidate_fresh as Hfresh. pose proof Hlogs as (_ & _ & _ & _ & HL).
  destruct (hist_grow_new hist Hho T (log_of r) HL Hfresh) as [Hho' Hf'].
  set (hist' := hist_grow hist T (log_of r)) in *.
  assert (extends hist hist') as Hext by (apply hist_grow_extends; rewrite Hfresh; apply prefix_nil).
  destruct (act_vote_effect _ _ _ _ _ Ha) as [ms Hve].
  assert (ms = []) as ->.
  { pose proof (ve_msgs _ _ _ _ Hve) as E. rewrite Hm in E. by apply (app_inv_head (n_msgs (rp_node r))); rewrite app_nil_r. }
  exists hist'. split; [done|]. apply (act_assemble hist hist' W i r inp n' []); try done.
  - by apply election_act.
  - by eapply logs_ok_mono.
  - intros _. rewrite Ht', El. split; [unfold hist', hist_grow; by rewrite decide_True|].
    destruct (act_member hist W i r Hinv Hi) as (_ & _ & _ & HV & _). destruct candidate_backed as [Hnd Hb].
    constructor.
    + exists (n_votes (rp_node r)). split_and!; [done|unfold quorum in Hq; by rewrite HV in Hq|done].
    + intros m Hp Hv Hf Ht. exfalso.
      apply (produced_act W i r inp n' [] Hi Hve) in Hp as [Hp|Hp]; [|by apply not_elem_of_nil in Hp].
      by eapply candidate_no_vote.
    + exists (with_rnode n' r). unfold owned. split_and!; [apply lookup_put; by left|simpl; lia|simpl; auto|exact candidate_on_disk|].
      simpl. congruence.
  - intros T' HT'. rewrite Ht'. split; [|done]. destruct (decide (T' = T)) as [|Hne]; [done|].
    destruct HT'. unfold hist', hist_grow. by rewrite decide_False.
  - intros m Hm'. by apply not_elem_of_nil in Hm'.
Qed.
End Won.

(** *** Any action, while nothing is polled *)

(** What a follower takes from a leader. *)
Lemma accept_inv v ok log :
  act (rp_wal r) max_log inp (rp_node r) n' -> rp_phase r = Idle ->
  inp = InMessage v -> n_role (rp_node r) = Follower -> m_type v = MsgApp ->
  maybeAppend (rp_wal r) (n_log (rp_node r)) (m_index v) (m_logTerm v) (m_commit v) (m_entries v)
    = Some (ok, log) ->
  n' = set_log log (rp_node r) -> replica_inv V hist W'.
Proof using Hinv Hi Hin HVn.
  intros Ha Hidle Einp Hr Hty Hs E. pose proof (ri_history _ _ _ Hinv) as Hho.
  destruct (ri_logs _ _ _ Hinv _ _ Hi) as ((Hsi & Hcs & Hl) & Hph & _).
  destruct (act_vote_effect _ _ _ _ _ Ha) as [ms Hve].
  assert (n_role n' = Follower) as Hr' by (rewrite E; done).
  apply (act_assemble_same hist W i r inp n' ms); try done; try (rewrite Hr'; done).
  - right. congruence.
  - by apply election_act.
  - rewrite E. split_and!; [done..|]. simpl. destruct (ri_messages _ _ _ Hinv v) as (Hb & _).
    { left. rewrite Einp in Hin. apply Hin. }
    eapply (maybeAppend_follows hist Hho _ _ (hist (m_term v))); [exact Hl|apply Hho|by apply Hb|exact Hs].
  - rewrite E. unfold phase_ok in *. simpl. rewrite Hidle in *. done.
  - eapply (msgs_of_act (rp_node r) n' ms []); [apply Hve|rewrite E; simpl; by rewrite app_nil_r|constructor].
Qed.

Lemma act_inv :
  (2 <= length V)%nat -> n_term (rp_node r) < 2 ^ 64 -> rp_phase r = Idle ->
  act (rp_wal r) max_log inp (rp_node r) n' ->
  n_term n' < 2 ^ 64 /\ exists hist', extends hist hist' /\ replica_inv V hist' W'.
Proof using Hinv Hi Hin HVn.
  intros HV2 H64 Hidle Ha. pose proof Ha as Ha0.
  assert (forall m, m ∈ wd_wire W -> sendable hist m) as Hwire by (intros m Hm; by eapply ri_messages; [|left]).
  assert (forall ms', same_log (rp_node r) n' -> same_node (rp_node r) n' ->
    (n_role n' = Leader -> n_role (rp_node r) = Leader /\ n_term n' = n_term (rp_node r)) ->
    n_msgs n' = n_msgs (rp_node r) ++ ms' -> Forall (sendable hist) ms' ->
    exists hist', extends hist hist' /\ replica_inv V hist' W') as Hkeep.
  { intros ms' H1 H2 H3 H4 H5. exists hist. split; [done|]. by apply (keep_act ms'). }
  assert (forall m, n' = send (rp_node r) m -> m_type m <> MsgApp -> m_type m <> MsgSnap -> m_type m <> MsgPropose ->
    n_term n' < 2 ^ 64 /\ exists hist', extends hist hist' /\ replica_inv V hist' W') as Hsend.
  { intros m E H1 H2 H3. split; [rewrite E; done|]. apply (Hkeep [m]); try (rewrite E; done).
    apply Forall_singleton. by apply sendable_other. }
  destruct Ha as [Hc|v m Ei Hty E ->|m Hr E Hf Ht ->|v ok log Ei Hr Hty Ht Hs E|v Ei Hty Hr E|Hn Hl Hm Hr Hvs Hv Ht
    |Hn Hl Hm Hr Ht Hb Hv Hvs|Hn Hl Hm Hr Hr' Ht Hv Hvs Hq
    |v resp Ei Hty Ht Hg Hp Hto Hf Htr Hn Hl Hm Hr Hr' Ht' Hvs Hv Hv'
    |v Ei Hg Ht Hn Hl Hm Hr Hr' Ht' Hv Hnew Hvs].
  - split; [|by apply calm_inv]. destruct Hc as [_ (_ & -> & _) _ _|m _ ->|m next _ _ _ _ _ _ _ ->|m _ _ ->|e _ _ _ _ _ _ ->]; done.
  - destruct Hty as [Hty|Hty]; [|apply (Hsend m); congruence].
    rewrite Ei in Hin. destruct Hin as [Hw _]. by destruct (Hwire v Hw) as (_ & _ & ?).
  - apply (Hsend m); congruence.
  - split; [by rewrite E|]. exists hist. split; [done|]. by eapply accept_inv.
  - rewrite Ei in Hin. destruct Hin as [Hw _]. by destruct (Hwire v Hw) as (_ & ? & _).
  - split; [destruct Ht as [?|[-> _]]; lia|]. apply (Hkeep []); try done; [congruence|by rewrite app_nil_r].
  - split; [lia|]. apply (Hkeep []); try done; [congruence|by rewrite app_nil_r].
  - split; [congruence|]. destruct (act_member hist W i r Hinv Hi) as (_ & _ & _ & _ & Hpc & _).
    destruct Hr as [Hr|?]; [|done]. by apply elect_inv.
  - split; [congruence|]. apply (Hkeep [resp]); try done; [congruence|].
    apply Forall_singleton. unfold granted in Hg. apply andb_true_iff in Hg as [Hg%bool_decide_eq_true _].
    apply sendable_other; congruence.
  - split; [congruence|]. apply (Hkeep []); try done; [|by rewrite app_nil_r].
    rewrite Hr'. destruct Hr; congruence.
Qed.
End OneAct.

(** ** Sequences of actions *)

Lemma put_twice W i r r' : put i r' (put i r W) = put i r' W.
Proof using Type. unfold put. simpl. by rewrite insert_insert_eq. Qed.

Lemma put_same W i r : wd_replicas W !! i = Some r -> put i r W = W.
Proof using Type. intros Hi. destruct W. unfold put. simpl in *. by rewrite insert_id. Qed.

Lemma acts_inv (P : RawNode -> Prop) (R : relation RawNode) hist W i r inp n' :
  (forall hist W n n'', P n -> R n n'' ->
     replica_inv V hist W -> wd_replicas W !! i = Some (with_rnode n r) -> input_ok W i inp ->
     P n'' /\ (exists ms, vote_effect inp n n'' ms)
     /\ exists hist', extends hist hist' /\ replica_inv V hist' (put i (with_rnode n'' r) W)) ->
  rtc R (rp_node r) n' -> P (rp_node r) ->
  replica_inv V hist W -> wd_replicas W !! i = Some r -> input_ok W i inp ->
  exists hist', extends hist hist' /\ keeps hist' W (put i (with_rnode n' r) W).
Proof using Type.
  intros Hstep Hacts HP Hinv Hi Hin.
  assert (wd_replicas W !! i = Some (with_rnode (rp_node r) r)) as Hi' by (by destruct r). clear Hi.
  revert hist W HP Hinv Hi' Hin. induction Hacts as [n|n1 n2 n3 H12 _ IH]; intros hist W HP Hinv Hi Hin.
  - exists hist. split; [done|]. by rewrite put_same.
  - destruct (Hstep hist W n1 n2 HP H12 Hinv Hi Hin) as (HP2 & [ms Hve] & h2 & He & Hinv2).
    destruct (IH h2 (put i (with_rnode n2 r) W) HP2 Hinv2) as (h3 & He3 & Hinv3 & Ho3).
    + apply lookup_put. by left.
    + by destruct inp.
    + rewrite put_twice in Hinv3, Ho3. exists h3. split; [by etransitivity|]. split; [done|].
      intros T j Ho. apply Ho3. exact (owns_act hist W i (with_rnode n1 r) inp n2 ms Hinv Hi Hve T j Ho).
Qed.

(** The operations of a node. *)

Lemma room_last hist w (n : RawNode) :
  log_follows hist w (n_log n) -> fits w n -> lastIndex w (n_log n) < max_log.
Proof using Type.
  intros (Hp & _) [_ Hf]. pose proof (plain_last _ _ Hp) as Hl. rewrite lastIndex_eq by apply Hp. lia.
Qed.

Lemma idle_acts_inv hist W i r inp n' :
  (2 <= length V)%nat -> replica_inv V hist W -> wd_replicas W !! i = Some r -> rp_phase r = Idle ->
  n_term (rp_node r) < 2 ^ 64 -> input_ok W i inp -> acts (rp_wal r) max_log inp (rp_node r) n' ->
  exists hist', extends hist hist' /\ keeps hist' W (put i (with_rnode n' r) W).
Proof using HVn.
  intros HV2 Hinv Hi Hidle H64 Hin Ha.
  apply (acts_inv (fun n => n_term n < 2 ^ 64) (act (rp_wal r) max_log inp) hist W i r inp n'); try done.
  intros h W1 n n'' Hn Ha1 Hinv1 Hi1 Hin1. destruct (act_inv h W1 i (with_rnode n r) inp n'') as [? ?]; try done.
  split_and!; [done|by eapply act_vote_effect|done].
Qed.

Lemma calm_acts_inv hist W i r inp n' :
  replica_inv V hist W -> wd_replicas W !! i = Some r ->
  n_term (rp_node r) < 2 ^ 64 -> input_ok W i inp -> calms (rp_wal r) max_log inp (rp_node r) n' ->
  exists hist', extends hist hist' /\ keeps hist' W (put i (with_rnode n' r) W).
Proof using HVn.
  intros Hinv Hi H64 Hin Ha.
  apply (acts_inv (fun n => n_term n < 2 ^ 64) (calm (rp_wal r) max_log inp) hist W i r inp n'); try done.
  intros h W1 n n'' Hn Hc Hinv1 Hi1 Hin1.
  split_and!; [|by eapply calm_vote_effect|by apply (calm_inv h W1 i (with_rnode n r) inp n'')].
  destruct Hc as [_ (_ & -> & _) _ _|m _ ->|m next _ _ _ _ _ _ _ ->|m _ _ ->|e _ _ _ _ _ _ ->]; done.
Qed.

(** ** What a replica does with its output, and crashes

    The replica takes [r'] for [r] and releases [ms] to the network. *)

Lemma release_replica hist W i r r' ms :
  replica_inv V hist W -> wd_replicas W !! i = Some r ->
  let W' := mkWorld (<[i := r']> (wd_replicas W)) (wd_wire W ++ ms) in
  election_inv V (rcluster W') ->
  ms ⊆ outgoing (rhost r) -> outgoing (rhost r') ⊆ outgoing (rhost r) ->
  logs_ok hist r' -> phase_ok r' -> self_voted i r' ->
  (n_role (rp_node r') = Leader -> n_role (rp_node r) = Leader /\ n_term (rp_node r') = n_term (rp_node r)
     /\ log_of r' = log_of r) ->
  (forall T, owned r T i -> owned r' T i) ->
  (forall m, m ∈ outgoing (rhost r') -> m_type m = MsgVote -> m_term m <= n_term (rp_node r')
     /\ forall rd, rp_phase r' = Polled rd -> m ∈ rd_messages rd -> m_term m <= hs_term (rd_hardState rd)) ->
  (forall m, m ∈ wd_wire W ++ ms -> m_type m = MsgVote -> m_from m = i -> m_term m <= hs_term (saved r')) ->
  keeps hist W W'.
Proof using HVn.
  intros Hinv Hi W' Hel Hms Hout Hlogs Hph Hself Hlead Howned Hreq Hdisk.
  assert (forall j rj, wd_replicas W' !! j = Some rj ->
    i = j /\ r' = rj \/ i <> j /\ wd_replicas W !! j = Some rj) as Hlook by (intros j rj; apply lookup_insert_Some).
  assert (forall m, produced (rcluster W') m -> produced (rcluster W) m) as Hback.
  { intros m. unfold W', rcluster. simpl. rewrite fmap_insert.
    apply (produced_other (rcluster W) i (rhost r) (rhost r')); [by apply lookup_rcluster|simpl; set_solver|done]. }
  assert (forall T j, owns V W T j -> owns V W' T j) as Hown.
  { intros T j [(vs & Hnd & Hl & Hvs) Hf (rj & Hj & Ho)]. constructor.
    - exists vs. split_and!; [done|done|]. intros v Hv. destruct (Hvs v Hv) as [?|(m & Hm & ?)]; [by left|right].
      exists m. split; [simpl; set_solver|done].
    - intros m Hp. apply Hf, Hback, Hp.
    - destruct (decide (i = j)) as [<-|Hne].
      + exists r'. rewrite Hi in Hj. injection Hj as <-. split; [apply lookup_insert_eq|by apply Howned].
      + exists rj. split; [simpl; by rewrite lookup_insert_ne|done]. }
  split; [|done]. constructor; [done|apply Hinv| | | | | | |].
  - intros j rj [[<- <-]|[_ Hj]]%Hlook; [done|by apply Hinv].
  - intros j rj [[<- <-]|[_ Hj]]%Hlook Hr.
    + destruct (Hlead Hr) as (Hr0 & -> & ->). destruct (ri_leader _ _ _ Hinv _ _ Hi Hr0). auto.
    + destruct (ri_leader _ _ _ Hinv _ _ Hj Hr). auto.
  - intros T HT. destruct (ri_owner _ _ _ Hinv T HT) as [k Hk]. eauto.
  - intros m Hp. apply (ri_messages _ _ _ Hinv), Hback, Hp.
  - intros j rj m [[<- <-]|[_ Hj]]%Hlook Hm Hty; [|by eapply ri_requested].
    destruct (ri_requested _ _ _ Hinv i r m Hi (Hout m Hm) Hty) as (? & ? & _).
    destruct (Hreq m Hm Hty). split_and!; (done || lia).
  - intros m j rj Hm Hty Hf [[<- <-]|[Hne Hj]]%Hlook; [by apply Hdisk|].
    simpl in Hm. apply elem_of_app in Hm as [Hm|Hm]; [exact (ri_on_disk _ _ _ Hinv m j rj Hm Hty Hf Hj)|].
    destruct Hne. rewrite <- Hf. symmetry. by apply (ri_requested _ _ _ Hinv i r m Hi (Hms m Hm)).
  - intros m Hp Hv. destruct (ri_answered _ _ _ Hinv m (Hback m Hp) Hv) as (q & Hq & ?).
    exists q. split; [simpl; set_solver|done].
Qed.

Lemma put_release W i r : put i r W = mkWorld (<[i := r]> (wd_replicas W)) (wd_wire W ++ []).
Proof using Type. unfold put. by rewrite app_nil_r. Qed.

Lemma polled_outgoing r rd : rp_phase r = Polled rd -> outgoing (rhost r) = rd_messages rd ++ n_msgs (rp_node r).
Proof using Type. intros Hp. unfold outgoing. simpl. unfold polled. by rewrite Hp. Qed.

Lemma unpolled_outgoing r : polled r = None -> outgoing (rhost r) = n_msgs (rp_node r).
Proof using Type. intros Hp. unfold outgoing. simpl. by rewrite Hp. Qed.

(** *** Polling *)

Lemma replica_poll_inv hist W i r rd n' :
  replica_inv V hist W -> wd_replicas W !! i = Some r -> rp_phase r = Idle ->
  poll (rp_wal r) (rp_node r) = (rd, n') ->
  keeps hist W (put i (mkReplica n' (rp_wal r) (Polled rd)) W).
Proof using HVn.
  intros Hinv Hi Hidle Hs. pose proof (ri_election _ _ _ Hinv) as Hel.
  assert (polled r = None) as Hnone by (unfold polled; by rewrite Hidle).
  assert (election_inv V (rcluster (put i (mkReplica n' (rp_wal r) (Polled rd)) W))) as Hel'.
  { rewrite rcluster_put. eapply (poll_inv V (rcluster W) i (rhost r)); [done|by apply lookup_rcluster|done|exact Hs]. }
  destruct (ri_logs _ _ _ Hinv _ _ Hi) as (Hlogs & Hph & Hself). unfold phase_ok in Hph. rewrite Hidle in Hph.
  unfold poll in Hs. injection Hs as <- <-. rewrite put_release in *.
  set (n' := set_output _ _ _ _ _ _) in *. set (rd := mkReady _ _ _ _ _ _ _) in *. set (r' := mkReplica n' _ _) in *.
  assert (outgoing (rhost r') = outgoing (rhost r)) as Eo.
  { rewrite (polled_outgoing r' rd), unpolled_outgoing by done. simpl. by rewrite app_nil_r. }
  apply (release_replica hist W i r r' []); try done.
  - apply list_subseteq_nil.
  - by rewrite Eo.
  - unfold phase_ok. simpl. split_and!; [done|done|]. unfold unstableEntries.
    destruct (last _); [done|]. by rewrite Hph.
  - intros Hr. destruct (Hself Hr) as (Hv & Hsv & _). split_and!; [done|done|]. intros rd0 [= <-] _. exact Hv.
  - intros T (Ht & Hrole & Hs & _). split_and!; [done..|]. intros rd0 [= <-]. split; [done|].
    intros E. destruct (Hrole E) as [Hl|[_ Hv]]; [|done]. by destruct (Hself ltac:(congruence)) as [? _].
  - rewrite Eo. intros m Hm Hty. destruct (ri_requested _ _ _ Hinv i r m Hi Hm Hty) as (_ & [? ?] & _).
    split; [done|]. intros rd0 [= <-] _. done.
  - rewrite app_nil_r. intros m Hm Hty Hf. by apply (ri_on_disk _ _ _ Hinv m i r).
Qed.

(** *** Writing *)

Context (HVu : Forall is_u64 V).

(** The hard state on disk once the Ready is persisted. *)
Lemma persisted_facts hist W i r rd :
  replica_inv V hist W -> wd_replicas W !! i = Some r -> rp_phase r = Polled rd ->
  term_below (hs_term (rd_hardState rd)) ->
  let hs' := file_hs (hs_after rd (w_hsFile (rp_wal r))) in
  (forall T, owned r T i -> bound hs' T i)
  /\ (forall m, m ∈ wd_wire W ++ rd_messages rd -> m_type m = MsgVote -> m_from m = i -> m_term m <= hs_term hs')
  /\ (n_role (rp_node r) <> Follower -> hs_term hs' = n_term (rp_node r) -> hs_vote hs' = i).
Proof using HVu HVn.
  intros Hinv Hi Hp Hb hs'. destruct (act_member hist W i r Hinv Hi) as (HiV & _).
  assert (persists V (rd_hardState rd) (saved r) hs') as Hper by (by apply persists_file).
  destruct (ri_logs _ _ _ Hinv _ _ Hi) as (_ & _ & Hself).
  destruct (ei_ready _ _ (ri_election _ _ _ Hinv) i (rhost r) (rd_hardState rd) (rd_messages rd)) as [[Hle _] _];
    [by apply lookup_rcluster|simpl; unfold polled; by rewrite Hp|]. simpl in Hle.
  split_and!.
  - intros T (_ & _ & Hs & Hrd). destruct (Hrd rd Hp) as [Ht Hv]. destruct Hper as [[_ ->]|[Et Ev]]; [done|].
    split; [lia|]. rewrite Et. intros E. rewrite <- (Hv E). apply Ev. by rewrite (Hv E).
  - intros m Hm Hty Hf.
    assert (m_term m <= hs_term (rd_hardState rd) /\ (m_term m <= hs_term (saved r) \/ 0 < m_term m)) as [Hmr Hpos].
    { apply elem_of_app in Hm as [Hm|Hm].
      - pose proof (ri_on_disk _ _ _ Hinv m i r Hm Hty Hf Hi). split; [lia|by left].
      - destruct (ri_requested _ _ _ Hinv i r m Hi) as (_ & [? _] & Hrd);
          [rewrite (polled_outgoing r rd) by done; set_solver|done|]. split; [by apply Hrd|by right]. }
    destruct Hper as [[E0 E1]|[Et _]]; [|lia]. rewrite E1. destruct Hpos; [done|lia].
  - intros Hr E. destruct (Hself Hr) as (_ & Hsv & Hrd). destruct Hper as [[_ E1]|[Et Ev]].
    + rewrite E1 in *. by apply Hsv.
    + rewrite <- (Hrd rd Hp) by congruence. apply Ev. rewrite (Hrd rd Hp) by congruence. done.
Qed.

(** The log on disk once the entries are persisted. *)
Lemma persist_log_spec hist rd (w : WriteAheadLog) (l : RaftLog) :
  history_ok hist -> log_follows hist w l -> w_snapIndex w = 0 -> rd_entries rd `prefix_of` u_entries (rl_unstable l) ->
  let w' := persist_log rd w in
  log_follows hist w' l /\ w_snapIndex w' = 0 /\ log_list w' l = log_list w l
  /\ match last (rd_entries rd) with
     | None => True
     | Some e => u_entries (rl_unstable l) <> []
         /\ u_offset (rl_unstable l) <= e_index e <= Z.of_nat (length (log_list w l))
         /\ w_log w' = take (Z.to_nat (e_index e)) (log_list w l)
     end.
Proof using Type.
  intros Hho (Hp & HS & HL) Hsi Hpre. unfold persist_log.
  destruct (rd_entries rd) as [|e es] eqn:Erd; [by split_and!|].
  destruct Hpre as [rest Eu]. pose proof Hp as ((Hst & Hu & Hov) & Hsn & Hf).
  assert (u_entries (rl_unstable l) <> []) as Hne by (by rewrite Eu). specialize (Hov Hsn Hne).
  set (off := u_offset (rl_unstable l)) in *.
  pose proof (plain_list w l Hp) as EL. rewrite Eu in EL. cbn [app] in EL. fold off in EL.
  assert (st_lastIndex w = w_size w - 1) as Hlast by (by apply w_lastIndex).
  pose proof (length_w_log w Hst) as HlS. rewrite Hsi in HlS.
  assert (length (take (Z.to_nat (off - 1)) (w_log w)) = Z.to_nat (off - 1)) as Hlt
    by (rewrite length_take; lia).
  assert (contiguous off (e :: es)) as Hc.
  { destruct Hu as (Hc & _). rewrite Eu in Hc. by apply contiguous_app in Hc as [? _]. }
  assert (e_index e = off) as Hie by (by apply contiguous_cons in Hc as [? _]).
  assert (log_list w l = take (Z.to_nat (off - 1)) (w_log w) ++ (e :: es) ++ rest) as EL' by (by rewrite EL).
  pose proof (follows_bound hist Hho _ HL) as Hb. unfold max_log in Hb.
  assert (Z.of_nat (length (log_list w l)) = off - 1 + Z.of_nat (length (e :: es)) + Z.of_nat (length rest)) as Hlen.
  { rewrite EL', !length_app, Hlt. lia. }
  destruct (WriteAheadLog.append_spec w e es Hst) as (Hst' & Hsi' & HL').
  { by rewrite Hie. }
  { pose proof (follows_typed hist Hho _ HL) as Hty. rewrite EL' in Hty.
    apply Forall_app in Hty as [_ Hty]. by apply Forall_app in Hty as [? _]. }
  { lia. }
  { lia. }
  change (WriteAheadLog.append w (e :: es)) with (appendNoSync w (e :: es)) in *. set (w' := appendNoSync w (e :: es)) in *.
  rewrite Hsi, Hie in HL'. change (0 + 1) with 1 in HL'.
  assert (w_log w' = take (Z.to_nat (off - 1) + length (e :: es)) (log_list w l)) as ES'.
  { rewrite HL', EL', app_assoc. symmetry. apply take_app_length'. rewrite length_app. lia. }
  assert (log_plain w' l) as Hp'.
  { split_and!; [split_and!; [done|done|]|done|simpl; rewrite w_firstIndex by done; lia].
    intros _ _. fold off. simpl. rewrite w_firstIndex, w_lastIndex, Hsi', Hsi by done.
    pose proof (length_w_log w' Hst') as Hl'. rewrite ES', length_take in Hl'. lia. }
  assert (log_list w' l = log_list w l) as ELL.
  { rewrite (plain_list w' l Hp'), Eu, EL'. cbn [app]. fold off. simpl. rewrite HL'.
    rewrite take_app_le by lia. rewrite take_take, Nat.min_id. done. }
  split_and!; [split_and!; [done|simpl; rewrite ES'; by apply follows_take|by rewrite ELL]|congruence|done|].
  destruct (last (e :: es)) as [x|] eqn:Ex; [|done]. fold off.
  assert (e_index x = off + Z.of_nat (length (e :: es)) - 1) as Hix.
  { rewrite last_lookup in Ex. rewrite (Hc _ _ Ex). simpl. lia. }
  cbn [length] in *. split_and!; [done|lia|lia|]. rewrite ES'. f_equal. lia.
Qed.

(** Saving the hard state leaves the log alone. *)
Lemma persist_same rd w :
  w_log (persist rd w) = w_log (persist_log rd w) /\ w_logFile (persist rd w) = w_logFile (persist_log rd w)
  /\ w_snapIndex (persist rd w) = w_snapIndex (persist_log rd w)
  /\ (forall l, log_list (persist rd w) l = log_list (persist_log rd w) l)
  /\ forall hist l, log_follows hist (persist_log rd w) l -> log_follows hist (persist rd w) l.
Proof using Type. unfold persist. by destruct (saves _). Qed.

Section Write.
Context (hist : history) W (i : Z) r (rd : Ready).
Context (Hinv : replica_inv V hist W) (Hi : wd_replicas W !! i = Some r) (Hp : rp_phase r = Polled rd).
Context (Hb : term_below (hs_term (rd_hardState rd))).
Let r' := mkReplica (rp_node r) (persist rd (rp_wal r)) Written.

Lemma written_logs : logs_ok hist r' /\ phase_ok r' /\ log_of r' = log_of r.
Proof using Hinv Hi Hp.
  destruct (ri_logs _ _ _ Hinv _ _ Hi) as ((Hsi & Hcs & Hl) & Hph & _).
  unfold phase_ok in Hph. rewrite Hp in Hph. destruct Hph as (_ & Hpre & Hlr).
  destruct (persist_log_spec hist rd _ _ (ri_history _ _ _ Hinv) Hl Hsi Hpre) as (Hl' & Hsi' & EL & Hlast).
  destruct (persist_same rd (rp_wal r)) as (ES & _ & Esi & ELL & Hfol).
  assert (log_of r' = log_of r) as Elog by (unfold log_of; simpl; by rewrite ELL, EL).
  split_and!; [| |done].
  - split_and!; simpl; [congruence|by rewrite (proj2 (persist_files rd (rp_wal r)))|by apply Hfol].
  - unfold phase_ok. rewrite Elog. unfold r'. cbn [rp_phase rp_node rp_wal]. rewrite ES, Hlr.
    destruct (last (rd_entries rd)) as [e|]; [|by left]. by right.
Qed.

Lemma replica_write_inv :
  keeps hist W (mkWorld (<[i := r']> (wd_replicas W)) (wd_wire W ++ rd_messages rd)).
Proof using Hinv Hi Hp Hb HVu HVn.
  destruct written_logs as (Hlogs & Hph & El).
  destruct (persisted_facts hist W i r rd Hinv Hi Hp Hb) as (Hown & Hdisk & Hvote).
  assert (saved r' = file_hs (hs_after rd (w_hsFile (rp_wal r)))) as Es
    by (unfold saved, r'; cbn [rp_wal]; by rewrite (proj1 (persist_files rd (rp_wal r)))).
  pose proof (polled_outgoing r rd Hp) as Eo.
  assert (outgoing (rhost r') = n_msgs (rp_node r)) as Eo' by (exact (unpolled_outgoing r' eq_refl)).
  assert (polled r = Some (rd_hardState rd, rd_messages rd)) as Epd by (unfold polled; by rewrite Hp).
  apply (release_replica hist W i r r' (rd_messages rd)); try done.
  - unfold rcluster. simpl. rewrite fmap_insert.
    assert (rhost r' = mkHost (ho_node (rhost r)) (file_hs (hs_after rd (w_hsFile (rp_wal r)))) None) as ->
      by (unfold rhost; by rewrite Es).
    apply (send_inv V (rcluster W) i (rhost r) (rd_hardState rd)); [apply Hinv|by apply lookup_rcluster|done|].
    by apply persists_file.
  - rewrite Eo. set_solver.
  - rewrite Eo, Eo'. set_solver.
  - intros Hr. destruct (ri_logs _ _ _ Hinv _ _ Hi) as (_ & _ & Hself). destruct (Hself Hr) as (Hv & _).
    rewrite Es. split_and!; [done|by apply Hvote|done].
  - intros T Ho. pose proof Ho as (Ht & Hrole & _). unfold owned. split_and!; [done|done|rewrite Es; by apply Hown|done].
  - rewrite Eo'. intros m Hm Hty. destruct (ri_requested _ _ _ Hinv i r m Hi) as (_ & [_ ?] & _); [rewrite Eo; set_solver|done|].
    split; [done|]. by intros rd0 Hrd0.
  - rewrite Es. exact Hdisk.
Qed.
End Write.

(** *** Advancing *)

Lemma advance_effect hist r n' :
  history_ok hist -> logs_ok hist r -> phase_ok r -> rp_phase r = Written ->
  advance (rp_wal r) (rp_node r) = Some n' ->
  same_election (rp_node r) n' /\ n_msgs n' = n_msgs (rp_node r) /\ n_lastReadyLastIndex n' = 0
  /\ log_follows hist (rp_wal r) (n_log n') /\ log_list (rp_wal r) (n_log n') = log_of r.
Proof using Type.
  intros Hho (Hsi & Hcs & Hl) Hph Hp Hs. unfold phase_ok in Hph. rewrite Hp in Hph. unfold advance in Hs.
  match type of Hs with mbind (M := option) _ ?x = _ => destruct x as [n1|] eqn:E1 end;
    cbn [mbind option_bind] in Hs; [|done].
  assert (same_election (rp_node r) n1 /\ n_msgs n1 = n_msgs (rp_node r) /\ n_lastReadyLastIndex n1 = 0
    /\ log_follows hist (rp_wal r) (n_log n1) /\ log_list (rp_wal r) (n_log n1) = log_of r)
    as (He & Hm & Hlr & Hf & EL).
  { pose proof Hl as (Hpl & HS & HL). pose proof Hpl as (Hok & Hsn & Hfi). pose proof Hok as (Hst & _ & Hov).
    destruct (Z.ltb_spec 0 (n_lastReadyLastIndex (rp_node r))) as [Hpos|Hneg].
    - destruct Hph as [?|(Hne & Hb & Hw)]; [lia|]. unfold log_of in Hb.
      destruct (term _ _ _) as [t|]; cbn [mbind option_bind] in E1; [|done]. injection E1 as <-.
      pose proof (plain_last _ _ Hpl) as Hlast. pose proof (follows_bound hist Hho _ HL) as Hbd.
      unfold max_log in Hbd.
      destruct (stableTo_spec (rp_wal r) (rp_wal r) (n_log (rp_node r)) (n_lastReadyLastIndex (rp_node r)) t)
        as (Hok' & _ & EL' & _); [done|done|done|lia|lia|done|done| |].
      { simpl. rewrite Hw. f_equal. change (WriteAheadLog.firstIndex (rp_wal r)) with (st_firstIndex (rp_wal r)).
        rewrite Hfi. lia. }
      assert (log_follows hist (rp_wal r) (stableTo (n_log (rp_node r)) (n_lastReadyLastIndex (rp_node r)) t)) as Hfs.
      { split_and!; [split_and!; [done| |done]|done|by rewrite EL']. unfold stableTo, u_stableTo. cbn [rl_unstable set_unstable].
        rewrite Hsn. by repeat case_match. }
      split_and!; [by split_and!|done|done|exact Hfs|exact EL'].
    - injection E1 as <-. assert (n_lastReadyLastIndex (rp_node r) = 0) as E0; [|by split_and!].
      destruct Hph as [?|(Hne & [? _] & _)]; [done|]. specialize (Hov Hsn Hne). lia. }
  destruct (_ <? _) in Hs; injection Hs as <-; [|done]. split_and!; [done|done|done|..].
  - eapply log_follows_same; [|exact Hf]. simpl. unfold appliedTo. by destruct (_ || _).
  - rewrite <- EL. apply log_list_same. simpl. unfold appliedTo. by destruct (_ || _).
Qed.

Lemma replica_advance_inv hist W i r n' :
  replica_inv V hist W -> wd_replicas W !! i = Some r -> rp_phase r = Written ->
  advance (rp_wal r) (rp_node r) = Some n' ->
  keeps hist W (put i (mkReplica n' (rp_wal r) Idle) W).
Proof using H0 HVn.
  intros Hinv Hi Hp Hs. destruct (ri_logs _ _ _ Hinv _ _ Hi) as (Hlogs & Hph & Hself).
  destruct (advance_effect hist r n' (ri_history _ _ _ Hinv) Hlogs Hph Hp Hs)
    as ((Hr & Ht & Hv & _) & Hm & Hlr & Hl & EL).
  assert (polled r = None) as Hnone by (unfold polled; by rewrite Hp).
  set (r' := mkReplica n' (rp_wal r) Idle).
  assert (outgoing (rhost r') = outgoing (rhost r)) as Eo
    by (rewrite (unpolled_outgoing r Hnone), (unpolled_outgoing r' eq_refl); exact Hm).
  assert (election_inv V (rcluster (put i r' W))) as Hel'.
  { rewrite rcluster_put.
    assert (rhost r' = with_node n' (rhost r)) as -> by (unfold rhost, with_node; simpl; by rewrite Hnone).
    eapply cluster_step_inv; [apply Hinv|]. eapply (c_advance (rcluster W) i (rhost r)); [by apply lookup_rcluster|exact Hs]. }
  rewrite put_release in *. apply (release_replica hist W i r r' []); try done.
  - apply list_subseteq_nil.
  - by rewrite Eo.
  - destruct Hlogs as (? & ? & _). by split_and!.
  - intros Hr'. simpl in Hr'. rewrite Hr in Hr'. destruct (Hself Hr') as (Hv' & Hsv & _). simpl.
    split_and!; [congruence|rewrite Ht; exact Hsv|done].
  - simpl. intros Hr'. rewrite Hr in Hr'. done.
  - intros T (HT & Hrole & Hsv & _). unfold owned. simpl. rewrite Ht, Hr, Hv. by split_and!.
  - rewrite Eo. intros m Hmo Hty. destruct (ri_requested _ _ _ Hinv i r m Hi Hmo Hty) as (_ & [_ ?] & _).
    simpl. split; [lia|done].
  - rewrite app_nil_r. intros m Hmo Hty Hf. by apply (ri_on_disk _ _ _ Hinv m i r).
Qed.

(** *** Crashing *)

(** A write-ahead log opened on whole records. *)
Lemma reopened hist es hsFile :
  history_ok hist -> follows hist es ->
  let w := new_WriteAheadLog (enc_log es) hsFile None in
  wal_ok w /\ w_snapIndex w = 0 /\ w_log w = es.
Proof using Type.
  intros Hho Hf. pose proof (follows_typed hist Hho es Hf) as Ht. pose proof (follows_contiguous hist Hho es Hf) as Hc.
  pose proof (follows_bound hist Hho es Hf) as Hb. unfold max_log in Hb.
  pose proof (replay_whole es Ht Hc) as E. unfold wal_ok, w_log, w_size, new_WriteAheadLog.
  cbn [w_entries w_snapIndex w_logFile]. rewrite E. change (Z.to_nat (0 + 1)) with 1%nat. cbn [drop length].
  rewrite drop_0. split_and!; [lia|lia|lia|done|done|done|done|done].
Qed.

Lemma revived_logs hist i es hsFile r' :
  history_ok hist -> follows hist es -> i ∈ V -> revived V i (enc_log es) hsFile None r' ->
  logs_ok hist r' /\ phase_ok r' /\ saved r' = file_hs hsFile /\ rp_phase r' = Idle
  /\ restarted V i (file_hs hsFile) (rp_node r').
Proof using Type.
  clear HVn HVu. intros Hho Hf HiV (c & Hid & HV & _ & ->). destruct (reopened hist es hsFile Hho Hf) as (Hok & Hsi & EL).
  set (w := new_WriteAheadLog (enc_log es) hsFile None) in *.
  assert (rl_unstable (n_log (new_RawNode c w)) = new_LogUnstable) as Eu.
  { cbn [new_RawNode n_log]. unfold new_RaftLog. cbv zeta. by case_match. }
  assert (log_plain w (n_log (new_RawNode c w))) as Hp.
  { unfold log_plain, raftlog_ok. rewrite Eu. split_and!; [done| |done|done|].
    - split_and!; [apply contiguous_nil|done|done|done].
    - change (WriteAheadLog.firstIndex w = 1). rewrite w_firstIndex by done. lia. }
  split_and!; [| |done|done|].
  - split_and!; [done|done|]. split_and!; [done|simpl; by rewrite EL|]. rewrite plain_list by done.
    cbn [rp_node]. rewrite Eu. simpl. by rewrite EL.
  - unfold phase_ok. simpl. done.
  - rewrite <- Hid. apply new_RawNode_restarted; [done|]. intros ->. by apply not_elem_of_nil in HiV.
Qed.

(** A replica that starts again on the entries [es] and the hard state
    [hsFile], after [ms] was sent. *)
Lemma replica_restart_inv hist W i r r' es hsFile ms :
  replica_inv V hist W -> wd_replicas W !! i = Some r ->
  follows hist es -> revived V i (enc_log es) hsFile None r' -> ms ⊆ outgoing (rhost r) ->
  (restarted V i (file_hs hsFile) (rp_node r') ->
    election_inv V (mkCluster (<[i := mkHost (rp_node r') (file_hs hsFile) None]> (cl_hosts (rcluster W))) (wd_wire W ++ ms))) ->
  (forall T, owned r T i -> bound (file_hs hsFile) T i) ->
  (forall m, m ∈ wd_wire W ++ ms -> m_type m = MsgVote -> m_from m = i -> m_term m <= hs_term (file_hs hsFile)) ->
  keeps hist W (mkWorld (<[i := r']> (wd_replicas W)) (wd_wire W ++ ms)).
Proof using HVn.
  intros Hinv Hi Hf Hrev Hms Hel Hown Hdisk. destruct (act_member hist W i r Hinv Hi) as (HiV & _).
  destruct (revived_logs hist i es hsFile r' (ri_history _ _ _ Hinv) Hf HiV Hrev) as (Hlogs & Hph & Es & Hidle & Hre).
  assert (polled r' = None) as Hnone by (unfold polled; by rewrite Hidle).
  pose proof Hre as (Hid & HV & Hrole & Ht & Hv & Hm).
  assert (outgoing (rhost r') = []) as Eo by (by rewrite (unpolled_outgoing r' Hnone)).
  apply (release_replica hist W i r r' ms); try done.
  - unfold rcluster. simpl. rewrite fmap_insert. unfold rhost at 1. rewrite Es, Hnone. by apply Hel.
  - rewrite Eo. apply list_subseteq_nil.
  - intros Hr. congruence.
  - intros T Ho. destruct (Hown T Ho) as [HT HvT]. unfold owned. rewrite Es, Ht, Hv, Hidle. split_and!; [done|auto|done|done].
  - rewrite Eo. intros m Hm'. by apply not_elem_of_nil in Hm'.
  - by rewrite Es.
Qed.

(** Killed, with its hard state as it was. *)
Lemma replica_crash_inv hist W i r r' es :
  replica_inv V hist W -> wd_replicas W !! i = Some r -> follows hist es ->
  revived V i (enc_log es) (w_hsFile (rp_wal r)) None r' -> keeps hist W (put i r' W).
Proof using HVn.
  intros Hinv Hi Hf Hrev. destruct (act_member hist W i r Hinv Hi) as (_ & _ & _ & HV & _). rewrite put_release.
  eapply (replica_restart_inv hist W i r r' es); [done|done|done|exact Hrev|apply list_subseteq_nil| | |].
  - intros Hre. rewrite app_nil_r. eapply (cluster_step_inv V (rcluster W)); [apply Hinv|].
    eapply (c_crash (rcluster W) i (rhost r)); [by apply lookup_rcluster|]. simpl. by rewrite HV.
  - by intros T (_ & _ & ? & _).
  - rewrite app_nil_r. intros m Hm Hty Hm'. by apply (ri_on_disk _ _ _ Hinv m i r).
Qed.

(** Killed while it sends. *)
Lemma replica_crash_sending_inv hist W i r rd sent r' :
  replica_inv V hist W -> wd_replicas W !! i = Some r -> rp_phase r = Polled rd ->
  term_below (hs_term (rd_hardState rd)) ->
  revived V i (w_logFile (persist rd (rp_wal r))) (w_hsFile (persist rd (rp_wal r)))
    (w_csFile (persist rd (rp_wal r))) r' ->
  sent ⊆ rd_messages rd -> keeps hist W (mkWorld (<[i := r']> (wd_replicas W)) (wd_wire W ++ sent)).
Proof using HVn HVu.
  intros Hinv Hi Hp Hb Hrev Hk. destruct (act_member hist W i r Hinv Hi) as (_ & _ & _ & HV & _).
  destruct (written_logs hist W i r rd Hinv Hi Hp) as ((_ & Hcs & ((Hok & _) & _) & HS & _) & _).
  destruct (persisted_facts hist W i r rd Hinv Hi Hp Hb) as (Hown & Hdisk & _). simpl in Hok, HS, Hcs.
  destruct (persist_files rd (rp_wal r)) as [Ehs _]. pose proof (proj2 (proj2 (proj2 (proj2 Hok)))) as Ef.
  rewrite Ehs, Hcs, Ef in Hrev. pose proof (polled_outgoing r rd Hp) as Eo.
  eapply (replica_restart_inv hist W i r r' (w_log (persist rd (rp_wal r)))); [done|done|done|exact Hrev| | |done|].
  - rewrite Eo. set_solver.
  - intros Hre. eapply (cluster_step_inv V (rcluster W)); [apply Hinv|].
    eapply (c_crash_sending (rcluster W) i (rhost r) (rd_hardState rd) (rd_messages rd)); [by apply lookup_rcluster| | | |done].
    + simpl. unfold polled. by rewrite Hp.
    + simpl. rewrite HV. by apply persists_file.
    + simpl. by rewrite HV.
  - intros m Hm. apply Hdisk. set_solver.
Qed.

(** ** Every step *)

Lemma replica_step_inv hist W W' :
  (2 <= length V)%nat -> replica_inv V hist W -> replica_step V W W' ->
  exists hist', extends hist hist' /\ keeps hist' W W'.
Proof using HVn HVu.
  intros HV2 Hinv Hstep. pose proof (ri_history _ _ _ Hinv) as Hho. pose proof (ri_election _ _ _ Hinv) as Hel.
  assert (forall i r, wd_replicas W !! i = Some r -> log_follows hist (rp_wal r) (n_log (rp_node r))
    /\ w_csFile (rp_wal r) = None /\ w_snapIndex (rp_wal r) = 0 /\ w_logFile (rp_wal r) = enc_log (w_log (rp_wal r))) as Hlog.
  { intros i r Hi. destruct (ri_logs _ _ _ Hinv _ _ Hi) as ((? & ? & Hl) & _). split_and!; [done|done|done|].
    destruct Hl as (((Hok & _) & _) & _). apply Hok. }
  assert (forall i r, wd_replicas W !! i = Some r -> n_voters (rp_node r) = V /\ i ∈ V /\ 0 <= n_term (rp_node r)) as Hmem.
  { intros i r Hi. destruct (act_member hist W i r Hinv Hi) as (? & _ & _ & ? & _ & ? & _). done. }
  destruct Hstep as [i r b n' Hi Hp Hfit Hs|i r m n' Hi Hp Hfit Hw Hto Hmt Hs|i r data b n' Hi Hfit Hd Hs|i r ctx b n' Hi Hfit Hs
    |i r rd n' Hi Hp Hs|i r rd Hi Hp Hb|i r n' Hi Hp Hs|i r r' Hi Hrev|i r rd k r' Hi Hp Hrev|i r rd k r' Hi Hp Hb Hrev];
    destruct (Hlog i r Hi) as (Hl & Hcs & Hsi & Hfile); destruct (Hmem i r Hi) as (HV & HiV & H0').
  - apply (idle_acts_inv hist W i r InTick); try done; [destruct Hfit as [[? ?] _]; lia|].
    eapply tick_acts; [destruct Hfit as [[? ?] _]; lia|by eapply room_last|exact Hs].
  - apply (idle_acts_inv hist W i r (InMessage m)); try done; [destruct Hfit as [[? ?] _]; lia|].
    apply step_acts; try done; [destruct Hfit as [[? ?] _]; lia|destruct Hmt; lia| |by eapply room_last].
    eapply ei_prevote; [exact Hel|by left].
  - apply (calm_acts_inv hist W i r (InPropose data)); try done; [destruct Hfit as [[? ?] _]; lia|].
    eapply propose_calms; [by eapply room_last|by right|exact Hs].
  - apply (calm_acts_inv hist W i r InRead); try done; [destruct Hfit as [[? ?] _]; lia|].
    eapply readIndex_calms; exact Hs.
  - exists hist. split; [done|]. by eapply replica_poll_inv.
  - exists hist. split; [done|]. by apply replica_write_inv.
  - exists hist. split; [done|]. by eapply replica_advance_inv.
  - exists hist. split; [done|]. rewrite Hcs, Hfile in Hrev. by apply (replica_crash_inv hist W i r r' (w_log (rp_wal r))); [|done|apply Hl|].
  - exists hist. split; [done|]. destruct (ri_logs _ _ _ Hinv _ _ Hi) as (_ & Hph & _).
    unfold phase_ok in Hph. rewrite Hp in Hph. destruct Hph as (_ & Hpre & _).
    destruct (persist_log_spec hist rd _ _ Hho Hl Hsi Hpre) as ((_ & HS & _) & _).
    rewrite Hcs, writeEntries_eq, app_nil_l in Hrev. eapply replica_crash_inv; [done|done|by apply follows_take|exact Hrev].
  - exists hist. split; [done|]. by eapply replica_crash_sending_inv.
Qed.
End Invariant.
