(* ===== verification/ReplicaTheorems.v ===== *)
(** * What holds of the replicas' logs

    Along every run of replicas that start on empty logs, crashes included:
    a term has one leader for good, a leader's log only grows, and logs that
    share an entry of some index and term agree on everything up to it.  The
    proofs read these off the histories of [LogMatching].  What does not hold
    is that committed entries stay: the last part has a run in which one is
    replaced. *)

From S2P Require Import Prelude RaftTypes LogUnstable WriteAheadLog RaftLog Progress ReadOnly RawNode.
From S2P Require Import RaftActions RaftElection RaftCluster LogHistory RaftReplica LogMatching OrderProtocol.

Section Runs.
Context `{!Platform} `{!Random} (V : list Z).
Context (HVn : NoDup V) (HVu : Forall is_u64 V) (HV2 : (2 <= length V)%nat).
Implicit Types (r : Replica) (W : World) (hist : history).

(** A log of the world, in memory or on disk. *)
Definition holds W (L : list Entry) : Prop :=
  exists i r, wd_replicas W !! i = Some r /\ (L = log_of r \/ L = w_log (rp_wal r)).

Definition leads_with W (i T : Z) (L : list Entry) : Prop :=
  exists r, wd_replicas W !! i = Some r /\ n_role (rp_node r) = Leader /\ n_term (rp_node r) = T /\ L = log_of r.

(** ** The start *)

Lemma no_history_ok : history_ok (fun _ => []).
Proof using Type.
  constructor; intros T; [apply contiguous_nil|constructor|apply follows_nil|]. by vm_compute.
Qed.

Lemma replica_initial_inv W : replica_initial V W -> replica_inv V (fun _ => []) W.
Proof using Type.
  clear HVn HVu HV2. intros [Hw Hr].
  assert (forall i r, wd_replicas W !! i = Some r ->
    i ∈ V /\ i <> 0 /\ logs_ok (fun _ => []) r /\ phase_ok r /\ rp_phase r = Idle
    /\ restarted V i (saved r) (rp_node r) /\ 0 <= hs_term (saved r)) as Hfacts.
  { intros i r Hi. destruct (Hr i r Hi) as (HiV & Hi0 & f & Hpos & Hrev). change [] with (enc_log []) in Hrev.
    destruct (revived_logs V (fun _ => []) i [] f r no_history_ok) as (? & ? & Es & ? & ?); [apply follows_nil|done|done|].
    by rewrite Es. }
  assert (forall m, ~ produced (rcluster W) m) as Hnone.
  { intros m [Hm|(i & ho & Hi & Hm)]; [simpl in Hm; rewrite Hw in Hm; by apply not_elem_of_nil in Hm|].
    apply lookup_rcluster_inv in Hi as (r & Hi & ->). destruct (Hfacts i r Hi) as (_ & _ & _ & _ & Hidle & Hre & _).
    destruct Hre as (_ & _ & _ & _ & _ & Em). unfold outgoing in Hm. simpl in Hm. unfold polled in Hm.
    rewrite Hidle, Em in Hm. by apply not_elem_of_nil in Hm. }
  constructor; [|apply no_history_ok| | |done| | | |].
  - apply initial_inv. split; [done|]. intros i ho (r & Hi & ->)%lookup_rcluster_inv.
    destruct (Hfacts i r Hi) as (? & ? & _ & _ & Hidle & ? & ?). split_and!; [done..|].
    simpl. unfold polled. by rewrite Hidle.
  - intros i r Hi. destruct (Hfacts i r Hi) as (_ & _ & ? & ? & _ & (_ & _ & Hrole & _) & _).
    split_and!; [done|done|]. intros Hf. congruence.
  - intros i r Hi Hl. destruct (Hfacts i r Hi) as (_ & _ & _ & _ & _ & (_ & _ & Hrole & _) & _). congruence.
  - intros m Hm. by destruct (Hnone m).
  - intros i r m Hi Hm. destruct (Hnone m). right. exists i, (rhost r). split; [by apply lookup_rcluster|done].
  - intros m i r Hm. rewrite Hw in Hm. by apply not_elem_of_nil in Hm.
  - intros m Hm. by destruct (Hnone m).
Qed.

(** ** Runs *)

Lemma replica_run_inv hist W W' :
  replica_inv V hist W -> rtc (replica_step V) W W' ->
  exists hist', extends hist hist' /\ keeps V hist' W W'.
Proof using HVn HVu HV2.
  intros Hinv Hrun. revert hist Hinv. induction Hrun as [W|W1 W2 W3 Hs _ IH]; intros hist Hinv.
  { exists hist. by split; [|split]. }
  destruct (replica_step_inv V HVn HVu hist W1 W2 HV2 Hinv Hs) as (h2 & He2 & Hinv2 & Ho2).
  destruct (IH h2 Hinv2) as (h3 & He3 & Hinv3 & Ho3).
  exists h3. split; [by etransitivity|]. split; [done|]. auto.
Qed.

Lemma replica_reachable_inv W : replica_reachable V W -> exists hist, replica_inv V hist W.
Proof using HVn HVu HV2.
  intros (W0 & Hi & Hrun). destruct (replica_run_inv _ _ _ (replica_initial_inv W0 Hi) Hrun) as (h & _ & ? & _).
  by exists h.
Qed.

Lemma holds_follows hist W L : replica_inv V hist W -> holds W L -> follows hist L.
Proof using Type.
  intros Hinv (i & r & Hi & HL). destruct (ri_logs _ _ _ Hinv _ _ Hi) as ((_ & _ & _ & HS & Hm) & _).
  by destruct HL as [->| ->].
Qed.

(** A term has one owner. *)
Lemma owns_unique hist W T i j : replica_inv V hist W -> owns V W T i -> owns V W T j -> i = j.
Proof using HVn.
  clear HVu HV2. intros Hinv Hoi Hoj. pose proof (ri_election _ _ _ Hinv) as Hel.
  assert (forall k, owns V W T k -> exists vs, NoDup vs /\ vs ⊆ V /\ (length V / 2 + 1 <= length vs)%nat /\
    forall v, v ∈ vs -> v = k \/
      exists m, m ∈ wd_wire W /\ is_vote V m /\ m_from m = v /\ m_to m = k /\ m_term m = T) as Hmaj.
  { intros k [(vs & Hnd & Hlen & Hvs) _ (rk & Hk & _)]. exists vs. split_and!; [done| |done|done].
    intros v Hv. destruct (Hvs v Hv) as [->|(m & Hm & Hmv & <- & _)].
    - by destruct (ei_nodes _ _ Hel _ _ (lookup_rcluster _ _ _ Hk)).
    - destruct (ei_promise _ _ Hel m) as (ho & Hho & _); [by left|done|]. by destruct (ei_nodes _ _ Hel _ _ Hho). }
  destruct (Hmaj i Hoi) as (vi & Hni & Hsi & Hli & Hvi), (Hmaj j Hoj) as (vj & Hnj & Hsj & Hlj & Hvj).
  destruct (majorities_meet V vi vj) as (v & H1 & H2); try done.
  destruct (Hvi v H1) as [E1|(m1 & Hw1 & Hm1 & Hf1 & Ht1 & Et1)], (Hvj v H2) as [E2|(m2 & Hw2 & Hm2 & Hf2 & Ht2 & Et2)].
  - congruence.
  - rewrite <- Ht2. symmetry. apply (ow_faithful _ _ _ _ Hoi m2); [by left|done|congruence|done].
  - rewrite <- Ht1. apply (ow_faithful _ _ _ _ Hoj m1); [by left|done|congruence|done].
  - rewrite <- Ht1, <- Ht2. eapply (ei_unique _ _ Hel); [by left|by left|done|done|congruence|by rewrite Et1, Et2].
Qed.

(** C4. Log matching.  Replicas of at least two members [V] (a single one
    leads before it has persisted its term, and forgets it in a crash) start
    on empty logs and run as [Server]'s loop runs them, over a network that
    delays, loses, reorders and duplicates, with crashes and restarts; a crash
    while the log file is written leaves whole records of it, and none comes
    inside [saveHardState], so that the hard state is the old or the new one.
    Take two logs of the
    cluster, in memory or on disk, at one moment or at two: if they have an
    entry of the same term at the same position, they have the same entries
    up to it. *)
Theorem log_matching W W' L L' k e e' :
  replica_reachable V W -> rtc (replica_step V) W W' -> holds W L -> holds W' L' ->
  L !! k = Some e -> L' !! k = Some e' -> e_term e = e_term e' -> take (S k) L = take (S k) L'.
Proof using HVn HVu HV2.
  intros Hreach Hrun HL HL'. destruct (replica_reachable_inv W Hreach) as [h Hinv].
  destruct (replica_run_inv h W W' Hinv Hrun) as (h' & He & Hinv' & _).
  apply (follows_agree h'); [|by eapply holds_follows].
  eapply follows_mono; [exact He|]. by eapply holds_follows.
Qed.

(** C6. One leader per term, which only appends.  In such a run, of at least
    two members and with files that are whole after a crash, a replica that
    leads a term at some moment, and one that leads the same term then or
    later, whatever crashed in between, are the same replica, and its log at
    the first moment is the beginning of its log at the second. *)
Theorem leader_append_only W W' i j T L L' :
  replica_reachable V W -> rtc (replica_step V) W W' -> leads_with W i T L -> leads_with W' j T L' ->
  i = j /\ L `prefix_of` L'.
Proof using HVn HVu HV2.
  intros Hreach Hrun (r & Hi & Hr & HT & ->) (r' & Hj & Hr' & HT' & ->).
  destruct (replica_reachable_inv W Hreach) as [h Hinv].
  destruct (replica_run_inv h W W' Hinv Hrun) as (h' & He & Hinv' & Ho).
  destruct (ri_leader _ _ _ Hinv _ _ Hi Hr) as [-> Hoi]. destruct (ri_leader _ _ _ Hinv' _ _ Hj Hr') as [-> Hoj].
  rewrite HT in *. rewrite HT' in *. split; [|apply He]. eapply (owns_unique h' W' T); [done|by apply Ho|done].
Qed.
End Runs.

(** ** Running replicas *)

Inductive raction :=
| RTick (i : Z)
| RDeliver (k : nat)
| RPropose (i : Z) (data : bytes)
| RPoll (i : Z)
| RWrite (i : Z)
| RAdvance (i : Z)
| RCrash (i : Z)
| RCrashWriting (i : Z) (k : nat).

#[global] Instance fits_dec `{!Platform} w n : Decision (fits w n).
Proof. unfold fits, term_below. apply _. Defined.

#[global] Instance str_ok_dec s : Decision (str_ok s).
Proof. unfold str_ok, bytes_ok, is_u8. apply _. Defined.

Definition idle (p : phase) : bool := match p with Idle => true | _ => false end.
Definition written (p : phase) : bool := match p with Written => true | _ => false end.

Section Exec.
Context `{!Platform} `{!Random} (cfg : Z -> Config).

Definition revive (i : Z) (logFile : bytes) (hsFile csFile : option bytes) : Replica :=
  let w := new_WriteAheadLog logFile hsFile csFile in mkReplica (new_RawNode (cfg i) w) w Idle.

Definition rexec (W : World) (a : raction) : option World :=
  match a with
  | RTick i =>
      r ← wd_replicas W !! i;
      guard (idle (rp_phase r) = true);; guard (fits (rp_wal r) (rp_node r));;
      '(_, n') ← tick (rp_wal r) (rp_node r); Some (put i (with_rnode n' r) W)
  | RDeliver k =>
      m ← wd_wire W !! k;
      r ← wd_replicas W !! m_to m;
      guard (idle (rp_phase r) = true);; guard (fits (rp_wal r) (rp_node r));; guard (term_below (m_term m));;
      n' ← step (rp_wal r) (rp_node r) m; Some (put (m_to m) (with_rnode n' r) W)
  | RPropose i data =>
      r ← wd_replicas W !! i;
      guard (fits (rp_wal r) (rp_node r));; guard (str_ok data);;
      '(_, n') ← propose (rp_wal r) (rp_node r) data; Some (put i (with_rnode n' r) W)
  | RPoll i =>
      r ← wd_replicas W !! i;
      guard (idle (rp_phase r) = true);;
      let '(rd, n') := poll (rp_wal r) (rp_node r) in Some (put i (mkReplica n' (rp_wal r) (Polled rd)) W)
  | RWrite i =>
      r ← wd_replicas W !! i;
      rd ← match rp_phase r with Polled rd => Some rd | _ => None end;
      guard (term_below (hs_term (rd_hardState rd)));;
      Some (mkWorld (<[i := mkReplica (rp_node r) (persist rd (rp_wal r)) Written]> (wd_replicas W))
              (wd_wire W ++ rd_messages rd))
  | RAdvance i =>
      r ← wd_replicas W !! i;
      guard (written (rp_phase r) = true);;
      n' ← advance (rp_wal r) (rp_node r); Some (put i (mkReplica n' (rp_wal r) Idle) W)
  | RCrash i =>
      r ← wd_replicas W !! i;
      Some (put i (revive i (w_logFile (rp_wal r)) (w_hsFile (rp_wal r)) (w_csFile (rp_wal r))) W)
  | RCrashWriting i k =>
      r ← wd_replicas W !! i;
      rd ← match rp_phase r with Polled rd => Some rd | _ => None end;
      Some (put i (revive i (foldl writeEntry [] (take k (w_log (persist_log rd (rp_wal r)))))
                     (w_hsFile (rp_wal r)) (w_csFile (rp_wal r))) W)
  end.

Definition member_of (V : list Z) : Prop :=
  forall i, c_id (cfg i) = i /\ c_peers (cfg i) = V /\ c_learners (cfg i) = [].

Lemma revive_revived V i logFile hsFile csFile :
  member_of V -> revived V i logFile hsFile csFile (revive i logFile hsFile csFile).
Proof. intros Hc. exists (cfg i). by destruct (Hc i) as (? & ? & ?). Qed.

Lemma rexec_sound V W a W' : member_of V -> rexec W a = Some W' -> replica_step V W W'.
Proof.
  intros Hc. destruct a as [i|k|i data|i|i|i|i|i k]; cbn [rexec]; intros Hs; unbind Hs;
    repeat (case_guard; [cbn [mbind option_bind] in Hs; unbind Hs|done]).
  - destruct p as [b n']. injection Hs as <-. eapply r_tick; try done. by destruct (rp_phase _).
  - injection Hs as <-. eapply r_step; try done; [by destruct (rp_phase _)|by eapply list_elem_of_lookup_2].
  - destruct p as [b n']. injection Hs as <-. by eapply r_propose.
  - destruct (poll _ _) as [rd n'] eqn:Ep. injection Hs as <-. eapply r_poll; [done|by destruct (rp_phase _)|done].
  - injection Hs as <-. eapply r_write; [done| |done]. by destruct (rp_phase _); simplify_eq.
  - injection Hs as <-. eapply r_advance; [done| |done]. by destruct (rp_phase _).
  - injection Hs as <-. eapply r_crash; [done|by apply revive_revived].
  - injection Hs as <-. eapply r_crash_writing; [done| |by apply revive_revived]. by destruct (rp_phase _); simplify_eq.
Qed.

Lemma rexec_run_sound V W acts W' :
  member_of V -> run rexec W acts = Some W' -> rtc (replica_step V) W W'.
Proof.
  intros Hc. apply (run_rtc rexec (replica_step V) (fun _ => True)); [|by apply Forall_true].
  intros W1 a W2 _. by apply rexec_sound.
Qed.
End Exec.

(** ** Three replicas *)

#[local] Instance rt_platform : Platform := {|
  sizeof_Entry := 48; sizeof_Entry_pos := conj eq_refl eq_refl |}.
#[local] Instance rt_draws : Random := {|
  draw k a b := a; draw_range k a b Hab := conj (Z.le_refl a) Hab |}.

(** Replica [i] times out after [3 * i] ticks without a leader. *)
Definition rt_config (i : Z) : Config := mkConfig i 0 (3 * i) 1 (2 ^ 20) 256 [1; 2; 3] [] Safe.

Definition rt_fresh : World :=
  mkWorld (list_to_map ((fun i => (i, revive rt_config i [] None None)) <$> [1; 2; 3])) [].

Definition cycle (i : Z) : list raction := [RPoll i; RWrite i; RAdvance i].

(** Replica 1 leads term 1 and brings two entries to replica 2; a third one
    reaches no other replica. *)
Definition rt_term1 : list raction :=
  [RTick 1; RTick 1; RTick 1] ++ cycle 1 ++ [RDeliver 0] ++ cycle 2 ++ [RDeliver 2] ++ cycle 1
  ++ [RDeliver 3] ++ cycle 2 ++ [RPropose 1 [7]; RPropose 1 [8]] ++ cycle 1 ++ [RDeliver 5] ++ cycle 1
  ++ [RDeliver 6] ++ cycle 2 ++ [RPropose 1 [9]] ++ cycle 1.

(** Replica 1 crashes; replica 2 gets the vote of replica 3 and leads term 2. *)
Definition rt_term2 : list raction :=
  [RCrash 1] ++ replicate 7 (RTick 2) ++ cycle 2 ++ [RDeliver 10] ++ cycle 3 ++ [RDeliver 11].

(** Its entries replace the third one of replica 1, which is killed while it
    writes its log. *)
Definition rt_replace : list raction :=
  [RPropose 2 [5]] ++ cycle 2 ++ [RDeliver 12] ++ cycle 1 ++ [RDeliver 14] ++ cycle 2
  ++ [RDeliver 15; RPoll 1; RCrashWriting 1 2].

Definition rt_after (acts : list raction) : World := default rt_fresh (run (rexec rt_config) rt_fresh acts).
Definition rt_W1 : World := rt_after rt_term1.
Definition rt_W2 : World := rt_after (rt_term1 ++ rt_term2).
Definition rt_W3 : World := rt_after (rt_term1 ++ rt_term2 ++ rt_replace).

Definition rt_replica (W : World) (i : Z) : Replica :=
  default (revive rt_config i [] None None) (wd_replicas W !! i).
Definition terms (l : list Entry) : list Z := e_term <$> l.

(** Replica 1 leads term 1 and has sent replica 2 the first two of its three
    entries, then all three.  Replica 2 takes the later message first, then
    the earlier one, and acknowledges both; the acknowledgement of the three
    reaches replica 1, which commits them. *)
Definition rt_reordered : list raction :=
  [RTick 1; RTick 1; RTick 1] ++ cycle 1 ++ [RDeliver 0] ++ cycle 2 ++ [RDeliver 2] ++ cycle 1
  ++ [RDeliver 3] ++ cycle 2 ++ [RPropose 1 [7]; RPropose 1 [8]] ++ cycle 1 ++ [RDeliver 5] ++ cycle 1
  ++ [RPropose 1 [9]] ++ cycle 1 ++ [RDeliver 7; RDeliver 6] ++ cycle 2 ++ [RDeliver 8] ++ cycle 1.

(** Replica 1 is cut off; replica 2 leads term 2 with replica 3. *)
Definition rt_takeover : list raction :=
  replicate 7 (RTick 2) ++ cycle 2 ++ [RDeliver 11] ++ cycle 3 ++ [RDeliver 12] ++ cycle 2
  ++ [RDeliver 14] ++ cycle 3 ++ [RDeliver 15] ++ cycle 2 ++ [RDeliver 16] ++ cycle 3 ++ [RDeliver 17].

Definition committed_terms (W : World) (i : Z) : list Z :=
  terms (take (Z.to_nat (commitIndex (n_log (rp_node (rt_replica W i))))) (log_of (rt_replica W i))).

(** A late append message can lose a committed entry.  When a message's
    entries are all present, [maybeAppend] cuts off what stands behind them;
    if those entries are not yet persisted, they are gone although their
    acknowledgement is about to be sent.  In this run without a crash and
    without heartbeats the leader of term 1 commits a third entry that only
    its own log has, and then replicas 2 and 3 commit another one in its
    place. *)
Theorem late_append_loses_committed :
  let W1 := rt_after rt_reordered in
  let W2 := rt_after (rt_reordered ++ rt_takeover) in
  run (rexec rt_config) rt_fresh (rt_reordered ++ rt_takeover) = Some W2
  /\ committed_terms W1 1 = [1; 1; 1] /\ terms (log_of (rt_replica W1 2)) = [1; 1]
  /\ terms (log_of (rt_replica W1 3)) = []
  /\ committed_terms W2 1 = [1; 1; 1] /\ committed_terms W2 2 = [1; 1; 2].
Proof. cbv zeta. split_and!; vm_compute; reflexivity. Qed.

Lemma rt_members : member_of rt_config [1; 2; 3].
Proof. by intros i. Qed.

Lemma rt_initial : replica_initial [1; 2; 3] rt_fresh.
Proof.
  split; [done|]. intros i r Hi. unfold rt_fresh in Hi. cbn [wd_replicas] in Hi.
  apply elem_of_list_to_map_2 in Hi. cbn [fmap list_fmap] in Hi. rewrite !elem_of_cons in Hi.
  destruct Hi as [?|[?|[?|Hi]]]; [..|by apply not_elem_of_nil in Hi]; simplify_eq;
    (split_and!; [set_solver|done|]; exists None; split; [done|]; by apply revive_revived).
Qed.

Lemma rt_run W acts W' : run (rexec rt_config) W acts = Some W' -> rtc (replica_step [1; 2; 3]) W W'.
Proof. apply rexec_run_sound, rt_members. Qed.

Lemma rt_reachable acts W :
  run (rexec rt_config) rt_fresh acts = Some W -> replica_reachable [1; 2; 3] W.
Proof. intros Hr. exists rt_fresh. split; [apply rt_initial|by eapply rt_run]. Qed.

Lemma rt_nodup : NoDup [1; 2; 3].
Proof. apply (bool_decide_unpack _). vm_compute. exact I. Qed.

Lemma rt_u64 : Forall is_u64 [1; 2; 3].
Proof. apply (bool_decide_unpack _). vm_compute. exact I. Qed.

(** The log of replica 1 in term 1 and the last log of replica 2 agree on the
    two entries up to the last of term 1 they share. *)
Lemma log_matching_witness :
  let L1 := log_of (rt_replica rt_W1 1) in
  let L2 := log_of (rt_replica rt_W3 2) in
  terms L1 = [1; 1; 1] /\ terms L2 = [1; 1; 2; 2] /\ take 2 L1 = take 2 L2.
Proof.
  split_and!; [vm_compute; reflexivity..|].
  apply (log_matching [1; 2; 3] rt_nodup rt_u64 ltac:(simpl; lia) rt_W1 rt_W3 _ _ 1
           (mkEntry 1 2 Normal [8]) (mkEntry 1 2 Normal [8])).
  - apply (rt_reachable rt_term1). vm_compute. reflexivity.
  - apply (rt_run rt_W1 (rt_term2 ++ rt_replace)). vm_compute. reflexivity.
  - exists 1, (rt_replica rt_W1 1). split; [vm_compute; reflexivity|by left].
  - exists 2, (rt_replica rt_W3 2). split; [vm_compute; reflexivity|by left].
  - vm_compute. reflexivity.
  - vm_compute. reflexivity.
  - reflexivity.
Defined.

(** Replica 2 when it has just won term 2, and at the end. *)
Lemma leader_append_only_witness :
  terms (log_of (rt_replica rt_W2 2)) = [1; 1; 2] /\ 2 = 2
  /\ log_of (rt_replica rt_W2 2) `prefix_of` log_of (rt_replica rt_W3 2).
Proof.
  split; [vm_compute; reflexivity|].
  apply (leader_append_only [1; 2; 3] rt_nodup rt_u64 ltac:(simpl; lia) rt_W2 rt_W3 2 2 2).
  - apply (rt_reachable (rt_term1 ++ rt_term2)). vm_compute. reflexivity.
  - apply (rt_run rt_W2 rt_replace). vm_compute. reflexivity.
  - exists (rt_replica rt_W2 2). split_and!; [vm_compute; reflexivity..|reflexivity].
  - exists (rt_replica rt_W3 2). split_and!; [vm_compute; reflexivity..|reflexivity].
Defined.
