(* ===== verification/RaftTheorems.v ===== *)
(** * Properties of the raft node

    Election safety of a cluster, what binds a node between elections, the
    leader's commit rule, flow control, and the places where the code departs from what it documents. *)

From stdpp Require Import sorting.
From S2P Require Import Prelude StdMap RaftTypes LogUnstable WriteAheadLog RaftLogTheorems.
From S2P Require Import RaftLog Progress ReadOnly RawNode RaftActions RaftElection RaftCluster RaftLocal.

(** ** Counting in a list sorted downwards *)

#[local] Instance desc_total : Total (fun x y : Z => y <= x).
Proof. intros x y. lia. Qed.
#[local] Instance desc_trans : Transitive (fun x y : Z => y <= x).
Proof. intros x y z. lia. Qed.

Definition at_least (k : Z) (l : list Z) : nat := length (filter (fun x => k <= x) l).

Lemma sort_desc_perm l : sort_desc l ≡ₚ l.
Proof. apply merge_sort_Permutation. Qed.

Lemma sort_desc_sorted l : StronglySorted (fun x y => y <= x) (sort_desc l).
Proof. apply (StronglySorted_merge_sort (fun x y : Z => y <= x)). Qed.

Lemma at_least_sort k l : at_least k (sort_desc l) = at_least k l.
Proof. unfold at_least. by rewrite sort_desc_perm. Qed.

Lemma at_least_cons k x l : at_least k (x :: l) = ((if decide (k <= x)%Z then 1 else 0) + at_least k l)%nat.
Proof. unfold at_least. rewrite filter_cons. by case_decide. Qed.

Lemma at_least_none k l : Forall (fun y => y < k) l -> at_least k l = 0%nat.
Proof.
  induction 1; [done|]. rewrite at_least_cons. rewrite decide_False by lia. done.
Qed.

(** The element at position [k] is the largest value that more than [k]
    elements reach. *)
Lemma sorted_desc_rank l : StronglySorted (fun x y => y <= x) l -> forall k x,
  l !! k = Some x ->
  (k < at_least x l)%nat /\ (forall z, (k < at_least z l)%nat -> z <= x).
Proof.
  induction 1 as [|y l Hs IH Hall]; intros k x Hk; [done|]. destruct k as [|k]; simplify_eq/=.
  - rewrite at_least_cons, decide_True by lia. split; [lia|]. intros z Hz.
    destruct (decide (z <= x)); [done|]. rewrite at_least_none in Hz; [lia|].
    constructor; [lia|]. eapply Forall_impl; [exact Hall|]. simpl. lia.
  - destruct (IH k x Hk) as [H1 H2].
    assert (x <= y) by (rewrite Forall_forall in Hall; apply Hall; by eapply list_elem_of_lookup_2).
    rewrite at_least_cons, decide_True by lia. split; [lia|]. intros z Hz. apply H2.
    rewrite at_least_cons in Hz. case_decide; lia.
Qed.

(** ** The commit rule *)

(** What the leader knows each member holds: its own last index, and the
    acknowledged index of every peer. *)
Definition held {St} `{!Storage St} (st : St) (n : RawNode) : list Z :=
  (fun '(id, pr) => if id =? n_id n then lastIndex st (n_log n) else p_matchIndex pr) <$> n_pr n.

(** ** Flow control: operations on the window *)

Inductive window_op := WAdd (i : Z) | WFree (to : Z) | WReset.

Definition ring_step (i : Inflights) (o : window_op) : option Inflights :=
  match o with
  | WAdd x => add i x
  | WFree t => freeTo i t
  | WReset => Some (in_reset i)
  end.

(** The window as a bounded queue. *)
Definition queue_step (cap : nat) (q : list Z) (o : window_op) : option (list Z) :=
  match o with
  | WAdd x => if bool_decide (length q = cap) then None else Some (q ++ [x])
  | WFree t => Some (drop_acked t q)
  | WReset => Some []
  end.

Lemma ring_step_sim i o :
  inflights_ok i ->
  match ring_step i o, queue_step (length (in_buffer i)) (queue i) o with
  | Some i', Some q' => inflights_ok i' /\ queue i' = q' /\ length (in_buffer i') = length (in_buffer i)
  | None, None => True
  | _, _ => False
  end.
Proof.
  intros Hok. destruct o as [x|t|]; simpl.
  - rewrite length_queue. case_bool_decide as Hf.
    + unfold add, full. by rewrite bool_decide_eq_true_2.
    + destruct (add_queue i x Hok) as (i' & -> & ? & ? & ?); [destruct Hok; lia|done].
  - destruct (freeTo_queue i t Hok) as (i' & -> & ? & ? & ?). done.
  - split_and!; [|done..]. destruct Hok. split; simpl; lia.
Qed.

Section Reads.
Context `{!Platform} {St : Type} `{!Storage St}.

Lemma sendSnapshot_reads (st : St) n to :
  n_readStates (sendSnapshot st n to) = n_readStates n
  /\ n_readOnly (sendSnapshot st n to) = n_readOnly n.
Proof. unfold sendSnapshot. destruct (sm_find _ _ _); [|done]. by destruct (_ =? 0). Qed.

Lemma sendAppend_reads (st : St) n to n' :
  sendAppend st n to = Some n' -> n_readStates n' = n_readStates n /\ n_readOnly n' = n_readOnly n.
Proof.
  unfold sendAppend. intros Hs. destruct (sm_find _ _ _) as [pr|]; [|by simplify_eq].
  destruct (p_paused pr); [by simplify_eq|].
  destruct (bool_decide _); [simplify_eq; apply sendSnapshot_reads|].
  destruct (_ <? _); [simplify_eq; apply sendSnapshot_reads|].
  destruct (slice _ _ _ _ _) as [ents|]; [|simplify_eq; apply sendSnapshot_reads].
  destruct (_ && _); [by simplify_eq|]. destruct (_ && _); [by simplify_eq|]. unbind Hs.
  by simplify_eq.
Qed.

Lemma maybeCommit_pr (st : St) n b n' : maybeCommit st n = Some (b, n') -> n_pr n' = n_pr n.
Proof.
  unfold maybeCommit. intros Hs. unbind Hs. destruct (_ <? _); [|by simplify_eq]. unbind Hs.
  destruct (_ =? _); [|by simplify_eq]. unbind Hs. destruct p as [? ?]. by simplify_eq.
Qed.
End Reads.

Section RaftTheorems.
Context `{!Platform} `{!Random} {St : Type} `{!Storage St} `{!StorageLaws St}.
Implicit Types (st : St) (n : RawNode) (cl : Cluster).

(** C9. Election safety.  Take any members [V] of a cluster whose nodes
    start as followers, and any run of ticks, deliveries, proposals, reads,
    polls, advances, sends after persisting, and crashes at any moment, each
    followed by a restart from the persisted hard state, over a network that
    delays, drops, reorders, duplicates and even forges messages other than
    granted votes: two nodes that lead in the same term are one node. *)
Theorem election_safety V cl i j hi hj :
  NoDup V -> reachable (St := St) V cl ->
  cl_hosts cl !! i = Some hi -> cl_hosts cl !! j = Some hj ->
  n_role (ho_node hi) = Leader -> n_role (ho_node hj) = Leader ->
  n_term (ho_node hi) = n_term (ho_node hj) ->
  i = j.
Proof. intros HV Hr. eapply leaders_agree; [exact HV|by apply reachable_inv]. Qed.

(** Terms and votes.  Handling a message never lowers a node's term, and
    a node that is bound by a vote for [c] in term [t] stays bound: while its
    term is [t] it remains a follower whose vote is [c]. *)
Theorem step_keeps_promises st n m n' :
  0 <= n_term n < 2 ^ 64 - 1 -> m_term m < 2 ^ 64 - 1 -> prevote m = false ->
  n_role n <> PreCandidate -> step st n m = Some n' ->
  n_term n <= n_term n' /\ n_role n' <> PreCandidate
  /\ forall t c, c <> 0 -> promised n t c -> promised n' t c.
Proof.
  intros Ht Hm Hpv Hr Hs. apply step_moves in Hs; [|done..].
  clear Ht Hm Hpv. induction Hs as [n|n1 n2 n3 Hm _ IH]; [split_and!; [lia|done|auto]|].
  destruct (micro_role_term _ _ _ Hm Hr) as [Hr2 Ht2]. destruct (IH Hr2) as (Ht3 & Hr3 & Hp).
  split_and!; [lia|done|]. intros t c Hc Hprom. apply Hp; [done|]. exact (promised_micro _ _ _ t c Hc Hr Hm Hprom).
Qed.

(** What [maybeCommit] does. *)
Lemma maybeCommit_rule st n :
  raftlog_ok st (n_log n) -> no_stale st (n_log n) ->
  log_first st (n_log n) - 1 <= commitIndex (n_log n) ->
  (quorum n <= length (n_pr n))%nat -> Forall (fun i => i < 2 ^ 63) (held st n) ->
  exists k,
    (quorum n <= at_least k (held st n))%nat
    /\ (forall z, (quorum n <= at_least z (held st n))%nat -> z <= k)
    /\ let advance := (commitIndex (n_log n) <? k) && (term_at st (n_log n) k =? n_term n) in
       maybeCommit st n
       = Some (advance, if advance then set_log (set_committed k (n_log n)) n else n).
Proof.
  intros Hok Hns Hc Hq Hb. unfold maybeCommit. fold (held st n).
  assert (quorum n <> 0)%nat by (unfold quorum; lia).
  destruct (lookup_lt_is_Some_2 (sort_desc (held st n)) (quorum n - 1)) as [k Ek].
  { rewrite sort_desc_perm. unfold held. rewrite length_fmap. lia. }
  destruct (sorted_desc_rank _ (sort_desc_sorted _) _ _ Ek) as [Hin Hmax].
  rewrite at_least_sort in Hin. exists k. split_and!; [lia| |].
  { intros z Hz. apply Hmax. rewrite at_least_sort. lia. }
  rewrite Ek. cbn [mbind option_bind]. cbv zeta.
  assert (k < 2 ^ 63).
  { rewrite Forall_forall in Hb. apply Hb. rewrite <- sort_desc_perm. by eapply list_elem_of_lookup_2. }
  unfold RaftLog.maybeCommit, commitIndex in *.
  destruct (Z.ltb_spec (rl_committed (n_log n)) k); [|done].
  rewrite term_any by (done || lia). cbn [mbind option_bind].
  destruct (_ =? _); cbn [mbind option_bind andb]; done.
Qed.

(** C16. The commit rule.  On a leader that tracks a quorum of members, the
    index considered is the largest that a quorum of them holds (the leader
    its whole log); it becomes committed exactly when it is above the commit
    index and its entry is of the leader's own term, and nothing else
    changes. *)
Theorem leader_commit_rule st n :
  raftlog_ok st (n_log n) -> no_stale st (n_log n) ->
  log_first st (n_log n) - 1 <= commitIndex (n_log n) ->
  (quorum n <= length (n_pr n))%nat -> Forall (fun i => i < 2 ^ 63) (held st n) ->
  exists k,
    (quorum n <= at_least k (held st n))%nat
    /\ (forall z, (quorum n <= at_least z (held st n))%nat -> z <= k)
    /\ let advance := (commitIndex (n_log n) <? k) && (term_at st (n_log n) k =? n_term n) in
       maybeCommit st n
       = Some (advance, if advance then set_log (set_committed k (n_log n)) n else n).
Proof. apply maybeCommit_rule. Qed.

(** C25. Flow control.  The ring buffer of a peer's in-flight appends behaves
    as a queue of its capacity under every sequence of operations: an index
    is appended unless the window is full, an acknowledgement removes the
    indices in front that it covers, a reset empties it; the two fail on the
    same sequences. *)
Theorem inflights_refine_queue cap ops :
  queue <$> run ring_step (new_Inflights cap) ops = run (queue_step cap) [] ops.
Proof.
  assert (inflights_ok (new_Inflights cap)) as Hok.
  { split; simpl; [lia|by right]. }
  assert (cap = length (in_buffer (new_Inflights cap))) as Hcap by (simpl; by rewrite length_replicate).
  assert ([] = queue (new_Inflights cap)) as Hq by done.
  rewrite Hq. revert Hok Hcap. generalize (new_Inflights cap) as i. clear Hq. unfold run.
  induction ops as [|o ops IH]; intros i Hok Hcap; [done|]. cbn [foldl mbind option_bind].
  pose proof (ring_step_sim i o Hok) as Hsim. rewrite <- Hcap in Hsim.
  destruct (ring_step i o) as [i'|], (queue_step cap (queue i) o) as [q'|]; try done.
  - destruct Hsim as (Hok' & <- & Hlen). apply IH; [done|congruence].
  - by rewrite !run_none.
Qed.

(** A confirmed snapshot is forgotten.  When the transport reports that
    a snapshot reached a peer, the peer's acknowledged index becomes 0, not
    the index of the snapshot: leaving the snapshot state clears the index
    before it is copied. *)
Theorem snapstatus_forgets_snapshot st n m pr n' :
  m_type m = MsgSnapStatus -> m_reject m = false ->
  pr_find (m_from m) (n_pr n) = Some pr -> p_state pr = SnapshotState ->
  step st n m = Some n' ->
  exists pr', pr_find (m_from m) (n_pr n') = Some pr' /\ p_matchIndex pr' = 0 /\ p_nextIndex pr' = 1.
Proof.
  intros Hty Hrej Hpr Hst Hs. unfold step in Hs. rewrite Hty, Hpr, Hrej in Hs. cbn zeta in Hs.
  unbind Hs. destruct p as [b n1]. simplify_eq.
  assert (n_pr n' = sm_alter Z.ltb (fun _ => set_match_next
    (p_pendingSnapshotIndex (becomeProbe pr)) (p_pendingSnapshotIndex (becomeProbe pr) +u 1)
    (becomeProbe pr)) (m_from m) (n_pr n)) as ->.
  { apply maybeCommit_pr in E. exact E. }
  rewrite sm_find_alter, Hpr. eexists. split; [done|]. simpl. by rewrite Hst.
Qed.

(** A heartbeat's reply loses the read it confirms.  A follower answers
    a heartbeat with an empty context whatever context it carried, and a
    leader that receives the answer completes no read: no read state is
    produced and no acknowledgement is recorded. *)
Theorem heartbeat_reply_confirms_nothing st n m n' :
  n_role n = Follower -> m_type m = MsgHeartbeat -> m_term m = n_term n ->
  step st n m = Some n' ->
  exists reply, n_msgs n' = n_msgs n ++ [reply]
    /\ m_type reply = MsgHeartbeatResp /\ m_to reply = m_from m /\ m_context reply = []
    /\ forall st' ld ld', n_role ld = Leader -> n_term ld = m_term reply ->
         step st' ld reply = Some ld' ->
         n_readStates ld' = n_readStates ld /\ n_readOnly ld' = n_readOnly ld.
Proof.
  intros Hr Hty Ht Hs. unfold step in Hs. rewrite Hty, Ht in Hs. cbn zeta in Hs.
  rewrite !Z.ltb_irrefl, Hr in Hs.
  unfold stepFollower in Hs. rewrite Hty in Hs. injection Hs as <-.
  eexists (message MsgHeartbeatResp (m_from m) (n_id n) (n_term n)).
  split_and!; try done; [by destruct (_ <? _)|].
  intros st' ld ld' Hl Ht' Hs. unfold step in Hs. cbn [m_type message m_term] in *.
  cbn zeta in Hs. rewrite Ht', Z.ltb_irrefl, Ht', Z.ltb_irrefl, Hl in Hs.
  unfold stepLeader in Hs.
  cbn [m_type message m_from m_context] in Hs. destruct (sm_find _ _ _); [|by simplify_eq].
  unbind Hs. rewrite bool_decide_eq_true_2 in Hs by done. simplify_eq.
  repeat case_match; simplify_eq; try done; by apply sendAppend_reads in E.
Qed.

(** Only messages commit.  Ticks, proposals, reads, polls and advances,
    in any order and on any node, leave the commit index where it is; so a
    cluster of one member, which elects itself and receives no message,
    never commits what it is given. *)
Theorem local_operations_never_commit st n ops n' :
  run (local_step st) n ops = Some n' -> commitIndex (n_log n') = commitIndex (n_log n).
Proof.
  apply (run_invariant (local_step st) (fun n1 => commitIndex (n_log n1) = commitIndex (n_log n))); [|done].
  intros n1 o n2 E Hs. rewrite <- E. by apply (local_step_committed st n1 o).
Qed.
End RaftTheorems.

(** ** Instances at concrete values *)

#[local] Existing Instance sample_platform.

(** Draws that always take the lower bound. *)
#[local] Instance low_draws : Random := {|
  draw k a b := a; draw_range k a b Hab := conj (Z.le_refl a) Hab |}.

Definition empty_wal : WriteAheadLog := new_WriteAheadLog [] None None.

Definition demo_node (i : Z) : RawNode :=
  new_RawNode (mkConfig i 0 3 1 (2 ^ 20) 256 [1; 2; 3] [] Safe) empty_wal.

Definition demo_host (i : Z) : Host := mkHost (demo_node i) (mkHardState 0 0 0) None.

Definition demo_cluster : Cluster :=
  mkCluster (list_to_map [(1, demo_host 1); (2, demo_host 2); (3, demo_host 3)]) [].

Lemma demo_initial : initial [1; 2; 3] demo_cluster.
Proof.
  split; [done|]. intros i n Hi. unfold demo_cluster in Hi. cbn [cl_hosts] in Hi.
  apply elem_of_list_to_map_2 in Hi. rewrite !elem_of_cons in Hi.
  destruct Hi as [?|[?|[?|Hi]]]; [simplify_eq; split_and!; [set_solver|done..]..|].
  by apply not_elem_of_nil in Hi.
Qed.

(** Node 1 times out and asks for votes, node 2 grants its own and sends it:
    node 1 leads term 1. *)
Definition demo_election : list action :=
  [ATick 1; ATick 1; ATick 1; APoll 1; ASend 1; ADeliver 0; APoll 2; ASend 2; ADeliver 2].

Definition after_election : Cluster :=
  default demo_cluster (exec_all empty_wal demo_cluster demo_election).

Definition node_at (cl : Cluster) (i : Z) : RawNode :=
  default (demo_node i) (ho_node <$> cl_hosts cl !! i).

(** Node 2 crashes and comes back from its files. *)
Definition demo_restarted : RawNode :=
  new_RawNode (mkConfig 2 0 3 1 (2 ^ 20) 256 [1; 2; 3] [] Safe)
    (saveHardState empty_wal (mkHardState 1 1 0)).

Definition demo_crash : list action := demo_election ++ [ACrash 2 demo_restarted].

Definition after_crash : Cluster := default demo_cluster (exec_all empty_wal demo_cluster demo_crash).

Lemma after_crash_reachable : reachable (St := WriteAheadLog) [1; 2; 3] after_crash.
Proof.
  exists demo_cluster. split; [apply demo_initial|].
  apply (exec_all_sound empty_wal demo_crash). vm_compute. reflexivity.
Qed.

Lemma election_safety_witness :
  n_role (node_at after_crash 1) = Leader /\ n_term (node_at after_crash 1) = 1
  /\ n_vote (node_at after_crash 2) = 1 /\ 1 = 1.
Proof.
  split_and!; [vm_compute; reflexivity..|].
  apply (election_safety (St := WriteAheadLog) [1; 2; 3] after_crash 1 1
    (default (demo_host 1) (cl_hosts after_crash !! 1)) (default (demo_host 1) (cl_hosts after_crash !! 1))).
  - apply (bool_decide_unpack _); vm_compute; exact I.
  - exact after_crash_reachable.
  - vm_compute; reflexivity.
  - vm_compute; reflexivity.
  - vm_compute; reflexivity.
  - vm_compute; reflexivity.
  - reflexivity.
Defined.

(** Node 2, which voted for node 1, refuses node 3 in the same term. *)
Lemma step_keeps_promises_witness :
  exists n', step empty_wal (node_at after_election 2) (message MsgVote 2 3 1) = Some n'
    /\ promised n' 1 1 /\ m_reject <$> last (n_msgs n') = Some true.
Proof.
  eexists. split; [vm_compute; reflexivity|]. split; [|vm_compute; reflexivity].
  eapply (step_keeps_promises empty_wal (node_at after_election 2) (message MsgVote 2 3 1)).
  - split; [vm_compute; discriminate|vm_compute; reflexivity].
  - reflexivity.
  - reflexivity.
  - vm_compute. discriminate.
  - vm_compute. reflexivity.
  - discriminate.
  - split; [vm_compute; discriminate|]. intros _. split; vm_compute; reflexivity.
Defined.

(** A leader of term 2 with seven entries, five of them committed; node 2
    holds all seven, node 3 none: the seventh is committed. *)
Definition demo_leader : RawNode :=
  set_election Leader 2 1 1 [1; 2]
    (set_pr [(1, set_match_next 7 8 (new_Progress 256 false));
             (2, set_match_next 7 8 (new_Progress 256 false)); (3, new_Progress 256 false)]
       (set_log sample_raftlog (demo_node 1))).

Lemma leader_commit_rule_witness :
  maybeCommit sample_wal demo_leader
  = Some (true, set_log (set_committed 7 sample_raftlog) demo_leader)
  /\ exists k, (quorum demo_leader <= at_least k (held sample_wal demo_leader))%nat.
Proof.
  split; [vm_compute; reflexivity|].
  destruct (leader_commit_rule sample_wal demo_leader) as (k & Hk & _).
  - exact sample_raftlog_ok.
  - vm_compute. discriminate.
  - vm_compute. discriminate.
  - apply (bool_decide_unpack _); vm_compute; exact I.
  - apply (bool_decide_unpack _); vm_compute; exact I.
  - exists k. exact Hk.
Defined.

(** The peer took a snapshot at index 7. *)
Lemma snapstatus_forgets_snapshot_witness :
  exists n' pr',
    step sample_wal (set_pr (pr_alter (fun p => becomeSnapshot p 7) 3 (n_pr demo_leader)) demo_leader)
      (message MsgSnapStatus 1 3 2) = Some n'
    /\ pr_find 3 (n_pr n') = Some pr' /\ p_matchIndex pr' = 0 /\ p_nextIndex pr' = 1.
Proof.
  eexists. edestruct (snapstatus_forgets_snapshot sample_wal
    (set_pr (pr_alter (fun p => becomeSnapshot p 7) 3 (n_pr demo_leader)) demo_leader)
    (message MsgSnapStatus 1 3 2)) as (pr' & Hpr).
  - reflexivity.
  - reflexivity.
  - vm_compute. reflexivity.
  - reflexivity.
  - vm_compute. reflexivity.
  - exists pr'. split; [vm_compute; reflexivity|exact Hpr].
Defined.

(** A heartbeat that carries a read context, answered by node 2. *)
Lemma heartbeat_reply_confirms_nothing_witness :
  exists n' reply,
    step empty_wal (node_at after_election 2)
      (mkMessage MsgHeartbeat 2 1 1 0 0 0 false 0 [] empty_snapshot [9]) = Some n'
    /\ n_msgs n' = n_msgs (node_at after_election 2) ++ [reply] /\ m_context reply = [].
Proof.
  eexists. edestruct (heartbeat_reply_confirms_nothing empty_wal (node_at after_election 2)
    (mkMessage MsgHeartbeat 2 1 1 0 0 0 false 0 [] empty_snapshot [9])) as (reply & Hm & _ & _ & Hc & _).
  - vm_compute. reflexivity.
  - reflexivity.
  - vm_compute. reflexivity.
  - vm_compute. reflexivity.
  - exists reply. split; [vm_compute; reflexivity|]. split; [exact Hm|exact Hc].
Defined.

(** A cluster of one: it elects itself, takes a proposal, persists and
    advances, and its commit index is still 0. *)
Definition demo_single : RawNode :=
  new_RawNode (mkConfig 1 0 3 1 (2 ^ 20) 256 [1] [] Safe) empty_wal.

Definition demo_single_run : list local_op :=
  [LTick; LTick; LTick; LPropose [7]; LPoll; LAdvance; LTick; LPoll; LAdvance].

Lemma local_operations_never_commit_witness :
  exists n', run (local_step empty_wal) demo_single demo_single_run = Some n'
    /\ n_role n' = Leader /\ commitIndex (n_log n') = commitIndex (n_log demo_single).
Proof.
  eexists. split; [vm_compute; reflexivity|]. split; [vm_compute; reflexivity|].
  eapply (local_operations_never_commit empty_wal demo_single demo_single_run).
  vm_compute. reflexivity.
Defined.
