(* ===== verification/Replication.v ===== *)
(** * Replication of a proposal

    The way of an entry when nothing fails: the leader appends and sends it,
    a follower that has the leader's log takes it and acknowledges it, and
    the leader, in a cluster of two or three, commits it.  Each call returns,
    whatever the logs, the storages and the other peers are. *)

From S2P Require Import Prelude StdMap RaftTypes LogUnstable WriteAheadLog RaftLog Progress ReadOnly RawNode.
From S2P Require Import RaftActions RaftLocal RaftCluster LogHistory RaftReplica ReplicaTheorems RaftTheorems.

(** ** What sending leaves alone *)

(** The part of a peer's progress that the commit rule and the next message
    depend on. *)
Definition core_of (p : Progress) : Z * Z * ProgressState := (p_matchIndex p, p_nextIndex p, p_state p).
Definition view (n : RawNode) : list (Z * (Z * Z * ProgressState)) := prod_map id core_of <$> n_pr n.

Record alike (n n' : RawNode) : Prop := {
  al_log : n_log n' = n_log n;
  al_id : n_id n' = n_id n;
  al_role : n_role n' = n_role n;
  al_term : n_term n' = n_term n;
  al_voters : n_voters n' = n_voters n;
  al_max : n_maxSizePerMsg n' = n_maxSizePerMsg n;
  al_view : view n' = view n;
  al_reads : n_readStates n' = n_readStates n;
  al_marks : (n_lastReadyLastIndex n', n_lastReadyApplied n') = (n_lastReadyLastIndex n, n_lastReadyApplied n);
  al_msgs : n_msgs n `prefix_of` n_msgs n'
}.

#[global] Instance alike_preorder : PreOrder alike.
Proof.
  split; [by intros n; constructor|]. intros n1 n2 n3 [] []. constructor; [congruence..|by etransitivity].
Qed.

Lemma view_keys n n' : view n' = view n -> (n_pr n').*1 = (n_pr n).*1.
Proof.
  intros E. assert (forall n, (n_pr n).*1 = (view n).*1) as Hk; [|by rewrite !Hk, E].
  intros x. unfold view. rewrite <- list_fmap_compose. by apply list_fmap_ext.
Qed.

(** *** The map of the peers *)

Lemma ltb_total a b : (a <? b) = false -> (b <? a) = false -> a = b.
Proof. lia. Qed.

Lemma pr_split k p (m : list (Z * Progress)) :
  pr_find k m = Some p -> exists m1 m2, m = m1 ++ (k, p) :: m2 /\ forall f, pr_alter f k m = m1 ++ (k, f p) :: m2.
Proof. intros (m1 & m2 & E & _ & Ha)%(sm_find_split Z.ltb ltb_total Z.ltb_irrefl). by exists m1, m2. Qed.

Lemma pr_find_other f k to (m : list (Z * Progress)) : k <> to -> pr_find k (pr_alter f to m) = pr_find k m.
Proof.
  intros Hne. induction m as [|[k' v] m IH]; simpl; [done|].
  destruct (equiv_key Z.ltb to k') eqn:E; simpl; [|by rewrite IH].
  apply (equiv_key_eq Z.ltb ltb_total Z.ltb_irrefl) in E as <-.
  destruct (equiv_key Z.ltb k to) eqn:E'; [|done]. by apply (equiv_key_eq Z.ltb ltb_total Z.ltb_irrefl) in E'.
Qed.

Lemma pr_sorted_alter f k p (m : list (Z * Progress)) :
  pr_find k m = Some p -> sm_sorted Z.ltb m -> sm_sorted Z.ltb (pr_alter f k m).
Proof. intros (m1 & m2 & -> & ->)%pr_split. apply sm_sorted_replace. Qed.

(** Replacing the rest of one peer's progress. *)
Lemma view_alter n to p p' :
  pr_find to (n_pr n) = Some p -> core_of p' = core_of p ->
  view (set_pr (pr_alter (fun _ => p') to (n_pr n)) n) = view n.
Proof.
  intros (m1 & m2 & E & Ha)%pr_split Ec. unfold view. cbn [n_pr set_pr set_repl]. rewrite Ha, E, !fmap_app.
  by rewrite !fmap_cons; simpl; rewrite Ec.
Qed.

Lemma find_view n k : sm_find Z.ltb k (view n) = core_of <$> pr_find k (n_pr n).
Proof.
  unfold view. induction (n_pr n) as [|[k' p] m IH]; simpl; [done|]. by destruct (equiv_key Z.ltb k k').
Qed.

Section Replication.
Context `{!Platform} `{!Random} {St : Type} `{!Storage St} `{!StorageLaws St}.
Implicit Types (st : St) (n f : RawNode).

(** A node that can send: its log is in order and every peer it tracks takes
    entries from some index of the log on.  Before the first entry the offset
    of the unstable entries need not be right. *)
Record sender st n : Prop := {
  sd_log : raftlog_ok st (n_log n);
  sd_synced : log_list st (n_log n) <> [] -> synced st (n_log n);
  sd_stale : no_stale st (n_log n);
  sd_last : log_last st (n_log n) < 2 ^ 62;
  sd_sorted : sm_sorted Z.ltb (n_pr n);
  sd_peer k p : pr_find k (n_pr n) = Some p ->
    inflights_ok (p_inflights p) /\ p_state p <> SnapshotState
    /\ log_first st (n_log n) <= p_nextIndex p <= log_last st (n_log n) + 1
}.

(** Sending to a peer returns; it changes no index and no other peer. *)
Lemma sendAppend_alike st n to :
  sender st n -> exists n', sendAppend st n to = Some n' /\ alike n n' /\ sender st n'
    /\ forall k, k <> to -> pr_find k (n_pr n') = pr_find k (n_pr n).
Proof.
  intros Hs. pose proof Hs as [Hok Hsy Hns Hl Hso Hp]. unfold sendAppend.
  destruct (pr_find to (n_pr n)) as [p|] eqn:E; [|by exists n].
  destruct (Hp to p E) as (Hin & Hst & Hnx). destruct (p_paused p); [by exists n|].
  rewrite bool_decide_eq_false_2 by done. pose proof (log_first_range _ _ Hok) as Hf.
  rewrite firstIndex_eq, lastIndex_eq by done. rewrite (proj2 (Z.ltb_ge _ _)) by lia. rewrite (u64_small (_ + 1)) by mach.
  assert (exists ents, slice st (n_log n) (p_nextIndex p) (log_last st (n_log n) + 1) (n_maxSizePerMsg n) = Some ents)
    as [ents ->].
  { destruct (decide (p_nextIndex p = log_last st (n_log n) + 1)) as [->|Hlt].
    - unfold slice. rewrite (proj2 (Z.leb_le _ _)) by lia. eauto.
    - destruct (slice_eq st (n_log n) Hok (p_nextIndex p) (log_last st (n_log n) + 1) (n_maxSizePerMsg n)) as (k & -> & _);
        [|lia..|eauto]. apply Hsy. intros E0. unfold log_last in *. rewrite E0 in *. simpl in *. lia. }
  destruct (_ && negb _); [by exists n|]. set (track := _ && negb _).
  destruct (track && full (p_inflights p)) eqn:Ef; [by exists n|].
  assert (exists p1, (if track then i ← add (p_inflights p) (match last ents with Some e => e_index e | None => 0 end);
      Some (set_inflights i p) else Some p) = Some p1 /\ core_of p1 = core_of p /\ inflights_ok (p_inflights p1))
    as (p1 & -> & Ec & Hin1).
  { destruct track; [|by exists p]. unfold full in Ef. cbn [andb] in Ef. apply bool_decide_eq_false in Ef.
    destruct (add_queue (p_inflights p) (match last ents with Some e => e_index e | None => 0 end) Hin) as (i & -> & Hi & _).
    - destruct Hin. lia.
    - eexists. split; [done|]. by split. }
  cbn [mbind option_bind]. rewrite (u64_small (_ - 1)) by mach. rewrite term_any by (done || lia). cbn [mbind option_bind].
  set (p2 := if bool_decide (p_state p1 = Probe) then set_paused true p1 else p1).
  assert (core_of p2 = core_of p /\ inflights_ok (p_inflights p2)) as [Ec2 Hin2] by (unfold p2; by case_bool_decide).
  eexists. split; [done|]. split_and!.
  - constructor; try done; [by eapply (view_alter n to p p2)|by apply prefix_app_r].
  - constructor; try done; [by eapply pr_sorted_alter|].
    intros k q Hk. destruct (decide (k = to)) as [->|Hne].
    + cbn [n_pr set_pr set_repl send set_msgs set_output] in Hk. rewrite sm_find_alter, E in Hk. injection Hk as <-.
      unfold core_of in Ec2. injection Ec2 as Em En Es. rewrite Es, En. done.
    + apply (Hp k). rewrite <- Hk. symmetry. by apply pr_find_other.
  - intros k Hne. by apply pr_find_other.
Qed.

(** Sending to all peers returns, and every peer's turn comes with its
    progress as it was. *)
Lemma send_to_all st (ids : list Z) : forall n,
  NoDup ids -> sender st n ->
  exists n', foldl (fun acc id => n ← acc; if id =? n_id n then Some n else sendAppend st n id) (Some n) ids = Some n'
    /\ alike n n' /\ sender st n' /\ (forall j, j ∉ ids -> pr_find j (n_pr n') = pr_find j (n_pr n))
    /\ forall j, j ∈ ids -> j <> n_id n -> exists n0 n1, alike n n0 /\ sender st n0
        /\ pr_find j (n_pr n0) = pr_find j (n_pr n) /\ sendAppend st n0 j = Some n1
        /\ n_msgs n1 `prefix_of` n_msgs n' /\ pr_find j (n_pr n') = pr_find j (n_pr n1).
Proof.
  induction ids as [|id ids IH]; intros n Hnd Hs.
  { exists n. split_and!; [done|done|done|done|]. intros j Hj. by apply not_elem_of_nil in Hj. }
  apply NoDup_cons in Hnd as [Hni Hnd]. cbn [foldl mbind option_bind].
  assert (exists n1, (if id =? n_id n then Some n else sendAppend st n id) = Some n1 /\ alike n n1 /\ sender st n1
    /\ (forall k, k <> id -> pr_find k (n_pr n1) = pr_find k (n_pr n))) as (n1 & E1 & H1 & Hs1 & Hk1).
  { destruct (id =? n_id n); [by exists n|by apply sendAppend_alike]. }
  rewrite E1. destruct (IH n1 Hnd Hs1) as (n' & E' & H' & Hs' & Ho' & Hj'). exists n'.
  split_and!; [done|by etransitivity|done|intros j Hj; rewrite Ho' by set_solver; apply Hk1; set_solver|]. intros j [->|Hj]%elem_of_cons Hne.
  - rewrite (proj2 (Z.eqb_neq _ _)) in E1 by done. exists n, n1. split_and!; [done|done|done|done|apply H'|by apply Ho'].
  - destruct (Hj' j Hj) as (n2 & n3 & H2 & Hs2 & Ep & E3 & Hpre & Ef); [by rewrite (al_id _ _ H1)|].
    exists n2, n3. split_and!; [by etransitivity|done| |done|done|done].
    rewrite Ep. apply Hk1. intros ->. done.
Qed.

Lemma pr_keys_nodup (m : list (Z * Progress)) : sm_sorted Z.ltb m -> NoDup m.*1.
Proof.
  unfold sm_sorted. induction 1 as [|k l _ IH Hf]; [constructor|]. constructor; [|done].
  intros Hk. rewrite Forall_forall in Hf. specialize (Hf k Hk). by rewrite Z.ltb_irrefl in Hf.
Qed.

Lemma pr_find_key k p (m : list (Z * Progress)) : pr_find k m = Some p -> k ∈ m.*1.
Proof. intros (m1 & m2 & -> & _)%pr_split. rewrite fmap_app, fmap_cons. set_solver. Qed.

Lemma broadcastAppend_alike st n :
  sender st n -> exists n', broadcastAppend st n = Some n' /\ alike n n' /\ sender st n'
    /\ forall j p, pr_find j (n_pr n) = Some p -> j <> n_id n -> exists n0 n1, alike n n0 /\ sender st n0
        /\ pr_find j (n_pr n0) = Some p /\ sendAppend st n0 j = Some n1
        /\ n_msgs n1 `prefix_of` n_msgs n' /\ pr_find j (n_pr n') = pr_find j (n_pr n1).
Proof.
  intros Hs. destruct (send_to_all st (n_pr n).*1 n) as (n' & E & H' & Hs' & _ & Hj); [apply pr_keys_nodup, Hs|done|].
  exists n'. split_and!; [done..|]. intros j p Hp Hne.
  destruct (Hj j) as (n0 & n1 & ? & ? & Ep & ? & ? & ?); [by eapply pr_find_key|done|].
  exists n0, n1. split_and!; [done|done|by rewrite Ep|done..].
Qed.

(** *** Proposing *)

(** The message that brings the last entry to a peer that has all before. *)
Lemma sendAppend_last st n to p e L :
  sender st n -> pr_find to (n_pr n) = Some p -> p_state p = Replicate -> p_paused p = false ->
  full (p_inflights p) = false -> p_nextIndex p = log_last st (n_log n) ->
  log_list st (n_log n) = L ++ [e] ->
  exists n', sendAppend st n to = Some n'
    /\ n_msgs n' = n_msgs n ++
        [mkMessage MsgApp to (n_id n) (n_term n) (term_at st (n_log n) (log_last st (n_log n) - 1))
           (log_last st (n_log n) - 1) (commitIndex (n_log n)) false 0 [e] empty_snapshot []]
    /\ exists i, add (p_inflights p) (e_index e) = Some i /\ pr_find to (n_pr n') = Some (set_inflights i p).
Proof.
  intros Hs E Hst Hpa Hfu Hnx EL. pose proof Hs as [Hok Hsy Hns Hl Hso Hp].
  destruct (Hp to p E) as (Hin & _ & Hr). pose proof (log_first_range _ _ Hok) as Hf.
  unfold sendAppend. rewrite E, Hpa, Hst, firstIndex_eq, lastIndex_eq by done.
  rewrite (proj2 (Z.ltb_ge _ _)) by lia. rewrite (u64_small (_ + 1)) by mach.
  destruct (slice_eq st (n_log n) Hok (p_nextIndex p) (log_last st (n_log n) + 1) (n_maxSizePerMsg n)) as (k & -> & _);
    [apply Hsy; rewrite EL; by destruct L|lia..|].
  assert (take (S k) (log_slice (log_first st (n_log n)) (p_nextIndex p) (log_last st (n_log n) + 1)
    (log_list st (n_log n))) = [e]) as ->.
  { unfold log_slice. rewrite Hnx, EL. replace (Z.to_nat (log_last st (n_log n) - log_first st (n_log n))) with (length L).
    - rewrite drop_app_length. replace (Z.to_nat _) with 1%nat by lia. simpl. by rewrite take_nil.
    - unfold log_last. rewrite EL, length_app. simpl. lia. }
  change (bool_decide ([e] = [])) with false. change (bool_decide (Replicate = Replicate)) with true.
  change (bool_decide (Replicate = SnapshotState)) with false. cbn [andb negb]. rewrite Hfu.
  apply bool_decide_eq_false in Hfu. destruct (add_queue (p_inflights p) (e_index e) Hin) as (i & Ei & _).
  { destruct Hin. lia. }
  cbn [last]. rewrite Ei. cbn [mbind option_bind]. rewrite Hnx, (u64_small (_ - 1)) by mach.
  rewrite term_any by (done || lia). cbn [mbind option_bind]. eexists. split_and!; [done|done|].
  exists i. split; [done|]. cbn [n_pr send set_msgs set_output set_pr set_repl]. rewrite sm_find_alter, E.
  cbn [fmap option_fmap option_map p_state set_inflights]. by rewrite Hst.
Qed.

(** A peer that has everything is sent nothing. *)
Lemma sendAppend_nothing st n to p :
  sender st n -> pr_find to (n_pr n) = Some p -> p_state p = Replicate -> p_nextIndex p = log_last st (n_log n) + 1 ->
  sendAppend st n to = Some n.
Proof.
  intros [Hok _ _ Hl _ _] E Hst Hnx. pose proof (log_first_range _ _ Hok) as Hf. unfold sendAppend. rewrite E, Hst.
  destruct (p_paused p); [done|]. change (bool_decide (Replicate = SnapshotState)) with false. cbv iota.
  rewrite firstIndex_eq, lastIndex_eq, Hnx, (u64_small (_ + 1)) by (done || (unfold log_last in *; mach)).
  rewrite (proj2 (Z.ltb_ge _ _)) by (unfold log_last; lia). unfold slice. by rewrite Z.leb_refl.
Qed.

(** The entry after the last one. *)
Lemma append_next st l e :
  raftlog_ok st l -> no_stale st l -> e_index e = log_last st l + 1 -> log_last st l + 1 < 2 ^ 62 ->
  let l' := set_unstable (u_append (rl_unstable l) [e]) l in
  raftlog_ok st l' /\ no_stale st l' /\ synced st l' /\ log_first st l' = log_first st l
  /\ log_list st l' = log_list st l ++ [e] /\ log_last st l' = log_last st l + 1.
Proof.
  intros Hok Hns Hix Hb l'. pose proof (log_first_range _ _ Hok) as Hf.
  assert (log_first st l <= e_index e <= log_last st l + 1) as Hr by (rewrite Hix; unfold log_last; lia).
  destruct (append_list st l Hok e []) as (Hok' & Hf' & EL);
    [by apply contiguous_cons; split; [|apply contiguous_nil]|done|cbn [length]; lia|]. fold l' in Hok', Hf', EL.
  assert (log_list st l' = log_list st l ++ [e]) as EL'.
  { rewrite EL. f_equal. apply take_ge. rewrite Hix. unfold log_last. lia. }
  assert (log_last st l' = log_last st l + 1) as Hl'.
  { unfold log_last. rewrite Hf', EL', length_app. simpl. lia. }
  split_and!; [done|unfold no_stale in *; lia| |done|done|done].
  intros Hnil. exfalso. unfold l', u_append, truncateAndAppend in Hnil. cbn [rl_unstable set_unstable] in Hnil.
  destruct (u_entries (rl_unstable l)) as [|x xs]; [done|]. repeat case_match; try done.
  by apply app_eq_nil in Hnil as [_ ?].
Qed.

Lemma u_append_kept u es :
  u_snapshot (u_append u es) = u_snapshot u
  /\ forall P, Forall P (u_entries u) -> Forall P es -> Forall P (u_entries (u_append u es)).
Proof.
  unfold u_append, truncateAndAppend. split; [by repeat case_match|]. intros P Hu Hes.
  destruct es; [done|]. destruct (u_entries u); [done|]. destruct (_ <=? _); [done|]. destruct (_ <? _); [done|].
  apply Forall_app. split; [by apply Forall_take|done].
Qed.

Lemma term_at_last_next st l : term_at st l (log_last st l + 1) = 0.
Proof.
  unfold term_at, log_lookup. destruct (_ <? _); [done|]. rewrite lookup_ge_None_2; [done|]. unfold log_last. lia.
Qed.

Lemma maybeAppend_next st l e lc :
  raftlog_ok st l -> no_stale st l -> e_index e = log_last st l + 1 -> log_last st l + 1 < 2 ^ 62 ->
  1 <= e_term e -> 0 <= rl_committed l <= log_last st l ->
  maybeAppend st l (log_last st l) (term_at st l (log_last st l)) lc [e]
  = Some (true, mkRaftLog (u_append (rl_unstable l) [e])
                  (if rl_committed l <? lc then Z.min lc (log_last st l + 1) else rl_committed l) (rl_applied l)).
Proof.
  intros Hok Hns Hix Hb Ht Hc. pose proof (log_first_range _ _ Hok) as Hf.
  assert (log_first st l - 1 <= log_last st l) by (unfold log_last; lia).
  unfold maybeAppend. rewrite term_any by (done || lia). cbn [mbind option_bind]. rewrite Z.eqb_refl. cbn [negb].
  cbn [findConflict]. rewrite Hix, term_any, term_at_last_next by (done || lia). cbn [mbind option_bind].
  rewrite (proj2 (Z.eqb_neq 0 (e_term e))) by lia. cbn [negb mbind option_bind].
  rewrite (proj2 (Z.eqb_neq (log_last st l + 1) 0)), (proj2 (Z.leb_gt (log_last st l + 1) _)) by lia.
  rewrite (u64_small (log_last st l + 1 - log_last st l)), (u64_small (_ - 1)) by mach.
  replace (log_last st l + 1 - log_last st l - 1) with 0 by lia. cbn [length Z.of_nat]. cbn [mbind option_bind].
  rewrite (u64_small (log_last st l + 1)) by mach. change (drop (Z.to_nat 0) [e]) with [e].
  change (Z.of_nat 1 <? 0) with false. cbn [mbind option_bind rl_committed set_unstable]. by destruct (_ <? _).
Qed.

(** The leader's own entry in the map. *)
Lemma self_progress_sender st n p0 :
  raftlog_ok st (n_log n) -> (log_list st (n_log n) <> [] -> synced st (n_log n)) -> no_stale st (n_log n) ->
  log_last st (n_log n) < 2 ^ 62 -> sm_sorted Z.ltb (n_pr n) -> pr_find (n_id n) (n_pr n) = Some p0 ->
  (forall k p, pr_find k (n_pr n) = Some p -> inflights_ok (p_inflights p) /\ p_state p <> SnapshotState
     /\ log_first st (n_log n) <= p_nextIndex p <= log_last st (n_log n) + 1) ->
  sender st (self_progress st n)
  /\ (forall k, k <> n_id n -> pr_find k (n_pr (self_progress st n)) = pr_find k (n_pr n))
  /\ is_Some (pr_find (n_id n) (n_pr (self_progress st n))).
Proof.
  intros Hok Hsy Hns Hl Hso Hp0 Hp. pose proof (log_first_range _ _ Hok) as Hf.
  assert (log_first st (n_log n) - 1 <= log_last st (n_log n)) by (unfold log_last; lia).
  unfold self_progress. rewrite (sm_index_alter Z.ltb), Hp0 by (done || apply ltb_total || apply Z.ltb_irrefl || (intros ? ? ?; lia)).
  rewrite lastIndex_eq, (u64_small (_ + 1)) by (done || mach).
  split_and!; [|intros k Hk; by apply pr_find_other|cbn; rewrite sm_find_alter, Hp0; eauto].
  constructor; try done; [by eapply pr_sorted_alter|]. intros k p Hk. cbn [n_log n_pr set_pr set_repl] in *.
  destruct (decide (k = n_id n)) as [->|Hne]; [|rewrite pr_find_other in Hk by done; by apply (Hp k)].
  rewrite sm_find_alter, Hp0 in Hk. injection Hk as <-. destruct (Hp _ _ Hp0) as (? & ? & _). simpl. split_and!; [done|done|lia|lia].
Qed.

(** A peer that has everything and is sent entries as they come. *)
Definition current st n (p : Progress) : Prop :=
  p_state p = Replicate /\ p_paused p = false /\ full (p_inflights p) = false
  /\ p_nextIndex p = log_last st (n_log n) + 1 /\ p_matchIndex p <= log_last st (n_log n).

Definition new_entry st n (data : bytes) : Entry :=
  mkEntry (n_term n) (log_last st (n_log n) + 1) Normal data.

(** The message that carries it. *)
Definition carrier st n (to : Z) (data : bytes) : Message :=
  mkMessage MsgApp to (n_id n) (n_term n) (term_at st (n_log n) (log_last st (n_log n)))
    (log_last st (n_log n)) (commitIndex (n_log n)) false 0 [new_entry st n data] empty_snapshot [].

Lemma propose_sends st n data p0 j p :
  sender st n -> log_last st (n_log n) + 1 < 2 ^ 62 -> n_role n = Leader ->
  pr_find (n_id n) (n_pr n) = Some p0 -> pr_find j (n_pr n) = Some p -> j <> n_id n -> current st n p ->
  commitIndex (n_log n) <= log_last st (n_log n) ->
  exists n1, propose st n data = Some (true, n1) /\ sender st n1
    /\ alike (self_progress st (set_log (set_unstable (u_append (rl_unstable (n_log n)) [new_entry st n data]) (n_log n)) n)) n1
    /\ (forall k, k <> n_id n -> sm_find Z.ltb k (view n1) = sm_find Z.ltb k (view n))
    /\ is_Some (sm_find Z.ltb (n_id n) (view n1)) /\ carrier st n j data ∈ n_msgs n1
    /\ exists i, add (p_inflights p) (log_last st (n_log n) + 1) = Some i /\ pr_find j (n_pr n1) = Some (set_inflights i p).
Proof.
  intros Hs Hb Hr Hp0 Hp Hj (Hst & Hpa & Hfu & Hnx & Hm) Hc. pose proof Hs as [Hok Hsy Hns Hl Hso Hpe].
  pose proof (log_first_range _ _ Hok) as Hf. set (e := new_entry st n data) in *.
  destruct (append_next st (n_log n) e Hok Hns eq_refl Hb) as (Hok' & Hns' & Hsy' & Hf' & EL & Hl').
  set (l' := set_unstable _ _) in *. unfold propose. rewrite bool_decide_eq_true_2 by done. cbn [negb].
  rewrite lastIndex_eq, (u64_small (_ + 1)) by (done || (unfold log_last in *; mach)). change (mkEntry _ _ _ _) with e.
  assert ((append st (n_log n) [e]).2 = l') as Ea.
  { unfold append. change (e_index e) with (log_last st (n_log n) + 1). rewrite u64_small by (unfold log_last in *; mach).
    unfold commitIndex in Hc. by rewrite (proj2 (Z.ltb_ge _ _)) by lia. }
  rewrite Ea. destruct (self_progress_sender st (set_log l' n) p0) as (Hs1 & Hk1 & Hi1); try done.
  { cbn [n_log set_log set_repl]. lia. }
  { intros k q Hq. destruct (Hpe k q Hq) as (? & ? & ?). cbn [n_log set_log set_repl]. rewrite Hf', Hl'. split_and!; [done|done|lia|lia]. }
  set (nb := self_progress st (set_log l' n)) in *.
  destruct (broadcastAppend_alike st nb Hs1) as (n1 & -> & H1 & Hs2 & Hall). cbn [mbind option_bind].
  exists n1. split; [done|]. split; [done|]. split; [done|]. split; [|split].
  { intros k Hk. rewrite (al_view _ _ H1), !find_view. f_equal. by apply Hk1. }
  { rewrite (al_view _ _ H1), find_view. destruct Hi1 as [x Hx]. change (n_id n) with (n_id (set_log l' n)).
    rewrite Hx. simpl. eauto. }
  destruct (Hall j p) as (n0 & n2 & H0' & Hs0 & Ep & E2 & Hpre & Ef); [by rewrite Hk1|done|].
  assert (n_log nb = l') as Elb by done.
  assert (n_log n0 = l') as El0 by (rewrite (al_log _ _ H0'); exact Elb).
  destruct (sendAppend_last st n0 j p e (log_list st (n_log n))) as (n3 & E3 & Em & Hadd); try done.
  { by rewrite El0, Hl'. } { by rewrite El0. }
  rewrite E2 in E3. injection E3 as <-. rewrite El0, Hl', Z.add_simpl_r in Em.
  rewrite (al_id _ _ H0'), (al_term _ _ H0') in Em.
  assert (term_at st l' (log_last st (n_log n)) = term_at st (n_log n) (log_last st (n_log n))) as Et.
  { unfold term_at. rewrite Hf', EL. f_equal. f_equal. unfold log_lookup. case_match; [done|].
    apply lookup_app_l. unfold log_last in *. lia. }
  rewrite <- Ef in Hadd. split; [|exact Hadd].
  destruct Hpre as [ms ->]. rewrite Em, Et. apply elem_of_app. left. apply elem_of_app. right. by apply list_elem_of_singleton.
Qed.

(** *** The follower *)

(** A follower of the leader's term with the leader's log. *)
Record in_step st n (st' : St) f : Prop := {
  is_follower : n_role f = Follower;
  is_term : n_term f = n_term n;
  is_log : raftlog_ok st' (n_log f);
  is_stale : no_stale st' (n_log f);
  is_first : log_first st' (n_log f) = log_first st (n_log n);
  is_list : log_list st' (n_log f) = log_list st (n_log n);
  is_committed : 0 <= commitIndex (n_log f) <= log_last st (n_log n)
}.

(** The acknowledgement. *)
Definition ack st n (from : Z) : Message :=
  mkMessage MsgAppResp (n_id n) from (n_term n) 0 (log_last st (n_log n) + 1) 0 false 0 [] empty_snapshot [].

(** The follower's log with the entry, and with the leader's commit index. *)
Definition taken st n data st' f : RaftLog :=
  mkRaftLog (u_append (rl_unstable (n_log f)) [new_entry st n data])
    (if commitIndex (n_log f) <? commitIndex (n_log n)
     then Z.min (commitIndex (n_log n)) (log_last st' (n_log f) + 1) else commitIndex (n_log f))
    (rl_applied (n_log f)).

Lemma follower_takes st n data st' f :
  in_step st n st' f -> 1 <= n_term n -> log_last st (n_log n) + 1 < 2 ^ 62 -> 1 <= log_first st (n_log n) ->
  step st' f (carrier st n (n_id f) data)
  = Some (send (set_log (taken st n data st' f) (set_tick 0 (set_lead (n_id n) f))) (ack st n (n_id f)))
  /\ raftlog_ok st' (taken st n data st' f) /\ no_stale st' (taken st n data st' f)
  /\ synced st' (taken st n data st' f) /\ log_first st' (taken st n data st' f) = log_first st' (n_log f)
  /\ log_list st' (taken st n data st' f) = log_list st (n_log n) ++ [new_entry st n data].
Proof.
  intros [Hr Ht Hok Hns Ef EL Hc] Hterm Hb Hf1.
  assert (log_last st' (n_log f) = log_last st (n_log n)) as El by (unfold log_last; by rewrite Ef, EL).
  assert (0 <= log_last st (n_log n)) by (unfold log_last; lia).
  destruct (append_next st' (n_log f) (new_entry st n data)) as (Hok' & Hns' & Hsy' & Hf' & EL' & _);
    [done|done|by rewrite El|lia|]. split; [|split_and!; try done; by rewrite <- EL].
  unfold step. cbn [carrier m_type m_term]. cbv zeta. rewrite Ht, Z.ltb_irrefl, Ht, Z.ltb_irrefl, Hr.
  unfold stepFollower. cbn [carrier m_type m_term m_from m_index m_logTerm m_commit m_entries].
  pose proof (maybeAppend_next st' (n_log f) (new_entry st n data) (commitIndex (n_log n))) as E.
  assert (term_at st' (n_log f) (log_last st' (n_log f)) = term_at st (n_log n) (log_last st (n_log n))) as Et
    by (unfold term_at; by rewrite Ef, EL, El).
  rewrite Et, El in E. cbn [n_log set_tick set_timing set_lead set_election].
  cbv zeta. rewrite E; [|done|done|done|lia|done|done]. cbn [mbind option_bind]. unfold taken, ack. rewrite El.
  cbn [n_id n_term set_log set_repl set_tick set_timing set_lead set_election length Z.of_nat].
  by rewrite Ht, u64_small by mach.
Qed.

(** *** The acknowledgement *)

Lemma view_find n n' k p :
  view n' = view n -> pr_find k (n_pr n) = Some p ->
  exists q, pr_find k (n_pr n') = Some q /\ core_of q = core_of p.
Proof.
  intros Ev Hk. pose proof (find_view n' k) as E. rewrite Ev, find_view, Hk in E. simpl in E.
  destruct (pr_find k (n_pr n')) as [q|]; [|done]. exists q. simpl in E. split; congruence.
Qed.

(** Two members that hold [z]. *)
Lemma at_least_two {A} (g : A -> Z) z x y (m : list A) :
  x ∈ m -> y ∈ m -> x <> y -> z <= g x -> z <= g y -> (2 <= at_least z (g <$> m))%nat.
Proof.
  intros (m1 & E1)%elem_of_Permutation Hy Hne Hgx Hgy.
  assert (y ∈ m1) as (m2 & E2)%elem_of_Permutation.
  { rewrite E1 in Hy. apply elem_of_cons in Hy as [?|?]; congruence. }
  assert (at_least z (g <$> m) = at_least z (g <$> x :: y :: m2)) as ->
    by (unfold at_least; by rewrite E1, E2).
  rewrite !fmap_cons, !at_least_cons, !decide_True by done. lia.
Qed.

Lemma at_least_max z b l : Forall (fun x => x <= b) l -> (1 <= at_least z l)%nat -> z <= b.
Proof.
  intros Hl Hz. destruct (decide (z <= b)); [done|]. rewrite at_least_none in Hz; [lia|].
  eapply Forall_impl; [exact Hl|]. simpl. lia.
Qed.

(** A leader as it goes on after proposing: polling, persisting and
    advancing keep all of this. *)
Record resumes st n st' n' : Prop := {
  re_sender : sender st' n';
  re_first : log_first st' (n_log n') = log_first st (n_log n);
  re_list : log_list st' (n_log n') = log_list st (n_log n);
  re_commit : commitIndex (n_log n') = commitIndex (n_log n);
  re_id : n_id n' = n_id n;
  re_role : n_role n' = n_role n;
  re_term : n_term n' = n_term n;
  re_voters : n_voters n' = n_voters n;
  re_view : view n' = view n
}.

(** The leader [n] holds [last] entries, the last of its own term, and peer
    [j] now reports that it holds them too. *)
Section Ack.
Context st n (j : Z) (q : Progress) (last : Z).
Context (Hs : sender st n) (Hlast : log_last st (n_log n) = last) (Hpos : 0 <= last).
Context (Hid : exists p0, pr_find (n_id n) (n_pr n) = Some p0).
Context (Hj : pr_find j (n_pr n) = Some q) (Hne : j <> n_id n) (Hst : p_state q = Replicate).
Context (Hmatch : forall k p, k <> n_id n -> pr_find k (n_pr n) = Some p -> p_matchIndex p <= last).

Let acked (i : Inflights) : Progress := set_inflights i (set_match_next last (last + 1) q).
Let n1 (i : Inflights) : RawNode := set_pr (pr_alter (fun _ => acked i) j (n_pr n)) n.

Lemma acked_sender i : inflights_ok i -> sender st (n1 i).
Proof using Hs Hlast Hj Hst.
  intros Hi. destruct Hs as [Hok Hsy Hns Hl Hso Hp]. constructor; try done; [by eapply pr_sorted_alter|].
  intros k p Hk. cbn [n1 n_pr set_pr set_repl n_log] in *. destruct (decide (k = j)) as [->|Hkj].
  - rewrite sm_find_alter, Hj in Hk. injection Hk as <-. simpl. rewrite Hst. destruct (Hp j q Hj) as (_ & _ & Hr).
    pose proof (log_first_range _ _ Hok). split_and!; [done|done|lia|lia].
  - rewrite pr_find_other in Hk by done. by apply (Hp k).
Qed.

Lemma acked_held i :
  (2 <= at_least last (held st (n1 i)))%nat /\ Forall (fun x => x <= last) (held st (n1 i)).
Proof using Hs Hlast Hid Hj Hne Hmatch Hst Hpos.
  pose proof Hs as [Hok _ _ Hl Hso _]. destruct Hid as [p0 Hp0]. unfold held.
  assert (sm_sorted Z.ltb (n_pr (n1 i))) as Hso' by (by eapply pr_sorted_alter).
  assert (forall k p, pr_find k (n_pr (n1 i)) = Some p -> (k, p) ∈ n_pr (n1 i)) as Hin.
  { intros k p (m1 & m2 & -> & _)%pr_split. set_solver. }
  assert (pr_find j (n_pr (n1 i)) = Some (acked i)) as Hj' by (cbn; by rewrite sm_find_alter, Hj).
  assert (pr_find (n_id n) (n_pr (n1 i)) = Some p0) as H0' by (cbn; by rewrite pr_find_other).
  change (n_id (n1 i)) with (n_id n). change (n_log (n1 i)) with (n_log n).
  rewrite lastIndex_eq, Hlast by done. split.
  - apply (at_least_two _ _ (n_id n, p0) (j, acked i)); [by apply Hin..|congruence|by rewrite Z.eqb_refl|].
    rewrite (proj2 (Z.eqb_neq j _)) by done. simpl. lia.
  - apply Forall_fmap, Forall_forall. intros [k p] Hk. simpl. destruct (Z.eqb_spec k (n_id n)) as [|Hkn]; [lia|].
    apply (sm_find_elem Z.ltb ltb_total Z.ltb_irrefl) in Hk; [|done]. destruct (decide (k = j)) as [->|Hkj].
    + rewrite Hj' in Hk. injection Hk as <-. simpl. lia.
    + cbn in Hk. rewrite pr_find_other in Hk by done. by eapply Hmatch.
Qed.

(** After the commit it sends on, to peer [j] nothing. *)
Lemma commit_sends i :
  inflights_ok i ->
  let n2 := set_log (set_committed last (n_log n)) (n1 i) in
  exists n', (n3 ← broadcastAppend st n2;
      match pr_find j (n_pr n3) with
      | Some pr => if bool_decide (p_state pr = Replicate) then sendAppend st n3 j else Some n3
      | None => Some n3
      end) = Some n' /\ alike n2 n' /\ sender st n' /\ pr_find j (n_pr n') = Some (acked i)
    /\ (forall k p, k <> n_id n -> pr_find k (n_pr n') = Some p -> p_matchIndex p <= last)
    /\ is_Some (pr_find (n_id n) (n_pr n')).
Proof using Hs Hlast Hid Hj Hne Hmatch Hst Hpos.
  intros Hi n2. assert (sender st n2) as Hs2 by (destruct (acked_sender i Hi); by constructor).
  destruct (broadcastAppend_alike st n2 Hs2) as (n3 & -> & H3 & Hs3 & Hjn3). cbn [mbind option_bind].
  assert (pr_find j (n_pr n2) = Some (acked i)) as Hj2 by (cbn; by rewrite sm_find_alter, Hj).
  assert (log_last st (n_log n2) = last) as Hl2 by done.
  assert (pr_find j (n_pr n3) = Some (acked i)) as Hj3.
  { destruct (Hjn3 j (acked i) Hj2) as (n0 & n0' & Ha0 & Hs0 & Ep & E0 & _ & ->); [done|].
    rewrite (sendAppend_nothing st n0 j (acked i)) in E0; [by injection E0 as <-|done|done|done|].
    rewrite (al_log _ _ Ha0), Hl2. done. }
  rewrite Hj3. change (p_state (acked i)) with (p_state q). rewrite Hst.
  rewrite (sendAppend_nothing st n3 j (acked i)); [|done|done|done|by rewrite (al_log _ _ H3), Hl2].
  exists n3. split_and!; [done|done|done|done| |].
  - intros k p Hkn Hpk. destruct (view_find n3 n2 k p) as (x & Hx & Ecore); [by rewrite (al_view _ _ H3)|done|].
    unfold core_of in Ecore. injection Ecore as Em _ _. rewrite <- Em. cbn in Hx. destruct (decide (k = j)) as [->|Hkj].
    + rewrite sm_find_alter, Hj in Hx. injection Hx as <-. simpl. lia.
    + rewrite pr_find_other in Hx by done. by apply (Hmatch k).
  - destruct Hid as [p0 Hp0]. destruct (view_find n2 n3 (n_id n) p0) as (x & -> & _); [apply H3| |eauto].
    cbn. by rewrite pr_find_other.
Qed.

(** The node after the commit: it sends on and ends with the commit index
    at [last]. *)
Lemma ack_commits m :
  m_type m = MsgAppResp -> m_from m = j -> m_term m = n_term n -> m_index m = last -> m_reject m = false ->
  n_role n = Leader -> quorum n = 2%nat ->
  log_first st (n_log n) - 1 <= commitIndex (n_log n) < last -> term_at st (n_log n) last = n_term n ->
  exists pr n', step st n m = Some n' /\ alike (set_log (set_committed last (n_log n)) (set_pr pr n)) n' /\ sender st n'
    /\ (exists i, freeTo (p_inflights q) last = Some i /\ pr_find j (n_pr n') = Some (acked i))
    /\ (forall k p, k <> n_id n -> pr_find k (n_pr n') = Some p -> p_matchIndex p <= last)
    /\ is_Some (pr_find (n_id n) (n_pr n')).
Proof using Hs Hlast Hid Hj Hne Hmatch Hst Hpos.
  intros Hty Hfrom Hterm Hix Hrej Hr Hq Hc Ht. pose proof Hs as [Hok Hsy Hns Hl Hso Hp].
  destruct (Hp j q Hj) as (Hin & _). destruct (freeTo_queue (p_inflights q) last Hin) as (i & Ei & Hi & _).
  unfold step. rewrite Hty. cbv zeta. rewrite Hterm, !Z.ltb_irrefl, Hr. unfold stepLeader.
  rewrite Hty, Hfrom, Hj, Hrej, Hix. unfold update. rewrite Hst, Ei. cbn [mbind option_bind].
  rewrite (u64_small (last + 1)) by mach.
  assert (Z.max (p_matchIndex q) last = last) as -> by (specialize (Hmatch j q Hne Hj); lia).
  change (set_inflights i (set_match_next last (last + 1) q)) with (acked i).
  change (p_state (acked i)) with (p_state q). rewrite Hst.
  change (bool_decide (Replicate = Probe)) with false. cbv iota zeta. fold (n1 i).
  pose proof (acked_sender i Hi) as Hs1. destruct (acked_held i) as [Htwo Hall].
  destruct (maybeCommit_rule st (n1 i)) as (k & Hk & Hmax & Ec); [apply Hs1|apply Hs1|apply Hc| | |].
  { change (quorum (n1 i)) with (quorum n). rewrite Hq. etransitivity; [exact Htwo|]. unfold at_least, held.
    etransitivity; [apply length_filter|]. by rewrite length_fmap. }
  { eapply Forall_impl; [exact Hall|]. simpl. lia. }
  change (quorum (n1 i)) with (quorum n) in *. rewrite Hq in *.
  assert (k = last) as ->.
  { assert (k <= last) by (eapply at_least_max; [exact Hall|lia]). specialize (Hmax last Htwo). lia. }
  change (n_log (n1 i)) with (n_log n) in Ec. change (n_term (n1 i)) with (n_term n) in Ec.
  rewrite (proj2 (Z.ltb_lt (commitIndex (n_log n)) last)), Ht, Z.eqb_refl in Ec by lia. cbn [andb] in Ec.
  rewrite Ec. cbn [mbind option_bind]. destruct (commit_sends i Hi) as (n' & E' & Hal & Hs' & Hj' & Hm' & Hself).
  exists (n_pr (n1 i)), n'. split_and!; [exact E'|exact Hal|done|by exists i|done|done].
Qed.
End Ack.

(** A leader in good standing. *)
Record healthy st n : Prop := {
  he_sender : sender st n;
  he_role : n_role n = Leader;
  he_term : 1 <= n_term n;
  he_room : log_last st (n_log n) + 1 < 2 ^ 62;
  he_first : 1 <= log_first st (n_log n);
  he_commit : log_first st (n_log n) - 1 <= commitIndex (n_log n) <= log_last st (n_log n);
  he_self : exists p0, pr_find (n_id n) (n_pr n) = Some p0;
  he_match k p : k <> n_id n -> pr_find k (n_pr n) = Some p -> p_matchIndex p <= log_last st (n_log n)
}.

(** The leader [n2] goes on from [n1], which proposed, and gets the answer. *)
Lemma resumed_commits st n data j p n1 st2 n2 :
  healthy st n -> quorum n = 2%nat -> pr_find j (n_pr n) = Some p -> j <> n_id n -> current st n p ->
  let nb := self_progress st (set_log (set_unstable (u_append (rl_unstable (n_log n)) [new_entry st n data]) (n_log n)) n) in
  let L := log_list st (n_log n) ++ [new_entry st n data] in
  alike nb n1 -> (forall k, k <> n_id n -> sm_find Z.ltb k (view n1) = sm_find Z.ltb k (view n)) ->
  is_Some (sm_find Z.ltb (n_id n) (view n1)) -> resumes st n1 st2 n2 ->
  exists pr n3, step st2 n2 (ack st n j) = Some n3 /\ log_list st2 (n_log n2) = L
    /\ alike (set_log (set_committed (log_last st (n_log n) + 1) (n_log n2)) (set_pr pr n2)) n3
    /\ (log_last st (n_log n) + 2 < 2 ^ 62 -> healthy st2 n3)
    /\ exists q i, pr_find j (n_pr n2) = Some q /\ freeTo (p_inflights q) (log_last st (n_log n) + 1) = Some i
         /\ pr_find j (n_pr n3) = Some (set_inflights i (set_match_next (log_last st (n_log n) + 1) (log_last st (n_log n) + 1 + 1) q)).
Proof.
  intros [Hs Hr Ht Hroom Hf1 Hc _ Hm] Hq Hp Hj (Hst & _ & _ & _ & Hmp) nb L Hal Hview Hself [Hs2 Hf2 Hl2 Hc2 Hi2 Hr2 Ht2 Hv2 Ev2].
  destruct (append_next st (n_log n) (new_entry st n data) (sd_log _ _ Hs) (sd_stale _ _ Hs) eq_refl Hroom)
    as (_ & _ & _ & Hf' & EL & _).
  pose proof Hal as [Elog Eid Erole Eterm Evo _ _ _]. cbn in Eid, Erole, Eterm, Evo.
  change (n_log nb) with (set_unstable (u_append (rl_unstable (n_log n)) [new_entry st n data]) (n_log n)) in Elog.
  rewrite Elog in *.
  assert (log_list st2 (n_log n2) = L) as EL2 by (by rewrite Hl2).
  assert (log_last st2 (n_log n2) = log_last st (n_log n) + 1) as Elast.
  { unfold log_last. rewrite Hf2, Hf', EL2. unfold L. rewrite length_app. simpl. lia. }
  assert (forall k, k <> n_id n -> core_of <$> pr_find k (n_pr n2) = core_of <$> pr_find k (n_pr n)) as Hcore.
  { intros k Hk. by rewrite <- !find_view, Ev2, Hview. }
  assert (exists q, pr_find j (n_pr n2) = Some q /\ p_state q = Replicate) as (q & Hq2 & Est).
  { pose proof (Hcore j Hj) as E. rewrite Hp in E. apply fmap_Some in E as (q & Hq2 & E). exists q.
    unfold core_of in E. split; congruence. }
  destruct (ack_commits st2 n2 j q (log_last st (n_log n) + 1)) with (m := ack st n j)
    as (pr & n3 & E3 & Hal3 & Hs3 & (i & Hi & Hj3) & Hm3 & Hself3); try done; try congruence.
  - lia.
  - rewrite Hi2, Eid. destruct Hself as [x Hx]. rewrite <- Ev2, find_view in Hx. apply fmap_Some in Hx as (y & Hy & _). eauto.
  - intros k x Hk Hx. rewrite Hi2, Eid in Hk. pose proof (Hcore k Hk) as E. rewrite Hx in E. symmetry in E.
    apply fmap_Some in E as (y & Hy & E). specialize (Hm k y Hk Hy). unfold core_of in E. injection E as -> _ _. lia.
  - simpl. congruence.
  - unfold quorum in *. by rewrite Hv2, Evo.
  - rewrite Hf2, Hf', Hc2. unfold commitIndex in *. cbn [rl_committed set_unstable]. lia.
  - unfold term_at, log_lookup. rewrite Hf2, Hf', EL2, (proj2 (Z.ltb_ge _ _)) by lia. unfold L.
    rewrite lookup_app_r by (unfold log_last; lia). replace (_ - _)%nat with 0%nat by (unfold log_last; lia). simpl. congruence.
  - exists pr, n3. split_and!; [done|done|done| |by exists q, i]. intros Hroom2.
    pose proof Hal3 as [Elog3 Eid3 Erole3 Eterm3 _ _ _ _ _ _]. cbn in Elog3, Eid3, Erole3, Eterm3.
    assert (log_last st2 (n_log n3) = log_last st (n_log n) + 1) as El3 by (rewrite Elog3; exact Elast).
    assert (log_first st2 (n_log n3) = log_first st (n_log n)) as Ef3 by (rewrite Elog3; by rewrite <- Hf', <- Hf2).
    constructor; rewrite ?El3, ?Ef3, ?Eid3; [done|congruence|by rewrite Eterm3, Ht2, Eterm|lia|done| |done|done].
    rewrite Elog3. unfold commitIndex in *. cbn. lia.
Qed.

End Replication.

(** ** A round of the three replicas *)

#[local] Existing Instance rt_platform.
#[local] Existing Instance rt_draws.

(** Replica 1 leads and replica 2 has acknowledged its two entries. *)
Definition warm_up : list raction :=
  [RTick 1; RTick 1; RTick 1] ++ cycle 1 ++ [RDeliver 0] ++ cycle 2 ++ [RDeliver 2] ++ cycle 1
  ++ [RDeliver 3] ++ cycle 2 ++ [RPropose 1 [7]; RPropose 1 [8]] ++ cycle 1 ++ [RDeliver 5] ++ cycle 1
  ++ [RDeliver 6] ++ cycle 2 ++ [RDeliver 7] ++ cycle 1.

Definition warm (i : Z) : Replica := rt_replica (rt_after warm_up) i.

(** Replica 1 after a proposal, and after it has written and sent it. *)
Definition proposed : Replica := rt_replica (rt_after (warm_up ++ [RPropose 1 [9]])) 1.
Definition persisted_round : Replica := rt_replica (rt_after (warm_up ++ [RPropose 1 [9]] ++ cycle 1)) 1.

Lemma rt_log_ok acts i r :
  (exists W, run (rexec rt_config) rt_fresh acts = Some W /\ wd_replicas W !! i = Some r) ->
  raftlog_ok (rp_wal r) (n_log (rp_node r)).
Proof.
  intros (W & Hrun & Hi).
  destruct (replica_reachable_inv [1; 2; 3] rt_nodup rt_u64 ltac:(simpl; lia) W (rt_reachable acts W Hrun)) as [h Hinv].
  destruct (ri_logs _ _ _ Hinv _ _ Hi) as ((_ & _ & (Hok & _) & _) & _). exact Hok.
Qed.

Lemma found_all (P : Progress -> Prop) pr k p :
  Forall (fun x : Z * Progress => P x.2) pr -> pr_find k pr = Some p -> P p.
Proof. intros Hall (m1 & m2 & -> & _)%pr_split. rewrite Forall_forall in Hall. apply (Hall (k, p)). set_solver. Qed.

(** What of [sender] can be computed. *)
Definition peer_fine (first last : Z) (p : Progress) : Prop :=
  inflights_ok (p_inflights p) /\ p_state p <> SnapshotState /\ first <= p_nextIndex p <= last + 1.

#[local] Instance peer_fine_dec first last p : Decision (peer_fine first last p).
Proof. unfold peer_fine, inflights_ok. apply _. Defined.

Lemma sender_check (w : WriteAheadLog) n :
  raftlog_ok w (n_log n) -> (log_list w (n_log n) <> [] -> synced w (n_log n)) -> no_stale w (n_log n) ->
  log_last w (n_log n) < 2 ^ 62 ->
  sm_sorted Z.ltb (n_pr n) ->
  bool_decide (Forall (fun x => peer_fine (log_first w (n_log n)) (log_last w (n_log n)) x.2) (n_pr n)) = true ->
  sender w n.
Proof.
  intros Hok Hsy Hns Hl Hso Hp%bool_decide_eq_true. constructor; try done. intros k p Hk. exact (found_all _ _ k p Hp Hk).
Qed.

Lemma warm_sender : sender (rp_wal (warm 1)) (rp_node (warm 1)).
Proof.
  apply sender_check; [|intros _; by vm_compute|by vm_compute|by vm_compute| |vm_compute; reflexivity].
  - apply (rt_log_ok warm_up 1). eexists. split; vm_compute; reflexivity.
  - unfold sm_sorted. vm_compute. repeat constructor.
Qed.

Lemma warm_values :
  n_term (rp_node (warm 1)) = 1 /\ log_first (rp_wal (warm 1)) (n_log (rp_node (warm 1))) = 1
  /\ log_last (rp_wal (warm 1)) (n_log (rp_node (warm 1))) = 2 /\ commitIndex (n_log (rp_node (warm 1))) = 2.
Proof. split_and!; vm_compute; reflexivity. Qed.

Lemma warm_healthy : healthy (rp_wal (warm 1)) (rp_node (warm 1)).
Proof.
  pose proof warm_values as (Et & Ef & El & Ec).
  constructor; [exact warm_sender|vm_compute; reflexivity|lia|lia|lia|lia| |].
  - eexists. vm_compute. reflexivity.
  - intros k p _ Hk. rewrite El. revert Hk. apply (found_all (fun x => p_matchIndex x <= 2)).
    apply (bool_decide_unpack _). vm_compute. exact I.
Qed.

Lemma warm_in_step : in_step (rp_wal (warm 1)) (rp_node (warm 1)) (rp_wal (warm 2)) (rp_node (warm 2)).
Proof.
  pose proof warm_values as (_ & _ & El & _).
  assert (commitIndex (n_log (rp_node (warm 2))) = 0) as Ec by (vm_compute; reflexivity).
  constructor; [vm_compute; reflexivity..| | |vm_compute; reflexivity|vm_compute; reflexivity|rewrite Ec, El; lia].
  - apply (rt_log_ok warm_up 2). eexists. split; vm_compute; reflexivity.
  - apply Z.leb_le. vm_compute. reflexivity.
Qed.

Lemma persisted_resumes :
  resumes (rp_wal (warm 1)) (rp_node proposed) (rp_wal persisted_round) (rp_node persisted_round).
Proof.
  constructor; [|vm_compute; reflexivity..].
  apply sender_check; [|intros _; by vm_compute|by vm_compute|by vm_compute| |vm_compute; reflexivity].
  - apply (rt_log_ok (warm_up ++ [RPropose 1 [9]] ++ cycle 1) 1). eexists. split; vm_compute; reflexivity.
  - unfold sm_sorted. vm_compute. repeat constructor.
Qed.

Lemma proposed_same (a b : RawNode) : Some (true, a) = Some (true, b) -> a = b.
Proof. congruence. Qed.

