(* ===== verification/Election.v ===== *)
(** * Winning an election

    The way to a new leader when nothing fails: a node whose clock has run
    out asks the others for their votes, a peer whose log is not ahead gives
    it its vote, and in a cluster of two or three the candidate becomes
    leader, with its log and the progress of its peers in the state
    [Replication] starts from.  Each call returns, whatever the logs and the
    storages are. *)

From S2P Require Import Prelude StdMap RaftTypes LogUnstable WriteAheadLog RaftLog Progress ReadOnly RawNode.
From S2P Require Import RaftLocal RaftReplica ReplicaTheorems Replication.

Section Election.
Context `{!Platform} `{!Random} {St : Type} `{!Storage St} `{!StorageLaws St}.
Implicit Types (st : St) (n f : RawNode).

(** ** Asking *)

(** What the candidate [c] asks of [to]. *)
Definition request st (c : RawNode) (to : Z) : Message :=
  mkMessage MsgVote to (n_id c) (n_term c) (term_at st (n_log c) (log_last st (n_log c))) (log_last st (n_log c))
    0 false 0 [] empty_snapshot [].

Lemma lastTerm_eq st l : raftlog_ok st l -> no_stale st l -> lastTerm st l = Some (term_at st l (log_last st l)).
Proof.
  intros Hok Hns. unfold lastTerm. rewrite lastIndex_eq by done. apply term_any; [done..|].
  pose proof (log_first_range _ _ Hok). pose proof (log_last_range _ _ Hok). lia.
Qed.

Lemma ask_all st (ids : list Z) : forall n,
  raftlog_ok st (n_log n) -> no_stale st (n_log n) ->
  exists ms, foldl (fun acc id =>
      n ← acc;
      if id =? n_id n then Some n else
      lt ← lastTerm st (n_log n);
      Some (send n (mkMessage MsgVote id (n_id n) (n_term n) lt (RaftLog.lastIndex st (n_log n)) 0 false 0 []
                      empty_snapshot []))) (Some n) ids = Some (set_msgs (n_msgs n ++ ms) n)
    /\ forall j, j ∈ ids -> j <> n_id n -> request st n j ∈ ms.
Proof.
  induction ids as [|id ids IH]; intros n Hok Hns; cbn [foldl mbind option_bind].
  { exists []. rewrite app_nil_r. split; [by destruct n|]. intros j Hj. by apply not_elem_of_nil in Hj. }
  destruct (Z.eqb_spec id (n_id n)) as [->|Hne].
  - destruct (IH n Hok Hns) as (ms & E & Hin). exists ms. split; [done|]. intros j [->|Hj]%elem_of_cons Hne; [done|by apply Hin].
  - rewrite lastTerm_eq, lastIndex_eq by done. cbn [mbind option_bind]. fold (request st n id).
    destruct (IH (send n (request st n id)) Hok Hns) as (ms & -> & Hin). exists (request st n id :: ms).
    split; [cbn [n_msgs send set_msgs set_output]; by rewrite <- app_assoc|].
    intros j [->|Hj]%elem_of_cons Hne'; [by left|right; by apply Hin].
Qed.

(** The clock runs out. *)
Lemma tick_asks st n j :
  n_role n <> Leader -> n_randomizedElectionTick n <= u32 (n_tickCount n + 1) -> quorum n = 2%nat ->
  raftlog_ok st (n_log n) -> no_stale st (n_log n) -> j ∈ n_voters n -> j <> n_id n ->
  exists c n1, tick st n = Some (true, n1) /\ request st c j ∈ n_msgs n1 /\ n_log c = n_log n /\ n_id c = n_id n
    /\ n_term c = n_term n +u 1 /\ (exists ms, n1 = set_tick 0 (set_msgs ms c))
    /\ n_role c = Candidate /\ n_votes c = [n_id n] /\ n_voters c = n_voters n /\ n_vote c = n_id n.
Proof.
  intros Hr Ht Hq Hok Hns Hj Hne. unfold tick, tickElection. rewrite bool_decide_eq_false_2 by done. cbv zeta.
  cbn [n_randomizedElectionTick n_tickCount set_tick set_timing]. rewrite (proj2 (Z.leb_le _ _)) by done.
  unfold campaign. set (c := becomeCandidate _). change (quorum c) with (quorum n). rewrite Hq.
  change (bool_decide (2%nat = 1%nat)) with false. cbv iota.
  destruct (ask_all st (n_voters c) c Hok Hns) as (ms & -> & Hin). cbn [mbind option_bind].
  exists c. eexists. split_and!; try done; [|by eexists].
  cbn [n_msgs set_tick set_timing set_msgs set_output]. apply elem_of_app. right. by apply Hin.
Qed.

(** ** Granting *)

(** The log of the candidate [c] is not behind that of [f]. *)
Definition up_to_date st (c : RawNode) (st' : St) f : Prop :=
  let lt := term_at st (n_log c) (log_last st (n_log c)) in
  let lt' := term_at st' (n_log f) (log_last st' (n_log f)) in
  lt' < lt \/ lt' = lt /\ log_last st' (n_log f) <= log_last st (n_log c).

Definition grant (c : RawNode) (from : Z) : Message :=
  mkMessage MsgVoteResp (n_id c) from (n_term c) 0 0 0 false 0 [] empty_snapshot [].

Lemma vote_granted st (c : RawNode) st' f :
  raftlog_ok st' (n_log f) -> no_stale st' (n_log f) -> n_term f < n_term c -> up_to_date st c st' f ->
  step st' f (request st c (n_id f))
  = Some (set_tick 0 (set_vote (n_id c) (send (becomeFollower f (n_term c) 0) (grant c (n_id f))))).
Proof.
  intros Hok Hns Ht Hup. unfold step. cbn [request m_type m_term]. cbv zeta. rewrite (proj2 (Z.ltb_lt _ _) Ht).
  set (f1 := becomeFollower f (n_term c) 0). change (n_term f1) with (n_term c). change (n_role f1) with Follower.
  rewrite Z.ltb_irrefl. unfold stepFollower. cbn [request m_type m_logTerm m_index m_from].
  change (n_log f1) with (n_log f). rewrite lastTerm_eq, lastIndex_eq by done. cbn [mbind option_bind].
  change (n_vote f1) with 0. change (bool_decide (MsgVote = MsgVote)) with true. rewrite Z.eqb_refl. cbn [orb].
  assert ((term_at st' (n_log f) (log_last st' (n_log f)) <? term_at st (n_log c) (log_last st (n_log c)))
    || ((term_at st (n_log c) (log_last st (n_log c)) =? term_at st' (n_log f) (log_last st' (n_log f)))
        && (log_last st' (n_log f) <=? log_last st (n_log c))) = true) as ->; [|done].
  destruct Hup as [Hlt|[-> Hle]]; [by rewrite (proj2 (Z.ltb_lt _ _) Hlt)|].
  rewrite Z.ltb_irrefl, Z.eqb_refl. cbn. by apply Z.leb_le.
Qed.

(** ** Leading *)

(** The progress of a peer in the eyes of a new leader. *)
Definition starting (last : Z) (p : Progress) : Prop :=
  inflights_ok (p_inflights p) /\ p_state p <> SnapshotState /\ p_nextIndex p = last + 1 /\ p_matchIndex p <= last.

Record lined_up (last : Z) (pr : list (Z * Progress)) : Prop := {
  lu_sorted : sm_sorted Z.ltb pr;
  lu_all k p : pr_find k pr = Some p -> starting last p
}.

Lemma pr_index_find g k (m : list (Z * Progress)) :
  sm_sorted Z.ltb m ->
  sm_sorted Z.ltb (pr_index g k m) /\ pr_find k (pr_index g k m) = Some (g (default default_Progress (pr_find k m)))
  /\ forall j, j <> k -> pr_find j (pr_index g k m) = pr_find j m.
Proof. apply sm_index_find; [apply ltb_total|apply Z.ltb_irrefl|intros ? ? ?; lia]. Qed.

Lemma lined_up_index last g k pr :
  lined_up last pr -> starting last (g (default default_Progress (pr_find k pr))) -> lined_up last (pr_index g k pr).
Proof.
  intros [Hs Hall] Hf. destruct (pr_index_find g k pr Hs) as (Hs' & Ek & Eo). constructor; [done|].
  intros j p Hj. destruct (decide (j = k)) as [->|Hne].
  - rewrite Ek in Hj. by injection Hj as <-.
  - rewrite Eo in Hj by done. by apply (Hall j).
Qed.

Lemma new_inflights_ok k : inflights_ok (new_Inflights k).
Proof. split; simpl; [lia|]. by right. Qed.

Lemma reset_starting p last : 0 <= last < 2 ^ 63 -> starting last (p_reset p last).
Proof.
  intros Hl. split_and!; [|done|simpl; by rewrite u64_small by mach|simpl; lia]. split; simpl; [lia|]. by right.
Qed.

(** [init_progress] starts everyone anew. *)
Lemma init_lined_up (learners : list Z) (size : nat) last (ids : list Z) : forall pr,
  0 <= last < 2 ^ 63 -> lined_up last pr ->
  lined_up last (foldl (fun pr id =>
      let isLearner := bool_decide (id ∈ learners) in
      let pr := pr_index (fun _ => new_Progress size isLearner) id pr in
      pr_index (fun p => p_reset p last) id pr) pr ids).
Proof.
  induction ids as [|id ids IH]; intros pr Hl [Hs Hall]; cbn [foldl]; [done|]. apply IH; [done|].
  destruct (pr_index_find (fun _ => new_Progress size (bool_decide (id ∈ learners))) id pr Hs) as (Hs1 & E1 & Eo1).
  set (pr1 := pr_index _ id pr) in *. cbv zeta.
  destruct (pr_index_find (fun p => p_reset p last) id pr1 Hs1) as (Hs2 & E2 & Eo2). constructor; [done|].
  intros j p Hj. destruct (decide (j = id)) as [->|Hne].
  - rewrite E2 in Hj. injection Hj as <-. by apply reset_starting.
  - rewrite Eo2, Eo1 in Hj by done. by apply (Hall j).
Qed.

(** The leader's own entry: everything it has is stored. *)
Lemma self_lined_up st n :
  raftlog_ok st (n_log n) -> lined_up (log_last st (n_log n)) (n_pr n) ->
  lined_up (log_last st (n_log n)) (n_pr (self_replicate (self_progress st n)))
  /\ is_Some (pr_find (n_id n) (n_pr (self_replicate (self_progress st n)))).
Proof.
  intros Hok Hl. pose proof (log_last_range _ _ Hok) as Hr. pose proof (log_first_range _ _ Hok) as Hf.
  assert (inflights_ok (p_inflights (default default_Progress (pr_find (n_id n) (n_pr n))))
    /\ p_state (default default_Progress (pr_find (n_id n) (n_pr n))) <> SnapshotState) as [Hi Hst].
  { destruct (pr_find (n_id n) (n_pr n)) as [p|] eqn:E; [by destruct (lu_all _ _ Hl _ _ E) as (? & ? & _)|].
    split; [apply new_inflights_ok|done]. }
  assert (lined_up (log_last st (n_log n)) (n_pr (self_progress st n))) as Hl1.
  { apply lined_up_index; [done|]. rewrite lastIndex_eq, u64_small by (done || mach). by split_and!. }
  destruct (pr_index_find (set_match_next (RaftLog.lastIndex st (n_log n)) (RaftLog.lastIndex st (n_log n) +u 1))
    (n_id n) (n_pr n) (lu_sorted _ _ Hl)) as (_ & E1 & _). change (pr_index _ _ _) with (n_pr (self_progress st n)) in E1.
  destruct (pr_index_find becomeReplicate (n_id n) (n_pr (self_progress st n)) (lu_sorted _ _ Hl1)) as (_ & E2 & _).
  change (pr_index _ _ _) with (n_pr (self_replicate (self_progress st n))) in E2. split; [|by rewrite E2].
  apply lined_up_index; [done|]. change (n_id (self_progress st n)) with (n_id n). rewrite E1. simpl.
  rewrite lastIndex_eq by done. split_and!; simpl; [split; simpl; [lia|by right]|done|by rewrite u64_small by mach|lia].
Qed.

Lemma lined_up_sender st n :
  raftlog_ok st (n_log n) -> (log_list st (n_log n) <> [] -> synced st (n_log n)) -> no_stale st (n_log n) ->
  log_last st (n_log n) < 2 ^ 62 -> lined_up (log_last st (n_log n)) (n_pr n) -> sender st n.
Proof.
  intros Hok Hsy Hns Hl [Hs Hall]. constructor; try done. intros k p Hk. destruct (Hall k p Hk) as (? & ? & -> & _).
  pose proof (log_first_range _ _ Hok). split_and!; [done|done|unfold log_last; lia|lia].
Qed.

(** The empty entry. *)
Definition noop st n : list Entry :=
  if bool_decide (log_list st (n_log n) = []) then []
  else [mkEntry (n_term n) (log_last st (n_log n) + 1) Normal []].

Lemma noop_appended st n p0 :
  raftlog_ok st (n_log n) -> no_stale st (n_log n) -> log_last st (n_log n) + 2 < 2 ^ 62 ->
  commitIndex (n_log n) <= log_last st (n_log n) ->
  lined_up (log_last st (n_log n)) (n_pr n) -> pr_find (n_id n) (n_pr n) = Some p0 ->
  let n' := append_noop st n in
  sender st n' /\ log_first st (n_log n') = log_first st (n_log n)
  /\ log_list st (n_log n') = log_list st (n_log n) ++ noop st n
  /\ rl_committed (n_log n') = rl_committed (n_log n)
  /\ (forall k p, k <> n_id n -> pr_find k (n_pr n') = Some p -> p_matchIndex p <= log_last st (n_log n))
  /\ is_Some (pr_find (n_id n) (n_pr n')).
Proof.
  intros Hok Hns Hb Hc Hl Hp0 n'. pose proof (log_first_range _ _ Hok) as Hf. unfold n', append_noop, noop.
  rewrite firstIndex_eq, lastIndex_eq by done. case_bool_decide as E.
  - assert (log_last st (n_log n) = log_first st (n_log n) - 1) as El by (unfold log_last; rewrite E; simpl; lia).
    rewrite (proj2 (Z.leb_gt _ _)) by lia. rewrite app_nil_r. split_and!; try done.
    { apply lined_up_sender; try done. lia. }
    intros k p _ Hk. by apply (lu_all _ _ Hl k).
  - assert (log_first st (n_log n) <= log_last st (n_log n)) as Hle
      by (unfold log_last; destruct (log_list st (n_log n)); [done|simpl; lia]).
    rewrite (proj2 (Z.leb_le _ _) Hle), (u64_small (_ + 1)) by mach. set (e := mkEntry _ _ _ _).
    destruct (append_next st (n_log n) e Hok Hns eq_refl ltac:(lia)) as (Hok' & Hns' & Hsy' & Hf' & EL & Hl').
    assert ((append st (n_log n) [e]).2 = set_unstable (u_append (rl_unstable (n_log n)) [e]) (n_log n)) as ->.
    { unfold append. change (e_index e) with (log_last st (n_log n) + 1). rewrite u64_small by mach.
      unfold commitIndex in Hc. by rewrite (proj2 (Z.ltb_ge _ _)) by lia. }
    set (n1 := RawNode.set_log _ n). destruct (self_progress_sender st n1 p0) as (Hs & Ho & Hself); try done.
    { cbn [n1 n_log RawNode.set_log set_repl]. lia. } { apply Hl. }
    { intros k p Hk. destruct (lu_all _ _ Hl k p Hk) as (? & ? & -> & _). cbn [n_log n1 RawNode.set_log set_repl].
      rewrite Hf', Hl'. split_and!; [done|done|lia|lia]. }
    split_and!; try done. intros k p Hk. rewrite Ho by done. intros Hp. by apply (lu_all _ _ Hl k).
Qed.

Lemma becomeLeader_leads st n :
  raftlog_ok st (n_log n) -> no_stale st (n_log n) -> log_last st (n_log n) + 2 < 2 ^ 62 -> 1 <= n_term n ->
  log_first st (n_log n) - 1 <= commitIndex (n_log n) <= log_last st (n_log n) ->
  exists n', becomeLeader st n = Some n' /\ healthy st n' /\ n_term n' = n_term n /\ n_id n' = n_id n
    /\ log_list st (n_log n') = log_list st (n_log n) ++ noop st n.
Proof.
  intros Hok Hns Hb Ht Hc. pose proof (log_first_range _ _ Hok) as Hf. pose proof (log_last_range _ _ Hok) as Hlr.
  unfold becomeLeader. set (n0 := set_tick 0 _).
  assert (lined_up (log_last st (n_log n)) (n_pr (init_progress st n0))) as Hl0.
  { unfold init_progress. cbn [n_pr set_pr set_repl]. change (n_log n0) with (n_log n). rewrite lastIndex_eq by done.
    apply init_lined_up; [lia|]. constructor; [constructor|done]. }
  set (n1 := init_progress st n0) in *. destruct (self_lined_up st n1 Hok Hl0) as (Hl1 & [p0 Hp0]).
  set (n2 := self_replicate (self_progress st n1)) in *. assert (n_log n2 = n_log n) as El2 by done.
  destruct (noop_appended st n2 p0) as (Hs & Ef & EL & Ec & Hm & Hself); rewrite ?El2; try done; [apply Hc|].
  rewrite El2 in *. destruct (broadcastAppend_alike st _ Hs) as (n' & -> & Hal & Hs' & _). set (n3 := append_noop st n2) in *.
  assert (n_role n3 = Leader /\ n_term n3 = n_term n /\ n_id n3 = n_id n) as (Er & Et & Ei)
    by (unfold n3, append_noop; by destruct (_ <=? _)).
  assert (noop st n2 = noop st n) as En by done. rewrite En in EL.
  assert (log_last st (n_log n) <= log_last st (n_log n3) <= log_last st (n_log n) + 1) as Hlast.
  { unfold log_last. rewrite Ef, EL, length_app. unfold noop. case_bool_decide; simpl; lia. }
  exists n'. destruct Hal as [Elog Eid Erole Eterm _ _ Ev _ _]. split_and!; [done| |congruence..|by rewrite Elog].
  constructor; rewrite ?Elog; [done|congruence|congruence|lia|lia|rewrite Ef; unfold commitIndex in *; lia| |].
  - rewrite Eid, Ei. destruct Hself as [q Hq]. destruct (view_find n3 n' (n_id n) q Ev) as (q' & -> & _); [done|eauto].
  - intros k p Hk Hp. rewrite Eid, Ei in Hk. destruct (view_find n' n3 k p) as (q & Hq & Ecore); [done|done|].
    specialize (Hm k q Hk Hq). unfold core_of in Ecore. injection Ecore as Em _ _. lia.
Qed.

(** A candidate as it goes on after asking: it polls, persists and advances,
    and nobody has answered yet. *)
Record campaigns st n st' n' : Prop := {
  ca_log : raftlog_ok st' (n_log n');
  ca_stale : no_stale st' (n_log n');
  ca_first : log_first st' (n_log n') = log_first st (n_log n);
  ca_list : log_list st' (n_log n') = log_list st (n_log n);
  ca_commit : commitIndex (n_log n') = commitIndex (n_log n);
  ca_id : n_id n' = n_id n;
  ca_role : n_role n' = n_role n;
  ca_term : n_term n' = n_term n;
  ca_votes : n_votes n' = n_votes n;
  ca_voters : n_voters n' = n_voters n
}.

Lemma grant_elects st (c : RawNode) st' n' j :
  n_role c = Candidate -> n_votes c = [n_id c] -> quorum c = 2%nat -> j <> n_id c -> 1 <= n_term c ->
  log_last st (n_log c) + 2 < 2 ^ 62 ->
  log_first st (n_log c) - 1 <= commitIndex (n_log c) <= log_last st (n_log c) -> campaigns st c st' n' ->
  exists n'', step st' n' (grant c j) = Some n'' /\ healthy st' n'' /\ n_term n'' = n_term c /\ n_id n'' = n_id c
    /\ log_list st' (n_log n'') = log_list st (n_log c) ++ noop st c.
Proof.
  intros Hr Hv Hq Hj Ht Hb Hc [Hok Hns Ef EL Ec Ei Er Et Ev Evo].
  assert (log_last st' (n_log n') = log_last st (n_log c)) as El by (unfold log_last; by rewrite Ef, EL).
  unfold step. cbn [grant m_type m_term]. cbv zeta. rewrite Et, Z.ltb_irrefl, Et, Z.ltb_irrefl, Er, Hr.
  unfold stepCandidate. cbn [grant m_type m_from m_reject negb]. unfold pollVote. rewrite Ev, Hv.
  rewrite bool_decide_eq_false_2 by (by rewrite list_elem_of_singleton).
  set (n2 := set_votes _ n'). assert (quorum n2 = 2%nat) as Hq2 by (rewrite <- Hq; unfold quorum; cbn; by rewrite Evo).
  rewrite Hq2. change (n_votes n2) with [n_id c; j]. change (bool_decide (2 <= length [n_id c; j])%nat) with true. cbv iota.
  destruct (becomeLeader_leads st' n2) as (n'' & E & Hh & Ett & Eii & ELL); try done.
  - cbn. lia.
  - cbn. lia.
  - cbn. rewrite El, Ef, Ec. done.
  - exists n''. split_and!; [done|done|by rewrite Ett|by rewrite Eii|]. rewrite ELL. change (n_log n2) with (n_log n'). rewrite EL. f_equal.
    unfold noop. cbn. by rewrite El, EL, Et.
Qed.

End Election.

(** ** The next leader of the three replicas *)

#[local] Existing Instance rt_platform.
#[local] Existing Instance rt_draws.

(** Replica 2 has heard nothing for five ticks. *)
Definition silence : list raction := warm_up ++ replicate 5 (RTick 2).
Definition silent (i : Z) : Replica := rt_replica (rt_after silence) i.

Lemma silent_log i : i = 2 \/ i = 3 ->
  raftlog_ok (rp_wal (silent i)) (n_log (rp_node (silent i))) /\ no_stale (rp_wal (silent i)) (n_log (rp_node (silent i))).
Proof.
  intros Hi. split; [|destruct Hi as [-> | ->]; apply Z.leb_le; vm_compute; reflexivity].
  apply (rt_log_ok silence i). eexists. split; [vm_compute; reflexivity|]. destruct Hi as [-> | ->]; vm_compute; reflexivity.
Qed.

Lemma silent_values :
  n_term (rp_node (silent 2)) = 1 /\ log_first (rp_wal (silent 2)) (n_log (rp_node (silent 2))) = 1
  /\ log_last (rp_wal (silent 2)) (n_log (rp_node (silent 2))) = 2 /\ commitIndex (n_log (rp_node (silent 2))) = 0
  /\ n_term (rp_node (silent 3)) = 0.
Proof. split_and!; vm_compute; reflexivity. Qed.

