(* ===== verification/SnapshotFile.v ===== *)
(** * The snapshot file

    Models [src/app/storage/SnapshotFile.h] and
    [src/app/storage/SnapshotFile.cpp]: a directory with at most the
    snapshot and its temporary copy, saving through the copy and a rename,
    and loading.  [save_states] lists what the disk can hold at each moment
    of a save, so that a crash is a choice among them.  Opening and renaming
    succeed. *)

From S2P Require Import Prelude RaftTypes OrderProtocol WriteAheadLog.

Record SnapshotFile := mkSnapshotFile {
  sf_file : option bytes;  (* snapshot.bin *)
  sf_tmp : option bytes;   (* snapshot.bin.tmp *)
}.

Definition new_SnapshotFile (file tmp : option bytes) : SnapshotFile := mkSnapshotFile file tmp.

(** The bytes [save] writes to the copy. *)
Definition snapshot_bytes (snap : Snapshot) : bytes :=
  let f := writeU64 [] (s_term snap) in
  let f := writeU64 f (s_index snap) in
  let f := writeU32 f (u32 (Z.of_nat (length (s_data snap)))) in
  f ++ s_data snap.

Definition save (d : SnapshotFile) (snap : Snapshot) : SnapshotFile :=
  let d := mkSnapshotFile (sf_file d) (Some (snapshot_bytes snap)) in
  mkSnapshotFile (sf_tmp d) None.

Definition load (d : SnapshotFile) : option Snapshot :=
  f ← sf_file d;
  '(term, off) ← readU64 f 0;
  '(index, off) ← readU64 f off;
  '(len, off) ← readU32 f off;
  '(data, off) ← read_raw len f off;
  Some (mkSnapshot term index data).

Definition remove (d : SnapshotFile) : SnapshotFile := mkSnapshotFile None (sf_tmp d).

(** ** Crashes during a save *)

(** The disk during a save: the copy filled up to some byte, then renamed. *)
Definition save_states (d : SnapshotFile) (snap : Snapshot) : list SnapshotFile :=
  d :: ((fun k => mkSnapshotFile (sf_file d) (Some (take k (snapshot_bytes snap))))
          <$> seq 0 (S (length (snapshot_bytes snap))))
  ++ [save d snap].

Definition snapshot_typed (snap : Snapshot) : Prop :=
  is_u64 (s_term snap) /\ is_u64 (s_index snap) /\ str_ok (s_data snap).

Lemma load_alt f tmp :
  load (mkSnapshotFile (Some f) tmp) =
  '(term, off) ← getU64 f 0;
  '(index, off) ← getU64 f off;
  '(data, off) ← getStr f off;
  Some (mkSnapshot term index data).
Proof.
  unfold load, getStr, readU64, readU32, getU64, getU32. simpl.
  repeat (destruct (read_le _ _ _) as [[? ?]|]; simpl; [|done]). done.
Qed.

Lemma load_snapshot_bytes snap tmp :
  snapshot_typed snap -> load (mkSnapshotFile (Some (snapshot_bytes snap)) tmp) = Some snap.
Proof.
  intros (H1 & H2 & H3). rewrite load_alt.
  assert (snapshot_bytes snap = put_le 8 (s_term snap) ++ put_le 8 (s_index snap) ++ enc_str (s_data snap))
    as E.
  { unfold snapshot_bytes, writeU64, writeU32, enc_str. cbv zeta. by rewrite app_nil_l, <- !app_assoc. }
  rewrite E. set (f := _ ++ _).
  assert (bytes_ok f) as Hok.
  { destruct H3 as [H3 _]. unfold f, enc_str, bytes_ok. rewrite !Forall_app.
    repeat split; try apply put_le_ok; done. }
  assert (at_off f 0 (put_le 8 (s_term snap) ++ put_le 8 (s_index snap) ++ enc_str (s_data snap) ++ []))
    as Hat by (split; [lia|by rewrite app_nil_r]).
  repeat (codec_run; [done|]). by destruct snap.
Qed.

(** A crash at any moment of a save leaves the old snapshot or the new one. *)
Lemma save_states_load d snap d' :
  snapshot_typed snap -> d' ∈ save_states d snap -> load d' = load d \/ load d' = Some snap.
Proof.
  intros Hs [->|Hd]%elem_of_cons; [by left|]. apply elem_of_app in Hd as [Hd|Hd].
  - apply list_elem_of_fmap in Hd as (k & -> & _). by left.
  - apply list_elem_of_singleton in Hd as ->. right. by apply load_snapshot_bytes.
Qed.
