(* ===== verification/Server.v ===== *)
(** * The server

    Models [src/app/server/Server.h], [src/app/server/Server.cpp] and
    [src/app/server/ReadMode.h]: the loop that drives the raft node over the
    write-ahead log, applies committed entries to the state machine and
    answers waiting clients.

    Methods that block are two definitions: what runs up to the wait, and
    what is returned once the wait is over ([None] while it is not).  Each
    part is one atomic step.  The mutexes see to that for what they guard;
    the code also writes [wal_] in [processReady] and reads the node's role
    without holding [raftMutex_], and the condition variables can lose a
    notification ([notify_one] with several waiters, [done] set without the
    mutex), so that a thread may go on later than the model's result is
    there, or not at all.  Objects shared through [shared_ptr] are allocation
    numbers into a list.  The codec, the book reader and the state machine
    are the injected components. *)

From stdpp Require Import strings.
From S2P Require Import Prelude StdString IOrderBook StateMachine KVStateMachine OrderProtocol CommandCodec.
From S2P Require Import RaftTypes LogUnstable WriteAheadLog SnapshotFile.
From S2P Require Import RaftLog Progress ReadOnly RawNode.

Inductive ReadMode := ReadIndex | LeaseBasedRead | Direct.

#[global] Instance ReadMode_eq_dec : EqDecision ReadMode.
Proof. solve_decision. Defined.

Record PendingProposal := mkPendingProposal { pp_rawResult : bytes; pp_done : bool }.

Record PendingRead := mkPendingRead {
  pd_maxLevels : Z;
  pd_isBids : bool;
  pd_result : list PriceLevel;
  pd_done : bool;
}.

Record Server (S : Type) := mkServer {
  sv_readMode : ReadMode;
  sv_wal : WriteAheadLog;
  sv_snapFile : SnapshotFile;
  sv_fsm : S;
  sv_node : RawNode;
  sv_running : bool;
  sv_pendingMsgs : list Message;
  sv_proposals : list PendingProposal;
  sv_pending : gmap Z nat;
  sv_reads : list PendingRead;
  sv_pendingReads : gmap bytes nat;
  sv_readTokenCounter : Z;
  sv_appliedIndex : Z;
  sv_sent : list Message;
}.
Arguments mkServer {S}.
Arguments sv_readMode {S}.
Arguments sv_wal {S}.
Arguments sv_snapFile {S}.
Arguments sv_fsm {S}.
Arguments sv_node {S}.
Arguments sv_running {S}.
Arguments sv_pendingMsgs {S}.
Arguments sv_proposals {S}.
Arguments sv_pending {S}.
Arguments sv_reads {S}.
Arguments sv_pendingReads {S}.
Arguments sv_readTokenCounter {S}.
Arguments sv_appliedIndex {S}.
Arguments sv_sent {S}.

Section Server.
Context {S : Type} `{!StateMachine S} `{!Platform} `{!Random} `{!CommandCodec}.
Context (bookReader : option (BookReader S)).
Implicit Types (s : Server S).

(** Field updates. *)
Definition set_storage (w : WriteAheadLog) (sf : SnapshotFile) s : Server S :=
  mkServer (sv_readMode s) w sf (sv_fsm s) (sv_node s) (sv_running s) (sv_pendingMsgs s)
    (sv_proposals s) (sv_pending s) (sv_reads s) (sv_pendingReads s) (sv_readTokenCounter s)
    (sv_appliedIndex s) (sv_sent s).
Definition set_wal (w : WriteAheadLog) s : Server S := set_storage w (sv_snapFile s) s.
Definition set_fsm (fsm : S) (applied : Z) s : Server S :=
  mkServer (sv_readMode s) (sv_wal s) (sv_snapFile s) fsm (sv_node s) (sv_running s) (sv_pendingMsgs s)
    (sv_proposals s) (sv_pending s) (sv_reads s) (sv_pendingReads s) (sv_readTokenCounter s)
    applied (sv_sent s).
Definition set_node (n : RawNode) s : Server S :=
  mkServer (sv_readMode s) (sv_wal s) (sv_snapFile s) (sv_fsm s) n (sv_running s) (sv_pendingMsgs s)
    (sv_proposals s) (sv_pending s) (sv_reads s) (sv_pendingReads s) (sv_readTokenCounter s)
    (sv_appliedIndex s) (sv_sent s).
Definition set_running (r : bool) s : Server S :=
  mkServer (sv_readMode s) (sv_wal s) (sv_snapFile s) (sv_fsm s) (sv_node s) r (sv_pendingMsgs s)
    (sv_proposals s) (sv_pending s) (sv_reads s) (sv_pendingReads s) (sv_readTokenCounter s)
    (sv_appliedIndex s) (sv_sent s).
Definition set_net (inbox sent : list Message) s : Server S :=
  mkServer (sv_readMode s) (sv_wal s) (sv_snapFile s) (sv_fsm s) (sv_node s) (sv_running s) inbox
    (sv_proposals s) (sv_pending s) (sv_reads s) (sv_pendingReads s) (sv_readTokenCounter s)
    (sv_appliedIndex s) sent.
Definition set_proposals (ps : list PendingProposal) (pending : gmap Z nat) s : Server S :=
  mkServer (sv_readMode s) (sv_wal s) (sv_snapFile s) (sv_fsm s) (sv_node s) (sv_running s)
    (sv_pendingMsgs s) ps pending (sv_reads s) (sv_pendingReads s) (sv_readTokenCounter s)
    (sv_appliedIndex s) (sv_sent s).
Definition set_reads (rs : list PendingRead) (pending : gmap bytes nat) (counter : Z) s : Server S :=
  mkServer (sv_readMode s) (sv_wal s) (sv_snapFile s) (sv_fsm s) (sv_node s) (sv_running s)
    (sv_pendingMsgs s) (sv_proposals s) (sv_pending s) rs pending counter
    (sv_appliedIndex s) (sv_sent s).

(** ** Construction and start *)

(** The configuration of the node comes from the application's, with the
    read option chosen by the read mode. *)
Definition new_Server (c : Config) (readMode : ReadMode) (wal : WriteAheadLog) (sf : SnapshotFile)
    (fsm : S) : Server S :=
  let rc := mkConfig (c_id c) 0 (c_electionTick c) (c_heartbeatTick c) (c_maxSizePerMsg c)
              (c_maxInflightMsgs c) (c_peers c) []
              (if bool_decide (readMode = ReadIndex) then Safe else LeaseBased) in
  mkServer readMode wal sf fsm (new_RawNode rc wal) false [] [] ∅ [] ∅ 1 0 [].

Definition start s : option (Server S) :=
  s ← match load (sv_snapFile s) with
      | Some snap =>
          fsm ← sm_restore (sv_fsm s) (s_data snap);
          wal ← applySnapshot (sv_wal s) snap;
          Some (set_wal wal (set_fsm fsm (sv_appliedIndex s) s))
      | None => Some s
      end;
  Some (set_running true s).

Definition isLeader s : bool := bool_decide (n_role (sv_node s) = Leader).
Definition leaderId s : Z := n_lead (sv_node s).

(** ** Ready processing *)

(** Wake the client that waits for this index, whoever proposed the entry. *)
Definition wake (index : Z) (result : bytes) s : Server S :=
  match sv_pending s !! index with
  | None => s
  | Some p => set_proposals (<[p := mkPendingProposal result true]> (sv_proposals s))
                (delete index (sv_pending s)) s
  end.

Fixpoint applyCommittedEntries s (entries : list Entry) : option (Server S) :=
  match entries with
  | [] => Some s
  | e :: entries =>
      '(result, fsm) ← sm_apply (sv_fsm s) (e_data e);
      applyCommittedEntries (wake (e_index e) result (set_fsm fsm (e_index e) s)) entries
  end.

(** [None]: the loop waits for an index that only it could apply, or there is
    no reader. *)
Fixpoint handleReadStates s (readStates : list ReadState) : option (Server S) :=
  match readStates with
  | [] => Some s
  | rs :: readStates =>
      match sv_pendingReads s !! rs_requestCtx rs with
      | None => handleReadStates s readStates
      | Some p =>
          if sv_running s then
            if sv_appliedIndex s <? rs_index rs then None else
            pending ← sv_reads s !! p;
            reader ← bookReader;
            let result := if pd_isBids pending then br_bids reader (sv_fsm s) (pd_maxLevels pending)
                          else br_asks reader (sv_fsm s) (pd_maxLevels pending) in
            let done := mkPendingRead (pd_maxLevels pending) (pd_isBids pending) result true in
            handleReadStates
              (set_reads (<[p := done]> (sv_reads s)) (delete (rs_requestCtx rs) (sv_pendingReads s))
                 (sv_readTokenCounter s) s) readStates
          else Some s
      end
  end.

(** The calls of [processReady], in the order of the code.  A message is
    recorded when it is handed to its sender: with more than one message each
    has a thread of its own, which are joined before the entries are applied,
    so that the network may see them in any order. *)
Inductive ready_call :=
| RAppendNoSync (es : list Entry)
| RSaveHardState (hs : HardState)
| RSync
| RSnapshot (snap : Snapshot)
| RSend (m : Message)
| RApply (es : list Entry)
| RReadStates (rss : list ReadState).

Definition ready_effect s (c : ready_call) : option (Server S) :=
  match c with
  | RAppendNoSync es => Some (set_wal (appendNoSync (sv_wal s) es) s)
  | RSaveHardState hs => Some (set_wal (saveHardState (sv_wal s) hs) s)
  | RSync => Some (set_wal (sync (sv_wal s)) s)
  | RSnapshot snap =>
      fsm ← sm_restore (sv_fsm s) (s_data snap);
      let s := set_fsm fsm (sv_appliedIndex s) s in
      let s := set_storage (sv_wal s) (save (sv_snapFile s) snap) s in
      wal ← applySnapshot (sv_wal s) snap;
      Some (set_wal wal s)
  | RSend m => Some (set_net (sv_pendingMsgs s) (sv_sent s ++ [m]) s)
  | RApply es => applyCommittedEntries s es
  | RReadStates rss => handleReadStates s rss
  end.

Definition ready_calls (rd : Ready) : list ready_call :=
  let hs := rd_hardState rd in
  let saves := negb (hs_term hs =? 0) || negb (hs_commit hs =? 0) in
  let empty := bool_decide (rd_entries rd = []) in
  (if empty then [] else [RAppendNoSync (rd_entries rd)])
  ++ (if saves then [RSaveHardState hs] else [])
  ++ (if negb empty || saves then [RSync] else [])
  ++ option_list (RSnapshot <$> rd_snapshot rd)
  ++ (RSend <$> rd_messages rd)
  ++ [RApply (rd_committedEntries rd); RReadStates (rd_readStates rd)].

Definition processReady s (rd : Ready) : option (Server S) := run ready_effect s (ready_calls rd).

(** Sending changes nothing else. *)
Lemma run_sends ms : forall s,
  run ready_effect s (RSend <$> ms) = Some (set_net (sv_pendingMsgs s) (sv_sent s ++ ms) s).
Proof.
  induction ms as [|m ms IH]; intros s; [rewrite app_nil_r; by destruct s|].
  rewrite fmap_cons, run_cons. cbn [ready_effect mbind option_bind]. rewrite IH. simpl.
  by rewrite <- app_assoc.
Qed.

(** The write-ahead log after the persisting calls. *)
Definition persisted (w : WriteAheadLog) (rd : Ready) : WriteAheadLog :=
  let w := match rd_entries rd with [] => w | es => appendNoSync w es end in
  if negb (hs_term (rd_hardState rd) =? 0) || negb (hs_commit (rd_hardState rd) =? 0)
  then saveHardState w (rd_hardState rd) else w.

(** The calls before the snapshot. *)
Definition persist_calls (rd : Ready) : list ready_call :=
  let hs := rd_hardState rd in
  let saves := negb (hs_term hs =? 0) || negb (hs_commit hs =? 0) in
  let empty := bool_decide (rd_entries rd = []) in
  (if empty then [] else [RAppendNoSync (rd_entries rd)])
  ++ (if saves then [RSaveHardState hs] else [])
  ++ (if negb empty || saves then [RSync] else []).

Lemma ready_calls_split rd :
  ready_calls rd = persist_calls rd ++ option_list (RSnapshot <$> rd_snapshot rd)
    ++ (RSend <$> rd_messages rd) ++ [RApply (rd_committedEntries rd); RReadStates (rd_readStates rd)].
Proof. unfold ready_calls, persist_calls. by rewrite <- !app_assoc. Qed.

Lemma run_persist_calls s rd :
  run ready_effect s (persist_calls rd) = Some (set_wal (persisted (sv_wal s) rd) s).
Proof.
  unfold persist_calls, persisted, run, sync. destruct (rd_entries rd) as [|e es];
    [rewrite bool_decide_eq_true_2 by done|rewrite bool_decide_eq_false_2 by done];
    destruct (_ || _); simpl; by destruct s.
Qed.

(** The calls after the snapshot. *)
Lemma run_finish s ms es rss :
  run ready_effect s ((RSend <$> ms) ++ [RApply es; RReadStates rss]) =
  s ← applyCommittedEntries (set_net (sv_pendingMsgs s) (sv_sent s ++ ms) s) es; handleReadStates s rss.
Proof.
  rewrite run_app, run_sends. cbn [mbind option_bind]. rewrite run_cons. cbn [ready_effect].
  destruct (applyCommittedEntries _ _) as [s1|]; [|done]. cbn [mbind option_bind]. rewrite run_cons.
  cbn [ready_effect]. by destruct (handleReadStates s1 rss).
Qed.

(** The whole call, phase by phase. *)
Lemma processReady_unfold s rd :
  processReady s rd =
  s1 ← match rd_snapshot rd with
       | None => Some (set_wal (persisted (sv_wal s) rd) s)
       | Some snap => ready_effect (set_wal (persisted (sv_wal s) rd) s) (RSnapshot snap)
       end;
  s2 ← applyCommittedEntries (set_net (sv_pendingMsgs s1) (sv_sent s1 ++ rd_messages rd) s1)
         (rd_committedEntries rd);
  handleReadStates s2 (rd_readStates rd).
Proof.
  unfold processReady. rewrite ready_calls_split, run_app, run_persist_calls. cbn [mbind option_bind].
  rewrite run_app. destruct (rd_snapshot rd) as [snap|].
  - change (run _ _ (option_list _)) with (run ready_effect (set_wal (persisted (sv_wal s) rd) s) [RSnapshot snap]).
    rewrite run_cons. destruct (ready_effect _ (RSnapshot snap)) as [s1|]; [|done]. apply run_finish.
  - apply (run_finish (set_wal (persisted (sv_wal s) rd) s)).
Qed.

(** ** The loop *)

Definition onRaftMessage s (m : Message) : Server S :=
  set_net (sv_pendingMsgs s ++ [m]) (sv_sent s) s.

Definition loop_tick s : option (Server S) :=
  '(_, n) ← tick (sv_wal s) (sv_node s); Some (set_node n s).

Fixpoint step_all (w : WriteAheadLog) (n : RawNode) (ms : list Message) : option RawNode :=
  match ms with
  | [] => Some n
  | m :: ms => n ← step w n m; step_all w n ms
  end.

Definition loop_drain s : option (Server S) :=
  n ← step_all (sv_wal s) (sv_node s) (sv_pendingMsgs s);
  Some (set_net [] (sv_sent s) (set_node n s)).

Definition loop_poll s : Ready * Server S :=
  let '(rd, n) := poll (sv_wal s) (sv_node s) in (rd, set_node n s).

Definition loop_advance s : option (Server S) :=
  n ← advance (sv_wal s) (sv_node s); Some (set_node n s).

(** One round of [raftLoop] with no client in between. *)
Definition raftLoop_round s : option (Server S) :=
  s ← loop_tick s;
  s ← loop_drain s;
  if hasReady (sv_node s) then
    let '(rd, s) := loop_poll s in
    s ← processReady s rd;
    loop_advance s
  else Some s.

(** ** Clients *)

(** Proposing under the lock; the allocation number of the wait, or [None]
    when the node does not lead. *)
Definition propose_wait s (data : bytes) : option (option nat * Server S) :=
  '(ok, n) ← propose (sv_wal s) (sv_node s) data;
  let s := set_node n s in
  if negb ok then Some (None, s) else
  let idx := lastIndex (sv_wal s) (n_log (sv_node s)) in
  let p := length (sv_proposals s) in
  Some (Some p, set_proposals (sv_proposals s ++ [mkPendingProposal [] false])
                  (<[idx := p]> (sv_pending s)) s).

Definition submitRaw s (cmd : bytes) : option (option nat * Server S) :=
  if negb (isLeader s) then Some (None, s) else propose_wait s cmd.

Definition submitRaw_result s (p : option nat) : option bytes :=
  match p with
  | None => Some []
  | Some p =>
      pending ← sv_proposals s !! p;
      if pp_done pending then Some (pp_rawResult pending)
      else if sv_running s then None else Some []
  end.

Definition not_leader s : ClientResponse :=
  mkResponse false (ascii_bytes "not leader") false [] (leaderId s).

(** With the codec's state, which [encode] may change. *)
Definition onClientRequest s (codec : cc_state) (req : ClientRequest)
    : option ((ClientResponse + nat) * Server S * cc_state) :=
  if negb (isLeader s) then Some (inl (not_leader s), s, codec) else
  '(data, codec) ← cc_encode codec req;
  if bool_decide (data = []) then
    Some (inl (mkResponse false (ascii_bytes "bad request") false [] 0), s, codec)
  else
    '(p, s') ← propose_wait s data;
    Some (match p with None => inl (not_leader s') | Some p => inr p end, s', codec).

Definition onClientRequest_result s (r : ClientResponse + nat) : option ClientResponse :=
  match r with
  | inl resp => Some resp
  | inr p =>
      pending ← sv_proposals s !! p;
      if pp_done pending then Some (cc_decodeResult (pp_rawResult pending))
      else if sv_running s then None
      else Some (mkResponse false (ascii_bytes "shutting down") false [] 0)
  end.

(** [readBids] and [readAsks] up to the wait. *)
Definition readLevels (isBids : bool) s (maxLevels : Z)
    : option ((list PriceLevel + nat) * Server S) :=
  match bookReader with
  | None => Some (inl [], s)
  | Some reader =>
      match sv_readMode s with
      | Direct | LeaseBasedRead =>
          Some (inl ((if isBids then br_bids else br_asks) reader (sv_fsm s) maxLevels), s)
      | ReadIndex =>
          if negb (isLeader s) then Some (inl [], s) else
          let t := sv_readTokenCounter s in
          let token := put_le 8 t in
          let p := length (sv_reads s) in
          let s := set_reads (sv_reads s ++ [mkPendingRead maxLevels isBids [] false])
                     (<[token := p]> (sv_pendingReads s)) (t +u 1) s in
          '(_, n) ← readIndex (sv_node s) token;
          Some (inr p, set_node n s)
      end
  end.

Definition readBids := readLevels true.
Definition readAsks := readLevels false.

Definition readLevels_result s (r : list PriceLevel + nat) : option (list PriceLevel) :=
  match r with
  | inl levels => Some levels
  | inr p =>
      pending ← sv_reads s !! p;
      if pd_done pending then Some (pd_result pending)
      else if sv_running s then None else Some []
  end.
End Server.
