(* ===== verification/ServerTheorems.v ===== *)
(** * Properties of the server

    Applying committed entries and answering the clients that wait for them,
    in which order, what survives a restart, with a whole or a torn file of
    the hard state, saving snapshots, and a run of three servers in
    which a heartbeat commits an entry that was never replicated. *)

From S2P Require Import Prelude IOrderBook MapOrderBook StateMachine LOBStateMachine KVStateMachine CommandCodec.
From S2P Require Import OrderProtocol RaftTypes LogUnstable WriteAheadLog SnapshotFile.
From S2P Require Import RaftLog Progress ReadOnly RawNode Server.

Section ServerTheorems.
Context {S : Type} `{!StateMachine S} `{!Platform} `{!Random} `{!CommandCodec}.
Context (bookReader : option (BookReader S)).
Implicit Types (s : Server S).

(** Every waiting client waits for one index, with an object of its own. *)
Definition pending_ok s : Prop :=
  (forall i j p, sv_pending s !! i = Some p -> sv_pending s !! j = Some p -> i = j)
  /\ (forall i p, sv_pending s !! i = Some p -> (p < length (sv_proposals s))%nat).

(** What the clients see after the entries [es] gave the replies [rs]. *)
Definition answered s (es : list Entry) (rs : list bytes) s' : Prop :=
  (forall k e r p, es !! k = Some e -> rs !! k = Some r -> sv_pending s !! e_index e = Some p ->
     sv_proposals s' !! p = Some (mkPendingProposal r true))
  /\ (forall p, (forall e, e ∈ es -> sv_pending s !! e_index e <> Some p) ->
        sv_proposals s' !! p = sv_proposals s !! p)
  /\ (forall i, sv_pending s' !! i
        = if bool_decide (i ∈ (e_index <$> es)) then None else sv_pending s !! i).

Lemma wake_pending_ok i r s : pending_ok s -> pending_ok (wake i r s).
Proof.
  intros [Hinj Hlen]. unfold wake. destruct (sv_pending s !! i) as [p|] eqn:E; [|done].
  split; simpl.
  - intros a b q Ha Hb. apply lookup_delete_Some in Ha as [_ Ha].
    apply lookup_delete_Some in Hb as [_ Hb]. eauto.
  - intros a q Ha. apply lookup_delete_Some in Ha as [_ Ha]. rewrite length_insert. eauto.
Qed.

Lemma wake_answered e r s :
  pending_ok s -> answered s [e] [r] (wake (e_index e) r s).
Proof.
  intros [Hinj Hlen]. unfold wake. destruct (sv_pending s !! e_index e) as [p|] eqn:E.
  - split_and!; simpl.
    + intros [|k] e' r' p' He Hr Hp; simplify_eq/=. apply list_lookup_insert_eq. eauto.
    + intros q Hq. apply list_lookup_insert_ne. intros ->. apply (Hq e); set_solver.
    + intros i. destruct (decide (i = e_index e)) as [->|Hne].
      * rewrite lookup_delete_eq, bool_decide_eq_true_2; [done|set_solver].
      * rewrite lookup_delete_ne, bool_decide_eq_false_2; [done|set_solver|done].
  - split_and!; [|done|].
    + intros [|k] e' r' p' He Hr Hp; simplify_eq/=.
    + intros i. case_bool_decide; [|done]. assert (i = e_index e) as -> by set_solver. done.
Qed.

Lemma answered_cons s e es r rs s1 s2 :
  NoDup (e_index <$> e :: es) -> pending_ok s ->
  answered s [e] [r] s1 -> answered s1 es rs s2 -> answered s (e :: es) (r :: rs) s2.
Proof.
  intros Hnd [Hinj _] (A1 & A2 & A3) (B1 & B2 & B3).
  rewrite fmap_cons in Hnd. apply NoDup_cons in Hnd as [Hni Hnd].
  assert (forall e', e' ∈ es -> sv_pending s1 !! e_index e' = sv_pending s !! e_index e') as Hsame.
  { intros e' He'. rewrite A3, bool_decide_eq_false_2; [done|]. simpl.
    intros Heq%list_elem_of_singleton. apply Hni. rewrite <- Heq. apply list_elem_of_fmap. eauto. }
  split_and!.
  - intros [|k] e' r' p He Hr Hp; simplify_eq/=.
    + rewrite B2; [by apply (A1 0%nat e')|]. intros e2 He2 Hp2. rewrite Hsame in Hp2 by done.
      assert (e_index e' = e_index e2) as E by eauto. apply Hni. rewrite E.
      apply list_elem_of_fmap. eauto.
    + apply (B1 k e' r' p He Hr). rewrite Hsame; [done|by eapply list_elem_of_lookup_2].
  - intros p Hp. rewrite B2, A2; [done| |].
    + intros e' ->%list_elem_of_singleton. apply Hp. by left.
    + intros e' He'. rewrite Hsame by done. apply Hp. by right.
  - intros i. rewrite B3, A3, fmap_cons. simpl.
    repeat case_bool_decide; set_solver.
Qed.

(** What applying leaves alone. *)
Definition same_raft s s' : Prop :=
  sv_node s' = sv_node s /\ sv_wal s' = sv_wal s /\ sv_snapFile s' = sv_snapFile s
  /\ sv_sent s' = sv_sent s /\ sv_pendingMsgs s' = sv_pendingMsgs s /\ sv_running s' = sv_running s
  /\ sv_reads s' = sv_reads s /\ sv_pendingReads s' = sv_pendingReads s.

Lemma applyCommittedEntries_same es : forall s s',
  applyCommittedEntries s es = Some s' -> same_raft s s'.
Proof.
  induction es as [|e es IH]; intros s s' Hs; cbn [applyCommittedEntries] in Hs; [by simplify_eq|].
  destruct (sm_apply _ _) as [[r f]|]; cbn [mbind option_bind] in Hs; [|done]. apply IH in Hs.
  unfold wake in Hs. destruct (_ !! _) in Hs; done.
Qed.

Lemma handleReadStates_same rss : forall s s',
  handleReadStates bookReader s rss = Some s' ->
  sv_node s' = sv_node s /\ sv_wal s' = sv_wal s /\ sv_snapFile s' = sv_snapFile s
  /\ sv_sent s' = sv_sent s /\ sv_fsm s' = sv_fsm s /\ sv_running s' = sv_running s.
Proof.
  induction rss as [|rs rss IH]; intros s s' Hs; cbn [handleReadStates] in Hs; [by simplify_eq|].
  destruct (_ !! _) as [p|]; [|by apply IH]. destruct (sv_running s) eqn:Er; [|by simplify_eq].
  destruct (_ <? _); [done|]. destruct (_ !! _) as [pd|]; cbn [mbind option_bind] in Hs; [|done].
  destruct bookReader; cbn [mbind option_bind] in Hs; [|done]. apply IH in Hs. cbn in Hs.
  by rewrite Er in Hs.
Qed.

Lemma applyCommittedEntries_spec es : forall s rs fsm',
  NoDup (e_index <$> es) -> pending_ok s ->
  StateMachine.replay (sv_fsm s) (e_data <$> es) = Some (rs, fsm') ->
  exists s', applyCommittedEntries s es = Some s' /\ sv_fsm s' = fsm' /\ answered s es rs s'
    /\ same_raft s s' /\ pending_ok s'
    /\ sv_appliedIndex s' = default (sv_appliedIndex s) (e_index <$> last es).
Proof.
  induction es as [|e es IH]; intros s rs fsm' Hnd Hok Hr; cbn in Hr.
  { simplify_eq. exists s. split_and!; try done. }
  destruct (sm_apply (sv_fsm s) (e_data e)) as [[r f1]|] eqn:Ea; cbn [mbind option_bind] in Hr; [|done].
  destruct (StateMachine.replay f1 (e_data <$> es)) as [[rs1 f2]|] eqn:Er; cbn [mbind option_bind] in Hr; [|done].
  simplify_eq. cbn [applyCommittedEntries]. rewrite Ea. cbn [mbind option_bind].
  set (s1 := wake (e_index e) r (set_fsm f1 (e_index e) s)).
  assert (pending_ok s1) as Hok1 by (by apply wake_pending_ok).
  assert (answered s [e] [r] s1) as Ha1.
  { apply (wake_answered e r (set_fsm f1 (e_index e) s)). done. }
  assert (sv_fsm s1 = f1 /\ sv_appliedIndex s1 = e_index e /\ same_raft s s1) as (Hf1 & Hi1 & Hs1).
  { unfold s1, wake. destruct (_ !! _); done. }
  pose proof Hnd as Hnd'. rewrite fmap_cons in Hnd'. apply NoDup_cons in Hnd' as [_ Hnd'].
  rewrite <- Hf1 in Er. destruct (IH s1 rs1 fsm' Hnd' Hok1 Er) as (s' & E & Hf & Ha & Hs & Hok' & Hi).
  exists s'. split_and!; [done|done|by eapply answered_cons| |done|].
  - unfold same_raft in *. destruct Hs1 as (?&?&?&?&?&?&?&?), Hs as (?&?&?&?&?&?&?&?).
    split_and!; congruence.
  - rewrite Hi, Hi1, (last_cons e). by destruct (last es).
Qed.

Lemma processReady_eq s rd :
  rd_snapshot rd = None ->
  processReady bookReader s rd =
  s ← applyCommittedEntries
        (set_net (sv_pendingMsgs s) (sv_sent s ++ rd_messages rd)
           (set_wal (persisted (sv_wal s) rd) s)) (rd_committedEntries rd);
  handleReadStates bookReader s (rd_readStates rd).
Proof.
  intros Hsn. by rewrite processReady_unfold, Hsn.
Qed.

Lemma saveHardState_reopen (w : WriteAheadLog) hs :
  is_u64 (hs_term hs) -> is_u64 (hs_vote hs) -> is_u64 (hs_commit hs) ->
  is_hardState (initialState (reopen (saveHardState w hs))) = hs.
Proof. intros. by apply readHardState_write. Qed.

Lemma processReady_spec s rd rs fsm' :
  rd_snapshot rd = None -> rd_readStates rd = [] ->
  NoDup (e_index <$> rd_committedEntries rd) -> pending_ok s ->
  StateMachine.replay (sv_fsm s) (e_data <$> rd_committedEntries rd) = Some (rs, fsm') ->
  exists s', processReady bookReader s rd = Some s'
    /\ sv_wal s' = persisted (sv_wal s) rd
    /\ sv_sent s' = sv_sent s ++ rd_messages rd
    /\ sv_fsm s' = fsm'
    /\ sv_appliedIndex s' = default (sv_appliedIndex s) (e_index <$> last (rd_committedEntries rd))
    /\ answered s (rd_committedEntries rd) rs s' /\ pending_ok s' /\ sv_node s' = sv_node s
    /\ sv_running s' = sv_running s /\ sv_pendingMsgs s' = sv_pendingMsgs s.
Proof.
  intros Hsn Hrs Hnd Hok Hr. rewrite processReady_eq, Hrs by done.
  set (s1 := set_net _ _ _).
  destruct (applyCommittedEntries_spec (rd_committedEntries rd) s1 rs fsm' Hnd Hok Hr)
    as (s' & -> & Hf & Ha & (Hn & Hw & _ & Hsent & Hin & Hrun & _) & Hok' & Hi).
  exists s'. split_and!; done.
Qed.

(** Where a call may be between two of its calls: a beginning of the
    messages is sent; none before the log and the hard state are written; and
    neither the state machine nor a waiting client sees anything before all
    of them are. *)
Definition in_sequence s (rd : Ready) s' : Prop :=
  exists ms, ms `prefix_of` rd_messages rd /\ sv_sent s' = sv_sent s ++ ms
  /\ (ms = [] \/ sv_wal s' = persisted (sv_wal s) rd)
  /\ (sv_fsm s' = sv_fsm s /\ sv_appliedIndex s' = sv_appliedIndex s /\ sv_proposals s' = sv_proposals s
      \/ ms = rd_messages rd /\ sv_wal s' = persisted (sv_wal s) rd).

Definition persists_only (c : ready_call) : Prop :=
  match c with RAppendNoSync _ | RSaveHardState _ | RSync => True | _ => False end.

Lemma persist_calls_only rd : Forall persists_only (persist_calls rd).
Proof. unfold persist_calls. destruct (bool_decide _), (_ || _); by repeat constructor. Qed.

Lemma run_persists_only cs : forall s s', Forall persists_only cs ->
  run (ready_effect bookReader) s cs = Some s' ->
  sv_sent s' = sv_sent s /\ sv_fsm s' = sv_fsm s /\ sv_appliedIndex s' = sv_appliedIndex s
  /\ sv_proposals s' = sv_proposals s.
Proof.
  induction cs as [|c cs IH]; intros s s' Hc Hs; [by injection Hs as <-|]. inversion Hc as [|? ? Hc1 Hcs]; subst.
  rewrite run_cons in Hs. destruct c; try done; cbn [ready_effect mbind option_bind] in Hs; by apply IH in Hs.
Qed.

Lemma run_last_calls k s es rss s' :
  run (ready_effect bookReader) s (take k [RApply es; RReadStates rss]) = Some s' ->
  sv_sent s' = sv_sent s /\ sv_wal s' = sv_wal s.
Proof.
  destruct k as [|[|k]]; cbn [take]; rewrite ?take_nil; intros Hs; [by injection Hs as <-|..];
    rewrite run_cons in Hs; cbn [ready_effect] in Hs;
    destruct (applyCommittedEntries s es) as [s1|] eqn:E1; cbn [mbind option_bind] in Hs; try done;
    apply applyCommittedEntries_same in E1 as (_ & Hw & _ & Hse & _); [by injection Hs as <-|].
  rewrite run_cons in Hs. cbn [ready_effect] in Hs.
  destruct (handleReadStates bookReader s1 rss) as [s2|] eqn:E2; cbn [mbind option_bind] in Hs; [|done].
  apply handleReadStates_same in E2 as (_ & Hw2 & _ & Hse2 & _). injection Hs as <-. split; congruence.
Qed.

Lemma ready_calls_in_sequence s rd k s' :
  rd_snapshot rd = None -> run (ready_effect bookReader) s (take k (ready_calls rd)) = Some s' ->
  in_sequence s rd s'.
Proof.
  intros Hsn Hs. rewrite ready_calls_split, Hsn in Hs.
  change (option_list _) with (@nil ready_call) in Hs. rewrite app_nil_l in Hs.
  rewrite take_app, run_app in Hs. destruct (decide (k < length (persist_calls rd))%nat) as [Hk|Hk].
  - replace (k - _)%nat with 0%nat in Hs by lia.
    destruct (run _ s (take k (persist_calls rd))) as [s1|] eqn:E1; [|done]. injection Hs as <-.
    apply run_persists_only in E1 as (Hse & Hf & Hi & Hp); [|by apply Forall_take, persist_calls_only].
    exists []. rewrite app_nil_r. split_and!; [apply prefix_nil|done|by left|by left].
  - rewrite (take_ge (persist_calls rd)), run_persist_calls in Hs by lia. cbn [mbind option_bind] in Hs.
    revert Hs. generalize (k - length (persist_calls rd))%nat. intros k1 Hs.
    rewrite take_app, <- fmap_take, run_app, run_sends, length_fmap in Hs. cbn [mbind option_bind] in Hs.
    pose proof (run_last_calls _ _ _ _ _ Hs) as [Hse Hw]. exists (take k1 (rd_messages rd)).
    split_and!; [apply prefix_take|done|by right|].
    destruct (decide (k1 <= length (rd_messages rd))%nat) as [Hk1|Hk1].
    + replace (k1 - _)%nat with 0%nat in Hs by lia. injection Hs as <-. by left.
    + right. by rewrite take_ge by lia.
Qed.

(** C12. Processing a Ready that carries no snapshot and no read.  When the
    state machine accepts the committed commands, the call returns; the
    entries and the hard state are in the write-ahead log, the messages are
    sent, the state machine is the replay of the commands in order, each
    client waiting for one of the entries' indices gets that entry's reply
    and waits no longer, and nobody else is affected.  It does so in this
    order: between any two of its calls, no message is sent unless the log
    and the hard state are written, and the state machine and the waiting
    clients are untouched unless every message is sent. *)
Theorem processReady_applies s rd rs fsm' :
  rd_snapshot rd = None -> rd_readStates rd = [] ->
  NoDup (e_index <$> rd_committedEntries rd) -> pending_ok s ->
  StateMachine.replay (sv_fsm s) (e_data <$> rd_committedEntries rd) = Some (rs, fsm') ->
  (exists s', processReady bookReader s rd = Some s'
    /\ sv_wal s' = persisted (sv_wal s) rd
    /\ sv_sent s' = sv_sent s ++ rd_messages rd
    /\ sv_fsm s' = fsm'
    /\ sv_appliedIndex s' = default (sv_appliedIndex s) (e_index <$> last (rd_committedEntries rd))
    /\ answered s (rd_committedEntries rd) rs s' /\ pending_ok s' /\ sv_node s' = sv_node s)
  /\ forall k s', run (ready_effect bookReader) s (take k (ready_calls rd)) = Some s' -> in_sequence s rd s'.
Proof.
  intros Hsn Hrs Hnd Hok Hr. split; [|intros k s'; by apply ready_calls_in_sequence].
  destruct (processReady_spec s rd rs fsm') as (s' & E & ? & ? & ? & ? & ? & ? & ? & _); [done..|].
  exists s'. by split_and!.
Qed.

(** C34. A restart keeps the promises the server has sent.  Once the Ready
    of a node in a term above 0 has been processed, so that the messages the
    node had queued are sent, the files alone, as [processReady] left them,
    give back a follower in the same term with the same vote, whatever its
    configuration. *)
Theorem restart_remembers_vote s rd s1 s2 c :
  loop_poll s = (rd, s1) -> processReady bookReader s1 rd = Some s2 ->
  0 < n_term (sv_node s) < 2 ^ 64 -> is_u64 (n_vote (sv_node s)) ->
  is_u64 (commitIndex (n_log (sv_node s))) ->
  let n := new_RawNode c (reopen (sv_wal s2)) in
  n_term n = n_term (sv_node s) /\ n_vote n = n_vote (sv_node s) /\ n_role n = Follower
  /\ sv_sent s2 = sv_sent s ++ n_msgs (sv_node s).
Proof.
  intros Hp Hpr Ht Hv Hc n. unfold loop_poll, poll in Hp. simplify_eq/=.
  rewrite processReady_eq in Hpr by done.
  destruct (applyCommittedEntries _ _) as [s3|] eqn:Ea; cbn [mbind option_bind] in Hpr; [|done].
  apply applyCommittedEntries_same in Ea as (_ & Hw & _ & Hsent & _).
  apply handleReadStates_same in Hpr as (_ & Hw2 & _ & Hsent2 & _).
  assert (is_hardState (initialState (reopen (sv_wal s2)))
          = mkHardState (n_term (sv_node s)) (n_vote (sv_node s)) (commitIndex (n_log (sv_node s)))) as E.
  { rewrite Hw2, Hw. cbn [sv_wal set_net set_wal set_storage set_node]. unfold persisted.
    cbn [rd_hardState makeHardState hs_term hs_commit].
    rewrite (proj2 (Z.eqb_neq (n_term (sv_node s)) 0)) by lia. cbn [negb orb].
    apply saveHardState_reopen; [cbn [hs_term]; mach|done|done]. }
  assert (n_term n = hs_term (is_hardState (initialState (reopen (sv_wal s2))))
          /\ n_vote n = hs_vote (is_hardState (initialState (reopen (sv_wal s2))))) as [Et Ev] by done.
  rewrite E in Et, Ev. split_and!; [exact Et|exact Ev|done|]. by rewrite Hsent2, Hsent.
Qed.

(** C36. What a kill inside [saveHardState] leaves.  The file is truncated and
    written in place, so that any number [k] of its bytes may be there.  A
    node started on it has each field of its hard state reduced to the bytes
    that are there, the lowest first: with eight bytes it is back in its
    term, with its vote forgotten. *)
Theorem torn_hardstate_read c logFile hs (k : nat) :
  let kept (j : nat) (v : Z) := v mod 2 ^ (Z.of_nat (Nat.min (k - j) 8) * 8) in
  let w := new_WriteAheadLog logFile (Some (take k (writeHardState [] hs))) None in
  let n := new_RawNode c w in
  is_hardState (initialState w)
    = mkHardState (kept 0%nat (hs_term hs)) (kept 8%nat (hs_vote hs)) (kept 16%nat (hs_commit hs))
  /\ n_role n = Follower /\ n_term n = kept 0%nat (hs_term hs) /\ n_vote n = kept 8%nat (hs_vote hs)
  /\ (k = 8%nat -> is_u64 (hs_term hs) -> n_term n = hs_term hs /\ n_vote n = 0).
Proof.
  cbv zeta. set (w := new_WriteAheadLog _ _ _). set (n := new_RawNode c w).
  pose proof (loadHardState_torn hs k) as E. cbv zeta in E.
  assert (is_hardState (initialState w) = loadHardState (Some (take k (writeHardState [] hs)))) as Ew by done.
  assert (n_term n = hs_term (is_hardState (initialState w)) /\ n_vote n = hs_vote (is_hardState (initialState w)))
    as [Et Ev] by done.
  rewrite Ew, E in *. split_and!; [done|done|done|done|]. intros -> Ht. rewrite Et, Ev. cbn [hs_term hs_vote].
  split; [by apply u64_small|apply Z.mod_1_r].
Qed.

(** Saving a snapshot is atomic.  Whenever a save is cut short, loading
    gives the snapshot that was there or the new one whole, and after it the
    new one. *)
Theorem snapshot_save_atomic (d : SnapshotFile) (snap : Snapshot) :
  snapshot_typed snap ->
  load (save d snap) = Some snap
  /\ forall d', d' ∈ save_states d snap -> load d' = load d \/ load d' = Some snap.
Proof.
  intros Hs. split; [by apply load_snapshot_bytes|]. intros d'. by apply save_states_load.
Qed.
End ServerTheorems.

(** ** Servers on a network *)

Section Network.
Context {S : Type} `{!StateMachine S} `{!Platform} `{!Random} `{!CommandCodec}.

Inductive net_action :=
| NRound (i : Z)                  (* a round of the loop of server [i] *)
| NDeliver (i : Z) (k : nat)      (* the [k]-th message [i] sent arrives *)
| NSubmit (i : Z) (cmd : bytes).  (* a client's command at server [i] *)

Definition net_step (net : gmap Z (Server S)) (a : net_action) : option (gmap Z (Server S)) :=
  match a with
  | NRound i => s ← net !! i; s' ← raftLoop_round None s; Some (<[i := s']> net)
  | NDeliver i k =>
      s ← net !! i;
      m ← sv_sent s !! k;
      to ← net !! m_to m;
      Some (<[m_to m := onRaftMessage to m]> net)
  | NSubmit i cmd => s ← net !! i; '(_, s') ← submitRaw s cmd; Some (<[i := s']> net)
  end.

Fixpoint net_run (net : gmap Z (Server S)) (acts : list net_action) : option (gmap Z (Server S)) :=
  match acts with
  | [] => Some net
  | a :: acts => net ← net_step net a; net_run net acts
  end.
End Network.

(** ** A concrete network: three order books *)

#[local] Instance demo_platform : Platform := {|
  sizeof_Entry := 48; sizeof_Entry_pos := conj eq_refl eq_refl |}.
#[local] Instance demo_draws : Random := {|
  draw k a b := a; draw_range k a b Hab := conj (Z.le_refl a) Hab |}.
#[local] Instance demo_codec : CommandCodec := KVCodec_instance.

Abbreviation Book := (LOBStateMachine MapOrderBook).

(** Server [i] times out after [3 * i] ticks without a leader. *)
Definition demo_server (i : Z) : Server Book :=
  set_running true
    (new_Server (mkConfig i 0 (3 * i) 1 (2 ^ 20) 256 [1; 2; 3] [] Safe) Direct
       (new_WriteAheadLog [] None None) (new_SnapshotFile None None)
       (new_LOBStateMachine (new_MapOrderBook [65]))).

Definition demo_net : gmap Z (Server Book) :=
  list_to_map [(1, demo_server 1); (2, demo_server 2); (3, demo_server 3)].

(** Server 1 leads term 1 and takes an order no one else receives; server 2
    leads term 2, and its own order reaches server 3 and commits; then a
    heartbeat of server 2 reaches server 1. *)
Definition demo_schedule : list net_action :=
  [NRound 1; NRound 1; NRound 1; NDeliver 1 0; NRound 2; NDeliver 2 0; NRound 1;
   NSubmit 1 (encodeNew 1 Buy 100 10); NRound 1;
   NRound 2; NRound 2; NRound 2; NRound 2; NRound 2; NRound 2;
   NDeliver 2 2; NRound 3; NDeliver 3 0; NRound 2; NDeliver 2 4; NRound 3; NDeliver 3 1; NRound 2;
   NSubmit 2 (encodeNew 2 Sell 90 5); NRound 2; NDeliver 2 7; NRound 3; NDeliver 3 2; NRound 2;
   NRound 2; NDeliver 2 12; NRound 1].

Definition server_view (net : gmap Z (Server Book)) (i : Z)
    : option (Z * list PriceLevel * list PriceLevel * list bool) :=
  s ← net !! i;
  Some (sv_appliedIndex s, lob_bids (sv_fsm s) 0, lob_asks (sv_fsm s) 0, pp_done <$> sv_proposals s).

(** Heartbeats can commit what was never replicated.  A follower moves
    its commit index to the leader's on a heartbeat, whatever its own log
    holds there.  In this run of three servers two of them apply different
    orders at index 1, so their books differ, and both clients are told that
    their order was executed. *)
Theorem heartbeat_commit_diverges :
  exists net, net_run demo_net demo_schedule = Some net
    /\ server_view net 1 = Some (1, [mkPriceLevel 100 10 1], [], [true])
    /\ server_view net 2 = Some (1, [], [mkPriceLevel 90 5 1], [true]).
Proof.
  eexists. split; [vm_compute; reflexivity|]. split; vm_compute; reflexivity.
Qed.

(** ** Instances at concrete values *)

(** A client waits for index 1, which holds another client's order. *)
Definition waiting_server : Server Book :=
  set_proposals [mkPendingProposal [] false] {[1 := 0%nat]} (demo_server 1).

Definition demo_ready : Ready :=
  mkReady [mkEntry 1 1 Normal (encodeNew 1 Buy 100 10)] (mkHardState 1 1 1)
    [message MsgHeartbeat 2 1 1] [mkEntry 1 1 Normal (encodeNew 1 Buy 100 10)] None [] false.

Lemma waiting_server_ok : pending_ok waiting_server.
Proof.
  split; simpl.
  - intros i j p Hi Hj. apply lookup_singleton_Some in Hi, Hj. lia.
  - intros i p Hi. apply lookup_singleton_Some in Hi. lia.
Qed.

Lemma processReady_applies_witness :
  exists s', processReady None waiting_server demo_ready = Some s'
    /\ sv_appliedIndex s' = 1
    /\ sv_proposals s' !! 0%nat
       = Some (mkPendingProposal [1; 0; 0; 0; 0; 1; 10; 0; 0; 0; 0; 0; 0; 0] true).
Proof.
  edestruct (processReady_applies None waiting_server demo_ready)
    as [(s' & E & _ & _ & _ & Hi & (Ha & _) & _) _].
  - reflexivity.
  - reflexivity.
  - apply (bool_decide_unpack _); vm_compute; exact I.
  - exact waiting_server_ok.
  - vm_compute. reflexivity.
  - exists s'. split; [exact E|]. split; [exact Hi|].
    eapply (Ha 0%nat); [reflexivity|reflexivity|vm_compute; reflexivity].
Defined.

Definition run_to (k : nat) (i : Z) : Server Book :=
  default (demo_server i) (net ← net_run demo_net (take k demo_schedule); net !! i).

(** Server 2 has granted its vote to server 1 in term 1 and sends it. *)
Lemma restart_remembers_vote_witness :
  let s := default (demo_server 2) (loop_drain (run_to 4 2)) in
  exists rd s1 s2, loop_poll s = (rd, s1) /\ processReady None s1 rd = Some s2
    /\ n_vote (new_RawNode (mkConfig 2 0 6 1 (2 ^ 20) 256 [1; 2; 3] [] Safe) (reopen (sv_wal s2)))
       = n_vote (sv_node s)
    /\ n_vote (sv_node s) = 1.
Proof.
  intros s. eexists _, _, _. split; [vm_compute; reflexivity|]. split; [vm_compute; reflexivity|].
  split; [|vm_compute; reflexivity].
  eapply (restart_remembers_vote None s).
  - vm_compute. reflexivity.
  - vm_compute. reflexivity.
  - vm_compute. split; reflexivity.
  - split; vm_compute; [discriminate|reflexivity].
  - split; vm_compute; [discriminate|reflexivity].
Defined.

Lemma snapshot_save_atomic_witness :
  load (save (new_SnapshotFile None (Some [7])) (mkSnapshot 1 5 [1; 2; 3]))
  = Some (mkSnapshot 1 5 [1; 2; 3]).
Proof.
  apply (snapshot_save_atomic (new_SnapshotFile None (Some [7])) (mkSnapshot 1 5 [1; 2; 3])).
  split; [|split]; [apply (bool_decide_unpack _); vm_compute; exact I..|].
  split; [|vm_compute; reflexivity]. apply (bool_decide_unpack _); vm_compute; exact I.
Defined.
