(* ===== verification/Submission.v ===== *)
(** * A command from the client to the book and back

    What the loops of [src/app/server/Server.cpp] do with a command when
    nothing fails: the leading server appends, persists and sends it, a
    following server persists it and acknowledges it, and the leading server
    commits it, applies it and answers the client.  Each part of a round of
    the loop is described for a server at rest ([quiet]), then the three
    rounds are put together. *)

From S2P Require Import Prelude StdMap OrderProtocol IOrderBook MapOrderBook StateMachine LOBStateMachine CommandCodec.
From S2P Require Import RaftTypes LogUnstable WriteAheadLog RaftLog RaftLogTheorems Progress ReadOnly RawNode.
From S2P Require Import BookSpec BookTheorems LOBTheorems SnapshotFile Replication Server ServerTheorems.

(** ** A turn of the node: poll, persist, advance *)

Section Turn.
Context `{!Platform} `{!Random}.
Implicit Types (w : WriteAheadLog) (n : RawNode).

(** A log in order over its storage, with nothing applied that is not
    committed. *)
Record in_order w (l : RaftLog) : Prop := {
  io_log : raftlog_ok w l;
  io_synced : log_list w l <> [] -> synced w l;
  io_stale : no_stale w l;
  io_room : log_last w l < 2 ^ 62 - 1;
  io_plain : u_snapshot (rl_unstable l) = None;
  io_typed : Forall entry_typed (unstableEntries l);
  io_cursors : log_first w l - 1 <= rl_applied l <= rl_committed l;
  io_committed : rl_committed l <= log_last w l
}.

(** The entries that wait to be applied. *)
Definition due w (l : RaftLog) : list Entry :=
  log_slice (log_first w l) (rl_applied l + 1) (rl_committed l + 1) (log_list w l).

Lemma due_contiguous w l :
  in_order w l ->
  contiguous (rl_applied l + 1) (due w l) /\ Z.of_nat (length (due w l)) = rl_committed l - rl_applied l.
Proof.
  intros [Hok _ _ _ _ _ Ha Hc]. pose proof (log_contiguous _ _ Hok) as Hcon. unfold log_last in Hc. split.
  - apply contiguous_take. replace (rl_applied l + 1) with
      (log_first w l + Z.of_nat (Z.to_nat (rl_applied l + 1 - log_first w l))) at 1 by lia.
    apply contiguous_drop; [done|lia].
  - unfold due. rewrite length_log_slice by lia. lia.
Qed.

Lemma contiguous_nodup first es : contiguous first es -> NoDup (e_index <$> es).
Proof.
  intros Hc. apply NoDup_alt. intros i j x Hi Hj. rewrite list_lookup_fmap in Hi, Hj.
  apply fmap_Some in Hi as (a & Hi & ->). apply fmap_Some in Hj as (b & Hj & E).
  rewrite (Hc _ _ Hi), (Hc _ _ Hj) in E. lia.
Qed.

Lemma last_due w l :
  in_order w l ->
  match last (due w l) with
  | Some e => e_index e = rl_committed l /\ rl_applied l < rl_committed l
  | None => rl_applied l = rl_committed l
  end.
Proof.
  intros [Hc Hl]%due_contiguous. destruct (last (due w l)) as [e|] eqn:E.
  - rewrite last_lookup in E. rewrite (Hc _ _ E). apply lookup_lt_Some in E. lia.
  - apply last_None in E. rewrite E in Hl. simpl in Hl. lia.
Qed.

(** Saving the hard state leaves the log alone. *)
Lemma saved_log w hs l :
  raftlog_ok (saveHardState w hs) l = raftlog_ok w l /\ synced (saveHardState w hs) l = synced w l
  /\ log_first (saveHardState w hs) l = log_first w l /\ log_list (saveHardState w hs) l = log_list w l
  /\ st_log (saveHardState w hs) = st_log w /\ st_lastIndex (saveHardState w hs) = st_lastIndex w.
Proof. done. Qed.

(** The log [l'] over [w'] is [l] over [w] with everything on disk. *)
Record on_disk w (l : RaftLog) w' (l' : RaftLog) : Prop := {
  od_order : in_order w' l';
  od_first : log_first w' l' = log_first w l;
  od_list : log_list w' l' = log_list w l;
  od_stored : st_log w' = log_list w l;
  od_stable : unstableEntries l' = [];
  od_committed : rl_committed l' = rl_committed l
}.

Lemma unstable_last_index w l e :
  raftlog_ok w l -> last (unstableEntries l) = Some e -> e_index e = log_last w l.
Proof.
  intros Hok He. pose proof Hok as (_ & (Hc & _) & _).
  assert (unstableEntries l <> []) as Hne by (by intros E; rewrite E in He).
  pose proof (unstable_last _ _ Hok Hne) as Hl. rewrite last_lookup in He.
  unfold u_size, unstableEntries in *. rewrite (Hc _ _ He). destruct (u_entries (rl_unstable l)); [done|simpl in *; lia].
Qed.

Lemma unstable_pos w l : in_order w l -> unstableEntries l <> [] -> 0 < log_last w l.
Proof.
  intros [Hok _ _ _ Hsn _ _ _] Hne. pose proof (unstable_last _ _ Hok Hne) as Hul. pose proof (log_first_range _ _ Hok) as Hf.
  destruct Hok as (_ & _ & Hov). specialize (Hov Hsn Hne). unfold log_first in Hf. rewrite Hsn in Hf.
  unfold u_size, unstableEntries in *. destruct (u_entries (rl_unstable l)); [done|]. simpl in Hul. lia.
Qed.

(** The unstable entries are written and marked stable. *)
Lemma stable_turn w l (hs : HardState) (saves : bool) t :
  in_order w l ->
  let w1 := match unstableEntries l with [] => w | es => appendNoSync w es end in
  let w' := if saves then saveHardState w1 hs else w1 in
  let l' := if bool_decide (unstableEntries l = []) then l else stableTo l (log_last w l) t in
  on_disk w l w' l' /\ rl_applied l' = rl_applied l.
Proof.
  intros Hio w1 w' l'. pose proof Hio as [Hok Hsy Hns Hroom Hsn Hty Ha Hc].
  assert (raftlog_ok w1 l' /\ (log_list w1 l' <> [] -> synced w1 l') /\ log_first w1 l' = log_first w l /\ log_list w1 l' = log_list w l
    /\ st_log w1 = log_list w l /\ unstableEntries l' = [] /\ u_snapshot (rl_unstable l') = None /\ no_stale w1 l'
    /\ rl_committed l' = rl_committed l /\ rl_applied l' = rl_applied l)
    as (Hok' & Hsy' & Ef & El & Es & Eu & Esn & Hns' & Ec & Ea).
  { unfold w1, l'. destruct (unstableEntries l) as [|e es] eqn:E.
    - split_and!; try done. unfold log_list. unfold unstableEntries in E. by rewrite Hsn, E.
    - rewrite bool_decide_eq_false_2 by done.
      destruct (persist_cycle w l t Hok Hsn) as (Hok' & Hsy' & Ef & El & Es & Eu & Esn & _); rewrite ?E; try done.
      { by rewrite lastIndex_eq. }
      rewrite lastIndex_eq, E in * by done. change (WriteAheadLog.append w (e :: es)) with (appendNoSync w (e :: es)) in *.
      set (l2 := stableTo _ _ _) in *.
      assert (log_first w l = st_firstIndex (appendNoSync w (e :: es))) as Efs
        by (rewrite <- Ef; unfold log_first; by rewrite Esn).
      assert (st_lastIndex (appendNoSync w (e :: es)) <= log_last (appendNoSync w (e :: es)) l2).
      { unfold log_last. rewrite Ef, El, <- Es, Efs. by rewrite (st_last_eq _ (proj1 Hok')). }
      by split_and!. }
  assert (in_order w1 l') as Hio'.
  { constructor; try done; [unfold log_last; by rewrite Ef, El|by rewrite Eu|by rewrite Ef, Ea, Ec|].
    unfold log_last. by rewrite Ef, El, Ec. }
  split; [|done]. destruct saves; [|by constructor]. constructor; try done. by destruct Hio'.
Qed.

Lemma committed_due w l : in_order w l -> nextCommittedEntries w l true = due w l.
Proof.
  intros Hio. pose proof Hio as [Hok Hsy _ Hroom _ _ Ha Hc]. pose proof (log_first_range _ _ Hok) as Hf.
  destruct (decide (rl_committed l <= rl_applied l)) as [Hle|Hgt].
  - unfold nextCommittedEntries. rewrite (proj2 (Z.leb_le _ _) Hle). symmetry. apply nil_length_inv.
    pose proof (proj2 (due_contiguous _ _ Hio)). lia.
  - apply nextCommittedEntries_eq; [done| |split; lia|lia|done]. apply Hsy. intros E. unfold log_last in Hc. rewrite E in Hc.
    simpl in Hc. lia.
Qed.

(** A node between two turns. *)
Record quiet w n : Prop := {
  q_order : in_order w (n_log n);
  q_reads : n_readStates n = [];
  q_marks : (n_lastReadyLastIndex n, n_lastReadyApplied n) = (0, 0)
}.

Lemma term_returns w l i : raftlog_ok w l -> 0 <= i < 2 ^ 63 -> forall w', is_Some (RaftLog.term w' l i).
Proof.
  intros (_ & Hu & _) Hi w'. unfold RaftLog.term. destruct (_ =? _); [eauto|].
  rewrite maybeTerm_eq by done. cbn [mbind option_bind]. repeat case_match; eauto.
Qed.

Lemma advance_eq w n t :
  (0 < n_lastReadyLastIndex n -> RaftLog.term w (n_log n) (n_lastReadyLastIndex n) = Some t) ->
  advance w n = Some (
    let i := n_lastReadyLastIndex n in let a := n_lastReadyApplied n in
    let l1 := if 0 <? i then stableTo (n_log n) i t else n_log n in
    set_log (if 0 <? a then appliedTo l1 a else l1)
      (set_output (n_msgs n) (if 0 <? i then 0 else i) (if 0 <? a then 0 else a) (n_readStates n) (n_readRequestors n) n)).
Proof.
  intros Ht. unfold advance. destruct (Z.ltb_spec 0 (n_lastReadyLastIndex n)) as [Hi|Hi].
  - rewrite Ht by done. cbn. by destruct (0 <? _).
  - cbn. destruct (0 <? _); [done|by destruct n].
Qed.

(** The entries are on disk, what is committed is handed out, and the node
    is at rest. *)
Lemma node_turn w n :
  quiet w n ->
  let rd := (poll w n).1 in
  rd_committedEntries rd = due w (n_log n)
  /\ exists l', advance (persisted w rd) (poll w n).2 = Some (set_log l' (set_output [] 0 0 [] (n_readRequestors n) n))
    /\ on_disk w (n_log n) (persisted w rd) l' /\ rl_applied l' = rl_committed (n_log n).
Proof.
  intros [Hio _ Hm] rd. pose proof Hio as [Hok Hsy Hns Hroom Hsn Hty Ha Hc]. injection Hm as Hm1 Hm2.
  pose proof (log_first_range _ _ Hok) as Hf.
  assert (nextCommittedEntries w (n_log n) true = due w (n_log n)) as Edue by (by apply committed_due).
  split; [exact Edue|]. set (n1 := (poll w n).2).
  assert (n_lastReadyLastIndex n1 = if bool_decide (unstableEntries (n_log n) = []) then 0 else log_last w (n_log n)) as Ei.
  { unfold n1, poll. cbn. rewrite Hm1. destruct (last (unstableEntries (n_log n))) as [e|] eqn:E.
    - rewrite bool_decide_eq_false_2 by (intros E0; by rewrite E0 in E). by apply unstable_last_index.
    - apply last_None in E. by rewrite E. }
  assert (n_lastReadyApplied n1 = if decide (rl_applied (n_log n) < rl_committed (n_log n)) then rl_committed (n_log n) else 0) as Ea.
  { unfold n1, poll. cbn. rewrite Hm2, Edue. pose proof (last_due w (n_log n) Hio) as Hl.
    destruct (last (due w (n_log n))); [destruct Hl as [? ?]; by rewrite decide_True|rewrite decide_False; [done|lia]]. }
  destruct (term_returns w (n_log n) (log_last w (n_log n)) Hok) with (w' := persisted w rd) as [t Et].
  { unfold log_last in *. lia. }
  rewrite (advance_eq (persisted w rd) n1 t).
  2: { rewrite Ei. case_bool_decide; [lia|done]. }
  destruct (stable_turn w (n_log n) (rd_hardState rd)
    (negb (hs_term (rd_hardState rd) =? 0) || negb (hs_commit (rd_hardState rd) =? 0)) t Hio) as [Hod Eapp].
  change (if _ || _ then saveHardState _ _ else _) with (persisted w rd) in Hod.
  set (l1 := if bool_decide _ then n_log n else _) in *. cbv zeta. rewrite Ei, Ea.
  assert (unstableEntries (n_log n) <> [] -> 0 <? log_last w (n_log n) = true) as Hpos
    by (intros; apply Z.ltb_lt; by apply unstable_pos).
  replace (if 0 <? _ then stableTo _ _ t else _) with l1 by (unfold l1; case_bool_decide as E; [done|by rewrite Hpos]).
  replace (if 0 <? (if bool_decide _ then _ else _) then 0 else _) with 0 by (case_bool_decide as E; [done|by rewrite Hpos]).
  case_decide as Hlt.
  - rewrite (proj2 (Z.ltb_lt 0 _)) by lia. eexists. split; [reflexivity|]. destruct Hod as [Hio' ? ? ? ? Ecm].
    unfold appliedTo. rewrite Eapp, Ecm, (proj2 (Z.ltb_ge _ (rl_applied _))), Z.ltb_irrefl by lia. cbn [orb].
    split; [|done]. constructor; try done. destruct Hio' as [????? ? Ha' Hc']. constructor; try done; rewrite <- Ecm; [|exact Hc'].
    change (log_first (persisted w rd) l1 - 1 <= rl_committed l1 <= rl_committed l1). lia.
  - cbn. eexists. split; [reflexivity|]. split; [done|lia].
Qed.
End Turn.

(** ** A round of the server's loop *)

Section Rounds.
Context {S : Type} `{!StateMachine S} `{!Platform} `{!Random}.
Context (bookReader : option (BookReader S)).
Implicit Types (s f : Server S).

Definition server_turn s : option (Server S) :=
  let '(rd, s) := loop_poll s in s ← processReady bookReader s rd; loop_advance s.

Lemma round_eq s :
  raftLoop_round bookReader s = s ← loop_tick s; s ← loop_drain s; server_turn s.
Proof. done. Qed.

(** The state after a turn: the node at rest with its log on disk, its
    messages sent, what was due applied and answered. *)
Record turned s (rs : list bytes) (fsm' : S) s' : Prop := {
  tu_node : exists l', sv_node s' = set_log l' (set_output [] 0 0 [] (n_readRequestors (sv_node s)) (sv_node s));
  tu_disk : on_disk (sv_wal s) (n_log (sv_node s)) (sv_wal s') (n_log (sv_node s'));
  tu_applied : rl_applied (n_log (sv_node s')) = rl_committed (n_log (sv_node s));
  tu_sent : sv_sent s' = sv_sent s ++ n_msgs (sv_node s);
  tu_fsm : sv_fsm s' = fsm';
  tu_answered : answered s (due (sv_wal s) (n_log (sv_node s))) rs s';
  tu_pending : pending_ok s';
  tu_running : sv_running s' = sv_running s;
  tu_inbox : sv_pendingMsgs s' = sv_pendingMsgs s
}.

Lemma server_turn_spec s rs fsm' :
  quiet (sv_wal s) (sv_node s) -> pending_ok s ->
  StateMachine.replay (sv_fsm s) (e_data <$> due (sv_wal s) (n_log (sv_node s))) = Some (rs, fsm') ->
  exists s', server_turn s = Some s' /\ turned s rs fsm' s'.
Proof.
  intros Hq Hpo Hr. destruct (node_turn _ _ Hq) as (Edue & l' & Eadv & Hod & Eapp).
  unfold server_turn, loop_poll. destruct (poll (sv_wal s) (sv_node s)) as [rd n1] eqn:Ep.
  cbn [fst snd] in *. rewrite <- Edue in Hr.
  assert (rd_snapshot rd = None /\ rd_readStates rd = n_readStates (sv_node s) /\ rd_messages rd = n_msgs (sv_node s))
    as (Esn & Ers & Em) by (unfold poll in Ep; by simplify_eq/=).
  destruct (processReady_spec bookReader (set_node n1 s) rd rs fsm')
    as (s2 & -> & Ew & Esent & Ef & _ & Ha & Hpo2 & En & Erun & Ein); [done|by rewrite Ers, (q_reads _ _ Hq)| |done|done|].
  { rewrite Edue. eapply contiguous_nodup, due_contiguous, Hq. }
  cbn [mbind option_bind]. unfold loop_advance. rewrite Ew, En. cbn [sv_wal sv_node set_node]. rewrite Eadv.
  cbn [mbind option_bind]. eexists. split; [done|]. rewrite Edue in Ha. cbn [sv_wal set_node] in Ew.
  constructor; try done; [by eexists|by rewrite <- Ew in Hod|by rewrite <- Em].
Qed.

(** What a turn leaves of the node. *)
Lemma turned_quiet s rs fsm' s' : turned s rs fsm' s' -> quiet (sv_wal s') (sv_node s').
Proof. intros [(l' & En) [Hio _ _ _ _ _] _ _ _ _ _ _ _]. by constructor; rewrite ?En in *. Qed.

Lemma turned_last s rs fsm' s' :
  turned s rs fsm' s' ->
  log_first (sv_wal s') (n_log (sv_node s')) = log_first (sv_wal s) (n_log (sv_node s))
  /\ log_list (sv_wal s') (n_log (sv_node s')) = log_list (sv_wal s) (n_log (sv_node s))
  /\ log_last (sv_wal s') (n_log (sv_node s')) = log_last (sv_wal s) (n_log (sv_node s))
  /\ rl_committed (n_log (sv_node s')) = rl_committed (n_log (sv_node s)).
Proof. intros [_ [_ Ef El _ _ Ec] _ _ _ _ _ _ _]. split_and!; [done|done|unfold log_last; by rewrite Ef, El|done]. Qed.

(** *** Time *)

Lemma heartbeats_only (ids : list Z) : forall n,
  exists ms, foldl (fun acc id => n ← acc; if id =? n_id n then Some n else Some (sendHeartbeat n id)) (Some n) ids
    = Some (set_msgs (n_msgs n ++ ms) n).
Proof.
  induction ids as [|id ids IH]; intros n; cbn [foldl mbind option_bind].
  { exists []. rewrite app_nil_r. by destruct n. }
  destruct (id =? n_id n); [apply IH|]. destruct (IH (sendHeartbeat n id)) as [ms ->].
  eexists. f_equal. unfold sendHeartbeat at 1 2, send. cbn [n_msgs set_msgs set_output]. by rewrite <- app_assoc.
Qed.

(** A leader's clock only makes it send heartbeats. *)
Lemma tick_leader w n :
  n_role n = Leader -> exists b c ms, tick (St := WriteAheadLog) w n = Some (b, set_msgs (n_msgs n ++ ms) (set_tick c n)).
Proof.
  intros Hr. unfold tick. rewrite bool_decide_eq_true_2 by done. cbv zeta. destruct (_ <=? _).
  - unfold tickHeartbeat, broadcastHeartbeat, for_peers.
    destruct (heartbeats_only (n_pr (set_tick (u32 (n_tickCount n + 1)) n)).*1 (set_tick (u32 (n_tickCount n + 1)) n)) as [ms ->].
    cbn [mbind option_bind]. by exists true, 0, ms.
  - exists false, (u32 (n_tickCount n + 1)), []. rewrite app_nil_r. by destruct n.
Qed.

(** A follower's clock runs on. *)
Lemma tick_follower w n :
  n_role n = Follower -> u32 (n_tickCount n + 1) < n_randomizedElectionTick n ->
  tick (St := WriteAheadLog) w n = Some (false, set_tick (u32 (n_tickCount n + 1)) n).
Proof.
  intros Hr Ht. unfold tick, tickElection. rewrite bool_decide_eq_false_2 by (by rewrite Hr). cbv zeta.
  by rewrite (proj2 (Z.leb_gt _ _)).
Qed.

(** ** The leader's server *)

Lemma in_order_append (w : WriteAheadLog) l e :
  in_order w l -> entry_typed e -> e_index e = log_last w l + 1 -> log_last w l + 2 < 2 ^ 62 ->
  in_order w (set_unstable (u_append (rl_unstable l) [e]) l).
Proof.
  intros [Hok Hsy Hns Hroom Hsn Hty Ha Hc] Het Hix Hb.
  destruct (append_next w l e Hok Hns Hix ltac:(lia)) as (Hok' & Hns' & Hsy' & Hf' & EL & Hl').
  destruct (u_append_kept (rl_unstable l) [e]) as [Esn Hall].
  constructor; try done; [lia|by rewrite <- Hsn|apply Hall; [done|by constructor]|by rewrite Hf'|].
  rewrite Hl'. cbn [rl_committed set_unstable]. lia.
Qed.

(** A peer that has everything, and whose window can only become empty. *)
Definition keeps_up (w : WriteAheadLog) n (p : Progress) : Prop :=
  current w n p /\ Forall (fun x => x <= log_last w (n_log n)) (queue (p_inflights p)).

(** A leader at rest with a peer [j] that keeps up. *)
Record leading s (j : Z) : Prop := {
  ld_quiet : quiet (sv_wal s) (sv_node s);
  ld_healthy : healthy (sv_wal s) (sv_node s);
  ld_term : n_term (sv_node s) < 2 ^ 64;
  ld_room : log_last (sv_wal s) (n_log (sv_node s)) + 2 < 2 ^ 62;
  ld_applied : rl_applied (n_log (sv_node s)) = rl_committed (n_log (sv_node s));
  ld_quorum : quorum (sv_node s) = 2%nat;
  ld_other : j <> n_id (sv_node s);
  ld_peer : exists p, pr_find j (n_pr (sv_node s)) = Some p /\ keeps_up (sv_wal s) (sv_node s) p;
  ld_inbox : sv_pendingMsgs s = [];
  ld_pending : pending_ok s
}.

(** The server [s1] has taken the command of a client. *)
Record submitted s (j : Z) (cmd : bytes) s1 : Prop := {
  su_wal : sv_wal s1 = sv_wal s;
  su_fsm : sv_fsm s1 = sv_fsm s;
  su_inbox : sv_pendingMsgs s1 = [];
  su_pending : pending_ok s1;
  su_waits : sv_pending s1 !! (log_last (sv_wal s) (n_log (sv_node s)) + 1) = Some (length (sv_proposals s));
  su_quiet : quiet (sv_wal s) (sv_node s1);
  su_sender : sender (sv_wal s) (sv_node s1);
  su_alike : alike (self_progress (sv_wal s) (RawNode.set_log (set_unstable
    (u_append (rl_unstable (n_log (sv_node s))) [new_entry (sv_wal s) (sv_node s) cmd]) (n_log (sv_node s))) (sv_node s))) (sv_node s1);
  su_view k : k <> n_id (sv_node s) -> sm_find Z.ltb k (view (sv_node s1)) = sm_find Z.ltb k (view (sv_node s));
  su_self : is_Some (sm_find Z.ltb (n_id (sv_node s)) (view (sv_node s1)));
  su_sends : carrier (sv_wal s) (sv_node s) j cmd ∈ n_msgs (sv_node s1);
  su_peer p : pr_find j (n_pr (sv_node s)) = Some p ->
    exists i, add (p_inflights p) (log_last (sv_wal s) (n_log (sv_node s)) + 1) = Some i
      /\ pr_find j (n_pr (sv_node s1)) = Some (set_inflights i p)
}.

Lemma pending_ok_add s i :
  pending_ok s ->
  pending_ok (set_proposals (sv_proposals s ++ [mkPendingProposal [] false]) (<[i := length (sv_proposals s)]> (sv_pending s)) s).
Proof.
  intros [Hinj Hlen]. split; cbn [sv_pending sv_proposals set_proposals].
  - intros a b q Ha Hb. rewrite lookup_insert_Some in Ha, Hb.
    destruct Ha as [[-> <-]|[_ Ha]], Hb as [[-> Hq]|[_ Hb]]; [done| | |by eapply Hinj].
    + apply Hlen in Hb. lia.
    + subst q. apply Hlen in Ha. lia.
  - intros a q Ha. rewrite length_app. simpl. apply lookup_insert_Some in Ha as [[_ <-]|[_ Ha]]; [lia|].
    apply Hlen in Ha. lia.
Qed.

Lemma submit_spec s j cmd :
  leading s j -> str_ok cmd ->
  exists s1, submitRaw s cmd = Some (Some (length (sv_proposals s)), s1) /\ submitted s j cmd s1.
Proof.
  intros [[Hio Hrd Hmk] Hh Hterm Hroom Hap Hq Hj (p & Hp & Hcur & _) Hin Hpo] Hcmd.
  pose proof Hh as [Hs Hr Ht _ Hf1 Hc [p0 Hp0] _].
  destruct (propose_sends (sv_wal s) (sv_node s) cmd p0 j p) as (n1 & E1 & Hs1 & Hal & Hview & Hself & Hsend & Hadd);
    [done|lia|done..|apply Hc|].
  assert (in_order (sv_wal s) (n_log n1)) as Hio1.
  { rewrite (al_log _ _ Hal). apply in_order_append; [done| |done|lia].
    pose proof (log_first_range _ _ (io_log _ _ Hio)). unfold log_last in *.
    split_and!; try done; cbn [new_entry e_term e_index]; unfold log_last; mach. }
  unfold submitRaw, isLeader. rewrite bool_decide_eq_true_2 by done. cbn [negb]. unfold propose_wait. rewrite E1.
  cbn [mbind option_bind negb]. eexists. split; [done|].
  assert (RaftLog.lastIndex (sv_wal s) (n_log n1) = log_last (sv_wal s) (n_log (sv_node s)) + 1) as Elast.
  { rewrite lastIndex_eq by apply Hio1. rewrite (al_log _ _ Hal).
    by apply (append_next (sv_wal s) (n_log (sv_node s)) (new_entry (sv_wal s) (sv_node s) cmd)); [apply Hs..| |lia]. }
  constructor; try done; cbn [sv_wal sv_node set_node set_proposals sv_pending].
  - by apply (pending_ok_add (set_node n1 s)).
  - rewrite Elast. apply lookup_insert_eq.
  - constructor; [done|by rewrite (al_reads _ _ Hal)|by rewrite (al_marks _ _ Hal)].
  - intros p' Hp'. rewrite Hp in Hp'. by injection Hp' as <-.
Qed.

Lemma sender_on_disk (w w' : WriteAheadLog) n n' :
  sender w n -> on_disk w (n_log n) w' (n_log n') -> n_pr n' = n_pr n -> sender w' n'.
Proof.
  intros [_ _ _ Hl Hso Hp] [[Hok Hsy Hns _ _ _ _ _] Ef El _ _ _] Epr.
  assert (log_last w' (n_log n') = log_last w (n_log n)) as Ell by (unfold log_last; by rewrite Ef, El).
  constructor; try done; [lia|by rewrite Epr|]. intros k p. rewrite Epr, Ef, Ell. apply Hp.
Qed.

Lemma turned_healthy s rs fsm' s' :
  turned s rs fsm' s' -> healthy (sv_wal s) (sv_node s) -> healthy (sv_wal s') (sv_node s').
Proof.
  intros Ht [Hs Hr Hterm Hroom Hf Hc Hself Hm]. destruct (turned_last _ _ _ _ Ht) as (Ef & _ & El & Ec).
  pose proof Ht as [(l' & En) Hod _ _ _ _ _ _ _]. pose proof (sender_on_disk _ _ _ _ Hs Hod) as Hs'. rewrite En in *.
  constructor; try done; [by apply Hs'|by rewrite El|by rewrite Ef| |by intros k p; rewrite El; apply Hm].
  unfold commitIndex in *. by rewrite Ef, El, Ec.
Qed.

Lemma due_none (w : WriteAheadLog) l : rl_applied l = rl_committed l -> due w l = [].
Proof. intros E. unfold due, log_slice. by rewrite E, Z.sub_diag. Qed.

(** The server [s2] has written and sent the command; the client waits. *)
Record sent_out s (j : Z) (cmd : bytes) s1 s2 : Prop := {
  so_sent : carrier (sv_wal s) (sv_node s) j cmd ∈ sv_sent s2;
  so_resumes : resumes (sv_wal s) (sv_node s1) (sv_wal s2) (sv_node s2);
  so_pr : n_pr (sv_node s2) = n_pr (sv_node s1);
  so_quiet : quiet (sv_wal s2) (sv_node s2);
  so_applied : rl_applied (n_log (sv_node s2)) = rl_committed (n_log (sv_node s));
  so_stored : st_log (sv_wal s2) = log_list (sv_wal s) (n_log (sv_node s)) ++ [new_entry (sv_wal s) (sv_node s) cmd];
  so_fsm : sv_fsm s2 = sv_fsm s;
  so_waits : sv_pending s2 !! (log_last (sv_wal s) (n_log (sv_node s)) + 1) = Some (length (sv_proposals s));
  so_pending : pending_ok s2;
  so_inbox : sv_pendingMsgs s2 = []
}.

Lemma sending_round s j cmd s1 :
  leading s j -> submitted s j cmd s1 ->
  exists s2, raftLoop_round bookReader s1 = Some s2 /\ sent_out s j cmd s1 s2.
Proof.
  intros Hld [Ew Ef Ein Hpo Hw [Hio Hrd Hmk] Hs Hal Hview Hself Hsend _]. rewrite round_eq. unfold loop_tick.
  pose proof Hld as [[Hio0 _ _] Hh _ Hroom Hap _ _ _ _ _]. rewrite <- Ew in Hio, Hs.
  destruct (tick_leader (sv_wal s1) (sv_node s1)) as (b & c & ms & ->).
  { rewrite (al_role _ _ Hal). apply Hh. }
  cbn [mbind option_bind]. set (n2 := set_msgs _ _). unfold loop_drain. cbn [sv_pendingMsgs set_node]. rewrite Ein.
  cbn [step_all mbind option_bind sv_node sv_sent set_node]. set (s1' := set_net _ _ _).
  assert (rl_applied (n_log (sv_node s1)) = rl_committed (n_log (sv_node s1))
    /\ rl_committed (n_log (sv_node s1)) = rl_committed (n_log (sv_node s))) as [Eac Ecc] by (rewrite (al_log _ _ Hal); done).
  destruct (server_turn_spec s1' [] (sv_fsm s1)) as (s2 & -> & [(l' & En) Hod Eap Esent Ef2 Hans Hpo2 Erun Ein2]);
    [by constructor|done|by rewrite due_none|]. cbn [sv_wal sv_node s1' set_net set_node] in Hod, Eap, Esent.
  change (n_log n2) with (n_log (sv_node s1)) in *. change (n_msgs n2) with (n_msgs (sv_node s1) ++ ms) in Esent.
  exists s2. split; [done|]. destruct (append_next (sv_wal s) (n_log (sv_node s)) (new_entry (sv_wal s) (sv_node s) cmd))
    as (_ & _ & _ & _ & EL & _); [apply Hh|apply Hh|done|lia|].
  pose proof Hod as [Hio2 Ef' El' Est _ Ec']. rewrite En in *. cbn [n_log RawNode.set_log set_repl] in *. constructor; rewrite ?En; try done.
  - rewrite Esent. set_solver.
  - rewrite Ew in *. constructor; try done.
    by apply (sender_on_disk (sv_wal s) (sv_wal s2) (sv_node s1)).
  - etransitivity; [exact Eap|exact Ecc].
  - by rewrite Est, Ew, (al_log _ _ Hal).
  - by rewrite Ef2.
  - destruct Hans as (_ & _ & Hp). rewrite Hp, due_none by done. exact Hw.
Qed.

(** ** The follower's server *)

Record following s f : Prop := {
  fo_quiet : quiet (sv_wal f) (sv_node f);
  fo_step : in_step (sv_wal s) (sv_node s) (sv_wal f) (sv_node f);
  fo_clock : u32 (n_tickCount (sv_node f) + 1) < n_randomizedElectionTick (sv_node f);
  fo_inbox : sv_pendingMsgs f = [];
  fo_pending : pending_ok f
}.

(** What the leader has committed and the follower [f] has not applied. *)
Definition behind s f : list Entry :=
  log_slice (log_first (sv_wal s) (n_log (sv_node s))) (rl_applied (n_log (sv_node f)) + 1)
    (Z.max (rl_committed (n_log (sv_node f))) (rl_committed (n_log (sv_node s))) + 1) (log_list (sv_wal s) (n_log (sv_node s))).

Lemma log_slice_app_l first lo hi (L K : list Entry) :
  first <= lo <= hi -> hi - first <= Z.of_nat (length L) ->
  log_slice first lo hi (L ++ K) = log_slice first lo hi L.
Proof.
  intros Hlo Hhi. unfold log_slice. rewrite drop_app_le, take_app_le by (rewrite ?length_drop; lia). done.
Qed.

(** The log of a follower that has taken the command. *)
Lemma taken_in_order s f cmd :
  healthy (sv_wal s) (sv_node s) -> n_term (sv_node s) < 2 ^ 64 ->
  log_last (sv_wal s) (n_log (sv_node s)) + 2 < 2 ^ 62 -> following s f -> str_ok cmd ->
  let l' := taken (sv_wal s) (sv_node s) cmd (sv_wal f) (sv_node f) in
  in_order (sv_wal f) l' /\ due (sv_wal f) l' = behind s f
  /\ log_first (sv_wal f) l' = log_first (sv_wal s) (n_log (sv_node s))
  /\ rl_committed l' = Z.max (rl_committed (n_log (sv_node f))) (rl_committed (n_log (sv_node s)))
  /\ log_list (sv_wal f) l' = log_list (sv_wal s) (n_log (sv_node s)) ++ [new_entry (sv_wal s) (sv_node s) cmd].
Proof.
  intros [_ _ Ht _ Hf1 Hc _ _] Hterm Hroom [[Hio _ _] Hst _ _ _] Hcmd l'. pose proof Hst as [_ _ _ _ Ef EL Hcf].
  destruct (follower_takes _ _ cmd _ _ Hst Ht ltac:(lia) Hf1) as (_ & Hok & Hns & Hsy & Ef' & EL'). fold l' in Hok, Hns, Hsy, Ef', EL'.
  pose proof Hio as [_ _ _ Hr Hsn Hty Ha Hcl]. unfold commitIndex in *.
  assert (log_last (sv_wal f) (n_log (sv_node f)) = log_last (sv_wal s) (n_log (sv_node s))) as El
    by (unfold log_last; by rewrite Ef, EL).
  assert (log_last (sv_wal f) l' = log_last (sv_wal s) (n_log (sv_node s)) + 1) as El'
    by (unfold log_last; rewrite Ef', EL', Ef, length_app; simpl; lia).
  assert (rl_committed l' = Z.max (rl_committed (n_log (sv_node f))) (rl_committed (n_log (sv_node s)))) as Ec.
  { unfold l', taken, commitIndex. cbn [rl_committed]. rewrite El. destruct (Z.ltb_spec (rl_committed (n_log (sv_node f)))
      (rl_committed (n_log (sv_node s)))); lia. }
  assert (entry_typed (new_entry (sv_wal s) (sv_node s) cmd)) as Het.
  { split_and!; try done; cbn [new_entry e_term e_index]; unfold log_last in *; mach. }
  destruct (u_append_kept (rl_unstable (n_log (sv_node f))) [new_entry (sv_wal s) (sv_node s) cmd]) as [Esn Hall].
  change (rl_applied l') with (rl_applied (n_log (sv_node f))) in *. split_and!; [| |by rewrite Ef'|done|done].
  - constructor; try done; [lia|by rewrite <- Hsn|by apply Hall; [|constructor]|rewrite Ef', Ec; cbn; lia|lia].
  - unfold due, behind. rewrite Ec, EL', Ef', Ef. apply log_slice_app_l; cbn; [lia|]. unfold log_last in *. lia.
Qed.

(** The follower [f2] has taken the command and what the leader had
    committed, and is at rest. *)
Record caught_up s (cmd : bytes) f f2 : Prop := {
  cu_quiet : quiet (sv_wal f2) (sv_node f2);
  cu_id : n_id (sv_node f2) = n_id (sv_node f);
  cu_role : n_role (sv_node f2) = Follower;
  cu_term : n_term (sv_node f2) = n_term (sv_node s);
  cu_first : log_first (sv_wal f2) (n_log (sv_node f2)) = log_first (sv_wal s) (n_log (sv_node s));
  cu_list : log_list (sv_wal f2) (n_log (sv_node f2))
    = log_list (sv_wal s) (n_log (sv_node s)) ++ [new_entry (sv_wal s) (sv_node s) cmd];
  cu_committed : rl_committed (n_log (sv_node f2))
    = Z.max (rl_committed (n_log (sv_node f))) (rl_committed (n_log (sv_node s)));
  cu_applied : rl_applied (n_log (sv_node f2)) = rl_committed (n_log (sv_node f2));
  cu_clock : n_tickCount (sv_node f2) = 0;
  cu_timeout : n_randomizedElectionTick (sv_node f2) = n_randomizedElectionTick (sv_node f);
  cu_inbox : sv_pendingMsgs f2 = [];
  cu_pending : pending_ok f2
}.

Lemma following_round s j cmd f rs fsm' :
  leading s j -> following s f -> str_ok cmd ->
  StateMachine.replay (sv_fsm f) (e_data <$> behind s f) = Some (rs, fsm') ->
  exists f2, raftLoop_round bookReader (onRaftMessage f (carrier (sv_wal s) (sv_node s) (n_id (sv_node f)) cmd)) = Some f2
    /\ ack (sv_wal s) (sv_node s) (n_id (sv_node f)) ∈ sv_sent f2
    /\ st_log (sv_wal f2) = log_list (sv_wal s) (n_log (sv_node s)) ++ [new_entry (sv_wal s) (sv_node s) cmd]
    /\ sv_fsm f2 = fsm' /\ caught_up s cmd f f2.
Proof.
  intros [_ Hh Hterm Hroom _ _ _ _ _ _] Hfo Hcmd Hr.
  destruct (taken_in_order s f cmd Hh Hterm Hroom Hfo Hcmd) as (Hio & Edue & Efirst & Ecom & EL).
  pose proof Hfo as [[_ Hrd Hmk] Hst Hck Hin Hpo]. rewrite round_eq. unfold loop_tick.
  cbn [onRaftMessage sv_wal sv_node set_net]. rewrite tick_follower by (done || apply Hst).
  set (n1 := set_tick _ _). assert (in_step (sv_wal s) (sv_node s) (sv_wal f) n1) as Hst1 by (by destruct Hst).
  destruct (follower_takes _ _ cmd _ _ Hst1) as (Es & _); [apply Hh|lia|apply Hh|]. cbn [mbind option_bind].
  unfold loop_drain. cbn [onRaftMessage sv_wal sv_node set_net set_node sv_pendingMsgs]. rewrite Hin. cbn [app step_all].
  change (n_id n1) with (n_id (sv_node f)) in Es. rewrite Es. cbn [mbind option_bind]. set (f1 := set_net _ _ _).
  change (taken _ _ cmd (sv_wal f) n1) with (taken (sv_wal s) (sv_node s) cmd (sv_wal f) (sv_node f)) in f1.
  destruct (server_turn_spec f1 rs fsm') as (f2 & -> & Ht);
    [by constructor|done|by change (due _ _) with (due (sv_wal f) (taken (sv_wal s) (sv_node s) cmd (sv_wal f) (sv_node f))); rewrite Edue|].
  pose proof (turned_quiet _ _ _ _ Ht) as Hq2. destruct (turned_last _ _ _ _ Ht) as (Ef2 & EL2 & _ & Ec2).
  pose proof Ht as [(l' & En) [_ _ _ Estored _ _] Eap Esent Ef _ Hpo2 _ Hin2].
  exists f2. split_and!; [done| |by rewrite Estored|done|].
  2: { constructor; try done; [by rewrite En|by rewrite En; cbn; apply Hst|by rewrite En; cbn; apply Hst
      |by rewrite Ef2|by rewrite EL2|by rewrite Ec2|by rewrite Eap, Ec2|by rewrite En|by rewrite En]. }
  rewrite Esent. apply elem_of_app. right. unfold f1. cbn [sv_node set_net set_node send set_msgs set_output n_msgs].
  apply elem_of_app. right. by apply list_elem_of_singleton.
Qed.

(** ** The answer *)

(** What is in the leader's log and not committed. *)
Definition backlog s : list Entry :=
  drop (Z.to_nat (rl_committed (n_log (sv_node s)) + 1 - log_first (sv_wal s) (n_log (sv_node s))))
    (log_list (sv_wal s) (n_log (sv_node s))).

Lemma replay_length (log : list bytes) : forall (m : S) rs m',
  StateMachine.replay m log = Some (rs, m') -> length rs = length log.
Proof.
  induction log as [|d log IH]; intros m rs m' E; cbn [StateMachine.replay] in E; [by simplify_eq|].
  destruct (sm_apply m d) as [[r m1]|]; cbn [mbind option_bind] in E; [|done].
  destruct (StateMachine.replay m1 log) as [[rs1 m2]|] eqn:E1; cbn [mbind option_bind] in E; [|done].
  simplify_eq/=. f_equal. by eapply IH.
Qed.

Lemma resumes_ticked (st : WriteAheadLog) n (st' : WriteAheadLog) n' ms c :
  resumes st n st' n' -> resumes st n st' (set_msgs ms (set_tick c n')).
Proof. intros [[]]. by constructor. Qed.

Lemma in_order_committed (w : WriteAheadLog) l c :
  in_order w l -> rl_committed l <= c <= log_last w l -> in_order w (set_committed c l).
Proof.
  intros [? ? ? ? ? ? Ha ?] Hc. constructor; try done; [|by apply Hc].
  change (log_first w l - 1 <= rl_applied l <= c). lia.
Qed.

Lemma drop_acked_all to (q : list Z) : Forall (fun x => x <= to) q -> drop_acked to q = [].
Proof. induction 1 as [|x q Hx _ IH]; simpl; [done|]. by rewrite (proj2 (Z.ltb_ge _ _)) by lia. Qed.

(** The acknowledgement of the last entry empties the window. *)
Lemma acked_keeps_up (w : WriteAheadLog) n p i0 i last :
  inflights_ok (p_inflights p) -> Forall (fun x => x <= last) (queue (p_inflights p)) ->
  add (p_inflights p) last = Some i0 -> freeTo i0 last = Some i ->
  p_state p = Replicate -> p_paused p = false -> log_last w (n_log n) = last ->
  keeps_up w n (set_inflights i (set_match_next last (last + 1) (set_inflights i0 p))).
Proof.
  intros Hok Hq Ha Hf Hst Hpa El. assert (in_count (p_inflights p) < length (in_buffer (p_inflights p)))%nat as Hlt.
  { unfold add in Ha. destruct (full (p_inflights p)) eqn:E; [done|]. unfold full in E. apply bool_decide_eq_false in E.
    destruct Hok. lia. }
  destruct (add_queue _ last Hok Hlt) as (i0' & E0 & Hok0 & Eq0 & El0). rewrite Ha in E0. injection E0 as <-.
  destruct (freeTo_queue i0 last Hok0) as (i' & E1 & _ & Eq1 & El1). rewrite Hf in E1. injection E1 as <-.
  assert (queue i = []) as Eq by (rewrite Eq1, Eq0; apply drop_acked_all, Forall_app; split; [done|by constructor]).
  split; [|cbn [p_inflights set_inflights]; rewrite Eq; constructor]. unfold current. rewrite El.
  split_and!; [done|done| |done|cbn; lia]. cbn [p_inflights set_inflights]. unfold full.
  apply bool_decide_eq_false_2. rewrite <- (length_queue i), Eq, El1, El0. simpl. lia.
Qed.

(** The node [n3] of the leader has committed the command. *)
Record acknowledged s (j : Z) (cmd : bytes) s2 n3 : Prop := {
  ak_quiet : quiet (sv_wal s2) n3;
  ak_due : due (sv_wal s2) (n_log n3) = backlog s ++ [new_entry (sv_wal s) (sv_node s) cmd];
  ak_healthy : healthy (sv_wal s2) n3;
  ak_peer : exists p, pr_find j (n_pr n3) = Some p /\ keeps_up (sv_wal s2) n3 p;
  ak_first : log_first (sv_wal s2) (n_log n3) = log_first (sv_wal s) (n_log (sv_node s));
  ak_list : log_list (sv_wal s2) (n_log n3) = log_list (sv_wal s) (n_log (sv_node s)) ++ [new_entry (sv_wal s) (sv_node s) cmd];
  ak_committed : rl_committed (n_log n3) = log_last (sv_wal s) (n_log (sv_node s)) + 1;
  ak_id : n_id n3 = n_id (sv_node s);
  ak_term : n_term n3 = n_term (sv_node s);
  ak_voters : n_voters n3 = n_voters (sv_node s)
}.

(** The leader commits the command, and what waited before it. *)
Lemma committed_order s j cmd s1 s2 c ms :
  leading s j -> submitted s j cmd s1 -> sent_out s j cmd s1 s2 ->
  exists n3, step (sv_wal s2) (set_msgs ms (set_tick c (sv_node s2))) (ack (sv_wal s) (sv_node s) j) = Some n3
    /\ acknowledged s j cmd s2 n3.
Proof.
  intros [_ Hh _ Hroom Hap Hq Hj (p & Hp & Hcur & Hwin) _ _] [_ _ _ _ _ _ _ Hal Hview Hself _ Hpe] [_ Hre Epr [Hio Hrd Hmk] Eap _ _ _ _ _].
  set (n2 := set_msgs _ _). pose proof (resumes_ticked _ _ _ _ ms c Hre) as Hre2. fold n2 in Hre2.
  destruct (resumed_commits (sv_wal s) (sv_node s) cmd j p (sv_node s1) (sv_wal s2) n2)
    as (pr & n3 & E3 & EL & Hal3 & Hh3 & q & i & Hq2 & Hfr & Hq3); try done.
  pose proof Hh as [Hs _ _ _ Hf1 Hc _ _]. unfold commitIndex in Hc.
  destruct (append_next (sv_wal s) (n_log (sv_node s)) (new_entry (sv_wal s) (sv_node s) cmd))
    as (_ & _ & _ & Hf' & _ & _); [apply Hs|apply Hs|done|lia|].
  assert (log_first (sv_wal s2) (n_log n2) = log_first (sv_wal s) (n_log (sv_node s))) as Ef
    by (rewrite (re_first _ _ _ _ Hre2), (al_log _ _ Hal); exact Hf').
  assert (log_last (sv_wal s2) (n_log n2) = log_last (sv_wal s) (n_log (sv_node s)) + 1) as El
    by (unfold log_last; rewrite Ef, EL, length_app; simpl; lia).
  pose proof Hio as [Hok Hsy Hns _ Hsn Hty Ha Hcm]. change (n_log (sv_node s2)) with (n_log n2) in *.
  assert (log_last (sv_wal s2) (n_log n3) = log_last (sv_wal s) (n_log (sv_node s)) + 1) as El3
    by (rewrite (al_log _ _ Hal3); exact El).
  exists n3. split; [done|]. constructor.
  - constructor; [|by rewrite (al_reads _ _ Hal3)|by rewrite (al_marks _ _ Hal3)]. rewrite (al_log _ _ Hal3).
    apply (in_order_committed (sv_wal s2) (n_log n2)); [done|]. rewrite El. change (n_log (sv_node s2)) with (n_log n2) in *. lia.
  - rewrite (al_log _ _ Hal3). unfold due, backlog. cbn [n_log RawNode.set_log set_repl set_committed rl_applied rl_committed].
    change (log_first (sv_wal s2) (set_committed _ (n_log n2))) with (log_first (sv_wal s2) (n_log n2)).
    change (log_list (sv_wal s2) (set_committed _ (n_log n2))) with (log_list (sv_wal s2) (n_log n2)).
    rewrite Ef, EL, Eap. unfold log_slice. unfold log_last in *. rewrite drop_app_le by lia. apply take_ge.
    rewrite length_app, length_drop. simpl. lia.
  - by apply Hh3.
  - eexists. split; [exact Hq3|]. destruct (Hpe p Hp) as (i0 & Ha0 & Hp1). change (n_pr n2) with (n_pr (sv_node s2)) in Hq2.
    rewrite Epr, Hp1 in Hq2. injection Hq2 as <-. destruct Hcur as (Hst & Hpa & _).
    apply acked_keeps_up; try done; [by apply (sd_peer _ _ Hs j)|]. eapply Forall_impl; [exact Hwin|]. simpl. lia.
  - rewrite (al_log _ _ Hal3). exact Ef.
  - rewrite (al_log _ _ Hal3). exact EL.
  - by rewrite (al_log _ _ Hal3).
  - rewrite (al_id _ _ Hal3). etransitivity; [apply (re_id _ _ _ _ Hre2)|]. by rewrite (al_id _ _ Hal).
  - rewrite (al_term _ _ Hal3). etransitivity; [apply (re_term _ _ _ _ Hre2)|]. by rewrite (al_term _ _ Hal).
  - rewrite (al_voters _ _ Hal3). etransitivity; [apply (re_voters _ _ _ _ Hre2)|]. by rewrite (al_voters _ _ Hal).
Qed.

(** The leader [s3] has the command in its log, committed, and is at rest. *)
Record grown s (j : Z) (cmd : bytes) s3 : Prop := {
  gr_leading : log_last (sv_wal s) (n_log (sv_node s)) + 3 < 2 ^ 62 -> leading s3 j;
  gr_first : log_first (sv_wal s3) (n_log (sv_node s3)) = log_first (sv_wal s) (n_log (sv_node s));
  gr_list : log_list (sv_wal s3) (n_log (sv_node s3))
    = log_list (sv_wal s) (n_log (sv_node s)) ++ [new_entry (sv_wal s) (sv_node s) cmd];
  gr_committed : rl_committed (n_log (sv_node s3)) = log_last (sv_wal s) (n_log (sv_node s)) + 1;
  gr_term : n_term (sv_node s3) = n_term (sv_node s)
}.

Lemma turned_grown s j cmd s2 n3 s' rs fsm' s3 :
  leading s j -> acknowledged s j cmd s2 n3 -> sv_wal s' = sv_wal s2 -> sv_node s' = n3 -> sv_pendingMsgs s' = [] ->
  turned s' rs fsm' s3 -> grown s j cmd s3.
Proof.
  intros [_ _ Hterm _ _ Hq Hj _ _ _] [_ _ Hh (p & Hp & Hku) Ef EL Ec Ei Et Ev] Ew En Hin Ht.
  pose proof (turned_healthy _ _ _ _ Ht) as Hh3. destruct (turned_last _ _ _ _ Ht) as (Ef3 & EL3 & El3 & Ec3).
  rewrite Ew, En in *. pose proof Ht as [(l' & En3) _ Eap _ _ _ Hpo _ Hin3]. rewrite En in En3.
  assert (log_last (sv_wal s2) (n_log n3) = log_last (sv_wal s) (n_log (sv_node s)) + 1) as El
    by (unfold log_last; rewrite Ef, EL, length_app; simpl; lia).
  constructor; [|by rewrite Ef3|by rewrite EL3|by rewrite Ec3|by rewrite En3]. intros Hroom.
  constructor; [by apply (turned_quiet _ _ _ _ Ht)|by apply Hh3|by rewrite En3; cbn; rewrite Et|rewrite El3; lia|by rewrite Eap, Ec3, En| | | |by rewrite Hin3|done].
  - rewrite En3. unfold quorum in *. cbn. by rewrite Ev.
  - rewrite En3. cbn. by rewrite Ei.
  - exists p. rewrite En3 at 1. split; [done|]. unfold keeps_up, current in *. by rewrite El3.
Qed.

Lemma answering_round s j cmd s1 s2 rs r fsm' :
  leading s j -> submitted s j cmd s1 -> sent_out s j cmd s1 s2 ->
  StateMachine.replay (sv_fsm s) ((e_data <$> backlog s) ++ [cmd]) = Some (rs ++ [r], fsm') ->
  exists s3, raftLoop_round bookReader (onRaftMessage s2 (ack (sv_wal s) (sv_node s) j)) = Some s3
    /\ sv_fsm s3 = fsm' /\ submitRaw_result s3 (Some (length (sv_proposals s))) = Some r /\ grown s j cmd s3.
Proof.
  intros Hld Hsu Hso Hr. pose proof Hso as [_ Hre _ _ _ _ Efsm Hw Hpo Hin]. rewrite round_eq. unfold loop_tick.
  destruct (tick_leader (sv_wal s2) (sv_node s2)) as (b & c & ms & E).
  { rewrite (re_role _ _ _ _ Hre), (al_role _ _ (su_alike _ _ _ _ Hsu)). apply Hld. }
  cbn [onRaftMessage sv_wal sv_node set_net]. rewrite E. cbn [mbind option_bind].
  destruct (committed_order s j cmd s1 s2 c (n_msgs (sv_node s2) ++ ms) Hld Hsu Hso) as (n3 & E3 & Hak).
  pose proof Hak as [Hq Edue _ _ _ _ _ _ _ _].
  unfold loop_drain. cbn [onRaftMessage sv_wal sv_node set_net set_node sv_pendingMsgs]. rewrite Hin. cbn [app step_all].
  rewrite E3. cbn [mbind option_bind]. set (s2' := set_net _ _ _).
  destruct (server_turn_spec s2' (rs ++ [r]) fsm') as (s3 & -> & Ht); [done|done| |].
  { cbn. rewrite Edue, fmap_app, Efsm. exact Hr. }
  pose proof Ht as [_ _ _ _ Ef (Hans & _) _ _ _]. exists s3. split_and!; [done|done| |exact (turned_grown s j cmd s2 n3 s2' _ _ s3 Hld Hak eq_refl eq_refl eq_refl Ht)]. unfold submitRaw_result.
  apply replay_length in Hr. rewrite !length_app, length_fmap in Hr. simpl in Hr.
  change (due _ _) with (due (sv_wal s2) (n_log n3)) in Hans. rewrite Edue in Hans.
  rewrite (Hans (length (backlog s)) (new_entry (sv_wal s) (sv_node s) cmd) r); [done| | |exact Hw].
  - by rewrite lookup_app_r, Nat.sub_diag by done.
  - rewrite lookup_app_r by lia. by replace (_ - _)%nat with 0%nat by lia.
Qed.

(** ** Command after command *)

(** The way of a command: the leader [s] takes it and, a round later, has it
    on disk and sends it; the follower [f] has it on disk a round after that
    and answers, as [f2]; [s3] is the leader a round after the answer, and
    the client has its reply. *)
Definition served s f (cmd r : bytes) s3 f2 : Prop :=
  let log := log_list (sv_wal s) (n_log (sv_node s)) ++ [new_entry (sv_wal s) (sv_node s) cmd] in
  exists p s1 s2 m a,
    submitRaw s cmd = Some (Some p, s1)
    /\ raftLoop_round bookReader s1 = Some s2 /\ st_log (sv_wal s2) = log
    /\ m ∈ sv_sent s2 /\ m_to m = n_id (sv_node f)
    /\ raftLoop_round bookReader (onRaftMessage f m) = Some f2 /\ st_log (sv_wal f2) = log
    /\ a ∈ sv_sent f2 /\ m_to a = n_id (sv_node s)
    /\ raftLoop_round bookReader (onRaftMessage s2 a) = Some s3
    /\ submitRaw_result s3 (Some p) = Some r.

(** A leader and a follower that agree: once the follower has applied what
    the leader has committed, it has the leader's machine. *)
Record paired s f : Prop := {
  pa_leading : leading s (n_id (sv_node f));
  pa_following : following s f;
  pa_behind : rl_committed (n_log (sv_node f)) <= rl_committed (n_log (sv_node s));
  pa_patient : 1 < n_randomizedElectionTick (sv_node f);
  pa_agree : exists rs, StateMachine.replay (sv_fsm f) (e_data <$> behind s f) = Some (rs, sv_fsm s)
}.

Lemma grown_behind s j cmd f s3 f2 :
  healthy (sv_wal s) (sv_node s) -> grown s j cmd s3 -> caught_up s cmd f f2 ->
  rl_committed (n_log (sv_node f)) <= rl_committed (n_log (sv_node s)) ->
  behind s3 f2 = backlog s ++ [new_entry (sv_wal s) (sv_node s) cmd].
Proof.
  intros [_ _ _ _ _ Hc _ _] [_ Ef EL Ec _] [_ _ _ _ _ _ Ecf Eaf _ _ _ _] Hle. unfold behind, backlog, commitIndex in *.
  rewrite Ef, EL, Ec, Eaf, Ecf, Z.max_r, Z.max_r by lia. unfold log_slice, log_last in *.
  rewrite drop_app_le by lia. apply take_ge. rewrite length_app, length_drop. simpl. lia.
Qed.

(** The next command finds them as the last one did. *)
Lemma still_paired s j cmd rs fsm' f s3 f2 :
  paired s f -> j = n_id (sv_node f) -> log_last (sv_wal s) (n_log (sv_node s)) + 3 < 2 ^ 62 ->
  grown s j cmd s3 -> caught_up s cmd f f2 -> sv_fsm f2 = sv_fsm s -> sv_fsm s3 = fsm' ->
  StateMachine.replay (sv_fsm s) ((e_data <$> backlog s) ++ [cmd]) = Some (rs, fsm') ->
  paired s3 f2.
Proof.
  intros [Hld _ Hle Hpat _] -> Hroom Hgr Hcu Ef2 Ef3 Hr. pose proof (ld_healthy _ _ Hld) as Hh.
  pose proof (grown_behind _ _ _ _ _ _ Hh Hgr Hcu Hle) as Ebe. pose proof Hh as [_ _ _ _ _ Hc _ _]. unfold commitIndex in Hc.
  pose proof Hgr as [Hld3 Ef EL Ec Et]. pose proof Hcu as [Hqf Eid Erole Eterm Eff ELf Ecf Eaf Eclk Eto Hinf Hpof].
  assert (log_last (sv_wal s3) (n_log (sv_node s3)) = log_last (sv_wal s) (n_log (sv_node s)) + 1) as El3
    by (unfold log_last; rewrite Ef, EL, length_app; simpl; lia).
  pose proof (log_first_range _ _ (sd_log _ _ (he_sender _ _ Hh))) as Hfr.
  constructor; [by rewrite Eid; apply Hld3| |rewrite Ecf, Ec; lia|by rewrite Eto|exists rs; rewrite Ebe, fmap_app, Ef2, Ef3; exact Hr].
  constructor; [done| |by rewrite Eclk, Eto|done|done].
  constructor; [done|congruence|apply Hqf|apply Hqf|by rewrite Eff|by rewrite ELf|].
  unfold commitIndex. rewrite El3, Ecf. lia.
Qed.

Lemma command_served s f cmd rs r fsm' :
  paired s f -> str_ok cmd -> log_last (sv_wal s) (n_log (sv_node s)) + 3 < 2 ^ 62 ->
  StateMachine.replay (sv_fsm s) ((e_data <$> backlog s) ++ [cmd]) = Some (rs ++ [r], fsm') ->
  exists s3 f2, served s f cmd r s3 f2 /\ sv_fsm s3 = fsm' /\ paired s3 f2 /\ grown s (n_id (sv_node f)) cmd s3.
Proof.
  intros Hpa Hcmd Hroom Hr. pose proof Hpa as [Hld Hfo _ _ [rs' Hrf]].
  destruct (submit_spec s _ cmd Hld Hcmd) as (s1 & E1 & Hsu).
  destruct (sending_round s _ cmd s1 Hld Hsu) as (s2 & E2 & Hso).
  destruct (following_round s _ cmd f rs' (sv_fsm s) Hld Hfo Hcmd Hrf) as (f2 & Ef & Ha & Hlf & Effsm & Hcu).
  destruct (answering_round s _ cmd s1 s2 rs r fsm' Hld Hsu Hso Hr) as (s3 & E3 & Efsm & Hres & Hgr).
  exists s3, f2. split_and!; [|done|by eapply still_paired|done]. eexists _, s1, s2, _, _.
  split_and!; [exact E1|exact E2|apply Hso|apply Hso|done|exact Ef|done|exact Ha|done|exact E3|exact Hres].
Qed.

(** Commands one after the other, with their replies. *)
Inductive serves : Server S -> Server S -> list (bytes * bytes) -> Server S -> Server S -> Prop :=
| serves_nil s f : serves s f [] s f
| serves_cons s f cmd r s3 f2 rest s' f' :
    served s f cmd r s3 f2 -> serves s3 f2 rest s' f' -> serves s f ((cmd, r) :: rest) s' f'.

Lemma commands_served (cmds : list bytes) : forall s f rs fsm',
  paired s f -> backlog s = [] -> Forall str_ok cmds ->
  log_last (sv_wal s) (n_log (sv_node s)) + Z.of_nat (length cmds) + 2 < 2 ^ 62 ->
  StateMachine.replay (sv_fsm s) cmds = Some (rs, fsm') ->
  exists s' f', serves s f (zip cmds rs) s' f' /\ sv_fsm s' = fsm' /\ paired s' f'.
Proof.
  induction cmds as [|cmd cmds IH]; intros s f rs fsm' Hpa Hbl Hok Hroom Hr; cbn [StateMachine.replay] in Hr.
  { simplify_eq. exists s, f. split_and!; [constructor|done|done]. }
  apply Forall_cons in Hok as [Hcmd Hok]. cbn [length] in Hroom.
  destruct (sm_apply (sv_fsm s) cmd) as [[r m1]|] eqn:Ea; cbn [mbind option_bind] in Hr; [|done].
  destruct (StateMachine.replay m1 cmds) as [[rs1 m2]|] eqn:Er; cbn [mbind option_bind] in Hr; [|done]. simplify_eq.
  destruct (command_served s f cmd [] r m1 Hpa Hcmd) as (s3 & f2 & Hse & <- & Hpa3 & [_ Ef EL Ec _]);
    [lia|by rewrite Hbl; cbn; rewrite Ea|].
  destruct (IH s3 f2 rs1 fsm' Hpa3) as (s' & f' & Hses & Hfsm & Hpa'); [| |unfold log_last in *; rewrite Ef, EL, length_app; simpl; lia|done|].
  - unfold backlog. rewrite Ef, EL, Ec. apply drop_ge. rewrite length_app. unfold log_last. simpl. lia.
  - done.
  - exists s', f'. split_and!; [by eapply serves_cons|done|done].
Qed.

(** C1. Without failures the cluster is the state machine.  Let a leading
    server with nothing to commit and a following one agree and be at rest.
    Clients send any sequence of commands that the state machine accepts,
    each after the reply to the one before.  Then every command is taken,
    written by the leader, sent, written by the follower, acknowledged,
    committed, applied and answered, in three rounds of the loops; the
    replies are those of the state machine alone, the leader's machine ends
    as it would, and the two servers agree again. *)
Theorem commands_executed (cmds : list bytes) s f rs fsm' :
  paired s f -> backlog s = [] -> Forall str_ok cmds ->
  log_last (sv_wal s) (n_log (sv_node s)) + Z.of_nat (length cmds) + 2 < 2 ^ 62 ->
  StateMachine.replay (sv_fsm s) cmds = Some (rs, fsm') ->
  exists s' f', serves s f (zip cmds rs) s' f' /\ sv_fsm s' = fsm' /\ paired s' f'.
Proof. apply commands_served. Qed.
End Rounds.

(** ** Servers of an order book *)

Section Orders.
Context {B : Type} `{!IOrderBook B} `{!IOrderBookLaws B} `{!Platform} `{!Random}.
Context (bookReader : option (BookReader (LOBStateMachine B))).
Implicit Types (s f : Server (LOBStateMachine B)).

End Orders.

(** ** An order in the network of three servers *)

#[local] Existing Instance demo_platform.
#[local] Existing Instance demo_draws.
#[local] Existing Instance peer_fine_dec.

(** Server 1 leads, server 2 has acknowledged a first order. *)
Definition opening : list net_action :=
  [NRound 1; NRound 1; NRound 1; NDeliver 1 0; NRound 2; NDeliver 2 0; NRound 1;
   NDeliver 1 2; NRound 2; NDeliver 2 1; NRound 1;
   NSubmit 1 (encodeNew 1 Buy 100 10); NRound 1; NDeliver 1 6; NRound 2; NDeliver 2 2; NRound 1].

Definition opened (i : Z) : Server Book :=
  default (demo_server i) (net ← net_run demo_net opening; net !! i).

Definition first_order : Entry := mkEntry 1 1 Normal (encodeNew 1 Buy 100 10).

(** The disks of the two. *)
Definition opened_wal (commit : Z) : WriteAheadLog :=
  saveHardState (WriteAheadLog.append (new_WriteAheadLog [] None None) [first_order]) (mkHardState 1 1 commit).

Lemma opened_eq :
  sv_wal (opened 1) = opened_wal 1 /\ sv_wal (opened 2) = opened_wal 0
  /\ n_log (sv_node (opened 1)) = mkRaftLog (mkUnstable [] 2 None) 1 1
  /\ n_log (sv_node (opened 2)) = mkRaftLog (mkUnstable [] 2 None) 0 0
  /\ n_term (sv_node (opened 1)) = 1.
Proof. split_and!; vm_compute; reflexivity. Qed.

Lemma opened_wal_ok c : wal_ok (opened_wal c).
Proof.
  apply (append_spec (new_WriteAheadLog [] None None) first_order []);
    [exact fresh_wal_ok|by rewrite !contiguous_cons| |by vm_compute..].
  constructor; [|constructor]. split_and!; try by vm_compute. apply encodeNew_ok.
Qed.

Lemma opened_log c a :
  let l := mkRaftLog (mkUnstable [] 2 None) c a in
  log_first (opened_wal c) l = 1 /\ log_list (opened_wal c) l = [first_order] /\ log_last (opened_wal c) l = 1.
Proof. split_and!; vm_compute; reflexivity. Qed.

Lemma opened_in_order c : 0 <= c <= 1 -> in_order (opened_wal c) (mkRaftLog (mkUnstable [] 2 None) c c).
Proof.
  intros Hc. destruct (opened_log c c) as (Ef & EL & El).
  constructor; rewrite ?Ef, ?El; [| | |reflexivity|reflexivity|constructor|cbn; lia|cbn; lia].
  - split_and!; [exact (opened_wal_ok c)| |intros _ H; by destruct H]. split; [apply contiguous_nil|by vm_compute].
  - intros _ _. by rewrite El.
  - unfold no_stale. rewrite El. by vm_compute.
Qed.

Lemma opened_quiet i : i = 1 \/ i = 2 -> quiet (sv_wal (opened i)) (sv_node (opened i)).
Proof.
  destruct opened_eq as (Ew1 & Ew2 & El1 & El2 & _). intros [-> | ->]; constructor.
  - rewrite Ew1, El1. apply (opened_in_order 1). clear. lia.
  - vm_compute. reflexivity.
  - vm_compute. reflexivity.
  - rewrite Ew2, El2. apply (opened_in_order 0). clear. lia.
  - vm_compute. reflexivity.
  - vm_compute. reflexivity.
Qed.

Lemma opened_sender : sender (sv_wal (opened 1)) (sv_node (opened 1)).
Proof.
  destruct opened_eq as (Ew & _ & El & _). destruct (q_order _ _ (opened_quiet 1 (or_introl eq_refl))) as [Hok Hsy Hns Hr _ _ _ _].
  apply sender_check; [exact Hok|exact Hsy|exact Hns|apply (Z.lt_trans _ _ (2 ^ 62) Hr); reflexivity| |vm_compute; reflexivity].
  unfold sm_sorted. vm_compute. repeat constructor.
Qed.

Lemma opened_healthy : healthy (sv_wal (opened 1)) (sv_node (opened 1)).
Proof.
  destruct opened_eq as (Ew & _ & El & _ & Et). destruct (opened_log 1 1) as (Ef & _ & Ell).
  constructor; [exact opened_sender|vm_compute; reflexivity|rewrite Et; clear; lia| | | | |]; rewrite ?Ew, ?El, ?Ef, ?Ell.
  - clear. lia.
  - clear. lia.
  - clear. cbn. lia.
  - eexists. vm_compute. reflexivity.
  - intros k p _. apply (found_all (fun x => p_matchIndex x <= 1)). apply (bool_decide_unpack _). vm_compute. exact I.
Qed.

Lemma opened_waiting i : i = 1 \/ i = 2 -> pending_ok (opened i).
Proof.
  intros Hi. assert (sv_pending (opened i) = ∅) as E by (destruct Hi as [-> | ->]; vm_compute; reflexivity).
  split; rewrite E; [intros a b q Ha|intros a q Ha]; rewrite lookup_empty in Ha; discriminate.
Qed.

Lemma opened_leading : leading (opened 1) (n_id (sv_node (opened 2))).
Proof.
  destruct opened_eq as (Ew & _ & El & _ & Et). destruct (opened_log 1 1) as (Ef & _ & Ell).
  constructor; [apply opened_quiet; by left|exact opened_healthy|rewrite Et; clear; lia|rewrite Ew, El, Ell; clear; lia
    |rewrite El; reflexivity| | | | |apply opened_waiting; by left].
  - vm_compute. reflexivity.
  - vm_compute. discriminate.
  - eexists. split; [vm_compute; reflexivity|]. unfold keeps_up, current. rewrite !Ew, !El, !Ell. clear.
    split; [by split_and!|by vm_compute; constructor].
  - vm_compute. reflexivity.
Qed.

Lemma opened_following : following (opened 1) (opened 2).
Proof.
  destruct opened_eq as (Ew1 & Ew2 & El1 & El2 & Et). destruct (opened_log 1 1) as (Ef & EL & Ell).
  destruct (opened_log 0 0) as (Ef2 & EL2 & Ell2). destruct (q_order _ _ (opened_quiet 2 (or_intror eq_refl))) as [Hok _ Hns _ _ _ _ _].
  constructor; [apply opened_quiet; by right| |by vm_compute|vm_compute; reflexivity|apply opened_waiting; by right].
  constructor; [vm_compute; reflexivity|vm_compute; reflexivity|exact Hok|exact Hns| | |].
  - rewrite Ew1, Ew2, El1, El2, Ef, Ef2. reflexivity.
  - rewrite Ew1, Ew2, El1, El2, EL, EL2. reflexivity.
  - rewrite Ew1, El1, El2, Ell. clear. cbn. lia.
Qed.

Lemma opened_paired : paired (opened 1) (opened 2).
Proof.
  destruct opened_eq as (_ & _ & El1 & El2 & _). constructor; [exact opened_leading|exact opened_following| | |].
  - rewrite El1, El2. clear. cbn. lia.
  - apply Z.ltb_lt. vm_compute. reflexivity.
  - eexists. vm_compute. reflexivity.
Qed.

(** A sale of 4 is filled at 100 against order 1, then the rest of order 1 is
    cancelled. *)
Definition session : list bytes := [encodeNew 2 Sell 100 4; encodeCancel 1].
Definition session_replies : list bytes :=
  [encodeNewResult [mkFill 1 2 100 4 Sell] false 0; encodeSimpleResult true].

Lemma commands_executed_witness :
  exists s' f', serves None (opened 1) (opened 2) (zip session session_replies) s' f' /\ paired s' f'.
Proof.
  destruct opened_eq as (Ew & _ & El & _). destruct (opened_log 1 1) as (_ & _ & Ell).
  edestruct (commands_executed None session (opened 1) (opened 2) session_replies) as (s' & f' & Hse & _ & Hpa).
  - exact opened_paired.
  - vm_compute. reflexivity.
  - constructor; [apply encodeNew_ok|]. constructor; [apply encodeCancel_ok|constructor].
  - rewrite Ew, El, Ell. reflexivity.
  - vm_compute. reflexivity.
  - exists s', f'. exact (conj Hse Hpa).
Defined.

Lemma opened_lob_ok : lob_ok (sv_fsm (opened 1)).
Proof.
  destruct (apply_spec (new_LOBStateMachine (new_MapOrderBook [65])) (encodeNew 1 Buy 100 10)) as (m' & E & Hm' & _).
  { split; [exact (new_MapOrderBook_ok [65])|by vm_compute]. }
  { apply encodeNew_ok. }
  assert (apply (new_LOBStateMachine (new_MapOrderBook [65])) (encodeNew 1 Buy 100 10)
    = Some (encodeNewResult [] true 10, sv_fsm (opened 1))) as E1 by (vm_compute; reflexivity).
  rewrite E1 in E. apply (f_equal (option_map snd)) in E. cbn [option_map snd] in E.
  rewrite (inj Some _ _ E). exact Hm'.
Qed.

