(* ===== verification/TextOrders.v ===== *)
(** * A line typed by a client, through the cluster

    The text protocol over the servers of [Submission]: a line is cut and
    parsed as in [src/app/net/ClientServer.cpp], encoded by the order-book
    codec, proposed by [Server::onClientRequest], replicated, applied, and its
    reply decoded and formatted. *)

From Stdlib Require Import String.
From S2P Require Import Prelude StdString StdMap OrderProtocol IOrderBook MapOrderBook StateMachine LOBStateMachine CommandCodec.
From S2P Require Import KVStateMachine RaftTypes LogUnstable WriteAheadLog RaftLog RaftLogTheorems Progress ReadOnly RawNode.
From S2P Require Import BookSpec BookTheorems LOBTheorems SnapshotFile Replication Server ServerTheorems Submission.
From S2P Require Import ClientServer LOBCodec.

#[local] Existing Instance LOBCodec_instance.

Section TextOrders.
Context {B : Type} `{!IOrderBook B} `{!IOrderBookLaws B} `{!Platform} `{!Random}.
Context (bookReader : option (BookReader (LOBStateMachine B))).
Implicit Types (s f : Server (LOBStateMachine B)).

(** The way of a line: the leader [s] parses and encodes it with the codec at
    [next] and takes the command; it is written and sent, written by the
    follower and acknowledged, committed and applied; [s3] is the leader then,
    and the client reads [reply]. *)
Definition line_served s f (next : Z) (line : bytes) (cmd reply : bytes) (next' : Z) s3 f2 : Prop :=
  let log := log_list (sv_wal s) (n_log (sv_node s)) ++ [new_entry (sv_wal s) (sv_node s) cmd] in
  exists req p s1 s2 m a resp,
    parseCommand (strip_cr line) = Some req
    /\ onClientRequest s next req = Some (inr p, s1, next')
    /\ raftLoop_round bookReader s1 = Some s2 /\ st_log (sv_wal s2) = log
    /\ m ∈ sv_sent s2 /\ m_to m = n_id (sv_node f)
    /\ raftLoop_round bookReader (onRaftMessage f m) = Some f2 /\ st_log (sv_wal f2) = log
    /\ a ∈ sv_sent f2 /\ m_to a = n_id (sv_node s)
    /\ raftLoop_round bookReader (onRaftMessage s2 a) = Some s3
    /\ onClientRequest_result s3 (inr p) = Some resp /\ formatResponse resp = reply.

(** A server that takes raw commands takes requests. *)
Lemma request_submits s codec codec' req cmd p s1 :
  cc_encode codec req = Some (cmd, codec') -> cmd <> [] -> submitRaw s cmd = Some (Some p, s1) ->
  onClientRequest s codec req = Some (inr p, s1, codec').
Proof.
  unfold submitRaw, onClientRequest. intros He Hne Hs. destruct (isLeader s); [|done]. cbn [negb] in *.
  rewrite He. cbn [mbind option_bind]. rewrite bool_decide_eq_false_2 by done. by rewrite Hs.
Qed.

Lemma request_answered s p reply :
  submitRaw_result s (Some p) = Some reply -> reply <> [] ->
  onClientRequest_result s (inr p) = Some (cc_decodeResult reply).
Proof.
  cbn [submitRaw_result onClientRequest_result]. intros Hs Hne. destruct (sv_proposals s !! p) as [pe|]; [|done].
  cbn [mbind option_bind] in *. destruct (pp_done pe); [by simplify_eq|]. destruct (sv_running s); by simplify_eq.
Qed.

(** C28. An order typed by a client.  The leading server of a cluster of order
    books, with everything before it applied, gets the line
    [SET side price:quantity], with a positive 64-bit quantity; the codec's
    next id is fresh and fewer than 2^32 orders rest.  The line is
    parsed, encoded, written by both servers, committed and applied in three
    rounds of the loops; the client then reads OK, followed by the fills of
    the price-time specification, with quantities and prices, and by what
    rests, when there are fills, and alone when there are none.  The book of
    the leader is the specification's, the servers agree, and the codec moves
    on to the next id. *)
Theorem text_order_executed s f next side p q :
  paired s f -> backlog s = [] -> log_last (sv_wal s) (n_log (sv_node s)) + 3 < 2 ^ 62 -> lob_ok (sv_fsm s) ->
  is_u64 next -> is_i64 p -> is_i64 q -> 0 < q ->
  spec_find next (lob_abs (sv_fsm s)) = None -> Z.of_nat (length (a_orders (lob_abs (sv_fsm s)))) < 2 ^ 32 ->
  let matched := spec_new next side p q (lob_nextSeq (sv_fsm s)) (lob_abs (sv_fsm s)) in
  exists s3 f2,
    line_served s f next (order_line side p q) (encodeNew next side p q)
      (order_reply (fst matched) (q - fills_quantity (fst matched))) (next +u 1) s3 f2
    /\ lob_ok (sv_fsm s3) /\ lob_abs (sv_fsm s3) = snd matched /\ paired s3 f2.
Proof.
  intros Hpa Hbl Hroom Hms Hid Hp Hq Hq0 Hnone Hcount matched.
  destruct (lob_new_reply (sv_fsm s) next side p q) as (reply & m' & E & Hdec & _ & Hm' & Habs); [done..|].
  destruct (command_served bookReader s f (encodeNew next side p q) [] reply m') as (s3 & f2 & Hse & <- & Hpa3 & _);
    [done|apply encodeNew_ok|done| |].
  { rewrite Hbl. cbn [fmap list_fmap app StateMachine.replay]. change (sm_apply (sv_fsm s)) with (LOBStateMachine.apply (sv_fsm s)).
    by rewrite E. }
  exists s3, f2. split_and!; [|done..].
  destruct Hse as (w & s1 & s2 & m & a & E1 & E2 & Hl2 & Hm & Hmt & Ef & Hlf & Ha & Hat & E3 & Hres).
  pose proof (encode_order next side p q Hp Hq) as Henc. destruct (order_line_kept side p q Hq) as [Hk _].
  destruct (parseCommand (order_line side p q)) as [req|] eqn:Ereq; [|done]. cbn [mbind option_bind] in Henc.
  exists req, w, s1, s2, m, a, (decodeResult reply). split_and!; try done.
  - by rewrite Hk.
  - eapply request_submits; [exact Henc|apply encodeNew_bytes|exact E1].
  - apply request_answered; [done|]. intros ->. done.
  - by apply order_reply_eq.
Qed.
End TextOrders.

(** ** In the network of three servers *)

#[local] Existing Instance demo_platform.
#[local] Existing Instance demo_draws.

(** A sale of 4 at 100, typed at server 1, is filled against order 1. *)
Lemma text_order_executed_witness :
  exists s3 f2, line_served None (opened 1) (opened 2) 2 (ascii_bytes "SET sell 100:4") (encodeNew 2 Sell 100 4)
    (ascii_bytes "OK F 4@100 " ++ [10]) 3 s3 f2 /\ paired s3 f2.
Proof.
  destruct opened_eq as (Ew & _ & El & _). destruct (opened_log 1 1) as (_ & _ & Ell).
  destruct (text_order_executed None (opened 1) (opened 2) 2 Sell 100 4) as (s3 & f2 & Hse & _ & _ & Hpa).
  - exact opened_paired.
  - vm_compute. reflexivity.
  - rewrite Ew, El, Ell. reflexivity.
  - exact opened_lob_ok.
  - clear. by vm_compute.
  - clear. by vm_compute.
  - clear. by vm_compute.
  - reflexivity.
  - vm_compute. reflexivity.
  - vm_compute. reflexivity.
  - exists s3, f2. split; [|exact Hpa].
    assert (order_line Sell 100 4 = ascii_bytes "SET sell 100:4") as El1 by (vm_compute; reflexivity).
    match type of Hse with line_served _ _ _ _ _ _ ?r _ _ _ =>
      assert (r = ascii_bytes "OK F 4@100 " ++ [10]) as Er by (vm_compute; reflexivity) end.
    rewrite El1, Er in Hse. exact Hse.
Defined.
