(* ===== verification/ServerCluster.v ===== *)
(** * Servers that crash

    Servers of [app/server/Server.cpp] on a network: the threads of a server
    take its steps in any order, a process can be killed between any two
    steps, also between persisting and sending, and is started again on the files it left.
    Such a network refines the cluster of [RaftCluster], so that it has one
    leader per term.  The refinement takes [hardstate.bin] to hold the old or
    the new hard state after a crash; the last part of the file shows what
    happens when a kill inside [saveHardState] leaves part of it. *)

From S2P Require Import Prelude IOrderBook MapOrderBook StateMachine LOBStateMachine KVStateMachine CommandCodec.
From S2P Require Import RaftTypes LogUnstable WriteAheadLog SnapshotFile.
From S2P Require Import RaftLog Progress ReadOnly RawNode RaftActions RaftElection RaftCluster RaftReplica Server.

(** A server and the local variable [rd] of its loop. *)
Record Machine (S : Type) := mkMachine { mc_server : Server S; mc_ready : option Ready }.
Arguments mkMachine {S}.
Arguments mc_server {S}.
Arguments mc_ready {S}.

Record Net (S : Type) := mkNet { nt_machines : gmap Z (Machine S); nt_wire : list Message }.
Arguments mkNet {S}.
Arguments nt_machines {S}.
Arguments nt_wire {S}.

Section ServerCluster.
Context {S : Type} `{!StateMachine S} `{!Platform} `{!Random} `{!CommandCodec}.
Context (bookReader : option (BookReader S)) (V : list Z).
Implicit Types (s : Server S) (mc : Machine S) (N : Net S).

Definition set_machine (i : Z) mc N : Net S := mkNet (<[i := mc]> (nt_machines N)) (nt_wire N).
Definition with_server s mc : Machine S := mkMachine s (mc_ready mc).

(** A message the network may hand to server [i]. *)
Definition arrives N (i : Z) (m : Message) : Prop :=
  term_below (m_term m) /\
  (m ∈ nt_wire N /\ m_to m = i \/ granted m = false /\ prevote m = false).

(** A server started as member [i] on a directory with these state files,
    and with any log, snapshot file and fresh state machine. *)
Definition booted (i : Z) (hsFile csFile : option bytes) s : Prop :=
  exists c rm log sf fsm,
    c_id c = i /\ c_peers c = V /\ c_learners c = [] /\
    start (new_Server c rm (new_WriteAheadLog log hsFile csFile) sf fsm) = Some s.

Inductive client_op := OSubmit (cmd : bytes) | ORequest (req : ClientRequest) | ORead (isBids : bool) (levels : Z).

Definition client_step s (codec : cc_state) (o : client_op) : option (Server S) :=
  match o with
  | OSubmit cmd => snd <$> submitRaw s cmd
  | ORequest req => '(_, s, _) ← onClientRequest s codec req; Some s
  | ORead isBids levels => snd <$> readLevels bookReader isBids s levels
  end.

Inductive net_step N : Net S -> Prop :=
| s_tick i mc s' :
    nt_machines N !! i = Some mc -> term_below (n_term (sv_node (mc_server mc))) ->
    loop_tick (mc_server mc) = Some s' -> net_step N (set_machine i (with_server s' mc) N)
| s_receive i mc m :
    nt_machines N !! i = Some mc -> arrives N i m ->
    net_step N (set_machine i (with_server (onRaftMessage (mc_server mc) m) mc) N)
| s_drain i mc s' :
    nt_machines N !! i = Some mc ->
    (forall k n, step_all (sv_wal (mc_server mc)) (sv_node (mc_server mc))
                   (take k (sv_pendingMsgs (mc_server mc))) = Some n -> term_below (n_term n)) ->
    loop_drain (mc_server mc) = Some s' -> net_step N (set_machine i (with_server s' mc) N)
| s_client i mc codec o s' :
    nt_machines N !! i = Some mc -> client_step (mc_server mc) codec o = Some s' ->
    net_step N (set_machine i (with_server s' mc) N)
| s_poll i mc rd s' :
    nt_machines N !! i = Some mc -> mc_ready mc = None -> loop_poll (mc_server mc) = (rd, s') ->
    net_step N (set_machine i (mkMachine s' (Some rd)) N)
| s_process i mc rd s' :
    nt_machines N !! i = Some mc -> mc_ready mc = Some rd -> term_below (hs_term (rd_hardState rd)) ->
    processReady bookReader (mc_server mc) rd = Some s' ->
    net_step N (mkNet (<[i := mkMachine s' None]> (nt_machines N)) (nt_wire N ++ rd_messages rd))
| s_advance i mc s' :
    nt_machines N !! i = Some mc -> loop_advance (mc_server mc) = Some s' ->
    net_step N (set_machine i (with_server s' mc) N)
| s_crash i mc s' :
    nt_machines N !! i = Some mc ->
    booted i (w_hsFile (sv_wal (mc_server mc))) (w_csFile (sv_wal (mc_server mc))) s' ->
    net_step N (set_machine i (mkMachine s' None) N)
| s_crash_sending i mc rd sent s' :  (* some messages were sent, by threads of their own *)
    nt_machines N !! i = Some mc -> mc_ready mc = Some rd -> term_below (hs_term (rd_hardState rd)) ->
    booted i (hs_after rd (w_hsFile (sv_wal (mc_server mc)))) (w_csFile (sv_wal (mc_server mc))) s' ->
    sent ⊆ rd_messages rd ->
    net_step N (mkNet (<[i := mkMachine s' None]> (nt_machines N)) (nt_wire N ++ sent)).

(** Members that boot on any hard state; nothing is under way. *)
Definition net_initial N : Prop :=
  nt_wire N = [] /\
  forall i mc, nt_machines N !! i = Some mc ->
    i ∈ V /\ i <> 0 /\ mc_ready mc = None /\
    exists hsFile, 0 <= hs_term (file_hs hsFile) /\ booted i hsFile None (mc_server mc).

Definition net_reachable N : Prop := exists N0, net_initial N0 /\ rtc net_step N0 N.

(** ** Refinement *)

Definition host_of mc : Host :=
  mkHost (sv_node (mc_server mc)) (file_hs (w_hsFile (sv_wal (mc_server mc))))
    ((fun rd => (rd_hardState rd, rd_messages rd)) <$> mc_ready mc).

Definition cluster_of N : Cluster := mkCluster (host_of <$> nt_machines N) (nt_wire N).

(** What the refinement needs to know of a server besides: no configuration
    was saved, and what waits in its inbox may be delivered. *)
Definition machine_ok N (i : Z) mc : Prop :=
  w_csFile (sv_wal (mc_server mc)) = None
  /\ Forall (deliverable (cluster_of N) i) (sv_pendingMsgs (mc_server mc)).

Definition net_ok N : Prop := map_Forall (machine_ok N) (nt_machines N).

Lemma lookup_cluster_of N i mc :
  nt_machines N !! i = Some mc -> cl_hosts (cluster_of N) !! i = Some (host_of mc).
Proof. intros Hi. simpl. by rewrite lookup_fmap, Hi. Qed.

Lemma host_of_idle s :
  host_of (mkMachine s None) = mkHost (sv_node s) (file_hs (w_hsFile (sv_wal s))) None.
Proof. done. Qed.

Lemma cluster_of_set N i mc :
  cluster_of (set_machine i mc N) = set_host i (host_of mc) (cluster_of N).
Proof. unfold cluster_of, set_machine, set_host. simpl. by rewrite fmap_insert. Qed.

(** Messages stay deliverable when the wire grows. *)
Lemma machine_ok_mono N N' i mc :
  (forall m, m ∈ nt_wire N -> m ∈ nt_wire N') -> machine_ok N i mc -> machine_ok N' i mc.
Proof.
  intros Hw [Hc Hd]. split; [done|]. eapply Forall_impl; [exact Hd|].
  intros m [? [[? ?]|?]]; (split; [done|]); [left|by right]. split; [by apply Hw|done].
Qed.

Lemma net_ok_insert N i mc wire :
  net_ok N -> (forall m, m ∈ nt_wire N -> m ∈ wire) ->
  machine_ok N i mc -> net_ok (mkNet (<[i := mc]> (nt_machines N)) wire).
Proof.
  intros Hok Hw Hmc j mj Hj. eapply (machine_ok_mono N); [exact Hw|]. simpl in Hj.
  apply lookup_insert_Some in Hj as [[<- <-]|[_ Hj]]; [done|by apply Hok].
Qed.

(** ** What the server's methods do to the parts that matter *)

(** The node, the inbox and what is on disk. *)
Definition held s : RawNode * list Message * WriteAheadLog * SnapshotFile :=
  (sv_node s, sv_pendingMsgs s, sv_wal s, sv_snapFile s).

(** The node, the inbox and the two state files. *)
Definition core s : RawNode * list Message * option bytes * option bytes :=
  (sv_node s, sv_pendingMsgs s, w_hsFile (sv_wal s), w_csFile (sv_wal s)).

Lemma held_core s s' : held s' = held s -> core s' = core s.
Proof. unfold held, core. by intros [= -> -> -> _]. Qed.

Definition files (w : WriteAheadLog) : option bytes * option bytes := (w_hsFile w, w_csFile w).

Lemma persist_files_pair rd w : files (persist rd w) = (hs_after rd (w_hsFile w), w_csFile w).
Proof. unfold files. by destruct (persist_files rd w) as [-> ->]. Qed.

Lemma applySnapshot_files w snap w' : applySnapshot w snap = Some w' -> files w' = files w.
Proof. unfold applySnapshot. case_bool_decide; [|done]. by intros [= <-]. Qed.

Lemma applyCommittedEntries_held es : forall s s', applyCommittedEntries s es = Some s' -> held s' = held s.
Proof.
  induction es as [|e es IH]; intros s s' Hs; cbn [applyCommittedEntries] in Hs; [by simplify_eq|].
  destruct (sm_apply _ _) as [[r f]|]; cbn [mbind option_bind] in Hs; [|done]. apply IH in Hs.
  rewrite Hs. unfold wake. by destruct (_ !! _).
Qed.

Lemma handleReadStates_held rss : forall s s', handleReadStates bookReader s rss = Some s' -> held s' = held s.
Proof.
  induction rss as [|rs rss IH]; intros s s' Hs; cbn [handleReadStates] in Hs; [by simplify_eq|].
  destruct (_ !! _) as [p|]; [|by apply IH]. destruct (sv_running s); [|by simplify_eq].
  destruct (_ <? _); [done|]. destruct (_ !! _) as [pd|]; cbn [mbind option_bind] in Hs; [|done].
  destruct bookReader; cbn [mbind option_bind] in Hs; [|done]. by apply IH in Hs.
Qed.

(** Storing a snapshot, as [start] and [processReady] do. *)
Lemma store_core s s1 w snap w' :
  core s1 = core s -> applySnapshot w snap = Some w' -> files w = files (sv_wal s) ->
  core (set_wal w' s1) = core s.
Proof.
  intros Ec Ha Ew. apply applySnapshot_files in Ha. unfold core, files in *. simplify_eq. simpl. congruence.
Qed.

Lemma start_core s s' : start s = Some s' -> core s' = core s.
Proof.
  unfold start. intros Hs. destruct (load (sv_snapFile s)) as [snap|]; cbn [mbind option_bind] in Hs;
    [|by simplify_eq]. unbind Hs. unbind E. injection E as <-. injection Hs as <-.
  by eapply (store_core s (set_fsm _ (sv_appliedIndex s) s) (sv_wal s) snap).
Qed.

(** What [processReady] does before the snapshot: it persists. *)
Definition stored s (rd : Ready) : Server S := set_wal (persist rd (sv_wal s)) s.

Lemma processReady_phases s rd s' :
  processReady bookReader s rd = Some s' ->
  exists s1, held s' = held s1
    /\ match rd_snapshot rd with
       | None => s1 = stored s rd
       | Some snap =>
           exists fsm, applySnapshot (persist rd (sv_wal s)) snap = Some (sv_wal s1)
           /\ s1 = set_wal (sv_wal s1) (set_storage (persist rd (sv_wal s)) (save (sv_snapFile s) snap)
                     (set_fsm fsm (sv_appliedIndex s) (stored s rd)))
       end.
Proof.
  rewrite processReady_unfold. change (set_wal _ s) with (stored s rd). intros Hs.
  match type of Hs with mbind (M := option) _ ?x = _ => destruct x as [s1|] eqn:E1 end;
    cbn [mbind option_bind] in Hs; [|done].
  exists s1. unbind Hs. split.
  - apply handleReadStates_held in Hs. apply applyCommittedEntries_held in E. by rewrite Hs, E.
  - destruct (rd_snapshot rd) as [snap|]; [|by injection E1 as <-].
    cbn [ready_effect] in E1. unbind E1. injection E1 as <-. by eexists.
Qed.

Lemma processReady_core s rd s' :
  processReady bookReader s rd = Some s' ->
  core s' = (sv_node s, sv_pendingMsgs s, hs_after rd (w_hsFile (sv_wal s)), w_csFile (sv_wal s)).
Proof.
  intros (s1 & Hh & Hs1)%processReady_phases. apply held_core in Hh. rewrite Hh.
  pose proof (persist_files_pair rd (sv_wal s)) as Ef.
  assert (core (stored s rd)
    = (sv_node s, sv_pendingMsgs s, hs_after rd (w_hsFile (sv_wal s)), w_csFile (sv_wal s))) as <-
    by (unfold core, files in *; injection Ef as Eh Ec; simpl; by rewrite Eh, Ec).
  destruct (rd_snapshot rd) as [snap|]; [|by rewrite Hs1]. destruct Hs1 as (fsm & Ha & ->).
  by eapply (store_core (stored s rd)).
Qed.

(** What a client's call may propose. *)
Definition proposes (codec : cc_state) (o : client_op) (data : bytes) : Prop :=
  match o with
  | OSubmit cmd => data = cmd
  | ORequest req => exists codec', cc_encode codec req = Some (data, codec')
  | ORead _ _ => False
  end.

(** It leaves the node alone, or proposes such data, or asks for a read. *)
Definition client_moved (P : bytes -> Prop) (w : WriteAheadLog) (n n' : RawNode) : Prop :=
  n' = n \/ (exists data b, P data /\ propose w n data = Some (b, n'))
  \/ exists ctx b, readIndex n ctx = Some (b, n').

Lemma propose_wait_held (P : bytes -> Prop) s data p s' :
  P data -> propose_wait s data = Some (p, s') ->
  held s' = held (set_node (sv_node s') s) /\ client_moved P (sv_wal s) (sv_node s) (sv_node s').
Proof.
  unfold propose_wait. intros HP Hs. unbind Hs. destruct p0 as [ok n].
  destruct (negb ok); simplify_eq; (split; [done|]); right; left; simpl; eauto.
Qed.

Lemma client_step_held s codec o s' :
  client_step s codec o = Some s' ->
  held s' = held (set_node (sv_node s') s)
  /\ client_moved (proposes codec o) (sv_wal s) (sv_node s) (sv_node s').
Proof.
  assert (forall P, held s = held (set_node (sv_node s) s) /\ client_moved P (sv_wal s) (sv_node s) (sv_node s)) as Hsame.
  { intros P. split; [done|by left]. }
  destruct o as [cmd|req|isBids levels]; cbn [client_step].
  - intros Hs. apply fmap_Some in Hs as ([p s1] & Hs & ->). unfold submitRaw in Hs. simpl.
    destruct (negb _); [by simplify_eq|]. by eapply propose_wait_held.
  - intros Hs. unbind Hs. destruct p as [[r s1] codec1]. injection Hs as <-. unfold onClientRequest in E.
    destruct (negb _); [by simplify_eq|]. unbind E. destruct p as [data codec2].
    case_bool_decide; [by simplify_eq|]. unbind E. destruct p as [p s2]. simplify_eq.
    eapply propose_wait_held; [|done]. by eexists.
  - intros Hs. apply fmap_Some in Hs as ([p s1] & Hs & ->). unfold readLevels in Hs. simpl.
    destruct bookReader as [reader|]; [|by simplify_eq]. destruct (sv_readMode s); [|by simplify_eq..].
    destruct (negb _); [by simplify_eq|]. cbn zeta in Hs. unbind Hs. destruct p0 as [b n]. simplify_eq.
    split; [done|]. right; right. simpl in *. eauto.
Qed.

(** A member that starts is a node restarted from its file. *)
Lemma booted_restarted i hsFile s :
  i ∈ V -> booted i hsFile None s ->
  restarted V i (file_hs hsFile) (sv_node s) /\ sv_pendingMsgs s = []
  /\ w_hsFile (sv_wal s) = hsFile /\ w_csFile (sv_wal s) = None.
Proof.
  intros HiV (c & rm & log & sf & fsm & Hid & HV & Hl & Hs). apply start_core in Hs.
  unfold core in Hs. injection Hs as -> -> -> ->. split_and!; [|done..].
  assert (V <> []) as Hne by (intros ->; by apply not_elem_of_nil in HiV).
  rewrite <- Hid. by apply (new_RawNode_restarted V (mkConfig (c_id c) _ _ _ _ _ _ _ _)).
Qed.

Lemma step_all_sim w ms : forall cl i ho n',
  cl_hosts cl !! i = Some ho -> Forall (deliverable cl i) ms ->
  (forall k n, step_all w (ho_node ho) (take k ms) = Some n -> term_below (n_term n)) ->
  step_all w (ho_node ho) ms = Some n' ->
  rtc (cluster_step (St := WriteAheadLog)) cl (set_host i (with_node n' ho) cl).
Proof.
  induction ms as [|m ms IH]; intros cl i ho n' Hi Hd Ht Hs; cbn [step_all] in Hs.
  { injection Hs as <-. rewrite set_host_same; [done|]. by destruct ho. }
  destruct (step w (ho_node ho) m) as [n1|] eqn:E; cbn [mbind option_bind] in Hs; [|done].
  apply Forall_cons in Hd as [Hm Hd].
  eapply rtc_l; [by eapply c_step, E; [|apply (Ht 0%nat)|]|].
  change (with_node n' ho) with (with_node n' (with_node n1 ho)).
  rewrite <- (set_host_twice cl i (with_node n1 ho) (with_node n' (with_node n1 ho))).
  apply (IH (set_host i (with_node n1 ho) cl) i (with_node n1 ho)); [|done| |done].
  - apply lookup_set_host. by left.
  - intros k n Hk. apply (Ht (Datatypes.S k)). cbn [take step_all]. by rewrite E.
Qed.

(** A new state of one server, with the same files and nothing new sent. *)
Lemma local_ok N i mc s' :
  net_ok N -> nt_machines N !! i = Some mc ->
  w_csFile (sv_wal s') = w_csFile (sv_wal (mc_server mc)) ->
  Forall (deliverable (cluster_of N) i) (sv_pendingMsgs s') ->
  net_ok (set_machine i (with_server s' mc) N).
Proof.
  intros Hok Hi Hc Hp. apply net_ok_insert; [done|done|]. split; [|done].
  simpl. rewrite Hc. by apply (Hok i mc).
Qed.

(** Every step of the servers is one of the cluster, or several, or none. *)
Lemma net_step_sim N N' :
  Forall is_u64 V -> net_ok N -> election_inv V (cluster_of N) -> net_step N N' ->
  net_ok N' /\ rtc (cluster_step (St := WriteAheadLog)) (cluster_of N) (cluster_of N').
Proof.
  intros HV Hok Hinv Hstep.
  destruct Hstep as [i mc s' Hi Ht Hs|i mc m Hi Ha|i mc s' Hi Ht Hs|i mc codec o s' Hi Hs
    |i mc rd s' Hi Hr Hs|i mc rd s' Hi Hr Ht Hs|i mc s' Hi Hs|i mc s' Hi Hb|i mc rd k s' Hi Hr Ht Hb];
    pose proof (lookup_cluster_of N i mc Hi) as Hh; destruct (Hok i mc Hi) as [Hcs Hin];
    destruct (ei_nodes _ _ Hinv _ _ Hh) as (HiV & _ & _ & Hvs & _).
  - unfold loop_tick in Hs. unbind Hs. destruct p as [b n']. injection Hs as <-.
    split; [by apply local_ok|]. rewrite cluster_of_set. apply rtc_once. by eapply (c_tick (cluster_of N) i (host_of mc)).
  - split; [|by rewrite cluster_of_set, set_host_same].
    apply local_ok; [done..|]. simpl. apply Forall_app. split; [done|]. by apply Forall_singleton.
  - unfold loop_drain in Hs. unbind Hs. injection Hs as <-. split; [by apply local_ok|].
    rewrite cluster_of_set. by eapply (step_all_sim _ _ _ i (host_of mc)).
  - apply client_step_held in Hs as [Ec%held_core Hm]. unfold core in Ec. injection Ec as Ep Eh Ef.
    split; [apply local_ok; [done..|]; by rewrite Ep|]. rewrite cluster_of_set.
    assert (host_of (with_server s' mc) = with_node (sv_node s') (host_of mc)) as ->
      by (unfold host_of, with_node; simpl; by rewrite Eh).
    destruct Hm as [->|[(data & b & _ & E)|(ctx & b & E)]].
    + rewrite set_host_same; done.
    + apply rtc_once. by eapply (c_propose (cluster_of N) i (host_of mc)).
    + apply rtc_once. by eapply (c_readIndex (cluster_of N) i (host_of mc)).
  - unfold loop_poll in Hs. destruct (poll _ _) as [rd' n'] eqn:E. injection Hs as <- <-.
    split; [by apply net_ok_insert; [|done|split]|].
    rewrite cluster_of_set. apply rtc_once. eapply (c_poll (cluster_of N) i (host_of mc)); [done| |exact E].
    simpl. by rewrite Hr.
  - apply processReady_core in Hs. unfold core in Hs. injection Hs as En Ep Eh Ec. split.
    + apply net_ok_insert; [done|set_solver|]. split; simpl; [by rewrite Ec|by rewrite Ep].
    + unfold cluster_of. simpl. rewrite fmap_insert. apply rtc_once.
      rewrite host_of_idle, En, Eh.
      eapply (c_send (cluster_of N) i (host_of mc)); [done|simpl; by rewrite Hr|]. rewrite Hvs. by apply persists_file.
  - unfold loop_advance in Hs. unbind Hs. injection Hs as <-. split; [by apply local_ok|].
    rewrite cluster_of_set. apply rtc_once. by eapply (c_advance (cluster_of N) i (host_of mc)).
  - rewrite Hcs in Hb. apply booted_restarted in Hb as (Hn & Hp & Eh & Ec); [|done]. split.
    + apply net_ok_insert; [done|done|]. split; simpl; [done|by rewrite Hp].
    + rewrite cluster_of_set. apply rtc_once. rewrite host_of_idle, Eh.
      eapply (c_crash (cluster_of N) i (host_of mc)); [done|]. by rewrite Hvs.
  - rewrite Hcs in Hb. apply booted_restarted in Hb as (Hn & Hp & Eh & Ec); [|done]. split.
    + apply net_ok_insert; [done|set_solver|]. split; simpl; [done|by rewrite Hp].
    + unfold cluster_of. simpl. rewrite fmap_insert. apply rtc_once. rewrite host_of_idle, Eh.
      eapply (c_crash_sending (cluster_of N) i (host_of mc)); [done|simpl; by rewrite Hr| |by rewrite Hvs|done].
      rewrite Hvs. by apply persists_file.
Qed.

Lemma net_initial_ok N : net_initial N -> net_ok N /\ initial V (cluster_of N).
Proof.
  intros [Hw Hm]. split.
  - intros i mc Hi. destruct (Hm i mc Hi) as (HiV & _ & _ & hsFile & _ & Hb).
    apply booted_restarted in Hb as (_ & Hp & _ & Hc); [|done]. split; [done|]. by rewrite Hp.
  - split; [done|]. intros i ho Hi. simpl in Hi. rewrite lookup_fmap in Hi.
    apply fmap_Some in Hi as (mc & Hi & ->). destruct (Hm i mc Hi) as (HiV & Hi0 & Hr & hsFile & Ht & Hb).
    apply booted_restarted in Hb as (Hn & _ & Eh & _); [|done]. simpl. rewrite Eh, Hr. by split_and!.
Qed.

Lemma net_reachable_sim N :
  Forall is_u64 V -> net_reachable N -> net_ok N /\ reachable (St := WriteAheadLog) V (cluster_of N).
Proof.
  intros HV (N0 & H0' & Hr). apply net_initial_ok in H0' as [Hok Hi].
  assert (reachable (St := WriteAheadLog) V (cluster_of N0)) as Hre by (by eexists).
  clear Hi. induction Hr as [N|N1 N2 N3 Hs _ IH]; [done|].
  apply net_step_sim in Hs as [Hok2 Hs2]; [|done|done|by eapply reachable_inv].
  apply IH; [done|]. destruct Hre as (cl0 & ? & ?). exists cl0. split; [done|]. by etransitivity.
Qed.

(** C8. One leader per term among servers that crash.  In every run of
    servers whose loops tick, receive, poll, persist and send, advance and
    serve clients in any order, and which are killed and started again on
    their files, also between persisting and sending or when some of the
    messages are sent, but not inside [saveHardState] (a kill there leaves a
    torn file, see [torn_hardstate_two_leaders]: [hardstate.bin] is as it was
    before or after the call): two servers whose nodes lead in the same term
    are one. *)
Theorem servers_elect_one_leader N i j mi mj :
  NoDup V -> Forall is_u64 V -> net_reachable N ->
  nt_machines N !! i = Some mi -> nt_machines N !! j = Some mj ->
  isLeader (mc_server mi) = true -> isLeader (mc_server mj) = true ->
  n_term (sv_node (mc_server mi)) = n_term (sv_node (mc_server mj)) -> i = j.
Proof.
  intros HVn HV Hr Hi Hj Hli Hlj Ht. apply net_reachable_sim in Hr as [_ Hr]; [|done].
  apply bool_decide_eq_true in Hli, Hlj. apply reachable_inv in Hr.
  by apply (leaders_agree V (cluster_of N) i j (host_of mi) (host_of mj)); try apply lookup_cluster_of.
Qed.

(** ** Running servers *)

(** The term of the node is below the limit before each of the messages. *)
Fixpoint drain_below (w : WriteAheadLog) (n : RawNode) (ms : list Message) : bool :=
  bool_decide (term_below (n_term n)) &&
  match ms with
  | [] => true
  | m :: ms => match step w n m with Some n' => drain_below w n' ms | None => true end
  end.

Lemma drain_below_spec w ms : forall n k n',
  drain_below w n ms = true -> step_all w n (take k ms) = Some n' -> term_below (n_term n').
Proof.
  induction ms as [|m ms IH]; intros n k n' Hb Hs; cbn [drain_below] in Hb;
    apply andb_true_iff in Hb as [Ht%bool_decide_eq_true Hb].
  - rewrite take_nil in Hs. by injection Hs as <-.
  - destruct k as [|k]; [by injection Hs as <-|]. cbn [take step_all] in Hs.
    destruct (step w n m); [|done]. by eapply IH.
Qed.

Inductive net_act :=
| XTick (i : Z) | XArrive (k : nat) | XDrain (i : Z) | XPoll (i : Z) | XProcess (i : Z) | XAdvance (i : Z)
| XCrash (i : Z)
| XTorn (i : Z) (k : nat).  (* killed after [k] bytes of [hardstate.bin] *)

Context (cfg : Z -> Config) (rm : ReadMode) (fsm0 : S).

Definition reboot (i : Z) (hsFile : option bytes) s : option (Server S) :=
  start (new_Server (cfg i) rm (new_WriteAheadLog (w_logFile (sv_wal s)) hsFile (w_csFile (sv_wal s)))
           (sv_snapFile s) fsm0).

Definition net_exec N (a : net_act) : option (Net S) :=
  match a with
  | XTick i =>
      mc ← nt_machines N !! i;
      guard (term_below (n_term (sv_node (mc_server mc))));;
      s' ← loop_tick (mc_server mc); Some (set_machine i (with_server s' mc) N)
  | XArrive k =>
      m ← nt_wire N !! k;
      mc ← nt_machines N !! m_to m;
      guard (term_below (m_term m));;
      Some (set_machine (m_to m) (with_server (onRaftMessage (mc_server mc) m) mc) N)
  | XDrain i =>
      mc ← nt_machines N !! i;
      guard (drain_below (sv_wal (mc_server mc)) (sv_node (mc_server mc))
               (sv_pendingMsgs (mc_server mc)) = true);;
      s' ← loop_drain (mc_server mc); Some (set_machine i (with_server s' mc) N)
  | XPoll i =>
      mc ← nt_machines N !! i;
      guard (mc_ready mc = None);;
      guard (hasReady (sv_node (mc_server mc)) = true);;
      let '(rd, s') := loop_poll (mc_server mc) in Some (set_machine i (mkMachine s' (Some rd)) N)
  | XProcess i =>
      mc ← nt_machines N !! i;
      rd ← mc_ready mc;
      guard (term_below (hs_term (rd_hardState rd)));;
      s' ← processReady bookReader (mc_server mc) rd;
      Some (mkNet (<[i := mkMachine s' None]> (nt_machines N)) (nt_wire N ++ rd_messages rd))
  | XAdvance i =>
      mc ← nt_machines N !! i;
      s' ← loop_advance (mc_server mc); Some (set_machine i (with_server s' mc) N)
  | XCrash i =>
      mc ← nt_machines N !! i;
      s' ← reboot i (w_hsFile (sv_wal (mc_server mc))) (mc_server mc);
      Some (set_machine i (mkMachine s' None) N)
  | XTorn i k =>
      mc ← nt_machines N !! i;
      rd ← mc_ready mc;
      guard (saves (rd_hardState rd) = true);;
      s' ← reboot i (Some (take k (writeHardState [] (rd_hardState rd)))) (mc_server mc);
      Some (set_machine i (mkMachine s' None) N)
  end.

Definition torn (a : net_act) : bool := match a with XTorn _ _ => true | _ => false end.

Lemma net_exec_sound N a N' :
  (forall i, c_id (cfg i) = i /\ c_peers (cfg i) = V /\ c_learners (cfg i) = []) ->
  torn a = false -> net_exec N a = Some N' -> net_step N N'.
Proof.
  intros Hc Ha. destruct a as [i|k|i|i|i|i|i|]; cbn [net_exec]; intros Hs; [..|done]; unbind Hs;
    repeat (case_guard; [cbn [mbind option_bind] in Hs; unbind Hs|done]).
  - injection Hs as <-. by eapply s_tick.
  - injection Hs as <-. eapply s_receive; [done|]. split; [done|]. left.
    split; [by eapply list_elem_of_lookup_2|done].
  - injection Hs as <-. eapply s_drain; [done| |done]. intros k n. by apply drain_below_spec.
  - destruct (loop_poll _) as [rd s'] eqn:Epoll. injection Hs as <-. by eapply s_poll.
  - injection Hs as <-. by eapply s_process.
  - injection Hs as <-. by eapply s_advance.
  - injection Hs as <-. eapply s_crash; [done|]. destruct (Hc i) as (? & ? & ?). by repeat eexists.
Qed.

Definition net_run N (acts : list net_act) : option (Net S) := run net_exec N acts.

Lemma net_run_sound acts N N' :
  (forall i, c_id (cfg i) = i /\ c_peers (cfg i) = V /\ c_learners (cfg i) = []) ->
  Forall (fun a => torn a = false) acts -> net_run N acts = Some N' -> rtc net_step N N'.
Proof.
  intros Hc Ha. apply (run_rtc net_exec net_step (fun a => torn a = false)); [|done].
  intros N1 a N2 Ht. by apply net_exec_sound.
Qed.
End ServerCluster.

(** ** Three order books *)

#[local] Instance sc_platform : Platform := {|
  sizeof_Entry := 48; sizeof_Entry_pos := conj eq_refl eq_refl |}.
#[local] Instance sc_draws : Random := {|
  draw k a b := a; draw_range k a b Hab := conj (Z.le_refl a) Hab |}.
#[local] Instance sc_codec : CommandCodec := KVCodec_instance.

Definition members : list Z := [1; 2; 3].

(** Server [i] times out after [3 * i] ticks without a leader. *)
Definition member_config (i : Z) : Config := mkConfig i 0 (3 * i) 1 (2 ^ 20) 256 members [] Safe.

Definition empty_book : LOBStateMachine MapOrderBook := new_LOBStateMachine (new_MapOrderBook [65]).

Definition fresh_machine (i : Z) : Machine (LOBStateMachine MapOrderBook) :=
  mkMachine (Server.set_running true
    (new_Server (member_config i) Direct (new_WriteAheadLog [] None None) (new_SnapshotFile None None)
       empty_book)) None.

Definition fresh_net : Net (LOBStateMachine MapOrderBook) :=
  mkNet (list_to_map ((fun i => (i, fresh_machine i)) <$> members)) [].

Definition run_servers : list net_act -> option (Net (LOBStateMachine MapOrderBook)) :=
  net_run None member_config Direct empty_book fresh_net.

(** Server 1 asks for votes, server 2 votes for it and restarts, and the vote
    makes server 1 the leader of term 1. *)
Definition elect_one : list net_act :=
  [XTick 1; XTick 1; XTick 1; XPoll 1; XProcess 1; XAdvance 1;
   XArrive 0; XDrain 2; XPoll 2; XProcess 2; XAdvance 2; XCrash 2;
   XArrive 2; XDrain 1].

Definition elected : Net (LOBStateMachine MapOrderBook) := default fresh_net (run_servers elect_one).

Definition leads (N : Net (LOBStateMachine MapOrderBook)) (i : Z) : option (bool * Z * Z) :=
  mc ← nt_machines N !! i;
  Some (isLeader (mc_server mc), n_term (sv_node (mc_server mc)), n_vote (sv_node (mc_server mc))).

Lemma fresh_net_initial : net_initial members fresh_net.
Proof.
  split; [done|]. intros i mc Hi. unfold fresh_net in Hi. cbn [nt_machines] in Hi.
  apply elem_of_list_to_map_2 in Hi. unfold members in Hi. cbn [fmap list_fmap] in Hi.
  rewrite !elem_of_cons in Hi.
  destruct Hi as [?|[?|[?|Hi]]]; [..|by apply not_elem_of_nil in Hi]; simplify_eq;
    (split_and!; [set_solver|done|done|]); exists None; (split; [done|]);
    eexists (member_config _), Direct, [], (new_SnapshotFile None None), empty_book; split_and!; reflexivity.
Qed.

Lemma elected_reachable : net_reachable None members elected.
Proof.
  exists fresh_net. split; [exact fresh_net_initial|].
  apply (net_run_sound None members member_config Direct empty_book elect_one);
    [by intros i|by repeat constructor|vm_compute; reflexivity].
Qed.

Lemma servers_elect_one_leader_witness :
  leads elected 1 = Some (true, 1, 1) /\ leads elected 2 = Some (false, 1, 1) /\ 1 = 1.
Proof.
  split; [vm_compute; reflexivity|]. split; [vm_compute; reflexivity|].
  apply (servers_elect_one_leader None members elected 1 1
    (default (fresh_machine 1) (nt_machines elected !! 1))
    (default (fresh_machine 1) (nt_machines elected !! 1))).
  - apply (bool_decide_unpack _); vm_compute; exact I.
  - apply (bool_decide_unpack _); vm_compute; exact I.
  - exact elected_reachable.
  - vm_compute; reflexivity.
  - vm_compute; reflexivity.
  - vm_compute; reflexivity.
  - vm_compute; reflexivity.
  - reflexivity.
Defined.

(** ** Half-written hard states *)

(** Server 2 votes for server 1, which leads term 1; a heartbeat makes server
    2 write its hard state again, and it is killed when the file is only
    truncated.  It comes back in term 0 and votes for server 3 in term 1. *)
Definition elect_two : list net_act :=
  [XTick 1; XTick 1; XTick 1; XPoll 1; XProcess 1; XAdvance 1;
   XArrive 0; XDrain 2; XPoll 2; XProcess 2; XAdvance 2;
   XArrive 2; XDrain 1; XTick 1; XPoll 1; XProcess 1; XAdvance 1;
   XArrive 5; XDrain 2; XPoll 2; XTorn 2 0]
  ++ replicate 9 (XTick 3) ++ [XPoll 3; XProcess 3; XAdvance 3;
   XArrive 8; XDrain 2; XPoll 2; XProcess 2; XAdvance 2; XArrive 9; XDrain 3].

(** A crash while [hardstate.bin] is written can elect two leaders.
    [saveHardState] truncates the file and then writes it, at every Ready; a
    server killed in between forgets its term and its vote, and in this run
    of three servers it votes twice in term 1. *)
Theorem torn_hardstate_two_leaders :
  exists N, run_servers elect_two = Some N
    /\ leads N 1 = Some (true, 1, 1) /\ leads N 3 = Some (true, 1, 3).
Proof. eexists. split; [vm_compute; reflexivity|]. split; vm_compute; reflexivity. Qed.
