(* ===== verification/ServerLogs.v ===== *)
(** * The logs of servers

    Servers of [app/server/Server.cpp] whose loops take their turns (tick,
    drain the inbox, poll, process the Ready, advance) while messages arrive
    and clients call in between.  A process can be killed between any two steps, also
    while it writes its log file (which then holds whole records) or while it
    sends, and is started again on the files it left; a kill inside
    [saveHardState] or inside a record is excluded, and the cluster has at
    least two members.  Such a fleet refines the replicas of [RaftReplica], so
    that the logs of the servers match. *)

From S2P Require Import Prelude IOrderBook MapOrderBook StateMachine LOBStateMachine KVStateMachine CommandCodec.
From S2P Require Import RaftTypes LogUnstable WriteAheadLog SnapshotFile.
From S2P Require Import RaftLog Progress ReadOnly RawNode RaftActions RaftElection RaftCluster LogHistory.
From S2P Require Import RaftReplica LogMatching ReplicaTheorems OrderProtocol Server ServerCluster.

(** A server and where its loop stands. *)
Record Process (S : Type) := mkProcess { pc_server : Server S; pc_phase : phase }.
Arguments mkProcess {S}.
Arguments pc_server {S}.
Arguments pc_phase {S}.

Record Fleet (S : Type) := mkFleet { fl_procs : gmap Z (Process S); fl_wire : list Message }.
Arguments mkFleet {S}.
Arguments fl_procs {S}.
Arguments fl_wire {S}.

Section ServerLogs.
Context {S : Type} `{!StateMachine S} `{!Platform} `{!Random} `{!CommandCodec}.
Context (bookReader : option (BookReader S)) (V : list Z).
Implicit Types (s : Server S) (p : Process S) (F : Fleet S).

Definition set_proc (i : Z) p F : Fleet S := mkFleet (<[i := p]> (fl_procs F)) (fl_wire F).
Definition with_srv s p : Process S := mkProcess s (pc_phase p).

(** Started as member [i] on these files. *)
Definition relaunched (i : Z) (logFile : bytes) (hsFile csFile : option bytes) (sf : SnapshotFile) p : Prop :=
  exists c rm fsm s,
    c_id c = i /\ c_peers c = V /\ c_learners c = [] /\
    start (new_Server c rm (new_WriteAheadLog logFile hsFile csFile) sf fsm) = Some s /\ p = mkProcess s Idle.

Inductive fleet_step F : Fleet S -> Prop :=
| f_tick i p s' :
    fl_procs F !! i = Some p -> pc_phase p = Idle -> fits (sv_wal (pc_server p)) (sv_node (pc_server p)) ->
    loop_tick (pc_server p) = Some s' -> fleet_step F (set_proc i (with_srv s' p) F)
| f_receive i p m :
    fl_procs F !! i = Some p -> m ∈ fl_wire F -> m_to m = i -> term_below (m_term m) ->
    fleet_step F (set_proc i (with_srv (onRaftMessage (pc_server p) m) p) F)
| f_drain i p s' :
    fl_procs F !! i = Some p -> pc_phase p = Idle ->
    (forall k n, step_all (sv_wal (pc_server p)) (sv_node (pc_server p))
                   (take k (sv_pendingMsgs (pc_server p))) = Some n -> fits (sv_wal (pc_server p)) n) ->
    loop_drain (pc_server p) = Some s' -> fleet_step F (set_proc i (with_srv s' p) F)
| f_client i p codec o s' :
    fl_procs F !! i = Some p -> fits (sv_wal (pc_server p)) (sv_node (pc_server p)) ->
    (forall data, proposes codec o data -> str_ok data) ->
    client_step bookReader (pc_server p) codec o = Some s' -> fleet_step F (set_proc i (with_srv s' p) F)
| f_poll i p rd s' :
    fl_procs F !! i = Some p -> pc_phase p = Idle -> loop_poll (pc_server p) = (rd, s') ->
    fleet_step F (set_proc i (mkProcess s' (Polled rd)) F)
| f_process i p rd s' :
    fl_procs F !! i = Some p -> pc_phase p = Polled rd -> term_below (hs_term (rd_hardState rd)) ->
    processReady bookReader (pc_server p) rd = Some s' ->
    fleet_step F (mkFleet (<[i := mkProcess s' Written]> (fl_procs F)) (fl_wire F ++ rd_messages rd))
| f_advance i p s' :
    fl_procs F !! i = Some p -> pc_phase p = Written -> loop_advance (pc_server p) = Some s' ->
    fleet_step F (set_proc i (mkProcess s' Idle) F)
| f_crash i p p' :
    let w := sv_wal (pc_server p) in
    fl_procs F !! i = Some p ->
    relaunched i (w_logFile w) (w_hsFile w) (w_csFile w) (sv_snapFile (pc_server p)) p' ->
    fleet_step F (set_proc i p' F)
| f_crash_writing i p rd k p' :  (* [k] records of the new log reached the disk *)
    let w := sv_wal (pc_server p) in
    fl_procs F !! i = Some p -> pc_phase p = Polled rd ->
    relaunched i (foldl writeEntry [] (take k (w_log (persist_log rd w)))) (w_hsFile w) (w_csFile w)
      (sv_snapFile (pc_server p)) p' ->
    fleet_step F (set_proc i p' F)
| f_crash_sending i p rd sent p' :  (* persisted; some messages were sent, by threads of their own *)
    let w := persist rd (sv_wal (pc_server p)) in
    fl_procs F !! i = Some p -> pc_phase p = Polled rd -> term_below (hs_term (rd_hardState rd)) ->
    relaunched i (w_logFile w) (w_hsFile w) (w_csFile w) (sv_snapFile (pc_server p)) p' ->
    sent ⊆ rd_messages rd ->
    fleet_step F (mkFleet (<[i := p']> (fl_procs F)) (fl_wire F ++ sent)).

(** Members on empty logs with any hard state and no snapshot. *)
Definition fleet_initial F : Prop :=
  fl_wire F = [] /\
  forall i p, fl_procs F !! i = Some p ->
    i ∈ V /\ i <> 0 /\ exists hsFile sf,
      0 <= hs_term (file_hs hsFile) /\ load sf = None /\ relaunched i [] hsFile None sf p.

Definition fleet_reachable F : Prop := exists F0, fleet_initial F0 /\ rtc fleet_step F0 F.

(** ** Refinement *)

Definition replica_of p : Replica := mkReplica (sv_node (pc_server p)) (sv_wal (pc_server p)) (pc_phase p).
Definition world_of F : World := mkWorld (replica_of <$> fl_procs F) (fl_wire F).

(** What waits in an inbox has been sent, and no snapshot was stored. *)
Definition process_ok F (i : Z) p : Prop :=
  load (sv_snapFile (pc_server p)) = None
  /\ Forall (fun m => m ∈ fl_wire F /\ m_to m = i /\ term_below (m_term m)) (sv_pendingMsgs (pc_server p)).

Definition fleet_ok F : Prop := map_Forall (process_ok F) (fl_procs F).

Lemma lookup_world_of F i p :
  fl_procs F !! i = Some p -> wd_replicas (world_of F) !! i = Some (replica_of p).
Proof. intros Hi. simpl. by rewrite lookup_fmap, Hi. Qed.

Lemma world_of_set F i p wire :
  world_of (mkFleet (<[i := p]> (fl_procs F)) wire) = mkWorld (<[i := replica_of p]> (wd_replicas (world_of F))) wire.
Proof. unfold world_of. simpl. by rewrite fmap_insert. Qed.

Lemma fleet_ok_insert F i p wire :
  fleet_ok F -> fl_wire F ⊆ wire -> process_ok F i p ->
  fleet_ok (mkFleet (<[i := p]> (fl_procs F)) wire).
Proof.
  intros Hok Hw Hp j pj Hj. assert (process_ok F j pj) as [Hs Hd].
  { simpl in Hj. apply lookup_insert_Some in Hj as [[<- <-]|[_ Hj]]; [done|by apply Hok]. }
  split; [done|]. eapply Forall_impl; [exact Hd|]. intros m (Hm & ? & ?). split_and!; [by apply Hw|done..].
Qed.

Lemma start_unsnapped c rm w sf fsm s :
  load sf = None -> start (new_Server c rm w sf fsm) = Some s -> held s = held (new_Server c rm w sf fsm).
Proof. unfold start. cbn [new_Server sv_snapFile]. intros ->. cbn [mbind option_bind]. by intros [= <-]. Qed.

Lemma relaunched_revived F i logFile hsFile csFile sf p :
  load sf = None -> relaunched i logFile hsFile csFile sf p ->
  revived V i logFile hsFile csFile (replica_of p) /\ process_ok F i p.
Proof.
  intros Hl (c & rm & fsm & s & Hid & HV & _ & Hs & ->). apply start_unsnapped in Hs; [|done].
  unfold held in Hs. injection Hs as En Ep Ew Ef. unfold revived, replica_of, process_ok. cbn [pc_server pc_phase].
  rewrite Ep, Ef. split; [|by split]. eexists (mkConfig (c_id c) _ _ _ _ _ _ _ _).
  split_and!; [done|done| |]; [|by rewrite En, Ew]. done.
Qed.

Lemma drain_sim W i ms : forall r n',
  wd_replicas W !! i = Some r -> rp_phase r = Idle ->
  Forall (fun m => m ∈ wd_wire W /\ m_to m = i /\ term_below (m_term m)) ms ->
  (forall k n, step_all (rp_wal r) (rp_node r) (take k ms) = Some n -> fits (rp_wal r) n) ->
  step_all (rp_wal r) (rp_node r) ms = Some n' ->
  rtc (replica_step V) W (put i (with_rnode n' r) W).
Proof.
  intros r n' Hi Hp Hms. revert W r n' Hi Hp Hms. induction ms as [|m ms IH]; intros W r n' Hi Hp Hms Hf Hs;
    cbn [step_all] in Hs.
  { injection Hs as <-. rewrite put_same; [done|]. by destruct r. }
  destruct (step (rp_wal r) (rp_node r) m) as [n1|] eqn:E; cbn [mbind option_bind] in Hs; [|done].
  apply Forall_cons in Hms as [(Hw & Hto & Ht) Hms].
  eapply rtc_l; [eapply r_step; [exact Hi|exact Hp|by apply (Hf 0%nat)|exact Hw|exact Hto|exact Ht|exact E]|].
  change (with_rnode n' r) with (with_rnode n' (with_rnode n1 r)).
  rewrite <- (put_twice W i (with_rnode n1 r) (with_rnode n' (with_rnode n1 r))).
  apply (IH (put i (with_rnode n1 r) W) (with_rnode n1 r) n'); [apply lookup_put; by left|done|done| |done].
  intros k n Hk. apply (Hf (Datatypes.S k)). cbn [take step_all]. by rewrite E.
Qed.

(** Every step of the fleet is one of the replicas, or several, or none. *)
Lemma fleet_step_sim hist F F' :
  fleet_ok F -> replica_inv V hist (world_of F) -> fleet_step F F' ->
  fleet_ok F' /\ rtc (replica_step V) (world_of F) (world_of F').
Proof.
  intros Hok Hinv Hstep.
  destruct Hstep as [i p s' Hi Hp Hf Hs|i p m Hi Hm Hto Ht|i p s' Hi Hp Hf Hs|i p codec o s' Hi Hf Hd Hs
    |i p rd s' Hi Hp Hs|i p rd s' Hi Hp Ht Hs|i p s' Hi Hp Hs|i p p' w Hi Hr|i p rd k p' w Hi Hp Hr|i p rd k p' w Hi Hp Ht Hr];
    pose proof (lookup_world_of F i p Hi) as Hri; destruct (Hok i p Hi) as [Hsn Hin].
  - unfold loop_tick in Hs. unbind Hs. destruct p0 as [b n']. injection Hs as <-.
    split; [by apply fleet_ok_insert|]. unfold set_proc. rewrite world_of_set. apply rtc_once.
    by eapply (r_tick V (world_of F) i (replica_of p)).
  - split.
    + apply fleet_ok_insert; [done|done|]. split; [done|]. simpl. apply Forall_app. split; [done|].
      by apply Forall_singleton.
    + unfold set_proc. rewrite world_of_set. unfold world_of. simpl. rewrite insert_id; [done|].
      rewrite lookup_fmap, Hi. done.
  - unfold loop_drain in Hs. unbind Hs. injection Hs as <-. split; [by apply fleet_ok_insert|].
    unfold set_proc. rewrite world_of_set. by eapply (drain_sim (world_of F) i _ (replica_of p)).
  - apply client_step_held in Hs as [Eh Hm]. unfold held in Eh. injection Eh as Ep Ew Ef.
    split; [apply fleet_ok_insert; [done|done|]; unfold process_ok; simpl; by rewrite Ep, Ef|].
    unfold set_proc. rewrite world_of_set.
    assert (replica_of (with_srv s' p) = with_rnode (sv_node s') (replica_of p)) as ->
      by (unfold replica_of, with_rnode; simpl; by rewrite Ew).
    change (mkWorld _ _) with (put i (with_rnode (sv_node s') (replica_of p)) (world_of F)).
    destruct Hm as [->|[(data & b & HP & E)|(ctx & b & E)]].
    + rewrite put_same; done.
    + apply rtc_once. eapply (r_propose V (world_of F) i (replica_of p)); [done|done|by apply Hd|done].
    + apply rtc_once. by eapply (r_readIndex V (world_of F) i (replica_of p)).
  - unfold loop_poll in Hs. destruct (poll _ _) as [rd' n'] eqn:E. injection Hs as <- <-.
    split; [by apply fleet_ok_insert|]. unfold set_proc. rewrite world_of_set. apply rtc_once.
    by eapply (r_poll V (world_of F) i (replica_of p)).
  - destruct (ri_logs _ _ _ Hinv _ _ Hri) as (_ & Hph & _). unfold phase_ok in Hph. simpl in Hph. rewrite Hp in Hph.
    destruct Hph as (Hnone & _). apply processReady_phases in Hs as (s1 & Eh & E1). rewrite Hnone in E1. subst s1.
    unfold held in Eh. injection Eh as En Ep Ew Ef. split.
    + apply fleet_ok_insert; [done|set_solver|]. unfold process_ok. cbn [pc_server]. by rewrite Ep, Ef.
    + rewrite world_of_set. apply rtc_once. unfold replica_of at 1. cbn [pc_server pc_phase]. rewrite En, Ew.
      by eapply (r_write V (world_of F) i (replica_of p)).
  - unfold loop_advance in Hs. unbind Hs. injection Hs as <-. split; [by apply fleet_ok_insert|].
    unfold set_proc. rewrite world_of_set. apply rtc_once. by eapply (r_advance V (world_of F) i (replica_of p)).
  - destruct (relaunched_revived F i _ _ _ _ _ Hsn Hr) as [Hrev Hp']. split; [by apply fleet_ok_insert|].
    unfold set_proc. rewrite world_of_set. apply rtc_once. by eapply (r_crash V (world_of F) i (replica_of p)).
  - destruct (relaunched_revived F i _ _ _ _ _ Hsn Hr) as [Hrev Hp']. split; [by apply fleet_ok_insert|].
    unfold set_proc. rewrite world_of_set. apply rtc_once. by eapply (r_crash_writing V (world_of F) i (replica_of p)).
  - destruct (relaunched_revived F i _ _ _ _ _ Hsn Hr) as [Hrev Hp']. split; [apply fleet_ok_insert; [done|set_solver|done]|].
    rewrite world_of_set. apply rtc_once. by eapply (r_crash_sending V (world_of F) i (replica_of p)).
Qed.

Lemma fleet_initial_ok F : fleet_initial F -> fleet_ok F /\ replica_initial V (world_of F).
Proof.
  intros [Hw Hp]. split.
  - intros i p Hi. destruct (Hp i p Hi) as (_ & _ & f & sf & _ & Hl & Hr). by eapply relaunched_revived.
  - split; [done|]. intros i r Hi. simpl in Hi. rewrite lookup_fmap in Hi. apply fmap_Some in Hi as (p & Hi & ->).
    destruct (Hp i p Hi) as (HiV & Hi0 & f & sf & Ht & Hl & Hr). split_and!; [done|done|]. exists f. split; [done|].
    by eapply (relaunched_revived F).
Qed.

Section Logs.
Context (HVn : NoDup V) (HVu : Forall is_u64 V) (HV2 : (2 <= length V)%nat).

Lemma fleet_run_sim F F' :
  fleet_ok F -> replica_reachable V (world_of F) -> rtc fleet_step F F' ->
  fleet_ok F' /\ rtc (replica_step V) (world_of F) (world_of F').
Proof using HVn HVu HV2.
  intros Hok Hre Hrun. induction Hrun as [F|F1 F2 F3 Hs _ IH]; [done|].
  destruct (replica_reachable_inv V HVn HVu HV2 _ Hre) as [h Hinv].
  destruct (fleet_step_sim h F1 F2 Hok Hinv Hs) as [Hok2 H12].
  destruct IH as [Hok3 H23]; [done| |].
  - destruct Hre as (W0 & ? & ?). exists W0. split; [done|]. by etransitivity.
  - split; [done|]. by etransitivity.
Qed.

Lemma fleet_reachable_sim F : fleet_reachable F -> fleet_ok F /\ replica_reachable V (world_of F).
Proof using HVn HVu HV2.
  intros (F0 & [Hok Hini]%fleet_initial_ok & Hrun).
  assert (replica_reachable V (world_of F0)) as Hre by (by exists (world_of F0)).
  destruct (fleet_run_sim F0 F Hok Hre Hrun) as [? ?]. split; [done|]. by exists (world_of F0).
Qed.

(** A log of the fleet, in memory or on disk. *)
Definition fleet_holds F (L : list Entry) : Prop :=
  exists i p, fl_procs F !! i = Some p /\
    let s := pc_server p in L = log_list (sv_wal s) (n_log (sv_node s)) \/ L = w_log (sv_wal s).

Lemma fleet_holds_world F L : fleet_holds F L -> holds (world_of F) L.
Proof using Type. clear HVn HVu HV2. intros (i & p & Hi & HL). exists i, (replica_of p). split; [by apply lookup_world_of|done]. Qed.

(** C2. The logs of servers match.  The servers of a cluster of at least two
    members start on empty logs, take the turns of their loops, receive what
    was sent to them, late, repeatedly or never, serve clients, and are killed
    and started again on their files; a kill may come while [log.bin] is
    written, of which it leaves whole records, and not inside
    [saveHardState], so that [hardstate.bin] is whole.  If two of their
    logs, in memory or on disk, at one moment of the run or at two, have an
    entry of the same term at the same position, they have the same entries
    up to it. *)
Theorem servers_logs_match F F' L L' k e e' :
  fleet_reachable F -> rtc fleet_step F F' -> fleet_holds F L -> fleet_holds F' L' ->
  L !! k = Some e -> L' !! k = Some e' -> e_term e = e_term e' -> take (Datatypes.S k) L = take (Datatypes.S k) L'.
Proof using HVn HVu HV2.
  intros Hreach Hrun HL HL'. destruct (fleet_reachable_sim F Hreach) as [Hok Hre].
  destruct (fleet_run_sim F F' Hok Hre Hrun) as [_ Hrun'].
  destruct (replica_reachable_inv V HVn HVu HV2 _ Hre) as [h Hinv].
  destruct (replica_run_inv V HVn HVu HV2 h _ _ Hinv Hrun') as (h' & He & Hinv' & _).
  apply (follows_agree h'); [|by eapply holds_follows, fleet_holds_world].
  eapply follows_mono; [exact He|]. by eapply holds_follows, fleet_holds_world.
Qed.
End Logs.

(** ** Running servers *)

Inductive fleet_act :=
| YTick (i : Z) | YArrive (k : nat) | YDrain (i : Z) | YSubmit (i : Z) (cmd : bytes)
| YRead (i : Z) (isBids : bool) (levels : Z)
| YPoll (i : Z) | YProcess (i : Z) | YAdvance (i : Z) | YCrash (i : Z).

(** There is room before each of the messages. *)
Fixpoint drain_fits (w : WriteAheadLog) (n : RawNode) (ms : list Message) : bool :=
  bool_decide (fits w n) &&
  match ms with
  | [] => true
  | m :: ms => match step w n m with Some n' => drain_fits w n' ms | None => true end
  end.

Lemma drain_fits_spec w ms : forall n k n',
  drain_fits w n ms = true -> step_all w n (take k ms) = Some n' -> fits w n'.
Proof.
  induction ms as [|m ms IH]; intros n k n' Hb Hs; cbn [drain_fits] in Hb;
    apply andb_true_iff in Hb as [Ht%bool_decide_eq_true Hb].
  - rewrite take_nil in Hs. by injection Hs as <-.
  - destruct k as [|k]; [by injection Hs as <-|]. cbn [take step_all] in Hs.
    destruct (step w n m); [|done]. by eapply IH.
Qed.

Context (cfg : Z -> Config) (rm : ReadMode) (fsm0 : S) (codec0 : cc_state).

Definition fleet_exec F (a : fleet_act) : option (Fleet S) :=
  match a with
  | YTick i =>
      p ← fl_procs F !! i;
      guard (idle (pc_phase p) = true);; guard (fits (sv_wal (pc_server p)) (sv_node (pc_server p)));;
      s' ← loop_tick (pc_server p); Some (set_proc i (with_srv s' p) F)
  | YArrive k =>
      m ← fl_wire F !! k;
      p ← fl_procs F !! m_to m;
      guard (term_below (m_term m));;
      Some (set_proc (m_to m) (with_srv (onRaftMessage (pc_server p) m) p) F)
  | YDrain i =>
      p ← fl_procs F !! i;
      guard (idle (pc_phase p) = true);;
      guard (drain_fits (sv_wal (pc_server p)) (sv_node (pc_server p)) (sv_pendingMsgs (pc_server p)) = true);;
      s' ← loop_drain (pc_server p); Some (set_proc i (with_srv s' p) F)
  | YSubmit i cmd =>
      p ← fl_procs F !! i;
      guard (fits (sv_wal (pc_server p)) (sv_node (pc_server p)));; guard (str_ok cmd);;
      s' ← client_step bookReader (pc_server p) codec0 (OSubmit cmd); Some (set_proc i (with_srv s' p) F)
  | YRead i isBids levels =>
      p ← fl_procs F !! i;
      guard (fits (sv_wal (pc_server p)) (sv_node (pc_server p)));;
      s' ← client_step bookReader (pc_server p) codec0 (ORead isBids levels); Some (set_proc i (with_srv s' p) F)
  | YPoll i =>
      p ← fl_procs F !! i;
      guard (idle (pc_phase p) = true);; guard (hasReady (sv_node (pc_server p)) = true);;
      let '(rd, s') := loop_poll (pc_server p) in Some (set_proc i (mkProcess s' (Polled rd)) F)
  | YProcess i =>
      p ← fl_procs F !! i;
      rd ← match pc_phase p with Polled rd => Some rd | _ => None end;
      guard (term_below (hs_term (rd_hardState rd)));;
      s' ← processReady bookReader (pc_server p) rd;
      Some (mkFleet (<[i := mkProcess s' Written]> (fl_procs F)) (fl_wire F ++ rd_messages rd))
  | YAdvance i =>
      p ← fl_procs F !! i;
      guard (written (pc_phase p) = true);;
      s' ← loop_advance (pc_server p); Some (set_proc i (mkProcess s' Idle) F)
  | YCrash i =>
      p ← fl_procs F !! i;
      let w := sv_wal (pc_server p) in
      s' ← start (new_Server (cfg i) rm (new_WriteAheadLog (w_logFile w) (w_hsFile w) (w_csFile w))
                    (sv_snapFile (pc_server p)) fsm0);
      Some (set_proc i (mkProcess s' Idle) F)
  end.

Lemma fleet_exec_sound F a F' :
  member_of cfg V -> fleet_exec F a = Some F' -> fleet_step F F'.
Proof.
  intros Hc. destruct a as [i|k|i|i cmd|i isBids levels|i|i|i|i]; cbn [fleet_exec]; intros Hs; unbind Hs;
    repeat (case_guard; [cbn [mbind option_bind] in Hs; unbind Hs|done]).
  - injection Hs as <-. eapply f_tick; try done. by destruct (pc_phase _).
  - injection Hs as <-. eapply f_receive; [done|by eapply list_elem_of_lookup_2|done|done].
  - injection Hs as <-. eapply f_drain; [done|by destruct (pc_phase _)| |done]. intros k n. by apply drain_fits_spec.
  - injection Hs as <-. eapply (f_client _ _ _ codec0 (OSubmit cmd)); [done|done| |done]. by intros data ->.
  - injection Hs as <-. eapply (f_client _ _ _ codec0 (ORead isBids levels)); [done|done|by intros data []|done].
  - destruct (loop_poll _) as [rd s'] eqn:Epoll. injection Hs as <-. eapply f_poll; [done|by destruct (pc_phase _)|done].
  - injection Hs as <-. eapply f_process; [done| |done|done]. by destruct (pc_phase _); simplify_eq.
  - injection Hs as <-. eapply f_advance; [done|by destruct (pc_phase _)|done].
  - injection Hs as <-. eapply f_crash; [done|]. destruct (Hc i) as (? & ? & ?). by repeat eexists.
Qed.

Lemma fleet_exec_run F acts F' :
  member_of cfg V -> run fleet_exec F acts = Some F' -> rtc fleet_step F F'.
Proof.
  intros Hc. apply (run_rtc fleet_exec fleet_step (fun _ => True)); [|by apply Forall_true].
  intros F1 a F2 _. by apply fleet_exec_sound.
Qed.
End ServerLogs.

(** ** Three order books *)

#[local] Existing Instance sc_platform.
#[local] Existing Instance sc_draws.
#[local] Existing Instance sc_codec.

Definition fl_fresh_proc (i : Z) : Process (LOBStateMachine MapOrderBook) :=
  mkProcess (mc_server (fresh_machine i)) Idle.

Definition fl_fresh : Fleet (LOBStateMachine MapOrderBook) :=
  mkFleet (list_to_map ((fun i => (i, fl_fresh_proc i)) <$> members)) [].

Definition fl_run : Fleet (LOBStateMachine MapOrderBook) -> list fleet_act ->
    option (Fleet (LOBStateMachine MapOrderBook)) :=
  run (fleet_exec None member_config Direct empty_book tt).

Definition turn (i : Z) : list fleet_act := [YPoll i; YProcess i; YAdvance i].
Definition hear (i : Z) (k : nat) : list fleet_act := [YArrive k; YDrain i] ++ turn i.

(** Server 1 leads term 1; its first order reaches server 2, a second entry
    nobody. *)
Definition fl_term1 : list fleet_act :=
  [YTick 1; YTick 1; YTick 1] ++ turn 1 ++ hear 2 0 ++ hear 1 2 ++ hear 2 3
  ++ [YSubmit 1 (encodeNew 1 Buy 100 10)] ++ turn 1 ++ hear 1 5 ++ hear 2 6
  ++ [YSubmit 1 (encodeCancel 1)] ++ turn 1.

(** Server 1 is killed; server 2 leads term 2 with the vote of server 3 and
    takes another order. *)
Definition fl_term2 : list fleet_act :=
  [YCrash 1] ++ replicate 7 (YTick 2) ++ turn 2 ++ hear 3 10 ++ hear 2 11
  ++ [YSubmit 2 (encodeNew 2 Sell 101 5)] ++ turn 2.

Definition fl_after (acts : list fleet_act) : Fleet (LOBStateMachine MapOrderBook) :=
  default fl_fresh (fl_run fl_fresh acts).
Definition fl_F1 := fl_after fl_term1.
Definition fl_F2 := fl_after (fl_term1 ++ fl_term2).

Definition proc_at (F : Fleet (LOBStateMachine MapOrderBook)) (i : Z) : Process (LOBStateMachine MapOrderBook) :=
  default (fl_fresh_proc i) (fl_procs F !! i).

Lemma fl_initial : fleet_initial members fl_fresh.
Proof.
  split; [done|]. intros i p Hi. unfold fl_fresh in Hi. cbn [fl_procs] in Hi.
  apply elem_of_list_to_map_2 in Hi. unfold members in Hi. cbn [fmap list_fmap] in Hi. rewrite !elem_of_cons in Hi.
  destruct Hi as [?|[?|[?|Hi]]]; [..|by apply not_elem_of_nil in Hi]; simplify_eq;
    (split_and!; [set_solver|done|]; exists None, (new_SnapshotFile None None); split_and!; [done|done|];
     eexists (member_config _), Direct, empty_book, _; by split_and!).
Qed.

Lemma servers_logs_match_witness :
  let L1 := log_of (replica_of (proc_at fl_F1 1)) in
  let L2 := log_of (replica_of (proc_at fl_F2 2)) in
  terms L1 = [1; 1] /\ terms L2 = [1; 2; 2] /\ take 1 L1 = take 1 L2.
Proof.
  assert (forall F acts F', fl_run F acts = Some F' -> rtc (fleet_step None members) F F') as Hrun.
  { intros F acts F'. by apply fleet_exec_run. }
  split_and!; [vm_compute; reflexivity..|].
  apply (servers_logs_match None members rt_nodup rt_u64 ltac:(simpl; lia) fl_F1 fl_F2 _ _ 0
    (mkEntry 1 1 Normal (encodeNew 1 Buy 100 10)) (mkEntry 1 1 Normal (encodeNew 1 Buy 100 10))).
  - exists fl_fresh. split; [exact fl_initial|]. apply (Hrun _ fl_term1). vm_compute. reflexivity.
  - apply (Hrun _ fl_term2). vm_compute. reflexivity.
  - exists 1, (proc_at fl_F1 1). split; [vm_compute; reflexivity|by left].
  - exists 2, (proc_at fl_F2 2). split; [vm_compute; reflexivity|by left].
  - vm_compute. reflexivity.
  - vm_compute. reflexivity.
  - reflexivity.
Defined.
