(* ===== verification/ServerReads.v ===== *)
(** * Reads through the leader

    In the read mode [ReadIndex] a server hands a read to its raft node and
    waits for the read state that says a majority has confirmed its
    leadership.  No node ever produces one: the replies to the heartbeats of
    a read carry no context ([RaftTheorems.heartbeat_reply_confirms_nothing]),
    so that over every run of servers the reads stay unanswered. *)

From S2P Require Import Prelude IOrderBook MapOrderBook StateMachine LOBStateMachine KVStateMachine CommandCodec.
From S2P Require Import RaftTypes LogUnstable WriteAheadLog SnapshotFile.
From S2P Require Import RaftLog Progress ReadOnly RawNode RaftActions RaftReplica ReplicaTheorems.
From S2P Require Import OrderProtocol Server ServerCluster ServerLogs.

(** ** Messages that complete no read *)

Definition mute (m : Message) : Prop :=
  m_type m <> MsgReadIndexResp /\ (m_type m = MsgHeartbeatResp -> m_context m = []).

(** No read is completed, and nothing is sent that could complete one. *)
Definition hushed (n n' : RawNode) : Prop :=
  n_readStates n' = n_readStates n /\ exists ms, n_msgs n' = n_msgs n ++ ms /\ Forall mute ms.

#[global] Instance hushed_preorder : PreOrder hushed.
Proof.
  split.
  - intros n. split; [done|]. exists []. by rewrite app_nil_r.
  - intros n1 n2 n3 (E1 & ms1 & M1 & F1) (E2 & ms2 & M2 & F2). split; [congruence|].
    exists (ms1 ++ ms2). rewrite M2, M1, app_assoc. split; [done|]. by apply Forall_app.
Qed.

Lemma hushed_same n n' : n_readStates n' = n_readStates n -> n_msgs n' = n_msgs n -> hushed n n'.
Proof. intros Hr Hm. split; [done|]. exists []. by rewrite app_nil_r. Qed.

Lemma hushed_send n n' m :
  n_readStates n' = n_readStates n -> n_msgs n' = n_msgs n -> mute m -> hushed n (send n' m).
Proof. intros Hr Hm Hq. split; [done|]. exists [m]. simpl. rewrite Hm. split; [done|]. by apply Forall_singleton. Qed.

(** A message of one type that is not a reply to a heartbeat. *)
Ltac mute_message := split; cbn; congruence.
Ltac hush :=
  first
    [ apply hushed_same; done
    | split; [done|]; eexists [_]; split; [reflexivity|]; apply Forall_singleton; mute_message ].

Section Hushed.
Context `{!Platform} `{!Random} {St : Type} `{!Storage St}.
Implicit Types (st : St) (n : RawNode).

Lemma sendSnapshot_hushed st n to : hushed n (sendSnapshot st n to).
Proof. unfold sendSnapshot. destruct (pr_find _ _); [|done]. cbv zeta. case_match; [done|hush]. Qed.

Lemma sendAppend_hushed st n to n' : sendAppend st n to = Some n' -> hushed n n'.
Proof.
  unfold sendAppend. intros Hs. destruct (pr_find to (n_pr n)) as [pr|]; [|by simplify_eq].
  destruct (p_paused pr); [by simplify_eq|]. case_bool_decide; [simplify_eq; apply sendSnapshot_hushed|].
  destruct (_ <? _); [simplify_eq; apply sendSnapshot_hushed|].
  destruct (slice _ _ _ _ _); [|simplify_eq; apply sendSnapshot_hushed].
  destruct (_ && negb _); [by simplify_eq|]. cbv zeta in Hs. destruct (_ && full _); [by simplify_eq|].
  unbind Hs. simplify_eq. hush.
Qed.

Lemma broadcastAppend_hushed st n n' : broadcastAppend st n = Some n' -> hushed n n'.
Proof. apply (for_peers_rel hushed). intros n0 id n1. apply sendAppend_hushed. Qed.

Lemma broadcastHeartbeat_hushed n n' : broadcastHeartbeat n = Some n' -> hushed n n'.
Proof. apply (for_peers_rel hushed). intros n0 id n1 [= <-]. hush. Qed.

Lemma broadcastReadHeartbeat_hushed n ctx n' : broadcastReadHeartbeat n ctx = Some n' -> hushed n n'.
Proof. apply (for_peers_rel hushed). intros n0 id n1 [= <-]. hush. Qed.

Lemma maybeCommit_hushed st n b n' : maybeCommit st n = Some (b, n') -> hushed n n'.
Proof.
  unfold maybeCommit. intros Hs. unbind Hs. destruct (_ <? _); [|by simplify_eq]. unbind Hs.
  destruct (_ =? _); [|by simplify_eq]. unbind Hs. destruct p. simplify_eq. hush.
Qed.

Lemma becomeFollower_hushed n t l : hushed n (becomeFollower n t l).
Proof. hush. Qed.

Lemma becomeLeader_hushed st n n' : becomeLeader st n = Some n' -> hushed n n'.
Proof.
  unfold becomeLeader. cbv zeta. intros Hs%broadcastAppend_hushed. etransitivity; [|exact Hs]. clear Hs.
  unfold append_noop. destruct (_ <=? _); hush.
Qed.

Lemma campaign_hushed st n n' : campaign st n = Some n' -> hushed n n'.
Proof.
  unfold campaign. intros Hs. case_bool_decide.
  { apply becomeLeader_hushed in Hs. etransitivity; [|exact Hs]. hush. }
  assert (forall l acc, (forall x, acc = Some x -> hushed n x) -> forall x, foldl (fun acc id =>
      n ← acc;
      if id =? n_id n then Some n else
      lt ← lastTerm st (n_log n);
      Some (send n (mkMessage MsgVote id (n_id n) (n_term n) lt (lastIndex st (n_log n)) 0 false 0 []
                      empty_snapshot []))) acc l = Some x -> hushed n x) as Hfold.
  { induction l as [|id l IH]; intros acc Hacc x Hx; simpl in Hx; [by apply Hacc|].
    apply IH in Hx; [done|]. clear x Hx IH. intros x Hx. unbind Hx.
    etransitivity; [by apply Hacc|]. destruct (id =? _); [by simplify_eq|]. unbind Hx. simplify_eq. hush. }
  eapply Hfold; [|exact Hs]. intros x [= <-]. hush.
Qed.

Lemma propose_hushed st n data b n' : propose st n data = Some (b, n') -> hushed n n'.
Proof.
  unfold propose. intros Hs. destruct (negb _); [by simplify_eq|]. cbv zeta in Hs. unbind Hs. simplify_eq.
  apply broadcastAppend_hushed in E. etransitivity; [|exact E]. hush.
Qed.

Lemma readIndex_hushed n ctx b n' : readIndex n ctx = Some (b, n') -> hushed n n'.
Proof.
  unfold readIndex. intros Hs. destruct (negb _); [by simplify_eq|]. case_bool_decide; [by simplify_eq|].
  cbv zeta in Hs. case_bool_decide; [|simplify_eq; hush]. unbind Hs. simplify_eq.
  apply broadcastReadHeartbeat_hushed in E. etransitivity; [|exact E]. hush.
Qed.

Lemma pollVote_hushed st n from g n' : pollVote st n from g = Some n' -> hushed n n'.
Proof.
  unfold pollVote. intros Hs. case_bool_decide; [by simplify_eq|]. destruct g; [|by simplify_eq].
  cbv zeta in Hs. case_bool_decide; [|simplify_eq; hush]. apply becomeLeader_hushed in Hs.
  etransitivity; [|exact Hs]. hush.
Qed.

(** Every message but the two kinds that could complete a read. *)
Lemma stepLeader_hushed st n m n' : mute m -> stepLeader st n m = Some n' -> hushed n n'.
Proof.
  intros [Hty Hctx] Hs. unfold stepLeader in Hs. destruct (m_type m) eqn:Em; try (by simplify_eq).
  - unbind Hs. destruct p. simplify_eq. by eapply propose_hushed.
  - destruct (pr_find _ _) as [pr|]; [|by simplify_eq]. destruct (m_reject m).
    { cbv zeta in Hs. apply sendAppend_hushed in Hs. etransitivity; [|exact Hs]. hush. }
    unbind Hs. destruct p0 as [moved n1]. unbind Hs. apply maybeCommit_hushed in E0.
    assert (hushed n1 r) as E1' by (destruct moved; [by eapply broadcastAppend_hushed|by simplify_eq]).
    assert (hushed r n') as E2 by (destruct (pr_find _ _); [case_bool_decide; [by eapply sendAppend_hushed|]|]; by simplify_eq).
    etransitivity; [|exact E2]. etransitivity; [|exact E1']. etransitivity; [|exact E0]. hush.
  - destruct (pr_find _ _) as [pr|]; [|by simplify_eq]. unbind Hs.
    rewrite Hctx in Hs by done. rewrite bool_decide_eq_true_2 in Hs by done. injection Hs as <-.
    case_bool_decide; [by eapply sendAppend_hushed|].
    destruct (_ && _); [by eapply sendAppend_hushed|by simplify_eq].
  - case_bool_decide; [by simplify_eq|]. cbv zeta in Hs.
    match type of Hs with (if _ then broadcastReadHeartbeat ?x _ else _) = _ => assert (hushed n x) as Hx end.
    { destruct (_ =? _); hush. }
    etransitivity; [exact Hx|]. case_bool_decide; [by eapply broadcastReadHeartbeat_hushed|by simplify_eq].
Qed.

Lemma stepFollower_hushed st n m n' : mute m -> stepFollower st n m = Some n' -> hushed n n'.
Proof.
  intros [Hty Hctx] Hs. unfold stepFollower in Hs.
  destruct (m_type m) eqn:Em; try (by simplify_eq); try done.
  - destruct (_ =? _); [by simplify_eq|]. injection Hs as <-. hush.
  - unbind Hs. destruct p as [ok log]. injection Hs as <-. destruct ok; hush.
  - unbind Hs. injection Hs as <-. destruct (_ && _); hush.
  - unbind Hs. injection Hs as <-. destruct (_ && _); hush.
  - injection Hs as <-. hush.
  - injection Hs as <-. apply hushed_send; [by destruct (_ <? _)..|]. by split.
  - by eapply campaign_hushed.
  - destruct (_ =? _); [by simplify_eq|]. injection Hs as <-. hush.
Qed.

Lemma stepCandidate_hushed st n m n' : mute m -> stepCandidate st n m = Some n' -> hushed n n'.
Proof.
  intros Hm Hs. unfold stepCandidate in Hs.
  destruct (m_type m); try (by simplify_eq); try (by eapply pollVote_hushed); try (by eapply campaign_hushed);
    (eapply stepFollower_hushed in Hs; [|done]; etransitivity; [|exact Hs]; destruct (_ =? _); [hush|done]).
Qed.

Lemma step_hushed st n m n' : mute m -> step st n m = Some n' -> hushed n n'.
Proof.
  intros Hm Hs.
  assert (forall n1, hushed n n1 ->
    (if m_term m <? n_term n1 then Some (stale_reply n1 m) else
     match n_role n1 with
     | Leader => stepLeader st n1 m
     | Candidate | PreCandidate => stepCandidate st n1 m
     | Follower => stepFollower st n1 m
     end) = Some n' -> hushed n n') as Hmain.
  { intros n1 H1 H2. etransitivity; [exact H1|]. destruct (_ <? _).
    - injection H2 as <-. unfold stale_reply. destruct (m_type m); try done; hush.
    - destruct (n_role n1);
        first [by eapply stepFollower_hushed|by eapply stepCandidate_hushed|by eapply stepLeader_hushed]. }
  unfold step in Hs. destruct (m_type m) eqn:Em;
    try (cbv zeta in Hs; (eapply Hmain; [|exact Hs]); destruct (n_term n <? m_term m); hush).
  - injection Hs as <-. hush.
  - destruct (pr_find _ _); [|by simplify_eq]. destruct (m_reject m); [injection Hs as <-; hush|].
    cbv zeta in Hs. unbind Hs. destruct p0. simplify_eq. apply maybeCommit_hushed in E. etransitivity; [|exact E]. hush.
Qed.

Lemma tick_hushed st n b n' : tick st n = Some (b, n') -> hushed n n'.
Proof.
  unfold tick, tickElection. intros Hs. case_bool_decide; cbv zeta in Hs;
    (destruct (_ <=? _); [|simplify_eq; hush]); unbind Hs; simplify_eq;
    [apply broadcastHeartbeat_hushed in E|apply campaign_hushed in E];
    (etransitivity; [|apply hushed_same; reflexivity]; etransitivity; [|exact E]); hush.
Qed.

Lemma advance_hushed st n n' : advance st n = Some n' -> hushed n n'.
Proof.
  unfold advance. intros Hs. unbind Hs.
  assert (hushed n r) as Hn by (destruct (_ <? _); [unbind E; simplify_eq; hush|by simplify_eq]).
  etransitivity; [exact Hn|]. destruct (0 <? n_lastReadyApplied r); injection Hs as <-; [hush|done].
Qed.
End Hushed.

(** ** Servers *)

Section ServerReads.
Context {S : Type} `{!StateMachine S} `{!Platform} `{!Random} `{!CommandCodec}.
Context (bookReader : option (BookReader S)) (V : list Z).
Implicit Types (s : Server S) (p : Process S) (F : Fleet S).

Definition waiting (pd : PendingRead) : Prop := pd_done pd = false.

Record silent_server s : Prop := {
  si_readStates : n_readStates (sv_node s) = [];
  si_msgs : Forall mute (n_msgs (sv_node s));
  si_inbox : Forall mute (sv_pendingMsgs s);
  si_reads : Forall waiting (sv_reads s)
}.

Definition silent_ready (rd : Ready) : Prop := rd_readStates rd = [] /\ Forall mute (rd_messages rd).

Definition silent_proc p : Prop :=
  silent_server (pc_server p) /\ forall rd, pc_phase p = Polled rd -> silent_ready rd.

(** No read has been completed, and nothing under way can complete one. *)
Definition silent F : Prop :=
  Forall mute (fl_wire F) /\ map_Forall (fun _ => silent_proc) (fl_procs F).

Lemma silent_insert F i p ms :
  silent F -> silent_proc p -> Forall mute ms ->
  silent (mkFleet (<[i := p]> (fl_procs F)) (fl_wire F ++ ms)).
Proof. intros [Hw Hp] Hn Hms. split; [by apply Forall_app|]. by apply map_Forall_insert_2. Qed.

Lemma silent_set F i p : silent F -> silent_proc p -> silent (set_proc i p F).
Proof. intros HF Hp. unfold set_proc. rewrite <- (app_nil_r (fl_wire F)). by apply silent_insert. Qed.

(** The node does something that completes no read. *)
Lemma silent_hushed s s' :
  silent_server s -> hushed (sv_node s) (sv_node s') -> Forall mute (sv_pendingMsgs s') ->
  Forall waiting (sv_reads s') -> silent_server s'.
Proof.
  intros [Hr Hm _ _] (Er & ms & Em & Hms) Hi Hrd. constructor; [congruence| |done|done].
  rewrite Em. by apply Forall_app.
Qed.

Lemma step_all_hushed (w : WriteAheadLog) ms : forall n n',
  Forall mute ms -> step_all w n ms = Some n' -> hushed n n'.
Proof.
  induction ms as [|m ms IH]; intros n n' Hms Hs; cbn [step_all] in Hs; [by simplify_eq|]. unbind Hs.
  apply Forall_cons in Hms as [Hm Hms]. etransitivity; [by eapply step_hushed|by apply IH].
Qed.

Lemma client_moved_hushed P w n n' : client_moved P w n n' -> hushed n n'.
Proof.
  intros [->|[(data & b & _ & E)|(ctx & b & E)]]; [done|by eapply propose_hushed|by eapply readIndex_hushed].
Qed.

(** A new read waits. *)
Lemma client_step_reads s codec o s' :
  client_step bookReader s codec o = Some s' -> Forall waiting (sv_reads s) -> Forall waiting (sv_reads s').
Proof.
  assert (forall data a s1, propose_wait s data = Some (a, s1) -> sv_reads s1 = sv_reads s) as Hpw.
  { unfold propose_wait. intros data a s1 Hs. unbind Hs. destruct p as [ok n]. by destruct (negb ok); simplify_eq. }
  intros Hs Hw. destruct o as [cmd|req|isBids levels]; cbn [client_step] in Hs.
  - apply fmap_Some in Hs as ([p s1] & Hs & ->). unfold submitRaw in Hs. simpl.
    destruct (negb _); [by simplify_eq|]. by rewrite (Hpw _ _ _ Hs).
  - unbind Hs. destruct p as [[r s1] codec1]. injection Hs as <-. unfold onClientRequest in E.
    destruct (negb _); [by simplify_eq|]. unbind E. destruct p as [data codec2].
    case_bool_decide; [by simplify_eq|]. unbind E. destruct p as [p s2]. injection E as _ <- _.
    match goal with H : propose_wait _ _ = _ |- _ => by rewrite (Hpw _ _ _ H) end.
  - apply fmap_Some in Hs as ([p s1] & Hs & ->). unfold readLevels in Hs. simpl.
    destruct bookReader as [reader|]; [|by simplify_eq]. destruct (sv_readMode s); [|by simplify_eq..].
    destruct (negb _); [by simplify_eq|]. cbn zeta in Hs. unbind Hs. destruct p0 as [b n]. simplify_eq. simpl.
    apply Forall_app. split; [done|]. by apply Forall_singleton.
Qed.

Lemma applyCommittedEntries_reads es : forall s s',
  applyCommittedEntries s es = Some s' -> sv_reads s' = sv_reads s.
Proof.
  induction es as [|e es IH]; intros s s' Hs; cbn [applyCommittedEntries] in Hs; [by simplify_eq|].
  unbind Hs. destruct p as [r f]. apply IH in Hs. rewrite Hs. unfold wake. by destruct (_ !! _).
Qed.

Lemma processReady_reads s rd s' :
  rd_readStates rd = [] -> processReady bookReader s rd = Some s' -> sv_reads s' = sv_reads s.
Proof.
  rewrite processReady_unfold. intros -> Hs. unbind Hs. cbn [handleReadStates] in Hs. injection Hs as <-.
  apply applyCommittedEntries_reads in E0. rewrite E0. destruct (rd_snapshot rd); [|by injection E as <-].
  cbn [ready_effect] in E. unbind E. by injection E as <-.
Qed.

Lemma relaunched_silent i logFile hsFile csFile sf p :
  relaunched V i logFile hsFile csFile sf p -> silent_proc p.
Proof.
  intros (c & rm & fsm & s & _ & _ & _ & Hs & ->). split; [|done]. cbn [pc_server].
  pose proof (start_core _ _ Hs) as Ec. unfold core in Ec. injection Ec as En Ep _ _.
  constructor; [by rewrite En|by rewrite En|by rewrite Ep|].
  unfold start in Hs. destruct (load _); cbn [mbind option_bind] in Hs; [|by injection Hs as <-].
  unbind Hs. unbind E. injection E as <-. by injection Hs as <-.
Qed.

Lemma fleet_step_silent F F' : silent F -> fleet_step bookReader V F F' -> silent F'.
Proof.
  intros HF Hstep. pose proof HF as [Hw Hall].
  destruct Hstep as [i p s' Hi Hp Hf Hs|i p m Hi Hm Hto Ht|i p s' Hi Hp Hf Hs|i p codec o s' Hi Hf Hd Hs
    |i p rd s' Hi Hp Hs|i p rd s' Hi Hp Ht Hs|i p s' Hi Hp Hs|i p p' w Hi Hr|i p rd k p' w Hi Hp Hr|i p rd sent p' w Hi Hp Ht Hr Hk];
    destruct (Hall i p Hi) as [Hsi Hrd]; try (apply silent_set; [done|]).
  - unfold loop_tick in Hs. unbind Hs. destruct p0 as [b n']. injection Hs as <-. split; [|done].
    eapply silent_hushed; [exact Hsi|by eapply tick_hushed|apply Hsi..].
  - split; [|done]. destruct Hsi as [? ? Hin ?]. constructor; try done. simpl. apply Forall_app. split; [done|].
    apply Forall_singleton. rewrite Forall_forall in Hw. by apply Hw.
  - unfold loop_drain in Hs. unbind Hs. injection Hs as <-. split; [|done].
    eapply silent_hushed; [exact Hsi|by eapply step_all_hushed, E; apply Hsi|constructor|apply Hsi].
  - split; [|done]. pose proof (client_step_reads _ _ _ _ Hs (si_reads _ Hsi)) as Hrs.
    apply client_step_held in Hs as [Eh Hmv]. unfold held in Eh. injection Eh as Ep _ _.
    eapply silent_hushed; [exact Hsi|by eapply client_moved_hushed|cbn [pc_server with_srv]; rewrite Ep; apply Hsi|done].
  - unfold loop_poll, poll in Hs. injection Hs as <- <-. destruct Hsi as [Hr Hms Hin Hrs]. split.
    + by constructor.
    + intros rd0 [= <-]. by split.
  - destruct (Hrd rd Hp) as [Hr0 Hms]. apply silent_insert; [done| |done]. split; [|done].
    pose proof (processReady_reads _ _ _ Hr0 Hs) as Er. apply processReady_core in Hs. unfold core in Hs.
    injection Hs as En Ep _ _. destruct Hsi as [Hr1 Hm1 Hin Hrs].
    constructor; cbn [pc_server]; [by rewrite En|by rewrite En|by rewrite Ep|by rewrite Er].
  - unfold loop_advance in Hs. unbind Hs. injection Hs as <-. split; [|done].
    eapply silent_hushed; [exact Hsi|by eapply advance_hushed|apply Hsi..].
  - by eapply relaunched_silent.
  - by eapply relaunched_silent.
  - destruct (Hrd rd Hp) as [_ Hms]. apply silent_insert; [done|by eapply relaunched_silent|].
    rewrite Forall_forall in *. set_solver.
Qed.

(** A read in mode [ReadIndex]: nothing without a book or away from the
    leader, and a wait on the leader. *)
Lemma readLevels_registers isBids s levels r s' :
  sv_readMode s = ReadIndex -> readLevels bookReader isBids s levels = Some (r, s') ->
  if negb (isLeader s) || bool_decide (bookReader = None) then r = inl [] /\ s' = s
  else r = inr (length (sv_reads s)) /\ length (sv_reads s') = Datatypes.S (length (sv_reads s)).
Proof.
  unfold readLevels. intros Hm Hs. destruct bookReader as [reader|];
    [rewrite bool_decide_eq_false_2, orb_false_r by done|rewrite bool_decide_eq_true_2, orb_true_r by done;
      by simplify_eq].
  rewrite Hm in Hs. destruct (negb (isLeader s)); [by simplify_eq|]. cbv zeta in Hs. unbind Hs.
  destruct p as [b n]. simplify_eq. simpl. by rewrite length_app, Nat.add_comm.
Qed.

(** C39. In read mode [ReadIndex] no read ever returns the book.  In every
    run of servers, of any number of members, with crashes and restarts: a
    read at a server that does not lead, or has no book, is answered with an
    empty list at once; a read at a leader waits, and a client that waits for
    a read waits as long as the server runs, since no heartbeat's reply says
    which read it confirms, so that the leader never learns that a majority
    has confirmed one. *)
Theorem readindex_reads_never_return F i p :
  fleet_reachable bookReader V F -> fl_procs F !! i = Some p ->
  (forall isBids levels r s', sv_readMode (pc_server p) = ReadIndex ->
     readLevels bookReader isBids (pc_server p) levels = Some (r, s') ->
     if negb (isLeader (pc_server p)) || bool_decide (bookReader = None) then r = inl []
     else exists q, r = inr q /\ (q < length (sv_reads s'))%nat)
  /\ (forall q, (q < length (sv_reads (pc_server p)))%nat -> sv_running (pc_server p) = true ->
        readLevels_result (pc_server p) (inr q) = None).
Proof.
  intros (F0 & [Hw Hini] & Hrun) Hi. split.
  { intros isBids levels r s' Hm Hs. pose proof (readLevels_registers _ _ _ _ _ Hm Hs) as Hc.
    destruct (negb _ || _); [by destruct Hc|]. destruct Hc as [-> Hl]. eexists. split; [done|lia]. }
  intros q Hq Hr.
  assert (silent F) as [_ Hall].
  { assert (silent F0) as H0s.
    { split; [by rewrite Hw|]. intros j pj Hj. destruct (Hini j pj Hj) as (_ & _ & f & sf & _ & _ & Hre).
      by eapply relaunched_silent. }
    clear Hi Hw Hini. induction Hrun as [|F1 F2 F3 Hs _ IH]; [done|]. by eapply IH, fleet_step_silent. }
  destruct (Hall i p Hi) as [[_ _ _ Hrs] _]. cbn [readLevels_result].
  apply lookup_lt_is_Some in Hq as [pd Hpd]. rewrite Hpd. cbn [mbind option_bind]. rewrite Forall_forall in Hrs.
  rewrite (Hrs pd) by (by eapply list_elem_of_lookup_2). by rewrite Hr.
Qed.
End ServerReads.

(** ** Three order books in this mode *)

#[local] Existing Instance sc_platform.
#[local] Existing Instance sc_draws.
#[local] Existing Instance sc_codec.

Definition lob_reader : BookReader (LOBStateMachine MapOrderBook) := mkBookReader _ lob_bids lob_asks.

Definition reading_proc (i : Z) : Process (LOBStateMachine MapOrderBook) :=
  mkProcess (Server.set_running true
    (new_Server (member_config i) ReadIndex (new_WriteAheadLog [] None None) (new_SnapshotFile None None)
       empty_book)) Idle.

Definition reading_fleet : Fleet (LOBStateMachine MapOrderBook) :=
  mkFleet (list_to_map ((fun i => (i, reading_proc i)) <$> members)) [].

(** Server 1 leads and is asked for the bids; its heartbeats reach server 2,
    whose reply comes back. *)
Definition ask_bids : list fleet_act :=
  [YTick 1; YTick 1; YTick 1] ++ turn 1 ++ hear 2 0 ++ hear 1 2 ++ [YRead 1 true 5] ++ turn 1
  ++ hear 2 5 ++ hear 1 7.

Definition asked : Fleet (LOBStateMachine MapOrderBook) :=
  default reading_fleet
    (run (fleet_exec (Some lob_reader) member_config ReadIndex empty_book (tt : @cc_state sc_codec)) reading_fleet ask_bids).

Lemma reading_initial : fleet_initial members reading_fleet.
Proof.
  split; [done|]. intros i p Hi. unfold reading_fleet in Hi. cbn [fl_procs] in Hi.
  apply elem_of_list_to_map_2 in Hi. unfold members in Hi. cbn [fmap list_fmap] in Hi. rewrite !elem_of_cons in Hi.
  destruct Hi as [?|[?|[?|Hi]]]; [..|by apply not_elem_of_nil in Hi]; simplify_eq;
    (split_and!; [set_solver|done|]; exists None, (new_SnapshotFile None None); split_and!; [done|done|];
     eexists (member_config _), ReadIndex, empty_book, _; by split_and!).
Qed.

Lemma readindex_reads_never_return_witness :
  let s := pc_server (default (reading_proc 1) (fl_procs asked !! 1)) in
  isLeader s = true /\ length (sv_reads s) = 1%nat
  /\ m_type <$> fl_wire asked !! 7%nat = Some MsgHeartbeatResp
  /\ readLevels_result s (inr 0%nat) = None.
Proof.
  split_and!; [vm_compute; reflexivity..|].
  refine (proj2 (readindex_reads_never_return (Some lob_reader) members asked 1
    (default (reading_proc 1) (fl_procs asked !! 1)) _ _) 0%nat _ _).
  - exists reading_fleet. split; [exact reading_initial|].
    apply (fleet_exec_run (Some lob_reader) members member_config ReadIndex empty_book (tt : @cc_state sc_codec) _ ask_bids);
      [by intros i|vm_compute; reflexivity].
  - vm_compute. reflexivity.
  - apply Nat.ltb_lt. vm_compute. reflexivity.
  - vm_compute. reflexivity.
Defined.
