(* ===== verification/ShardManager.v ===== *)
(** * The shard manager

    Models [src/app/server/ShardManager.{h,cpp}]: one raft group, write-ahead
    log and order book per symbol, each driven by a thread of its own.

    A shard's thread is the place it has reached in [shardLoop]; a step moves
    it to the next one.  [submit] is two definitions, what runs up to the wait
    and what is returned once the wait is over ([None] while it is not), and
    so is [stop].  Steps are atomic: [submit] calls the node without a lock
    that the loop's thread would take, so the model describes the executions
    in which they do not overlap.  An uncaught [std::runtime_error] of
    [submit] is a value; [None] is [std::terminate] or undefined behaviour. *)

From S2P Require Import Prelude Config IOrderBook StateMachine MapOrderBook LOBStateMachine.
From S2P Require Import RaftTypes LogUnstable WriteAheadLog SnapshotFile.
From S2P Require Import RaftLog Progress ReadOnly RawNode RaftActions RaftElection RaftLocal.

Record Pending := mkPending { pe_result : bytes; pe_done : bool }.

(** Where the thread of [shardLoop] is: at the loop's condition, after the
    tick, with a [Ready] to process, before [advance], or at its end. *)
Inductive LoopAt := AtWhile | AtReady | AtProcess (rd : Ready) | AtAdvance | AtEnd.

Definition joinable (t : option LoopAt) : bool := match t with Some _ => true | None => false end.
Definition finished (t : option LoopAt) : bool :=
  match t with None | Some AtEnd => true | _ => false end.

Record Shard := mkShard {
  sh_wal : WriteAheadLog;
  sh_snapFile : SnapshotFile;
  sh_fsm : LOBStateMachine MapOrderBook;
  sh_node : RawNode;
  sh_loopThread : option LoopAt;  (* [None]: not joinable *)
  sh_running : bool;
  sh_pendings : list Pending;     (* the objects, by allocation number *)
  sh_pending : gmap Z nat
}.

Record ShardManager := mkShardManager {
  sm_config : AppConfig;
  sm_electionTick : Z;
  sm_heartbeatTick : Z;
  sm_shards : gmap bytes Shard
}.

(** What the constructors of the log and the snapshot file find in a
    directory. *)
Record ShardFiles := mkShardFiles {
  df_log : bytes;
  df_hardstate : option bytes;
  df_confstate : option bytes;
  df_snapshot : option bytes;
  df_snapshot_tmp : option bytes
}.

(** The directories by path at one moment; [None] where there is no such
    directory, and [log.bin] cannot be opened.  Different paths may name one
    directory, and what is in it changes as the logs are written, so that
    each operation that opens files has the disk it finds as an argument.
    A log that is open reads its files no more. *)
Definition Disk : Type := bytes -> option ShardFiles.

Inductive Submitted := Throws | Returns (result : bytes) | Waits (p : nat).

(** [std::less<std::string>]: lexicographic on unsigned bytes. *)
Fixpoint string_leb (s t : bytes) : bool :=
  match s, t with
  | [], _ => true
  | _ :: _, [] => false
  | a :: s, b :: t => (a <? b) || ((a =? b) && string_leb s t)
  end.

Definition string_le (s t : bytes) : Prop := string_leb s t = true.

#[global] Instance string_le_dec : RelDecision string_le.
Proof. intros s t. unfold string_le. apply _. Defined.

#[global] Instance string_le_total : Total string_le.
Proof.
  unfold string_le. intros s. induction s as [|a s IH]; intros [|b t]; simpl; [by left|by left|by right|].
  destruct (Z.lt_trichotomy a b) as [Hlt|[->|Hlt]].
  - left. by rewrite (proj2 (Z.ltb_lt a b) Hlt).
  - rewrite !Z.eqb_refl, !Z.ltb_irrefl. apply IH.
  - right. by rewrite (proj2 (Z.ltb_lt b a) Hlt).
Qed.

#[global] Instance string_le_trans : Transitive string_le.
Proof.
  unfold string_le. intros s. induction s as [|a s IH]; intros [|b t] [|c u]; simpl; [done..|].
  rewrite !orb_true_iff, !andb_true_iff, !Z.ltb_lt, !Z.eqb_eq.
  intros [?|[-> Hs]] [?|[-> Ht]]; [left; lia..|]. right. split; [done|]. by apply (IH t).
Qed.

Section ShardManager.
Context `{!Platform} `{!Random}.

Implicit Types (s : Shard) (m : ShardManager) (sym : bytes).

(** ** Field updates *)

Definition set_node (n : RawNode) s : Shard :=
  mkShard (sh_wal s) (sh_snapFile s) (sh_fsm s) n (sh_loopThread s) (sh_running s) (sh_pendings s)
    (sh_pending s).
Definition set_thread (t : option LoopAt) (running : bool) s : Shard :=
  mkShard (sh_wal s) (sh_snapFile s) (sh_fsm s) (sh_node s) t running (sh_pendings s) (sh_pending s).
Definition set_fsm (fsm : LOBStateMachine MapOrderBook) s : Shard :=
  mkShard (sh_wal s) (sh_snapFile s) fsm (sh_node s) (sh_loopThread s) (sh_running s) (sh_pendings s)
    (sh_pending s).
Definition set_storage (w : WriteAheadLog) (sf : SnapshotFile) s : Shard :=
  mkShard w sf (sh_fsm s) (sh_node s) (sh_loopThread s) (sh_running s) (sh_pendings s) (sh_pending s).
Definition set_pending (ps : list Pending) (pending : gmap Z nat) s : Shard :=
  mkShard (sh_wal s) (sh_snapFile s) (sh_fsm s) (sh_node s) (sh_loopThread s) (sh_running s) ps pending.
Definition set_shards (shards : gmap bytes Shard) m : ShardManager :=
  mkShardManager (sm_config m) (sm_electionTick m) (sm_heartbeatTick m) shards.

(** ** Construction *)

Definition new_ShardManager (config : AppConfig) (electionTick heartbeatTick : Z) : ShardManager :=
  mkShardManager config electionTick heartbeatTick ∅.

(** [raft::Config rc], with the fields not assigned at their defaults. *)
Definition shard_config m : RawNode.Config :=
  let bc := toRaftConfig (sm_config m) in
  mkConfig (rc_id bc) 0 (sm_electionTick m) (sm_heartbeatTick m) (rc_maxSizePerMsg bc)
    (rc_maxInflightMsgs bc) (rc_peerIds bc) [] Safe.

Definition new_shard m sym (d : ShardFiles) : Shard :=
  let wal := new_WriteAheadLog (df_log d) (df_hardstate d) (df_confstate d) in
  mkShard wal (new_SnapshotFile (df_snapshot d) (df_snapshot_tmp d))
    (new_LOBStateMachine (new_MapOrderBook sym)) (new_RawNode (shard_config m) wal) None false [] ∅.

Definition shardDir m sym : bytes := ac_dataDir (sm_config m) ++ [47] ++ sym.

(** [None]: the constructor of the log throws, and no shard is added. *)
Definition createShard (disk : Disk) m sym : option ShardManager :=
  d ← disk (shardDir m sym); Some (set_shards (<[sym := new_shard m sym d]> (sm_shards m)) m).

(** ** start and stop *)

(** [loopThread = std::thread(...)] on a thread that is still joinable is
    [std::terminate]. *)
Definition start m : option ShardManager :=
  if bool_decide (map_Forall (fun _ s => joinable (sh_loopThread s) = false) (sm_shards m)) then
    Some (set_shards (set_thread (Some AtWhile) true <$> sm_shards m) m)
  else None.

Definition stop_request m : ShardManager :=
  set_shards ((fun s => set_thread (sh_loopThread s) false s) <$> sm_shards m) m.

(** Joining the threads: [None] while one of them still runs. *)
Definition stop_join m : option ShardManager :=
  if bool_decide (map_Forall (fun _ s => finished (sh_loopThread s) = true) (sm_shards m)) then
    Some (set_shards ((fun s => set_thread None (sh_running s) s) <$> sm_shards m) m)
  else None.

(** ** The loop *)

Definition wake (index : Z) (result : bytes) s : Shard :=
  match sh_pending s !! index with
  | None => s
  | Some p => set_pending (<[p := mkPending result true]> (sh_pendings s)) (delete index (sh_pending s)) s
  end.

Fixpoint apply_committed s (entries : list Entry) : option Shard :=
  match entries with
  | [] => Some s
  | e :: entries =>
      '(result, fsm) ← sm_apply (sh_fsm s) (e_data e);
      apply_committed (wake (e_index e) result (set_fsm fsm s)) entries
  end.

(** Nothing is done with [rd.messages] and [rd.readStates]. *)
Definition processReady s (rd : Ready) : option Shard :=
  let hs := rd_hardState rd in
  let saves := negb (hs_term hs =? 0) || negb (hs_commit hs =? 0) in
  let wal := match rd_entries rd with [] => sh_wal s | es => appendNoSync (sh_wal s) es end in
  let wal := if saves then saveHardState wal hs else wal in
  let wal := if negb (bool_decide (rd_entries rd = [])) || saves then sync wal else wal in
  let s := set_storage wal (sh_snapFile s) s in
  s ← match rd_snapshot rd with
      | None => Some s
      | Some snap =>
          fsm ← sm_restore (sh_fsm s) (s_data snap);
          let sf := save (sh_snapFile s) snap in
          wal ← applySnapshot (sh_wal s) snap;
          Some (set_storage wal sf (set_fsm fsm s))
      end;
  apply_committed s (rd_committedEntries rd).

(** One step of the thread; [None] when there is no thread left to run. *)
Definition shardLoop_step s : option Shard :=
  match sh_loopThread s with
  | Some AtWhile =>
      if sh_running s then
        '(_, n) ← tick (sh_wal s) (sh_node s);
        Some (set_thread (Some AtReady) (sh_running s) (set_node n s))
      else Some (set_thread (Some AtEnd) (sh_running s) s)
  | Some AtReady =>
      if hasReady (sh_node s) then
        let '(rd, n) := poll (sh_wal s) (sh_node s) in
        Some (set_thread (Some (AtProcess rd)) (sh_running s) (set_node n s))
      else Some (set_thread (Some AtWhile) (sh_running s) s)
  | Some (AtProcess rd) =>
      s' ← processReady s rd; Some (set_thread (Some AtAdvance) (sh_running s) s')
  | Some AtAdvance =>
      n ← advance (sh_wal s) (sh_node s);
      Some (set_thread (Some AtWhile) (sh_running s) (set_node n s))
  | Some AtEnd | None => None
  end.

(** ** Clients *)

(** [submit] on the shard it found, up to the wait. *)
Definition submit_shard s (cmd : bytes) : option (Submitted * Shard) :=
  if negb (bool_decide (n_role (sh_node s) = Leader)) then Some (Returns [], s) else
  '(ok, n) ← propose (sh_wal s) (sh_node s) cmd;
  let s := set_node n s in
  if negb ok then Some (Returns [], s) else
  let idx := lastIndex (sh_wal s) (n_log (sh_node s)) in
  let p := length (sh_pendings s) in
  Some (Waits p, set_pending (sh_pendings s ++ [mkPending [] false]) (<[idx := p]> (sh_pending s)) s).

Definition submit (disk : Disk) m sym (cmd : bytes) : option (Submitted * ShardManager) :=
  let found := match sm_shards m !! sym with Some _ => Some m | None => createShard disk m sym end in
  match found with
  | None => Some (Throws, m)
  | Some m =>
      s ← sm_shards m !! sym;
      '(r, s) ← submit_shard s cmd;
      Some (r, set_shards (<[sym := s]> (sm_shards m)) m)
  end.

(** What [submit] returns after the wait, [None] while it waits. *)
Definition submit_result m sym (p : nat) : option bytes :=
  s ← sm_shards m !! sym;
  pending ← sh_pendings s !! p;
  if pe_done pending then Some (pe_result pending)
  else if sh_running s then None else Some [].

Definition getFSM m sym : option (LOBStateMachine MapOrderBook) := sh_fsm <$> sm_shards m !! sym.

Definition symbols m : list bytes :=
  merge_sort string_le (fst <$> map_to_list (sm_shards m)).

Definition shardCount m : nat := size (sm_shards m).

Definition isLeader m : bool :=
  existsb (fun '(_, s) => bool_decide (n_role (sh_node s) = Leader)) (map_to_list (sm_shards m)).

(** ** Runs *)

(** What the threads of the process do, in any order. *)
Inductive manager_op :=
  | MStart | MStopRequest | MStopJoin
  | MSubmit (disk : Disk) (sym cmd : bytes)
  | MLoop (sym : bytes).

Definition manager_step m (o : manager_op) : option ShardManager :=
  match o with
  | MStart => start m
  | MStopRequest => Some (stop_request m)
  | MStopJoin => stop_join m
  | MSubmit disk sym cmd => snd <$> submit disk m sym cmd
  | MLoop sym =>
      s ← sm_shards m !! sym;
      s ← shardLoop_step s;
      Some (set_shards (<[sym := s]> (sm_shards m)) m)
  end.

Lemma symbols_sorted m :
  StronglySorted string_le (symbols m)
  /\ (forall sym, sym ∈ symbols m <-> is_Some (sm_shards m !! sym)) /\ length (symbols m) = shardCount m.
Proof.
  unfold symbols. split; [apply StronglySorted_merge_sort; apply _|]. split.
  - intros sym. rewrite merge_sort_Permutation, list_elem_of_fmap. split.
    + intros ([k s] & -> & Hin). apply elem_of_map_to_list in Hin. by eexists.
    + intros [s Hs]. exists (sym, s). by rewrite elem_of_map_to_list.
  - rewrite merge_sort_Permutation, length_fmap. apply length_map_to_list.
Qed.

(** ** Nothing is ever executed *)

(** A shard that has committed nothing and answered nobody. *)
Record shard_idle sym s : Prop := {
  si_marks : marks (sh_node s) = (0, 0);
  si_fsm : sh_fsm s = new_LOBStateMachine (new_MapOrderBook sym);
  si_pendings : Forall (fun p => p = mkPending [] false) (sh_pendings s);
  si_thread rd : sh_loopThread s = Some (AtProcess rd) ->
    rd_committedEntries rd = [] /\ rd_snapshot rd = None
}.

(** The log starts at its snapshot, and that is never recovered from disk. *)
Lemma new_shard_idle m sym d : shard_idle sym (new_shard m sym d).
Proof. by split. Qed.

Lemma set_thread_idle sym s t r :
  shard_idle sym s ->
  (forall rd, t = Some (AtProcess rd) -> rd_committedEntries rd = [] /\ rd_snapshot rd = None) ->
  shard_idle sym (set_thread t r s).
Proof. intros [] Ht. by split. Qed.

Lemma set_node_idle sym s n : shard_idle sym s -> marks n = (0, 0) -> shard_idle sym (set_node n s).
Proof. intros [] Hm. by split. Qed.

Lemma processReady_idle sym s rd s' :
  shard_idle sym s -> rd_committedEntries rd = [] -> rd_snapshot rd = None ->
  processReady s rd = Some s' -> shard_idle sym s'.
Proof.
  intros [] Ec Es. unfold processReady. rewrite Ec, Es. cbn [mbind option_bind apply_committed].
  intros [= <-]. by split.
Qed.

Lemma shardLoop_step_idle sym s s' :
  shard_idle sym s -> shardLoop_step s = Some s' -> shard_idle sym s'.
Proof.
  intros Hi Hs. pose proof (si_marks _ _ Hi) as Hm. unfold shardLoop_step in Hs.
  destruct (sh_loopThread s) as [[]|] eqn:Et; [| | | |done..].
  - destruct (sh_running s); [|by simplify_eq; apply set_thread_idle].
    unbind Hs. destruct p as [b n]. simplify_eq. apply set_thread_idle; [|done].
    apply set_node_idle; [done|]. by rewrite (tick_marks _ _ _ _ E).
  - destruct (hasReady _); [|by simplify_eq; apply set_thread_idle].
    destruct (poll_idle (sh_wal s) (sh_node s) Hm) as [Hc Hn].
    pose proof (local_step_idle (sh_wal s) (sh_node s) LPoll _ eq_refl Hm) as Hm'.
    destruct (poll _ _) as [rd n]. simplify_eq.
    apply set_thread_idle; [by apply set_node_idle|]. by intros ? [= <-].
  - destruct (si_thread _ _ Hi _ Et) as [Hc Hn]. unbind Hs. simplify_eq.
    apply set_thread_idle; [|done]. by eapply processReady_idle.
  - unbind Hs. simplify_eq. apply set_thread_idle; [|done]. apply set_node_idle; [done|].
    by apply (local_step_idle (sh_wal s) (sh_node s) LAdvance).
Qed.

Lemma submit_shard_idle sym s cmd r s' :
  shard_idle sym s -> submit_shard s cmd = Some (r, s') ->
  shard_idle sym s' /\ (forall b, r = Returns b -> b = []).
Proof.
  intros Hi Hs. unfold submit_shard in Hs. destruct (negb _); [by simplify_eq; split; [|intros ? [=]]|].
  unbind Hs. destruct p as [ok n]. apply (set_node_idle _ _ n) in Hi;
    [|by rewrite (propose_marks _ _ _ _ _ E); apply (si_marks _ _ Hi)].
  destruct (negb ok); simplify_eq; [by split; [|intros ? [=]]|].
  split; [|by intros ? [=]]. destruct Hi. split; [done|done| |done].
  simpl. apply Forall_app. by split; [|repeat constructor].
Qed.

Definition all_idle m : Prop := map_Forall shard_idle (sm_shards m).

Lemma createShard_idle disk m sym m' : all_idle m -> createShard disk m sym = Some m' -> all_idle m'.
Proof.
  intros Hi Hs. unfold createShard in Hs. unbind Hs. simplify_eq.
  apply map_Forall_insert_2; [apply new_shard_idle|done].
Qed.

Lemma submit_idle disk m sym cmd r m' :
  all_idle m -> submit disk m sym cmd = Some (r, m') ->
  all_idle m' /\ (forall b, r = Returns b -> b = []).
Proof.
  intros Hi Hs. unfold submit in Hs. cbn zeta in Hs.
  assert (forall m1, match sm_shards m !! sym with Some _ => Some m | None => createShard disk m sym end = Some m1 ->
            all_idle m1) as Hf.
  { destruct (sm_shards m !! sym); intros m1 E; [by simplify_eq|by eapply createShard_idle]. }
  destruct (match sm_shards m !! sym with Some _ => _ | None => _ end) as [m1|];
    [|simplify_eq; by split; [|intros ? [=]]].
  specialize (Hf m1 eq_refl). unbind Hs. destruct p as [r1 s1]. simplify_eq.
  destruct (submit_shard_idle sym _ _ _ _ (Hf _ _ E) E0). split; [|done].
  by apply map_Forall_insert_2.
Qed.

Lemma manager_step_idle m o m' : all_idle m -> manager_step m o = Some m' -> all_idle m'.
Proof.
  intros Hi. destruct o as [| | |disk sym cmd|sym]; simpl.
  - unfold start. case_bool_decide; [|done]. intros [= <-]. intros sym s.
    cbn. rewrite lookup_fmap_Some. intros (s0 & <- & Hs). by apply set_thread_idle; [apply Hi|].
  - intros [= <-]. intros sym s. cbn. rewrite lookup_fmap_Some. intros (s0 & <- & Hs).
    apply set_thread_idle; [by apply Hi|]. by apply (si_thread sym), Hi.
  - unfold stop_join. case_bool_decide; [|done]. intros [= <-]. intros sym s.
    cbn. rewrite lookup_fmap_Some. intros (s0 & <- & Hs). by apply set_thread_idle; [apply Hi|].
  - intros Hs. apply fmap_Some in Hs as ([r m1] & Hs & ->). by apply submit_idle in Hs as [? _].
  - intros Hs. unbind Hs. simplify_eq. apply map_Forall_insert_2; [|done].
    by eapply shardLoop_step_idle; [apply Hi|].
Qed.

(** C40. A sharded exchange executes nothing.  In every run of a shard manager,
    whatever the files its shards start from, whoever submits what and
    however the threads are scheduled: no order book ever changes, no
    submission returns anything but the empty reply, and one that waits
    returns only when the manager is stopped.  A shard discards the messages
    its node wants sent, and a node does not commit by itself. *)
Theorem shards_never_execute config electionTick heartbeatTick ops m sym :
  run manager_step (new_ShardManager config electionTick heartbeatTick) ops = Some m ->
  (forall fsm, getFSM m sym = Some fsm -> fsm = new_LOBStateMachine (new_MapOrderBook sym))
  /\ (forall disk cmd r m', submit disk m sym cmd = Some (Returns r, m') -> r = [])
  /\ (forall p r, submit_result m sym p = Some r -> r = [] /\ sh_running <$> sm_shards m !! sym = Some false).
Proof.
  intros Hr. assert (all_idle m) as Hi.
  { refine (run_invariant manager_step all_idle manager_step_idle ops _ _ _ Hr). apply map_Forall_empty. }
  split_and!.
  - unfold getFSM. intros fsm Hf. apply fmap_Some in Hf as (s & Hs & ->). apply (si_fsm _ _ (Hi _ _ Hs)).
  - intros disk cmd r m' Hs. by apply (submit_idle disk m sym cmd (Returns r) m' Hi Hs).
  - unfold submit_result. intros p r Hs. destruct (sm_shards m !! sym) as [s|] eqn:Es; [|done].
    cbn [mbind option_bind] in Hs. destruct (sh_pendings s !! p) as [pe|] eqn:Ep; [|done].
    pose proof (proj1 (Forall_lookup _ _) (si_pendings _ _ (Hi _ _ Es)) p pe Ep) as ->.
    cbn in Hs. simpl. destruct (sh_running s); [done|]. by simplify_eq.
Qed.

End ShardManager.

(** ** Instances at concrete values *)

#[local] Instance shard_platform : Platform := {|
  sizeof_Entry := 48; sizeof_Entry_pos := conj eq_refl eq_refl |}.
#[local] Instance shard_draws : Random := {|
  draw k a b := a; draw_range k a b Hab := conj (Z.le_refl a) Hab |}.

(** A cluster of one, with an empty directory for the symbols A and G. *)
Definition demo_disk : Disk := fun dir =>
  if bool_decide (dir = [47; 65] \/ dir = [47; 71]) then Some (mkShardFiles [] None None None None) else None.

Definition demo_manager : ShardManager :=
  new_ShardManager (mkAppConfig 1 [] [mkPeerInfo 1 [] 9999 8000] 10 1 (2 ^ 20) 256) 2 1.

(** A first submission makes the shard of A, whose node then elects itself;
    the next submission waits, and more rounds of the loop do not help. *)
Definition demo_run : list manager_op :=
  [MSubmit demo_disk [65] [1]; MStart] ++ replicate 12 (MLoop [65])
  ++ [MSubmit demo_disk [65] [2]] ++ replicate 12 (MLoop [65]) ++ [MSubmit demo_disk [71] [3]].

Definition after_run : ShardManager :=
  default demo_manager (run manager_step demo_manager demo_run).

Lemma shards_never_execute_witness :
  run manager_step demo_manager demo_run = Some after_run
  /\ isLeader after_run = true
  /\ submit_result after_run [65] 0 = None
  /\ (forall p r, submit_result after_run [65] p = Some r -> r = []).
Proof.
  assert (run manager_step demo_manager demo_run = Some after_run) as Hr
    by (vm_compute; reflexivity).
  split; [exact Hr|]. split; [vm_compute; reflexivity|]. split; [vm_compute; reflexivity|].
  intros p r Hs. apply (shards_never_execute _ _ _ demo_run after_run [65] Hr) in Hs.
  exact (proj1 Hs).
Defined.

(** A shard made after [start] has no thread, and starting again ends the
    process while another shard's thread exists. *)
Example late_shard_cannot_start :
  sh_loopThread <$> sm_shards after_run !! [71] = Some None /\ start after_run = None.
Proof. split; vm_compute; reflexivity. Qed.

(** Without a directory for the symbol, which nothing creates, [submit]
    throws. *)
Example missing_directory_throws :
  submit demo_disk demo_manager [77] [1] = Some (Throws, demo_manager).
Proof. vm_compute. reflexivity. Qed.
