(* ===== verification/Shutdown.v ===== *)
(** * The threads of the server

    Models the threads [Server::start] launches and the calls of
    [Server::stop] in [src/app/server/Server.cpp]: the loop thread, the
    listening threads of the transport and of the two client servers, and
    the joins, each of which blocks until its thread has ended.  What the
    threads do to the rest of the server is [Server]'s; here a step of theirs
    is a round of the loop, an event of a listener, or any change the other
    threads make to the server without touching [running_].

    A call of [stop] is a place it has reached; [None] is a step that cannot
    be taken, a join that blocks among them.  A second call while one is under
    way would join the same threads twice, which is undefined: it is not
    modelled. *)

From S2P Require Import Prelude IOrderBook StateMachine KVStateMachine CommandCodec Acceptor.
From S2P Require Import RaftTypes LogUnstable WriteAheadLog SnapshotFile.
From S2P Require Import RaftLog Progress ReadOnly RawNode RaftActions Server ServerTheorems.

(** [loopThread_]: not joinable, in [raftLoop], or at its end. *)
Inductive LoopThread := LNone | LLoop | LEnded.

Inductive Listener := Orders | Transport | Clients.

#[global] Instance Listener_eq_dec : EqDecision Listener.
Proof. solve_decision. Defined.

(** The join at which a call of [stop] is. *)
Inductive StopAt := JoinLoop | JoinListener (l : Listener).

Section Shutdown.
Context {S : Type} `{!StateMachine S} `{!Platform} `{!Random} `{!CommandCodec}.
Context (bookReader : option (BookReader S)).

Record App := mkApp {
  ap_server : Server S;
  ap_loop : LoopThread;
  ap_orders : option Acceptor;    (* [orderServer_], if injected *)
  ap_transport : Acceptor;
  ap_clients : Acceptor;
  ap_stop : option StopAt         (* a call of [stop] under way *)
}.
Implicit Types (a : App) (l : Listener).

Definition set_server (s : Server S) a : App :=
  mkApp s (ap_loop a) (ap_orders a) (ap_transport a) (ap_clients a) (ap_stop a).
Definition set_loop (t : LoopThread) a : App :=
  mkApp (ap_server a) t (ap_orders a) (ap_transport a) (ap_clients a) (ap_stop a).
Definition set_stop (p : option StopAt) a : App :=
  mkApp (ap_server a) (ap_loop a) (ap_orders a) (ap_transport a) (ap_clients a) p.

Definition listener l a : option Acceptor :=
  match l with Orders => ap_orders a | Transport => Some (ap_transport a) | Clients => Some (ap_clients a) end.
Definition set_listener l (x : Acceptor) a : App :=
  match l with
  | Orders => mkApp (ap_server a) (ap_loop a) (Some x) (ap_transport a) (ap_clients a) (ap_stop a)
  | Transport => mkApp (ap_server a) (ap_loop a) (ap_orders a) x (ap_clients a) (ap_stop a)
  | Clients => mkApp (ap_server a) (ap_loop a) (ap_orders a) (ap_transport a) x (ap_stop a)
  end.

(** [Server::start]: the transport, the client server, the order server if
    there is one, then the loop. *)
Definition launch (orders : bool) (s : Server S) : option App :=
  s ← Server.start s;
  transport ← TransportListener.start new_Acceptor;
  clients ← ClientListener.start new_Acceptor;
  orders ← (if orders then Some <$> OrderListener.start new_Acceptor else Some None);
  Some (mkApp s LLoop orders transport clients None).

(** ** stop *)

(** Up to the first join: [running_ = false], and everybody who waits on a
    condition variable is woken. *)
Definition stop_request a : App := set_stop (Some JoinLoop) (set_server (set_running false (ap_server a)) a).

(** The stop of a listener, up to its join.  Behind its join the transport
    closes its connections, [RaftTransport.stop]. *)
Definition stop_listener l a : option App :=
  x ← listener l a; Some (set_stop (Some (JoinListener l)) (set_listener l (Acceptor.stop_request x) a)).

(** What follows a join.  The order server is stopped if there is one. *)
Definition after_join (p : StopAt) a : option App :=
  match p with
  | JoinLoop => match ap_orders a with Some _ => stop_listener Orders a | None => stop_listener Transport a end
  | JoinListener Orders => stop_listener Transport a
  | JoinListener Transport => stop_listener Clients a
  | JoinListener Clients => Some (set_stop None a)
  end.

(** One join and what follows it, up to the next join. *)
Definition stop_step a : option App :=
  p ← ap_stop a;
  match p with
  | JoinLoop =>
      match ap_loop a with
      | LLoop => None
      | LNone | LEnded => after_join p (set_loop LNone a)
      end
  | JoinListener l => x ← listener l a; x ← stop_join x; after_join p (set_listener l x a)
  end.

(** ** Steps of the threads *)

Inductive app_event :=
| ALoop                                    (* the loop thread, at [while (running_)] *)
| AListen (l : Listener) (e : accept_event)
| AThreads (s : Server S)                  (* clients and the transport's receivers *)
| AStop.                                   (* the call of [stop] goes on *)

Definition app_step a (e : app_event) : option App :=
  match e with
  | ALoop =>
      match ap_loop a with
      | LLoop =>
          if sv_running (ap_server a) then s ← raftLoop_round bookReader (ap_server a); Some (set_server s a)
          else Some (set_loop LEnded a)
      | _ => None
      end
  | AListen l e =>
      x ← listener l a;
      x ← match l with
          | Orders => OrderListener.acceptLoop x e
          | Transport => TransportListener.acceptLoop x e
          | Clients => ClientListener.acceptLoop x e
          end;
      Some (set_listener l x a)
  | AThreads s => Some (set_server (set_running (sv_running (ap_server a)) s) a)
  | AStop => stop_step a
  end.

(** ** What a call of [stop] leaves behind *)

(** The joins in their order. *)
Definition rank (p : StopAt) : nat :=
  match p with JoinLoop => 0 | JoinListener Orders => 1 | JoinListener Transport => 2 | JoinListener Clients => 3 end.

(** The joins made before a place: all of them where [stop] has returned. *)
Definition made (p : option StopAt) (q : StopAt) : Prop :=
  match p with Some p => (rank q < rank p)%nat | None => True end.

Definition joins_done (P : StopAt -> Prop) a : Prop :=
  (P JoinLoop -> ap_loop a = LNone)
  /\ forall l x, P (JoinListener l) -> listener l a = Some x -> ac_acceptThread x = None.

(** While the server runs, no call is under way; once it has been stopped,
    every join the call has passed has joined its thread. *)
Definition joined a : Prop :=
  if sv_running (ap_server a) then ap_stop a = None else joins_done (made (ap_stop a)) a.

Lemma listener_set l l' x a :
  listener l' (set_listener l x a) = if decide (l = l') then Some x else listener l' a.
Proof. by destruct l, l'. Qed.

Lemma set_listener_keeps l x a :
  ap_server (set_listener l x a) = ap_server a /\ ap_loop (set_listener l x a) = ap_loop a
  /\ ap_stop (set_listener l x a) = ap_stop a.
Proof. by destruct l. Qed.

Lemma raftLoop_round_running s s' :
  raftLoop_round bookReader s = Some s' -> sv_running s' = sv_running s.
Proof.
  unfold raftLoop_round, loop_tick, loop_drain, loop_poll, loop_advance. intros Hs. unbind Hs. unbind E.
  destruct p as [b n]. simplify_eq. unbind E0. simplify_eq. destruct (hasReady _); [|by simplify_eq].
  destruct (poll _ _) as [rd n2] eqn:Ep. unbind Hs. simplify_eq.
  rewrite processReady_eq in E0 by (by unfold poll in Ep; simplify_eq). unbind E0.
  apply applyCommittedEntries_same in E3 as (_ & _ & _ & _ & _ & Hr & _).
  apply handleReadStates_same in E0 as (_ & _ & _ & _ & _ & Hr2). cbn. by rewrite Hr2, Hr.
Qed.

Lemma stop_join_joins x x' : stop_join x = Some x' -> ac_acceptThread x' = None.
Proof. unfold stop_join. intros Hs. destruct (ac_acceptThread x) as [[]|] eqn:E; by simplify_eq/=. Qed.

Lemma after_join_joined p a a' :
  sv_running (ap_server a) = false -> joins_done (fun q => (rank q <= rank p)%nat) a ->
  after_join p a = Some a' -> joined a'.
Proof.
  intros Hr [Hl Hx] Hs. unfold joined, joins_done.
  assert (forall l, (rank p < rank (JoinListener l))%nat ->
    (forall l', (rank p < rank (JoinListener l'))%nat -> (rank (JoinListener l') < rank (JoinListener l))%nat ->
       listener l' a = None) ->
    stop_listener l a = Some a' -> joined a') as Hnext.
  { intros l Hlt Hgap Hs'. unfold stop_listener in Hs'. unbind Hs'. simplify_eq.
    unfold joined, joins_done, set_stop. simpl. destruct (set_listener_keeps l (Acceptor.stop_request a0) a) as (-> & -> & _).
    rewrite Hr. split; [intros _; apply Hl; simpl; lia|]. intros l' x Hm El.
    change (listener l' _ = Some x) with (listener l' (set_listener l (Acceptor.stop_request a0) a) = Some x) in El.
    rewrite listener_set in El. case_decide as Hd; [subst; lia|].
    destruct (decide (rank (JoinListener l') <= rank p)%nat) as [Hp|Hp]; [by eapply Hx|].
    rewrite Hgap in El; [done|lia|done]. }
  destruct p as [|[]]; cbn [after_join] in Hs.
  - destruct (ap_orders a) eqn:Eo; (eapply Hnext; [| |exact Hs]; [simpl; lia|]);
      intros []; simpl; try lia. by intros.
  - eapply Hnext; [| |exact Hs]; [simpl; lia|]. intros []; simpl; lia.
  - eapply Hnext; [| |exact Hs]; [simpl; lia|]. intros []; simpl; lia.
  - simplify_eq. simpl. rewrite Hr. split; [intros _; apply Hl; simpl; lia|].
    intros l x _ El. apply (Hx l x); [destruct l; simpl; lia|done].
Qed.

Lemma stop_request_joined a : joined (stop_request a).
Proof. unfold joined, joins_done. simpl. split; [lia|]. intros l x Hm. lia. Qed.

Lemma app_step_joined a e a' : joined a -> app_step a e = Some a' -> joined a'.
Proof.
  intros Hj Hs. unfold joined, joins_done in Hj |- *. destruct e as [|l e|s|]; cbn [app_step] in Hs.
  - destruct (ap_loop a) eqn:El; [done| |done]. destruct (sv_running (ap_server a)) eqn:Er.
    + unbind Hs. simplify_eq. simpl. by rewrite (raftLoop_round_running _ _ E), Er.
    + simplify_eq. simpl. rewrite Er. destruct Hj as [Hl Hx]. split; [|done]. intros Hm. by specialize (Hl Hm).
  - destruct (listener l a) as [x|] eqn:El; [|done]. cbn [mbind option_bind] in Hs.
    assert (forall x', acceptLoop_step (bool_decide (l = Transport)) x e = Some x' -> ac_acceptThread x <> None) as Hth.
    { intros x' Hx' Hn. unfold acceptLoop_step in Hx'. by rewrite Hn in Hx'. }
    destruct (match l with Orders => _ | Transport => _ | Clients => _ end) as [x'|] eqn:Ex; [|done].
    assert (ac_acceptThread x <> None) as Hne by (by destruct l; eapply Hth, Ex).
    simplify_eq/=. destruct (set_listener_keeps l x' a) as (-> & -> & ->).
    destruct (sv_running (ap_server a)); [done|]. destruct Hj as [Hl Hx]. split; [done|].
    intros l' y Hm Ey. rewrite listener_set in Ey. case_decide as Hd; [subst l'|by eapply Hx].
    destruct Hne. by eapply Hx.
  - simplify_eq. simpl. done.
  - unfold stop_step in Hs. destruct (ap_stop a) as [p|] eqn:Ep; [|done]. cbn [mbind option_bind] in Hs.
    destruct (sv_running (ap_server a)) eqn:Er; [done|]. destruct Hj as [Hl Hx]. destruct p as [|l].
    + destruct (ap_loop a); [|done|]; (eapply after_join_joined; [| |exact Hs]; [done|];
        split; [done|]; intros []; simpl; lia).
    + destruct (listener l a) as [x|] eqn:Elx; [|done]. cbn [mbind option_bind] in Hs. unbind Hs.
      destruct (set_listener_keeps l a0 a) as (Es & Elo & _).
      eapply after_join_joined; [| |exact Hs]; [by rewrite Es|]. split.
      * intros _. rewrite Elo. apply Hl. destruct l; simpl; lia.
      * intros l' y Hle Ey. rewrite listener_set in Ey. case_decide as Hd.
        -- simplify_eq. by eapply stop_join_joins.
        -- apply (Hx l' y); [|done]. simpl. destruct l, l'; simpl in *; try done; lia.
Qed.

Lemma launch_joined orders s a : launch orders s = Some a -> joined a.
Proof.
  unfold launch, Server.start. intros Hs. unbind Hs. simplify_eq. unbind E. simplify_eq. done.
Qed.
End Shutdown.
Arguments App : clear implicits.
