(* ===== verification/Main.v ===== *)
(** * The command line

    Models [src/app/main.cpp]: the parsing of the arguments, the choice of
    the components, and the loop that reports the role of the server until
    the process ends, with the signal handler, which runs [Server::stop] of
    [Shutdown] on the thread it interrupts.  An exception of [std::stoull] or [std::stoul] is
    outside the [try] block of [main] and ends the process; one of the server's
    constructor or of [start] makes [main] return 1. *)

From stdpp Require Import strings.
From S2P Require Import Prelude StdString Config IOrderBook StateMachine MapOrderBook SkipListOrderBook.
From S2P Require Import LOBStateMachine KVStateMachine CommandCodec.
From S2P Require Import RaftTypes LogUnstable WriteAheadLog SnapshotFile.
From S2P Require Import RaftLog Progress ReadOnly RawNode RaftActions Server Acceptor Shutdown.

Record Options := mkOptions {
  op_cfg : AppConfig;
  op_mode : bytes;
  op_readMode : ReadMode;
  op_orderPort : Z
}.

Inductive Parsed :=
  | Usage | BadPeer (arg : bytes) | NotInPeers (id : Z)  (* return 1 *)
  | Uncaught                                             (* std::terminate *)
  | Accepted (o : Options).

(** [static_cast<uint16_t>] *)
Definition u16 (z : Z) : Z := z mod 2 ^ 16.

Definition set_cfg (c : AppConfig) (o : Options) : Options :=
  mkOptions c (op_mode o) (op_readMode o) (op_orderPort o).
Definition add_peer (p : PeerInfo) (c : AppConfig) : AppConfig :=
  mkAppConfig (ac_selfId c) (ac_dataDir c) (ac_peers c ++ [p]) (ac_electionTick c)
    (ac_heartbeatTick c) (ac_maxSizePerMsg c) (ac_maxInflightMsgs c).
Definition set_electionTick (t : Z) (c : AppConfig) : AppConfig :=
  mkAppConfig (ac_selfId c) (ac_dataDir c) (ac_peers c) t (ac_heartbeatTick c) (ac_maxSizePerMsg c)
    (ac_maxInflightMsgs c).

Definition read_mode (rm : bytes) : ReadMode :=
  if bool_decide (rm = ascii_bytes "readindex") then ReadIndex
  else if bool_decide (rm = ascii_bytes "lease") then LeaseBasedRead
  else Direct.

(** [host:raftPort:clientPort], split at the first two colons. *)
Definition parse_peer (arg : bytes) (c : AppConfig) : Parsed + AppConfig :=
  match find_byte 58 arg with
  | None => inl (BadPeer arg)
  | Some p1 =>
      let rest := drop (S p1) arg in
      match find_byte 58 rest with
      | None => inl (BadPeer arg)
      | Some p2 =>
          match stoul (take p2 rest), stoul (drop (S p2) rest) with
          | Some raftPort, Some clientPort =>
              inr (add_peer (mkPeerInfo (u64 (Z.of_nat (length (ac_peers c)) + 1)) (take p1 arg)
                               (u16 raftPort) (u16 clientPort)) c)
          | _, _ => inl Uncaught
          end
      end
  end.

(** The loop over [argv] from [argv[3]]; an option that is the last argument
    is read as a peer. *)
Fixpoint parse_args (args : list bytes) (o : Options) : Parsed + Options :=
  match args with
  | [] => inr o
  | arg :: args =>
      let peer :=
        match parse_peer arg (op_cfg o) with
        | inl e => inl e
        | inr c => parse_args args (set_cfg c o)
        end in
      match args with
      | [] => peer
      | v :: rest =>
          if bool_decide (arg = ascii_bytes "--mode") then
            parse_args rest (mkOptions (op_cfg o) v (op_readMode o) (op_orderPort o))
          else if bool_decide (arg = ascii_bytes "--readmode") then
            parse_args rest (mkOptions (op_cfg o) (op_mode o) (read_mode v) (op_orderPort o))
          else if bool_decide (arg = ascii_bytes "--orderport") then
            match stoul v with
            | None => inl Uncaught
            | Some p => parse_args rest (mkOptions (op_cfg o) (op_mode o) (op_readMode o) (u16 p))
            end
          else if bool_decide (arg = ascii_bytes "--electionTick") then
            match stoul v with
            | None => inl Uncaught
            | Some t => parse_args rest (set_cfg (set_electionTick (u32 t) (op_cfg o)) o)
            end
          else peer
      end
  end.

Definition default_options (id : Z) (dir : bytes) : Options :=
  mkOptions (new_AppConfig id dir) (ascii_bytes "kv") Direct 0.

(** [main] on the arguments after [argv[0]]. *)
Definition parse_main (argv : list bytes) : Parsed :=
  match argv with
  | id :: dir :: arg :: args =>
      match stoull id with
      | None => Uncaught
      | Some id =>
          match parse_args (arg :: args) (default_options id dir) with
          | inl e => e
          | inr o =>
              if existsb (fun p => pi_id p =? ac_selfId (op_cfg o)) (ac_peers (op_cfg o)) then Accepted o
              else NotInPeers (ac_selfId (op_cfg o))
          end
      end
  | _ => Usage
  end.

(** ** The components *)

Inductive Engine := KVEngine | MapEngine | SkipListEngine.

Definition engine (o : Options) : Engine :=
  if bool_decide (op_mode o = ascii_bytes "skiplob") then SkipListEngine
  else if bool_decide (op_mode o = ascii_bytes "lob") then MapEngine
  else KVEngine.

(** The port of the order server, where one is made. *)
Definition order_server (o : Options) : option Z :=
  match engine o with
  | KVEngine => None
  | _ => if 0 <? op_orderPort o then Some (op_orderPort o) else None
  end.

(** [app::Server server(cfg, ...)], on the files found in [dataDir]. *)
Definition boot {S : Type} `{!StateMachine S} `{!Platform} `{!Random} (o : Options) (wal : WriteAheadLog)
    (sf : SnapshotFile) (fsm : S) : Server S :=
  let bc := toRaftConfig (op_cfg o) in
  new_Server (mkConfig (rc_id bc) 0 (rc_electionTick bc) (rc_heartbeatTick bc) (rc_maxSizePerMsg bc)
                (rc_maxInflightMsgs bc) (rc_peerIds bc) [] Safe)
    (op_readMode o) wal sf fsm.

(** ** Waiting for the end *)

(** The threads a signal may be delivered to. *)
Inductive Thread := OnMain | OnLoop | OnListener (l : Listener) | OnOther.

#[global] Instance Thread_eq_dec : EqDecision Thread.
Proof. solve_decision. Defined.

Section MainLoop.
Context {S : Type} `{!StateMachine S} `{!Platform} `{!Random} `{!CommandCodec}.
Context (bookReader : option (BookReader S)).

(** [g_server], the threads, the thread on which the handler is, the static
    [lastRole], and the roles reported so far. *)
Record MainState := mkMain {
  mn_g_server : bool;  (* not null *)
  mn_app : App S;
  mn_handler : option Thread;
  mn_lastRole : Role;
  mn_reports : list Role
}.

(** What becomes of the process: it runs, [main] returns, or
    [std::terminate]. *)
Inductive Outcome := Runs (m : MainState) | Returned (code : Z) | Terminated.

Definition set_app (a : App S) (handler : option Thread) (m : MainState) : MainState :=
  mkMain (mn_g_server m) a handler (mn_lastRole m) (mn_reports m).

(** [main] from the [try] on, given what the constructor and [start] left;
    [None] when one of them threw. *)
Definition main_enter (started : option (App S)) : Outcome :=
  match started with
  | Some a => Runs (mkMain true a None Follower [])
  | None => Returned 1
  end.

(** The handler up to the first join of [stop], on a thread that exists. *)
Definition signalHandler (t : Thread) (m : MainState) : option Outcome :=
  if negb (mn_g_server m) then Some (Runs m) else
  match ap_stop (mn_app m) with
  | Some _ => None
  | None =>
      let here := match t with
                  | OnMain | OnOther => true
                  | OnLoop => match ap_loop (mn_app m) with LLoop => true | _ => false end
                  | OnListener l => bool_decide (is_Some (listener l (mn_app m) ≫= ac_acceptThread))
                  end in
      if here then Some (Runs (set_app (stop_request (mn_app m)) (Some t) m)) else None
  end.

(** The thread a join waits for. *)
Definition joins (p : StopAt) : Thread :=
  match p with JoinLoop => OnLoop | JoinListener l => OnListener l end.

(** The handler goes on: a thread that joins itself throws, inside the
    handler. *)
Definition handler_step (m : MainState) : option Outcome :=
  p ← ap_stop (mn_app m);
  if bool_decide (mn_handler m = Some (joins p)) then Some Terminated else
  a ← stop_step (mn_app m);
  Some (Runs (set_app a (match ap_stop a with Some _ => mn_handler m | None => None end) m)).

(** One round of [while (g_server)]. *)
Definition main_round (m : MainState) : Outcome :=
  if negb (mn_g_server m) then Returned 0 else
  let r := if isLeader (ap_server (mn_app m)) then Leader else Follower in
  Runs (if bool_decide (r = mn_lastRole m) then m
        else mkMain (mn_g_server m) (mn_app m) (mn_handler m) r (mn_reports m ++ [r])).

(** What happens to the process: the loop of [main] wakes up, an interrupt
    comes, the handler goes on, a thread makes a step, or throws an exception
    that nothing catches. *)
Inductive main_event :=
| MWake | MInterrupt (t : Thread) | MHandler | MThread (e : app_event (S := S)) | MThrow.

(** The thread a step needs. *)
Definition runs_on (e : app_event (S := S)) : Thread :=
  match e with ALoop => OnLoop | AListen l _ => OnListener l | AThreads _ | AStop => OnOther end.

(** A thread on which the handler runs does nothing else. *)
Definition main_step (o : Outcome) (e : main_event) : option Outcome :=
  match o with
  | Returned _ | Terminated => None
  | Runs m =>
      match e with
      | MWake => if bool_decide (mn_handler m = Some OnMain) then None else Some (main_round m)
      | MInterrupt t => signalHandler t m
      | MHandler => handler_step m
      | MThread AStop => None
      | MThread e =>
          if bool_decide (mn_handler m = Some (runs_on e)) && negb (bool_decide (runs_on e = OnOther)) then None
          else a ← app_step bookReader (mn_app m) e; Some (Runs (set_app a (mn_handler m) m))
      | MThrow => Some Terminated
      end
  end.

(** The k-th report. *)
Definition report (k : nat) : Role := if Nat.even k then Leader else Follower.

Definition main_ok (m : MainState) : Prop :=
  mn_g_server m = true /\ joined (mn_app m)
  /\ mn_lastRole m = report (Datatypes.S (length (mn_reports m)))
  /\ mn_reports m = report <$> seq 0 (length (mn_reports m)).

Definition outcome_ok (o : Outcome) : Prop :=
  match o with Runs m => main_ok m | Returned _ => False | Terminated => True end.

Lemma main_round_ok m : main_ok m -> outcome_ok (main_round m).
Proof.
  intros (Hg & Hj & Hl & Hr). unfold main_round. rewrite Hg. cbn [negb].
  case_bool_decide as Hd; [done|].
  assert ((if isLeader (ap_server (mn_app m)) then Leader else Follower) = report (length (mn_reports m))) as ->.
  { rewrite Hl in Hd. unfold report in *. rewrite Nat.even_succ, <- Nat.negb_even in Hd.
    revert Hd. destruct (isLeader _); destruct (Nat.even (length (mn_reports m))); simpl; congruence. }
  split_and!; [done|done| |]; cbn [mn_lastRole mn_reports]; rewrite length_app, Nat.add_1_r.
  - unfold report. by rewrite !Nat.even_succ, Nat.odd_succ.
  - rewrite seq_S, fmap_app. by f_equal.
Qed.

Lemma set_app_ok a h m : main_ok m -> joined a -> main_ok (set_app a h m).
Proof. intros (Hg & _ & Hl & Hr) Hj. by split_and!. Qed.

Lemma main_step_ok o e o' : outcome_ok o -> main_step o e = Some o' -> outcome_ok o'.
Proof.
  intros Ho Hs. destruct o as [m| |]; [|done..]. cbn [outcome_ok] in Ho. cbn [main_step] in Hs.
  pose proof Ho as (Hg & Hj & _). destruct e as [|t| |e|].
  - case_bool_decide; simplify_eq. by apply main_round_ok.
  - unfold signalHandler in Hs. rewrite Hg in Hs. cbn [negb] in Hs. cbv zeta in Hs.
    destruct (ap_stop (mn_app m)); [done|]. destruct t; repeat case_match; simplify_eq;
      (apply set_app_ok; [done|apply stop_request_joined]).
  - unfold handler_step in Hs. destruct (ap_stop (mn_app m)) as [p|]; [|done]. cbn [mbind option_bind] in Hs.
    case_bool_decide; [by simplify_eq|]. unbind Hs. simplify_eq. apply set_app_ok; [done|].
    by apply (app_step_joined bookReader (mn_app m) AStop).
  - destruct e as [|l e|s|]; [..|done];
      (match type of Hs with (if ?b then _ else _) = _ => destruct b; [done|] end; unbind Hs; simplify_eq;
       apply set_app_ok; [done|by eapply app_step_joined]).
  - by simplify_eq.
Qed.

End MainLoop.

Definition is_u16 (z : Z) : Prop := 0 <= z < 2 ^ 16.

Lemma u16_range z : is_u16 (u16 z).
Proof. unfold is_u16, u16. pose proof (Z.mod_pos_bound z (2 ^ 16)). lia. Qed.

(** Peers numbered from 1 in the order given, ports in range. *)
Record config_numbered (c : AppConfig) : Prop := {
  cn_ids : pi_id <$> ac_peers c = seqZ 1 (Z.of_nat (length (ac_peers c)));
  cn_ports : Forall (fun p => is_u16 (pi_raftPort p) /\ is_u16 (pi_clientPort p)) (ac_peers c)
}.

Lemma seqZ_snoc (n : nat) : seqZ 1 (Z.of_nat n) ++ [Z.of_nat n + 1] = seqZ 1 (Z.of_nat (S n)).
Proof.
  replace (Z.of_nat (S n)) with (Z.of_nat n + 1) by lia. rewrite seqZ_app by lia.
  f_equal. simpl. by rewrite Z.add_comm.
Qed.

Lemma add_peer_numbered c p :
  config_numbered c -> pi_id p = Z.of_nat (length (ac_peers c)) + 1 ->
  is_u16 (pi_raftPort p) -> is_u16 (pi_clientPort p) -> config_numbered (add_peer p c).
Proof.
  intros [Hi Hp] Ep Hr Hc. split; simpl.
  - rewrite fmap_app, Hi, length_app, Nat.add_comm. simpl. rewrite Ep. apply seqZ_snoc.
  - apply Forall_app. by split; [|apply Forall_singleton].
Qed.

Lemma parse_peer_numbered arg c c' :
  config_numbered c -> Z.of_nat (length (ac_peers c)) + 1 < 2 ^ 64 -> parse_peer arg c = inr c' ->
  config_numbered c' /\ length (ac_peers c') = S (length (ac_peers c)).
Proof.
  intros Hc Hn. unfold parse_peer.
  repeat case_match; try done. intros [= <-]. split.
  - apply add_peer_numbered; [done|simpl; by rewrite u64_small by mach|apply u16_range..].
  - simpl. rewrite length_app. simpl. lia.
Qed.

Lemma parse_args_numbered n : forall args o o',
  (length args <= n)%nat -> config_numbered (op_cfg o) ->
  Z.of_nat (length (ac_peers (op_cfg o)) + length args) + 1 < 2 ^ 64 ->
  parse_args args o = inr o' -> config_numbered (op_cfg o').
Proof.
  induction n as [|n IH]; intros [|arg args] o o' Hl Hc Hn Hs; simpl in Hl;
    [by simplify_eq/=|lia|by simplify_eq/=|].
  assert (forall c, parse_peer arg (op_cfg o) = inr c -> parse_args args (set_cfg c o) = inr o' ->
    config_numbered (op_cfg o')) as Hpeer.
  { intros c Hp. apply parse_peer_numbered in Hp as [Hc' Hl']; [|done|simpl in Hn; lia].
    apply IH; [lia|done|]. simpl in *. lia. }
  assert (match parse_peer arg (op_cfg o) with inl e => inl e | inr c => parse_args args (set_cfg c o) end
            = inr o' -> config_numbered (op_cfg o')) as Hpeer'.
  { destruct (parse_peer _ _); [done|]. by apply Hpeer. }
  cbn [parse_args] in Hs. cbn zeta in Hs. destruct args as [|v rest]; [by apply Hpeer'|].
  cbn [length] in Hl, Hn.
  repeat case_bool_decide; try destruct (stoul v); try done;
    first [by apply Hpeer' | refine (IH rest _ o' _ _ _ Hs); [lia|by destruct Hc; split|simpl; lia]].
Qed.

(** A parse that goes wrong is not accepted. *)
Lemma parse_peer_error arg c o : parse_peer arg c <> inl (Accepted o).
Proof.
  unfold parse_peer. by repeat case_match.
Qed.

Lemma parse_args_error n : forall args o o',
  (length args <= n)%nat -> parse_args args o <> inl (Accepted o').
Proof.
  induction n as [|n IH]; intros [|arg args] o o' Hl; simpl in Hl; [done|lia|done|].
  assert (match parse_peer arg (op_cfg o) with inl e => inl e | inr c => parse_args args (set_cfg c o) end
            <> inl (Accepted o')) as Hpeer.
  { destruct (parse_peer _ _) eqn:E; [|apply IH; lia]. intros [= ->]. by apply parse_peer_error in E. }
  cbn [parse_args]. cbn zeta. destruct args as [|v rest]; [done|]. cbn [length] in Hl.
  repeat case_bool_decide; try destruct (stoul v); try done; apply IH; lia.
Qed.

Lemma self_found c :
  existsb (fun p => pi_id p =? ac_selfId c) (ac_peers c) = true ->
  exists p, self c = Some p /\ p ∈ ac_peers c /\ pi_id p = ac_selfId c.
Proof.
  intros He. apply existsb_exists in He as (p & Hin%list_elem_of_In & Hp%Z.eqb_eq). unfold self.
  destruct (head (filter (fun p => pi_id p = ac_selfId c) (ac_peers c))) as [q|] eqn:E.
  - exists q. apply head_Some_elem_of, list_elem_of_filter in E as [? ?]. done.
  - apply head_None in E. assert (p ∈ filter (fun p => pi_id p = ac_selfId c) (ac_peers c)) as Hq
      by (by apply list_elem_of_filter). rewrite E in Hq. by apply not_elem_of_nil in Hq.
Qed.

(** C31. What an accepted command line gives the server: the peers are
    numbered from 1 in the order they were named, the ports are 16-bit, the
    node is one of the peers (so [config.self()] is not null), each peer's
    address is found under its number, and over an empty log the raft node
    that is built has this number and exactly these voters. *)
Theorem accepted_config {S : Type} `{!StateMachine S} `{!Platform} `{!Random} (fsm : S) sf argv o :
  Z.of_nat (length argv) < 2 ^ 31 -> parse_main argv = Accepted o ->
  let c := op_cfg o in
  let ids := seqZ 1 (Z.of_nat (length (ac_peers c))) in
  let node := sv_node (boot o (new_WriteAheadLog [] None None) sf fsm) in
  config_numbered c
  /\ (exists p, self c = Some p /\ pi_id p = ac_selfId c)
  /\ (forall p, p ∈ ac_peers c ->
        peerAddrMap c !! pi_id p = Some (mkPeerAddr (pi_host p) (pi_raftPort p)))
  /\ n_id node ∈ ids /\ n_voters node = ids.
Proof.
  intros Hl Hp. cbn zeta. unfold parse_main in Hp. destruct argv as [|id [|dir [|arg args]]]; try done.
  destruct (stoull id) as [i|]; [|done].
  destruct (parse_args (arg :: args) (default_options i dir)) as [e|o'] eqn:E.
  { subst e. exfalso. by apply (parse_args_error _ _ _ o (le_n _)) in E. }
  destruct (existsb _ _) eqn:Ex; [|done]. injection Hp as ->.
  apply (parse_args_numbered (length (arg :: args))) in E; [|done|by split|simpl in *; lia].
  pose proof (self_found _ Ex) as (p & Hs & Hin & Hid).
  assert (voters : n_voters (sv_node (boot o (new_WriteAheadLog [] None None) sf fsm)) = pi_id <$> ac_peers (op_cfg o)).
  { unfold boot, new_Server, new_RawNode. simpl. destruct (ac_peers (op_cfg o)); [by apply not_elem_of_nil in Hin|].
    done. }
  split_and!; [done|by exists p| | |].
  - intros q Hq. apply peerAddrMap_lookup; [|done]. rewrite (cn_ids _ E). apply NoDup_seqZ.
  - rewrite <- (cn_ids _ E). simpl. rewrite <- Hid. by apply list_elem_of_fmap_2.
  - by rewrite voters, (cn_ids _ E).
Qed.

(** ** The command line of a configuration *)

Definition peer_arg (p : PeerInfo) : bytes :=
  pi_host p ++ [58] ++ to_string (pi_raftPort p) ++ [58] ++ to_string (pi_clientPort p).

Definition read_mode_arg (r : ReadMode) : bytes :=
  ascii_bytes match r with ReadIndex => "readindex" | LeaseBasedRead => "lease" | Direct => "direct" end.

Definition command_line (o : Options) : list bytes :=
  [to_string (ac_selfId (op_cfg o)); ac_dataDir (op_cfg o)] ++ (peer_arg <$> ac_peers (op_cfg o))
  ++ [ascii_bytes "--mode"; op_mode o; ascii_bytes "--readmode"; read_mode_arg (op_readMode o);
      ascii_bytes "--orderport"; to_string (op_orderPort o);
      ascii_bytes "--electionTick"; to_string (ac_electionTick (op_cfg o))].

(** Options a command line can express: what it cannot set has its default,
    and a host name has no colon. *)
Record expressible (o : Options) : Prop := {
  ex_numbered : config_numbered (op_cfg o);
  ex_self : ac_selfId (op_cfg o) ∈ pi_id <$> ac_peers (op_cfg o);
  ex_hosts : Forall (fun p => 58 ∉ pi_host p) (ac_peers (op_cfg o));
  ex_count : Z.of_nat (length (ac_peers (op_cfg o))) < 2 ^ 31;
  ex_orderPort : is_u16 (op_orderPort o);
  ex_electionTick : is_u32 (ac_electionTick (op_cfg o));
  ex_defaults : ac_heartbeatTick (op_cfg o) = 1 /\ ac_maxSizePerMsg (op_cfg o) = 2 ^ 20
    /\ ac_maxInflightMsgs (op_cfg o) = 256
}.

Lemma u16_small z : is_u16 z -> u16 z = z.
Proof. apply Z.mod_small. Qed.

Lemma to_string_no_colon z : 0 <= z -> 58 ∉ to_string z.
Proof.
  intros Hz Hin. unfold to_string in Hin. rewrite (proj2 (Z.ltb_ge z 0)) in Hin by lia.
  pose proof (print_nat_digits 20 z Hz) as Hd. rewrite Forall_forall in Hd. by specialize (Hd _ Hin).
Qed.

Lemma find_byte_app c s t : c ∉ s -> find_byte c (s ++ c :: t) = Some (length s).
Proof. intros Hc. apply find_byte_Some. by exists s, t. Qed.

Lemma parse_peer_arg p c :
  58 ∉ pi_host p -> is_u16 (pi_raftPort p) -> is_u16 (pi_clientPort p) ->
  pi_id p = u64 (Z.of_nat (length (ac_peers c)) + 1) ->
  parse_peer (peer_arg p) c = inr (add_peer p c).
Proof.
  intros Hh Hr Hc Hi. unfold parse_peer, peer_arg, stoul. simpl.
  rewrite find_byte_app by done. rewrite drop_past, find_byte_app by (apply to_string_no_colon, Hr).
  rewrite drop_past, !take_app_length, !stoull_to_string by (unfold is_u16 in *; mach).
  rewrite !u16_small, <- Hi by done. by destruct p.
Qed.

(** A peer is not taken for an option. *)
Lemma peer_arg_no_option p s : 58 ∉ ascii_bytes s -> peer_arg p <> ascii_bytes s.
Proof. intros Hs E. apply Hs. rewrite <- E. unfold peer_arg. set_solver. Qed.

Lemma parse_args_peer p args o :
  58 ∉ pi_host p -> is_u16 (pi_raftPort p) -> is_u16 (pi_clientPort p) ->
  pi_id p = u64 (Z.of_nat (length (ac_peers (op_cfg o))) + 1) ->
  parse_args (peer_arg p :: args) o = parse_args args (set_cfg (add_peer p (op_cfg o)) o).
Proof.
  intros Hh Hr Hc Hi. cbn [parse_args]. cbn zeta. rewrite parse_peer_arg by done.
  destruct args as [|v rest]; [done|].
  rewrite !bool_decide_eq_false_2; [done|apply peer_arg_no_option; by vm_compute; set_solver..].
Qed.

Definition add_peers (ps : list PeerInfo) (c : AppConfig) : AppConfig := foldl (fun c p => add_peer p c) c ps.

Lemma parse_args_peers ps args : forall o,
  Forall (fun p => 58 ∉ pi_host p) ps ->
  Forall (fun p => is_u16 (pi_raftPort p) /\ is_u16 (pi_clientPort p)) ps ->
  pi_id <$> ps = seqZ (Z.of_nat (length (ac_peers (op_cfg o))) + 1) (Z.of_nat (length ps)) ->
  Z.of_nat (length (ac_peers (op_cfg o)) + length ps) < 2 ^ 64 ->
  parse_args ((peer_arg <$> ps) ++ args) o = parse_args args (set_cfg (add_peers ps (op_cfg o)) o).
Proof.
  induction ps as [|p ps IH]; intros o Hh Hp Hi Hn; [by destruct o|].
  inversion Hh; inversion Hp as [|? ? [? ?]]; subst.
  rewrite seqZ_cons in Hi by (simpl; lia). simpl in Hi. injection Hi as Hid Hids. simpl in Hn.
  cbn [fmap list_fmap app]. change (list_fmap _ _ peer_arg ps) with (peer_arg <$> ps).
  rewrite parse_args_peer; [|done..|rewrite Hid, u64_small; [done|mach]].
  rewrite IH; [done|done|done| |simpl; rewrite length_app; simpl; lia].
  change (list_fmap _ _ pi_id ps) with (pi_id <$> ps) in Hids. rewrite Hids. simpl.
  rewrite length_app. simpl. f_equal; lia.
Qed.

Lemma add_peers_eq ps c :
  add_peers ps c = mkAppConfig (ac_selfId c) (ac_dataDir c) (ac_peers c ++ ps) (ac_electionTick c)
                     (ac_heartbeatTick c) (ac_maxSizePerMsg c) (ac_maxInflightMsgs c).
Proof.
  unfold add_peers. revert c. induction ps as [|p ps IH]; intros c; simpl.
  - rewrite app_nil_r. by destruct c.
  - rewrite IH. simpl. by rewrite <- app_assoc.
Qed.

(** The options at the end, each with its value. *)
Lemma parse_args_options m r p t o :
  is_u16 p -> is_u32 t ->
  parse_args [ascii_bytes "--mode"; m; ascii_bytes "--readmode"; read_mode_arg r;
              ascii_bytes "--orderport"; to_string p; ascii_bytes "--electionTick"; to_string t] o
  = inr (mkOptions (set_electionTick t (op_cfg o)) m r p).
Proof.
  intros Hp Ht. assert (read_mode (read_mode_arg r) = r) as Hm by (destruct r; vm_compute; reflexivity).
  set (port := to_string p). set (tick := to_string t). set (rm := read_mode_arg r).
  simpl. unfold rm, port, tick, stoul. rewrite Hm.
  rewrite !stoull_to_string by (unfold is_u16 in *; mach). simpl.
  by rewrite u16_small, u32_small.
Qed.

(** C37. The command line of a configuration a command line can express
    (see [expressible]: peers numbered from 1 and fewer than 2^31, the node
    one of them, hosts without a colon, numbers of their widths, the fields
    no option sets at their defaults) is parsed back to it: peers in their
    order, mode, read mode, order port and election tick. *)
Theorem command_line_roundtrip o : expressible o -> parse_main (command_line o) = Accepted o.
Proof.
  intros [[Hids Hports] Hself Hh Hn Hp Ht (Hhb & Hms & Hmi)].
  assert (is_u64 (ac_selfId (op_cfg o))) as Hi.
  { rewrite Hids, elem_of_seqZ in Hself. mach. }
  pose proof Hself as Hex. apply list_elem_of_fmap in Hex as (q & Eq & Hq).
  unfold parse_main, command_line. set (tl := [ascii_bytes "--mode"; _; _; _; _; _; _; _]).
  assert (parse_args ((peer_arg <$> ac_peers (op_cfg o)) ++ tl)
            (default_options (ac_selfId (op_cfg o)) (ac_dataDir (op_cfg o))) = inr o) as Hpa.
  { rewrite parse_args_peers; [|done|done|done|simpl; lia].
    unfold tl. rewrite parse_args_options by done. rewrite add_peers_eq. simpl.
    destruct o as [[? ? ? ? ? ? ?] ? ? ?]. simpl in *. by subst. }
  destruct ((peer_arg <$> ac_peers (op_cfg o)) ++ tl) as [|a l] eqn:El.
  { by apply app_eq_nil in El as [_ ?]. }
  cbn [app]. rewrite stoull_to_string by done. rewrite Hpa.
  rewrite (proj2 (existsb_exists _ _)); [done|]. exists q. rewrite <- list_elem_of_In. split; [done|].
  by apply Z.eqb_eq.
Qed.

(** ** Instances at concrete values *)

#[local] Instance main_platform : Platform := {|
  sizeof_Entry := 48; sizeof_Entry_pos := conj eq_refl eq_refl |}.
#[local] Instance main_draws : Random := {|
  draw k a b := a; draw_range k a b Hab := conj (Z.le_refl a) Hab |}.

(** The example of the usage message. *)
Definition usage_example : list bytes :=
  ascii_bytes <$> ["1"; "./data/n1"; "127.0.0.1:9999:8000"; "127.0.0.1:9998:8001"; "127.0.0.1:9997:8002";
    "--mode"; "lob"; "--readmode"; "readindex"; "--orderport"; "9000"]%string.

Definition usage_options : Options :=
  let host := ascii_bytes "127.0.0.1" in
  mkOptions (mkAppConfig 1 (ascii_bytes "./data/n1")
               [mkPeerInfo 1 host 9999 8000; mkPeerInfo 2 host 9998 8001; mkPeerInfo 3 host 9997 8002]
               10 1 (2 ^ 20) 256)
    (ascii_bytes "lob") ReadIndex 9000.

#[local] Instance main_codec : CommandCodec := KVCodec_instance.

(** The server of the example with an order port, interrupted on the main
    thread: the loop ends, each listener in [accept] gets one more connection,
    [stop] returns, and the loop of [main] goes on. *)
Definition usage_server : Server (LOBStateMachine MapOrderBook) :=
  boot usage_options (new_WriteAheadLog [] None None) (new_SnapshotFile None None)
    (new_LOBStateMachine (new_MapOrderBook (ascii_bytes "LOB"))).

Definition usage_app : option (App (LOBStateMachine MapOrderBook)) := launch true usage_server.

Definition interrupted : list (main_event (S := LOBStateMachine MapOrderBook)) :=
  let set_up l := [MThread (AListen l (ESetup true)); MThread (AListen l EWhile)] in
  let one_more l := [MThread (AListen l (EAccept (Some 7%nat)))]
                    ++ (if bool_decide (l = Transport) then [] else [MThread (AListen l EServed)])
                    ++ [MThread (AListen l EWhile); MHandler] in
  set_up Orders ++ set_up Transport ++ set_up Clients ++ [MThread ALoop; MWake; MInterrupt OnMain]
  ++ [MThread ALoop; MHandler] ++ one_more Orders ++ one_more Transport ++ one_more Clients ++ [MWake].


(** On the loop's own thread the handler joins the thread it runs on. *)
Example interrupt_on_loop_terminates :
  (a ← usage_app; run (main_step None) (main_enter (Some a)) [MThread ALoop; MInterrupt OnLoop; MHandler])
  = Some Terminated.
Proof. vm_compute. reflexivity. Qed.

Lemma accepted_config_witness :
  parse_main usage_example = Accepted usage_options
  /\ engine usage_options = MapEngine /\ order_server usage_options = Some 9000
  /\ n_voters (sv_node (boot usage_options (new_WriteAheadLog [] None None) (new_SnapshotFile None None)
                          (new_LOBStateMachine (new_MapOrderBook (ascii_bytes "LOB"))))) = [1; 2; 3].
Proof.
  assert (parse_main usage_example = Accepted usage_options) as Hp by (vm_compute; reflexivity).
  split; [exact Hp|]. split; [vm_compute; reflexivity|]. split; [vm_compute; reflexivity|].
  apply (accepted_config (new_LOBStateMachine (new_MapOrderBook (ascii_bytes "LOB")))
           (new_SnapshotFile None None) usage_example usage_options); [vm_compute; reflexivity|exact Hp].
Defined.

Lemma usage_expressible : expressible usage_options.
Proof.
  split.
  - split; [vm_compute; reflexivity|]. repeat constructor; vm_compute; done.
  - apply (bool_decide_unpack _). vm_compute. exact I.
  - repeat constructor; apply (bool_decide_unpack _); vm_compute; exact I.
  - vm_compute. reflexivity.
  - split; vm_compute; done.
  - split; vm_compute; done.
  - done.
Qed.

Lemma command_line_roundtrip_witness : parse_main (command_line usage_options) = Accepted usage_options.
Proof. apply (command_line_roundtrip usage_options). exact usage_expressible. Defined.

(** A port that does not fit is truncated, and an id or port that is not a
    number ends the process. *)
Example big_port_truncated :
  match parse_main (ascii_bytes <$> ["1"; "d"; "h:70000:8000"]%string) with
  | Accepted o => pi_raftPort <$> ac_peers (op_cfg o) = [4464]
  | _ => False
  end.
Proof. vm_compute. reflexivity. Qed.

Example bad_port_uncaught : parse_main (ascii_bytes <$> ["1"; "d"; "h:x:8000"]%string) = Uncaught.
Proof. vm_compute. reflexivity. Qed.
